(* ===== verification/_CoqProject ===== *)
-Q . S2P
Prelude.v
CppString.v
Proto.v
PathMapDB.v
PathMapFacts.v
PathMapLog.v
PathMapSync.v
PathMapSyncFacts.v
LRUCache.v
DataInfo.v
MetadataInfo.v
Permission.v
Kinetic.v
KeyOrder.v
FsState.v
Config.v
ConfigFacts.v
Demo.v
Drives.v
Distributed.v
DemoCluster.v
KineticHelper.v
Util.v
Lookup.v
Directory.v
File.v
Data.v
PermissionOps.v
Link.v
Rename.v
Fsck.v
Xattr.v
HelperFacts.v
InodeFacts.v
DatabaseFacts.v
DistributedFacts.v
DistributedRange.v
DistributedFailover.v
DistributedWrites.v
DistributedRepair.v
Replicated.v
Mount.v
MountFacts.v
Iointercept.v
Tools.v
IointerceptFacts.v
FuseFacts.v
LinkFacts.v
LookupFacts.v
CreateFacts.v
DirectoryFacts.v
WriteFacts.v
RenameFacts.v
MoveFacts.v
SymlinkFacts.v
RefreshFacts.v
HardlinkFacts.v
RemoveFacts.v
UnlinkFacts.v
RecoveryFacts.v
Invariant.v
InvariantOps.v
Session.v
SessionFacts.v
CacheSync.v
CacheSyncFacts.v
Interleave.v
Scripted.v
DatabaseSync.v
DatabaseLogic.v
DatabaseSyncFacts.v
