(* ===== verification/Prelude.v ===== *)
(** * h-flat: hierarchical functionality in a flat namespace

    h-flat is a FUSE file system that stores all its state under versioned keys of
    kinetic key-value drives. There are no directory inodes to walk: the metadata
    of a file is stored under its full path. Three mechanisms make that work, and
    they are the subject of this development.

    - The _path map_ (PathMapDB). A directory move, a link or a permission change
      is one entry of a shared, append-only log. Every client replays the log into
      a hash map that rewrites user paths to system paths (the path under which
      the metadata still is).
    - _Path permissions_. Every inode stores what its whole path demands of a
      caller, so that a lookup checks one inode instead of every ancestor.
    - _Versioned keys_. Metadata, data blocks, directory entries, log entries and
      the inode number token are written with test-and-set on the key version;
      clients synchronise over nothing else.

    ** Components, files and sources

    - {!Prelude}: outcomes of C++ code (return, exit, failed assert, exception,
      undefined behaviour, blocked, out of fuel) and the state monad over them;
      error codes, machine integers, tactics, the hint databases [hflat] and
      [hflat_rw], transition systems. The [REQ_*] macros of src/src/debug.h.
    - {!CppString}: [std::string] and [std::stoll]/[to_string] as the code uses
      them, with their lemmas. {!Proto}: the messages of src/src/proto.
    - {!PathMapDB} (pathmap_db.h/.cc): state, search, remapping, the four update
      operations, replay, snapshots. {!PathMapFacts} and {!PathMapLog}: its
      properties. {!PathMapSync}: the same methods as threads that share the map,
      the reader count and the mutex; {!PathMapSyncFacts}: what they may do to
      each other.
    - {!LRUCache} (lru_cache.h): the template class with list iterators as node
      identities, its invariant and its properties.
    - {!DataInfo} (data_info.h/.cc): a block and its pending writes.
    - {!MetadataInfo} (metadata_info.h/.cc; also [inherit_path_permissions] of
      fuseops/file.cc, [check_path_permissions] of lookup.cc, [check_access] of
      fuseops/permission.cc) and {!Permission}, its properties.
    - {!Kinetic} (namespace/kinetic_namespace.h, simple_kinetic_namespace.cc): the
      interface of a namespace as a class, the documented behaviour of the drives
      as the laws {!KineticSpec}, the one-drive implementation, and an in-memory
      drive that satisfies the laws. {!KeyOrder}: the order of keys and sorting.
    - {!Drives}: connections to many drives and the cluster versions of their
      protocol, with the laws {!DrivesSpec}; {!Distributed}
      (namespace/distributed_kinetic_namespace.h/.cc): the replicated,
      partitioned namespace, one definition per method. {!DistributedFacts} (the
      healthy cluster as one store), {!DistributedRange} (listing),
      {!DistributedFailover} (losing drives, reads), {!DistributedWrites} (writes,
      recovery), {!DistributedRepair} (read repair, partition updates) and
      {!Replicated} (a healthy cluster as an instance of the namespace interface).
      {!DemoCluster}: a concrete cluster.
    - {!FsState} (main.h): [struct hflat_priv] as one record, with the heap that
      the [shared_ptr]s of both caches point into, so that aliasing between the
      caches and an operation's objects is in the model.
    - {!Config} (main.cc: [parse_configuration], [main]) and {!ConfigFacts};
      {!Mount} ([hflat_init] up to the construction of [hflat_priv], the
      constructors of main.h and simple_kinetic_namespace.cc, [hflat_statfs] of
      fuseops/attr.cc) and {!MountFacts}. The rest of [hflat_init] is in {!File}.
    - {!KineticHelper} (namespace/kinetic_helper.cc, [to_int64] of util.cc),
      {!Util} (util.cc), {!Lookup} (lookup.cc): the layers under the operations.
    - {!Directory}, {!File}, {!Data}, {!PermissionOps}, {!Link}, {!Rename},
      {!Xattr} (fuseops/directory.cc, file.cc, data.cc with sync.cc and attr.cc,
      permission.cc, link.cc, rename.cc, xattr.cc) and {!Fsck} (fsck/fsck.cc): one
      definition per operation, retries, undo paths and fatal errors included.
    - {!Iointercept} (src/iointercept: pathchange.cc and the wrappers of
      iointercept.cc), {!IointerceptFacts}, and {!Tools} (src/tools/tools.cc): the
      programs around the file system. Their other end is {!PathMapDB.iointercept}
      and {!Xattr.hflat_setxattr}.
    - {!Session} (main.cc: [init_hflat_ops], [hflat_destroy]): the table of
      operations as one function from requests, and the life of a mounted client.
      {!Invariant} (which relations between states an operation keeps, with one
      rule per way the code composes calls), {!InvariantOps} (one lemma per
      operation) and {!SessionFacts}.
    - {!CacheSync}: the look-up, block, load and add protocol of lookup.cc and
      fuseops/data.cc as threads that share one cache; {!CacheSyncFacts}.
    - {!Interleave}: the calls on the namespace and their answers as data, and a
      client that can be cut off or continued at any of them; {!Scripted} its laws.
      {!DatabaseSync}: clients that run the two log operations of util.cc call by
      call on one store, with failures and crashes; {!DatabaseLogic}, the program
      logic for one client among others, and {!DatabaseSyncFacts}.
    - {!LookupFacts}, {!CreateFacts}, {!DirectoryFacts}, {!WriteFacts},
      {!RenameFacts}, {!MoveFacts}, {!SymlinkFacts}, {!RefreshFacts},
      {!HardlinkFacts}, {!RemoveFacts}, {!UnlinkFacts} and {!RecoveryFacts}: whole operations on a reliable namespace, built on one
      another.
    - {!Demo}: concrete serialisers, clocks and drives, used by witnesses only.

    ** What the theorems show

    - Path map ({!PathMapFacts}): the search is a longest-prefix match and ends;
      a directory move, a chain of moves and a circular move map every path as the
      comments of the code promise; links end at MAXSYMLINKS.
    - Log ({!PathMapLog}, {!DatabaseFacts}): [updateSnapshot] is replay, snapshots
      load back exactly, [database_update] catches up, [database_operation]
      appends exactly once, and in every sequence of client operations all clients
      agree on every version. {!DatabaseSyncFacts}: the same when the operations of
      any number of clients overlap, their namespace calls interleave, fail or get
      lost and clients crash; two schedules in which an assertion ends a client.
    - Cache ({!LRUCache}): table and list agree in every reachable state; [get] and
      [add] behave as an LRU cache that never drops dirty data.
    - Blocks ({!DataInfo}, {!HelperFacts}, {!FuseFacts}): writes change exactly
      their range; concurrent writes to different ranges of a block are both kept;
      what was written is read back.
    - Permissions ({!Permission}): stored path permissions are the POSIX search
      check of every directory above, except that a directory without execute bits
      keeps out only its owner and group; [check_access] is the POSIX access check.
    - Keys ({!HelperFacts}): metadata updates are compare-and-swap, no update is
      lost, forced updates are applied to the newest metadata, directory entries
      are created exclusively.
    - Inode numbers ({!InodeFacts}): unique over all clients in every interleaving
      of their calls on the namespace.
    - Whole operations, in the files below, start from a client that has in its cache
      the directories concerned, and mostly the file, with up-to-date permissions,
      whose caller may do what is asked, on a mount with relaxed directory times;
      the drives do not fail and nobody else writes meanwhile. "Every client" then
      means every client that has not cached the paths in question (one that has
      still answers from its cache until the entry expires) and has room for them.
    - Lookup and creation ({!LookupFacts}, {!CreateFacts}): lookup reads through
      the cache, missing paths included, when the stored inode is no reference and
      its path permissions are up to date; [hflat_create] as a whole adds the entry
      and the inode, which its client and all others then find.
    - Data from client to client ({!WriteFacts}): what one client writes and
      flushes is on the drives, in place, and is what another client reads.
    - Listing ({!DirectoryFacts}): [hflat_readdir] hands out every name of a
      directory once and in order, however many batches it takes; which names it
      leaves out.
    - Moving directories ({!MoveFacts}): [hflat_rename] of a directory appends one
      entry to the log and moves no inode; every client that is at most 42 entries
      behind finds the directory under its new name by way of the FORCE_UPDATE inode,
      and then everything below it, for names never mapped before. This puts the path map, the log, the lookup, the
      cache and the rename together.
    - Permission changes ({!RefreshFacts}): a lookup of an inode that is older than
      the last change above it answers by the new permissions and brings the inode
      up to date, when the directory it is in is cached and up to date; a schedule of two clients in which a change is hidden for good.
    - Renaming and removing ({!RenameFacts}, {!RemoveFacts}, {!RecoveryFacts}): the
      exact change [hflat_rename] and [hflat_unlink] make to the drives for a
      regular file, which blocks the latter finds and which it overlooks, what every
      client finds afterwards, and that fsck undoes the rename of a regular file to
      a free name that was cut off at any point where its recovery entry exists.
    - Symbolic links ({!SymlinkFacts}, {!LinkFacts}): [hflat_symlink] as a whole, for
      names never mapped before; a client that has followed the log reads the target back and finds below the
      link what is below the target; what one that has not finds instead.
    - Hard links ({!HardlinkFacts}, {!UnlinkFacts}): both names of a linked file
      forward to one inode, and every client that has cached none of it finds what is
      stored for it under either; removing one name leaves the inode and the others. Between two of the
      writes of the link the inode is stored nowhere, and a removal that is cut off
      can leave a name that cannot be removed.
    - Operations ({!FuseFacts}): recovery entries of a rename are read back by fsck,
      listing attributes stays inside the buffer.
    - Sessions ({!SessionFacts}): whatever is requested of a mounted client and
      whatever others write meanwhile, both caches stay well formed, every cached
      object is stored under its key, and no pointer dangles. Keys can stay blocked.
    - Concurrency ({!PathMapSyncFacts}, {!CacheSyncFacts}): searches and updates of
      the path map exclude each other, a search is linearisable, there is no
      deadlock; two threads that process the same log entry apply it twice. Of the
      threads that share a cache one loads a key at a time, as long as none drops
      keys, and nobody waits for ever, unless a stored record has inode number 0;
      two concurrent look-ups of one uncached path can end the process.
    - Replication ({!DistributedFacts}, {!Replicated}): on a healthy cluster the
      distributed namespace refines one drive, so what holds over the namespace
      interface holds over it, the shared log included; directory listings are
      complete ({!DistributedRange}). A drive that goes silent costs neither reads
      nor writes, and an operation that meets it fails it over ({!DistributedFailover}, {!DistributedWrites}), a write is
      acknowledged only by agreement, read repair converges
      ({!DistributedRepair}). Recovery may lose writes and resurrect keys; those
      theorems run the code on {!DemoCluster}.
    - Mounting ({!ConfigFacts}, {!MountFacts}): a configuration is read as written
      and always yields a well-formed cluster; the namespace is chosen from it and
      no exception escapes; one drive keeps the contract of the interface.
    - Preload library and tools ({!IointerceptFacts}, {!Tools}): flattening is
      undone by the file system, foreign paths pass unchanged, "/../" hangs; the
      tool acts only when it may.
    - Each component's theorems also state where the code departs from what it
      means to do; those are named as findings of the project.

    ** Assumptions, bounds and fuel

    The drives, the uuid library, the clocks and the generated serialisers are
    parameters: the classes {!KineticConnection} with {!KineticSpec} (every write
    is atomic, a reported mismatch is true, other failures may or may not have
    written), {!KineticReliable} (no failures) where termination or success is
    claimed, {!DirectoryFacts.KineticRanges} (range requests are answered as by one
    drive) for listing, {!Env} and {!MessageSpec}. Recursion that follows retries or a data
    dependent loop takes fuel; a run that is cut ends in [NoFuel], never in a
    result. The theorems give the fuel that is enough: one call per path component
    for the search, MAXSYMLINKS + 1 rounds for links, two rounds for [put_data],
    [put_metadata_forced] and [database_operation] without interference. Integers
    keep their C++ width where the code can leave it ([wrap64], [to_i32], ...).
    Operations of one client run one after the other, except on the path map and
    the caches, whose threads interleave in {!PathMapSync} and {!CacheSync}. Clients
    interleave per operation in {!DatabaseFacts} and per namespace call in
    {!InodeFacts} and {!DatabaseSync}; elsewhere the theorems about several clients
    let each start from whatever the drives hold.

    In the distributed namespace the tasks given to [std::async] run where they are
    started and in order, a detached synchronisation is queued; {!DistEnv} has its
    hash function, random draws and [float] arithmetic, {!FairDraws} says that the
    draws are fair, which termination of reads needs. Threads of {!PathMapSync}
    take one step per level of a search, one per access outside the mutex, and one
    for what a writer does under it; {!PathMapSyncFacts.pathmap_exclusion} is why
    a coarser writer step cannot be observed. The reader count is an integer
    without bound: it is at most the number of threads. The preload library has
    its mount table, working directory and hash function as parameters, and one
    unit of fuel per path component.

    ** Not modelled

    Log and debug output, the call of [fuse_main], process start-up of the client
    libraries, and the variants for macOS. Concurrent operations of one client
    outside the path map and the caches, and the races of the tasks of one
    distributed write, are not modelled: they are sequential.

    Every operation is modelled, with its retries, undo paths and errors, and is
    covered by {!SessionFacts}. The theorems about what a whole operation does to
    the drives are for relaxed time stamps, for regular files, their first hard link
    and the removal of one of several names included, for symbolic links and, where
    moving and listing are concerned, directories whose names no earlier move or link
    has mapped; for fsck's scan of a directory (as opposed to the repair of one entry)
    and for partition changes made by several clients of one cluster at a time there
    are none. *)
From stdpp Require Export gmap sets list strings.
From Stdlib Require Export ZArith Lia Ascii.

#[global] Open Scope Z_scope.

(** ** Outcomes of C++ code

    A call either returns, or ends the process, or is undefined:
    [Exit] is the [REQ_TRUE]/[REQ_0] macro (debug.h: delete PRIV and
    [exit(EXIT_FAILURE)]), [AssertFail] a failed [assert] (the build does not
    define NDEBUG), [Throw] a standard exception that leaves the function,
    [Undef] undefined behaviour of the language, [Blocked] a wait that no other
    step of the same thread can end, [NoFuel] a recursion that was cut. *)
Inductive outcome (S A : Type) : Type :=
| Ret (a : A) (s : S)
| Exit (s : S)
| AssertFail (s : S)
| Throw (s : S)
| Undef (s : S)
| Blocked (s : S)
| NoFuel (s : S).

Arguments Ret {S A} _ _.
Arguments Exit {S A} _.
Arguments AssertFail {S A} _.
Arguments Throw {S A} _.
Arguments Undef {S A} _.
Arguments Blocked {S A} _.
Arguments NoFuel {S A} _.

(** Stateful code over a state [S]. *)
Definition M (S A : Type) : Type := S → outcome S A.

Definition mret_ {S A} (a : A) : M S A := λ s, Ret a s.

Definition mbind_ {S A B} (m : M S A) (f : A → M S B) : M S B := λ s,
  match m s with
  | Ret a s' => f a s'
  | Exit s' => Exit s'
  | AssertFail s' => AssertFail s'
  | Throw s' => Throw s'
  | Undef s' => Undef s'
  | Blocked s' => Blocked s'
  | NoFuel s' => NoFuel s'
  end.

Definition get_ {S} : M S S := λ s, Ret s s.
Definition put_ {S} (s : S) : M S unit := λ _, Ret tt s.
Definition gets_ {S A} (f : S → A) : M S A := λ s, Ret (f s) s.
Definition modify_ {S} (f : S → S) : M S unit := λ s, Ret tt (f s).
Definition exit_ {S A} : M S A := λ s, Exit s.
Definition assert_ {S} (b : bool) : M S unit := λ s, if b then Ret tt s else AssertFail s.
Definition undef_ {S A} : M S A := λ s, Undef s.
Definition throw_ {S A} : M S A := λ s, Throw s.
Definition nofuel_ {S A} : M S A := λ s, NoFuel s.

(** The [REQ_TRUE] and [REQ_0] macros of debug.h. *)
Definition REQ_TRUE {S} (b : bool) : M S unit := λ s, if b then Ret tt s else Exit s.
Definition REQ_0 {S} (err : Z) : M S unit := REQ_TRUE (err =? 0).

(** Run code over a component of a larger state. *)
Definition zoom {S T A} (proj : S → T) (upd : T → S → S) (m : M T A) : M S A := λ s,
  match m (proj s) with
  | Ret a t => Ret a (upd t s)
  | Exit t => Exit (upd t s)
  | AssertFail t => AssertFail (upd t s)
  | Throw t => Throw (upd t s)
  | Undef t => Undef (upd t s)
  | Blocked t => Blocked (upd t s)
  | NoFuel t => NoFuel (upd t s)
  end.

Module MNotations.
Declare Scope cpp_scope.
Delimit Scope cpp_scope with cpp.
Notation "'let!' x := m 'in' k" := (mbind_ m (fun x => k))
  (at level 10, x binder, m at level 100, k at level 200) : cpp_scope.
Notation "m ';;;' k" := (mbind_ m (fun _ => k))
  (at level 199, right associativity) : cpp_scope.
End MNotations.
Export MNotations.
#[global] Open Scope cpp_scope.

(** ** Error codes (Linux errno values; functions return them negated) *)
Definition EPERM : Z := 1.
Definition ENOENT : Z := 2.
Definition EIO : Z := 5.
Definition EAGAIN : Z := 11.
Definition EACCES : Z := 13.
Definition EEXIST : Z := 17.
Definition ENOTDIR : Z := 20.
Definition EINVAL : Z := 22.
Definition EFBIG : Z := 27.
Definition ERANGE : Z := 34.
Definition ENAMETOOLONG : Z := 36.
Definition ENOTEMPTY : Z := 39.
Definition ELOOP : Z := 40.
Definition ENODATA : Z := 61.
Definition EHOSTDOWN : Z := 112.
Definition EALREADY : Z := 114.

(** ** Machine integers *)
Definition u64_mod : Z := 18446744073709551616.
Definition u32_mod : Z := 4294967296.
Definition u16_mod : Z := 65536.
Definition wrap64 (z : Z) : Z := z mod u64_mod.
Definition wrap32 (z : Z) : Z := z mod u32_mod.
Definition wrap16 (z : Z) : Z := z mod u16_mod.
(** Conversion of an integer to [int] / [int64_t] (two's complement). *)
Definition to_i32 (z : Z) : Z := (z + 2147483648) mod u32_mod - 2147483648.
Definition to_i64 (z : Z) : Z := (z + 9223372036854775808) mod u64_mod - 9223372036854775808.
Definition is_int32 (z : Z) : Prop := -2147483648 <= z < 2147483648.
Definition is_int64 (z : Z) : Prop := -9223372036854775808 <= z < 9223372036854775808.

(** ** Tactics of the development *)

(** Open the binds of a successful run. *)
Ltac runs :=
  repeat match goal with
  | H : context [mbind_ _ _ _] |- _ => unfold mbind_ at 1 in H
  | H : Ret _ _ = Ret _ _ |- _ => injection H as; subst
  | H : (if ?b then _ else _) = Ret _ _ |- _ => destruct b eqn:?
  | H : match ?m with Ret _ _ => _ | _ => _ end = Ret _ _ |- _ => destruct m eqn:?; try discriminate
  end.

(** Unfold the primitive steps of the monad. *)
Ltac msimpl :=
  unfold mbind_, mret_, get_, put_, gets_, modify_, assert_, exit_, undef_, throw_, nofuel_,
    REQ_0, REQ_TRUE, zoom in *; cbn beta iota in *.

Lemma mbind_Ret {S A B} (m : M S A) (f : A → M S B) s a s' :
  m s = Ret a s' → mbind_ m f s = f a s'.
Proof. unfold mbind_. by intros ->. Qed.

Lemma mbind_lam {S A B} (a : S → A) (g : S → S) (f : A → M S B) s :
  mbind_ (λ s, Ret (a s) (g s)) f s = f (a s) (g s).
Proof. done. Qed.

(** Run the first call of a sequence with what is known of it. *)
Ltac step_by lem :=
  match goal with |- context [mbind_ ?m ?f ?s] => rewrite (mbind_Ret m f s _ _ lem) end; cbv beta.

(** Decide a lookup in a map built from inserts, deletes and alters. *)
Ltac lookup_cases :=
  repeat (rewrite lookup_insert || rewrite lookup_alter || rewrite lookup_delete);
  repeat case_decide; simplify_eq; try done; try congruence.

Ltac zify_div := Z.to_euclidean_division_equations.

(** ** Facts shared by the components *)

Create HintDb hflat discriminated.
Create Rewrite HintDb hflat_rw.

Lemma mbind_ret_l {S A B} (a : A) (f : A → M S B) s : mbind_ (mret_ a) f s = f a s.
Proof. done. Qed.

Lemma mbind_assoc {S A B C} (m : M S A) (f : A → M S B) (g : B → M S C) s :
  mbind_ (mbind_ m f) g s = mbind_ m (λ a, mbind_ (f a) g) s.
Proof. unfold mbind_. by destruct (m s). Qed.

Lemma mbind_ext {S A B} (m : M S A) (f g : A → M S B) s : (∀ a s, f a s = g a s) → mbind_ m f s = mbind_ m g s.
Proof. intros Hf. unfold mbind_. by destruct (m s). Qed.

Lemma mbind_Ret_inv {S A B} (m : M S A) (f : A → M S B) s b s'' :
  mbind_ m f s = Ret b s'' → ∃ a s', m s = Ret a s' ∧ f a s' = Ret b s''.
Proof. unfold mbind_. destruct (m s); try discriminate. eauto. Qed.

Lemma to_i32_id z : is_int32 z → to_i32 z = z.
Proof. unfold is_int32, to_i32, u32_mod. intros. rewrite Z.mod_small; lia. Qed.

Lemma to_i64_id z : is_int64 z → to_i64 z = z.
Proof. unfold is_int64, to_i64, u64_mod. intros. rewrite Z.mod_small; lia. Qed.

Lemma wrap64_id z : 0 <= z < u64_mod → wrap64 z = z.
Proof. intros. by apply Z.mod_small. Qed.

#[export] Hint Rewrite @mbind_ret_l @mbind_assoc : hflat_rw.
#[export] Hint Resolve to_i32_id to_i64_id wrap64_id : hflat.

(** Sequences of steps of a transition relation. *)
Inductive steps {A} (R : A → A → Prop) : A → A → Prop :=
| steps_refl a : steps R a a
| steps_step a b c : steps R a b → R b c → steps R a c.

(** An invariant of every step holds in every reachable state. *)
Lemma steps_invariant {A} (R : A → A → Prop) (I : A → Prop) a b :
  (∀ x y, I x → R x y → I y) → I a → steps R a b → I b.
Proof. intros HI Ha Hs. induction Hs; eauto. Qed.

Lemma steps_trans {A} (R : A → A → Prop) a b c :
  steps R a b → steps R b c → steps R a c.
Proof. intros H1 H2. induction H2; eauto using steps. Qed.

Lemma steps_one {A} (R : A → A → Prop) a b : R a b → steps R a b.
Proof. eauto using steps. Qed.

(** Lists. *)
Lemma nil_or_snoc {A} (l : list A) : l = [] ∨ ∃ l' x, l = l' ++ [x].
Proof. destruct l using rev_ind; eauto. Qed.
