(* ===== verification/CppString.v ===== *)
(** * The parts of [std::string] the file system uses

    A [std::string] is a list of bytes; positions and lengths are [size_t]
    values, kept as integers with the unsigned wrap-around written out, because
    the code computes with [npos] (for instance [path.size() - 1 - pos] and
    [end - pos + 1] in pathmap_db.cc). *)
From S2P Require Import Prelude.

Abbreviation cstr := (list ascii) (only parsing).

(** String literals. *)
Definition lit (s : string) : cstr := String.list_ascii_of_string s.

Definition npos : Z := u64_mod - 1.
Definition size_ (s : cstr) : Z := Z.of_nat (length s).

Definition char_in (a : ascii) (cs : cstr) : bool := bool_decide (a ∈ cs).

(** ** Searching *)

Fixpoint find_first_from (cs s : cstr) (i : Z) : Z :=
  match s with
  | [] => npos
  | a :: s' => if char_in a cs then i else find_first_from cs s' (i + 1)
  end.

(** [s.find_first_of(cs, pos)] *)
Definition find_first_of (cs s : cstr) (pos : Z) : Z :=
  if size_ s <=? pos then npos else find_first_from cs (drop (Z.to_nat pos) s) pos.

Fixpoint find_last_from (cs s : cstr) (i best : Z) : Z :=
  match s with
  | [] => best
  | a :: s' => find_last_from cs s' (i + 1) (if char_in a cs then i else best)
  end.

(** [s.find_last_of(cs)] *)
Definition find_last_of (cs s : cstr) : Z := find_last_from cs s 0 npos.

(** ** Cutting and replacing *)

(** [s.substr(pos, n)] for [pos <= s.size()]; a larger [pos] throws
    [std::out_of_range], which no caller in the modelled code can reach. *)
Definition substr (s : cstr) (pos n : Z) : cstr :=
  if size_ s <=? pos then []
  else take (Z.to_nat (Z.min n (size_ s - pos))) (drop (Z.to_nat pos) s).

(** [s.erase(pos, n)] for [pos <= s.size()]. *)
Definition erase (s : cstr) (pos n : Z) : cstr :=
  if size_ s <=? pos then s
  else take (Z.to_nat pos) s ++ drop (Z.to_nat (pos + Z.min n (size_ s - pos))) s.

(** [s.replace(pos, n, t)]; [None] is the [std::out_of_range] exception. *)
Definition replace (s : cstr) (pos n : Z) (t : cstr) : option cstr :=
  if size_ s <? pos then None
  else Some (take (Z.to_nat pos) s ++ t ++ drop (Z.to_nat (pos + Z.min n (size_ s - pos))) s).

(** [s.resize(n)]: cut, or pad with NUL characters. *)
Definition resize_ (s : cstr) (n : Z) : cstr :=
  take (Z.to_nat n) s ++ replicate (Z.to_nat n - length s) Ascii.zero.

(** [s[pos] = c] for a valid position. *)
Definition set_char (s : cstr) (pos : Z) (c : ascii) : cstr := <[Z.to_nat pos := c]> s.

(** A [const char *] argument made into a string ends at the first NUL. *)
Fixpoint c_str (s : cstr) : cstr :=
  match s with
  | [] => []
  | a :: s' => if bool_decide (a = Ascii.zero) then [] else a :: c_str s'
  end.

(** [strncmp(a, b, strlen(a)) == 0]: [a] is a prefix of [b]. *)
Fixpoint is_prefix (a b : cstr) : bool :=
  match a, b with
  | [], _ => true
  | x :: a', y :: b' => bool_decide (x = y) && is_prefix a' b'
  | _ :: _, [] => false
  end.

(** ** Numbers as strings *)

Definition digit (d : Z) : ascii := Ascii.ascii_of_N (Z.to_N (48 + d)).
Definition digit_val (a : ascii) : Z := Z.of_N (Ascii.N_of_ascii a) - 48.
Definition is_digit (a : ascii) : bool := (0 <=? digit_val a) && (digit_val a <=? 9).

Fixpoint digits (fuel : nat) (z : Z) (acc : cstr) : cstr :=
  match fuel with
  | O => acc
  | S f => if z <? 10 then digit z :: acc else digits f (z / 10) (digit (z mod 10) :: acc)
  end.

(** [std::to_string] of an integer. *)
Definition to_string (z : Z) : cstr :=
  if z <? 0 then "-"%char :: digits (S (Z.to_nat (Z.log2 (- z)))) (- z) []
  else digits (S (Z.to_nat (Z.log2 z))) z [].

Definition is_space (a : ascii) : bool :=
  let n := Z.of_N (Ascii.N_of_ascii a) in (n =? 32) || ((9 <=? n) && (n <=? 13)).

Fixpoint skip_space (s : cstr) : cstr :=
  match s with
  | a :: s' => if is_space a then skip_space s' else s
  | [] => []
  end.

Fixpoint digits_prefix (s : cstr) : cstr :=
  match s with
  | a :: s' => if is_digit a then a :: digits_prefix s' else []
  | [] => []
  end.

Definition digits_value (s : cstr) (acc : Z) : Z :=
  fold_left (λ v a, v * 10 + digit_val a) s acc.

(** [std::stoll] in base 10: leading white space, an optional sign, the longest
    run of digits; [None] is [std::invalid_argument] (no digit) or
    [std::out_of_range] (not an [int64_t]). *)
Definition stoll (s : cstr) : option Z :=
  let s := skip_space s in
  let '(neg, s) := match s with
                   | a :: s' => if bool_decide (a = "-"%char) then (true, s')
                                else if bool_decide (a = "+"%char) then (false, s') else (false, s)
                   | [] => (false, s)
                   end in
  match digits_prefix s with
  | [] => None
  | ds => let v := digits_value ds 0 in
          let v := if neg : bool then - v else v in
          if (-9223372036854775808 <=? v) && (v <? 9223372036854775808) then Some v else None
  end.

(** ** Lemmas *)

Definition free_of (cs s : cstr) : Prop := Forall (λ a, char_in a cs = false) s.

Lemma size_nonneg s : 0 <= size_ s.
Proof. unfold size_. lia. Qed.

Lemma size_app s t : size_ (s ++ t) = size_ s + size_ t.
Proof. unfold size_. rewrite length_app. lia. Qed.

Lemma size_nil : size_ [] = 0.
Proof. done. Qed.

Lemma size_cons a s : size_ (a :: s) = 1 + size_ s.
Proof. unfold size_. cbn [length]. lia. Qed.

#[export] Hint Rewrite size_app size_nil size_cons : hflat_rw.
#[export] Hint Resolve size_nonneg : hflat.

Lemma free_of_app cs s t : free_of cs (s ++ t) ↔ free_of cs s ∧ free_of cs t.
Proof. apply Forall_app. Qed.

Lemma find_first_from_free cs s i : free_of cs s → find_first_from cs s i = npos.
Proof.
  revert i. induction s as [|a s IH]; intros i Hf; [done|].
  apply Forall_cons in Hf as [Ha Hf]. cbn. rewrite Ha. eauto.
Qed.

Lemma find_first_from_hit cs s a t i :
  free_of cs s → char_in a cs = true → find_first_from cs (s ++ a :: t) i = i + size_ s.
Proof.
  revert i. induction s as [|b s IH]; intros i Hf Ha; cbn.
  - rewrite Ha. unfold size_. cbn. lia.
  - apply Forall_cons in Hf as [Hb Hf]. rewrite Hb, IH by done. autorewrite with hflat_rw. lia.
Qed.

Lemma find_last_from_free cs s i b : free_of cs s → find_last_from cs s i b = b.
Proof.
  revert i. induction s as [|a s IH]; intros i Hf; [done|].
  apply Forall_cons in Hf as [Ha Hf]. cbn. rewrite Ha. eauto.
Qed.

Lemma find_last_from_hit cs s a t i b :
  free_of cs t → char_in a cs = true → find_last_from cs (s ++ a :: t) i b = i + size_ s.
Proof.
  revert i b. induction s as [|c s IH]; intros i b Hf Ha; cbn.
  - rewrite Ha. rewrite find_last_from_free by done. unfold size_. cbn. lia.
  - rewrite IH by done. autorewrite with hflat_rw. lia.
Qed.

(** The two cases of a search from the left and from the right. *)
Lemma split_first cs s :
  free_of cs s ∨ ∃ u a t, s = u ++ a :: t ∧ char_in a cs = true ∧ free_of cs u.
Proof.
  induction s as [|b s [Hf|(u & a & t & -> & Ha & Hu)]].
  - left. constructor.
  - destruct (char_in b cs) eqn:Hb.
    + right. exists [], b, s. repeat split; [done|constructor].
    + left. by constructor.
  - destruct (char_in b cs) eqn:Hb.
    + right. exists [], b, (u ++ a :: t). repeat split; [done|constructor].
    + right. exists (b :: u), a, t. repeat split; [done|by constructor].
Qed.

Lemma split_last cs s :
  free_of cs s ∨ ∃ u a t, s = u ++ a :: t ∧ char_in a cs = true ∧ free_of cs t.
Proof.
  induction s as [|b s [Hf|(u & a & t & -> & Ha & Hu)]].
  - left. constructor.
  - destruct (char_in b cs) eqn:Hb.
    + right. by exists [], b, s.
    + left. by constructor.
  - right. by exists (b :: u), a, t.
Qed.

Lemma find_last_of_free cs s : free_of cs s → find_last_of cs s = npos.
Proof. apply find_last_from_free. Qed.

Lemma find_last_of_hit cs s a t :
  free_of cs t → char_in a cs = true → find_last_of cs (s ++ a :: t) = size_ s.
Proof. intros. unfold find_last_of. rewrite find_last_from_hit by done. lia. Qed.

Lemma find_first_of_free cs s : free_of cs s → find_first_of cs s 0 = npos.
Proof.
  intros. unfold find_first_of. case_match; [done|]. by apply find_first_from_free.
Qed.

Lemma find_first_of_hit cs s a t :
  free_of cs s → char_in a cs = true → find_first_of cs (s ++ a :: t) 0 = size_ s.
Proof.
  intros. unfold find_first_of. autorewrite with hflat_rw.
  destruct (Z.leb_spec (size_ s + (1 + size_ t)) 0).
  { pose proof (size_nonneg s). pose proof (size_nonneg t). lia. }
  change (Z.to_nat 0) with O; rewrite drop_0. rewrite find_first_from_hit by done. lia.
Qed.

(** Searching from a position that cuts the string in two. *)
Lemma find_first_of_skip cs u s :
  s ≠ [] → find_first_of cs (u ++ s) (size_ u) = find_first_from cs s (size_ u).
Proof.
  intros Hs. unfold find_first_of. autorewrite with hflat_rw.
  destruct (Z.leb_spec (size_ u + size_ s) (size_ u)).
  - destruct s; [done|]. autorewrite with hflat_rw in *. pose proof (size_nonneg s). lia.
  - f_equal. unfold size_. rewrite Nat2Z.id. apply drop_app_length.
Qed.

Lemma take_size u s : take (Z.to_nat (size_ u)) (u ++ s) = u.
Proof. unfold size_. rewrite Nat2Z.id. apply take_app_length. Qed.

Lemma drop_size u s : drop (Z.to_nat (size_ u)) (u ++ s) = s.
Proof. unfold size_. rewrite Nat2Z.id. apply drop_app_length. Qed.

Lemma erase_tail u s n : size_ s <= n → erase (u ++ s) (size_ u) n = u.
Proof.
  intros Hn. unfold erase. autorewrite with hflat_rw.
  destruct (Z.leb_spec (size_ u + size_ s) (size_ u)).
  - destruct s; [apply app_nil_r|]. autorewrite with hflat_rw in *. pose proof (size_nonneg s). lia.
  - rewrite take_size, drop_ge, app_nil_r; [done|]. rewrite length_app. unfold size_ in *. lia.
Qed.

Lemma erase_mid u s t : erase (u ++ s ++ t) (size_ u) (size_ s) = u ++ t.
Proof.
  unfold erase. autorewrite with hflat_rw.
  pose proof (size_nonneg s). pose proof (size_nonneg t).
  destruct (Z.leb_spec (size_ u + (size_ s + size_ t)) (size_ u)).
  - destruct s, t; autorewrite with hflat_rw in *; try (unfold size_ in *; lia). done.
  - rewrite take_size. f_equal.
    replace (size_ u + Z.min (size_ s) (size_ u + (size_ s + size_ t) - size_ u))
      with (size_ (u ++ s)) by (rewrite size_app; lia).
    rewrite app_assoc. apply drop_size.
Qed.

Lemma replace_head u s t : replace (u ++ s) 0 (size_ u) t = Some (t ++ s).
Proof.
  unfold replace. pose proof (size_nonneg (u ++ s)). rewrite size_app in *.
  pose proof (size_nonneg s). pose proof (size_nonneg u).
  destruct (Z.ltb_spec (size_ u + size_ s) 0); [lia|].
  change (Z.to_nat 0) with O; rewrite take_0; cbn [app]. do 2 f_equal.
  replace (0 + Z.min (size_ u) (size_ u + size_ s - 0)) with (size_ u) by lia.
  apply drop_size.
Qed.

Lemma is_prefix_spec a b : is_prefix a b = true ↔ ∃ c, b = a ++ c.
Proof.
  revert b. induction a as [|x a IH]; intros b; cbn.
  { split; eauto. }
  destruct b as [|y b]; [split; [done|intros [? ?]; done]|].
  rewrite andb_true_iff, bool_decide_eq_true, IH.
  split; [intros [-> [c ->]]; eauto | intros [c Hc]; injection Hc as -> ->; eauto].
Qed.

(** ** Printing and parsing integers *)

Lemma digit_val_digit d : 0 <= d <= 9 → digit_val (digit d) = d.
Proof.
  intros Hd. unfold digit_val, digit. rewrite Ascii.N_ascii_embedding; lia.
Qed.

Lemma is_digit_digit d : 0 <= d <= 9 → is_digit (digit d) = true.
Proof. intros Hd. unfold is_digit. rewrite digit_val_digit by done. lia. Qed.

Lemma digits_value_app s t v : digits_value (s ++ t) v = digits_value t (digits_value s v).
Proof. unfold digits_value. apply fold_left_app. Qed.

(** What [digits] writes: a non-empty run of digits that denotes [z]. *)
Lemma digits_spec fuel z acc :
  0 <= z < 2 ^ Z.of_nat fuel →
  ∃ ds, digits fuel z acc = ds ++ acc ∧ (fuel ≠ O → ds ≠ []) ∧ Forall (λ a, is_digit a = true) ds ∧
        digits_value ds 0 = z.
Proof.
  revert z acc. induction fuel as [|f IH]; intros z acc Hz.
  { exists []. change (2 ^ Z.of_nat 0) with 1 in Hz. repeat split; [done|constructor|cbn; lia]. }
  cbn [digits]. destruct (Z.ltb_spec z 10).
  - exists [digit z]. repeat split; [done|constructor; [apply is_digit_digit; lia|constructor]|].
    cbn. rewrite digit_val_digit; lia.
  - destruct (IH (z / 10) (digit (z mod 10) :: acc)) as (ds & -> & _ & Hd & Hv).
    { rewrite Nat2Z.inj_succ, Z.pow_succ_r in Hz by lia. zify_div. lia. }
    exists (ds ++ [digit (z mod 10)]). rewrite <- app_assoc. cbn.
    repeat split; [by destruct ds| |].
    + apply Forall_app. split; [done|]. constructor; [|constructor].
      apply is_digit_digit. zify_div. lia.
    + rewrite digits_value_app, Hv. cbn. rewrite digit_val_digit; zify_div; lia.
Qed.

Lemma log2_fuel z : 0 <= z → 0 <= z < 2 ^ Z.of_nat (S (Z.to_nat (Z.log2 z))).
Proof.
  intros Hz. rewrite Nat2Z.inj_succ, Z2Nat.id by apply Z.log2_nonneg.
  destruct (Z.eq_dec z 0) as [->|]; [cbn; lia|].
  pose proof (Z.log2_spec z). lia.
Qed.

(** The shape of a printed integer. *)
Lemma to_string_spec z :
  ∃ ds, to_string z = (if z <? 0 then "-"%char :: ds else ds) ∧ ds ≠ [] ∧
        Forall (λ a, is_digit a = true) ds ∧ digits_value ds 0 = Z.abs z.
Proof.
  unfold to_string. destruct (Z.ltb_spec z 0).
  - destruct (digits_spec (S (Z.to_nat (Z.log2 (- z)))) (- z) []) as (ds & -> & Hne & Hd & Hv).
    { apply log2_fuel. lia. }
    exists ds. rewrite app_nil_r. repeat split; [auto|done|lia].
  - destruct (digits_spec (S (Z.to_nat (Z.log2 z))) z []) as (ds & -> & Hne & Hd & Hv).
    { apply log2_fuel. lia. }
    exists ds. rewrite app_nil_r. repeat split; [auto|done|lia].
Qed.

Lemma digits_prefix_all s t :
  Forall (λ a, is_digit a = true) s → digits_prefix t = [] → digits_prefix (s ++ t) = s.
Proof.
  intros Hs Ht. induction Hs as [|a s Ha Hs IH]; cbn; [done|]. by rewrite Ha, IH.
Qed.

Lemma is_digit_not_space a : is_digit a = true → is_space a = false.
Proof. unfold is_digit, is_space, digit_val. lia. Qed.

Lemma is_digit_ne a b : is_digit a = true → is_digit b = false → a ≠ b.
Proof. intros Ha Hb ->. congruence. Qed.

(** [std::stoll] reads back what [std::to_string] writes. *)
Lemma stoll_to_string z : is_int64 z → stoll (to_string z) = Some z.
Proof.
  intros Hz. destruct (to_string_spec z) as (ds & -> & Hne & Hd & Hv).
  unfold is_int64 in Hz. unfold stoll. destruct (Z.ltb_spec z 0).
  - change (skip_space ("-"%char :: ds)) with ("-"%char :: ds). cbv beta zeta iota.
    rewrite bool_decide_true by done.
    rewrite <- (app_nil_r ds), digits_prefix_all by done. destruct ds; [done|]. rewrite Hv.
    replace ((-9223372036854775808 <=? - Z.abs z) && (- Z.abs z <? 9223372036854775808)) with true by lia.
    f_equal. lia.
  - destruct ds as [|a ds]; [done|]. pose proof Hd as [Ha _]%Forall_cons.
    cbn [skip_space]. rewrite is_digit_not_space by done. cbv beta zeta iota.
    rewrite !bool_decide_false by (intros ->; done).
    rewrite <- (app_nil_r (a :: ds)), digits_prefix_all by done. rewrite Hv.
    replace ((-9223372036854775808 <=? Z.abs z) && (Z.abs z <? 9223372036854775808)) with true by lia.
    f_equal. lia.
Qed.

(** Printing is injective, so keys built from numbers do not collide. *)
#[export] Instance to_string_inj : Inj (=) (=) to_string.
Proof.
  intros x y E. destruct (to_string_spec x) as (dx & Ex & Nx & Dx & Vx).
  destruct (to_string_spec y) as (dy & Ey & Ny & Dy & Vy). rewrite Ex, Ey in E.
  assert (Hm : ∀ l, Forall (λ a, is_digit a = true) ("-"%char :: l) → False).
  { intros l Hl. by apply Forall_cons in Hl as [? _]. }
  destruct (Z.ltb_spec x 0), (Z.ltb_spec y 0); simplify_eq; try lia; exfalso; eauto.
Qed.

Lemma to_string_not_nil z : to_string z ≠ [].
Proof. destruct (to_string_spec z) as (ds & -> & Hne & _). by case_match. Qed.

(** No digit or sign is one of the separators the keys use. *)
Lemma to_string_free cs z :
  free_of cs (lit "-0123456789") → free_of cs (to_string z).
Proof.
  intros Hcs. destruct (to_string_spec z) as (ds & -> & _ & Hd & _).
  assert (Hds : free_of cs ds).
  { eapply Forall_impl; [exact Hd|]. intros a Ha. cbn in Ha.
    apply (proj1 (Forall_forall _ _) Hcs). apply list_elem_of_In.
    unfold is_digit in Ha. destruct a as [[] [] [] [] [] [] [] []]; try (vm_compute in Ha; discriminate Ha);
      vm_compute; tauto. }
  case_match; [constructor|]; [|done|done].
  apply (proj1 (Forall_forall _ _) Hcs). apply list_elem_of_In. vm_compute. tauto.
Qed.

(** A string without NUL survives [c_str]. *)
Definition no_nul (s : cstr) : Prop := Ascii.zero ∉ s.

Lemma c_str_no_nul s : no_nul s → c_str s = s.
Proof.
  unfold no_nul. induction s as [|a s IH]; [done|]. cbn. intros Hs. rewrite bool_decide_false by set_solver.
  f_equal. set_solver.
Qed.
