(* ===== verification/Proto.v ===== *)
(** * The protobuf messages of src/proto

    Each message is a record of the values its getters return (an unset optional
    field reads as its default); an optional field whose presence the code tests
    is an [option]. The generated serialisers are not part of the repository:
    {!Kinetic} takes them as parameters. *)
From S2P Require Import Prelude CppString.

(** ** database.proto *)

(** [hflat::MappingType]. [UNSET] is the value-initialised enum (0) that
    [unordered_map::operator[]] stores when it creates an entry; it is not an
    enumerator of the message. *)
Inductive MappingType := MOVE | SYMLINK | NONE | REUSE | UNSET.

#[export] Instance MappingType_eq_dec : EqDecision MappingType.
Proof. solve_decision. Defined.

(** [hflat::db_entry::Type]; [INVALID n] is any other number (the [default]
    branch of the switch in [updateSnapshot]). *)
Inductive db_entry_Type :=
| db_entry_Type_MOVE | db_entry_Type_SYMLINK | db_entry_Type_NONE | db_entry_Type_REMOVED
| db_entry_Type_INVALID (n : Z).

Record db_entry := mk_db_entry {
  de_origin : cstr;
  de_type : db_entry_Type;
  de_target : cstr;
}.

Record db_snapshot_entry := mk_db_snapshot_entry {
  se_origin : cstr;
  se_type : MappingType;
  se_target : option cstr;
  se_permissiontimestamp : Z;
}.

Record db_snapshot := mk_db_snapshot {
  snapshot_version : Z;
  snapshot_entries : list db_snapshot_entry;
}.

(** ** metadata.proto *)

Inductive InodeType := POSIX | HARDLINK_T | HARDLINK_S | FORCE_UPDATE.

#[export] Instance InodeType_eq_dec : EqDecision InodeType.
Proof. solve_decision. Defined.

Inductive ReachabilityType := UID | GID | UID_OR_GID | NOT_UID | NOT_GID | GID_REQ_UID.

#[export] Instance ReachabilityType_eq_dec : EqDecision ReachabilityType.
Proof. solve_decision. Defined.

Record ReachabilityEntry := mk_ReachabilityEntry {
  re_type : ReachabilityType;
  re_gid : Z;
  re_uid : Z;
}.

#[export] Instance ReachabilityEntry_eq_dec : EqDecision ReachabilityEntry.
Proof. solve_decision. Defined.

Record ExtendedAttribute := mk_ExtendedAttribute {
  xa_name : cstr;
  xa_value : cstr;
}.

#[export] Instance ExtendedAttribute_eq_dec : EqDecision ExtendedAttribute.
Proof. solve_decision. Defined.

Record Metadata := mk_Metadata {
  md_type : InodeType;
  md_atime : Z;
  md_mtime : Z;
  md_ctime : Z;
  md_uid : Z;
  md_gid : Z;
  md_mode : Z;
  md_inode_number : Z;
  md_link_count : Z;
  md_size : Z;
  md_blocks : Z;
  md_xattr : list ExtendedAttribute;
  md_path_permission_verified : Z;
  md_path_permission : list ReachabilityEntry;
  md_path_permission_children : list ReachabilityEntry;
}.

(** A default-constructed message. *)
Definition default_Metadata : Metadata :=
  mk_Metadata POSIX 0 0 0 0 0 0 0 1 0 0 [] 0 [] [].

(** ** replication.proto *)

Inductive DriveStatus := GREEN | YELLOW | RED.

#[export] Instance DriveStatus_eq_dec : EqDecision DriveStatus.
Proof. solve_decision. Defined.

Record KineticDrive := mk_KineticDrive {
  kd_status : DriveStatus;
  kd_host : cstr;
  kd_port : Z;
}.

Record Partition := mk_Partition {
  cluster_version : Z;
  partitionID : option Z;
  drives : list KineticDrive;
  logID : option Z;
}.
