(* ===== verification/PathMapDB.v ===== *)
(** * PathMapDB: the map that remembers directory moves, links and permission
    changes (src/pathmap_db.h, src/pathmap_db.cc)

    State, search, remapping of a user path to a system path, the four update
    operations, replay of database entries and snapshots. *)
From S2P Require Import Prelude CppString Proto.

Record PMEntry := mk_PMEntry {
  pm_type : MappingType;
  pm_target : cstr;
  pm_permissionTimeStamp : Z;
}.

#[export] Instance PMEntry_eq_dec : EqDecision PMEntry.
Proof. solve_decision. Defined.

(** The object without its reader count and lock: every operation is atomic. *)
Record PathMapDB := mk_PathMapDB {
  snapshotVersion : Z;
  snapshot : gmap (list ascii) PMEntry;
}.

Inductive CallingType := LOOKUP | READLINK.

(** Linux limits. *)
Definition NAME_MAX : Z := 255.
Definition PATH_MAX : Z := 4096.
Definition MAXSYMLINKS : Z := 20.

Definition PathMapDB_new : PathMapDB := mk_PathMapDB 0 ∅.

Definition getSnapshotVersion (db : PathMapDB) : Z := snapshotVersion db.

(** ** Searching the snapshot *)

(** The entry is one the search does not remap (first condition of the method). *)
Definition dont_remap (e : PMEntry) (followReuse followSymlink : bool) : bool :=
  bool_decide (pm_type e = NONE)
  || (negb followSymlink && bool_decide (pm_type e = SYMLINK))
  || (negb followReuse && bool_decide (pm_type e = REUSE)).

Fixpoint searchPathRecursive (fuel : nat) (m : gmap (list ascii) PMEntry) (path : cstr) (maxTimeStamp : Z)
    (followReuse followSymlink : bool) : option (bool * cstr * Z) :=
  match fuel with
  | O => None
  | S f =>
    let ts := match m !! path with
              | Some e => Z.max maxTimeStamp (pm_permissionTimeStamp e)
              | None => maxTimeStamp
              end in
    let found := match m !! path with
                 | Some e => negb (dont_remap e followReuse followSymlink)
                 | None => false
                 end in
    if found then Some (true, path, ts)
    else
      let pos := find_last_of (lit "/") path in
      if NAME_MAX <? wrap64 (size_ path - 1 - pos) then Some (false, path, - ENAMETOOLONG)
      else if pos =? npos then Some (false, path, ts)
      else searchPathRecursive f m (erase path pos npos) ts followReuse true
  end.

(** ** Undoing the path manipulation of the iointercept library *)

Fixpoint colons_to_slashes (fuel : nat) (path : cstr) : cstr :=
  match fuel with
  | O => path
  | S f => let pos := find_first_of (lit ":") path 0 in
           if pos =? npos then path else colons_to_slashes f (set_char path pos "/"%char)
  end.

Definition iointercept (path : cstr) : cstr :=
  let pos := find_first_of (lit ":") path 0 in
  if pos =? npos then path
  else
    let end_ := find_first_of (lit "/") path pos in
    let path := erase path pos (wrap64 (end_ - pos + 1)) in
    colons_to_slashes (length path) path.

(** ** User path to system path *)

(** The [while] loop. [None]: the loop did not end within [fuel] rounds.
    [systemPath.replace(0, temp.size(), target)] cannot throw (position 0). *)
Fixpoint toSystemPath_loop (fuel : nat) (m : gmap (list ascii) PMEntry) (temp systemPath : cstr)
    (maxTimeStamp : Z) (followReuse followSymlink : bool) (numLinksFollowed : Z) : option (cstr * Z) :=
  match fuel with
  | O => None
  | S f =>
    match searchPathRecursive (S (length temp)) m temp maxTimeStamp followReuse followSymlink with
    | None => None
    | Some (false, _, ts) => Some (systemPath, ts)
    | Some (true, temp, ts) =>
      match m !! temp with
      | None => None
      | Some e =>
        let numLinksFollowed := if bool_decide (pm_type e = SYMLINK) then numLinksFollowed + 1
                                else numLinksFollowed in
        if bool_decide (pm_type e = SYMLINK) && (MAXSYMLINKS <? numLinksFollowed)
        then Some (systemPath, - ELOOP)
        else
          let followReuse := negb (bool_decide (pm_type e = MOVE)) in
          match replace systemPath 0 (size_ temp) (pm_target e) with
          | None => None
          | Some systemPath =>
            toSystemPath_loop f m systemPath systemPath ts followReuse followSymlink numLinksFollowed
          end
      end
    end
  end.

(** [toSystemPath]: the system path and the permission time stamp (or a negated
    error code in its place). *)
Definition toSystemPath (fuel : nat) (db : PathMapDB) (user_path : cstr) (ctype : CallingType)
    : option (cstr * Z) :=
  let followSymlink := match ctype with LOOKUP => false | READLINK => true end in
  let systemPath := iointercept user_path in
  if PATH_MAX <? size_ systemPath then Some (systemPath, - ENAMETOOLONG)
  else toSystemPath_loop fuel (snapshot db) systemPath systemPath 0 true followSymlink 0.

(** ** Updates *)

Definition reuse_name (version : Z) : cstr := lit "|reuse_" ++ to_string version.

(** [snapshot[k]] of [unordered_map]: creates a value-initialised entry when
    there is none. *)
Definition pm_at (m : gmap (list ascii) PMEntry) (k : cstr) : PMEntry * gmap (list ascii) PMEntry :=
  match m !! k with
  | Some e => (e, m)
  | None => (mk_PMEntry UNSET [] 0, <[k := mk_PMEntry UNSET [] 0]> m)
  end.

Definition addSoftLink (origin destination : cstr) : M PathMapDB unit := λ db,
  let origin := iointercept origin in
  let destination := iointercept destination in
  let v := snapshotVersion db + 1 in
  let m := snapshot db in
  match m !! origin with
  | Some e =>
    if bool_decide (pm_type e = REUSE)
    then Ret tt (mk_PathMapDB v (<[pm_target e := mk_PMEntry SYMLINK destination 0]> m))
    else AssertFail (mk_PathMapDB v m)
  | None => Ret tt (mk_PathMapDB v (<[origin := mk_PMEntry SYMLINK destination 0]> m))
  end.

Definition addPermissionChange (path : cstr) : M PathMapDB unit := λ db,
  let path := iointercept path in
  let v := snapshotVersion db + 1 in
  let m := snapshot db in
  let e' := match m !! path with
            | Some e => mk_PMEntry (pm_type e) (pm_target e) v
            | None => mk_PMEntry NONE [] v
            end in
  Ret tt (mk_PathMapDB v (<[path := e']> m)).

(** The special case at the end of [addDirectoryMove]. *)
Definition drop_circular (m : gmap (list ascii) PMEntry) (origin destination : cstr)
    : gmap (list ascii) PMEntry :=
  let '(e, m) := pm_at m destination in
  if bool_decide (destination = pm_target e) then delete origin (delete destination m) else m.

Definition addDirectoryMove (origin destination : cstr) : M PathMapDB unit := λ db,
  let origin := iointercept origin in
  let destination := iointercept destination in
  let v := snapshotVersion db + 1 in
  let m := snapshot db in
  match m !! origin with
  | None =>
    let m := <[destination := mk_PMEntry MOVE origin 0]> m in
    let m := <[origin := mk_PMEntry REUSE (reuse_name v) 0]> m in
    Ret tt (mk_PathMapDB v (drop_circular m origin destination))
  | Some e =>
    let type := pm_type e in
    if bool_decide (type = MOVE) || bool_decide (type = REUSE) then
      let m := <[destination := mk_PMEntry MOVE (pm_target e) (pm_permissionTimeStamp e)]> m in
      let m := if bool_decide (type = REUSE)
               then alter (λ e, mk_PMEntry (pm_type e) (reuse_name v) (pm_permissionTimeStamp e)) origin m
               else delete origin m in
      Ret tt (mk_PathMapDB v (drop_circular m origin destination))
    else AssertFail (mk_PathMapDB v m)
  end.

Definition addUnlink (path : cstr) : M PathMapDB unit := λ db,
  let path := iointercept path in
  Ret tt (mk_PathMapDB (snapshotVersion db + 1) (delete path (snapshot db))).

Definition hasMapping (db : PathMapDB) (path : cstr) : bool :=
  bool_decide (is_Some (snapshot db !! iointercept path)).

(** ** Replaying database entries *)

(** The [switch] of [updateSnapshot]; [false] is its [default] branch, which
    resets the object and makes the function return [-EINVAL]. *)
Definition apply_entry (e : db_entry) : M PathMapDB bool :=
  match de_type e with
  | db_entry_Type_MOVE => addDirectoryMove (de_origin e) (de_target e) ;;; mret_ true
  | db_entry_Type_SYMLINK => addSoftLink (de_origin e) (de_target e) ;;; mret_ true
  | db_entry_Type_NONE => addPermissionChange (de_origin e) ;;; mret_ true
  | db_entry_Type_REMOVED => addUnlink (de_origin e) ;;; mret_ true
  | db_entry_Type_INVALID _ => put_ (mk_PathMapDB 0 ∅) ;;; mret_ false
  end.

Fixpoint update_loop (entries : list db_entry) (currentVersion fromVersion : Z) : M PathMapDB bool :=
  match entries with
  | [] => mret_ true
  | e :: es =>
    let currentVersion := currentVersion + 1 in
    if currentVersion <? fromVersion then update_loop es currentVersion fromVersion
    else let! ok := apply_entry e in
         if ok : bool then update_loop es currentVersion fromVersion else mret_ false
  end.

Definition updateSnapshot (entries : list db_entry) (fromVersion toVersion : Z) : M PathMapDB Z :=
  assert_ (Z.of_nat (length entries) =? wrap64 (toVersion - fromVersion)) ;;;
  let! v := gets_ snapshotVersion in
  assert_ (fromVersion <=? v) ;;;
  if toVersion <=? v then mret_ 0
  else
    let! ok := update_loop entries v fromVersion in
    if ok : bool then
      modify_ (λ db, mk_PathMapDB toVersion (snapshot db)) ;;; mret_ 0
    else mret_ (- EINVAL).

(** ** Snapshots *)

(** [iter] is the iteration order of the [unordered_map]. *)
Definition serializeSnapshot
    (iter : gmap (list ascii) PMEntry → list (cstr * PMEntry)) (db : PathMapDB) : db_snapshot :=
  mk_db_snapshot (snapshotVersion db)
    (map (λ '(k, e), mk_db_snapshot_entry k (pm_type e) (Some (pm_target e)) (pm_permissionTimeStamp e))
       (iter (snapshot db))).

Definition load_entry (m : gmap (list ascii) PMEntry) (e : db_snapshot_entry) : gmap (list ascii) PMEntry :=
  <[se_origin e := mk_PMEntry (se_type e) (default [] (se_target e)) (se_permissiontimestamp e)]> m.

Definition loadSnapshot (serialized : db_snapshot) : M PathMapDB Z := λ db,
  if snapshot_version serialized <=? snapshotVersion db then Ret 0 db
  else Ret 0 (mk_PathMapDB (snapshot_version serialized)
                (fold_left load_entry (snapshot_entries serialized) ∅)).
