(* ===== verification/PathMapFacts.v ===== *)
(** * Theorems on the path map

    The search is a longest-prefix match on path components; the remapping loop
    ends for snapshots without moves; a directory move, a chain of moves and a
    circular move have the effect their comments state; replaying and
    serialising snapshots. *)
From S2P Require Import Prelude CppString Proto PathMapDB.

Abbreviation pmap := (gmap (list ascii) PMEntry).

(** [anc q p]: [q] is [p] or one of its ancestors on component boundaries. *)
Definition anc (q p : cstr) : Prop := q = p ∨ ∃ r, p = q ++ "/"%char :: r.

(** The search would stop at [q] when it examines it. *)
Definition foll (m : pmap) (followReuse followSymlink : bool) (q : cstr) : Prop :=
  ∃ e, m !! q = Some e ∧ dont_remap e followReuse followSymlink = false.

(** Only the full path itself is subject to the caller's [followSymlink]. *)
Definition foll_in (m : pmap) (followReuse followSymlink : bool) (p q : cstr) : Prop :=
  foll m followReuse (if decide (q = p) then followSymlink else true) q.

(** The last component of [q] passes the length check. *)
Definition name_ok (q : cstr) : Prop := wrap64 (size_ q - 1 - find_last_of (lit "/") q) <= NAME_MAX.
Definition names_ok (p : cstr) : Prop := ∀ q, anc q p → name_ok q.

(** ** Paths and their ancestors *)

Lemma anc_refl p : anc p p.
Proof. by left. Qed.

Lemma anc_length q p : anc q p → (length q <= length p)%nat.
Proof. intros [->|[r ->]]; [lia|]. rewrite length_app. lia. Qed.

Lemma anc_same_length q p : anc q p → length q = length p → q = p.
Proof. intros [->|[r ->]]; [done|]. rewrite length_app. cbn. lia. Qed.

Lemma slash_free t : free_of (lit "/") t ↔ ("/"%char ∉ t).
Proof.
  unfold free_of, char_in. rewrite Forall_forall. split.
  - intros H Hin. specialize (H _ Hin). rewrite bool_decide_eq_false in H.
    apply H. vm_compute. constructor.
  - intros H a Ha. rewrite bool_decide_eq_false. intros Hc.
    apply list_elem_of_singleton in Hc. by subst.
Qed.

Lemma slash_in a : char_in a (lit "/") = true → a = "/"%char.
Proof. unfold char_in. rewrite bool_decide_eq_true. apply list_elem_of_singleton. Qed.

Lemma anc_free q p : free_of (lit "/") p → anc q p ↔ q = p.
Proof.
  intros Hf%slash_free. split; [|intros ->; apply anc_refl].
  intros [->|[r ->]]; [done|]. exfalso. apply Hf. set_solver.
Qed.

Lemma anc_snoc q u t :
  free_of (lit "/") t → anc q (u ++ "/"%char :: t) ↔ q = u ++ "/"%char :: t ∨ anc q u.
Proof.
  intros Hf%slash_free. split.
  - intros [->|[r Hr]]; [by left|right].
    apply app_eq_app in Hr as [l [[-> Hl]|[-> Hl]]].
    + destruct l as [|a l]; cbn in *; simplify_eq; [left; by rewrite app_nil_r|].
      right. eauto.
    + destruct l as [|a l]; cbn in *; simplify_eq; [left; by rewrite app_nil_r|].
      exfalso. apply Hf. set_solver.
  - intros [->|[->|[r ->]]]; [apply anc_refl|right; eauto|].
    right. rewrite <- app_assoc. cbn. eauto.
Qed.

Lemma anc_trans a b c : anc a b → anc b c → anc a c.
Proof.
  intros [->|[r ->]] H; [done|]. destruct H as [Hc|[r' Hc]]; subst; right; [eauto|].
  rewrite <- app_assoc. cbn. eauto.
Qed.

Lemma anc_total a b p : anc a p → anc b p → anc a b ∨ anc b a.
Proof.
  intros [->|[r Hr]] [->|[r' Hr']]; unfold anc; subst; eauto.
  apply app_eq_app in Hr' as [l [[-> Hl]|[-> Hl]]];
    destruct l as [|c l]; cbn in *; simplify_eq; rewrite ?app_nil_r; eauto 6.
Qed.

(** ** The component length check *)

Lemma name_ok_last u t :
  size_ u + size_ t < npos → free_of (lit "/") t →
  name_ok (u ++ "/"%char :: t) ↔ size_ t <= NAME_MAX.
Proof.
  intros Hs Hf. unfold name_ok. rewrite find_last_of_hit by done. autorewrite with hflat_rw.
  pose proof (size_nonneg u). pose proof (size_nonneg t).
  rewrite wrap64_id by (unfold npos in *; lia). unfold NAME_MAX. lia.
Qed.

(** Without a separator the subtraction of [npos] wraps around to the length. *)
Lemma name_ok_first t :
  size_ t < npos → free_of (lit "/") t → name_ok t ↔ size_ t <= NAME_MAX.
Proof.
  intros Hs Hf. unfold name_ok. rewrite find_last_of_free by done.
  replace (wrap64 (size_ t - 1 - npos)) with (size_ t); [done|].
  unfold wrap64, npos, u64_mod in *. pose proof (size_nonneg t).
  apply Zmod_unique with (-1); lia.
Qed.

(** ** The search *)

Lemma search_here n m p ts fr fs e :
  m !! p = Some e → dont_remap e fr fs = false →
  searchPathRecursive (S n) m p ts fr fs = Some (true, p, Z.max ts (pm_permissionTimeStamp e)).
Proof. intros He Hd. cbn [searchPathRecursive]. by rewrite He, Hd. Qed.

Definition ts_at (m : pmap) (p : cstr) (ts : Z) : Z :=
  match m !! p with Some e => Z.max ts (pm_permissionTimeStamp e) | None => ts end.

Lemma search_up n m p ts fr fs :
  ¬ foll m fr fs p → name_ok p → size_ p < npos →
  searchPathRecursive (S n) m p ts fr fs =
    match decide (free_of (lit "/") p) with
    | left _ => Some (false, p, ts_at m p ts)
    | right _ => searchPathRecursive n m (erase p (find_last_of (lit "/") p) npos) (ts_at m p ts) fr true
    end.
Proof.
  intros Hf Hn Hs. cbn [searchPathRecursive]. unfold ts_at.
  assert (Hnf : match m !! p with Some e => negb (dont_remap e fr fs) | None => false end = false).
  { destruct (m !! p) as [e|] eqn:He; [|done]. destruct (dont_remap e fr fs) eqn:Hd; [done|].
    exfalso. apply Hf. by exists e. }
  rewrite Hnf. unfold name_ok in Hn. destruct (Z.ltb_spec NAME_MAX (wrap64 (size_ p - 1 - find_last_of (lit "/") p))); [lia|].
  destruct (split_last (lit "/") p) as [Hfr|(u & a & t & -> & Ha & Ht)].
  - rewrite decide_True by done. rewrite find_last_of_free by done. by rewrite Z.eqb_refl.
  - rewrite decide_False.
    2:{ rewrite slash_free. apply slash_in in Ha as ->. set_solver. }
    rewrite find_last_of_hit by done. autorewrite with hflat_rw in Hs.
    pose proof (size_nonneg t). by destruct (Z.eqb_spec (size_ u) npos); [lia|].
Qed.

(** What the search returns, with the time stamps it has collected. *)
Definition search_post (m : pmap) (p : cstr) (ts : Z) (fr fs : bool) (r : bool * cstr * Z) : Prop :=
  let '(found, q, ts') := r in
  anc q p ∧
  (if found then foll_in m fr fs p q else ∀ q', anc q' p → ¬ foll_in m fr fs p q') ∧
  (∀ q', anc q' p → (length q < length q')%nat → ¬ foll_in m fr fs p q') ∧
  ts <= ts' ∧
  (∀ q' e, anc q' p → (length q <= length q')%nat → m !! q' = Some e → pm_permissionTimeStamp e <= ts') ∧
  (ts' = ts ∨ ∃ q' e, anc q' p ∧ (length q <= length q')%nat ∧ m !! q' = Some e ∧ ts' = pm_permissionTimeStamp e).

Lemma ts_at_max m p ts : ts <= ts_at m p ts.
Proof. unfold ts_at. case_match; lia. Qed.

Lemma ts_at_from m p ts :
  ts_at m p ts = ts ∨ ∃ e, m !! p = Some e ∧ ts_at m p ts = pm_permissionTimeStamp e.
Proof. unfold ts_at. destruct (m !! p) as [e|]; [|by left]. destruct (Z.max_spec ts (pm_permissionTimeStamp e)) as [[_ ->]|[_ ->]]; eauto. Qed.

Lemma search_post_up m u t ts fr fs found q ts' :
  free_of (lit "/") t → ¬ foll m fr fs (u ++ "/"%char :: t) →
  search_post m u (ts_at m (u ++ "/"%char :: t) ts) fr true (found, q, ts') →
  search_post m (u ++ "/"%char :: t) ts fr fs (found, q, ts').
Proof.
  intros Ht Hnf (Ha & Hfound & Hlong & Hle & Hup & Hfrom).
  pose proof (ts_at_max m (u ++ "/"%char :: t) ts) as Hmax.
  assert (Hne : ∀ q', anc q' u → q' ≠ u ++ "/"%char :: t).
  { intros q' Hq' ->. apply anc_length in Hq'. rewrite length_app in Hq'. cbn in Hq'. lia. }
  assert (Hsame : ∀ q', anc q' u → foll_in m fr fs (u ++ "/"%char :: t) q' ↔ foll_in m fr true u q').
  { intros q' Hq'. unfold foll_in. rewrite decide_False by eauto. by case_decide. }
  assert (Hself : ¬ foll_in m fr fs (u ++ "/"%char :: t) (u ++ "/"%char :: t)).
  { unfold foll_in. by rewrite decide_True. }
  unfold search_post. split; [by apply anc_snoc; auto|]. split; [|split; [|split; [|split]]].
  - destruct found; [by apply Hsame|]. intros q' [->|Hq']%anc_snoc; [done| |done].
    rewrite Hsame by done. eauto.
  - intros q' [->|Hq']%anc_snoc Hl; [done| |done]. rewrite Hsame by done. eauto.
  - lia.
  - intros q' e [->|Hq']%anc_snoc Hl He; [|eauto|done].
    unfold ts_at in Hle. rewrite He in Hle. lia.
  - destruct Hfrom as [->|(q' & e & H1 & H2 & H3 & H4)].
    + destruct (ts_at_from m (u ++ "/"%char :: t) ts) as [->|(e & He & ->)]; [by left|right].
      exists (u ++ "/"%char :: t), e. split; [apply anc_refl|]. split; [|done].
      apply anc_length in Ha. rewrite length_app. lia.
    + right. exists q', e. split; [by apply anc_snoc; auto|done].
Qed.

Lemma search_post_here m p ts fr fs e :
  m !! p = Some e → dont_remap e fr fs = false →
  search_post m p ts fr fs (true, p, Z.max ts (pm_permissionTimeStamp e)).
Proof.
  intros He Hd. split; [apply anc_refl|].
  assert (Hp : ∀ q', anc q' p → (length p <= length q')%nat → q' = p).
  { intros q' Hq Hl. apply anc_same_length; [done|]. apply anc_length in Hq. lia. }
  split; [|split; [|split; [|split]]].
  - unfold foll_in. rewrite decide_True by done. by exists e.
  - intros q' Hq Hl. apply anc_length in Hq. lia.
  - lia.
  - intros q' e' Hq Hl He'. rewrite (Hp q') in He' by done. simplify_eq. lia.
  - destruct (Z.max_spec ts (pm_permissionTimeStamp e)) as [[_ ->]|[_ ->]]; [right|by left].
    exists p, e. eauto using anc_refl.
Qed.

Lemma search_correct m fr n p ts fs :
  (length p < n)%nat → size_ p < npos → names_ok p →
  ∃ r, searchPathRecursive n m p ts fr fs = Some r ∧ search_post m p ts fr fs r.
Proof.
  revert p ts fs. induction n as [|n IH]; intros p ts fs Hn Hs Hok; [lia|].
  destruct (m !! p) as [e|] eqn:He; [destruct (dont_remap e fr fs) eqn:Hd|].
  2:{ rewrite (search_here n m p ts fr fs e) by done. eexists; split; [done|]. by apply search_post_here. }
  all: assert (Hnf : ¬ foll m fr fs p) by (intros (e' & ? & ?); congruence).
  all: rewrite search_up by (done || apply Hok, anc_refl).
  all: destruct (split_last (lit "/") p) as [Hfr|(u & a & t & -> & Ha & Ht)].
  1,3: rewrite decide_True by done; eexists; split; [done|];
    repeat split; [apply anc_refl| | | apply ts_at_max | | ];
    [ intros q' ->%anc_free; [|done]; unfold foll_in; by rewrite decide_True
    | intros q' ->%anc_free; [|done]; lia
    | intros q' e' ->%anc_free Hl He'; [|done]; unfold ts_at; rewrite He'; lia
    | destruct (ts_at_from m p ts) as [->|(e' & ? & ->)]; [by left|right; exists p, e'; eauto using anc_refl] ].
  all: apply slash_in in Ha as ->; rewrite decide_False by (rewrite slash_free; set_solver);
    rewrite find_last_of_hit by done; rewrite erase_tail by (autorewrite with hflat_rw in *; pose proof (size_nonneg u); lia);
    (destruct (IH u (ts_at m (u ++ "/"%char :: t) ts) true) as (((found & q) & ts') & -> & Hpost);
      [ rewrite length_app in Hn; cbn in Hn; lia
      | autorewrite with hflat_rw in Hs; pose proof (size_nonneg t); lia
      | intros q Hq; apply Hok; apply anc_snoc; auto
      | eexists; split; [done|]; by apply search_post_up ]).
Qed.

(** ** The remapping loop *)

Lemma replace_at_0 s n t : ∃ r, replace s 0 n t = Some r.
Proof. unfold replace. pose proof (size_nonneg s). destruct (Z.ltb_spec (size_ s) 0); [lia|]. eauto. Qed.

Lemma erase_shorter p : ¬ free_of (lit "/") p →
  (length (erase p (find_last_of (lit "/") p) npos) < length p)%nat.
Proof.
  intros Hf. destruct (split_last (lit "/") p) as [?|(u & a & t & -> & Ha & Ht)]; [done|].
  rewrite find_last_of_hit by done. unfold erase. autorewrite with hflat_rw.
  pose proof (size_nonneg t). pose proof (size_nonneg u).
  destruct (Z.leb_spec (size_ u + (1 + size_ t)) (size_ u)); [lia|].
  rewrite take_size, length_app, length_drop, length_app. cbn [length].
  unfold size_, npos, u64_mod in *. lia.
Qed.

(** The search always returns within its fuel, and a hit is an entry to follow. *)
Lemma search_total m fr n p ts fs : (length p < n)%nat →
  ∃ b q ts', searchPathRecursive n m p ts fr fs = Some (b, q, ts') ∧
    (b = true → ∃ e fsl, m !! q = Some e ∧ dont_remap e fr fsl = false).
Proof.
  revert p ts fs. induction n as [|n IH]; intros p ts fs Hn; [lia|]. cbn [searchPathRecursive].
  assert (Hup : ∀ ts1, ∃ b q ts',
    (if NAME_MAX <? wrap64 (size_ p - 1 - find_last_of (lit "/") p) then Some (false, p, - ENAMETOOLONG)
     else if find_last_of (lit "/") p =? npos then Some (false, p, ts1)
     else searchPathRecursive n m (erase p (find_last_of (lit "/") p) npos) ts1 fr true) = Some (b, q, ts') ∧
    (b = true → ∃ e fsl, m !! q = Some e ∧ dont_remap e fr fsl = false)).
  { intros ts1. destruct (NAME_MAX <? _); [by do 3 eexists|].
    destruct (find_last_of (lit "/") p =? npos) eqn:Hpos; [by do 3 eexists|]. apply IH.
    enough (length (erase p (find_last_of (lit "/") p) npos) < length p)%nat by lia.
    apply erase_shorter. intros Hf. rewrite find_last_of_free in Hpos by done. by rewrite Z.eqb_refl in Hpos. }
  destruct (m !! p) as [e|] eqn:He; [|apply Hup].
  destruct (dont_remap e fr fs) eqn:Hd; [apply Hup|]. eauto 10.
Qed.

Lemma search_unique m fr fs p q ts :
  size_ p < npos → names_ok p → anc q p → foll_in m fr fs p q →
  (∀ q', anc q' p → (length q < length q')%nat → ¬ foll_in m fr fs p q') →
  (∀ q' e, anc q' p → m !! q' = Some e → pm_permissionTimeStamp e <= ts) →
  searchPathRecursive (S (length p)) m p ts fr fs = Some (true, q, ts).
Proof.
  intros Hs Hok Ha Hf Hlong Hts.
  destruct (search_correct m fr (S (length p)) p ts fs) as (((b & q0) & ts') & -> & H); [lia|done|done|].
  destruct H as (Ha0 & Hb & Hl0 & Hle & _ & Hfrom).
  assert (ts' = ts) as -> by (destruct Hfrom as [->|(q' & e & Hq' & _ & He & ->)]; [done|apply Hts in He; [lia|done]]).
  destruct b; [|by destruct (Hb q Ha)].
  assert (length q0 = length q).
  { destruct (Nat.lt_trichotomy (length q0) (length q)) as [Hlt|[?|Hlt]]; [|done|].
    - by destruct (Hl0 _ Ha Hlt).
    - by destruct (Hlong _ Ha0 Hlt). }
  destruct (anc_total q0 q p Ha0 Ha) as [Hq|Hq]; apply anc_same_length in Hq; congruence.
Qed.

Lemma search_none m fr fs p ts :
  size_ p < npos → names_ok p →
  (∀ q, anc q p → ¬ foll_in m fr fs p q) →
  (∀ q' e, anc q' p → m !! q' = Some e → pm_permissionTimeStamp e <= ts) →
  ∃ q, searchPathRecursive (S (length p)) m p ts fr fs = Some (false, q, ts).
Proof.
  intros Hs Hok Hnone Hts.
  destruct (search_correct m fr (S (length p)) p ts fs) as (((b & q0) & ts') & -> & H); [lia|done|done|].
  destruct H as (Ha0 & Hb & Hl0 & Hle & _ & Hfrom).
  assert (ts' = ts) as -> by (destruct Hfrom as [->|(q' & e & Hq' & _ & He & ->)]; [done|apply Hts in He; [lia|done]]).
  destruct b; [by destruct (Hnone _ Ha0)|eauto].
Qed.

Lemma loop_done f m p ts fr fs n :
  size_ p < npos → names_ok p →
  (∀ q, anc q p → ¬ foll_in m fr fs p q) →
  (∀ q' e, anc q' p → m !! q' = Some e → pm_permissionTimeStamp e <= ts) →
  toSystemPath_loop (S f) m p p ts fr fs n = Some (p, ts).
Proof.
  intros. cbn [toSystemPath_loop]. by destruct (search_none m fr fs p ts) as [q ->].
Qed.

(** One round through an entry that is not a symbolic link. *)
Lemma loop_remap f m q x e ts fr fs n :
  size_ (q ++ x) < npos → names_ok (q ++ x) → anc q (q ++ x) →
  m !! q = Some e → pm_type e ≠ SYMLINK → dont_remap e fr true = false →
  (∀ q', anc q' (q ++ x) → (length q < length q')%nat → ¬ foll_in m fr fs (q ++ x) q') →
  (∀ q' e, anc q' (q ++ x) → m !! q' = Some e → pm_permissionTimeStamp e <= ts) →
  toSystemPath_loop (S f) m (q ++ x) (q ++ x) ts fr fs n =
    toSystemPath_loop f m (pm_target e ++ x) (pm_target e ++ x) ts (negb (bool_decide (pm_type e = MOVE))) fs n.
Proof.
  intros Hs Hok Ha He Hty Hd Hlong Hts. cbn [toSystemPath_loop].
  rewrite (search_unique m fr fs (q ++ x) q ts); [|done..| |done|done].
  - rewrite He, (bool_decide_false (pm_type e = SYMLINK)) by done. cbn [andb].
    by rewrite replace_head.
  - unfold foll_in, foll. exists e. split; [done|]. case_decide; [|done].
    unfold dont_remap in *. rewrite (bool_decide_false (pm_type e = SYMLINK)), andb_false_r in * by done. done.
Qed.

(** ** iointercept *)

Definition plain (p : cstr) : Prop := free_of (lit ":") p.

Lemma iointercept_plain p : plain p → iointercept p = p.
Proof. intros H. unfold iointercept. rewrite find_first_of_free by done. by rewrite Z.eqb_refl. Qed.

Lemma plain_app s t : plain (s ++ t) ↔ plain s ∧ plain t.
Proof. apply free_of_app. Qed.

#[export] Hint Resolve anc_refl iointercept_plain : hflat.

(** ** Properties *)

(** C7: [searchPathRecursive] always returns within one call per path component,
    and is a longest-prefix match: it stops at the longest ancestor (on component
    boundaries) of the path whose entry is to be followed, reports failure only
    if no ancestor is, and collects exactly the largest permission time stamp of
    the entries it passed. A terminating symbolic link is subject to
    [followSymlink]; links further up the path are always followed. *)
Theorem searchPathRecursive_longest_prefix m p ts fr fs :
  size_ p < npos → names_ok p →
  ∃ r, searchPathRecursive (S (length p)) m p ts fr fs = Some r ∧ search_post m p ts fr fs r.
Proof. intros. apply search_correct; [lia|done|done]. Qed.

(** A component longer than NAME_MAX is reported as [-ENAMETOOLONG], also
    for a path without a separator, where the code subtracts [npos]. *)
Theorem searchPathRecursive_name_too_long m p ts fr fs :
  size_ p < npos → ¬ foll m fr fs p →
  (∃ u t, (p = t ∨ p = u ++ "/"%char :: t) ∧ free_of (lit "/") t ∧ NAME_MAX < size_ t) →
  searchPathRecursive (S (length p)) m p ts fr fs = Some (false, p, - ENAMETOOLONG).
Proof.
  intros Hs Hf (u & t & Hp & Ht & Hlen).
  assert (Hbad : ¬ name_ok p).
  { destruct Hp as [->| ->]; [rewrite name_ok_first by done; lia|].
    autorewrite with hflat_rw in Hs. rewrite name_ok_last by (done || lia). lia. }
  unfold name_ok in Hbad. cbn [searchPathRecursive].
  destruct (Z.ltb_spec NAME_MAX (wrap64 (size_ p - 1 - find_last_of (lit "/") p))); [|lia].
  destruct (m !! p) as [e|] eqn:He; [|done]. destruct (dont_remap e fr fs) eqn:Hd; [done|].
  exfalso. apply Hf. by exists e.
Qed.

(** Snapshots that record links and permission changes only. *)
Definition no_moves (m : pmap) : Prop :=
  ∀ k e, m !! k = Some e → pm_type e = SYMLINK ∨ pm_type e = NONE.

Lemma loop_links_terminates m fs n f p ts fr :
  no_moves m → n <= MAXSYMLINKS → MAXSYMLINKS - n < Z.of_nat f →
  is_Some (toSystemPath_loop f m p p ts fr fs n).
Proof.
  intros Hm. revert n p ts fr. induction f as [|f IH]; intros n p ts fr Hn Hf; unfold MAXSYMLINKS in *; [lia|].
  cbn [toSystemPath_loop].
  destruct (search_total m fr (S (length p)) p ts fs) as (b & q & ts' & -> & Hhit); [lia|].
  destruct b; [|by eauto]. destruct Hhit as (e & fsl & He & Hd); [done|]. rewrite He.
  destruct (Hm _ _ He) as [Hty|Hty]; [|unfold dont_remap in Hd; by rewrite bool_decide_true in Hd].
  rewrite (bool_decide_true (pm_type e = SYMLINK)) by done. cbn [andb].
  destruct (Z.ltb_spec MAXSYMLINKS (n + 1)); [by eauto|].
  destruct (replace_at_0 p (size_ q) (pm_target e)) as [r ->]. apply IH; unfold MAXSYMLINKS in *; lia.
Qed.

(** C38: for snapshots without directory moves [toSystemPath] terminates for
    every path, cyclic links included: at most MAXSYMLINKS + 1 rounds. *)
Theorem toSystemPath_links_terminate db p ctype :
  no_moves (snapshot db) → is_Some (toSystemPath 21 db p ctype).
Proof.
  intros Hm. unfold toSystemPath. case_match; [by eauto|].
  apply loop_links_terminates; [done|unfold MAXSYMLINKS; lia..].
Qed.

(** ** Directory moves *)

Definition unmapped (m : pmap) (p : cstr) : Prop := ∀ q, anc q p → m !! q = None.
Definition is_suffix (x : cstr) : Prop := x = [] ∨ ∃ r, x = "/"%char :: r.
Definition absolute (p : cstr) : Prop := ∃ r, p = "/"%char :: r.
Definition path_ok (p : cstr) : Prop := plain p ∧ names_ok p ∧ size_ p <= PATH_MAX.

Lemma anc_suffix p x : is_suffix x → anc p (p ++ x).
Proof. intros [->|[r ->]]; [rewrite app_nil_r; apply anc_refl|right; eauto]. Qed.

Lemma path_ok_size p : path_ok p → size_ p < npos.
Proof. unfold path_ok, PATH_MAX, npos, u64_mod. intros (_ & _ & ?). lia. Qed.

Lemma path_ok_io p : path_ok p → iointercept p = p.
Proof. intros (? & _). by apply iointercept_plain. Qed.

Lemma toSystemPath_ok fuel db p ctype : path_ok p →
  toSystemPath fuel db p ctype =
  toSystemPath_loop fuel (snapshot db) p p 0 true (match ctype with LOOKUP => false | READLINK => true end) 0.
Proof.
  intros Hp. unfold toSystemPath. rewrite path_ok_io by done. destruct Hp as (_ & _ & Hp).
  by destruct (Z.ltb_spec PATH_MAX (size_ p)); [lia|].
Qed.

Lemma unmapped_not_foll m fr fs p q : unmapped m p → anc q p → ¬ foll_in m fr fs p q.
Proof. intros Hu Ha (e & He & _). rewrite Hu in He by done. done. Qed.

(** A path without mapping is its own system path. *)
Lemma toSystemPath_unmapped f db p ctype :
  path_ok p → unmapped (snapshot db) p → toSystemPath (S f) db p ctype = Some (p, 0).
Proof.
  intros Hp Hu. rewrite toSystemPath_ok by done. destruct Hp as (? & ? & ?).
  apply loop_done; [by apply path_ok_size|done|by eauto using unmapped_not_foll|].
  intros q e Ha He. by rewrite Hu in He.
Qed.

(** The snapshot after a move of an unmapped directory. *)
Definition after_move (m : pmap) (o d : cstr) (v : Z) : pmap :=
  <[o := mk_PMEntry REUSE (reuse_name v) 0]> (<[d := mk_PMEntry MOVE o 0]> m).

Lemma addDirectoryMove_fresh db o d :
  plain o → plain d → o ≠ d → snapshot db !! o = None →
  addDirectoryMove o d db =
    Ret tt (mk_PathMapDB (snapshotVersion db + 1) (after_move (snapshot db) o d (snapshotVersion db + 1))).
Proof.
  intros Ho Hd Hne Hu. unfold addDirectoryMove. rewrite !iointercept_plain by done. rewrite Hu.
  do 2 f_equal. unfold drop_circular, pm_at.
  rewrite lookup_insert_ne, lookup_insert_eq by done. cbn.
  by rewrite bool_decide_false by congruence.
Qed.

Lemma after_move_lookup m o d v p q e :
  unmapped m p → anc q p → after_move m o d v !! q = Some e → q = o ∨ q = d.
Proof.
  intros Hu Ha. unfold after_move. rewrite !lookup_insert, Hu by done. repeat case_decide; subst; auto. done.
Qed.

Lemma after_move_ts m o d v p q e :
  unmapped m p → anc q p → after_move m o d v !! q = Some e → pm_permissionTimeStamp e <= 0.
Proof.
  intros Hu Ha. unfold after_move. rewrite !lookup_insert, Hu by done.
  repeat case_decide; intros; simplify_eq; cbn; lia.
Qed.

Section move.
Context (m : pmap) (o d x : cstr) (v : Z).
Context (Hod : ¬ anc o d) (Hdo : ¬ anc d o) (Hx : is_suffix x).

Lemma not_both a b : (a = o ∧ b = d) ∨ (a = d ∧ b = o) → ∀ p, anc a p → anc b p → False.
Proof. intros Hab p Ha Hb. destruct (anc_total a b p Ha Hb), Hab as [[-> ->]|[-> ->]]; auto. Qed.

Lemma move_ne : o ≠ d.
Proof. intros ->. by apply Hod, anc_refl. Qed.

(** Below the destination the search stops at the destination, ... *)
Lemma move_dest_round f fs n :
  path_ok (d ++ x) → unmapped m (d ++ x) →
  toSystemPath_loop (S f) (after_move m o d v) (d ++ x) (d ++ x) 0 true fs n =
  toSystemPath_loop f (after_move m o d v) (o ++ x) (o ++ x) 0 false fs n.
Proof.
  intros Hp Hu. pose proof move_ne. rewrite (loop_remap f (after_move m o d v) d x (mk_PMEntry MOVE o 0)).
  - done.
  - by apply path_ok_size.
  - apply Hp.
  - by apply anc_suffix.
  - unfold after_move. by rewrite lookup_insert_ne, lookup_insert_eq.
  - done.
  - done.
  - intros q Ha Hl (e & He & _). destruct (after_move_lookup _ _ _ _ _ _ _ Hu Ha He) as [->| ->]; [|lia].
    eapply (not_both o d); eauto using anc_suffix.
  - intros q e Ha He. by eapply after_move_ts.
Qed.

(** ... and then nothing below the origin is followed after a move. *)
Lemma move_origin_done f fs n :
  path_ok (o ++ x) → unmapped m (o ++ x) →
  toSystemPath_loop (S f) (after_move m o d v) (o ++ x) (o ++ x) 0 false fs n = Some (o ++ x, 0).
Proof.
  intros Hp Hu. apply loop_done; [by apply path_ok_size|apply Hp| |].
  - intros q Ha (e & He & Hr). destruct (after_move_lookup _ _ _ _ _ _ _ Hu Ha He) as [->| ->].
    + unfold after_move in He. rewrite lookup_insert_eq in He. simplify_eq.
      unfold dont_remap in Hr. cbn in Hr. by rewrite andb_false_r in Hr.
    + eapply (not_both d o); eauto using anc_suffix.
  - intros q e Ha He. by eapply after_move_ts.
Qed.

(** A fresh lookup of the origin is sent to the reuse name. *)
Lemma move_origin_round f fs n :
  path_ok (o ++ x) → unmapped m (o ++ x) →
  toSystemPath_loop (S f) (after_move m o d v) (o ++ x) (o ++ x) 0 true fs n =
  toSystemPath_loop f (after_move m o d v) (reuse_name v ++ x) (reuse_name v ++ x) 0 true fs n.
Proof.
  intros Hp Hu. rewrite (loop_remap f (after_move m o d v) o x (mk_PMEntry REUSE (reuse_name v) 0)).
  - done.
  - by apply path_ok_size.
  - apply Hp.
  - by apply anc_suffix.
  - unfold after_move. by rewrite lookup_insert_eq.
  - done.
  - done.
  - intros q Ha Hl (e & He & _). destruct (after_move_lookup _ _ _ _ _ _ _ Hu Ha He) as [->| ->]; [lia|].
    eapply (not_both o d); eauto using anc_suffix.
  - intros q e Ha He. by eapply after_move_ts.
Qed.

Lemma absolute_not_anc_reuse p : absolute p → ¬ anc p (reuse_name v ++ x).
Proof. intros [r ->] [H|[r' H]]; unfold reuse_name in H; cbn in H; congruence. Qed.

End move.

(** A directory [o] whose name is not mapped, and a name [d] outside it. *)
Record movable (m : pmap) (o d : cstr) : Prop := {
  mv_absolute : absolute o ∧ absolute d;
  mv_apart : (¬ anc o d) ∧ ¬ anc d o;
  mv_ok : path_ok o ∧ path_ok d;
  mv_free : m !! o = None;
}.

(** What the snapshot after the move maps. *)
Lemma moved_target f m o d x v v' ctype : movable m o d → is_suffix x → path_ok (o ++ x) → path_ok (d ++ x) →
  unmapped m (o ++ x) → unmapped m (d ++ x) →
  toSystemPath (S (S f)) (mk_PathMapDB v' (after_move m o d v)) (d ++ x) ctype = Some (o ++ x, 0).
Proof.
  intros [_ (Hod & Hdo) _ _] Hx Hox Hdx Huo Hud. rewrite toSystemPath_ok by done. cbn [snapshot].
  by rewrite move_dest_round, move_origin_done.
Qed.

Lemma moved_origin f m o d x v v' ctype : movable m o d → is_suffix x → path_ok (o ++ x) → unmapped m (o ++ x) →
  path_ok (reuse_name v ++ x) → unmapped m (reuse_name v ++ x) →
  toSystemPath (S (S f)) (mk_PathMapDB v' (after_move m o d v)) (o ++ x) ctype = Some (reuse_name v ++ x, 0).
Proof.
  intros [(Hao & Had) (Hod & Hdo) _ _] Hx Hox Huo Hr Hur. rewrite toSystemPath_ok by done. cbn [snapshot].
  rewrite move_origin_round by done. apply loop_done; [by apply path_ok_size|apply Hr| |].
  - intros q Ha (e & He & _). destruct (after_move_lookup _ _ _ _ _ _ _ Hur Ha He) as [->| ->];
      [exact (absolute_not_anc_reuse _ _ _ Hao Ha)|exact (absolute_not_anc_reuse _ _ _ Had Ha)].
  - intros q e Ha He. exact (after_move_ts _ _ _ _ _ _ _ Hur Ha He).
Qed.

Lemma moved_elsewhere f m o d y v v' ctype : path_ok y → unmapped m y → ¬ anc o y → ¬ anc d y →
  toSystemPath (S (S f)) (mk_PathMapDB v' (after_move m o d v)) y ctype = Some (y, 0).
Proof.
  intros Hy Huy Hoy Hdy. rewrite toSystemPath_ok by done. cbn [snapshot].
  apply loop_done; [by apply path_ok_size|apply Hy| |].
  - intros q Ha (e & He & _). destruct (after_move_lookup _ _ _ _ _ _ _ Huy Ha He) as [->| ->]; auto.
  - intros q e Ha He. exact (after_move_ts _ _ _ _ _ _ _ Huy Ha He).
Qed.

Lemma addDirectoryMove_movable db o d : movable (snapshot db) o d →
  addDirectoryMove o d db =
    Ret tt (mk_PathMapDB (snapshotVersion db + 1) (after_move (snapshot db) o d (snapshotVersion db + 1))).
Proof.
  intros [_ (Hod & _) ((? & _) & (? & _)) ?]. apply addDirectoryMove_fresh; [done|done|intros ->; by apply Hod, anc_refl|done].
Qed.

(** C23: the standard case of a directory move, [mv o d] of absolute paths neither
    inside the other. For a path [o ++ x] below the origin, the same path [d ++ x]
    below the target, the fresh reuse name with [x] below it, and a path [y] below
    neither, none of which has an entry of the map at or above it: [d ++ x] is
    mapped to where [o ++ x] was before, [o ++ x] to the reuse name, and [y] keeps
    its system path. Moves onto mapped names are the subject of the theorems on
    chains and circles and of [move_onto_vacated_name_misroutes]. *)
Theorem addDirectoryMove_standard f db o d x y ctype :
  absolute o → absolute d → ¬ anc o d → ¬ anc d o → is_suffix x →
  path_ok o → path_ok d → path_ok (o ++ x) → path_ok (d ++ x) →
  unmapped (snapshot db) (o ++ x) → unmapped (snapshot db) (d ++ x) →
  path_ok (reuse_name (snapshotVersion db + 1) ++ x) →
  unmapped (snapshot db) (reuse_name (snapshotVersion db + 1) ++ x) →
  path_ok y → unmapped (snapshot db) y → ¬ anc o y → ¬ anc d y →
  ∃ db', addDirectoryMove o d db = Ret tt db' ∧ snapshotVersion db' = snapshotVersion db + 1 ∧
    toSystemPath (S f) db (o ++ x) ctype = Some (o ++ x, 0) ∧
    toSystemPath (S (S f)) db' (d ++ x) ctype = Some (o ++ x, 0) ∧
    toSystemPath (S (S f)) db' (o ++ x) ctype = Some (reuse_name (snapshotVersion db + 1) ++ x, 0) ∧
    toSystemPath (S (S f)) db' y ctype = Some (y, 0).
Proof.
  intros Hao Had Hod Hdo Hx Ho Hd Hox Hdx Huo Hud Hr Hur Hy Huy Hoy Hdy.
  assert (Hmv : movable (snapshot db) o d) by (split; [done|done|done|apply Huo; by apply anc_suffix]).
  eexists. split; [by apply addDirectoryMove_movable|]. split; [done|]. split; [by apply toSystemPath_unmapped|].
  split; [by apply moved_target|]. split; [by apply moved_origin|by apply moved_elsewhere].
Qed.

Lemma short_names_ok p : size_ p <= NAME_MAX → names_ok p.
Proof.
  intros Hs q Ha%anc_length. unfold NAME_MAX in Hs.
  assert (Hq : size_ q <= NAME_MAX) by (unfold size_, NAME_MAX in *; lia).
  destruct (split_last (lit "/") q) as [Hf|(u & a & t & -> & ->%slash_in & Ht)].
  - apply name_ok_first; [|done|done]. unfold NAME_MAX, npos, u64_mod in *. lia.
  - autorewrite with hflat_rw in Hq. pose proof (size_nonneg u).
    apply name_ok_last; unfold NAME_MAX, npos, u64_mod in *; [lia|done|lia].
Qed.

Lemma short_path_ok p : bool_decide (plain p) = true → (size_ p <=? NAME_MAX) = true → path_ok p.
Proof.
  intros Hp%bool_decide_eq_true Hs%Z.leb_le.
  split; [done|]. split; [by apply short_names_ok|]. unfold NAME_MAX, PATH_MAX in *. lia.
Qed.

Lemma anc_dec_false q p : is_prefix (q ++ lit "/") p = false → q ≠ p → ¬ anc q p.
Proof.
  intros Hp Hne [?|[r ->]]; [done|].
  assert (is_prefix (q ++ lit "/") (q ++ "/"%char :: r) = true); [|congruence].
  apply is_prefix_spec. exists r. rewrite <- app_assoc. done.
Qed.

(** The witness of C4: [mv /a /b] on a new database, looking up [/b/f]. *)
Lemma addDirectoryMove_standard_witness :
  ∃ db', addDirectoryMove (lit "/a") (lit "/b") PathMapDB_new = Ret tt db' ∧
    toSystemPath 3 db' (lit "/b/f") LOOKUP = Some (lit "/a/f", 0).
Proof.
  destruct (addDirectoryMove_standard 1 PathMapDB_new (lit "/a") (lit "/b") (lit "/f") (lit "/c") LOOKUP)
    as (db' & H1 & _ & _ & H2 & _).
  1,2: eexists; reflexivity.
  1,2: by apply anc_dec_false.
  1: right; eexists; reflexivity.
  all: try (apply short_path_ok; vm_compute; reflexivity).
  all: try (intros q _; apply lookup_empty).
  1,2: by apply anc_dec_false.
  exists db'. split; [exact H1|exact H2].
Defined.

Lemma searchPathRecursive_longest_prefix_witness :
  ∃ r, searchPathRecursive 5 {[lit "/a" := mk_PMEntry MOVE (lit "/b") 3]} (lit "/a/f") 0 true false = Some r ∧
       search_post {[lit "/a" := mk_PMEntry MOVE (lit "/b") 3]} (lit "/a/f") 0 true false r.
Proof.
  apply (searchPathRecursive_longest_prefix {[lit "/a" := mk_PMEntry MOVE (lit "/b") 3]} (lit "/a/f") 0 true false).
  - vm_compute. reflexivity.
  - apply short_names_ok. vm_compute. discriminate.
Defined.

Lemma searchPathRecursive_name_too_long_witness :
  searchPathRecursive 301 ∅ (replicate 300 "n"%char) 0 true false = Some (false, replicate 300 "n"%char, -36).
Proof.
  apply (searchPathRecursive_name_too_long ∅ (replicate 300 "n"%char) 0 true false).
  - vm_compute. reflexivity.
  - intros (e & He & _). by rewrite lookup_empty in He.
  - exists [], (replicate 300 "n"%char). split; [by left|].
    split; [apply Forall_replicate; reflexivity|vm_compute; reflexivity].
Defined.

Lemma toSystemPath_links_terminate_witness :
  is_Some (toSystemPath 21 (mk_PathMapDB 1 {[lit "/l" := mk_PMEntry SYMLINK (lit "/l") 0]}) (lit "/l/x") LOOKUP).
Proof.
  apply toSystemPath_links_terminate. cbn [snapshot]. intros k e [<- <-]%lookup_singleton_Some. by left.
Defined.

(** The chain of moves of the comment in [addDirectoryMove]:
    [mv a b; mv b c; mv a d] leaves exactly [c -> a, d -> X1, a -> X3], where
    [X1] and [X3] are the reuse names of the first and of the third operation. *)
Theorem addDirectoryMove_chain db a b c d :
  plain a → plain b → plain c → plain d → absolute d → NoDup [a; b; c; d] →
  snapshot db !! a = None → snapshot db !! b = None →
  let v := snapshotVersion db in
  (addDirectoryMove a b ;;; addDirectoryMove b c ;;; addDirectoryMove a d) db =
  Ret tt (mk_PathMapDB (v + 3)
    (<[a := mk_PMEntry REUSE (reuse_name (v + 3)) 0]>
      (<[d := mk_PMEntry MOVE (reuse_name (v + 1)) 0]>
        (<[c := mk_PMEntry MOVE a 0]> (snapshot db))))).
Proof.
  intros Ha Hb Hc Hd [r Hr] Hnd Hma Hmb v.
  repeat (apply NoDup_cons in Hnd as [? Hnd]). rewrite !not_elem_of_cons in *. destruct_and!.
  unfold mbind_ at 1. rewrite addDirectoryMove_fresh by done. fold v.
  unfold mbind_. unfold addDirectoryMove at 1. rewrite !iointercept_plain by done. cbn [snapshot snapshotVersion].
  unfold after_move. rewrite lookup_insert_ne, lookup_insert_eq by done. cbn [pm_type pm_target pm_permissionTimeStamp].
  rewrite (bool_decide_true (MOVE = MOVE)), (bool_decide_false (MOVE = REUSE)) by done. cbn [orb].
  unfold drop_circular, pm_at.
  rewrite lookup_delete_ne, lookup_insert_eq by done. cbn [pm_target]. rewrite (bool_decide_false (c = a)) by done.
  unfold addDirectoryMove. rewrite !iointercept_plain by done. cbn [snapshot snapshotVersion].
  rewrite lookup_delete_ne, lookup_insert_ne, lookup_insert_eq by done. cbn [pm_type pm_target pm_permissionTimeStamp].
  rewrite (bool_decide_false (REUSE = MOVE)), (bool_decide_true (REUSE = REUSE)) by done. cbn [orb].
  unfold drop_circular, pm_at. rewrite lookup_alter_ne, lookup_insert_eq by done. cbn [pm_target].
  rewrite bool_decide_false by (subst d; discriminate).
  do 2 f_equal; [lia|]. apply map_eq. intros k.
  replace (v + 1 + 1 + 1) with (v + 3) by lia.
  lookup_cases.
Qed.

Lemma addDirectoryMove_chain_witness :
  (addDirectoryMove (lit "/a") (lit "/b") ;;; addDirectoryMove (lit "/b") (lit "/c") ;;;
   addDirectoryMove (lit "/a") (lit "/d")) PathMapDB_new =
  Ret tt (mk_PathMapDB 3
    (<[lit "/a" := mk_PMEntry REUSE (lit "|reuse_3") 0]>
      (<[lit "/d" := mk_PMEntry MOVE (lit "|reuse_1") 0]>
        (<[lit "/c" := mk_PMEntry MOVE (lit "/a") 0]> ∅)))).
Proof.
  apply (addDirectoryMove_chain PathMapDB_new (lit "/a") (lit "/b") (lit "/c") (lit "/d")).
  1-4: apply (bool_decide_eq_true_1 (plain _)); vm_compute; reflexivity.
  - eexists; reflexivity.
  - apply (bool_decide_eq_true_1 (NoDup _)). vm_compute. reflexivity.
  - reflexivity.
  - reflexivity.
Defined.

(** The circular case of the comment: [mv a b; mv b a] leaves the snapshot
    as it was, two versions later. *)
Theorem addDirectoryMove_circular db a b :
  plain a → plain b → a ≠ b → snapshot db !! a = None → snapshot db !! b = None →
  (addDirectoryMove a b ;;; addDirectoryMove b a) db =
  Ret tt (mk_PathMapDB (snapshotVersion db + 2) (snapshot db)).
Proof.
  intros Ha Hb Hne Hma Hmb. unfold mbind_. rewrite addDirectoryMove_fresh by done.
  unfold addDirectoryMove. rewrite !iointercept_plain by done. cbn [snapshot snapshotVersion].
  unfold after_move. rewrite lookup_insert_ne, lookup_insert_eq by done. cbn [pm_type pm_target pm_permissionTimeStamp].
  rewrite (bool_decide_true (MOVE = MOVE)), (bool_decide_false (MOVE = REUSE)) by done. cbn [orb].
  unfold drop_circular, pm_at. rewrite lookup_delete_ne, lookup_insert_eq by done. cbn [pm_target].
  rewrite (bool_decide_true (a = a)) by done. do 2 f_equal; [lia|].
  apply map_eq. intros k. lookup_cases.
Qed.

Lemma addDirectoryMove_circular_witness :
  (addDirectoryMove (lit "/a") (lit "/b") ;;; addDirectoryMove (lit "/b") (lit "/a")) PathMapDB_new =
  Ret tt (mk_PathMapDB 2 ∅).
Proof.
  apply (addDirectoryMove_circular PathMapDB_new (lit "/a") (lit "/b")).
  1,2: apply (bool_decide_eq_true_1 (plain _)); vm_compute; reflexivity.
  - discriminate.
  - reflexivity.
  - reflexivity.
Defined.

(** A move onto a name that an earlier move vacated replaces the reuse entry
    of that name, so the earlier move is misrouted: after [mv /a /b; mv /x /a]
    both [/b] and [/a] are mapped to [/x], and no user path reaches the directory
    stored at [/a]. *)
Theorem move_onto_vacated_name_misroutes :
  ∃ db, (addDirectoryMove (lit "/a") (lit "/b") ;;; addDirectoryMove (lit "/x") (lit "/a")) PathMapDB_new = Ret tt db ∧
    toSystemPath 5 db (lit "/b") LOOKUP = Some (lit "/x", 0) ∧
    toSystemPath 5 db (lit "/a") LOOKUP = Some (lit "/x", 0).
Proof. eexists. split; [vm_compute; reflexivity|]. split; vm_compute; reflexivity. Qed.
