(* ===== verification/PathMapLog.v ===== *)
(** * The database log: replaying entries, and serialised snapshots

    Every client replays the same sequence of [db_entry] records (or starts from
    a serialised snapshot), so its in-memory snapshot is a function of its
    version. *)
From S2P Require Import Prelude CppString Proto PathMapDB PathMapFacts.

(** The reference: apply the entries one after the other. *)
Fixpoint replay (es : list db_entry) : M PathMapDB bool :=
  match es with
  | [] => mret_ true
  | e :: es => let! ok := apply_entry e in if ok : bool then replay es else mret_ false
  end.

(** A client's database is the replay of a prefix of the log. *)
Definition consistent (log : list db_entry) (db : PathMapDB) : Prop :=
  ∃ n, (n <= length log)%nat ∧ replay (take n log) PathMapDB_new = Ret true db.

Lemma apply_entry_version e db db' :
  apply_entry e db = Ret true db' → snapshotVersion db' = snapshotVersion db + 1.
Proof.
  unfold apply_entry, mbind_, mret_, put_. destruct (de_type e).
  - unfold addDirectoryMove. repeat case_match; intros; simplify_eq; done.
  - unfold addSoftLink. repeat case_match; intros; simplify_eq; done.
  - cbn. intros; simplify_eq; done.
  - cbn. intros; simplify_eq; done.
  - done.
Qed.

Lemma replay_app es1 es2 db :
  replay (es1 ++ es2) db =
  mbind_ (replay es1) (λ ok, if ok : bool then replay es2 else mret_ false) db.
Proof.
  revert db. induction es1 as [|e es1 IH]; intros db; cbn [app replay]; [done|].
  rewrite mbind_assoc. unfold mbind_ at 1 2. destruct (apply_entry e db) as [ok db1| | | | | |]; try done.
  by destruct ok.
Qed.

Lemma replay_version es db db' :
  replay es db = Ret true db' → snapshotVersion db' = snapshotVersion db + Z.of_nat (length es).
Proof.
  revert db. induction es as [|e es IH]; intros db; cbn [replay length].
  - unfold mret_. intros; simplify_eq. lia.
  - intros (ok & db1 & He & Hr)%mbind_Ret_inv. destruct ok; [|done].
    rewrite (IH _ Hr), (apply_entry_version _ _ _ He). lia.
Qed.

Lemma update_loop_replay es cv from db :
  from <= cv + 1 → update_loop es cv from db = replay es db.
Proof.
  revert cv db. induction es as [|e es IH]; intros cv db Hv; cbn [update_loop replay]; [done|].
  destruct (Z.ltb_spec (cv + 1) from); [lia|]. unfold mbind_.
  destruct (apply_entry e db) as [ok db1| | | | | |]; try done.
  destruct ok; [|done]. apply IH. lia.
Qed.

Lemma updateSnapshot_all es from to db db' :
  Z.of_nat (length es) = to - from → to - from < u64_mod →
  from <= snapshotVersion db < to → replay es db = Ret true db' →
  updateSnapshot es from to db = Ret 0 (mk_PathMapDB to (snapshot db')).
Proof.
  intros Hlen Hw Hv Hr. unfold updateSnapshot. rewrite wrap64_id by lia.
  unfold mbind_ at 1, assert_. rewrite (proj2 (Z.eqb_eq _ _)) by done.
  unfold mbind_ at 1, gets_. unfold mbind_ at 1. rewrite (proj2 (Z.leb_le _ _)) by lia.
  destruct (Z.leb_spec to (snapshotVersion db)); [lia|].
  unfold mbind_ at 1. rewrite update_loop_replay by lia. by rewrite Hr.
Qed.

Lemma updateSnapshot_exact es from to db db' :
  Z.of_nat (length es) = to - from → 0 < to - from < u64_mod →
  snapshotVersion db = from → replay es db = Ret true db' →
  updateSnapshot es from to db = Ret 0 db' ∧ snapshotVersion db' = to.
Proof.
  intros Hlen Hw Hv Hr. assert (Hto : snapshotVersion db' = to).
  { rewrite (replay_version _ _ _ Hr). lia. }
  split; [|done]. rewrite (updateSnapshot_all es from to db db') by (done || lia).
  rewrite <- Hto. by destruct db'.
Qed.

(** A client whose snapshot stands exactly at [fromVersion] and that is given
    the entries up to [toVersion] ends with the replay of those entries, at
    version [toVersion]. *)
Theorem updateSnapshot_replays es from to db db' :
  Z.of_nat (length es) = to - from → 0 < to - from < u64_mod →
  snapshotVersion db = from → replay es db = Ret true db' →
  updateSnapshot es from to db = Ret 0 db' ∧ snapshotVersion db' = to.
Proof. apply updateSnapshot_exact. Qed.

Lemma updateSnapshot_replays_witness :
  updateSnapshot [mk_db_entry (lit "/a") db_entry_Type_NONE []] 0 1 PathMapDB_new =
    Ret 0 (mk_PathMapDB 1 {[lit "/a" := mk_PMEntry NONE [] 1]}).
Proof.
  apply (updateSnapshot_replays [mk_db_entry (lit "/a") db_entry_Type_NONE []] 0 1 PathMapDB_new).
  - reflexivity.
  - unfold u64_mod. lia.
  - reflexivity.
  - vm_compute. reflexivity.
Defined.

(** The test [currentVersion < fromVersion] in [updateSnapshot] never skips
    anything, because [currentVersion] starts at the snapshot's version and not
    at [fromVersion]: when another thread has advanced the snapshot past
    [fromVersion], every supplied entry is applied, those already contained in
    the snapshot a second time. *)
Theorem updateSnapshot_reapplies es from to db db' :
  Z.of_nat (length es) = to - from → to - from < u64_mod →
  from < snapshotVersion db < to → replay es db = Ret true db' →
  updateSnapshot es from to db = Ret 0 (mk_PathMapDB to (snapshot db')).
Proof. intros. apply updateSnapshot_all; [done|done|lia|done]. Qed.

(** The witness: the move [/a -> /b] (entry 1) is already applied when a thread
    that started from version 0 delivers entries 1 and 2; the second application
    moves the new directory [/a] over [/b]. *)
Lemma updateSnapshot_reapplies_witness :
  ∃ db1 db2,
    replay [mk_db_entry (lit "/a") db_entry_Type_MOVE (lit "/b")] PathMapDB_new = Ret true db1 ∧
    updateSnapshot [mk_db_entry (lit "/a") db_entry_Type_MOVE (lit "/b");
                    mk_db_entry (lit "/c") db_entry_Type_NONE []] 0 2 db1 = Ret 0 db2 ∧
    toSystemPath 9 db1 (lit "/b") LOOKUP = Some (lit "/a", 0) ∧
    toSystemPath 9 db2 (lit "/b") LOOKUP = Some (lit "|reuse_1", 0).
Proof.
  do 2 eexists. split; [vm_compute; reflexivity|]. split.
  - apply (updateSnapshot_reapplies _ 0 2); [reflexivity|unfold u64_mod; lia|cbn; lia|vm_compute; reflexivity].
  - split; vm_compute; reflexivity.
Defined.

(** ** Serialised snapshots *)

Lemma load_entries_lookup l m k :
  NoDup l.*1 →
  fold_left load_entry
    (map (λ '(k, e), mk_db_snapshot_entry k (pm_type e) (Some (pm_target e)) (pm_permissionTimeStamp e)) l) m !! k
  = match (list_to_map l : pmap) !! k with Some e => Some e | None => m !! k end.
Proof.
  revert m. induction l as [|[k' e] l IH]; intros m Hnd; [done|].
  apply NoDup_cons in Hnd as [Hk Hnd]. cbn [map fold_left list_to_map foldr fst snd].
  rewrite IH by done. unfold load_entry; cbn [se_origin se_type se_target se_permissiontimestamp default].
  rewrite !lookup_insert. destruct e. case_decide; [|done]. subst.
  by rewrite (not_elem_of_list_to_map_1 l k).
Qed.

Lemma loadSnapshot_serialize iter db db0 :
  (∀ m, iter m ≡ₚ map_to_list m) → snapshotVersion db0 < snapshotVersion db →
  loadSnapshot (serializeSnapshot iter db) db0 = Ret 0 db.
Proof.
  intros Hit Hv. unfold loadSnapshot, serializeSnapshot; cbn [snapshot_version snapshot_entries].
  destruct (Z.leb_spec (snapshotVersion db) (snapshotVersion db0)); [lia|].
  f_equal. destruct db as [v m]; cbn [snapshot snapshotVersion]. f_equal. apply map_eq. intros k.
  assert (Hnd : NoDup (iter m).*1) by (rewrite Hit; apply NoDup_fst_map_to_list).
  rewrite load_entries_lookup by done.
  rewrite (list_to_map_proper (iter m) (map_to_list m)) by (done || apply Hit).
  rewrite list_to_map_to_list, lookup_empty. by case_match.
Qed.

(** Loading a serialised snapshot restores it exactly, for every iteration
    order of the hash table, on any client that is behind. *)
Theorem serialize_load_roundtrip iter db db0 :
  (∀ m, iter m ≡ₚ map_to_list m) → snapshotVersion db0 < snapshotVersion db →
  loadSnapshot (serializeSnapshot iter db) db0 = Ret 0 db.
Proof. apply loadSnapshot_serialize. Qed.

Lemma serialize_load_roundtrip_witness :
  loadSnapshot (serializeSnapshot map_to_list (mk_PathMapDB 7 {[lit "/l" := mk_PMEntry SYMLINK (lit "/t") 0]}))
    PathMapDB_new = Ret 0 (mk_PathMapDB 7 {[lit "/l" := mk_PMEntry SYMLINK (lit "/t") 0]}).
Proof. apply serialize_load_roundtrip; [intros m; reflexivity|reflexivity]. Defined.

(** ** Prefixes of the log *)

Lemma consistent_new log : consistent log PathMapDB_new.
Proof. exists O. split; [lia|done]. Qed.

Lemma consistent_version log db :
  consistent log db → ∃ n, (n <= length log)%nat ∧ snapshotVersion db = Z.of_nat n ∧
    replay (take n log) PathMapDB_new = Ret true db.
Proof.
  intros (n & Hn & Hr). exists n. split; [done|]. split; [|done].
  rewrite (replay_version _ _ _ Hr). cbn. rewrite length_take. lia.
Qed.

Lemma consistent_grow log log' db : consistent log db → consistent (log ++ log') db.
Proof.
  intros (n & Hn & Hr). exists n. rewrite length_app. split; [lia|]. by rewrite take_app_le by lia.
Qed.

Lemma consistent_unique log db1 db2 :
  consistent log db1 → consistent log db2 → snapshotVersion db1 = snapshotVersion db2 → db1 = db2.
Proof.
  intros (n1 & _ & Hv1 & H1)%consistent_version (n2 & _ & Hv2 & H2)%consistent_version Heq.
  assert (n1 = n2) as -> by lia. congruence.
Qed.

(** Appending the next entries to a consistent client. *)
Lemma consistent_next log es db db' :
  consistent log db → snapshotVersion db = Z.of_nat (length log) → replay es db = Ret true db' →
  consistent (log ++ es) db'.
Proof.
  intros (n & Hn & Hv & Hr)%consistent_version Heq Hes. assert (n = length log) as -> by lia.
  exists (length (log ++ es)). split; [done|]. rewrite firstn_all. rewrite firstn_all in Hr.
  rewrite replay_app. unfold mbind_. by rewrite Hr.
Qed.

(** ** Permission time stamps *)

(** Every permission time stamp is a version the map has passed. *)
Definition times_ok (db : PathMapDB) : Prop :=
  0 <= snapshotVersion db ∧ ∀ k e, snapshot db !! k = Some e → 0 <= pm_permissionTimeStamp e <= snapshotVersion db.

Lemma times_delete (k : cstr) (m : gmap (list ascii) PMEntry) v :
  (∀ x e, m !! x = Some e → 0 <= pm_permissionTimeStamp e <= v) →
  ∀ x e, delete k m !! x = Some e → 0 <= pm_permissionTimeStamp e <= v.
Proof. intros Hm x e [_ Hx]%lookup_delete_Some. by eapply Hm. Qed.

Lemma times_insert (k : cstr) (a : PMEntry) (m : gmap (list ascii) PMEntry) (v : Z) : 0 <= pm_permissionTimeStamp a <= v →
  (∀ x e, m !! x = Some e → 0 <= pm_permissionTimeStamp e <= v) →
  ∀ x e, <[k := a]> m !! x = Some e → 0 <= pm_permissionTimeStamp e <= v.
Proof. intros Ha Hm x e [[_ <-]|[_ Hx]]%lookup_insert_Some; [done|]. by eapply Hm. Qed.

Lemma times_circular (o d : cstr) (m : gmap (list ascii) PMEntry) v : 0 <= v →
  (∀ x e, m !! x = Some e → 0 <= pm_permissionTimeStamp e <= v) →
  ∀ x e, drop_circular m o d !! x = Some e → 0 <= pm_permissionTimeStamp e <= v.
Proof.
  intros Hv Hm. unfold drop_circular, pm_at. destruct (m !! d) eqn:E; case_bool_decide; repeat apply times_delete; try done;
    apply times_insert; done.
Qed.

Lemma apply_entry_times e db db' : times_ok db → apply_entry e db = Ret true db' → times_ok db'.
Proof.
  intros [Hv Hm] He. pose proof (apply_entry_version _ _ _ He) as Hv'. split; [lia|]. rewrite Hv'.
  assert (Hm' : ∀ x a, snapshot db !! x = Some a → 0 <= pm_permissionTimeStamp a <= snapshotVersion db + 1).
  { intros x a Hx. specialize (Hm x a Hx). lia. }
  clear Hm Hv'. revert He. unfold apply_entry, mbind_, mret_, put_. destruct (de_type e).
  - unfold addDirectoryMove. destruct (snapshot db !! _) as [a|] eqn:E; [|intros [= <-]; cbn; apply times_circular; [lia|];
      repeat (apply times_insert; [cbn; lia|]); done].
    destruct (_ || _); [|done]. intros [= <-]. cbn. pose proof (Hm' _ _ E). apply times_circular; [lia|]. case_bool_decide.
    + intros x b. rewrite lookup_alter. case_decide.
      * intros (c & Hc & ->)%fmap_Some_1. cbn. revert Hc. apply times_insert; done.
      * apply times_insert; done.
    + apply times_delete, times_insert; done.
  - unfold addSoftLink. destruct (snapshot db !! _) as [a|] eqn:E; [case_bool_decide|]; intros [= <-]; cbn; (apply times_insert; [cbn; lia|done]).
  - cbn. intros [= <-]. cbn. apply times_insert; [|done]. destruct (snapshot db !! _); cbn; lia.
  - cbn. intros [= <-]. cbn. by apply times_delete.
  - done.
Qed.

Lemma replay_times es db db' : times_ok db → replay es db = Ret true db' → times_ok db'.
Proof.
  revert db. induction es as [|e es IH]; intros db Hok; cbn [replay]; [by intros [= <-]|].
  intros (ok & db1 & He & Hr)%mbind_Ret_inv. destruct ok; [|done]. eapply IH; [|exact Hr]. by eapply apply_entry_times.
Qed.

Lemma consistent_times log db : consistent log db → times_ok db.
Proof. intros (n & _ & Hr). eapply replay_times; [|exact Hr]. split; [done|]. intros k e. cbn. by rewrite lookup_empty. Qed.
