(* ===== verification/PathMapSync.v ===== *)
(** * The path map under concurrent calls

    {!PathMapDB} models each method as one atomic operation. Here the same methods
    run as threads that share the map, the counter [currentReaders] and the mutex
    [lock] (src/pathmap_db.cc): a reader enters the count under the mutex and
    searches without it, a writer keeps the mutex and waits until the count is
    zero. What the code reads or writes outside the mutex is a step of its own. *)
From S2P Require Import Prelude CppString Proto PathMapDB.

(** ** A reader, one level of [searchPathRecursive] at a time *)
Record search := mk_search {
  sr_temp : cstr;
  sr_systemPath : cstr;
  sr_maxTimeStamp : Z;
  sr_followReuse : bool;
  sr_followSymlink : bool;
  sr_follow_here : bool;
  sr_links : Z;
}.

Definition followSymlink_of (ctype : CallingType) : bool := match ctype with LOOKUP => false | READLINK => true end.

Definition search_start (user_path : cstr) (ctype : CallingType) : search :=
  let p := iointercept user_path in
  mk_search p p 0 true (followSymlink_of ctype) (followSymlink_of ctype) 0.

(** The next level of the search, the next round of the loop, or the result. An
    access that [at] or [replace] would reject ends the search with [None]. *)
Definition search_next (m : gmap (list ascii) PMEntry) (r : search) : option (search + (cstr * Z)) :=
  let path := sr_temp r in
  let ts := match m !! path with
            | Some e => Z.max (sr_maxTimeStamp r) (pm_permissionTimeStamp e)
            | None => sr_maxTimeStamp r
            end in
  let found := match m !! path with
               | Some e => negb (dont_remap e (sr_followReuse r) (sr_follow_here r))
               | None => false
               end in
  if found then
    match m !! path with
    | None => None
    | Some e =>
      let links := if bool_decide (pm_type e = SYMLINK) then sr_links r + 1 else sr_links r in
      if bool_decide (pm_type e = SYMLINK) && (MAXSYMLINKS <? links)
      then Some (inr (sr_systemPath r, - ELOOP))
      else
        match replace (sr_systemPath r) 0 (size_ path) (pm_target e) with
        | None => None
        | Some p =>
          Some (inl (mk_search p p ts (negb (bool_decide (pm_type e = MOVE))) (sr_followSymlink r) (sr_followSymlink r) links))
        end
    end
  else
    let pos := find_last_of (lit "/") path in
    if NAME_MAX <? wrap64 (size_ path - 1 - pos) then Some (inr (sr_systemPath r, - ENAMETOOLONG))
    else if pos =? npos then Some (inr (sr_systemPath r, ts))
    else Some (inl (mk_search (erase path pos npos) (sr_systemPath r) ts (sr_followReuse r) (sr_followSymlink r) true (sr_links r))).

(** ** The other methods as programs over the shared object *)
Inductive prog :=
| PRet (r : Z)
(* [assert] failed: the process ends *)
| PAbort
(* an access without the mutex *)
| PLook (f : PathMapDB → prog)
| PVersion (v : Z) (k : prog)
(* under the mutex, without waiting for readers *)
| PLocked (f : PathMapDB → prog)
(* under the mutex, after the last reader has left *)
| PWrite (op : M PathMapDB unit) (k : prog).

Definition PAssert (b : PathMapDB → bool) (k : prog) : prog := PLook (λ db, if b db then k else PAbort).

Definition getSnapshotVersion_prog : prog := PLocked (λ db, PRet (getSnapshotVersion db)).
Definition hasMapping_prog (path : cstr) : prog := PLook (λ db, PRet (if hasMapping db path then 1 else 0)).

Definition load_body (serialized : db_snapshot) : M PathMapDB unit := λ _,
  Ret tt (mk_PathMapDB (snapshot_version serialized) (fold_left load_entry (snapshot_entries serialized) ∅)).

Definition loadSnapshot_prog (serialized : db_snapshot) : prog :=
  PLook (λ db, if snapshot_version serialized <=? snapshotVersion db then PRet 0 else PWrite (load_body serialized) (PRet 0)).

Definition apply_entry_prog (e : db_entry) (k : prog) : prog :=
  match de_type e with
  | db_entry_Type_MOVE => PWrite (addDirectoryMove (de_origin e) (de_target e)) k
  | db_entry_Type_SYMLINK => PWrite (addSoftLink (de_origin e) (de_target e)) k
  | db_entry_Type_NONE => PWrite (addPermissionChange (de_origin e)) k
  | db_entry_Type_REMOVED => PWrite (addUnlink (de_origin e)) k
  | db_entry_Type_INVALID _ => PWrite (put_ (mk_PathMapDB 0 ∅)) (PRet (- EINVAL))
  end.

Fixpoint update_loop_prog (entries : list db_entry) (currentVersion fromVersion : Z) (k : prog) : prog :=
  match entries with
  | [] => k
  | e :: es =>
    let currentVersion := currentVersion + 1 in
    let rest := update_loop_prog es currentVersion fromVersion k in
    if currentVersion <? fromVersion then rest else apply_entry_prog e rest
  end.

(** [snapshotVersion] is read three times and written at the end, all without the mutex. *)
Definition updateSnapshot_prog (entries : list db_entry) (fromVersion toVersion : Z) : prog :=
  PAssert (λ _, Z.of_nat (length entries) =? wrap64 (toVersion - fromVersion)) (
  PAssert (λ db, fromVersion <=? snapshotVersion db) (
  PLook (λ db, if toVersion <=? snapshotVersion db then PRet 0 else
  PLook (λ db, update_loop_prog entries (snapshotVersion db) fromVersion (PVersion toVersion (PRet 0)))))).

(** Alone, a program is the method of {!PathMapDB}. *)
Fixpoint run_prog (p : prog) : M PathMapDB Z :=
  match p with
  | PRet r => mret_ r
  | PAbort => λ db, AssertFail db
  | PLook f | PLocked f => λ db, run_prog (f db) db
  | PVersion v k => modify_ (λ db, mk_PathMapDB v (snapshot db)) ;;; run_prog k
  | PWrite op k => op ;;; run_prog k
  end.

(** ** Threads *)
Inductive pc :=
(* [toSystemPath]: called; counting, with the mutex; searching; leaving; returned *)
| RStart (user_path : cstr) (ctype : CallingType)
| RLocked (r : search)
| RCounted (r : search)
| RSearch (r : search)
| RFound (res : cstr * Z)
| RRet (res : cstr * Z)
(* a program: outside the mutex; reading; waiting for readers; writing; about to unlock *)
| Prog (p : prog)
| VRead (f : PathMapDB → prog)
| WWait (op : M PathMapDB unit) (k : prog)
| WWrite (op : M PathMapDB unit) (k : prog)
| Unlock (k : prog).

Record shared := mk_shared { sh_db : PathMapDB; currentReaders : Z; lock : option nat }.

(** The next step of thread [t] at [c]; [None] when it has to wait, has returned
    or has failed an assertion. *)
Definition thread_next (t : nat) (c : pc) (s : shared) : option (pc * shared) :=
  let '(mk_shared db n l) := s in
  match c with
  | RStart up ct =>
    if PATH_MAX <? size_ (iointercept up) then Some (RRet (iointercept up, - ENAMETOOLONG), s)
    else match l with None => Some (RLocked (search_start up ct), mk_shared db n (Some t)) | Some _ => None end
  | RLocked r => Some (RCounted r, mk_shared db (n + 1) l)
  | RCounted r => Some (RSearch r, mk_shared db n None)
  | RSearch r =>
    match search_next (snapshot db) r with
    | None => None
    | Some (inl r) => Some (RSearch r, s)
    | Some (inr res) => Some (RFound res, s)
    end
  | RFound res => Some (RRet res, mk_shared db (n - 1) l)
  | RRet _ => None
  | Prog (PRet _) | Prog PAbort => None
  | Prog (PLook f) => Some (Prog (f db), s)
  | Prog (PVersion v k) => Some (Prog k, mk_shared (mk_PathMapDB v (snapshot db)) n l)
  | Prog (PLocked f) => match l with None => Some (VRead f, mk_shared db n (Some t)) | Some _ => None end
  | Prog (PWrite op k) => match l with None => Some (WWait op k, mk_shared db n (Some t)) | Some _ => None end
  | VRead f => Some (Unlock (f db), s)
  | WWait op k => if n =? 0 then Some (WWrite op k, s) else None
  | WWrite op k => match op db with Ret _ db => Some (Unlock k, mk_shared db n l) | _ => None end
  | Unlock k => Some (Prog k, mk_shared db n None)
  end.

Record sys := mk_sys { sys_shared : shared; threads : gmap nat pc }.

Inductive sys_step : sys → sys → Prop :=
| thread_steps s ths t c c' s' :
    ths !! t = Some c → thread_next t c s = Some (c', s') →
    sys_step (mk_sys s ths) (mk_sys s' (<[t := c']> ths)).

(** A thread that has been started and has done nothing. *)
Definition fresh (c : pc) : bool := match c with RStart _ _ | Prog _ => true | _ => false end.

Definition initial (s : sys) : Prop :=
  currentReaders (sys_shared s) = 0 ∧ lock (sys_shared s) = None ∧
  ∀ t c, threads s !! t = Some c → fresh c = true.

(** Running a given schedule. *)
Fixpoint run_schedule (sched : list nat) (s : sys) : option sys :=
  match sched with
  | [] => Some s
  | t :: sched =>
    match threads s !! t with
    | None => None
    | Some c =>
      match thread_next t c (sys_shared s) with
      | None => None
      | Some (c', s') => run_schedule sched (mk_sys s' (<[t := c']> (threads s)))
      end
    end
  end.
