(* ===== verification/PathMapSyncFacts.v ===== *)
(** * The path map is safe to search while others update it

    Mutual exclusion of searches and updates, linearisability of [toSystemPath],
    no deadlock, no starving of writers; and what the accesses outside the mutex
    allow. *)
From S2P Require Import Prelude CppString Proto PathMapDB PathMapFacts PathMapSync.

(** ** Alone, the programs are the methods *)

Lemma load_prog_run serialized db : run_prog (loadSnapshot_prog serialized) db = loadSnapshot serialized db.
Proof. unfold loadSnapshot. cbn. by case_match. Qed.

Lemma update_loop_prog_run es cur from k db :
  run_prog (update_loop_prog es cur from k) db =
    (let! ok := update_loop es cur from in if ok : bool then run_prog k else mret_ (- EINVAL)) db.
Proof.
  revert cur db. induction es as [|e es IH]; intros cur db; cbn [update_loop update_loop_prog]; [done|].
  destruct (cur + 1 <? from); [apply IH|]. rewrite mbind_assoc. unfold apply_entry_prog, apply_entry.
  destruct (de_type e); cbn [run_prog]; rewrite mbind_assoc; apply mbind_ext; intros ? s; rewrite mbind_ret_l; done || apply IH.
Qed.

(** A thread that runs alone computes what the atomic model of
    [updateSnapshot] computes, assertion failures and the reset included. *)
Theorem updateSnapshot_alone es from to db :
  run_prog (updateSnapshot_prog es from to) db = updateSnapshot es from to db.
Proof.
  unfold updateSnapshot, updateSnapshot_prog, PAssert, assert_, gets_. cbn [run_prog]. unfold mbind_ at 1.
  destruct (_ =? wrap64 _); [|done]. cbn [run_prog]. rewrite mbind_lam. unfold mbind_ at 1.
  destruct (from <=? _); [|done]. cbn [run_prog]. destruct (to <=? _); [done|]. cbn [run_prog].
  rewrite update_loop_prog_run. apply mbind_ext. intros [] s; [|done]. done.
Qed.

(** ** The step-wise search is the search of {!PathMapDB} *)
Section Search.
Context (m : gmap (list ascii) PMEntry).

(** The rest of [toSystemPath_loop] from the middle of a search. *)
Definition resume (f : nat) (r : search) : option (cstr * Z) :=
  match searchPathRecursive (S (length (sr_temp r))) m (sr_temp r) (sr_maxTimeStamp r) (sr_followReuse r) (sr_follow_here r) with
  | None => None
  | Some (false, _, ts) => Some (sr_systemPath r, ts)
  | Some (true, temp, ts) =>
    match m !! temp with
    | None => None
    | Some e =>
      let links := if bool_decide (pm_type e = SYMLINK) then sr_links r + 1 else sr_links r in
      if bool_decide (pm_type e = SYMLINK) && (MAXSYMLINKS <? links)
      then Some (sr_systemPath r, - ELOOP)
      else
        match replace (sr_systemPath r) 0 (size_ temp) (pm_target e) with
        | None => None
        | Some p => toSystemPath_loop f m p p ts (negb (bool_decide (pm_type e = MOVE))) (sr_followSymlink r) links
        end
    end
  end.

Lemma loop_resume f p ts fr fs n :
  toSystemPath_loop (S f) m p p ts fr fs n = resume f (mk_search p p ts fr fs fs n).
Proof. done. Qed.

Lemma search_fuel n n' p ts fr fs : (length p < n)%nat → (length p < n')%nat →
  searchPathRecursive n m p ts fr fs = searchPathRecursive n' m p ts fr fs.
Proof.
  revert n' p ts fs. induction n as [|n IH]; intros [|n'] p ts fs Hn Hn'; [lia..|]. cbn [searchPathRecursive].
  assert (Hrec : ∀ ts, (find_last_of (lit "/") p =? npos) = false →
    searchPathRecursive n m (erase p (find_last_of (lit "/") p) npos) ts fr true =
    searchPathRecursive n' m (erase p (find_last_of (lit "/") p) npos) ts fr true).
  { intros ts1 Hpos. assert (length (erase p (find_last_of (lit "/") p) npos) < length p)%nat.
    { apply erase_shorter. intros Hf. rewrite find_last_of_free in Hpos by done. by rewrite Z.eqb_refl in Hpos. }
    apply IH; lia. }
  destruct (match m !! p with Some _ => _ | None => false end); [done|].
  destruct (NAME_MAX <? _); [done|]. destruct (find_last_of (lit "/") p =? npos); [done|]. by apply Hrec.
Qed.

Definition searches : search → search → Prop := steps (λ a b, search_next m a = Some (inl b)).

Lemma search_next_done r res f : search_next m r = Some (inr res) → resume f r = Some res.
Proof.
  destruct r as [p sp ts fr fs here n]. unfold search_next, resume. cbn [searchPathRecursive sr_temp sr_systemPath sr_maxTimeStamp sr_followReuse sr_followSymlink sr_follow_here sr_links].
  intros H. destruct (m !! p) as [e|] eqn:He.
  - destruct (negb _) eqn:Hd; cbn in H |- *.
    + rewrite He. destruct (_ && _); [by simplify_eq|]. by destruct (replace _ _ _ _).
    + repeat case_match; by simplify_eq.
  - repeat case_match; by simplify_eq.
Qed.

Lemma search_next_more r r' f res : search_next m r = Some (inl r') → resume f r' = Some res → ∃ f', resume f' r = Some res.
Proof.
  destruct r as [p sp ts fr fs here n]. unfold search_next. cbn [sr_temp sr_systemPath sr_maxTimeStamp sr_followReuse sr_followSymlink sr_follow_here sr_links].
  intros H Hr. unfold resume. cbn [searchPathRecursive sr_temp sr_systemPath sr_maxTimeStamp sr_followReuse sr_followSymlink sr_follow_here sr_links].
  destruct (match m !! p with Some _ => _ | None => false end) eqn:Hd.
  - destruct (m !! p) as [e|] eqn:He; [|done]. exists (S f). destruct (_ && _); [done|].
    destruct (replace _ _ _ _) as [q|]; [|done]. simplify_eq. by rewrite loop_resume.
  - exists f. destruct (NAME_MAX <? _); [done|]. destruct (find_last_of (lit "/") p =? npos) eqn:Hpos; [done|]. simplify_eq.
    rewrite <- Hr. unfold resume. cbn [sr_temp sr_systemPath sr_maxTimeStamp sr_followReuse sr_followSymlink sr_follow_here sr_links].
    rewrite (search_fuel (length p) (S (length (erase p (find_last_of (lit "/") p) npos)))); [done| |lia].
    apply erase_shorter. intros Hf. rewrite find_last_of_free in Hpos by done. by rewrite Z.eqb_refl in Hpos.
Qed.

Lemma searches_resume a b f res : searches a b → resume f b = Some res → ∃ f', resume f' a = Some res.
Proof.
  intros Hs. revert f. induction Hs as [a|a b c _ IH Hn]; intros f Hf; [eauto|].
  destruct (search_next_more _ _ _ _ Hn Hf) as [f' Hf']. by apply (IH f').
Qed.
End Search.

Lemma searches_result db up ct r res :
  size_ (iointercept up) <= PATH_MAX → searches (snapshot db) (search_start up ct) r →
  search_next (snapshot db) r = Some (inr res) → ∃ f, toSystemPath f db up ct = Some res.
Proof.
  intros Hs Hr Hn. destruct (searches_resume _ _ _ 0 res Hr (search_next_done _ _ _ 0 Hn)) as [f Hf].
  exists (S f). unfold toSystemPath. rewrite (proj2 (Z.ltb_ge _ _)) by done. exact Hf.
Qed.

(** ** Mutual exclusion *)

(** The thread owns the mutex; the thread is counted in [currentReaders]. *)
Definition holds (c : pc) : bool :=
  match c with RLocked _ | RCounted _ | VRead _ | WWait _ _ | WWrite _ _ | Unlock _ => true | _ => false end.
Definition counted (c : pc) : bool := match c with RCounted _ | RSearch _ | RFound _ => true | _ => false end.
Definition writing (c : pc) : bool := match c with WWrite _ _ => true | _ => false end.

Definition readers (ths : gmap nat pc) : nat := size (filter (λ p, counted p.2 = true) ths).

Lemma readers_insert ths t c : ths !! t = None → readers (<[t := c]> ths) = ((if counted c then 1 else 0) + readers ths)%nat.
Proof.
  intros Ht. unfold readers. rewrite map_filter_insert. case_decide as Hc; cbn in Hc.
  - rewrite Hc. rewrite map_size_insert_None; [done|]. apply map_lookup_filter_None. by left.
  - destruct (counted c); [done|]. by rewrite delete_id.
Qed.

Lemma readers_update ths t c c' : ths !! t = Some c →
  Z.of_nat (readers (<[t := c']> ths)) = Z.of_nat (readers ths) - Z.b2z (counted c) + Z.b2z (counted c').
Proof.
  intros Ht. rewrite <- (insert_delete_id ths t c Ht) at 2. rewrite <- insert_delete_eq.
  rewrite !readers_insert by (apply lookup_delete_eq). destruct (counted c), (counted c'); cbn [Z.b2z]; lia.
Qed.

Lemma readers_none ths t c : readers ths = 0%nat → ths !! t = Some c → counted c = false.
Proof.
  unfold readers. intros He%map_size_empty_iff Ht. destruct (counted c) eqn:Hc; [|done].
  assert (filter (λ p, counted p.2 = true) ths !! t = Some c) as Hf by (by apply map_lookup_filter_Some).
  by rewrite He in Hf.
Qed.

Lemma readers_some ths : readers ths ≠ 0%nat → ∃ t c, ths !! t = Some c ∧ counted c = true.
Proof.
  unfold readers. intros Hne. destruct (map_choose (filter (λ p, counted p.2 = true) ths)) as (t & c & Hf).
  { intros He. by rewrite He, map_size_empty in Hne. }
  apply map_lookup_filter_Some in Hf as [??]. eauto.
Qed.

(** What one step does to the counter, the mutex and the map. *)
Lemma thread_next_effect t c s c' s' : thread_next t c s = Some (c', s') →
  currentReaders s' = currentReaders s - Z.b2z (counted c) + Z.b2z (counted c') ∧
  (lock s' = lock s ∧ holds c' = holds c ∨
   lock s = None ∧ lock s' = Some t ∧ holds c' = true ∨ holds c = true ∧ lock s' = None ∧ holds c' = false) ∧
  (snapshot (sh_db s') = snapshot (sh_db s) ∨ writing c = true) ∧
  (writing c' = true → currentReaders s = 0) ∧
  (counted c' = true → counted c = true ∨ holds c = true).
Proof.
  destruct s as [db n l]. destruct c as [up ct|r|r|r|res|res|[r| |f|v k|f|op k]|f|op k|op k|k]; cbn [thread_next];
    intros H; repeat case_match; simplify_eq; cbn [currentReaders lock sh_db snapshot counted holds writing Z.b2z];
    (split; [lia|split; [by auto|split; [by auto|split; [|by auto]]]]); try done.
  intros _. by apply Z.eqb_eq.
Qed.

Record sync_inv (s : sys) : Prop := {
  inv_lock t c : threads s !! t = Some c → holds c = bool_decide (lock (sys_shared s) = Some t);
  inv_owner t : lock (sys_shared s) = Some t → is_Some (threads s !! t);
  inv_count : currentReaders (sys_shared s) = Z.of_nat (readers (threads s));
  inv_excl t c t' c' : threads s !! t = Some c → writing c = true → threads s !! t' = Some c' → counted c' = false;
}.

Lemma initial_inv s : initial s → sync_inv s.
Proof.
  intros (Hn & Hl & Hf). split.
  - intros t c Ht. rewrite Hl. rewrite bool_decide_false by done. apply Hf in Ht. by destruct c.
  - intros t. by rewrite Hl.
  - rewrite Hn. destruct (decide (readers (threads s) = 0%nat)) as [->|Hne]; [done|].
    destruct (readers_some _ Hne) as (t & c & Ht & Hc). apply Hf in Ht. by destruct c.
  - intros t c t' c' Ht Hw. apply Hf in Ht. by destruct c.
Qed.

Lemma writing_holds c : writing c = true → holds c = true.
Proof. by destruct c. Qed.
Lemma writing_not_counted c : writing c = true → counted c = false.
Proof. by destruct c. Qed.

Lemma step_inv s s' : sync_inv s → sys_step s s' → sync_inv s'.
Proof.
  intros [Hl Ho Hc He] Hs. inversion Hs as [sh ths u c c' sh' Hu Hn]; subst. cbn [sys_shared threads] in *.
  destruct (thread_next_effect _ _ _ _ _ Hn) as (Hcount & Hlock & _ & Hwr & Hcnt). pose proof (Hl _ _ Hu) as Hhold.
  split; cbn [sys_shared threads].
  - intros t d [[<- <-]|[Hne Ht]]%lookup_insert_Some.
    + destruct Hlock as [(->&->)|[(?&->&->)|(?&->&->)]]; [done|by rewrite bool_decide_true|by rewrite bool_decide_false].
    + rewrite (Hl _ _ Ht). apply bool_decide_ext. destruct Hlock as [(->&_)|[(->&->&_)|(Hh&->&_)]]; [done|by split; intros; simplify_eq|].
      rewrite Hhold, bool_decide_eq_true in Hh. rewrite Hh. split; intros; by simplify_eq.
  - intros t Ht. destruct (decide (u = t)) as [->|Hne]; [rewrite lookup_insert_eq; eauto|]. rewrite lookup_insert_ne by done. apply Ho.
    destruct Hlock as [(<-&_)|[(_&Hs'&_)|(_&Hs'&_)]]; [done|congruence|congruence].
  - rewrite Hcount, Hc. by rewrite (readers_update _ _ _ _ Hu).
  - intros t d t' d' Ht Hw Ht'. apply lookup_insert_Some in Ht as [[<- <-]|[Hne Ht]].
    + apply lookup_insert_Some in Ht' as [[_ <-]|[_ Ht']]; [by apply writing_not_counted|].
      apply (readers_none ths t'); [|done]. specialize (Hwr Hw). lia.
    + apply lookup_insert_Some in Ht' as [[<- <-]|[_ Ht']]; [|by eapply (He t)].
      destruct (counted c') eqn:Hc'; [|done]. destruct (Hcnt eq_refl) as [Hcc|Hh].
      * by rewrite (He _ _ _ _ Ht Hw Hu) in Hcc.
      * rewrite Hhold, bool_decide_eq_true in Hh. pose proof (Hl _ _ Ht) as Hlt. rewrite writing_holds in Hlt by done.
        symmetry in Hlt. rewrite bool_decide_eq_true in Hlt. congruence.
Qed.

Lemma reachable_inv s0 s : initial s0 → steps sys_step s0 s → sync_inv s.
Proof. intros H0 Hs. eapply (steps_invariant sys_step sync_inv); eauto using step_inv, initial_inv. Qed.

(** C26: nobody searches while the map is written. In every state that threads
    calling any of the methods can reach, at most one thread is inside a locked
    section, [currentReaders] is the number of threads between entering and leaving
    the count, and while a thread writes none of them is. *)
Theorem pathmap_exclusion s0 s : initial s0 → steps sys_step s0 s →
  (∀ t c t' c', threads s !! t = Some c → threads s !! t' = Some c' → holds c = true → holds c' = true → t = t') ∧
  currentReaders (sys_shared s) = Z.of_nat (readers (threads s)) ∧
  (∀ t c t' c', threads s !! t = Some c → writing c = true → threads s !! t' = Some c' → counted c' = false).
Proof.
  intros H0 Hs. destruct (reachable_inv _ _ H0 Hs) as [Hl _ Hc He]. split; [|by split].
  intros t c t' c' Ht Ht' Hh Hh'. rewrite (Hl _ _ Ht), bool_decide_eq_true in Hh. rewrite (Hl _ _ Ht'), bool_decide_eq_true in Hh'. congruence.
Qed.

(** ** Linearisability of [toSystemPath] *)

(** At [s1] the call of thread [t] is under way. *)
Definition in_call (s1 : sys) (t : nat) (up : cstr) (ct : CallingType) : Prop :=
  threads s1 !! t = Some (RStart up ct) ∨ threads s1 !! t = Some (RCounted (search_start up ct)).

(** How far thread [t] is, and what justifies its search so far: the state in
    which it was counted, whose map is still the current one. *)
Definition explained (s0 s : sys) (t : nat) (up : cstr) (ct : CallingType) : Prop :=
  match threads s !! t with
  | Some (RStart up' ct') => up' = up ∧ ct' = ct
  | Some (RLocked r) => r = search_start up ct ∧ size_ (iointercept up) <= PATH_MAX
  | Some (RCounted r) => r = search_start up ct ∧ size_ (iointercept up) <= PATH_MAX
  | Some (RSearch r) => size_ (iointercept up) <= PATH_MAX ∧ ∃ s1, steps sys_step s0 s1 ∧ steps sys_step s1 s ∧ in_call s1 t up ct ∧
      snapshot (sh_db (sys_shared s1)) = snapshot (sh_db (sys_shared s)) ∧
      searches (snapshot (sh_db (sys_shared s))) (search_start up ct) r
  | Some (RFound res) | Some (RRet res) => ∃ s1 f, steps sys_step s0 s1 ∧ steps sys_step s1 s ∧ in_call s1 t up ct ∧
      toSystemPath f (sh_db (sys_shared s1)) up ct = Some res
  | _ => False
  end.

Lemma toSystemPath_snapshot f db db' up ct : snapshot db = snapshot db' → toSystemPath f db up ct = toSystemPath f db' up ct.
Proof. unfold toSystemPath. by intros ->. Qed.

(** A step of another thread: it does not write while [t] is counted. *)
Lemma explained_other s0 s s' t up ct :
  sync_inv s → sys_step s s' → threads s' !! t = threads s !! t → 
  (∀ c, threads s !! t = Some c → counted c = true → snapshot (sh_db (sys_shared s')) = snapshot (sh_db (sys_shared s))) →
  explained s0 s t up ct → explained s0 s' t up ct.
Proof.
  intros Hi Hs Ht Hsn. unfold explained. rewrite Ht. destruct (threads s !! t) as [[]|]; try done.
  - rewrite (Hsn _ eq_refl eq_refl). intros (? & s1 & ? & ? & ?). split; [done|]. exists s1. eauto 10 using steps.
  - intros (s1 & f & ? & ? & ?). exists s1, f. eauto 10 using steps.
  - intros (s1 & f & ? & ? & ?). exists s1, f. eauto 10 using steps.
Qed.

(** A step of [t] itself. *)
Lemma explained_own s0 sh ths sh' t c c' up ct :
  ths !! t = Some c → thread_next t c sh = Some (c', sh') → steps sys_step s0 (mk_sys sh ths) →
  explained s0 (mk_sys sh ths) t up ct → explained s0 (mk_sys sh' (<[t := c']> ths)) t up ct.
Proof.
  intros Ht Hn H0. unfold explained. cbn [threads sys_shared]. rewrite Ht, lookup_insert_eq.
  assert (Hs : sys_step (mk_sys sh ths) (mk_sys sh' (<[t := c']> ths))) by (by econstructor).
  destruct sh as [db n l], c as [up0 ct0|r|r|r|res|res|p|f|op k|op k|k]; try done; cbn [thread_next] in Hn; cbn [sh_db].
  - intros [-> ->]. destruct (Z.ltb_spec PATH_MAX (size_ (iointercept up))) as [Hlt|Hle]; [|by destruct l; simplify_eq].
    simplify_eq. exists (mk_sys (mk_shared db n l) ths), 0%nat. split; [done|]. split; [by apply steps_one|]. split; [by left|].
    unfold toSystemPath. by rewrite (proj2 (Z.ltb_lt _ _)).
  - intros [-> Hle]. by simplify_eq.
  - intros [-> Hle]. simplify_eq. split; [done|]. exists (mk_sys (mk_shared db n l) ths). cbn [sys_shared sh_db threads].
    split; [done|]. split; [by apply steps_one|]. split; [by right|]. split; [done|constructor].
  - intros (Hle & s1 & H1 & Hs1 & Hin & Hsn & Hr). destruct (search_next _ r) as [[r'|res]|] eqn:Hr'; simplify_eq.
    + split; [done|]. exists s1. cbn [sys_shared sh_db]. split; [done|]. split; [by eapply steps_step|]. split; [done|].
      split; [done|]. by eapply steps_step.
    + rewrite <- Hsn in Hr, Hr'. destruct (searches_result _ _ _ _ _ Hle Hr Hr') as [f Hf].
      exists s1, f. split; [done|]. split; [by eapply steps_step|]. by split.
  - intros (s1 & f & H1 & Hs1 & ?). simplify_eq. exists s1, f. split; [done|]. split; [by eapply steps_step|done].
Qed.

Lemma explained_reachable s0 s t up ct : initial s0 → threads s0 !! t = Some (RStart up ct) →
  steps sys_step s0 s → explained s0 s t up ct.
Proof.
  intros H0 Ht Hs. induction Hs as [s0|s0 s s' Hs IH Hstep]; [unfold explained; by rewrite Ht|].
  specialize (IH H0 Ht). pose proof (reachable_inv _ _ H0 Hs) as Hi.
  inversion Hstep as [sh ths u c c' sh' Hu Hn]; subst. destruct (decide (u = t)) as [->|Hne].
  - by eapply explained_own.
  - eapply explained_other; [done|done| | |done]; cbn [threads sys_shared].
    + by rewrite lookup_insert_ne.
    + intros d Hd Hc. destruct (thread_next_effect _ _ _ _ _ Hn) as (_ & _ & [Hsn|Hw] & _); [done|].
      by rewrite (inv_excl _ Hi u c t d) in Hc.
Qed.

(** C6: [toSystemPath] is linearisable. Whatever the other threads do, the result
    a call returns is the one the whole search gives, without interruption, on the
    map of one moment between the call and its return. *)
Theorem toSystemPath_linearizable s0 s t up ct res :
  initial s0 → threads s0 !! t = Some (RStart up ct) → steps sys_step s0 s → threads s !! t = Some (RRet res) →
  ∃ s1 fuel, steps sys_step s0 s1 ∧ steps sys_step s1 s ∧ in_call s1 t up ct ∧
    toSystemPath fuel (sh_db (sys_shared s1)) up ct = Some res.
Proof.
  intros H0 Ht Hs Hr. pose proof (explained_reachable s0 s t up ct H0 Ht Hs) as He. unfold explained in He. by rewrite Hr in He.
Qed.

(** ** Progress *)

(** The thread has returned or aborted, or its next step fails: an assertion under
    the mutex, or an access out of range. *)
Definition finished (c : pc) : bool := match c with RRet _ | Prog (PRet _) | Prog PAbort => true | _ => false end.
Definition fails (c : pc) (s : shared) : bool :=
  match c with
  | RSearch r => match search_next (snapshot (sh_db s)) r with None => true | _ => false end
  | WWrite op _ => match op (sh_db s) with Ret _ _ => false | _ => true end
  | _ => false
  end.

(** A search never fails: what it reads is there. *)
Lemma search_next_total m r : search_next m r ≠ None.
Proof.
  unfold search_next. destruct (m !! sr_temp r) as [e|] eqn:He.
  - destruct (negb _); [|by repeat case_match]. destruct (_ && _); [done|].
    destruct (replace_at_0 (sr_systemPath r) (size_ (sr_temp r)) (pm_target e)) as [x ->]. done.
  - by repeat case_match.
Qed.

Lemma holder_next t c s : holds c = true → fails c s = false → 
  (∃ x, thread_next t c s = Some x) ∨ currentReaders s ≠ 0 ∧ counted c = false.
Proof.
  destruct s as [db n l], c as [up ct|r|r|r|res|res|p|f|op k|op k|k]; try done; cbn; eauto; intros _ Hf.
  - destruct (Z.eqb_spec n 0); eauto.
  - destruct (op db); by eauto.
Qed.

Lemma unlocked_next t c s : finished c = false → holds c = false → lock s = None ∨ counted c = true →
  ∃ x, thread_next t c s = Some x.
Proof.
  destruct s as [db n l], c as [up ct|r|r|r|res|res|p|f|op k|op k|k]; try done; cbn [finished holds counted lock thread_next]; intros Hf _ Hl;
    try (destruct Hl as [->|]; [|done]); eauto.
  - destruct (_ <? _); eauto.
  - pose proof (search_next_total (snapshot db) r). destruct (search_next _ r) as [[]|]; by eauto.
  - destruct p; try done; eauto.
Qed.

(** C27: no deadlock. As long as some thread has not returned, and no update fails an
    assertion, a thread can take a step: whoever waits for the mutex waits for its
    owner, whoever waits for the readers waits for a thread that does not need the
    mutex. *)
Theorem pathmap_deadlock_free s0 s t c : initial s0 → steps sys_step s0 s →
  threads s !! t = Some c → finished c = false → (∀ t' c', threads s !! t' = Some c' → fails c' (sys_shared s) = false) →
  ∃ s', sys_step s s'.
Proof.
  intros H0 Hs Ht Hf Hok. destruct (reachable_inv _ _ H0 Hs) as [Hl Ho Hc _].
  assert (Hgo : ∀ t c x, threads s !! t = Some c → thread_next t c (sys_shared s) = Some x → ∃ s', sys_step s s').
  { intros u d [d' sh'] Hu Hd. destruct s as [sh ths]. eexists. by econstructor. }
  destruct (lock (sys_shared s)) as [u|] eqn:Hlock.
  - destruct (Ho u eq_refl) as [d Hd]. pose proof (Hl _ _ Hd) as Hh. rewrite bool_decide_true in Hh by done.
    destruct (holder_next u d (sys_shared s) Hh (Hok _ _ Hd)) as [[x Hx]|[Hn _]]; [eauto|].
    destruct (readers_some (threads s)) as (v & e & He & Hce); [lia|].
    destruct (holds e) eqn:Hhe.
    + destruct (holder_next v e (sys_shared s) Hhe (Hok _ _ He)) as [[x Hx]|[_ ?]]; [eauto|congruence].
    + destruct (unlocked_next v e (sys_shared s)) as [x Hx]; [by destruct e|done|by right|eauto].
  - pose proof (Hl _ _ Ht) as Hh. rewrite bool_decide_false in Hh by done.
    destruct (unlocked_next t c (sys_shared s) Hf Hh (or_introl Hlock)) as [x Hx]. eauto.
Qed.

(** While a writer waits for the readers, their number only falls. *)
Lemma writer_not_overtaken s0 s s' t op k : initial s0 → steps sys_step s0 s → sys_step s s' →
  threads s !! t = Some (WWait op k) → currentReaders (sys_shared s') <= currentReaders (sys_shared s).
Proof.
  intros H0 Hs Hstep Ht. pose proof (reachable_inv _ _ H0 Hs) as [Hl _ _ _].
  inversion Hstep as [sh ths u c c' sh' Hu Hn]; subst. cbn [sys_shared threads] in *.
  destruct (thread_next_effect _ _ _ _ _ Hn) as (-> & _ & _ & _ & Hcnt).
  destruct (counted c') eqn:Hc'; [|destruct (counted c); cbn; lia]. destruct (Hcnt eq_refl) as [->|Hh]; [cbn; lia|].
  pose proof (Hl _ _ Ht) as Hlt. cbn in Hlt. symmetry in Hlt. rewrite bool_decide_eq_true in Hlt.
  rewrite (Hl _ _ Hu), bool_decide_eq_true in Hh. assert (u = t) as -> by congruence. simplify_eq.
  destruct sh as [db n l]. cbn in Hn. destruct (n =? 0); by simplify_eq.
Qed.

(** ** Running schedules *)

Lemma run_schedule_steps sched : ∀ s s', run_schedule sched s = Some s' → steps sys_step s s'.
Proof.
  induction sched as [|t sched IH]; intros s s'; cbn [run_schedule]; [intros [= ->]; constructor|].
  destruct (threads s !! t) as [c|] eqn:Ht; [|done]. destruct (thread_next t c _) as [[c' sh']|] eqn:Hn; [|done].
  intros Hr%IH. eapply steps_trans; [apply steps_one|exact Hr]. destruct s as [sh ths]. by econstructor.
Qed.

(** The state after a schedule that can be run. *)
Definition after (sched : list nat) (s : sys) : sys := default s (run_schedule sched s).
Definition runs (sched : list nat) (s : sys) : bool := match run_schedule sched s with Some _ => true | None => false end.

Lemma after_reached sched s : runs sched s = true → steps sys_step s (after sched s).
Proof.
  unfold runs, after. destruct (run_schedule sched s) as [s'|] eqn:Hr; [|done]. intros _. by apply (run_schedule_steps sched).
Qed.

(** Witnesses: a lookup that overlaps a rename. *)
Definition demo_rename : prog := updateSnapshot_prog [mk_db_entry (lit "/a") db_entry_Type_MOVE (lit "/b")] 0 1.
Definition demo_sync (ths : list pc) : sys := mk_sys (mk_shared PathMapDB_new 0 None) (list_to_map (zip (seq 0 (length ths)) ths)).
Definition demo_overlap : sys := demo_sync [RStart (lit "/b/x") LOOKUP; Prog demo_rename].

Lemma demo_initial ths : forallb fresh ths = true → initial (demo_sync ths).
Proof.
  intros Hf. split; [done|split; [done|]]. intros t c Ht%elem_of_list_to_map_2. apply elem_of_zip_r in Ht.
  rewrite forallb_forall in Hf. by apply Hf, list_elem_of_In.
Qed.

(** The reader is counted first, the writer takes the mutex and has to wait. *)
Definition demo_schedule : list nat := [0; 0; 0; 1; 1; 1; 1; 1; 0; 0; 0; 0; 1; 1; 1; 1]%nat.

Example demo_overlap_result : 
  option_map (λ s, (threads s !! 0%nat, snapshotVersion (sh_db (sys_shared s)))) (run_schedule demo_schedule demo_overlap) =
    Some (Some (RRet (lit "/b/x", 0)), 1).
Proof. by vm_compute. Qed.

Definition demo_end (n : nat) : sys := after (take n demo_schedule) demo_overlap.

Lemma demo_reaches n : (n <= 16)%nat → steps sys_step demo_overlap (demo_end n).
Proof.
  intros Hn. apply after_reached. assert (Hall : forallb (λ n, runs (take n demo_schedule) demo_overlap) (seq 0 17) = true) by (vm_compute; reflexivity).
  rewrite forallb_forall in Hall. apply Hall, in_seq. lia.
Qed.

Definition is_pc (f : pc → bool) (s : sys) (t : nat) : bool := match threads s !! t with Some c => f c | None => false end.

Lemma pathmap_exclusion_witness :
  is_pc holds (demo_end 8) 1 = true ∧ is_pc counted (demo_end 8) 0 = true ∧
  currentReaders (sys_shared (demo_end 8)) = Z.of_nat (readers (threads (demo_end 8))).
Proof.
  split; [vm_compute; reflexivity|]. split; [vm_compute; reflexivity|].
  apply (pathmap_exclusion demo_overlap (demo_end 8)); [by apply demo_initial|apply demo_reaches; lia].
Defined.

Lemma toSystemPath_linearizable_witness : ∃ s1 fuel, steps sys_step demo_overlap s1 ∧ steps sys_step s1 (demo_end 16) ∧
  in_call s1 0 (lit "/b/x") LOOKUP ∧ toSystemPath fuel (sh_db (sys_shared s1)) (lit "/b/x") LOOKUP = Some (lit "/b/x", 0).
Proof.
  apply (toSystemPath_linearizable demo_overlap (demo_end 16) 0 (lit "/b/x") LOOKUP (lit "/b/x", 0)).
  - by apply demo_initial.
  - reflexivity.
  - apply demo_reaches. lia.
  - vm_compute. reflexivity.
Defined.

Definition none_fails (s : sys) : bool := forallb (λ p, negb (fails p.2 (sys_shared s))) (map_to_list (threads s)).

Lemma none_fails_spec s t c : none_fails s = true → threads s !! t = Some c → fails c (sys_shared s) = false.
Proof.
  unfold none_fails. intros Hn Ht%elem_of_map_to_list. rewrite forallb_forall in Hn.
  apply list_elem_of_In, Hn in Ht. cbn [snd] in Ht. by apply negb_true_iff in Ht.
Qed.

(** The writer waits, the reader is in the middle of its search. *)
Lemma pathmap_deadlock_free_witness : ∃ s', sys_step (demo_end 8) s'.
Proof.
  apply (pathmap_deadlock_free demo_overlap (demo_end 8) 0 (RSearch (search_start (lit "/b/x") LOOKUP))).
  - by apply demo_initial.
  - apply demo_reaches. lia.
  - vm_compute. reflexivity.
  - reflexivity.
  - intros t c. apply none_fails_spec. vm_compute. reflexivity.
Defined.

(** ** What happens outside the mutex *)

(** Two threads that catch up with the same log entry. *)
Definition race_updates : sys := demo_sync [Prog demo_rename; Prog demo_rename].
Definition race_schedule : list nat := [0; 0; 0; 0; 1; 1; 1; 1; 0; 0; 0; 0; 1; 1; 1; 1; 0; 1]%nat.

(** Two concurrent [updateSnapshot] of the same entry apply it twice. Both
    read [snapshotVersion] before either takes the mutex; both return 0 and the
    version is the right one, but the renamed directory now leads to the place that
    is kept for a new directory of the old name. One after the other they would
    leave it at its system path. *)
Theorem concurrent_updates_apply_twice : ∃ s, steps sys_step race_updates s ∧
  threads s !! 0%nat = Some (Prog (PRet 0)) ∧ threads s !! 1%nat = Some (Prog (PRet 0)) ∧
  snapshotVersion (sh_db (sys_shared s)) = 1 ∧
  toSystemPath 10 (sh_db (sys_shared s)) (lit "/b/x") LOOKUP = Some (lit "|reuse_1/x", 0) ∧
  (∃ db, (run_prog demo_rename ;;; run_prog demo_rename) PathMapDB_new = Ret 0 db ∧
    snapshotVersion db = 1 ∧ toSystemPath 10 db (lit "/b/x") LOOKUP = Some (lit "/a/x", 0)).
Proof.
  exists (after race_schedule race_updates). split; [apply after_reached; vm_compute; reflexivity|].
  do 4 (split; [vm_compute; reflexivity|]).
  exists (mk_PathMapDB 1 {[lit "/b" := mk_PMEntry MOVE (lit "/a") 0; lit "/a" := mk_PMEntry REUSE (lit "|reuse_1") 0]}).
  do 2 (split; [vm_compute; reflexivity|]). vm_compute. reflexivity.
Qed.

(** [loadSnapshot] compares versions before it takes the mutex: a thread that was
    overtaken puts an older snapshot back. *)
Example concurrent_loads_go_back :
  let load v := Prog (loadSnapshot_prog (mk_db_snapshot v [])) in
  option_map (λ s, snapshotVersion (sh_db (sys_shared s)))
    (run_schedule [0; 1; 1; 1; 1; 1; 0; 0; 0; 0]%nat (demo_sync [load 43; load 50])) = Some 43.
Proof. by vm_compute. Qed.
