(* ===== verification/LRUCache.v ===== *)
(** * LRUcache: the read cache (src/lru_cache.h)

    The template is parametric in the key and data types and in the two
    functions [getKey] and [dirty] given to the constructor; the data are
    pointers, so both functions read the heap at the time of the call and are
    arguments of every operation here. A [std::list] iterator is the identity of
    a list node ([ce_id]); the clock is an argument of the operations that read
    it, in nanoseconds of [steady_clock]. *)
From S2P Require Import Prelude.

Record cache_entry (D : Type) := mk_cache_entry {
  ce_id : nat;
  ce_data : D;
  ce_time : Z;
}.
Arguments mk_cache_entry {D} _ _ _.
Arguments ce_id {D} _.
Arguments ce_data {D} _.
Arguments ce_time {D} _.

Record LRUcache (K D : Type) `{Countable K} := mk_LRUcache {
  cache : list (cache_entry D);
  lookup_ : gmap K nat;
  blocked_keys : gset K;
  next_id : nat;
  expiration_time : Z;
  capacity : Z;
}.
Arguments mk_LRUcache {K D _ _} _ _ _ _ _ _.
Arguments cache {K D _ _} _.
Arguments lookup_ {K D _ _} _.
Arguments blocked_keys {K D _ _} _.
Arguments next_id {K D _ _} _.
Arguments expiration_time {K D _ _} _.
Arguments capacity {K D _ _} _.

Section LRU.
Context {K D : Type} `{Countable K}.
Context (getKey : D → K) (dirty : D → bool).
Implicit Types (c : LRUcache K D) (k : K) (d : D) (e : cache_entry D).

Definition LRU_new (expiration capacity : Z) : LRUcache K D :=
  mk_LRUcache [] ∅ ∅ 0 expiration capacity.

Definition set_nodes (l : list (cache_entry D)) (lk : gmap K nat) c : LRUcache K D :=
  mk_LRUcache l lk (blocked_keys c) (next_id c) (expiration_time c) (capacity c).

Definition set_blocked (b : gset K) c : LRUcache K D :=
  mk_LRUcache (cache c) (lookup_ c) b (next_id c) (expiration_time c) (capacity c).

(** Dereferencing a list iterator. *)
Definition find_node (id : nat) (l : list (cache_entry D)) : option (cache_entry D) :=
  List.find (λ e, Nat.eqb (ce_id e) id) l.

Definition erase_node (id : nat) (l : list (cache_entry D)) : list (cache_entry D) :=
  List.filter (λ e, negb (Nat.eqb (ce_id e) id)) l.

Definition expired (now : Z) c e : bool :=
  if dirty (ce_data e) then false
  else negb (expiration_time c =? 0) && (expiration_time c <? Z.quot (now - ce_time e) 1000000).

(** [remove]: [lookup[k]] of a missing key is a singular iterator, and erasing
    it (or a dangling one) is undefined. *)
Definition remove k : M (LRUcache K D) unit := λ c,
  match lookup_ c !! k with
  | None => Undef c
  | Some id =>
    match find_node id (cache c) with
    | None => Undef c
    | Some _ => Ret tt (set_nodes (erase_node id (cache c)) (delete k (lookup_ c)) c)
    end
  end.

(** [get]; [None] is [false]. A blocked key waits for another thread. *)
Definition get k (now : Z) : M (LRUcache K D) (option D) := λ c,
  if bool_decide (k ∈ blocked_keys c) then Blocked c
  else match lookup_ c !! k with
       | None => Ret None c
       | Some id =>
         match find_node id (cache c) with
         | None => Undef c
         | Some e =>
           if expired now c e then (remove k ;;; mret_ None) c
           else Ret (Some (ce_data e)) (set_nodes (e :: erase_node id (cache c)) (lookup_ c) c)
         end
       end.

(** The node before an iterator; [None] for [base] is [end()]. *)
Fixpoint node_before (base : nat) (l : list (cache_entry D)) : option (cache_entry D) :=
  match l with
  | e1 :: ((e2 :: _) as l') => if Nat.eqb (ce_id e2) base then Some e1 else node_before base l'
  | _ => None
  end.

Definition prev_node (base : option nat) (l : list (cache_entry D)) : option (cache_entry D) :=
  match base with
  | None => last l
  | Some b => node_before b l
  end.

(** The eviction loop of [add] over reverse iterators. A reverse iterator is kept
    as its base; the element it denotes is the one before the base. After
    [remove] the base stays and [++it] steps back once more; stepping back from
    [begin()], or from a base that was erased, is undefined. *)
Fixpoint evict (fuel : nat) (base : option nat) : M (LRUcache K D) unit := λ c,
  match fuel with
  | O => NoFuel c
  | S f =>
    match prev_node base (cache c) with
    | None => Ret tt c
    | Some e =>
      if Z.of_nat (length (cache c)) <? capacity c then Ret tt c
      else
        ((if dirty (ce_data e) then mret_ tt else remove (getKey (ce_data e))) ;;;
         λ c, match base with
              | Some b => if bool_decide (is_Some (find_node b (cache c))) then
                            match node_before b (cache c) with
                            | None => Undef c
                            | Some e' => evict f (Some (ce_id e')) c
                            end
                          else Undef c
              | None => match last (cache c) with
                        | None => Undef c
                        | Some e' => evict f (Some (ce_id e')) c
                        end
              end) c
    end
  end.

(** Insertion at the front, and the wake-up of the waiters. *)
Definition push_front k d (now : Z) c : LRUcache K D :=
  mk_LRUcache (mk_cache_entry (next_id c) d now :: cache c) (<[k := next_id c]> (lookup_ c))
    (blocked_keys c ∖ {[k]}) (S (next_id c)) (expiration_time c) (capacity c).

Definition add k d (now : Z) : M (LRUcache K D) bool := λ c,
  let insert_ : M (LRUcache K D) bool :=
    (λ c, evict (S (length (cache c))) None c) ;;; modify_ (push_front k d now) ;;; mret_ true in
  match lookup_ c !! k with
  | Some id =>
    match find_node id (cache c) with
    | None => Undef c
    | Some e => if expired now c e then (remove k ;;; insert_) c else Ret false c
    end
  | None => insert_ c
  end.

Definition block k : M (LRUcache K D) bool := λ c,
  if bool_decide (k ∈ blocked_keys c) then Ret false c
  else Ret true (set_blocked ({[k]} ∪ blocked_keys c) c).

Definition set_time (id : nat) (now : Z) e : cache_entry D :=
  if Nat.eqb (ce_id e) id then mk_cache_entry (ce_id e) (ce_data e) now else e.

Definition revalidate k (now : Z) : M (LRUcache K D) unit := λ c,
  match lookup_ c !! k with
  | None => Ret tt c
  | Some id =>
    match find_node id (cache c) with
    | None => Undef c
    | Some _ => Ret tt (set_nodes (map (set_time id now) (cache c)) (lookup_ c) c)
    end
  end.

Definition invalidate k : M (LRUcache K D) unit :=
  (λ c, if bool_decide (is_Some (lookup_ c !! k)) then remove k c else Ret tt c) ;;;
  modify_ (λ c, set_blocked (blocked_keys c ∖ {[k]}) c).

(** ** The invariant

    The hash table and the list agree: the iterator stored for a key is the node
    whose data has that key. *)
Definition wf c : Prop :=
  NoDup (ce_id <$> cache c) ∧
  (∀ k id, lookup_ c !! k = Some id ↔ ∃ e, e ∈ cache c ∧ ce_id e = id ∧ getKey (ce_data e) = k) ∧
  Forall (λ e, (ce_id e < next_id c)%nat) (cache c).

(** The content a client can see: the data stored for a key. *)
Definition peek c k : option D :=
  id ← lookup_ c !! k; e ← find_node id (cache c); Some (ce_data e).

(** *** Lists of nodes *)

Lemma find_node_Some id l e :
  NoDup (ce_id <$> l) → find_node id l = Some e ↔ e ∈ l ∧ ce_id e = id.
Proof.
  intros Hnd. unfold find_node. induction l as [|e' l IH]; cbn.
  { split; [done|]. intros [?%elem_of_nil _]. done. }
  cbn in Hnd. apply NoDup_cons in Hnd as [Hni Hnd].
  destruct (Nat.eqb_spec (ce_id e') id) as [Heq|Hne].
  - split; [intros; simplify_eq; split; [left|done]|].
    intros [[->|Hin]%elem_of_cons Hid]; [done|]. exfalso. apply Hni. rewrite Heq, <- Hid.
    by apply list_elem_of_fmap_2.
  - rewrite IH by done. split; intros [Hin Hid]; (split; [|done]); [by right|].
    apply elem_of_cons in Hin as [->|]; [done|done].
Qed.

Lemma find_node_None id l : find_node id l = None → id ∉ ce_id <$> l.
Proof.
  unfold find_node. induction l as [|e l IH]; cbn; [set_solver|].
  destruct (Nat.eqb_spec (ce_id e) id); [done|]. intros Hf. apply not_elem_of_cons. auto.
Qed.

Lemma erase_node_notin id l : id ∉ ce_id <$> l → erase_node id l = l.
Proof.
  induction l as [|e l IH]; [done|]. intros [Hne Hni]%not_elem_of_cons.
  unfold erase_node in *. cbn [List.filter].
  destruct (Nat.eqb_spec (ce_id e) id); [congruence|]. cbn [negb]. f_equal. by apply IH.
Qed.

Lemma erase_node_split l1 e l2 :
  NoDup (ce_id <$> l1 ++ e :: l2) → erase_node (ce_id e) (l1 ++ e :: l2) = l1 ++ l2.
Proof.
  intros Hnd. rewrite fmap_app, fmap_cons in Hnd. apply NoDup_app in Hnd as (_ & Hd & Hnd).
  apply NoDup_cons in Hnd as [Hn2 _].
  unfold erase_node. rewrite List.filter_app. cbn. rewrite Nat.eqb_refl. cbn.
  change (erase_node (ce_id e) l1 ++ erase_node (ce_id e) l2 = l1 ++ l2).
  rewrite !erase_node_notin; [done|done|]. intros Hin. apply (Hd _ Hin). left.
Qed.

Lemma elem_of_erase e id l : e ∈ erase_node id l ↔ e ∈ l ∧ ce_id e ≠ id.
Proof.
  unfold erase_node. rewrite !list_elem_of_In, List.filter_In, negb_true_iff, Nat.eqb_neq. done.
Qed.

Lemma erase_node_sublist id l : erase_node id l `sublist_of` l.
Proof.
  unfold erase_node. induction l as [|e l IH]; cbn; [constructor|]. destruct (negb _); by constructor.
Qed.

Lemma node_before_split l1 e1 e2 l2 :
  NoDup (ce_id <$> l1 ++ e1 :: e2 :: l2) →
  node_before (ce_id e2) (l1 ++ e1 :: e2 :: l2) = Some e1.
Proof.
  induction l1 as [|e l1 IH]; intros Hnd.
  { cbn. by rewrite Nat.eqb_refl. }
  cbn in Hnd. apply NoDup_cons in Hnd as [Hni Hnd].
  destruct l1 as [|e' l1]; cbn [app node_before] in *.
  - destruct (Nat.eqb_spec (ce_id e1) (ce_id e2)); [|by rewrite Nat.eqb_refl].
    exfalso. apply NoDup_cons in Hnd as [Hx _]. apply Hx. cbn. set_solver.
  - destruct (Nat.eqb_spec (ce_id e') (ce_id e2)); [|by apply IH].
    exfalso. cbn in Hnd. apply NoDup_cons in Hnd as [Hx _]. apply Hx.
    rewrite fmap_app, !fmap_cons. set_solver.
Qed.

Lemma node_before_none b l : b ∉ ce_id <$> tail l → node_before b l = None.
Proof.
  induction l as [|e1 l IH]; [done|]. destruct l as [|e2 l]; [done|]. cbn [tail].
  rewrite fmap_cons. intros [Hne Hni]%not_elem_of_cons. cbn [node_before].
  destruct (Nat.eqb_spec (ce_id e2) b); [congruence|]. by apply IH.
Qed.

Lemma node_before_head e l : NoDup (ce_id <$> e :: l) → node_before (ce_id e) (e :: l) = None.
Proof. rewrite fmap_cons. intros [Hni _]%NoDup_cons. by apply node_before_none. Qed.

(** *** Consequences of the invariant *)

Lemma wf_ids c : wf c → NoDup (ce_id <$> cache c).
Proof. by intros (? & _). Qed.

Lemma wf_lookup c k id : wf c → lookup_ c !! k = Some id →
  ∃ e, find_node id (cache c) = Some e ∧ e ∈ cache c ∧ ce_id e = id ∧ getKey (ce_data e) = k.
Proof.
  intros Hwf Hl. destruct Hwf as (Hnd & Hlk & _). apply Hlk in Hl as (e & Hin & Hid & Hk).
  exists e. split; [|done]. apply find_node_Some; [done|]. by split.
Qed.

Lemma wf_node c e : wf c → e ∈ cache c → lookup_ c !! getKey (ce_data e) = Some (ce_id e).
Proof. intros (_ & Hlk & _) Hin. apply Hlk. eauto. Qed.

Lemma wf_new x y : wf (LRU_new x y).
Proof.
  split; [constructor|]. split; [|constructor]. intros k id. cbn. rewrite lookup_empty.
  split; [done|]. intros (e & ?%elem_of_nil & _). done.
Qed.

Lemma wf_remove c k id :
  wf c → lookup_ c !! k = Some id → wf (set_nodes (erase_node id (cache c)) (delete k (lookup_ c)) c).
Proof.
  intros Hwf Hl. pose proof Hwf as (Hnd & Hlk & Hlt). split; [|split]; cbn.
  - eapply sublist_NoDup; [exact Hnd|]. apply fmap_sublist, erase_node_sublist.
  - intros k' id'. rewrite lookup_delete_Some, Hlk. split.
    + intros [Hne (e & Hin & Hid & Hk)]. exists e. rewrite elem_of_erase. split; [|done].
      split; [done|]. intros He. destruct (wf_lookup _ _ _ Hwf Hl) as (e0 & Hf & _ & _ & Hk0).
      apply Hne. assert (e0 = e); [|congruence].
      enough (find_node id (cache c) = Some e) by congruence. apply find_node_Some; auto.
    + intros (e & [Hin Hne]%elem_of_erase & Hid & Hk). split; [|eauto]. intros ->.
      rewrite <- Hk in Hl. rewrite (wf_node _ _ Hwf Hin) in Hl. simplify_eq.
  - rewrite Forall_forall in *. intros e [Hin _]%elem_of_erase. by apply Hlt.
Qed.

Lemma remove_ret c k id :
  wf c → lookup_ c !! k = Some id →
  remove k c = Ret tt (set_nodes (erase_node id (cache c)) (delete k (lookup_ c)) c).
Proof.
  intros Hwf Hl. unfold remove. rewrite Hl.
  destruct (wf_lookup _ _ _ Hwf Hl) as (e & -> & _). done.
Qed.

Lemma wf_front c e l :
  wf c → cache c ≡ₚ e :: l → wf (set_nodes (e :: l) (lookup_ c) c).
Proof.
  intros (Hnd & Hlk & Hlt) Hp. split; [|split]; cbn.
  - change (NoDup (ce_id <$> e :: l)). by rewrite <- Hp.
  - intros k id. rewrite Hlk. split; intros (e' & Hin & ?); exists e'; (split; [|done]).
    + by rewrite <- Hp. + by rewrite Hp.
  - by rewrite <- Hp.
Qed.

Lemma erase_node_perm e l :
  NoDup (ce_id <$> l) → e ∈ l → l ≡ₚ e :: erase_node (ce_id e) l.
Proof.
  intros Hnd (l1 & l2 & ->)%list_elem_of_split. rewrite erase_node_split by done.
  by rewrite Permutation_middle.
Qed.

Lemma wf_push c k d now : wf c → lookup_ c !! k = None → getKey d = k → wf (push_front k d now c).
Proof.
  intros (Hnd & Hlk & Hlt) Hk Hd. split; [|split]; cbn.
  - apply NoDup_cons. split; [|done]. intros (e & Hid & Hin)%list_elem_of_fmap.
    rewrite Forall_forall in Hlt. apply Hlt in Hin. lia.
  - intros k' id. rewrite lookup_insert. case_decide as Hc.
    + subst k'. split.
      * intros; simplify_eq. eexists. split; [left|]. done.
      * intros (e & [->|Hin]%elem_of_cons & Hid & Hke); [by rewrite <- Hid|].
        exfalso. assert (lookup_ c !! k = Some (ce_id e)) by (apply Hlk; eauto). congruence.
    + rewrite Hlk. split.
      * intros (e & Hin & ?). exists e. split; [by right|done].
      * intros (e & [->|Hin]%elem_of_cons & Hid & Hke); [|eauto]. cbn in Hke. congruence.
  - constructor; [cbn; lia|]. eapply Forall_impl; [exact Hlt|]. cbn. lia.
Qed.

(** *** Reading through the table *)

Lemma find_node_erase id id' l :
  id' ≠ id → find_node id' (erase_node id l) = find_node id' l.
Proof.
  intros Hne. unfold find_node, erase_node. induction l as [|e l IH]; [done|]. cbn [List.filter List.find].
  destruct (Nat.eqb_spec (ce_id e) id) as [->|]; cbn [negb List.find].
  - destruct (Nat.eqb_spec id id'); [congruence|done].
  - destruct (Nat.eqb (ce_id e) id'); [done|apply IH].
Qed.

Lemma peek_entry c k id e :
  lookup_ c !! k = Some id → find_node id (cache c) = Some e → peek c k = Some (ce_data e).
Proof. intros Hl Hf. unfold peek. rewrite Hl. cbn. by rewrite Hf. Qed.

Lemma wf_ids_inj c k k' id : wf c → lookup_ c !! k = Some id → lookup_ c !! k' = Some id → k = k'.
Proof.
  intros Hwf H1 H2. destruct (wf_lookup _ _ _ Hwf H1) as (e1 & F1 & _ & _ & <-).
  destruct (wf_lookup _ _ _ Hwf H2) as (e2 & F2 & _ & _ & <-). congruence.
Qed.

Lemma peek_remove c k id k' :
  wf c → lookup_ c !! k = Some id →
  peek (set_nodes (erase_node id (cache c)) (delete k (lookup_ c)) c) k' =
    if decide (k = k') then None else peek c k'.
Proof.
  intros Hwf Hl. unfold peek; cbn [lookup_ cache set_nodes]. rewrite lookup_delete.
  case_decide; [done|]. destruct (lookup_ c !! k') as [id'|] eqn:Hl'; [|done]. cbn.
  rewrite find_node_erase; [done|]. intros ->. by destruct (wf_ids_inj _ _ _ _ Hwf Hl Hl').
Qed.

Lemma peek_front c e k : wf c → e ∈ cache c →
  peek (set_nodes (e :: erase_node (ce_id e) (cache c)) (lookup_ c) c) k = peek c k.
Proof.
  intros Hwf Hin. unfold peek; cbn [lookup_ cache set_nodes]. destruct (lookup_ c !! k) as [id|] eqn:Hl; [|done].
  cbn. destruct (wf_lookup _ _ _ Hwf Hl) as (e0 & Hf & Hin0 & Hid0 & _). rewrite Hf.
  destruct (Nat.eqb_spec (ce_id e) id) as [Heq|Hne].
  - cbn. assert (find_node id (cache c) = Some e); [|by simplify_eq].
    apply find_node_Some; [by apply wf_ids|done].
  - change (List.find _ _) with (find_node id (erase_node (ce_id e) (cache c))).
    rewrite find_node_erase by done. by rewrite Hf.
Qed.

(** *** The eviction loop *)

Definition base_of (post : list (cache_entry D)) : option nat :=
  match post with [] => None | e :: _ => Some (ce_id e) end.

Lemma prev_node_split pre post :
  NoDup (ce_id <$> pre ++ post) → prev_node (base_of post) (pre ++ post) = last pre.
Proof.
  intros Hnd. destruct post as [|e2 post]; cbn [base_of prev_node]; [by rewrite app_nil_r|].
  destruct (nil_or_snoc pre) as [->|(pre' & e1 & ->)].
  - by apply node_before_head.
  - rewrite last_snoc, <- app_assoc. cbn. rewrite <- app_assoc in Hnd. by apply node_before_split.
Qed.

Lemma evict_stop f base c :
  Z.of_nat (length (cache c)) < capacity c → evict (S f) base c = Ret tt c.
Proof.
  intros Hlt. cbn [evict]. destruct (prev_node base (cache c)); [|done].
  by rewrite (proj2 (Z.ltb_lt _ _) Hlt).
Qed.

(** One round on a dirty element, and one on a clean element. *)
Lemma evict_step_dirty f c pre e post :
  NoDup (ce_id <$> cache c) → cache c = (pre ++ [e]) ++ post → dirty (ce_data e) = true →
  capacity c <= Z.of_nat (length (cache c)) →
  evict (S f) (base_of post) c = evict f (base_of (e :: post)) c.
Proof.
  intros Hnd Hc Hd Hcap. cbn [evict].
  rewrite Hc in Hnd. rewrite Hc at 1. rewrite prev_node_split by done. rewrite last_snoc.
  destruct (Z.ltb_spec (Z.of_nat (length (cache c))) (capacity c)); [lia|].
  rewrite Hd, mbind_ret_l. destruct post as [|e2 post]; cbn [base_of].
  - rewrite Hc, app_nil_r, last_snoc. done.
  - rewrite bool_decide_true.
    + rewrite Hc at 1. rewrite <- app_assoc. cbn [app]. rewrite <- app_assoc in Hnd.
      by rewrite node_before_split.
    + exists e2. rewrite Hc. apply find_node_Some; [done|]. split; [set_solver|done].
Qed.

Lemma evict_step_clean f c pre e post :
  wf c → cache c = (pre ++ [e]) ++ post → dirty (ce_data e) = false →
  capacity c <= Z.of_nat (length (cache c)) →
  let c' := set_nodes (pre ++ post) (delete (getKey (ce_data e)) (lookup_ c)) c in
  evict (S f) (base_of post) c =
    match last pre with None => Undef c' | Some e' => evict f (Some (ce_id e')) c' end.
Proof.
  intros Hwf Hc Hd Hcap c'. cbn [evict]. pose proof (wf_ids _ Hwf) as Hnd. rewrite Hc in Hnd.
  rewrite Hc at 1. rewrite prev_node_split by done. rewrite last_snoc.
  destruct (Z.ltb_spec (Z.of_nat (length (cache c))) (capacity c)); [lia|]. rewrite Hd.
  assert (Hrem : remove (getKey (ce_data e)) c = Ret tt c').
  { rewrite (remove_ret c _ (ce_id e)); [|done|apply wf_node; [done|rewrite Hc; set_solver]].
    unfold c'. do 3 f_equal. rewrite Hc, <- app_assoc. cbn. rewrite <- app_assoc in Hnd. by apply erase_node_split. }
  unfold mbind_. rewrite Hrem. cbn [cache set_nodes]. change (cache c') with (pre ++ post).
  assert (Hnd' : NoDup (ce_id <$> pre ++ post)).
  { rewrite <- app_assoc in Hnd. eapply sublist_NoDup; [exact Hnd|]. apply fmap_sublist.
    apply sublist_app; [done|]. by apply sublist_cons. }
  destruct post as [|e2 post]; cbn [base_of].
  - by rewrite app_nil_r.
  - rewrite bool_decide_true.
    + rewrite <- (prev_node_split pre (e2 :: post)) by done. done.
    + exists e2. apply find_node_Some; [done|]. split; [set_solver|done].
Qed.

(** Dirty elements at the end are skipped. *)
Lemma evict_skip_dirty f c pre p2 :
  NoDup (ce_id <$> cache c) → cache c = pre ++ p2 → Forall (λ e, dirty (ce_data e) = true) p2 →
  capacity c <= Z.of_nat (length (cache c)) →
  evict (length p2 + f) None c = evict f (base_of p2) c.
Proof.
  intros Hnd Hc Hd Hcap. change None with (base_of []).
  assert (Hgen : ∀ post p pre, cache c = (pre ++ p) ++ post → Forall (λ e, dirty (ce_data e) = true) p →
    evict (length p + f) (base_of post) c = evict f (base_of (p ++ post)) c).
  { intros post p. revert post. induction p as [|e p IH] using rev_ind; intros post pre' Hc' Hd'; [done|].
    apply Forall_app in Hd' as [Hd1 Hd2]. apply Forall_cons in Hd2 as [He _].
    rewrite length_app, Nat.add_1_r. cbn [plus].
    rewrite (evict_step_dirty _ c (pre' ++ p) e post); [|done|by rewrite Hc', <- !app_assoc|done|done].
    rewrite (IH (e :: post) pre'); [by rewrite <- app_assoc| |done].
    rewrite Hc', <- !app_assoc. done. }
  rewrite (Hgen [] p2 pre), app_nil_r; [done|by rewrite app_nil_r|done].
Qed.

Lemma evict_all_dirty c :
  NoDup (ce_id <$> cache c) → Forall (λ e, dirty (ce_data e) = true) (cache c) →
  evict (S (length (cache c))) None c = Ret tt c.
Proof.
  intros Hnd Hd. destruct (Z.ltb_spec (Z.of_nat (length (cache c))) (capacity c)); [by apply evict_stop|].
  rewrite <- Nat.add_1_r, (evict_skip_dirty 1 c [] (cache c)) by done. cbn [evict].
  rewrite <- (app_nil_l (cache c)) at 2. rewrite prev_node_split; done.
Qed.

(** What any run of the loop does: it only removes entries. *)
Lemma evict_Ret f base c c' :
  wf c → evict f base c = Ret tt c' →
  wf c' ∧ blocked_keys c' = blocked_keys c ∧ next_id c' = next_id c ∧
  expiration_time c' = expiration_time c ∧ capacity c' = capacity c ∧
  ∀ k, lookup_ c !! k = None → lookup_ c' !! k = None.
Proof.
  revert base c. induction f as [|f IH]; intros base c Hwf; cbn [evict]; [done|].
  destruct (prev_node base (cache c)) as [e|]; [|intros; simplify_eq; eauto 10].
  destruct (_ <? _); [intros; simplify_eq; eauto 10|]. intros (u & c1 & Hrm & Hgo)%mbind_Ret_inv.
  assert (Hc1 : wf c1 ∧ blocked_keys c1 = blocked_keys c ∧ next_id c1 = next_id c ∧
    expiration_time c1 = expiration_time c ∧ capacity c1 = capacity c ∧
    ∀ k, lookup_ c !! k = None → lookup_ c1 !! k = None).
  { destruct (dirty (ce_data e)); [unfold mret_ in Hrm; simplify_eq; eauto 10|].
    unfold remove in Hrm. destruct (lookup_ c !! _) as [id|] eqn:Hl; [|done].
    destruct (find_node id (cache c)); [|done]. simplify_eq. split; [by apply wf_remove|].
    repeat split; try done. intros k Hk. cbn. rewrite lookup_delete. by case_decide. }
  destruct Hc1 as (Hwf1 & E1 & E2 & E3 & E4 & E5).
  assert (Hrec : ∀ b, evict f b c1 = Ret tt c' → wf c' ∧ blocked_keys c' = blocked_keys c ∧
    next_id c' = next_id c ∧ expiration_time c' = expiration_time c ∧ capacity c' = capacity c ∧
    ∀ k, lookup_ c !! k = None → lookup_ c' !! k = None).
  { intros b Hb. destruct (IH b c1 Hwf1 Hb) as (? & -> & -> & -> & -> & ?). eauto 10. }
  destruct base as [b|]; repeat case_match; try done; eauto.
Qed.

(** The insertion part of [add] on a key that is not stored. *)
Lemma add_absent c k d now :
  lookup_ c !! k = None →
  add k d now c =
    match evict (S (length (cache c))) None c with
    | Ret _ c' => Ret true (push_front k d now c')
    | Exit c' => Exit c' | AssertFail c' => AssertFail c' | Throw c' => Throw c'
    | Undef c' => Undef c' | Blocked c' => Blocked c' | NoFuel c' => NoFuel c'
    end.
Proof. intros Hl. unfold add. rewrite Hl. unfold mbind_. by destruct (evict _ _ c). Qed.

Lemma wf_add c k d now c' : wf c → getKey d = k → add k d now c = Ret true c' → wf c'.
Proof.
  intros Hwf Hd. unfold add. destruct (lookup_ c !! k) as [id|] eqn:Hl.
  - destruct (find_node id (cache c)) as [e|]; [|done]. destruct (expired now c e); [|done].
    unfold mbind_. rewrite (remove_ret c k id) by done.
    set (c1 := set_nodes _ _ c).
    destruct (evict _ None c1) as [[] c2| | | | | |] eqn:Hev; try done.
    unfold modify_, mret_. intros; simplify_eq.
    apply evict_Ret in Hev as (Hwf2 & _ & _ & _ & _ & Hn); [|by apply wf_remove].
    apply wf_push; [done| |done]. apply Hn. cbn. apply lookup_delete_eq.
  - intros Hadd. unfold mbind_ in Hadd.
    destruct (evict _ None c) as [[] c2| | | | | |] eqn:Hev; try done.
    unfold modify_, mret_ in Hadd. simplify_eq.
    apply evict_Ret in Hev as (Hwf2 & _ & _ & _ & _ & Hn); [|done].
    apply wf_push; [done| |done]. by apply Hn.
Qed.

Lemma wf_set_blocked b c : wf c → wf (set_blocked b c).
Proof. done. Qed.

Lemma set_time_id id now (l : list (cache_entry D)) : ce_id <$> map (set_time id now) l = ce_id <$> l.
Proof.
  induction l as [|e l IH]; [done|]. cbn [map]. rewrite !fmap_cons, IH. unfold set_time. by case_match.
Qed.

Lemma wf_revalidate c k now c' : wf c → revalidate k now c = Ret tt c' → wf c'.
Proof.
  intros Hwf. unfold revalidate. destruct (lookup_ c !! k) as [id|]; [|intros; by simplify_eq].
  destruct (find_node id (cache c)); [|done]. intros; simplify_eq. destruct Hwf as (Hnd & Hlk & Hlt).
  assert (Hst : ∀ e : cache_entry D, ce_id (set_time id now e) = ce_id e ∧ ce_data (set_time id now e) = ce_data e).
  { intros e. unfold set_time. by case_match. }
  split; [|split]; cbn [cache lookup_ set_nodes next_id].
  - by rewrite set_time_id.
  - intros k' id'. rewrite Hlk. split.
    + intros (e & Hin & Hid & Hk). exists (set_time id now e). destruct (Hst e) as [-> ->].
      split; [|done]. by apply list_elem_of_fmap_2.
    + intros (e' & (e & -> & Hin)%list_elem_of_fmap & Hid & Hk). destruct (Hst e) as [E1 E2].
      exists e. rewrite E1 in Hid. rewrite E2 in Hk. done.
  - rewrite Forall_forall in *. intros e' (e & -> & Hin)%list_elem_of_fmap. rewrite (proj1 (Hst e)). by apply Hlt.
Qed.

Lemma wf_invalidate c k c' : wf c → invalidate k c = Ret tt c' → wf c'.
Proof.
  intros Hwf. unfold invalidate. intros (u & c1 & Hr & Hm)%mbind_Ret_inv. unfold modify_ in Hm. simplify_eq. apply wf_set_blocked.
  case_bool_decide as Hs; [|by simplify_eq]. destruct Hs as [id Hl].
  rewrite (remove_ret c k id) in Hr by done. simplify_eq. by apply wf_remove.
Qed.

(** [get] in terms of the stored entry. *)
Lemma get_hit c k now id e :
  wf c → k ∉ blocked_keys c → lookup_ c !! k = Some id → find_node id (cache c) = Some e →
  expired now c e = false →
  get k now c = Ret (Some (ce_data e)) (set_nodes (e :: erase_node id (cache c)) (lookup_ c) c).
Proof.
  intros Hwf Hb Hl Hf He. unfold get. rewrite bool_decide_false by done. by rewrite Hl, Hf, He.
Qed.

Lemma get_stale c k now id e :
  wf c → k ∉ blocked_keys c → lookup_ c !! k = Some id → find_node id (cache c) = Some e →
  expired now c e = true →
  get k now c = Ret None (set_nodes (erase_node id (cache c)) (delete k (lookup_ c)) c).
Proof.
  intros Hwf Hb Hl Hf He. unfold get. rewrite bool_decide_false by done. rewrite Hl, Hf, He.
  unfold mbind_. by rewrite (remove_ret c k id).
Qed.

Lemma wf_get c k now r c' : wf c → get k now c = Ret r c' → wf c'.
Proof.
  intros Hwf Hg. destruct (decide (k ∈ blocked_keys c)) as [Hb|Hb].
  { unfold get in Hg. by rewrite bool_decide_true in Hg. }
  destruct (lookup_ c !! k) as [id|] eqn:Hl.
  - destruct (wf_lookup _ _ _ Hwf Hl) as (e & Hf & Hin & Hid & Hk).
    destruct (expired now c e) eqn:He.
    + rewrite (get_stale c k now id e) in Hg by done. simplify_eq. by apply wf_remove.
    + rewrite (get_hit c k now id e) in Hg by done. simplify_eq. apply wf_front; [done|].
      apply erase_node_perm; [by apply wf_ids|done].
  - unfold get in Hg. rewrite bool_decide_false, Hl in Hg by done. by simplify_eq.
Qed.

(** [get] on a well-formed cache. *)
Lemma get_correct_ c k now :
  wf c → k ∉ blocked_keys c →
  ∃ r c', get k now c = Ret r c' ∧ wf c' ∧
    (∀ d, r = Some d → peek c k = Some d ∧ ∃ e rest, cache c' = e :: rest ∧ ce_data e = d ∧ cache c ≡ₚ e :: rest) ∧
    (r = None → peek c' k = None) ∧
    (∀ d, peek c k = Some d → dirty d = true ∨ expiration_time c = 0 → r = Some d) ∧
    (∀ k', k' ≠ k → peek c' k' = peek c k').
Proof.
  intros Hwf Hb. destruct (lookup_ c !! k) as [id|] eqn:Hl.
  - destruct (wf_lookup _ _ _ Hwf Hl) as (e & Hf & Hin & Hid & Hk).
    pose proof (peek_entry _ _ _ _ Hl Hf) as Hp.
    destruct (expired now c e) eqn:He.
    + do 2 eexists. split; [by apply (get_stale c k now id e)|]. split; [by apply wf_remove|].
      split; [done|]. split; [intros _; rewrite peek_remove by done; by rewrite decide_True|]. split.
      * intros d Hd Hdirty. rewrite Hp in Hd. simplify_eq. unfold expired in He.
        destruct Hdirty as [Hdi|Hz]; [by rewrite Hdi in He|]. rewrite Hz in He. by case_match.
      * intros k' Hne. rewrite peek_remove by done. by rewrite decide_False by done.
    + do 2 eexists. split; [by apply (get_hit c k now id e)|]. subst id.
      pose proof (erase_node_perm e (cache c) (wf_ids _ Hwf) Hin) as Hperm.
      split; [by apply wf_front|]. split; [|split; [done|split]].
      * intros d Hd. simplify_eq. split; [done|]. exists e, (erase_node (ce_id e) (cache c)). done.
      * intros d Hd _. congruence.
      * intros k' _. by apply peek_front.
  - do 2 eexists. split; [unfold get; rewrite bool_decide_false by done; by rewrite Hl|].
    assert (Hp : peek c k = None) by (unfold peek; by rewrite Hl).
    split; [done|]. split; [done|]. split; [done|]. split; [intros d Hd; congruence|done].
Qed.

Lemma add_evicts_lru_ c k d now p1 e p2 :
  wf c → lookup_ c !! k = None → getKey d = k →
  cache c = p1 ++ e :: p2 → p1 ≠ [] → Z.of_nat (length (cache c)) = capacity c →
  dirty (ce_data e) = false → Forall (λ e, dirty (ce_data e) = true) p2 →
  ∃ c', add k d now c = Ret true c' ∧ wf c' ∧
    cache c' = mk_cache_entry (next_id c) d now :: p1 ++ p2 ∧
    lookup_ c' !! getKey (ce_data e) = None.
Proof.
  intros Hwf Hl Hd Hc Hp1 Hlen He Hp2. pose proof (wf_ids _ Hwf) as Hnd.
  assert (Hkne : getKey (ce_data e) ≠ k).
  { intros Heq. rewrite <- Heq in Hl. rewrite (wf_node c e Hwf) in Hl; [done|rewrite Hc; set_solver]. }
  destruct (nil_or_snoc p1) as [->|(p1' & e1 & Hp1')]; [done|].
  set (c1 := set_nodes (p1 ++ p2) (delete (getKey (ce_data e)) (lookup_ c)) c).
  assert (Hev : evict (S (length (cache c))) None c = Ret tt c1).
  { replace (S (length (cache c))) with (length p2 + S (S (length p1)))%nat
      by (rewrite Hc, length_app; cbn; lia).
    rewrite (evict_skip_dirty _ c (p1 ++ [e]) p2) by (done || lia || by rewrite Hc, <- app_assoc).
    rewrite (evict_step_clean _ c p1 e p2) by (done || lia || by rewrite Hc, <- app_assoc).
    rewrite Hp1' at 1. rewrite last_snoc. apply evict_stop. cbn. rewrite <- Hlen, Hc, !length_app. cbn. lia. }
  exists (push_front k d now c1). rewrite add_absent, Hev by done.
  split; [done|]. apply evict_Ret in Hev as (Hwf1 & _ & _ & _ & _ & Hn); [|done].
  split; [by apply wf_push; auto|]. split; [done|]. cbn.
  rewrite lookup_insert_ne by done. apply lookup_delete_eq.
Qed.

Lemma add_without_eviction c k d now :
  wf c → lookup_ c !! k = None → getKey d = k →
  Z.of_nat (length (cache c)) < capacity c ∨ Forall (λ e, dirty (ce_data e) = true) (cache c) →
  add k d now c = Ret true (push_front k d now c) ∧ wf (push_front k d now c).
Proof.
  intros Hwf Hl Hd Hcase. split; [|by apply wf_push].
  rewrite add_absent by done.
  destruct Hcase; [by rewrite evict_stop|by rewrite evict_all_dirty by (done || by apply wf_ids)].
Qed.

Lemma add_front_undefined_ c k d now e p2 :
  wf c → lookup_ c !! k = None → cache c = e :: p2 → Z.of_nat (length (cache c)) = capacity c →
  dirty (ce_data e) = false → Forall (λ e, dirty (ce_data e) = true) p2 →
  ∃ c', add k d now c = Undef c'.
Proof.
  intros Hwf Hl Hc Hlen He Hp2. pose proof (wf_ids _ Hwf) as Hnd. rewrite add_absent by done.
  replace (S (length (cache c))) with (length p2 + 2)%nat by (rewrite Hc; cbn; lia).
  rewrite (evict_skip_dirty 2 c [e] p2) by (done || lia).
  rewrite (evict_step_clean 1 c [] e p2) by (done || lia). cbn. eauto.
Qed.

End LRU.

(** ** Properties *)

(** The operations other threads and the file system can interleave; the set of
    dirty elements and the clock may be different at every call. *)
Inductive lru_step {K D} `{Countable K} (getKey : D → K) : LRUcache K D → LRUcache K D → Prop :=
| step_get dirty k now r c c' : get dirty k now c = Ret r c' → lru_step getKey c c'
| step_add dirty k d now r c c' :
    getKey d = k → add getKey dirty k d now c = Ret r c' → lru_step getKey c c'
| step_block k r c c' : block k c = Ret r c' → lru_step getKey c c'
| step_revalidate k now c c' : revalidate k now c = Ret tt c' → lru_step getKey c c'
| step_invalidate k c c' : invalidate k c = Ret tt c' → lru_step getKey c c'.

Lemma reachable_wf_ {K D} `{Countable K} (getKey : D → K) x y c :
  steps (lru_step getKey) (LRU_new x y) c → wf getKey c.
Proof.
  apply steps_invariant; [|apply wf_new]. clear c. intros c c' Hwf Hs. destruct Hs as [| dirty k d now r c c' Hk Ha| | |].
  - by eapply wf_get.
  - destruct r; [by eapply wf_add|]. unfold add in Ha.
    destruct (lookup_ c !! k) as [id|].
    + destruct (find_node id (cache c)) as [e|]; [|done]. destruct (expired _ _ _ _); [|by simplify_eq].
      apply mbind_Ret_inv in Ha as (? & ? & _ & (? & ? & _ & (? & ? & _ & ?)%mbind_Ret_inv)%mbind_Ret_inv). done.
    + apply mbind_Ret_inv in Ha as (? & ? & _ & (? & ? & _ & ?)%mbind_Ret_inv). done.
  - unfold block in *. case_match; simplify_eq; [done|by apply wf_set_blocked].
  - by eapply wf_revalidate.
  - by eapply wf_invalidate.
Qed.

(** In every cache reachable from an empty one by any sequence of
    operations, hash table and list agree: each key's iterator is the list node
    holding that key, node identities are distinct, no iterator dangles. *)
Theorem lru_reachable_wf {K D} `{Countable K} (getKey : D → K) x y c :
  steps (lru_step getKey) (LRU_new x y) c → wf getKey c.
Proof. apply reachable_wf_. Qed.

(** C32: [get] on a well-formed cache always returns. A hit is the stored data
    and becomes the most recently used element, nothing else changing; a miss
    leaves the key absent; dirty data, and all data when expiration is disabled,
    are never expired. *)
Theorem lru_get_correct {K D} `{Countable K} (getKey : D → K) dirty c k now :
  wf getKey c → k ∉ blocked_keys c →
  ∃ r c', get dirty k now c = Ret r c' ∧ wf getKey c' ∧
    (∀ d, r = Some d → peek c k = Some d ∧ ∃ e rest, cache c' = e :: rest ∧ ce_data e = d ∧ cache c ≡ₚ e :: rest) ∧
    (r = None → peek c' k = None) ∧
    (∀ d, peek c k = Some d → dirty d = true ∨ expiration_time c = 0 → r = Some d) ∧
    (∀ k', k' ≠ k → peek c' k' = peek c k').
Proof. apply get_correct_. Qed.

(** Adding to a full cache evicts exactly one element: the least recently
    used one that is not dirty. *)
Theorem lru_add_evicts_lru {K D} `{Countable K} (getKey : D → K) dirty c k d now p1 e p2 :
  wf getKey c → lookup_ c !! k = None → getKey d = k →
  cache c = p1 ++ e :: p2 → p1 ≠ [] → Z.of_nat (length (cache c)) = capacity c →
  dirty (ce_data e) = false → Forall (λ e, dirty (ce_data e) = true) p2 →
  ∃ c', add getKey dirty k d now c = Ret true c' ∧ wf getKey c' ∧
    cache c' = mk_cache_entry (next_id c) d now :: p1 ++ p2 ∧
    lookup_ c' !! getKey (ce_data e) = None.
Proof. apply add_evicts_lru_. Qed.

(** When the only clean element of a full cache is the most recently used
    one, [add] removes it and then steps a reverse iterator back past [rend()],
    which is undefined. *)
Theorem lru_add_front_undefined {K D} `{Countable K} (getKey : D → K) dirty c k d now e p2 :
  wf getKey c → lookup_ c !! k = None → cache c = e :: p2 → Z.of_nat (length (cache c)) = capacity c →
  dirty (ce_data e) = false → Forall (λ e, dirty (ce_data e) = true) p2 →
  ∃ c', add getKey dirty k d now c = Undef c'.
Proof. apply add_front_undefined_. Qed.

(** *** Witnesses: a cache of natural numbers keyed by themselves *)

Definition demo_cache (cap : Z) : LRUcache nat nat :=
  mk_LRUcache [mk_cache_entry 1 20 5; mk_cache_entry 0 10 0]%nat {[10 := 0; 20 := 1]}%nat ∅ 2 0 cap.

Lemma demo_cache_reachable : steps (lru_step id) (LRU_new 0 2) (demo_cache 2).
Proof.
  eapply steps_step; [eapply steps_step; [apply steps_refl|]|].
  - by apply (step_add id (λ _, false) 10%nat 10%nat 0 true).
  - apply (step_add id (λ _, false) 20%nat 20%nat 5 true); [done|]. vm_compute. reflexivity.
Qed.

Lemma demo_cache_wf : wf id (demo_cache 2).
Proof. exact (reachable_wf_ id 0 2 _ demo_cache_reachable). Qed.

Lemma lru_reachable_wf_witness : wf id (demo_cache 2).
Proof. apply (lru_reachable_wf id 0 2). apply demo_cache_reachable. Defined.

Lemma lru_get_correct_witness :
  ∃ r c', get (λ _, false) 10%nat 7 (demo_cache 2) = Ret r c' ∧ r = Some 10%nat.
Proof.
  destruct (lru_get_correct id (λ _, false) (demo_cache 2) 10%nat 7 demo_cache_wf)
    as (r & c' & Hg & _ & _ & _ & Hr & _); [set_solver|].
  exists r, c'. split; [exact Hg|]. apply Hr; [vm_compute; reflexivity|by right].
Defined.

(** Nothing is dirty: the oldest element 10 goes. *)
Lemma lru_add_evicts_lru_witness :
  ∃ c', add id (λ _, false) 30%nat 30%nat 9 (demo_cache 2) = Ret true c' ∧
    cache c' = [mk_cache_entry 2 30 9; mk_cache_entry 1 20 5]%nat.
Proof.
  destruct (lru_add_evicts_lru id (λ _, false) (demo_cache 2) 30%nat 30%nat 9
    [mk_cache_entry 1 20 5]%nat (mk_cache_entry 0 10 0)%nat []) as (c' & Ha & _ & Hc & _).
  1: apply demo_cache_wf.
  1-4: done.
  1-2: reflexivity.
  1: by constructor.
  exists c'. split; [exact Ha|exact Hc].
Defined.

Lemma lru_add_front_undefined_witness :
  ∃ c', add id (λ d, Nat.eqb d 10) 30%nat 30%nat 9 (demo_cache 2) = Undef c'.
Proof.
  apply (lru_add_front_undefined id (λ d, Nat.eqb d 10) (demo_cache 2) 30%nat 30%nat 9
    (mk_cache_entry 1 20 5)%nat [mk_cache_entry 0 10 0]%nat).
  1: apply demo_cache_wf.
  1-4: reflexivity.
  by repeat constructor.
Defined.
