(* ===== verification/DataInfo.v ===== *)
(** * DataInfo: a data block with its pending changes
    (src/data_info.h, src/data_info.cc) *)
From S2P Require Import Prelude CppString.

Record DataInfo := mk_DataInfo {
  di_key : cstr;
  di_keyVersion : cstr;
  di_d : cstr;
  di_updates : list (Z * Z);
}.

Definition block_limit : Z := 1024 * 1024.

Definition DataInfo_new (key keyVersion data : cstr) : DataInfo := mk_DataInfo key keyVersion data [].

Definition set_d (d : cstr) (di : DataInfo) : DataInfo :=
  mk_DataInfo (di_key di) (di_keyVersion di) d (di_updates di).

Definition push_update (u : Z * Z) (di : DataInfo) : DataInfo :=
  mk_DataInfo (di_key di) (di_keyVersion di) (di_d di) (di_updates di ++ [u]).

(** [updateData(data, offset, size)]: [offset] is a signed [off_t], the sums are
    [size_t]; [data] is the buffer of the caller. An exception of
    [string::replace] is caught and reported as [-EINVAL]. *)
Definition updateData (data : cstr) (offset size : Z) : M DataInfo Z := λ di,
  (assert_ (wrap64 (offset + size) <=? block_limit) ;;;
   let! di := get_ in
   let d := resize_ (di_d di) (Z.max (wrap64 (offset + size)) (size_ (di_d di))) in
   put_ (set_d d di) ;;;
   match replace d (wrap64 offset) size (take (Z.to_nat size) data) with
   | None => mret_ (- EINVAL)
   | Some d => modify_ (set_d d) ;;; modify_ (push_update (offset, size)) ;;; mret_ 0
   end) di.

(** [truncate(offset)]; a negative offset makes [resize] throw. *)
Definition truncate (offset : Z) : M DataInfo unit := λ di,
  (assert_ (offset <=? block_limit) ;;;
   if offset <? 0 then throw_
   else modify_ (λ di, set_d (resize_ (di_d di) offset) di) ;;; modify_ (push_update (offset, 0))) di.

Definition hasUpdates (di : DataInfo) : bool := match di_updates di with [] => false | _ => true end.

Definition forgetUpdates (di : DataInfo) : DataInfo :=
  mk_DataInfo (di_key di) (di_keyVersion di) (di_d di) [].

Definition di_setKeyVersion (v : cstr) (di : DataInfo) : DataInfo :=
  mk_DataInfo (di_key di) v (di_d di) (di_updates di).

(** One iteration of the loop of [mergeDataChanges]; [None] is the
    [std::out_of_range] of [fresh.replace(first, second, d, first, second)]. *)
Definition merge_update (d fresh : cstr) (u : Z * Z) : option cstr :=
  let '(first, second) := u in
  if second =? 0 then Some (resize_ fresh first)
  else if size_ d <? first then None
  else replace fresh first second (substr d first second).

Fixpoint merge_updates (d fresh : cstr) (us : list (Z * Z)) : option cstr :=
  match us with
  | [] => Some fresh
  | u :: us => fresh ← merge_update d fresh u; merge_updates d fresh us
  end.

Definition mergeDataChanges (fresh : cstr) : M DataInfo unit := λ di,
  let fresh := resize_ fresh (Z.max (size_ fresh) (size_ (di_d di))) in
  match merge_updates (di_d di) fresh (di_updates di) with
  | None => Throw di
  | Some fresh => (assert_ (size_ fresh <=? block_limit) ;;; modify_ (set_d fresh)) di
  end.

(** ** Bytes of a block: positions past the end read as NUL. *)

Definition byte_at (s : cstr) (i : nat) : ascii := default Ascii.zero (s !! i).

Lemma byte_ext s t : size_ s = size_ t → (∀ i, byte_at s i = byte_at t i) → s = t.
Proof.
  unfold size_, byte_at. intros Hlen Hb. apply list_eq_same_length with (n := length s); [lia|lia|].
  intros i x y Hi Hx Hy. specialize (Hb i). rewrite Hx, Hy in Hb. done.
Qed.

Lemma size_resize s n : 0 <= n → size_ (resize_ s n) = n.
Proof. intros. unfold size_, resize_. rewrite length_app, length_take, length_replicate. lia. Qed.

Lemma byte_at_resize s n i : 0 <= n →
  byte_at (resize_ s n) i = if decide (Z.of_nat i < n) then byte_at s i else Ascii.zero.
Proof.
  intros Hn. unfold byte_at, resize_. case_decide as Hi.
  - destruct (decide (i < length s)%nat).
    + rewrite lookup_app_l by (rewrite length_take; lia). by rewrite lookup_take_lt by lia.
    + rewrite lookup_app_r by (rewrite length_take; lia). rewrite lookup_replicate_2 by (rewrite length_take; lia).
      by rewrite lookup_ge_None_2 by lia.
  - rewrite lookup_ge_None_2; [done|]. rewrite length_app, length_take, length_replicate. lia.
Qed.

(** Replacing a range by as many bytes. *)
Lemma replace_in_range s pos t :
  0 <= pos → pos + size_ t <= size_ s →
  ∃ r, replace s pos (size_ t) t = Some r ∧ size_ r = size_ s ∧
    ∀ i, byte_at r i = if decide (pos <= Z.of_nat i < pos + size_ t)
                       then byte_at t (i - Z.to_nat pos) else byte_at s i.
Proof.
  intros Hp Hs. unfold replace. pose proof (size_nonneg t).
  destruct (Z.ltb_spec (size_ s) pos); [lia|]. eexists. split; [done|].
  rewrite Z.min_l by lia. unfold size_ in *. split.
  - rewrite !length_app, length_take, length_drop. lia.
  - intros i. unfold byte_at. f_equal. destruct (decide (Z.of_nat i < pos)) as [Hi|Hi].
    + rewrite lookup_app_l by (rewrite length_take; lia). rewrite lookup_take_lt by lia.
      by rewrite decide_False by lia.
    + rewrite lookup_app_r by (rewrite length_take; lia). rewrite length_take.
      replace (Z.to_nat pos `min` length s)%nat with (Z.to_nat pos) by lia.
      case_decide as Hc.
      * by rewrite lookup_app_l by lia.
      * rewrite lookup_app_r by lia. rewrite lookup_drop. f_equal; f_equal; lia.
Qed.

Lemma substr_in_range s pos n :
  0 <= pos → 0 <= n → pos + n <= size_ s →
  size_ (substr s pos n) = n ∧ ∀ i, Z.of_nat i < n → byte_at (substr s pos n) i = byte_at s (Z.to_nat pos + i).
Proof.
  intros Hp Hn Hs. unfold substr. destruct (Z.leb_spec (size_ s) pos).
  - assert (n = 0) as -> by lia. split; [done|]. intros; lia.
  - rewrite Z.min_l by lia. unfold size_ in *. split.
    + rewrite length_take, length_drop. lia.
    + intros i Hi. unfold byte_at. rewrite lookup_take_lt by lia. by rewrite lookup_drop.
Qed.

(** ** The record of writes *)

(** A pending write with its range inside the block. *)
Definition write_ok (di : DataInfo) (u : Z * Z) : Prop :=
  0 <= u.1 ∧ 0 < u.2 ∧ u.1 + u.2 <= size_ (di_d di).

Definition writes_ok (di : DataInfo) : Prop :=
  Forall (write_ok di) (di_updates di) ∧ size_ (di_d di) <= block_limit.

Definition covered (us : list (Z * Z)) (i : nat) : bool :=
  existsb (λ u : Z * Z, (u.1 <=? Z.of_nat i) && (Z.of_nat i <? u.1 + u.2)) us.

Lemma covered_cons a b us i :
  covered ((a, b) :: us) i = ((a <=? Z.of_nat i) && (Z.of_nat i <? a + b) || covered us i).
Proof. done. Qed.

(** [updateData] with its arguments in range. *)
Lemma updateData_run data offset size di :
  0 <= offset → 0 <= size → offset + size <= block_limit → size_ data = size →
  ∃ d', updateData data offset size di = Ret 0 (push_update (offset, size) (set_d d' di)) ∧
    size_ d' = Z.max (offset + size) (size_ (di_d di)) ∧
    ∀ i, byte_at d' i = if decide (offset <= Z.of_nat i < offset + size)
                        then byte_at data (i - Z.to_nat offset) else byte_at (di_d di) i.
Proof.
  intros Ho Hs Hl Hd. unfold block_limit in Hl. unfold updateData. msimpl.
  rewrite !wrap64_id by (unfold u64_mod; lia). unfold block_limit.
  destruct (Z.leb_spec (offset + size) (1024 * 1024)); [|lia].
  set (m := Z.max (offset + size) (size_ (di_d di))).
  assert (Hm : size_ (resize_ (di_d di) m) = m) by (apply size_resize; pose proof (size_nonneg (di_d di)); lia).
  rewrite take_ge by (unfold size_ in Hd; lia). rewrite <- Hd.
  destruct (replace_in_range (resize_ (di_d di) m) offset data) as (r & -> & Hr1 & Hr2); [done|lia|].
  exists r. rewrite Hd. split; [done|]. split; [lia|]. intros i. rewrite Hr2, Hd.
  case_decide; [done|]. rewrite byte_at_resize by (pose proof (size_nonneg (di_d di)); lia).
  case_decide; [done|]. unfold byte_at. rewrite lookup_ge_None_2; [done|]. unfold size_ in *. lia.
Qed.

Lemma writes_ok_update offset size di d' :
  writes_ok di → 0 <= offset → 0 < size → offset + size <= block_limit →
  size_ d' = Z.max (offset + size) (size_ (di_d di)) →
  writes_ok (push_update (offset, size) (set_d d' di)).
Proof.
  intros [Hu Hl] Ho Hs Hlim Hd. split; cbn; [|lia]. apply Forall_app. split.
  - eapply Forall_impl; [exact Hu|]. unfold write_ok. cbn. intros [a b]. cbn. lia.
  - constructor; [|constructor]. unfold write_ok. cbn. lia.
Qed.

Lemma merge_updates_spec d us fresh :
  Forall (λ u, 0 <= u.1 ∧ 0 < u.2 ∧ u.1 + u.2 <= size_ d) us → size_ d <= size_ fresh →
  ∃ r, merge_updates d fresh us = Some r ∧ size_ r = size_ fresh ∧
    ∀ i, byte_at r i = if covered us i then byte_at d i else byte_at fresh i.
Proof.
  revert fresh. induction us as [|[a b] us IH]; intros fresh Hu Hs.
  { exists fresh. done. }
  apply Forall_cons in Hu as [(Ha & Hb & Hab) Hu]. cbn [fst snd] in *.
  cbn [merge_updates merge_update].
  destruct (Z.eqb_spec b 0); [lia|]. destruct (Z.ltb_spec (size_ d) a); [lia|].
  destruct (substr_in_range d a b) as [Hz Hsub]; [lia..|].
  destruct (replace_in_range fresh a (substr d a b)) as (r & Hr & Hr1 & Hr2); [lia..|].
  rewrite Hz in Hr, Hr2. rewrite Hr. cbn -[covered merge_updates].
  destruct (IH r) as (r' & -> & Hr1' & Hr2'); [done|lia|]. exists r'. split; [done|]. split; [lia|].
  intros i. rewrite Hr2', Hr2.
  rewrite covered_cons.
  destruct (covered us i); [by rewrite orb_true_r|]. rewrite orb_false_r.
  case_decide.
  - replace ((a <=? Z.of_nat i) && (Z.of_nat i <? a + b)) with true by lia.
    rewrite Hsub by lia. f_equal. lia.
  - by replace ((a <=? Z.of_nat i) && (Z.of_nat i <? a + b)) with false by lia.
Qed.

(** [mergeDataChanges] with every pending write inside the block. *)
Lemma mergeDataChanges_run fresh di :
  writes_ok di → size_ fresh <= block_limit →
  ∃ di', mergeDataChanges fresh di = Ret tt di' ∧ writes_ok di' ∧ di_updates di' = di_updates di ∧
    size_ (di_d di') = Z.max (size_ fresh) (size_ (di_d di)) ∧
    ∀ i, byte_at (di_d di') i = if covered (di_updates di) i then byte_at (di_d di) i else byte_at fresh i.
Proof.
  intros [Hu Hl] Hf. unfold mergeDataChanges. pose proof (size_nonneg fresh).
  set (m := Z.max (size_ fresh) (size_ (di_d di))).
  assert (Hm : size_ (resize_ fresh m) = m) by (apply size_resize; lia).
  destruct (merge_updates_spec (di_d di) (di_updates di) (resize_ fresh m)) as (r & -> & Hr1 & Hr2); [done|lia|].
  msimpl. destruct (Z.leb_spec (size_ r) block_limit); [|lia]. eexists. split; [done|].
  cbn. split; [|split; [done|split; [lia|]]].
  - split; [|cbn; lia]. eapply Forall_impl; [exact Hu|]. unfold write_ok. cbn. lia.
  - intros i. rewrite Hr2. case_match; [done|]. rewrite byte_at_resize by lia. case_decide; [done|].
    unfold byte_at. rewrite lookup_ge_None_2; [done|]. unfold size_ in *. lia.
Qed.

Lemma mergeDataChanges_key fresh di di' : mergeDataChanges fresh di = Ret tt di' → di_key di' = di_key di.
Proof.
  unfold mergeDataChanges. destruct (merge_updates _ _ _); [|done]. unfold mbind_, assert_, modify_.
  destruct (_ <=? _); [|done]. by intros [= <-].
Qed.

(** ** Properties *)

(** [updateData] writes exactly its range: the block grows to cover it, the
    bytes of the range are the caller's, all others keep their value, a gap before
    the range reads as NUL, and the range is recorded. *)
Theorem updateData_writes_range data offset size di :
  0 <= offset → 0 < size → offset + size <= block_limit → size_ data = size → writes_ok di →
  ∃ di', updateData data offset size di = Ret 0 di' ∧ writes_ok di' ∧
    di_updates di' = di_updates di ++ [(offset, size)] ∧
    size_ (di_d di') = Z.max (offset + size) (size_ (di_d di)) ∧
    ∀ i, byte_at (di_d di') i = if decide (offset <= Z.of_nat i < offset + size)
                                then byte_at data (i - Z.to_nat offset) else byte_at (di_d di) i.
Proof.
  intros Ho Hs Hl Hd Hok. destruct (updateData_run data offset size di) as (d' & -> & H1 & H2); [lia..|].
  eexists. split; [done|]. split; [by eapply writes_ok_update|]. done.
Qed.

Lemma updateData_writes_range_witness :
  ∃ di', updateData (lit "xy") 3 2 (DataInfo_new (lit "7_0") [] (lit "a")) = Ret 0 di' ∧ size_ (di_d di') = 5.
Proof.
  destruct (updateData_writes_range (lit "xy") 3 2 (DataInfo_new (lit "7_0") [] (lit "a")))
    as (di' & H1 & _ & _ & H2 & _).
  1-3: unfold block_limit; lia.
  1: reflexivity.
  1: split; [constructor|vm_compute; discriminate].
  exists di'. split; [exact H1|exact H2].
Defined.

(** Merging with a block that another client has written ([fresh]) keeps
    both sides' changes: the result is at least as long as either block, every
    byte of a pending write has this client's value and every other byte the
    other client's. *)
Theorem mergeDataChanges_incremental fresh di :
  writes_ok di → size_ fresh <= block_limit →
  ∃ di', mergeDataChanges fresh di = Ret tt di' ∧ writes_ok di' ∧ di_updates di' = di_updates di ∧
    size_ (di_d di') = Z.max (size_ fresh) (size_ (di_d di)) ∧
    ∀ i, byte_at (di_d di') i = if covered (di_updates di) i then byte_at (di_d di) i else byte_at fresh i.
Proof. apply mergeDataChanges_run. Qed.

Lemma mergeDataChanges_incremental_witness :
  ∃ di di', updateData (lit "xy") 1 2 (DataInfo_new (lit "7_0") [] (lit "abcd")) = Ret 0 di ∧
    mergeDataChanges (lit "ABCDEF") di = Ret tt di' ∧ di_d di' = lit "AxyDEF".
Proof.
  destruct (mergeDataChanges_incremental (lit "ABCDEF") (mk_DataInfo (lit "7_0") [] (lit "axyd") [(1, 2)]))
    as (di' & H1 & _).
  1: split; [by repeat constructor|vm_compute; discriminate].
  1: vm_compute; discriminate.
  eexists _, di'. split; [vm_compute; reflexivity|]. split; [exact H1|].
  vm_compute in H1. injection H1 as <-. vm_compute. reflexivity.
Defined.

(** A write of zero bytes is recorded with length 0, which
    [mergeDataChanges] reads as a truncation: an empty write at offset 0
    discards the block another client has written meanwhile. *)
Theorem empty_write_truncates_on_merge :
  ∃ di di', updateData [] 0 0 (DataInfo_new (lit "7_0") [] (lit "abc")) = Ret 0 di ∧
    di_d di = lit "abc" ∧
    mergeDataChanges (lit "ABCDEF") di = Ret tt di' ∧ di_d di' = [].
Proof.
  exists (mk_DataInfo (lit "7_0") [] (lit "abc") [(0, 0)]), (mk_DataInfo (lit "7_0") [] [] [(0, 0)]).
  repeat split; vm_compute; reflexivity.
Qed.

(** A write past the end of a block after a truncation that has not been
    flushed cannot be merged: [string::replace] throws [std::out_of_range]. *)
Theorem write_after_truncate_merge_throws :
  ∃ di, (truncate 2 ;;; updateData (lit "xy") 6 2) (DataInfo_new (lit "7_0") [] (lit "abcdef")) = Ret 0 di ∧
    mergeDataChanges (lit "ABCDEF") di = Throw di.
Proof.
  exists (mk_DataInfo (lit "7_0") [] (lit "ab" ++ replicate 4 Ascii.zero ++ lit "xy") [(2, 0); (6, 2)]).
  split; vm_compute; reflexivity.
Qed.
