(* ===== verification/MetadataInfo.v ===== *)
(** * MetadataInfo: inode metadata in memory
    (src/metadata_info.h, src/metadata_info.cc), and the permission data stored
    with it: [inherit_path_permissions] (src/fuseops/file.cc),
    [check_path_permissions] (src/lookup.cc), [check_access]
    (src/fuseops/permission.cc). *)
From S2P Require Import Prelude CppString Proto.

(** A [shared_ptr] is a location of the heap of {!FsState}. *)
Abbreviation loc := nat.

Record MetadataInfo := mk_MetadataInfo {
  systemPath : cstr;
  keyVersion : cstr;
  md : Metadata;
  dirty_data : option loc;
}.

(** The identity of the caller, [fuse_get_context()]. *)
Record fuse_context := mk_fuse_context { fc_uid : Z; fc_gid : Z }.

Definition MetadataInfo_new (key : cstr) : MetadataInfo := mk_MetadataInfo key (lit "0") default_Metadata None.

Definition setMD (m : Metadata) (vc : cstr) (mdi : MetadataInfo) : MetadataInfo :=
  mk_MetadataInfo (systemPath mdi) vc m (dirty_data mdi).
Definition setKeyVersion (vc : cstr) (mdi : MetadataInfo) : MetadataInfo :=
  mk_MetadataInfo (systemPath mdi) vc (md mdi) (dirty_data mdi).
Definition setSystemPath (p : cstr) (mdi : MetadataInfo) : MetadataInfo :=
  mk_MetadataInfo p (keyVersion mdi) (md mdi) (dirty_data mdi).

(** Apply a change to the message [getMD()] refers to. *)
Definition on_md (f : Metadata → Metadata) (mdi : MetadataInfo) : MetadataInfo :=
  mk_MetadataInfo (systemPath mdi) (keyVersion mdi) (f (md mdi)) (dirty_data mdi).

(** ** Setters of the message; [uint32] and [uint64] fields wrap around. *)
Definition set_type t m := mk_Metadata t (md_atime m) (md_mtime m) (md_ctime m) (md_uid m) (md_gid m) (md_mode m) (md_inode_number m) (md_link_count m) (md_size m) (md_blocks m) (md_xattr m) (md_path_permission_verified m) (md_path_permission m) (md_path_permission_children m).
Definition set_times a mt c m := mk_Metadata (md_type m) (wrap32 a) (wrap32 mt) (wrap32 c) (md_uid m) (md_gid m) (md_mode m) (md_inode_number m) (md_link_count m) (md_size m) (md_blocks m) (md_xattr m) (md_path_permission_verified m) (md_path_permission m) (md_path_permission_children m).
Definition set_owner u g m := mk_Metadata (md_type m) (md_atime m) (md_mtime m) (md_ctime m) (wrap32 u) (wrap32 g) (md_mode m) (md_inode_number m) (md_link_count m) (md_size m) (md_blocks m) (md_xattr m) (md_path_permission_verified m) (md_path_permission m) (md_path_permission_children m).
Definition set_mode x m := mk_Metadata (md_type m) (md_atime m) (md_mtime m) (md_ctime m) (md_uid m) (md_gid m) (wrap32 x) (md_inode_number m) (md_link_count m) (md_size m) (md_blocks m) (md_xattr m) (md_path_permission_verified m) (md_path_permission m) (md_path_permission_children m).
Definition set_inode_number x m := mk_Metadata (md_type m) (md_atime m) (md_mtime m) (md_ctime m) (md_uid m) (md_gid m) (md_mode m) (wrap64 x) (md_link_count m) (md_size m) (md_blocks m) (md_xattr m) (md_path_permission_verified m) (md_path_permission m) (md_path_permission_children m).
Definition set_link_count x m := mk_Metadata (md_type m) (md_atime m) (md_mtime m) (md_ctime m) (md_uid m) (md_gid m) (md_mode m) (md_inode_number m) (wrap32 x) (md_size m) (md_blocks m) (md_xattr m) (md_path_permission_verified m) (md_path_permission m) (md_path_permission_children m).
Definition set_size x m := mk_Metadata (md_type m) (md_atime m) (md_mtime m) (md_ctime m) (md_uid m) (md_gid m) (md_mode m) (md_inode_number m) (md_link_count m) (wrap32 x) (md_blocks m) (md_xattr m) (md_path_permission_verified m) (md_path_permission m) (md_path_permission_children m).
Definition set_blocks x m := mk_Metadata (md_type m) (md_atime m) (md_mtime m) (md_ctime m) (md_uid m) (md_gid m) (md_mode m) (md_inode_number m) (md_link_count m) (md_size m) (wrap32 x) (md_xattr m) (md_path_permission_verified m) (md_path_permission m) (md_path_permission_children m).
Definition set_xattr x m := mk_Metadata (md_type m) (md_atime m) (md_mtime m) (md_ctime m) (md_uid m) (md_gid m) (md_mode m) (md_inode_number m) (md_link_count m) (md_size m) (md_blocks m) x (md_path_permission_verified m) (md_path_permission m) (md_path_permission_children m).
Definition set_path_permission_verified x m := mk_Metadata (md_type m) (md_atime m) (md_mtime m) (md_ctime m) (md_uid m) (md_gid m) (md_mode m) (md_inode_number m) (md_link_count m) (md_size m) (md_blocks m) (md_xattr m) x (md_path_permission m) (md_path_permission_children m).
Definition set_path_permission x m := mk_Metadata (md_type m) (md_atime m) (md_mtime m) (md_ctime m) (md_uid m) (md_gid m) (md_mode m) (md_inode_number m) (md_link_count m) (md_size m) (md_blocks m) (md_xattr m) (md_path_permission_verified m) x (md_path_permission_children m).
Definition set_path_permission_children x m := mk_Metadata (md_type m) (md_atime m) (md_mtime m) (md_ctime m) (md_uid m) (md_gid m) (md_mode m) (md_inode_number m) (md_link_count m) (md_size m) (md_blocks m) (md_xattr m) (md_path_permission_verified m) (md_path_permission m) x.

(** ** Convenience functions of the class; [now] is [std::time]. *)
Definition updateACMtime (now : Z) (m : Metadata) : Metadata := set_times now now now m.
Definition updateACtime (now : Z) (m : Metadata) : Metadata := set_times now (md_mtime m) now m.

(** [setDirtyData]; [has_updates] is [dirty_data->hasUpdates()]. *)
Definition setDirtyData (has_updates : loc → bool) (di : option loc) (mdi : MetadataInfo) : bool * MetadataInfo :=
  if bool_decide (dirty_data mdi = di) then (true, mdi)
  else match dirty_data mdi with
       | Some l => if has_updates l then (false, mdi)
                   else (true, mk_MetadataInfo (systemPath mdi) (keyVersion mdi) (md mdi) di)
       | None => (true, mk_MetadataInfo (systemPath mdi) (keyVersion mdi) (md mdi) di)
       end.

(** ** Mode bits *)
Definition S_IXUSR : Z := 64.
Definition S_IXGRP : Z := 8.
Definition S_IXOTH : Z := 1.
Definition S_IFMT : Z := 61440.
Definition S_IFDIR : Z := 16384.
Definition S_IFREG : Z := 32768.
Definition S_IFLNK : Z := 40960.
Definition S_ISUID : Z := 2048.
Definition S_ISGID : Z := 1024.
Definition S_ISVTX : Z := 512.
Definition has_bit (mode bit : Z) : bool := negb (Z.land mode bit =? 0).
Definition S_ISDIR (mode : Z) : bool := Z.land mode S_IFMT =? S_IFDIR.
Definition S_ISREG (mode : Z) : bool := Z.land mode S_IFMT =? S_IFREG.
Definition S_ISLNK (mode : Z) : bool := Z.land mode S_IFMT =? S_IFLNK.

(** ** Path permissions of a directory's children *)

(** The vector [v] computed from the execute bits. *)
Definition reachability_entries (m : Metadata) : list ReachabilityEntry :=
  let user := has_bit (md_mode m) S_IXUSR in
  let group := has_bit (md_mode m) S_IXGRP in
  let other := has_bit (md_mode m) S_IXOTH in
  let entry t := mk_ReachabilityEntry t (md_gid m) (md_uid m) in
  (if negb other then
     (if user && group then [entry UID_OR_GID] else []) ++
     (if user && negb group then [entry UID] else []) ++
     (if negb user && group then [entry GID] else [])
   else []) ++
  (if negb user then [entry NOT_UID] else []) ++
  (if negb group then
     (if negb user then [entry NOT_GID] else []) ++
     (if user && other then [entry GID_REQ_UID] else [])
   else []).

Definition equal (lhs rhs : ReachabilityEntry) : bool :=
  (re_uid lhs =? re_uid rhs) && (re_gid lhs =? re_gid rhs) && bool_decide (re_type lhs = re_type rhs).

(** [computePathPermissionChildren]. In the duplicate-removal loops
    [v.erase(it)] invalidates [it], and the loop goes on with [it++]: reaching
    the erase is undefined behaviour. *)
Definition computePathPermissionChildren : M Metadata bool := λ m,
  let v := reachability_entries m in
  (assert_ (Nat.leb (length v) 2) ;;;
   (if existsb (λ p, existsb (equal p) v) (md_path_permission m) then undef_ else mret_ tt) ;;;
   let changed := negb (Nat.eqb (length (md_path_permission_children m)) (length v))
                  || existsb (λ e, negb (existsb (λ c, equal c e) (md_path_permission_children m))) v in
   (if changed then modify_ (set_path_permission_children v) else mret_ tt) ;;;
   mret_ changed) m.

(** [inherit_path_permissions(mdi, mdi_parent)] on the two messages. *)
Definition inherit_path_permissions (parent : Metadata) : M Metadata unit :=
  modify_ (set_path_permission (md_path_permission parent)) ;;;
  modify_ (set_path_permission_verified (md_path_permission_verified parent)) ;;;
  modify_ (λ m, set_path_permission (md_path_permission m ++ md_path_permission_children parent) m) ;;;
  let! m := get_ in
  if S_ISDIR (md_mode m) then computePathPermissionChildren ;;; mret_ tt else mret_ tt.

(** The check of one entry in [check_path_permissions]. *)
Definition entry_allows (ctx : fuse_context) (e : ReachabilityEntry) : bool :=
  let uid_eq := fc_uid ctx =? re_uid e in
  let gid_eq := fc_gid ctx =? re_gid e in
  match re_type e with
  | UID => uid_eq
  | GID => gid_eq
  | UID_OR_GID => uid_eq || gid_eq
  | NOT_GID => negb gid_eq
  | NOT_UID => negb uid_eq
  | GID_REQ_UID => negb gid_eq || uid_eq
  end.

Fixpoint check_path_permissions (ctx : fuse_context) (pp : list ReachabilityEntry) : Z :=
  match pp with
  | [] => 0
  | e :: pp => if entry_allows ctx e then check_path_permissions ctx pp else - EACCES
  end.

(** [check_access(mdi, mode)]; [mode & md.mode() >> 6] parses as
    [mode & (md.mode() >> 6)]. *)
Definition F_OK : Z := 0.
Definition X_OK : Z := 1.
Definition W_OK : Z := 2.
Definition R_OK : Z := 4.

Definition check_access (ctx : fuse_context) (m : Metadata) (mode : Z) : Z :=
  if fc_uid ctx =? 0 then 0
  else if mode =? F_OK then 0
  else if md_uid m =? fc_uid ctx then
    (if Z.land mode (Z.shiftr (md_mode m) 6) =? mode then 0 else - EACCES)
  else if md_gid m =? fc_gid ctx then
    (if Z.land mode (Z.shiftr (md_mode m) 3) =? mode then 0 else - EACCES)
  else if Z.land mode (md_mode m) =? mode then 0
  else - EACCES.
