(* ===== verification/Permission.v ===== *)
(** * Theorems on permissions

    The permission entries stored with an inode express the POSIX search
    permission of every directory of its path. *)
From S2P Require Import Prelude CppString Proto MetadataInfo.

(** ** The specification: POSIX permission classes *)

Definition class_bits (ctx : fuse_context) (m : Metadata) : Z :=
  if fc_uid ctx =? md_uid m then Z.land (Z.shiftr (md_mode m) 6) 7
  else if fc_gid ctx =? md_gid m then Z.land (Z.shiftr (md_mode m) 3) 7
  else Z.land (md_mode m) 7.

(** Search (execute) permission on a directory. *)
Definition may_search (ctx : fuse_context) (m : Metadata) : bool := has_bit (class_bits ctx m) X_OK.

(** Some class may search the directory. *)
Definition searchable (m : Metadata) : bool :=
  has_bit (md_mode m) S_IXUSR || has_bit (md_mode m) S_IXGRP || has_bit (md_mode m) S_IXOTH.

(** Whom the entries of a directory let in: whoever may search it; but if no class
    may, everybody except the owner and the members of the group. *)
Definition admits (ctx : fuse_context) (m : Metadata) : bool :=
  if searchable m then may_search ctx m else negb (fc_uid ctx =? md_uid m) && negb (fc_gid ctx =? md_gid m).

Lemma check_pp_forall ctx pp : check_path_permissions ctx pp = 0 ↔ Forall (λ e, entry_allows ctx e = true) pp.
Proof.
  induction pp as [|e pp IH]; cbn; [by split|]. rewrite Forall_cons.
  destruct (entry_allows ctx e); [rewrite IH; tauto|]. unfold EACCES. split; [lia|]. by intros [? _].
Qed.

Lemma check_pp_app ctx p q :
  check_path_permissions ctx (p ++ q) = 0 ↔ check_path_permissions ctx p = 0 ∧ check_path_permissions ctx q = 0.
Proof. by rewrite !check_pp_forall, Forall_app. Qed.

Lemma check_pp_codes ctx pp : check_path_permissions ctx pp = 0 ∨ check_path_permissions ctx pp = - EACCES.
Proof. induction pp as [|e pp IH]; cbn; [by left|]. case_match; [done|by right]. Qed.

Lemma has_bit_land x b k : Z.land b k = k → has_bit (Z.land x b) k = has_bit x k.
Proof. unfold has_bit. intros Hb. by rewrite <- Z.land_assoc, Hb. Qed.

Lemma has_bit_shiftr x n : 0 <= n → has_bit (Z.shiftr x n) 1 = has_bit x (2 ^ n).
Proof.
  intros Hn. unfold has_bit. f_equal. rewrite <- Z.shiftl_1_l.
  replace 1 with (Z.shiftr (Z.shiftl 1 n) n) at 1.
  2:{ rewrite Z.shiftr_shiftl_l, Z.sub_diag by done. done. }
  rewrite <- Z.shiftr_land. apply eq_true_iff_eq. rewrite !Z.eqb_eq.
  split; [|intros ->; apply Z.shiftr_0_l]. intros H0. apply Z.bits_inj'. intros k Hk. rewrite Z.bits_0.
  rewrite Z.land_spec, Z.shiftl_1_l. destruct (Z.eq_dec k n) as [->|Hne].
  - assert (Hb : Z.testbit (Z.shiftr (Z.land x (Z.shiftl 1 n)) n) 0 = false) by (rewrite H0; apply Z.bits_0).
    rewrite Z.shiftr_spec, Z.add_0_l, Z.land_spec, Z.shiftl_1_l in Hb by lia. done.
  - rewrite Z.pow2_bits_false by done. apply andb_false_r.
Qed.

(** The execute bit of the caller's class, by class. *)
Lemma may_search_cases ctx m :
  may_search ctx m =
    if fc_uid ctx =? md_uid m then has_bit (md_mode m) S_IXUSR
    else if fc_gid ctx =? md_gid m then has_bit (md_mode m) S_IXGRP
    else has_bit (md_mode m) S_IXOTH.
Proof.
  unfold may_search, class_bits. repeat case_match; rewrite has_bit_land by done.
  - apply (has_bit_shiftr _ 6). lia.
  - apply (has_bit_shiftr _ 3). lia.
  - done.
Qed.

(** The computed entries say what the execute bits say, unless no class has one. *)
Lemma entries_admit ctx m : check_path_permissions ctx (reachability_entries m) = 0 ↔ admits ctx m = true.
Proof.
  unfold admits. rewrite may_search_cases. unfold searchable, reachability_entries.
  destruct (has_bit (md_mode m) S_IXUSR), (has_bit (md_mode m) S_IXGRP), (has_bit (md_mode m) S_IXOTH);
    cbn -[Z.eqb]; unfold entry_allows; cbn -[Z.eqb];
    destruct (fc_uid ctx =? md_uid m), (fc_gid ctx =? md_gid m); cbn; unfold EACCES; intuition (lia || congruence).
Qed.

Lemma admits_searchable ctx m : searchable m = true → admits ctx m = may_search ctx m.
Proof. unfold admits. by intros ->. Qed.

Lemma forallb_admits_searchable ctx dirs : forallb searchable dirs = true → forallb (admits ctx) dirs = forallb (may_search ctx) dirs.
Proof.
  induction dirs as [|d dirs IH]; [done|]. cbn. intros [Hd Hs]%andb_true_iff. by rewrite admits_searchable, IH.
Qed.

Lemma reachability_NoDup m : NoDup (reachability_entries m).
Proof.
  unfold reachability_entries.
  destruct (has_bit (md_mode m) S_IXUSR), (has_bit (md_mode m) S_IXGRP), (has_bit (md_mode m) S_IXOTH);
    cbn; repeat (constructor; [rewrite ?not_elem_of_cons; repeat split; try (intros ?; discriminate); apply not_elem_of_nil|]); constructor.
Qed.

Lemma reachability_length m : Nat.leb (length (reachability_entries m)) 2 = true.
Proof.
  unfold reachability_entries.
  by destruct (has_bit (md_mode m) S_IXUSR), (has_bit (md_mode m) S_IXGRP), (has_bit (md_mode m) S_IXOTH).
Qed.

Lemma equal_eq a b : equal a b = true ↔ a = b.
Proof.
  unfold equal. rewrite !andb_true_iff, !Z.eqb_eq, bool_decide_eq_true.
  destruct a, b; cbn. split; [intros [[-> ->] ->]; done|intros; by simplify_eq].
Qed.

Lemma existsb_equal l e : existsb (λ c, equal c e) l = true ↔ e ∈ l.
Proof.
  rewrite existsb_exists. setoid_rewrite equal_eq. setoid_rewrite <- list_elem_of_In. split; [intros (x & ? & ->); done|eauto].
Qed.

(** Whether the result is stored or found unchanged, the stored list is a
    permutation of the computed one. *)
Lemma compute_stores m changed m' :
  computePathPermissionChildren m = Ret changed m' →
  md_path_permission_children m' ≡ₚ reachability_entries m ∧
  md_path_permission m' = md_path_permission m ∧ md_mode m' = md_mode m ∧
  md_uid m' = md_uid m ∧ md_gid m' = md_gid m ∧
  md_path_permission_verified m' = md_path_permission_verified m.
Proof.
  unfold computePathPermissionChildren. msimpl. rewrite reachability_length.
  destruct (existsb _ (md_path_permission m)); [done|].
  destruct (negb _ || existsb _ _) eqn:Hch; cbn; intros; simplify_eq; [by cbn|].
  split; [|done]. apply orb_false_iff in Hch as [Hlen Hall].
  apply negb_false_iff, Nat.eqb_eq in Hlen. symmetry.
  apply submseteq_length_Permutation; [|lia].
  apply NoDup_submseteq; [apply reachability_NoDup|]. intros e He.
  apply existsb_equal. destruct (existsb (λ c, equal c e) _) eqn:Hc; [done|]. exfalso.
  rewrite <- not_true_iff_false in Hall. apply Hall. apply existsb_exists. exists e.
  split; [by apply list_elem_of_In|]. by rewrite Hc.
Qed.

Lemma check_pp_perm ctx p q : p ≡ₚ q → check_path_permissions ctx p = 0 ↔ check_path_permissions ctx q = 0.
Proof. intros Hp. rewrite !check_pp_forall. by rewrite Hp. Qed.

Lemma inherit_pp child parent child' :
  inherit_path_permissions parent child = Ret tt child' →
  md_path_permission child' = md_path_permission parent ++ md_path_permission_children parent ∧
  md_mode child' = md_mode child ∧ md_uid child' = md_uid child ∧ md_gid child' = md_gid child ∧
  md_path_permission_verified child' = md_path_permission_verified parent ∧
  (S_ISDIR (md_mode child) = true → md_path_permission_children child' ≡ₚ reachability_entries child).
Proof.
  unfold inherit_path_permissions. msimpl. cbn.
  destruct (S_ISDIR (md_mode child)) eqn:Hdir.
  - destruct (computePathPermissionChildren _) as [ch m1| | | | | |] eqn:Hc; try done. intros; simplify_eq.
    apply compute_stores in Hc as (Hp & H1 & H2 & H3 & H4 & H5).
    rewrite H1, H2, H3, H4, H5. cbn in *. repeat split; try done.
  - intros; simplify_eq. cbn. by repeat split.
Qed.

(** ** Properties *)

(** C39: the permission entries a directory stores for its children express the
    POSIX search permission of the directory, if at least one class has its execute
    bit: for every caller the check of the stored entries succeeds exactly if the
    execute bit of the caller's class is set. For a directory without any execute
    bit, which nobody may search, it fails exactly for the owner and the members of
    the group. *)
Theorem computePathPermissionChildren_posix ctx m changed m' :
  computePathPermissionChildren m = Ret changed m' →
  (check_path_permissions ctx (md_path_permission_children m') = 0 ↔ admits ctx m = true) ∧
  (searchable m = true → check_path_permissions ctx (md_path_permission_children m') = 0 ↔ may_search ctx m = true).
Proof.
  intros (Hp & _)%compute_stores. rewrite (check_pp_perm _ _ _ Hp), entries_admit.
  split; [done|]. intros Hs. by rewrite admits_searchable.
Qed.

Definition md_dir (mode uid gid : Z) : Metadata :=
  set_mode (S_IFDIR + mode) (set_owner uid gid default_Metadata).

Lemma computePathPermissionChildren_posix_witness :
  ∃ m', computePathPermissionChildren (md_dir 448 5 7) = Ret true m' ∧
    (check_path_permissions (mk_fuse_context 5 9) (md_path_permission_children m') = 0 ↔
     may_search (mk_fuse_context 5 9) (md_dir 448 5 7) = true).
Proof.
  eexists. split; [vm_compute; reflexivity|].
  apply (computePathPermissionChildren_posix (mk_fuse_context 5 9) (md_dir 448 5 7) true).
  - vm_compute. reflexivity.
  - vm_compute. reflexivity.
Defined.

(** A path from the root: each directory inherits from the one above it. *)
Inductive inherited : list Metadata → Metadata → Prop :=
| inherited_root r :
    md_path_permission r = [] → S_ISDIR (md_mode r) = true →
    md_path_permission_children r ≡ₚ reachability_entries r → inherited [] r
| inherited_child dirs parent m m' :
    inherited dirs parent → S_ISDIR (md_mode parent) = true →
    inherit_path_permissions parent m = Ret tt m' → inherited (parent :: dirs) m'.

Lemma inherited_children dirs m :
  inherited dirs m → S_ISDIR (md_mode m) = true → md_path_permission_children m ≡ₚ reachability_entries m.
Proof.
  intros Hi Hd. inversion Hi as [|dirs' parent m0 m' _ _ Hinh]; subst; [done|].
  apply inherit_pp in Hinh as (_ & Hm & Hu & Hg & _ & Hc).
  assert (reachability_entries m = reachability_entries m0) as ->.
  { unfold reachability_entries. by rewrite Hm, Hu, Hg. }
  apply Hc. by rewrite <- Hm.
Qed.

(** C24: the path permissions stored with an inode stand for the whole path: for
    every caller the check of the inode's entries, without reading any directory,
    succeeds exactly if every directory above it lets the caller in; and where each
    of these directories has at least one execute bit, that is exactly if the caller
    may search all of them. A directory without execute bits lets in everybody but
    its owner and its group. *)
Theorem path_permissions_enforce_whole_path ctx dirs m : inherited dirs m →
  (check_path_permissions ctx (md_path_permission m) = 0 ↔ forallb (admits ctx) dirs = true) ∧
  (forallb searchable dirs = true →
     check_path_permissions ctx (md_path_permission m) = 0 ↔ forallb (may_search ctx) dirs = true).
Proof.
  intros Hi. assert (Hc : check_path_permissions ctx (md_path_permission m) = 0 ↔ forallb (admits ctx) dirs = true).
  { induction Hi as [r Hr _ _|dirs parent m m' Hi IH Hd Hinh]; cbn; [by rewrite Hr|].
    destruct (inherit_pp _ _ _ Hinh) as (-> & _). rewrite check_pp_app, andb_true_iff, IH.
    rewrite (check_pp_perm _ _ _ (inherited_children _ _ Hi Hd)), entries_admit. tauto. }
  split; [done|]. intros Hs. by rewrite <- (forallb_admits_searchable ctx dirs Hs).
Qed.

Lemma path_permissions_enforce_whole_path_witness :
  ∃ m, inherited [md_dir 511 0 0] m ∧
    (check_path_permissions (mk_fuse_context 5 9) (md_path_permission m) = 0 ↔
     forallb (may_search (mk_fuse_context 5 9)) [md_dir 511 0 0] = true).
Proof.
  assert (Hi : inherited [md_dir 511 0 0] default_Metadata).
  { eapply (inherited_child [] (md_dir 511 0 0) default_Metadata).
    - apply inherited_root; vm_compute; reflexivity.
    - vm_compute. reflexivity.
    - vm_compute. reflexivity. }
  exists default_Metadata. split; [exact Hi|].
  apply path_permissions_enforce_whole_path; [exact Hi|vm_compute; reflexivity].
Defined.

(** [check_access] implements the POSIX access check: root always passes,
    otherwise all requested bits must be granted by the caller's class. *)
Theorem check_access_posix ctx m mode :
  0 <= mode <= 7 →
  check_access ctx m mode =
    if bool_decide (fc_uid ctx = 0) || (Z.land mode (class_bits ctx m) =? mode) then 0 else - EACCES.
Proof.
  intros Hm. unfold check_access, class_bits.
  assert (Hl : ∀ x, Z.land mode (Z.land x 7) = Z.land mode x).
  { intros x. rewrite (Z.land_comm x), Z.land_assoc. f_equal.
    assert (Hc : mode = 0 ∨ mode = 1 ∨ mode = 2 ∨ mode = 3 ∨ mode = 4 ∨ mode = 5 ∨ mode = 6 ∨ mode = 7) by lia.
    by destruct Hc as [->|[->|[->|[->|[->|[->|[->| ->]]]]]]]. }
  rewrite (Z.eqb_sym (md_uid m)), (Z.eqb_sym (md_gid m)).
  destruct (Z.eqb_spec (fc_uid ctx) 0) as [->|Hne]; [by rewrite bool_decide_true|].
  rewrite (bool_decide_false (fc_uid ctx = 0)) by done. cbn [orb].
  destruct (Z.eqb_spec mode F_OK) as [->|Hf]; [by rewrite Z.land_0_l|].
  destruct (fc_uid ctx =? md_uid m), (fc_gid ctx =? md_gid m); by rewrite Hl.
Qed.

Lemma check_access_posix_witness :
  check_access (mk_fuse_context 5 7) (md_dir 488 9 7) W_OK = - EACCES.
Proof.
  rewrite (check_access_posix (mk_fuse_context 5 7) (md_dir 488 9 7) W_OK); [|unfold W_OK; lia].
  vm_compute. reflexivity.
Defined.

(** A directory without any execute bit excludes its owner and its group
    but nobody else: with mode 0 every other user passes the check of the
    entries computed for the children, although POSIX grants nobody search
    permission. *)
Theorem unsearchable_directory_admits_others ctx m changed m' :
  searchable m = false → fc_uid ctx ≠ md_uid m → fc_gid ctx ≠ md_gid m →
  computePathPermissionChildren m = Ret changed m' →
  may_search ctx m = false ∧ check_path_permissions ctx (md_path_permission_children m') = 0.
Proof.
  intros Hs Hu Hg (Hp & _)%compute_stores. rewrite (check_pp_perm _ _ _ Hp).
  unfold searchable in Hs. apply orb_false_iff in Hs as [[Hx Hy]%orb_false_iff Hz].
  rewrite may_search_cases. unfold reachability_entries. rewrite Hx, Hy, Hz. cbn.
  rewrite (proj2 (Z.eqb_neq _ _) Hu), (proj2 (Z.eqb_neq _ _) Hg).
  done.
Qed.

Lemma unsearchable_directory_admits_others_witness :
  may_search (mk_fuse_context 8 8) (md_dir 0 5 7) = false.
Proof.
  refine (proj1 (unsearchable_directory_admits_others (mk_fuse_context 8 8) (md_dir 0 5 7) true _ _ _ _ _));
    [vm_compute; reflexivity|discriminate|discriminate|vm_compute; reflexivity].
Defined.

(** The removal of duplicate entries increments an iterator it has just
    erased: creating a directory with mode 0700 inside one with the same mode,
    owner and group is undefined behaviour. *)
Theorem nested_private_directory_undefined uid gid parent :
  0 <= uid < u32_mod → 0 <= gid < u32_mod →
  md_path_permission_children parent = [mk_ReachabilityEntry UID gid uid] →
  ∃ m, inherit_path_permissions parent (md_dir 448 uid gid) = Undef m.
Proof.
  intros Hu Hg Hp. unfold inherit_path_permissions. msimpl. cbn -[md_dir].
  change (S_ISDIR (md_mode (md_dir 448 uid gid))) with true. cbv iota.
  unfold computePathPermissionChildren. msimpl. cbn -[md_dir existsb equal].
  assert (Hr : reachability_entries (md_dir 448 uid gid) = [mk_ReachabilityEntry UID gid uid]).
  { unfold reachability_entries, md_dir. cbn. unfold wrap32. by rewrite !Z.mod_small. }
  match goal with |- context [reachability_entries ?m] =>
    replace (reachability_entries m) with [mk_ReachabilityEntry UID gid uid] by (symmetry; exact Hr) end.
  rewrite Hp, existsb_app. cbn [existsb length Nat.leb].
  rewrite (proj2 (equal_eq _ _)) by done. rewrite orb_true_r. eauto.
Qed.

Lemma nested_private_directory_undefined_witness :
  ∃ m, inherit_path_permissions
         (set_path_permission_children [mk_ReachabilityEntry UID 7 5] (md_dir 448 5 7)) (md_dir 448 5 7) = Undef m.
Proof.
  apply (nested_private_directory_undefined 5 7); [unfold u32_mod; lia|unfold u32_mod; lia|reflexivity].
Defined.
