(* ===== verification/Kinetic.v ===== *)
(** * The key-value namespace the file system runs on

    The kinetic drives and their client library are not part of the repository.
    A connection to a drive is a parameter: the class {!KineticConnection} has the
    calls the code makes, {!KineticConnectionSpec} the documented behaviour they
    rely on (README_ARCH.md: put and delete are test-and-set on the key version).
    {!KineticNamespace} is the interface of src/namespace/kinetic_namespace.h,
    {!SimpleKineticNamespace} its one-drive implementation
    (src/namespace/simple_kinetic_namespace.cc). The generated protobuf code is
    the class {!Message}. *)
From S2P Require Import Prelude CppString Proto.

(** [kinetic::StatusCode]: the codes the code distinguishes, and any other. *)
Inductive StatusCode :=
| OK | REMOTE_NOT_FOUND | REMOTE_VERSION_MISMATCH | REMOTE_CLUSTER_VERSION_MISMATCH
| REMOTE_NOT_AUTHORIZED | REMOTE_OTHER_ERROR | REMOTE_REMOTE_CONNECTION_ERROR
| OTHER_STATUS (n : Z).

#[export] Instance StatusCode_eq_dec : EqDecision StatusCode.
Proof. solve_decision. Defined.

Definition is_ok (s : StatusCode) : bool := match s with OK => true | _ => false end.

Inductive WriteMode := IGNORE_VERSION | REQUIRE_SAME_VERSION.

(** A record; the tag is always empty and the algorithm always SHA1. *)
Record KineticRecord := mk_KineticRecord { kr_value : cstr; kr_version : cstr }.

#[export] Instance KineticRecord_eq_dec : EqDecision KineticRecord.
Proof. solve_decision. Defined.

Abbreviation store := (gmap (list ascii) KineticRecord).

(** ** The calls on one connection; [W] is the state of the drive and of the
    network in between. *)
Class KineticConnection (W : Type) := {
  con_Get : cstr → W → (StatusCode * option KineticRecord) * W;
  con_Delete : cstr → cstr → WriteMode → W → StatusCode * W;
  con_Put : cstr → cstr → WriteMode → KineticRecord → W → StatusCode * W;
  con_GetVersion : cstr → W → (StatusCode * option cstr) * W;
  con_GetKeyRange : cstr → bool → cstr → bool → bool → Z → W → (StatusCode * list cstr) * W;
  con_NoOp : W → StatusCode * W;
}.

(** ** kinetic_namespace.h *)
Class KineticNamespace (W : Type) := {
  Get : cstr → W → (StatusCode * option KineticRecord) * W;
  Delete : cstr → cstr → WriteMode → W → StatusCode * W;
  Put : cstr → cstr → WriteMode → KineticRecord → W → StatusCode * W;
  GetVersion : cstr → W → (StatusCode * option cstr) * W;
  GetKeyRange : cstr → cstr → Z → W → (StatusCode * list cstr) * W;
  selfCheck : W → bool * W;
}.

(** ** Documented behaviour *)

(** The test of a write: the supplied version is the one stored, or empty for a
    key that does not exist. *)
Definition version_matches (s : store) (k v : cstr) (mode : WriteMode) : Prop :=
  match mode with
  | IGNORE_VERSION => True
  | REQUIRE_SAME_VERSION => v = match s !! k with Some r => kr_version r | None => [] end
  end.

(** Byte-wise order of keys. *)
Fixpoint key_lt (a b : cstr) : bool :=
  match a, b with
  | _, [] => false
  | [], _ :: _ => true
  | x :: a', y :: b' => (Ascii.N_of_ascii x <? Ascii.N_of_ascii y)%N || (bool_decide (x = y) && key_lt a' b')
  end.

Definition key_between (start : cstr) (incl_start : bool) (end_ : cstr) (incl_end : bool) (k : cstr) : bool :=
  (key_lt start k || (incl_start && bool_decide (k = start))) &&
  (key_lt k end_ || (incl_end && bool_decide (k = end_))).

(** What the callers rely on. Reads do not change the content; a write that
    reports [OK] had a matching version and took effect; a version mismatch and a
    missing key are reported truthfully and change nothing; any other failure
    either changed nothing or performed the write. *)
Class KineticSpec (W : Type)
    (get : cstr → W → (StatusCode * option KineticRecord) * W)
    (del : cstr → cstr → WriteMode → W → StatusCode * W)
    (put : cstr → cstr → WriteMode → KineticRecord → W → StatusCode * W)
    (getver : cstr → W → (StatusCode * option cstr) * W) := {
  contents : W → store;
  spec_Get k w st r w' : get k w = (st, r, w') →
    contents w' = contents w ∧
    (st = OK → ∃ x, r = Some x ∧ contents w !! k = Some x) ∧
    (st = REMOTE_NOT_FOUND → contents w !! k = None);
  spec_GetVersion k w st r w' : getver k w = (st, r, w') →
    contents w' = contents w ∧
    (st = OK → ∃ x, r = Some (kr_version x) ∧ contents w !! k = Some x) ∧
    (st = REMOTE_NOT_FOUND → contents w !! k = None);
  spec_Put k v mode rec w st w' : put k v mode rec w = (st, w') →
    (st = OK → version_matches (contents w) k v mode ∧ contents w' = <[k := rec]> (contents w)) ∧
    (st = REMOTE_VERSION_MISMATCH → ¬ version_matches (contents w) k v mode) ∧
    (contents w' = contents w ∨
     st ≠ REMOTE_VERSION_MISMATCH ∧ st ≠ REMOTE_NOT_FOUND ∧
     version_matches (contents w) k v mode ∧ contents w' = <[k := rec]> (contents w));
  spec_Delete k v mode w st w' : del k v mode w = (st, w') →
    (st = OK → version_matches (contents w) k v mode ∧ contents w' = delete k (contents w)) ∧
    (st = REMOTE_VERSION_MISMATCH → ¬ version_matches (contents w) k v mode) ∧
    (st = REMOTE_NOT_FOUND → contents w !! k = None) ∧
    (contents w' = contents w ∨
     st ≠ REMOTE_VERSION_MISMATCH ∧ st ≠ REMOTE_NOT_FOUND ∧
     version_matches (contents w) k v mode ∧ contents w' = delete k (contents w));
}.

Class KineticConnectionSpec (W : Type) `{KineticConnection W} :=
  connection_spec :: KineticSpec W con_Get con_Delete con_Put con_GetVersion.

Class KineticNamespaceSpec (W : Type) `{KineticNamespace W} :=
  namespace_spec :: KineticSpec W Get Delete Put GetVersion.

(** A namespace without failures: every call reaches the store. *)
Class KineticReliable (W : Type) `{KineticNamespaceSpec W} := {
  reliable_Get k w : (Get k w).1.1 = if decide (is_Some (contents w !! k)) then OK else REMOTE_NOT_FOUND;
  reliable_GetVersion k w :
    (GetVersion k w).1.1 = if decide (is_Some (contents w !! k)) then OK else REMOTE_NOT_FOUND;
  reliable_Put k v mode rec w : (Put k v mode rec w).1 = OK ∨ (Put k v mode rec w).1 = REMOTE_VERSION_MISMATCH;
  reliable_Delete k v mode w : (Delete k v mode w).1 = OK ∨ (Delete k v mode w).1 = REMOTE_VERSION_MISMATCH ∨
    (Delete k v mode w).1 = REMOTE_NOT_FOUND;
}.

(** ** SimpleKineticNamespace: forwards every call to one connection *)
Section Simple.
Context {W : Type} `{KineticConnection W}.

Definition simple_GetKeyRange (start_key end_key : cstr) (max_results : Z) (w : W) : (StatusCode * list cstr) * W :=
  let start_key_inclusive := false in
  let end_key_inclusive := false in
  let reverse_results := false in
  con_GetKeyRange start_key start_key_inclusive end_key end_key_inclusive reverse_results max_results w.

Definition simple_selfCheck (w : W) : bool * W := let '(st, w) := con_NoOp w in (is_ok st, w).

Definition SimpleKineticNamespace : KineticNamespace W := {|
  Get := con_Get;
  Delete := con_Delete;
  Put := con_Put;
  GetVersion := con_GetVersion;
  GetKeyRange := simple_GetKeyRange;
  selfCheck := simple_selfCheck;
|}.

(** The one-drive namespace keeps every promise of its connection. *)
#[export] Instance SimpleKineticNamespace_spec `{!KineticConnectionSpec W} :
  @KineticNamespaceSpec W SimpleKineticNamespace := connection_spec.
End Simple.

(** ** Messages *)
Class Message (A : Type) := {
  SerializeAsString : A → cstr;
  ParseFromString : cstr → option A;
}.

(** Messages the serialiser can represent parse back to themselves. *)
Class MessageSpec (A : Type) `{Message A} := {
  msg_wf : A → Prop;
  parse_serialize a : msg_wf a → ParseFromString (SerializeAsString a) = Some a;
}.

(** ** A concrete drive: the store itself, never failing. It shows that the
    specification can be met and lets the definitions run. *)
Definition drive_Get (k : cstr) (s : store) : (StatusCode * option KineticRecord) * store :=
  match s !! k with Some r => (OK, Some r, s) | None => (REMOTE_NOT_FOUND, None, s) end.

Definition drive_GetVersion (k : cstr) (s : store) : (StatusCode * option cstr) * store :=
  match s !! k with Some r => (OK, Some (kr_version r), s) | None => (REMOTE_NOT_FOUND, None, s) end.

#[export] Instance version_matches_dec s k v mode : Decision (version_matches s k v mode).
Proof. unfold version_matches. destruct mode; apply _. Defined.

Definition drive_Put (k v : cstr) (mode : WriteMode) (r : KineticRecord) (s : store) : StatusCode * store :=
  if decide (version_matches s k v mode) then (OK, <[k := r]> s) else (REMOTE_VERSION_MISMATCH, s).

Definition drive_Delete (k v : cstr) (mode : WriteMode) (s : store) : StatusCode * store :=
  match s !! k with
  | None => (REMOTE_NOT_FOUND, s)
  | Some _ => if decide (version_matches s k v mode) then (OK, delete k s) else (REMOTE_VERSION_MISMATCH, s)
  end.

Fixpoint insert_key (k : cstr) (l : list cstr) : list cstr :=
  match l with
  | [] => [k]
  | k' :: l' => if key_lt k' k then k' :: insert_key k l' else k :: l
  end.

Definition drive_GetKeyRange (start : cstr) (i1 : bool) (end_ : cstr) (i2 reverse : bool) (n : Z) (s : store)
    : (StatusCode * list cstr) * store :=
  let ks := foldr insert_key [] (List.filter (key_between start i1 end_ i2) (map fst (map_to_list s))) in
  (OK, take (Z.to_nat n) (if reverse then rev ks else ks), s).

#[export] Instance drive_connection : KineticConnection store := {|
  con_Get := drive_Get;
  con_Delete := drive_Delete;
  con_Put := drive_Put;
  con_GetVersion := drive_GetVersion;
  con_GetKeyRange := drive_GetKeyRange;
  con_NoOp := λ s, (OK, s);
|}.

#[export] Instance drive_connection_spec : KineticConnectionSpec store.
Proof.
  unshelve esplit; [exact (λ s, s)|..].
  - intros k w st r w'. cbn. unfold drive_Get. destruct (w !! k) eqn:E; intros; simplify_eq; naive_solver.
  - intros k w st r w'. cbn. unfold drive_GetVersion. destruct (w !! k) eqn:E; intros; simplify_eq; naive_solver.
  - intros k v mode rec w st w'. cbn. unfold drive_Put. case_decide; intros; simplify_eq; naive_solver.
  - intros k v mode w st w'. cbn. unfold drive_Delete.
    destruct (w !! k) eqn:E; [case_decide|]; intros; simplify_eq; naive_solver.
Defined.

#[export] Instance drive_namespace : KineticNamespace store := SimpleKineticNamespace.

#[export] Instance drive_reliable : KineticReliable store.
Proof.
  split.
  - intros k w. cbn. unfold drive_Get. by destruct (w !! k); case_decide as Hs;
      [|destruct Hs; eauto|by apply is_Some_None in Hs|].
  - intros k w. cbn. unfold drive_GetVersion. by destruct (w !! k); case_decide as Hs;
      [|destruct Hs; eauto|by apply is_Some_None in Hs|].
  - intros k v mode rec w. cbn. unfold drive_Put. case_decide; eauto.
  - intros k v mode w. cbn. unfold drive_Delete. case_match; [case_decide|]; eauto.
Qed.
