(* ===== verification/KeyOrder.v ===== *)
(** * Keys in order

    The byte-wise order of keys is a strict total order; [insert_key] sorts; the
    first [n] keys of a union are found among the first [n] keys of its parts
    (what [GetKeyRange] over several partitions relies on). *)
From stdpp Require Import sorting.
From S2P Require Import Prelude CppString Proto Kinetic.

Definition key_le (a b : cstr) : Prop := key_lt b a = false.

Lemma key_lt_irrefl a : key_lt a a = false.
Proof. induction a as [|x a IH]; [done|]. cbn. rewrite N.ltb_irrefl, IH. by rewrite andb_false_r. Qed.

Lemma key_lt_cons x y a b :
  key_lt (x :: a) (y :: b) = true ↔ (Ascii.N_of_ascii x < Ascii.N_of_ascii y)%N ∨ (x = y ∧ key_lt a b = true).
Proof. cbn. rewrite orb_true_iff, andb_true_iff, N.ltb_lt, bool_decide_eq_true. done. Qed.

Lemma key_lt_trans a b c : key_lt a b = true → key_lt b c = true → key_lt a c = true.
Proof.
  revert b c. induction a as [|x a IH]; intros [|y b] [|z c]; try done.
  rewrite !key_lt_cons. intros [H1|[-> H1]] [H2|[-> H2]]; [left; lia|by left|by left|right; split; [done|by eapply IH]].
Qed.

Lemma key_lt_total a b : key_lt a b = true ∨ a = b ∨ key_lt b a = true.
Proof.
  revert b. induction a as [|x a IH]; intros [|y b]; [by right; left|by left|by right; right|]. rewrite !key_lt_cons.
  destruct (N.lt_trichotomy (Ascii.N_of_ascii x) (Ascii.N_of_ascii y)) as [Hl|[He|Hl]]; auto.
  assert (x = y) as -> by (rewrite <- (Ascii.ascii_N_embedding x), <- (Ascii.ascii_N_embedding y); congruence).
  destruct (IH b) as [E|[->|E]]; auto.
Qed.

Lemma key_lt_asym a b : key_lt a b = true → key_lt b a = false.
Proof.
  intros E. destruct (key_lt b a) eqn:E'; [|done]. rewrite <- (key_lt_irrefl a). symmetry. by eapply key_lt_trans.
Qed.

#[export] Instance key_le_dec a b : Decision (key_le a b).
Proof. unfold key_le. apply _. Defined.

#[export] Instance key_le_antisym : AntiSymm (=) key_le.
Proof. intros a b H1 H2. unfold key_le in *. destruct (key_lt_total a b) as [E|[E|E]]; congruence. Qed.

#[export] Instance key_le_trans : Transitive key_le.
Proof.
  intros a b c H1 H2. unfold key_le in *. destruct (key_lt c a) eqn:E; [|done].
  destruct (key_lt_total b c) as [E'|[->|E']]; [|congruence|congruence].
  pose proof (key_lt_trans _ _ _ E' E). congruence.
Qed.

Lemma key_lt_le a b : key_lt a b = true → key_le a b.
Proof. apply key_lt_asym. Qed.

(** ** Sorting by insertion *)

Lemma insert_key_perm k l : insert_key k l ≡ₚ k :: l.
Proof.
  induction l as [|x l IH]; [done|]. cbn. destruct (key_lt x k); [|done]. rewrite IH. apply perm_swap.
Qed.

Lemma sort_perm l : foldr insert_key [] l ≡ₚ l.
Proof. induction l as [|x l IH]; [done|]. cbn. by rewrite insert_key_perm, IH. Qed.

Lemma insert_key_sorted k l : StronglySorted key_le l → StronglySorted key_le (insert_key k l).
Proof.
  induction 1 as [|x l Hl IH Hx]; cbn; [by repeat constructor|]. destruct (key_lt x k) eqn:E.
  - constructor; [done|]. rewrite insert_key_perm. constructor; [by apply key_lt_le|done].
  - constructor; [by constructor|]. constructor; [done|]. eapply Forall_impl; [exact Hx|].
    intros y Hy. by transitivity x.
Qed.

Lemma sort_sorted l : StronglySorted key_le (foldr insert_key [] l).
Proof. induction l as [|x l IH]; [constructor|]. by apply insert_key_sorted. Qed.

Lemma sort_ext l1 l2 : l1 ≡ₚ l2 → foldr insert_key [] l1 = foldr insert_key [] l2.
Proof.
  intros E. apply (StronglySorted_unique key_le); auto using sort_sorted. by rewrite !sort_perm.
Qed.

Lemma sort_id l : StronglySorted key_le l → foldr insert_key [] l = l.
Proof. intros E. apply (StronglySorted_unique key_le); auto using sort_sorted, sort_perm. Qed.

(** ** The first keys of a union *)

Lemma take_cons_same n (k : cstr) l :
  (n <= length l)%nat → Forall (λ x, x = k) (take n l) → take n (k :: l) = take n l.
Proof.
  revert l. induction n as [|n IH]; intros l Hn Hf; [done|]. destruct l as [|x l]; [cbn in Hn; lia|].
  cbn in Hf. apply Forall_cons in Hf as [-> Hf]. cbn [take]. f_equal. apply IH; [cbn in Hn; lia|done].
Qed.

(** A key that the first [n] keys of a sorted list do not exceed stays behind them. *)
Lemma take_insert n k l :
  StronglySorted key_le l → (n <= length l)%nat → Forall (λ x, key_le x k) (take n l) →
  take n (insert_key k l) = take n l.
Proof.
  revert n. induction l as [|x l IH]; intros n Hs Hn Hf; [cbn in Hn; by assert (n = O) as -> by lia|].
  destruct n as [|n]; [done|]. cbn in Hn, Hf |- *. apply Forall_cons in Hf as [Hx Hf].
  apply StronglySorted_inv in Hs as [Hs Hle]. destruct (key_lt x k) eqn:E; cbn; [f_equal; apply IH; auto; lia|].
  assert (x = k) as -> by (apply (anti_symm key_le); done). f_equal.
  apply take_cons_same; [lia|]. apply Forall_forall. intros y Hy. rewrite Forall_forall in Hf, Hle.
  apply (anti_symm key_le); [by apply Hf|]. apply Hle. eapply elem_of_submseteq; [exact Hy|].
  apply sublist_submseteq, sublist_take.
Qed.

(** Keys that do not come before [n] keys of [l] do not change the first [n]. *)
Lemma take_sort_app n (b a : list cstr) :
  (n <= length a)%nat → (∀ k x, k ∈ b → x ∈ take n (foldr insert_key [] a) → key_le x k) →
  take n (foldr insert_key [] (b ++ a)) = take n (foldr insert_key [] a).
Proof.
  intros Hn. induction b as [|k b IH]; intros Hb; [done|]. cbn.
  assert (Hl : ∀ l, (length a <= length l)%nat → (n <= length (foldr insert_key [] l))%nat).
  { intros l Hl. rewrite (Permutation_length (sort_perm l)). lia. }
  rewrite take_insert; [|apply sort_sorted|apply Hl; rewrite length_app; lia|]; [apply IH; set_solver|].
  rewrite IH by set_solver. apply Forall_forall. intros x Hx. apply Hb; [set_solver|done].
Qed.

Lemma sorted_take_le n l x y :
  StronglySorted key_le l → x ∈ take n l → y ∈ drop n l → key_le x y.
Proof.
  intros Hs Hx Hy. rewrite <- (take_drop n l) in Hs. by eapply StronglySorted_app_1_elem_of.
Qed.

Lemma key_not_le a b : ¬ key_le a b → key_lt b a = true.
Proof. unfold key_le. by destruct (key_lt b a). Qed.

Lemma filter_none {A} (P : A → Prop) `{∀ x, Decision (P x)} (l : list A) : (∀ y, y ∈ l → ¬ P y) → filter P l = [].
Proof. induction l as [|x l IH]; intros Hl; [done|]. rewrite filter_cons_False by set_solver. apply IH. set_solver. Qed.

Lemma filter_whole {A} (P : A → Prop) `{∀ x, Decision (P x)} (l : list A) : (∀ y, y ∈ l → P y) → filter P l = l.
Proof. induction l as [|x l IH]; intros Hl; [done|]. rewrite filter_cons_True by set_solver. f_equal. apply IH. set_solver. Qed.

(** If [n] keys do not exceed [k], neither does any of the first [n]. *)
Lemma take_below n k l :
  StronglySorted key_le l → (n <= length (filter (λ x, key_le x k) l))%nat →
  ∀ x, x ∈ take n l → key_le x k.
Proof.
  intros Hs Hn x Hx. destruct (decide (key_le x k)) as [|Hnle]; [done|]. exfalso.
  assert (Hd : filter (λ x, key_le x k) (drop n l) = []).
  { apply filter_none. intros y Hy Hle. apply Hnle. transitivity y; [|done]. by eapply sorted_take_le. }
  rewrite <- (take_drop n l) in Hn. rewrite filter_app, Hd, app_nil_r in Hn.
  assert (Hlt : (length (filter (λ x, key_le x k) (take n l)) < length (take n l))%nat).
  { by eapply length_filter_lt. }
  rewrite length_take in Hlt. lia.
Qed.

(** The first [n] keys of a union are among the first [n] keys of one part and
    the rest. *)
Lemma take_sort_part n (l m : list cstr) :
  take n (foldr insert_key [] (take n (foldr insert_key [] l) ++ m)) = take n (foldr insert_key [] (l ++ m)).
Proof.
  set (s := foldr insert_key [] l). assert (Hs : StronglySorted key_le s) by apply sort_sorted.
  assert (E : l ++ m ≡ₚ drop n s ++ (take n s ++ m)).
  { rewrite <- (sort_perm l). fold s. rewrite <- (take_drop n s) at 1. rewrite (Permutation_app_comm (drop n s)).
    rewrite <- !app_assoc. f_equiv. apply Permutation_app_comm. }
  rewrite (sort_ext _ _ E). destruct (decide (length s <= n)%nat) as [Hn|Hn].
  { by rewrite drop_ge. }
  symmetry. apply take_sort_app; [rewrite length_app, length_take; lia|]. intros k x Hk.
  apply take_below; [apply sort_sorted|].
  rewrite (Permutation_length (filter_Permutation _ _ _ (sort_perm (take n s ++ m)))).
  rewrite filter_app, length_app. rewrite (filter_whole (λ x, key_le x k) (take n s)); [rewrite length_take; lia|].
  intros y Hy. by eapply sorted_take_le.
Qed.

(** The first [n] keys of the concatenation, from the first [n] of each part. *)
Lemma take_sort_parts n (ls : list (list cstr)) :
  take n (foldr insert_key [] (concat (map (λ l, take n (foldr insert_key [] l)) ls))) =
  take n (foldr insert_key [] (concat ls)).
Proof.
  assert (Hgen : ∀ m, take n (foldr insert_key [] (m ++ concat (map (λ l, take n (foldr insert_key [] l)) ls))) =
                      take n (foldr insert_key [] (m ++ concat ls))); [|apply (Hgen [])].
  induction ls as [|l ls IH]; intros m; [done|]. cbn.
  rewrite (app_assoc m), IH.
  rewrite (sort_ext ((m ++ _) ++ concat ls) (take n (foldr insert_key [] l) ++ (m ++ concat ls))).
  2: { rewrite <- app_assoc. apply Permutation_app_swap_app. }
  rewrite take_sort_part. f_equal. apply sort_ext. apply Permutation_app_swap_app.
Qed.

(** ** Ranges *)

(** The keys of a range, in no order. *)
Definition range_keys (s e : cstr) (st : store) : list cstr :=
  List.filter (key_between s false e false) (map fst (map_to_list st)).

Lemma drive_GetKeyRange_run s e n st :
  drive_GetKeyRange s false e false false n st = (OK, take (Z.to_nat n) (foldr insert_key [] (range_keys s e st)), st).
Proof. done. Qed.

Lemma elem_of_range_keys s e st k :
  k ∈ range_keys s e st ↔ key_between s false e false k = true ∧ is_Some (st !! k).
Proof.
  unfold range_keys. rewrite list_elem_of_In, filter_In, <- list_elem_of_In.
  assert (Hk : k ∈ map fst (map_to_list st) ↔ is_Some (st !! k)); [|naive_solver].
  rewrite list_elem_of_fmap. split.
  - intros ([k' r] & -> & Hin). apply elem_of_map_to_list in Hin. eauto.
  - intros [r Hr]. exists (k, r). split; [done|]. by apply elem_of_map_to_list.
Qed.

Lemma NoDup_range_keys s e st : NoDup (range_keys s e st).
Proof. apply NoDup_ListNoDup, List.NoDup_filter, NoDup_ListNoDup, NoDup_fst_map_to_list. Qed.

(** Keys strictly between [a] and [a ++ 0xff] extend [a]. *)
Lemma between_extends a k c : key_lt a k = true → key_lt k (a ++ [c]) = true → ∃ x, k = a ++ x ∧ x ≠ [].
Proof.
  revert k. induction a as [|y a IH]; intros k H1 H2; [by exists k; destruct k|].
  destruct k as [|z k]; [done|]. cbn [app] in H2. rewrite key_lt_cons in H1, H2.
  destruct H1 as [H1|[-> H1]], H2 as [H2|[? H2]]; subst; try lia.
  destruct (IH k H1 H2) as (x & -> & Hx). by exists x.
Qed.

(** The keys of a range, in order. *)
Definition listing (a b : cstr) (d : store) : list cstr := foldr insert_key [] (range_keys a b d).

Lemma elem_of_listing a b d k : k ∈ listing a b d ↔ key_lt a k = true ∧ key_lt k b = true ∧ is_Some (d !! k).
Proof.
  unfold listing. rewrite sort_perm, elem_of_range_keys. unfold key_between. cbn. rewrite !orb_false_r, andb_true_iff. naive_solver.
Qed.

Lemma NoDup_listing a b d : NoDup (listing a b d).
Proof. unfold listing. rewrite sort_perm. apply NoDup_range_keys. Qed.

Lemma key_le_ne a b : key_le a b → a ≠ b → key_lt a b = true.
Proof. unfold key_le. intros Hle Hne. by destruct (key_lt_total a b) as [?|[?|?]]; [|done|congruence]. Qed.

(** Behind an element of a sorted list without repetitions are the greater ones. *)
Lemma sorted_behind l i y x : StronglySorted key_le l → NoDup l → l !! i = Some y →
  x ∈ drop (S i) l ↔ x ∈ l ∧ key_lt y x = true.
Proof.
  intros Hs Hnd Hy. pose proof (take_drop_middle l i y Hy) as Hl. rewrite <- Hl in Hs, Hnd.
  apply StronglySorted_app in Hs as (Hle & _ & (_ & Hgt)%StronglySorted_inv). rewrite Forall_forall in Hgt.
  apply NoDup_app in Hnd as (_ & _ & (Hni & _)%NoDup_cons). split.
  - intros Hx. split; [rewrite <- Hl; set_solver|]. apply key_le_ne; [by apply Hgt|congruence].
  - rewrite <- Hl at 1. intros [[Hx|[->|Hx]%elem_of_cons]%elem_of_app Hlt]; [|by rewrite key_lt_irrefl in Hlt|done].
    specialize (Hle x y Hx ltac:(set_solver)). unfold key_le in Hle. congruence.
Qed.

(** A listing continued after its element [y]. *)
Lemma listing_after a b d i y : listing a b d !! i = Some y → listing y b d = drop (S i) (listing a b d).
Proof.
  intros Hy. assert (Hs : StronglySorted key_le (listing a b d)) by apply sort_sorted.
  apply (StronglySorted_unique key_le); [apply sort_sorted| |].
  - rewrite <- (take_drop (S i) (listing a b d)) in Hs. by apply StronglySorted_app in Hs as (_ & _ & ?).
  - apply NoDup_Permutation; [apply NoDup_listing|eapply sublist_NoDup; [apply NoDup_listing|apply sublist_drop]|].
    intros x. rewrite (sorted_behind _ i y x Hs (NoDup_listing a b d) Hy), !elem_of_listing.
    assert (key_lt a y = true) by (by apply list_elem_of_lookup_2, elem_of_listing in Hy as (? & _)).
    split; [|naive_solver]. intros (? & ? & ?). split; [|done]. split; [by eapply key_lt_trans|done].
Qed.

Lemma key_lt_app p a b : key_lt (p ++ a) (p ++ b) = key_lt a b.
Proof. induction p as [|x p IH]; [done|]. cbn. by rewrite N.ltb_irrefl, bool_decide_true, IH. Qed.
