(* ===== verification/FsState.v ===== *)
(** * The state of a mounted file system: [struct hflat_priv] (src/main.h), the
    objects its caches point to, and the sources of time and of unique names *)
From S2P Require Import Prelude CppString Proto PathMapDB LRUCache DataInfo MetadataInfo Kinetic.

Inductive PosixMode := FULL | TIMERELAXED.

#[export] Instance PosixMode_eq_dec : EqDecision PosixMode.
Proof. solve_decision. Defined.

(** Inputs from outside the program: the uuid library, the steady clock
    (nanoseconds) and [std::time] (seconds), as the sequence of values the
    program will read; the generated (de)serialisers; the iteration order of the
    path map's hash table. *)
Class Env := {
  env_uuid : nat → cstr;
  env_steady : nat → Z;
  env_time : nat → Z;
  env_iter : gmap (list ascii) PMEntry → list (cstr * PMEntry);
  env_metadata :: Message Metadata;
  env_db_entry :: Message db_entry;
  env_db_snapshot :: Message db_snapshot;
}.

Section State.
Context {W : Type}.

Record hflat_priv := mk_hflat_priv {
  kinetic : W;
  lookup_cache : LRUcache (list ascii) loc;
  data_cache : LRUcache (list ascii) loc;
  pmap_ : PathMapDB;
  blocksize : Z;
  posix : PosixMode;
  inum_base : Z;
  inum_counter : Z;
  (* the heap: what shared_ptr<MetadataInfo> and shared_ptr<DataInfo> point to *)
  heap_md : gmap nat MetadataInfo;
  heap_di : gmap nat DataInfo;
  next_loc : nat;
  (* how many values of each input have been read *)
  uuids_used : nat;
  steady_used : nat;
  time_used : nat;
  (* fuse_get_context() *)
  ctx : fuse_context;
}.

Definition set_kinetic w s := mk_hflat_priv w (lookup_cache s) (data_cache s) (pmap_ s) (blocksize s) (posix s) (inum_base s) (inum_counter s) (heap_md s) (heap_di s) (next_loc s) (uuids_used s) (steady_used s) (time_used s) (ctx s).
Definition set_lookup_cache c s := mk_hflat_priv (kinetic s) c (data_cache s) (pmap_ s) (blocksize s) (posix s) (inum_base s) (inum_counter s) (heap_md s) (heap_di s) (next_loc s) (uuids_used s) (steady_used s) (time_used s) (ctx s).
Definition set_data_cache c s := mk_hflat_priv (kinetic s) (lookup_cache s) c (pmap_ s) (blocksize s) (posix s) (inum_base s) (inum_counter s) (heap_md s) (heap_di s) (next_loc s) (uuids_used s) (steady_used s) (time_used s) (ctx s).
Definition set_pmap p s := mk_hflat_priv (kinetic s) (lookup_cache s) (data_cache s) p (blocksize s) (posix s) (inum_base s) (inum_counter s) (heap_md s) (heap_di s) (next_loc s) (uuids_used s) (steady_used s) (time_used s) (ctx s).
Definition set_inum b c s := mk_hflat_priv (kinetic s) (lookup_cache s) (data_cache s) (pmap_ s) (blocksize s) (posix s) b c (heap_md s) (heap_di s) (next_loc s) (uuids_used s) (steady_used s) (time_used s) (ctx s).
Definition set_heap hm hd n s := mk_hflat_priv (kinetic s) (lookup_cache s) (data_cache s) (pmap_ s) (blocksize s) (posix s) (inum_base s) (inum_counter s) hm hd n (uuids_used s) (steady_used s) (time_used s) (ctx s).
Definition set_inputs u st t s := mk_hflat_priv (kinetic s) (lookup_cache s) (data_cache s) (pmap_ s) (blocksize s) (posix s) (inum_base s) (inum_counter s) (heap_md s) (heap_di s) (next_loc s) u st t (ctx s).

Context `{!Env}.

Abbreviation FS := (M hflat_priv).

(** ** Inputs *)
Definition generate_uuid : FS cstr := λ s,
  Ret (env_uuid (uuids_used s)) (set_inputs (S (uuids_used s)) (steady_used s) (time_used s) s).
Definition steady_now : FS Z := λ s,
  Ret (env_steady (steady_used s)) (set_inputs (uuids_used s) (S (steady_used s)) (time_used s) s).
Definition time_now : FS Z := λ s,
  Ret (env_time (time_used s)) (set_inputs (uuids_used s) (steady_used s) (S (time_used s)) s).

(** ** Pointers; dereferencing a null or dangling pointer is undefined. *)
Definition new_md (m : MetadataInfo) : FS loc := λ s,
  Ret (next_loc s) (set_heap (<[next_loc s := m]> (heap_md s)) (heap_di s) (S (next_loc s)) s).
Definition new_di (d : DataInfo) : FS loc := λ s,
  Ret (next_loc s) (set_heap (heap_md s) (<[next_loc s := d]> (heap_di s)) (S (next_loc s)) s).
Definition deref_md (l : loc) : FS MetadataInfo := λ s,
  match heap_md s !! l with Some m => Ret m s | None => Undef s end.
Definition deref_di (l : loc) : FS DataInfo := λ s,
  match heap_di s !! l with Some d => Ret d s | None => Undef s end.
Definition write_md (l : loc) (m : MetadataInfo) : FS unit :=
  modify_ (λ s, set_heap (<[l := m]> (heap_md s)) (heap_di s) (next_loc s) s).
Definition write_di (l : loc) (d : DataInfo) : FS unit :=
  modify_ (λ s, set_heap (heap_md s) (<[l := d]> (heap_di s)) (next_loc s) s).
Definition non_null (p : option loc) : FS loc :=
  match p with Some l => mret_ l | None => undef_ end.

(** [mdi->getMD()], a change of it, and a method call on the objects. *)
Definition getMD (l : loc) : FS Metadata := let! m := deref_md l in mret_ (md m).
Definition change_md (l : loc) (f : Metadata → Metadata) : FS unit :=
  let! m := deref_md l in write_md l (on_md f m).
Definition on_metadata {A} (l : loc) (op : M Metadata A) : FS A :=
  let! m := deref_md l in λ s,
  zoom (λ _ : hflat_priv, md m) (λ x s, set_heap (<[l := on_md (λ _, x) m]> (heap_md s)) (heap_di s) (next_loc s) s) op s.
Definition on_datainfo {A} (l : loc) (op : M DataInfo A) : FS A :=
  let! d := deref_di l in λ s,
  zoom (λ _ : hflat_priv, d) (λ x s, set_heap (heap_md s) (<[l := x]> (heap_di s)) (next_loc s) s) op s.

Lemma deref_md_run l s m : heap_md s !! l = Some m → deref_md l s = Ret m s.
Proof. unfold deref_md. by intros ->. Qed.
Lemma deref_di_run l s d : heap_di s !! l = Some d → deref_di l s = Ret d s.
Proof. unfold deref_di. by intros ->. Qed.
Lemma getMD_run l s m : heap_md s !! l = Some m → getMD l s = Ret (md m) s.
Proof. intros Hm. unfold getMD. by rewrite (mbind_Ret _ _ _ _ _ (deref_md_run l s m Hm)). Qed.

Lemma on_datainfo_run {A} l s d (op : M DataInfo A) a d' :
  heap_di s !! l = Some d → op d = Ret a d' →
  on_datainfo l op s = Ret a (set_heap (heap_md s) (<[l := d']> (heap_di s)) (next_loc s) s).
Proof.
  intros Hd Hop. unfold on_datainfo. rewrite (mbind_Ret _ _ _ _ _ (deref_di_run l s d Hd)). unfold zoom. by rewrite Hop.
Qed.
Lemma change_md_run l s m f : heap_md s !! l = Some m →
  change_md l f s = Ret tt (set_heap (<[l := on_md f m]> (heap_md s)) (heap_di s) (next_loc s) s).
Proof. intros Hm. unfold change_md. by rewrite (mbind_Ret _ _ _ _ _ (deref_md_run l s m Hm)). Qed.

(** ** The caches: the functions given to their constructors in [hflat_priv] *)
Definition md_getKey (s : hflat_priv) (l : loc) : cstr :=
  match heap_md s !! l with Some m => systemPath m | None => [] end.
Definition di_hasUpdates (s : hflat_priv) (l : loc) : bool :=
  match heap_di s !! l with Some d => hasUpdates d | None => false end.
Definition md_dirty (s : hflat_priv) (l : loc) : bool :=
  match heap_md s !! l with
  | Some m => match dirty_data m with Some d => di_hasUpdates s d | None => false end
  | None => false
  end.
Definition di_getKey (s : hflat_priv) (l : loc) : cstr :=
  match heap_di s !! l with Some d => di_key d | None => [] end.

Definition lc_get (k : cstr) : FS (option loc) :=
  let! now := steady_now in λ s, zoom lookup_cache set_lookup_cache (get (md_dirty s) k now) s.
Definition lc_add (k : cstr) (l : loc) : FS bool :=
  let! now := steady_now in λ s, zoom lookup_cache set_lookup_cache (add (md_getKey s) (md_dirty s) k l now) s.
Definition lc_block (k : cstr) : FS bool := zoom lookup_cache set_lookup_cache (block k).
Definition lc_invalidate (k : cstr) : FS unit := zoom lookup_cache set_lookup_cache (invalidate k).
Definition lc_revalidate (k : cstr) : FS unit :=
  let! now := steady_now in zoom lookup_cache set_lookup_cache (revalidate k now).
Definition dc_get (k : cstr) : FS (option loc) :=
  let! now := steady_now in λ s, zoom data_cache set_data_cache (get (di_hasUpdates s) k now) s.
Definition dc_add (k : cstr) (l : loc) : FS bool :=
  let! now := steady_now in λ s, zoom data_cache set_data_cache (add (di_getKey s) (di_hasUpdates s) k l now) s.
Definition dc_block (k : cstr) : FS bool := zoom data_cache set_data_cache (block k).
Definition dc_invalidate (k : cstr) : FS unit := zoom data_cache set_data_cache (invalidate k).
Definition dc_revalidate (k : cstr) : FS unit :=
  let! now := steady_now in zoom data_cache set_data_cache (revalidate k now).

(** ** Calls on the namespace and on the path map *)
Context `{!KineticNamespace W}.

Definition k_Get (k : cstr) : FS (StatusCode * option KineticRecord) := λ s,
  let '(r, w) := Get k (kinetic s) in Ret r (set_kinetic w s).
Definition k_Put (k v : cstr) (mode : WriteMode) (r : KineticRecord) : FS StatusCode := λ s,
  let '(st, w) := Put k v mode r (kinetic s) in Ret st (set_kinetic w s).
Definition k_Delete (k v : cstr) (mode : WriteMode) : FS StatusCode := λ s,
  let '(st, w) := Delete k v mode (kinetic s) in Ret st (set_kinetic w s).
Definition k_GetVersion (k : cstr) : FS (StatusCode * option cstr) := λ s,
  let '(r, w) := GetVersion k (kinetic s) in Ret r (set_kinetic w s).
Definition k_GetKeyRange (a b : cstr) (n : Z) : FS (StatusCode * list cstr) := λ s,
  let '(r, w) := GetKeyRange a b n (kinetic s) in Ret r (set_kinetic w s).
Definition k_selfCheck : FS bool := λ s,
  let '(r, w) := selfCheck (kinetic s) in Ret r (set_kinetic w s).
Definition on_pmap {A} (op : M PathMapDB A) : FS A := zoom pmap_ set_pmap op.

(** ** Idioms of the operations *)

Definition fuse_get_context : FS fuse_context := gets_ ctx.

(** [mdi->updateACMtime()] and [mdi->updateACtime()] *)
Definition touch_ACM (l : loc) : FS unit := let! now := time_now in change_md l (updateACMtime now).
Definition touch_AC (l : loc) : FS unit := let! now := time_now in change_md l (updateACtime now).

(** [check_access(mdi, mode)] *)
Definition access_to (l : loc) (mode : Z) : FS Z :=
  let! c := fuse_get_context in let! m := getMD l in mret_ (check_access c m mode).

(** [if (int err = m) return err;] before [k]. *)
Definition on_ok (m : FS Z) (k : FS Z) : FS Z :=
  let! err := m in if negb (err =? 0) then mret_ err else k.

(** The same for a call with an out-parameter that [k] dereferences. *)
Definition on_found (m : FS (Z * option loc)) (k : loc → FS Z) : FS Z :=
  let! r := m in if negb (r.1 =? 0) then mret_ r.1 else let! l := non_null r.2 in k l.

(** Integer division; a zero divisor is undefined. *)
Definition quot_ (a b : Z) : FS Z := if b =? 0 then undef_ else mret_ (Z.quot a b).
Definition rem_ (a b : Z) : FS Z := if b =? 0 then undef_ else mret_ (Z.rem a b).

(** Writing bytes into a caller's buffer; outside of it this is undefined. *)
Definition poke (buf : cstr) (pos : nat) (bytes : cstr) : FS cstr :=
  if Nat.leb (pos + length bytes) (length buf) then mret_ (take pos buf ++ bytes ++ drop (pos + length bytes) buf)
  else undef_.

End State.

Notation "'let?' x := m 'in' k" := (on_found m (fun x => k))
  (at level 10, x binder, m at level 100, k at level 200) : cpp_scope.
Notation "m ';;?' k" := (on_ok m k) (at level 199, right associativity) : cpp_scope.

Arguments hflat_priv W : clear implicits.
