(* ===== verification/Config.v ===== *)
(** * Command line and configuration: [main] and [parse_configuration] (src/main.cc)

    libconfig and fuse are not code of the repository: the calls on a parsed file
    are the class {!Libconfig}; [fuse_main] gets the command line that is left. *)
From S2P Require Import Prelude CppString Proto FsState.

(** ** libconfig *)
Class Libconfig (Cfg Setting : Type) := {
  (** Whether the file could be read, and what was read. *)
  config_read_file : cstr → bool * Cfg;
  config_lookup : Cfg → cstr → option Setting;
  config_setting_length : Setting → nat;
  config_setting_get_elem : Setting → nat → option Setting;
  config_setting_lookup_string : Setting → cstr → option cstr;
  config_setting_lookup_int : Setting → cstr → option Z;
}.

(** Documented: an element below the length is there. *)
Class LibconfigSpec (Cfg Setting : Type) `{Libconfig Cfg Setting} :=
  law_get_elem s i : (i < config_setting_length s)%nat → is_Some (config_setting_get_elem s i).

(** ** parse_configuration *)
Section Config.
Context {Cfg Setting : Type} `{!Libconfig Cfg Setting}.

(** Passing on a null setting is undefined. *)
Definition get_elem (s : Setting) (i : nat) : M unit Setting :=
  match config_setting_get_elem s i with Some e => mret_ e | None => undef_ end.

Definition new_Partition : Partition := mk_Partition 0 None [] None.
Definition add_drive (d : KineticDrive) (p : Partition) : Partition :=
  mk_Partition (cluster_version p) (partitionID p) (drives p ++ [d]) (logID p).

Definition status_of_string (status : cstr) : option DriveStatus :=
  if bool_decide (status = lit "GREEN") then Some GREEN
  else if bool_decide (status = lit "YELLOW") then Some YELLOW
  else if bool_decide (status = lit "RED") then Some RED
  else None.

(** The lambda [cfg_to_hflat]; [n] elements from [i] on are left. A drive is in
    the message before its status is known to be valid. *)
Fixpoint cfg_to_hflat_loop (partition : Setting) (n i : nat) (p : Partition) : M unit (bool * Partition) :=
  match n with
  | O => mret_ (true, p)
  | S n =>
    let! drive := get_elem partition i in
    match config_setting_lookup_string drive (lit "host"), config_setting_lookup_string drive (lit "status"),
          config_setting_lookup_int drive (lit "port") with
    | Some host, Some status, Some port =>
      match status_of_string status with
      | Some st => cfg_to_hflat_loop partition n (S i) (add_drive (mk_KineticDrive st host port) p)
      | None => mret_ (false, add_drive (mk_KineticDrive GREEN host port) p)
      end
    | _, _, _ => mret_ (false, p)
    end
  end.

Definition cfg_to_hflat (partition : option Setting) (p : Partition) : M unit (bool * Partition) :=
  match partition with
  | Some s => cfg_to_hflat_loop s (config_setting_length s) 0 p
  | None => mret_ (true, p)
  end.

Definition number_partition (i : nat) (logpartition p : Partition) : Partition :=
  let logs := Z.of_nat (length (drives logpartition)) in
  let logid := if (Z.of_nat (length (drives p)) =? 2) && negb (logs =? 0)
               then Some (Z.of_nat i mod logs) else logID p in
  mk_Partition (cluster_version p) (Some (Z.of_nat i)) (drives p) logid.

Fixpoint clustermap_loop (cmap : Setting) (logpartition : Partition) (n i : nat) (clustermap : list Partition)
    : M unit (bool * list Partition) :=
  match n with
  | O => mret_ (true, clustermap)
  | S n =>
    let! e := get_elem cmap i in
    let! r := cfg_to_hflat (Some e) new_Partition in
    let clustermap := clustermap ++ [number_partition i logpartition r.2] in
    if r.1 : bool then clustermap_loop cmap logpartition n (S i) clustermap else mret_ (false, clustermap)
  end.

Record configuration := mk_configuration {
  cfg_clustermap : list Partition;
  cfg_logpartition : Partition;
  cfg_cache_expiration_ms : Z;
  cfg_direntry_clustersize : Z;
  cfg_pmode : PosixMode;
}.

(** The values [hflat_init] starts with. *)
Definition default_configuration : configuration := mk_configuration [] new_Partition 1000 1 FULL.

Definition parse_options (options : option Setting) (c : configuration) : configuration :=
  match options with
  | None => c
  | Some o =>
    mk_configuration (cfg_clustermap c) (cfg_logpartition c)
      (default (cfg_cache_expiration_ms c) (config_setting_lookup_int o (lit "cache_expiration")))
      (default (cfg_direntry_clustersize c) (config_setting_lookup_int o (lit "direntry_clustersize")))
      (match config_setting_lookup_string o (lit "posix_mode") with
       | Some mode => if bool_decide (mode = lit "RELAXED") then TIMERELAXED else cfg_pmode c
       | None => cfg_pmode c
       end)
  end.

Definition parse_configuration (filename : cstr) (c : configuration) : M unit (bool * configuration) :=
  let '(rtn, cfg) := config_read_file filename in
  let! r := if rtn then cfg_to_hflat (config_lookup cfg (lit "log")) (cfg_logpartition c)
            else mret_ (false, cfg_logpartition c) in
  let '(rtn, logpartition) := r in
  let! r := match config_lookup cfg (lit "clustermap") with
            | Some cmap => 
              if rtn then clustermap_loop cmap logpartition (config_setting_length cmap) 0 (cfg_clustermap c)
              else mret_ (false, cfg_clustermap c)
            | None => mret_ (rtn, cfg_clustermap c)
            end in
  let '(rtn, clustermap) := r in
  mret_ (rtn, parse_options (config_lookup cfg (lit "options"))
    (mk_configuration clustermap logpartition (cfg_cache_expiration_ms c) (cfg_direntry_clustersize c) (cfg_pmode c))).
End Config.

(** ** main *)

(** The loop over the arguments; an argument that is taken moves the others down
    before [i] is incremented. [n] bounds the number of rounds. *)
Fixpoint extract_cfg (n i : nat) (argv : list cstr) (filename : cstr) : list cstr * cstr :=
  match n with
  | O => (argv, filename)
  | S n =>
    match argv !! i with
    | None => (argv, filename)
    | Some a =>
      if is_prefix (lit "-cfg=") a then extract_cfg n (S i) (take i argv ++ drop (S i) argv) (drop 5 a)
      else extract_cfg n (S i) argv filename
    end
  end.

Definition absolute_filename (cwd filename : cstr) : cstr :=
  match filename with
  | [] => []
  | a :: _ => if bool_decide (a = "/"%char) then filename else cwd ++ lit "/" ++ filename
  end.

(** [main] up to [fuse_main]: its arguments, and the static variable [filename]. *)
Definition hflat_main (cwd : cstr) (argv : list cstr) : list cstr * cstr :=
  let '(argv, filename) := extract_cfg (length argv) 0 argv [] in
  (argv, absolute_filename cwd filename).
