(* ===== verification/ConfigFacts.v ===== *)
(** * Properties of the command line and the configuration file *)
From S2P Require Import Prelude CppString Proto FsState Config.

(** ** Every file gives a well-formed cluster *)

(** Partition [i] of a cluster map: numbered by its position, with a log drive
    exactly if it has two drives and there are log drives. *)
Definition numbered (logs : nat) (i : nat) (p : Partition) : Prop :=
  cluster_version p = 0 ∧ partitionID p = Some (Z.of_nat i) ∧
  logID p = (if (length (drives p) =? 2)%nat && negb (logs =? 0)%nat then Some (Z.of_nat i mod Z.of_nat logs) else None).

Definition numbered_all (logs : nat) (ps : list Partition) : Prop := ∀ i p, ps !! i = Some p → numbered logs i p.

Lemma numbered_snoc logs ps p : numbered_all logs ps → numbered logs (length ps) p → numbered_all logs (ps ++ [p]).
Proof.
  intros Hps Hp i q [Hq|[Hi Hq]]%lookup_app_Some; [by apply Hps|].
  apply list_lookup_singleton_Some in Hq as [Hi' <-]. by replace i with (length ps) by lia.
Qed.

Lemma number_partition_numbered i logp p : cluster_version p = 0 → logID p = None →
  numbered (length (drives logp)) i (number_partition i logp p).
Proof.
  intros Hv Hl. split; [done|split; [done|]]. cbn [number_partition logID drives]. rewrite Hl.
  destruct (Nat.eqb_spec (length (drives p)) 2), (Z.eqb_spec (Z.of_nat (length (drives p))) 2),
    (Nat.eqb_spec (length (drives logp)) 0), (Z.eqb_spec (Z.of_nat (length (drives logp))) 0); (done || lia).
Qed.

(** A log drive that [numbered] names exists. *)
Lemma numbered_logid logs i p l : numbered logs i p → logID p = Some l → 0 <= l < Z.of_nat logs.
Proof.
  intros (_ & _ & ->). destruct (_ =? 2)%nat; [|done]. destruct (Nat.eqb_spec logs 0); [done|].
  cbn [negb andb]. intros [= <-]. apply Z.mod_pos_bound. lia.
Qed.

Section Parse.
Context {Cfg Setting : Type} `{!Libconfig Cfg Setting} `{!LibconfigSpec Cfg Setting}.
Implicit Types (s e : Setting) (p : Partition).

Lemma get_elem_run s i : (i < config_setting_length s)%nat → ∃ e, config_setting_get_elem s i = Some e ∧ get_elem s i tt = Ret e tt.
Proof. intros Hi. destruct (law_get_elem s i Hi) as [e He]. exists e. unfold get_elem. by rewrite He. Qed.

Lemma cfg_to_hflat_loop_total s n : ∀ i p, (i + n <= config_setting_length s)%nat →
  ∃ b ds, cfg_to_hflat_loop s n i p tt = Ret (b, mk_Partition (cluster_version p) (partitionID p) ds (logID p)) tt.
Proof.
  induction n as [|n IH]; intros i p Hi; cbn [cfg_to_hflat_loop].
  { exists true, (drives p). by destruct p. }
  destruct (get_elem_run s i) as (e & _ & He); [lia|]. step_by He.
  destruct (config_setting_lookup_string e _) as [h|]; [|exists false, (drives p); by destruct p].
  destruct (config_setting_lookup_string e _) as [st|]; [|exists false, (drives p); by destruct p].
  destruct (config_setting_lookup_int e _) as [po|]; [|exists false, (drives p); by destruct p].
  destruct (status_of_string st); [|by eexists false, _].
  destruct (IH (S i) (add_drive (mk_KineticDrive d h po) p)) as (b & ds & ->); [lia|]. by exists b, ds.
Qed.

Lemma cfg_to_hflat_total o p : ∃ b ds,
  cfg_to_hflat o p tt = Ret (b, mk_Partition (cluster_version p) (partitionID p) ds (logID p)) tt.
Proof.
  destruct o as [s|]; cbn [cfg_to_hflat]; [|exists true, (drives p); by destruct p].
  by apply cfg_to_hflat_loop_total.
Qed.

Lemma clustermap_loop_total cmap logp n : ∀ i acc, (i + n <= config_setting_length cmap)%nat → i = length acc →
  numbered_all (length (drives logp)) acc →
  ∃ b ps, clustermap_loop cmap logp n i acc tt = Ret (b, ps) tt ∧ numbered_all (length (drives logp)) ps.
Proof.
  induction n as [|n IH]; intros i acc Hi Hacc Hall; cbn [clustermap_loop]; [by exists true, acc|].
  destruct (get_elem_run cmap i) as (e & _ & He); [lia|]. step_by He.
  destruct (cfg_to_hflat_total (Some e) new_Partition) as (b & ds & Hr). step_by Hr. cbn [fst snd].
  set (q := number_partition i logp _).
  assert (Hq : numbered_all (length (drives logp)) (acc ++ [q])).
  { apply numbered_snoc; [done|]. rewrite <- Hacc. by apply number_partition_numbered. }
  destruct b; [|by eexists false, _]. apply IH; [lia|by rewrite length_app, Hacc, Nat.add_1_r|done].
Qed.

(** C36: whatever the configuration file says, parsing it ends with a verdict and a
    cluster map in which every partition carries its position as number, and has a
    log drive exactly if it has two drives and log drives are configured; that log
    drive is one of them. *)
Theorem parse_configuration_wf filename : ∃ ok c,
  parse_configuration filename default_configuration tt = Ret (ok, c) tt ∧
  numbered_all (length (drives (cfg_logpartition c))) (cfg_clustermap c) ∧
  (∀ i p l, cfg_clustermap c !! i = Some p → logID p = Some l → 0 <= l < Z.of_nat (length (drives (cfg_logpartition c)))).
Proof.
  enough (∃ ok c, parse_configuration filename default_configuration tt = Ret (ok, c) tt ∧
    numbered_all (length (drives (cfg_logpartition c))) (cfg_clustermap c)) as (ok & c & Hrun & Hall).
  { exists ok, c. split; [done|split; [done|]]. intros i p l Hp. by apply (numbered_logid _ i), Hall. }
  unfold parse_configuration. destruct (config_read_file filename) as [rtn cfg].
  assert (Hlog : ∃ b lp, (if rtn then cfg_to_hflat (config_lookup cfg (lit "log")) (cfg_logpartition default_configuration)
            else mret_ (false, cfg_logpartition default_configuration)) tt = Ret (b, lp) tt).
  { destruct rtn; [|by eexists _, _]. destruct (cfg_to_hflat_total (config_lookup cfg (lit "log")) new_Partition) as (b & ds & Hr).
    cbn [cfg_logpartition default_configuration]. rewrite Hr. eauto. }
  destruct Hlog as (b & lp & Hlog). step_by Hlog.
  assert (Hnil : numbered_all (length (drives lp)) []) by done.
  destruct (config_lookup cfg (lit "clustermap")) as [cmap|].
  - destruct b.
    + destruct (clustermap_loop_total cmap lp (config_setting_length cmap) 0 [] (le_n _) eq_refl Hnil) as (b & ps & Hr & Hps).
      cbn [cfg_clustermap default_configuration]. step_by Hr. eexists _, _. split; [done|]. by destruct (config_lookup cfg (lit "options")).
    + rewrite mbind_ret_l. eexists _, _. split; [done|]. by destruct (config_lookup cfg (lit "options")).
  - rewrite mbind_ret_l. eexists _, _. split; [done|]. by destruct (config_lookup cfg (lit "options")).
Qed.
End Parse.

(** ** A well-formed file is read as it is written *)
Section Read.
Context {Cfg Setting : Type} `{!Libconfig Cfg Setting}.
Implicit Types (s e : Setting) (p : Partition).

Definition status_name (st : DriveStatus) : cstr :=
  match st with GREEN => lit "GREEN" | YELLOW => lit "YELLOW" | RED => lit "RED" end.

(** Setting [e] describes drive [d]; setting [s] describes the drives [ds]. *)
Definition drive_setting e (d : KineticDrive) : Prop :=
  config_setting_lookup_string e (lit "host") = Some (kd_host d) ∧
  config_setting_lookup_string e (lit "status") = Some (status_name (kd_status d)) ∧
  config_setting_lookup_int e (lit "port") = Some (kd_port d).

Definition list_setting {A} (describes : Setting → A → Prop) s (l : list A) : Prop :=
  config_setting_length s = length l ∧
  ∀ i a, l !! i = Some a → ∃ e, config_setting_get_elem s i = Some e ∧ describes e a.

Definition optional_setting {A} (describes : Setting → list A → Prop) (o : option Setting) (l : list A) : Prop :=
  match o with Some s => describes s l | None => l = [] end.

Definition drives_setting : Setting → list KineticDrive → Prop := list_setting drive_setting.
Definition clustermap_setting : Setting → list (list KineticDrive) → Prop := list_setting drives_setting.

Lemma status_of_name st : status_of_string (status_name st) = Some st.
Proof. by destruct st. Qed.

(** A setting that describes [pre ++ a :: l], at the position of [a]. *)
Lemma list_setting_at {A} (describes : Setting → A → Prop) s pre a l : list_setting describes s (pre ++ a :: l) →
  ∃ e, get_elem s (length pre) tt = Ret e tt ∧ describes e a.
Proof.
  intros [_ Hs]. destruct (Hs (length pre) a) as (e & He & Hd); [by apply list_lookup_middle|].
  exists e. unfold get_elem. by rewrite He.
Qed.

Lemma cfg_to_hflat_loop_read s l : ∀ pre p, drives_setting s (pre ++ l) → drives p = pre →
  cfg_to_hflat_loop s (length l) (length pre) p tt =
    Ret (true, mk_Partition (cluster_version p) (partitionID p) (pre ++ l) (logID p)) tt.
Proof.
  induction l as [|d l IH]; intros pre p Hs <-; cbn [length cfg_to_hflat_loop].
  { rewrite app_nil_r. by destruct p. }
  destruct (list_setting_at _ _ _ _ _ Hs) as (e & He & Hh & Hst & Hp). step_by He. rewrite Hh, Hst, Hp, status_of_name.
  replace (S (length (drives p))) with (length (drives p ++ [d])) by (rewrite length_app; cbn; lia).
  assert (E : drives p ++ d :: l = (drives p ++ [d]) ++ l) by (by rewrite <- app_assoc). rewrite E in Hs |- *.
  rewrite (IH (drives p ++ [d])); [done|done|]. by destruct d.
Qed.

Lemma cfg_to_hflat_read o l p : optional_setting drives_setting o l → drives p = [] →
  cfg_to_hflat o p tt = Ret (true, mk_Partition (cluster_version p) (partitionID p) l (logID p)) tt.
Proof.
  intros Ho Hp. destruct o as [s|]; cbn in Ho |- *; [|subst; by destruct p; cbn in Hp; subst].
  destruct (Ho) as [-> _]. by apply (cfg_to_hflat_loop_read s l []).
Qed.

(** The partition the code builds for the [i]-th list of drives. *)
Definition partition_of (logs : list KineticDrive) (i : nat) (ds : list KineticDrive) : Partition :=
  mk_Partition 0 (Some (Z.of_nat i)) ds
    (if (length ds =? 2)%nat && negb (length logs =? 0)%nat then Some (Z.of_nat i mod Z.of_nat (length logs)) else None).

Lemma number_partition_of i ds logp : 
  number_partition i logp (mk_Partition 0 None ds None) = partition_of (drives logp) i ds.
Proof.
  unfold partition_of, number_partition. cbn [cluster_version drives logID]. f_equal.
  destruct (Nat.eqb_spec (length ds) 2), (Z.eqb_spec (Z.of_nat (length ds)) 2),
    (Nat.eqb_spec (length (drives logp)) 0), (Z.eqb_spec (Z.of_nat (length (drives logp))) 0); (done || lia).
Qed.

Lemma clustermap_loop_read cmap logp l : ∀ pre acc, clustermap_setting cmap (pre ++ l) →
  clustermap_loop cmap logp (length l) (length pre) acc tt =
    Ret (true, acc ++ imap (λ i, partition_of (drives logp) (length pre + i)) l) tt.
Proof.
  induction l as [|ds l IH]; intros pre acc Hs; cbn [length clustermap_loop imap]; [by rewrite app_nil_r|].
  destruct (list_setting_at _ _ _ _ _ Hs) as (e & He & Hd). step_by He.
  step_by (cfg_to_hflat_read (Some e) ds new_Partition Hd eq_refl). cbn [fst snd new_Partition cluster_version partitionID logID].
  rewrite number_partition_of. replace (S (length pre)) with (length (pre ++ [ds])) by (rewrite length_app; cbn; lia).
  assert (E : pre ++ ds :: l = (pre ++ [ds]) ++ l) by (by rewrite <- app_assoc). rewrite E in Hs. rewrite (IH (pre ++ [ds])) by done. rewrite <- app_assoc. cbn [app].
  rewrite Nat.add_0_r. do 4 f_equal. apply imap_ext. intros i x _. cbn. f_equal. rewrite length_app. cbn. lia.
Qed.

(** C35: reading a configuration gives back the cluster it describes. The partitions
    are numbered in the order of the file, their drives come in the order of the
    file with host, port and status, log drives are dealt to the two-drive
    partitions in turn, and an option that is not set keeps its default. *)
Theorem parse_configuration_reads filename cfg logs dss :
  config_read_file filename = (true, cfg) →
  optional_setting drives_setting (config_lookup cfg (lit "log")) logs →
  optional_setting clustermap_setting (config_lookup cfg (lit "clustermap")) dss →
  parse_configuration filename default_configuration tt =
    Ret (true, parse_options (config_lookup cfg (lit "options"))
      (mk_configuration (imap (partition_of logs) dss) (mk_Partition 0 None logs None) 1000 1 FULL)) tt.
Proof.
  intros Hf Hlog Hmap. unfold parse_configuration. rewrite Hf. cbn [default_configuration cfg_logpartition cfg_clustermap].
  step_by (cfg_to_hflat_read _ logs new_Partition Hlog eq_refl). cbn [new_Partition cluster_version partitionID logID].
  destruct (config_lookup cfg (lit "clustermap")) as [cmap|]; cbn in Hmap.
  - destruct Hmap as [Hlen Hmap]. rewrite Hlen.
    step_by (clustermap_loop_read cmap (mk_Partition 0 None logs None) dss [] [] (conj Hlen Hmap)). done.
  - subst dss. by rewrite mbind_ret_l.
Qed.
End Read.

(** ** A concrete libconfig: the syntax tree of the file *)
Inductive tree :=
| TString (s : cstr)
| TInt (z : Z)
| TList (l : list tree)
| TGroup (l : list (cstr * tree)).

Fixpoint assoc (k : cstr) (l : list (cstr * tree)) : option tree :=
  match l with [] => None | (k', t) :: l => if bool_decide (k = k') then Some t else assoc k l end.

Definition member (t : tree) (k : cstr) : option tree := match t with TGroup l => assoc k l | _ => None end.

Definition demo_drive (host : cstr) (port : Z) (status : cstr) : tree :=
  TGroup [(lit "host", TString host); (lit "port", TInt port); (lit "status", TString status)].

(** The only file there is: two log drives, partitions of one and of two drives. *)
Definition demo_cfg : tree := TGroup
  [(lit "log", TList [demo_drive (lit "l") 1 (lit "GREEN"); demo_drive (lit "l") 2 (lit "RED")]);
   (lit "clustermap", TList [TList [demo_drive (lit "a") 1 (lit "GREEN")];
                             TList [demo_drive (lit "b") 1 (lit "GREEN"); demo_drive (lit "b") 2 (lit "YELLOW")]]);
   (lit "options", TGroup [(lit "cache_expiration", TInt 500)])].

Definition demo_libconfig : Libconfig tree tree := {|
  config_read_file := λ f, (bool_decide (f = lit "/etc/hflat.cfg"), demo_cfg);
  config_lookup := member;
  config_setting_length := λ t, match t with TList l => length l | _ => O end;
  config_setting_get_elem := λ t i, match t with TList l => l !! i | _ => None end;
  config_setting_lookup_string := λ t k, match member t k with Some (TString s) => Some s | _ => None end;
  config_setting_lookup_int := λ t k, match member t k with Some (TInt z) => Some z | _ => None end;
|}.

#[local] Existing Instance demo_libconfig.

#[local] Instance demo_libconfig_spec : LibconfigSpec tree tree.
Proof. intros [s|z|l|l] i; cbn; [lia|lia| |lia]. apply lookup_lt_is_Some_2. Qed.

Definition demo_logs : list KineticDrive := [mk_KineticDrive GREEN (lit "l") 1; mk_KineticDrive RED (lit "l") 2].
Definition demo_dss : list (list KineticDrive) :=
  [[mk_KineticDrive GREEN (lit "a") 1]; [mk_KineticDrive GREEN (lit "b") 1; mk_KineticDrive YELLOW (lit "b") 2]].

Lemma parse_configuration_reads_witness :
  parse_configuration (lit "/etc/hflat.cfg") default_configuration tt =
    Ret (true, mk_configuration
      [mk_Partition 0 (Some 0) [mk_KineticDrive GREEN (lit "a") 1] None;
       mk_Partition 0 (Some 1) [mk_KineticDrive GREEN (lit "b") 1; mk_KineticDrive YELLOW (lit "b") 2] (Some 1)]
      (mk_Partition 0 None demo_logs None) 500 1 FULL) tt.
Proof.
  etransitivity; [apply (parse_configuration_reads (lit "/etc/hflat.cfg") demo_cfg demo_logs demo_dss)|reflexivity].
  - reflexivity.
  - split; [reflexivity|]. intros [|[|i]] d; cbn; intros Hd; simplify_eq; (eexists; split; [reflexivity|]; by repeat split).
  - split; [reflexivity|]. intros [|[|i]] ds; cbn; intros Hds; simplify_eq; (eexists; split; [reflexivity|]);
      (split; [reflexivity|]); intros [|[|j]] d; cbn; intros Hd; simplify_eq; (eexists; split; [reflexivity|]; by repeat split).
Defined.

(** ** The command line *)

Definition plain_args (l : list cstr) : Prop := Forall (λ a, is_prefix (lit "-cfg=") a = false) l.

Lemma extract_plain n : ∀ pre l f, plain_args l → extract_cfg n (length pre) (pre ++ l) f = (pre ++ l, f).
Proof.
  induction n as [|n IH]; intros pre l f Hl; [done|]. cbn [extract_cfg]. destruct l as [|a l].
  - rewrite app_nil_r, lookup_ge_None_2 by lia. done.
  - rewrite list_lookup_middle by done. apply Forall_cons in Hl as [-> Hl].
    rewrite cons_middle, app_assoc. replace (S (length pre)) with (length (pre ++ [a])) by (rewrite length_app; cbn; lia).
    by apply IH.
Qed.

(** A command line with one "-cfg=" argument: [main] takes the file name from
    it and hands all other arguments, in order, to fuse. *)
Theorem main_extracts_cfg cwd pre file post : plain_args (pre ++ post) →
  hflat_main cwd (pre ++ (lit "-cfg=" ++ file) :: post) = (pre ++ post, absolute_filename cwd file).
Proof.
  intros [Hpre Hpost]%Forall_app. unfold hflat_main.
  enough (∀ n pre0 pre, plain_args pre → (length pre < n)%nat →
    extract_cfg n (length pre0) (pre0 ++ pre ++ (lit "-cfg=" ++ file) :: post) [] = (pre0 ++ pre ++ post, file)) as Hgo.
  { specialize (Hgo (length (pre ++ (lit "-cfg=" ++ file) :: post)) [] pre Hpre). cbn [length app] in Hgo.
    rewrite Hgo; [done|]. rewrite length_app. cbn. lia. }
  clear pre Hpre. intros n. induction n as [|n IH]; intros pre0 pre Hpre Hn; [lia|]. cbn [extract_cfg].
  destruct pre as [|a pre]; cbn [app].
  - rewrite list_lookup_middle by done. cbn [is_prefix lit app]. rewrite take_app_length, cons_middle, app_assoc, drop_app_length'
      by (rewrite length_app; cbn; lia).
    destruct post as [|b post].
    + rewrite !app_nil_r. destruct n; [done|]. cbn [extract_cfg]. by rewrite lookup_ge_None_2 by lia.
    + rewrite (cons_middle b), app_assoc. replace (S (length pre0)) with (length (pre0 ++ [b])) by (rewrite length_app; cbn; lia).
      apply Forall_cons in Hpost as [_ Hpost]. by rewrite extract_plain.
  - rewrite list_lookup_middle by done. apply Forall_cons in Hpre as [-> Hpre].
    rewrite cons_middle, app_assoc. replace (S (length pre0)) with (length (pre0 ++ [a])) by (rewrite length_app; cbn; lia).
    rewrite IH; [by rewrite <- app_assoc|done|cbn in Hn; lia].
Qed.

Lemma main_extracts_cfg_witness :
  hflat_main (lit "/root") [lit "hflat"; lit "-cfg=" ++ lit "a.cfg"; lit "/mnt"] = ([lit "hflat"; lit "/mnt"], lit "/root/a.cfg").
Proof. apply (main_extracts_cfg (lit "/root") [lit "hflat"] (lit "a.cfg") [lit "/mnt"]). by repeat constructor. Defined.

(** The argument behind one that was taken is not looked at: the second of two in a
    row goes to fuse. *)
Example main_skips_second_cfg :
  hflat_main (lit "/") [lit "hflat"; lit "-cfg=/a"; lit "-cfg=/b"] = ([lit "hflat"; lit "-cfg=/b"], lit "/a").
Proof. reflexivity. Qed.

Lemma parse_configuration_wf_witness : ∃ ok c,
  parse_configuration (lit "/etc/hflat.cfg") default_configuration tt = Ret (ok, c) tt ∧
  numbered_all (length (drives (cfg_logpartition c))) (cfg_clustermap c) ∧
  (∀ i p l, cfg_clustermap c !! i = Some p → logID p = Some l → 0 <= l < Z.of_nat (length (drives (cfg_logpartition c)))).
Proof. apply (parse_configuration_wf (lit "/etc/hflat.cfg")). Defined.
