(* ===== verification/Demo.v ===== *)
(** * A concrete environment

    Serialisers for the three messages, counters for the clocks and the unique
    names, and a mounted file system over the in-memory drive of {!Kinetic}. They
    show that the classes {!Env}, {!Message} and {!MessageSpec} have instances and
    let the definitions run; no theorem about the program depends on them. *)
From S2P Require Import Prelude CppString Proto PathMapDB LRUCache DataInfo MetadataInfo Kinetic FsState.

(** ** Sequences of length-prefixed fields *)

Definition one : ascii := "1"%char.
Definition zero_ : ascii := "0"%char.

Definition put_field (x : cstr) : cstr := replicate (length x) one ++ zero_ :: x.

Fixpoint put_fields (xs : list cstr) : cstr :=
  match xs with [] => [] | x :: xs => put_field x ++ put_fields xs end.

(** The unary length, and the rest. *)
Fixpoint get_length (s : cstr) (n : nat) : option (nat * cstr) :=
  match s with
  | [] => None
  | a :: s => if bool_decide (a = one) then get_length s (S n) else Some (n, s)
  end.

Fixpoint get_fields (fuel : nat) (s : cstr) : option (list cstr) :=
  match fuel, s with
  | _, [] => Some []
  | O, _ => None
  | S f, _ =>
    '(n, s) ← get_length s 0;
    xs ← get_fields f (drop n s);
    Some (take n s :: xs)
  end.

Lemma get_length_put n x acc : get_length (replicate n one ++ zero_ :: x) acc = Some ((acc + n)%nat, x).
Proof.
  revert acc. induction n as [|n IH]; intros acc; cbn.
  - by rewrite Nat.add_0_r.
  - rewrite IH. do 2 f_equal. lia.
Qed.

Lemma put_field_not_nil x s : ∃ a t, put_field x ++ s = a :: t.
Proof. unfold put_field. destruct x; cbn; eauto. Qed.

Lemma get_fields_put xs n : (length xs <= n)%nat → get_fields n (put_fields xs) = Some xs.
Proof.
  revert n. induction xs as [|x xs IH]; intros n Hn; [by destruct n|]. destruct n as [|n]; [cbn in Hn; lia|].
  cbn [put_fields get_fields].
  assert (Hl : get_length (put_field x ++ put_fields xs) 0 = Some (length x, x ++ put_fields xs)).
  { unfold put_field. rewrite <- app_assoc. cbn. by rewrite get_length_put. }
  destruct (put_field_not_nil x (put_fields xs)) as (a & t & E). rewrite E in *. rewrite Hl. cbn.
  rewrite drop_app_length, take_app_length. rewrite IH; [done|]. cbn in Hn. lia.
Qed.

(** Enough fuel for any sequence of fields. *)
Definition parse_fields (s : cstr) : option (list cstr) := get_fields (length s) s.

Lemma parse_put xs : parse_fields (put_fields xs) = Some xs.
Proof.
  apply get_fields_put. induction xs as [|x xs IH]; [done|]. cbn [put_fields length].
  unfold put_field. rewrite !length_app. cbn. lia.
Qed.

(** ** The messages *)

Definition entry_type_code (t : db_entry_Type) : Z :=
  match t with
  | db_entry_Type_MOVE => -1 | db_entry_Type_SYMLINK => -2 | db_entry_Type_NONE => -3
  | db_entry_Type_REMOVED => -4 | db_entry_Type_INVALID n => n
  end.

Definition entry_type_of (z : Z) : db_entry_Type :=
  if z =? -1 then db_entry_Type_MOVE else if z =? -2 then db_entry_Type_SYMLINK
  else if z =? -3 then db_entry_Type_NONE else if z =? -4 then db_entry_Type_REMOVED
  else db_entry_Type_INVALID z.

#[local] Instance demo_db_entry : Message db_entry := {|
  SerializeAsString e := put_fields [de_origin e; to_string (entry_type_code (de_type e)); de_target e];
  ParseFromString s :=
    match parse_fields s with
    | Some [o; t; g] => t ← stoll t; Some (mk_db_entry o (entry_type_of t) g)
    | _ => None
    end
|}.

Definition entry_wf (e : db_entry) : Prop :=
  match de_type e with db_entry_Type_INVALID _ => False | _ => True end.

#[local] Instance demo_db_entry_spec : MessageSpec db_entry.
Proof.
  exists entry_wf.
  intros [o t g] Ht. cbn [SerializeAsString ParseFromString demo_db_entry]. rewrite parse_put.
  rewrite stoll_to_string by (by destruct t). by destruct t.
Defined.

Definition mapping_code (t : MappingType) : Z :=
  match t with MOVE => 1 | SYMLINK => 2 | NONE => 3 | REUSE => 4 | UNSET => 0 end.
Definition mapping_of (z : Z) : MappingType :=
  if z =? 1 then MOVE else if z =? 2 then SYMLINK else if z =? 3 then NONE else if z =? 4 then REUSE else UNSET.

Fixpoint snapshot_fields (es : list db_snapshot_entry) : list cstr :=
  match es with
  | [] => []
  | e :: es => se_origin e :: to_string (mapping_code (se_type e)) :: default [] (se_target e)
               :: to_string (se_permissiontimestamp e) :: snapshot_fields es
  end.

Fixpoint snapshot_of (xs : list cstr) : option (list db_snapshot_entry) :=
  match xs with
  | [] => Some []
  | o :: t :: g :: p :: xs =>
    t ← stoll t; p ← stoll p; es ← snapshot_of xs;
    Some (mk_db_snapshot_entry o (mapping_of t) (Some g) p :: es)
  | _ => None
  end.

#[local] Instance demo_db_snapshot : Message db_snapshot := {|
  SerializeAsString s := put_fields (to_string (snapshot_version s) :: snapshot_fields (snapshot_entries s));
  ParseFromString s :=
    match parse_fields s with
    | Some (v :: xs) => v ← stoll v; es ← snapshot_of xs; Some (mk_db_snapshot v es)
    | _ => None
    end
|}.

Definition snapshot_entry_wf (e : db_snapshot_entry) : Prop := is_int64 (se_permissiontimestamp e) ∧ is_Some (se_target e).

Lemma snapshot_of_fields es : Forall snapshot_entry_wf es → snapshot_of (snapshot_fields es) = Some es.
Proof.
  induction 1 as [|[o t g p] es [Hp [x Hx]] _ IH]; [done|]. cbn [se_permissiontimestamp se_target] in Hp, Hx. subst g. cbn.
  rewrite !stoll_to_string by (by destruct t). cbn. rewrite IH. by destruct t.
Qed.

#[local] Instance demo_db_snapshot_spec : MessageSpec db_snapshot.
Proof.
  exists (λ s, is_int64 (snapshot_version s) ∧ Forall snapshot_entry_wf (snapshot_entries s)).
  intros [v es] [Hv Hes]. cbn [SerializeAsString ParseFromString demo_db_snapshot]. rewrite parse_put.
  cbn in Hv, Hes |- *. rewrite stoll_to_string by done. cbn. by rewrite snapshot_of_fields.
Defined.

Definition inode_type_code (t : InodeType) : Z :=
  match t with POSIX => 0 | HARDLINK_T => 1 | HARDLINK_S => 2 | FORCE_UPDATE => 3 end.
Definition inode_type_of (z : Z) : InodeType :=
  if z =? 1 then HARDLINK_T else if z =? 2 then HARDLINK_S else if z =? 3 then FORCE_UPDATE else POSIX.

Definition reach_code (t : ReachabilityType) : Z :=
  match t with UID => 0 | GID => 1 | UID_OR_GID => 2 | NOT_UID => 3 | NOT_GID => 4 | GID_REQ_UID => 5 end.
Definition reach_of (z : Z) : ReachabilityType :=
  if z =? 1 then GID else if z =? 2 then UID_OR_GID else if z =? 3 then NOT_UID
  else if z =? 4 then NOT_GID else if z =? 5 then GID_REQ_UID else UID.

Fixpoint reach_fields (l : list ReachabilityEntry) : list cstr :=
  match l with
  | [] => []
  | e :: l => to_string (reach_code (re_type e)) :: to_string (re_gid e) :: to_string (re_uid e) :: reach_fields l
  end.

Fixpoint reach_list (xs : list cstr) : option (list ReachabilityEntry) :=
  match xs with
  | [] => Some []
  | t :: g :: u :: xs =>
    t ← stoll t; g ← stoll g; u ← stoll u; l ← reach_list xs; Some (mk_ReachabilityEntry (reach_of t) g u :: l)
  | _ => None
  end.

Fixpoint xattr_fields (l : list ExtendedAttribute) : list cstr :=
  match l with [] => [] | x :: l => xa_name x :: xa_value x :: xattr_fields l end.

Fixpoint xattr_list (xs : list cstr) : option (list ExtendedAttribute) :=
  match xs with
  | [] => Some []
  | n :: v :: xs => l ← xattr_list xs; Some (mk_ExtendedAttribute n v :: l)
  | _ => None
  end.

#[local] Instance demo_metadata : Message Metadata := {|
  SerializeAsString m :=
    put_fields (map to_string
      [inode_type_code (md_type m); md_atime m; md_mtime m; md_ctime m; md_uid m; md_gid m; md_mode m;
       md_inode_number m; md_link_count m; md_size m; md_blocks m; md_path_permission_verified m]
      ++ map put_fields [xattr_fields (md_xattr m); reach_fields (md_path_permission m);
                         reach_fields (md_path_permission_children m)]);
  ParseFromString s :=
    match parse_fields s with
    | Some [t; a; mt; c; u; g; mo; i; lc; sz; b; v; x; p; pc] =>
      t ← stoll t; a ← stoll a; mt ← stoll mt; c ← stoll c; u ← stoll u; g ← stoll g; mo ← stoll mo;
      i ← stoll i; lc ← stoll lc; sz ← stoll sz; b ← stoll b; v ← stoll v;
      x ← parse_fields x ≫= xattr_list; p ← parse_fields p ≫= reach_list; pc ← parse_fields pc ≫= reach_list;
      Some (mk_Metadata (inode_type_of t) a mt c u g mo i lc sz b x v p pc)
    | _ => None
    end
|}.

(** ** The environment, and a fresh mount over a drive *)

#[local] Instance demo_env : Env := {|
  env_uuid n := lit "u" ++ to_string (Z.of_nat n);
  env_steady n := Z.of_nat n;
  env_time n := 1000 + Z.of_nat n;
  env_iter := map_to_list;
|}.

Definition demo_mount (d : store) : hflat_priv store :=
  mk_hflat_priv d (LRU_new 0 1000) (LRU_new 0 500) PathMapDB_new 1048576 TIMERELAXED 0 0 ∅ ∅ 1 0 0 0
    (mk_fuse_context 0 0).

(** The root directory as [main] creates it. *)
Definition demo_root : Metadata :=
  mk_Metadata POSIX 0 0 0 0 0 (Z.lor S_IFDIR 511) 1 1 0 0 [] 0 [] [].

Definition demo_drive : store :=
  {[ lit "/" := mk_KineticRecord (SerializeAsString demo_root) (lit "r0") ]}.

(** The value a run returns, and the state it ends in. *)
Definition result_of {S A} (o : outcome S A) : option A := match o with Ret a _ => Some a | _ => None end.
Definition state_after {S A} (o : outcome S A) (s : S) : S := match o with Ret _ s' => s' | _ => s end.

Lemma result_of_Ret {S A} (o : outcome S A) a s : result_of o = Some a → o = Ret a (state_after o s).
Proof. destruct o; cbn; congruence. Qed.

(** A client holding one metadata object (at location 1) or one data block (at
    location 2), with empty caches. *)
Definition demo_client (d : store) (m : MetadataInfo) (b : DataInfo) : hflat_priv store :=
  set_heap {[1%nat := m]} {[2%nat := b]} 3 (demo_mount d).

Definition demo_file : Metadata :=
  mk_Metadata POSIX 5 5 5 0 0 (Z.lor S_IFREG 420) 7 1 0 0 [] 0 [] [].

(** The same file with six bytes. *)
Definition demo_six : Metadata := set_size 6 demo_file.

(** The file [/f] with version [r1], its data block [7_0] with version [b1]. *)
Definition demo_files : store :=
  <[ lit "/f" := mk_KineticRecord (SerializeAsString demo_file) (lit "r1") ]>
  (<[ lit "7_0" := mk_KineticRecord (lit "ABCDEF") (lit "b1") ]> demo_drive).

(** [/f] as read at version [v], and its block with one pending write. *)
Definition demo_md (v : cstr) : MetadataInfo := mk_MetadataInfo (lit "/f") v demo_file None.
Definition demo_block (v : cstr) : DataInfo := mk_DataInfo (lit "7_0") v (lit "axyd") [(1, 2)].
