(* ===== verification/Drives.v ===== *)
(** * The drives of a cluster, as the distributed namespace calls them

    Connections to many drives, the cluster versions of the kinetic protocol, the
    hash function, the random numbers and the floating point operations are not
    code of the repository: they are the classes {!KineticDrives} and
    {!DistEnv}. {!DrivesSpec} has the documented behaviour of the protocol: a
    request reaches the store of a drive if the drive is online and the client
    carries the cluster version of the drive; otherwise it fails and changes
    nothing. {!Cluster} is a concrete cluster that behaves so. *)
From S2P Require Import Prelude CppString Proto Kinetic.

(** The key of a drive in the connection map: host and port
    ([equal_to<hflat::KineticDrive>]). *)
Abbreviation addr := (list ascii * Z)%type.
Definition drive_key (d : KineticDrive) : addr := (kd_host d, kd_port d).

(** ** What the client library offers beyond the calls of one connection *)
Class KineticDrives (W C : Type) := {
  (** [NewThreadsafeBlockingConnection]; [None] for a status that is not ok. *)
  NewConnection : cstr → Z → W → option C * W;
  connection : C → KineticConnection W;
  SetClientClusterVersion : C → Z → W → W;
  SetClusterVersion : C → Z → W → StatusCode * W;
  (** [expected_cluster_version()] of the status of the last call on [C]. *)
  expected_cluster_version : C → W → Z;
}.

(** ** The environment of the distributed namespace. [Fl] is [float]. *)
Class DistEnv (W C Fl : Type) := {
  env_drives :: KineticDrives W C;
  env_partition :: Message Partition;
  (** What a failed [ParseFromString] leaves in the message. *)
  partial_parse : cstr → Partition;
  std_hash : cstr → Z;
  (** [uniform_int_distribution<int>(0, hi)] on the [n]-th use of the engine. *)
  uniform_int : nat → Z → Z;
  (** [GetLog(CAPACITIES)]: nominal capacity and portion full. *)
  GetLog_capacity : C → W → (StatusCode * (Z * Fl)) * W;
  float_of : Z → Fl;
  float_add : Fl → Fl → Fl;
  float_sub : Fl → Fl → Fl;
  float_div : Fl → Fl → Fl;
}.

(** ** Documented behaviour *)

(** The codes of an unreachable drive: none of those the protocol gives a
    meaning to. *)
Definition io_error (st : StatusCode) : bool :=
  match st with
  | OK | REMOTE_NOT_FOUND | REMOTE_VERSION_MISMATCH | REMOTE_CLUSTER_VERSION_MISMATCH
  | REMOTE_NOT_AUTHORIZED => false
  | _ => true
  end.

Record observers (W C : Type) := mk_observers {
  addr_of : C → addr;
  drive_store : addr → W → store;
  drive_version : addr → W → Z;
  drive_online : addr → W → bool;
  client_version : C → W → Z;
}.
Arguments addr_of {W C}.
Arguments drive_store {W C}.
Arguments drive_version {W C}.
Arguments drive_online {W C}.
Arguments client_version {W C}.
Arguments mk_observers {W C}.

Section Laws.
Context {W C : Type} (o : observers W C).

(** Nothing but the store of drive [a] changed, and that to [s]. *)
Record only_store (a : addr) (s : store) (w w' : W) : Prop := {
  os_store b : drive_store o b w' = if decide (b = a) then s else drive_store o b w;
  os_version b : drive_version o b w' = drive_version o b w;
  os_online b : drive_online o b w' = drive_online o b w;
  os_client c : client_version o c w' = client_version o c w;
}.

Record unchanged (w w' : W) : Prop := {
  un_store b : drive_store o b w' = drive_store o b w;
  un_version b : drive_version o b w' = drive_version o b w;
  un_online b : drive_online o b w' = drive_online o b w;
  un_client c : client_version o c w' = client_version o c w;
}.

(** A request on connection [c]: refused by an offline drive and by one with
    another cluster version; otherwise [reached]. *)
Definition request (drives : KineticDrives W C) (c : C) (w : W) (st : StatusCode) (w' : W) (reached : Prop) : Prop :=
  if negb (drive_online o (addr_of o c) w) then io_error st = true ∧ unchanged w w'
  else if decide (client_version o c w = drive_version o (addr_of o c) w) then reached
  else st = REMOTE_CLUSTER_VERSION_MISMATCH ∧ unchanged w w' ∧
       expected_cluster_version c w' = drive_version o (addr_of o c) w.
End Laws.

Class DrivesSpec (W C : Type) `{KineticDrives W C} := {
  obs : observers W C;
  law_connect h p w r w' : NewConnection h p w = (r, w') →
    (drive_online obs (h, p) w = false → r = None ∧ unchanged obs w w') ∧
    (drive_online obs (h, p) w = true → ∃ c, r = Some c ∧ addr_of obs c = (h, p) ∧ client_version obs c w' = 0 ∧
      (∀ b, drive_store obs b w' = drive_store obs b w) ∧
      (∀ b, drive_version obs b w' = drive_version obs b w) ∧
      (∀ b, drive_online obs b w' = drive_online obs b w) ∧
      (∀ c', c' ≠ c → client_version obs c' w' = client_version obs c' w));
  law_Get c k w st r w' : @con_Get _ (connection c) k w = (st, r, w') →
    request obs _ c w st w' ((st, r) = (drive_Get k (drive_store obs (addr_of obs c) w)).1 ∧ unchanged obs w w');
  law_GetVersion c k w st r w' : @con_GetVersion _ (connection c) k w = (st, r, w') →
    request obs _ c w st w' ((st, r) = (drive_GetVersion k (drive_store obs (addr_of obs c) w)).1 ∧ unchanged obs w w');
  (** Out parameters are assigned by a successful call only. *)
  law_Get_out c k w st r w' : @con_Get _ (connection c) k w = (st, r, w') → st ≠ OK → r = None;
  law_GetVersion_out c k w st r w' : @con_GetVersion _ (connection c) k w = (st, r, w') → st ≠ OK → r = None;
  law_GetKeyRange c s i e j rv n w st r w' : @con_GetKeyRange _ (connection c) s i e j rv n w = (st, r, w') →
    request obs _ c w st w'
      ((st, r) = (drive_GetKeyRange s i e j rv n (drive_store obs (addr_of obs c) w)).1 ∧ unchanged obs w w');
  law_Put c k v m x w st w' : @con_Put _ (connection c) k v m x w = (st, w') →
    let '(st', s') := drive_Put k v m x (drive_store obs (addr_of obs c) w) in
    request obs _ c w st w' (st = st' ∧ only_store obs (addr_of obs c) s' w w');
  law_Delete c k v m w st w' : @con_Delete _ (connection c) k v m w = (st, w') →
    let '(st', s') := drive_Delete k v m (drive_store obs (addr_of obs c) w) in
    request obs _ c w st w' (st = st' ∧ only_store obs (addr_of obs c) s' w w');
  law_NoOp c w st w' : @con_NoOp _ (connection c) w = (st, w') →
    request obs _ c w st w' (st = OK ∧ unchanged obs w w');
  law_SetClusterVersion c v w st w' : SetClusterVersion c v w = (st, w') →
    request obs _ c w st w' (st = OK ∧
      (∀ b, drive_store obs b w' = drive_store obs b w) ∧
      (∀ b, drive_version obs b w' = if decide (b = addr_of obs c) then v else drive_version obs b w) ∧
      (∀ b, drive_online obs b w' = drive_online obs b w) ∧
      (∀ c', client_version obs c' w' = client_version obs c' w));
  law_SetClient c v w :
    (∀ b, drive_store obs b (SetClientClusterVersion c v w) = drive_store obs b w) ∧
    (∀ b, drive_version obs b (SetClientClusterVersion c v w) = drive_version obs b w) ∧
    (∀ b, drive_online obs b (SetClientClusterVersion c v w) = drive_online obs b w) ∧
    client_version obs c (SetClientClusterVersion c v w) = v ∧
    (∀ c', c' ≠ c → client_version obs c' (SetClientClusterVersion c v w) = client_version obs c' w);
}.

(** Laws of the rest of the environment. *)
Class DistEnvSpec (W C Fl : Type) `{DistEnv W C Fl} := {
  std_hash_range s : 0 <= std_hash s < u64_mod;
  uniform_range n hi : 0 <= hi → 0 <= uniform_int n hi <= hi;
}.

(** The generator is fair: every value of the range comes again and again. *)
Class FairDraws (W C Fl : Type) `{DistEnv W C Fl} :=
  uniform_fair n hi j : 0 <= j <= hi → ∃ m, (n <= m)%nat ∧ uniform_int m hi = j.
