(* ===== verification/Distributed.v ===== *)
(** * DistributedKineticNamespace

    Model of src/namespace/distributed_kinetic_namespace.h and .cc: a namespace
    spread over partitions, each replicated on several drives whose state (GREEN,
    YELLOW, RED) all clients share through records on the drives themselves.

    References to partitions are {!pref}: an element of [cluster_map], the
    [log_partition], or the local copy that [GetKeyRange] works on. The lambdas
    given to [std::async] run where they are started, in the order of the drives;
    a detached synchronisation thread is queued and run by {!run_detached}.
    Locks are not modelled (one thread), output is not. *)
From S2P Require Import Prelude CppString Proto Kinetic Drives.

Inductive pref := PMap (i : nat) | PLog | PLocal.

#[export] Instance pref_eq_dec : EqDecision pref.
Proof. solve_decision. Defined.

(** The members of the class; [draws] counts the uses of [random_generator]. *)
Record DistributedKineticNamespace (W C Fl : Type) := mk_DKN {
  world : W;
  log_partition : Partition;
  cluster_map : list Partition;
  connection_map : gmap addr C;
  direntry_clustersize : Z;
  draws : nat;
  local_partition : Partition;
  detached : list (pref * nat);
  capacity_nominal : Z;
  portion_full : Fl;
  capacity_chunksize : Fl;
}.
Arguments mk_DKN {W C Fl}.
Arguments world {W C Fl}.
Arguments log_partition {W C Fl}.
Arguments cluster_map {W C Fl}.
Arguments connection_map {W C Fl}.
Arguments direntry_clustersize {W C Fl}.
Arguments draws {W C Fl}.
Arguments local_partition {W C Fl}.
Arguments detached {W C Fl}.
Arguments capacity_nominal {W C Fl}.
Arguments portion_full {W C Fl}.
Arguments capacity_chunksize {W C Fl}.

Definition cv_base_name : cstr := lit "clusterversion_".
Definition logkey_prefix : cstr := lit "log_".

(** ** Setters of the messages *)
Definition set_cluster_version (v : Z) (p : Partition) : Partition :=
  mk_Partition (wrap64 v) (partitionID p) (drives p) (logID p).
Definition set_logid (l : option Z) (p : Partition) : Partition :=
  mk_Partition (cluster_version p) (partitionID p) (drives p) l.
Definition set_drive_status (i : nat) (s : DriveStatus) (p : Partition) : Partition :=
  mk_Partition (cluster_version p) (partitionID p)
    (alter (λ d, mk_KineticDrive s (kd_host d) (kd_port d)) i (drives p)) (logID p).
Definition partitionid (p : Partition) : Z := default 0 (partitionID p).
Definition has_logid (p : Partition) : bool := bool_decide (is_Some (logID p)).
Definition has_partitionid (p : Partition) : bool := bool_decide (is_Some (partitionID p)).

Definition is_green (d : KineticDrive) : bool := bool_decide (kd_status d = GREEN).
Definition is_yellow (d : KineticDrive) : bool := bool_decide (kd_status d = YELLOW).
Definition is_red (d : KineticDrive) : bool := bool_decide (kd_status d = RED).

(** [while(p.drives(index).status() != GREEN) index++] *)
Fixpoint first_green (ds : list KineticDrive) : option nat :=
  match ds with
  | [] => None
  | d :: ds => if is_green d then Some O else S <$> first_green ds
  end.

Section Namespace.
Context {W C Fl : Type} `{DistEnv W C Fl}.
Abbreviation DKN := (DistributedKineticNamespace W C Fl).

(** ** Access to the members *)

Definition with_world (w : W) (d : DKN) : DKN :=
  mk_DKN w (log_partition d) (cluster_map d) (connection_map d) (direntry_clustersize d) (draws d)
    (local_partition d) (detached d) (capacity_nominal d) (portion_full d) (capacity_chunksize d).
Definition with_log_partition (p : Partition) (d : DKN) : DKN :=
  mk_DKN (world d) p (cluster_map d) (connection_map d) (direntry_clustersize d) (draws d)
    (local_partition d) (detached d) (capacity_nominal d) (portion_full d) (capacity_chunksize d).
Definition with_cluster_map (m : list Partition) (d : DKN) : DKN :=
  mk_DKN (world d) (log_partition d) m (connection_map d) (direntry_clustersize d) (draws d)
    (local_partition d) (detached d) (capacity_nominal d) (portion_full d) (capacity_chunksize d).
Definition with_connection_map (m : gmap addr C) (d : DKN) : DKN :=
  mk_DKN (world d) (log_partition d) (cluster_map d) m (direntry_clustersize d) (draws d)
    (local_partition d) (detached d) (capacity_nominal d) (portion_full d) (capacity_chunksize d).
Definition with_draws (n : nat) (d : DKN) : DKN :=
  mk_DKN (world d) (log_partition d) (cluster_map d) (connection_map d) (direntry_clustersize d) n
    (local_partition d) (detached d) (capacity_nominal d) (portion_full d) (capacity_chunksize d).
Definition with_local_partition (p : Partition) (d : DKN) : DKN :=
  mk_DKN (world d) (log_partition d) (cluster_map d) (connection_map d) (direntry_clustersize d) (draws d)
    p (detached d) (capacity_nominal d) (portion_full d) (capacity_chunksize d).
Definition with_detached (l : list (pref * nat)) (d : DKN) : DKN :=
  mk_DKN (world d) (log_partition d) (cluster_map d) (connection_map d) (direntry_clustersize d) (draws d)
    (local_partition d) l (capacity_nominal d) (portion_full d) (capacity_chunksize d).
Definition with_capacity (n : Z) (full chunk : Fl) (d : DKN) : DKN :=
  mk_DKN (world d) (log_partition d) (cluster_map d) (connection_map d) (direntry_clustersize d) (draws d)
    (local_partition d) (detached d) n full chunk.

(** A call of the client library. *)
Definition call {A} (f : W → A * W) : M DKN A := λ d, let '(a, w) := f (world d) in Ret a (with_world w d).

(** Reading and writing through a partition reference. *)
Definition at_ (p : pref) (d : DKN) : option Partition :=
  match p with
  | PMap i => cluster_map d !! i
  | PLog => Some (log_partition d)
  | PLocal => Some (local_partition d)
  end.
Definition read_p (p : pref) : M DKN Partition := λ d,
  match at_ p d with Some x => Ret x d | None => Undef d end.
Definition write_p (p : pref) (x : Partition) : M DKN unit :=
  modify_ (match p with
           | PMap i => λ d, with_cluster_map (<[i := x]> (cluster_map d)) d
           | PLog => with_log_partition x
           | PLocal => with_local_partition x
           end).
Definition update_p (p : pref) (f : Partition → Partition) : M DKN unit :=
  let! x := read_p p in write_p p (f x).

(** [p.drives(i)]: out of range is undefined. *)
Definition drive_at (p : Partition) (i : nat) : M DKN KineticDrive :=
  match drives p !! i with Some d => mret_ d | None => undef_ end.
(** An [int] used as an index. *)
Definition as_index (z : Z) : M DKN nat := if z <? 0 then undef_ else mret_ (Z.to_nat z).
(** [con->...] through a null pointer is undefined. *)
Definition nonnull (c : option C) : M DKN C := match c with Some c => mret_ c | None => undef_ end.

(** [do { index = dist(random_generator); } while(!pred(p.drives(index)));] *)
Fixpoint draw_until (fuel : nat) (p : Partition) (pred : KineticDrive → bool) : M DKN nat :=
  match fuel with
  | O => nofuel_
  | S f =>
    if bool_decide (drives p = []) then undef_ else
    let! n := gets_ draws in
    modify_ (with_draws (S n)) ;;;
    let! index := as_index (uniform_int n (Z.of_nat (length (drives p)) - 1)) in
    let! d := drive_at p index in
    if pred d then mret_ index else draw_until f p pred
  end.

(** ** keyToPartition *)
Definition keyToPartition (key : cstr) : M DKN pref :=
  let dirslash := find_first_of (lit "|") key 0 in
  let keyhash := std_hash (substr key 0 dirslash) in
  let! cs := gets_ direntry_clustersize in
  let! n := gets_ (λ d, length (cluster_map d)) in
  let! keyhash :=
    if negb (dirslash =? npos) && negb (dirslash =? wrap64 (size_ key - 1)) then
      if cs =? 0 then undef_ else mret_ (wrap64 (keyhash + std_hash key mod wrap64 cs))
    else mret_ keyhash in
  if (n =? 0)%nat then undef_ else mret_ (PMap (Z.to_nat (keyhash mod Z.of_nat n))).

(** ** Connections *)
Definition driveToConnection (p : Partition) (driveID : nat) : M DKN (option C) :=
  let! d := drive_at p driveID in
  let! m := gets_ connection_map in
  match m !! drive_key d with
  | Some c => mret_ (Some c)
  | None =>
    let! bcon := call (NewConnection (kd_host d) (kd_port d)) in
    match bcon with
    | None => mret_ None
    | Some c =>
      (if negb (cluster_version p =? 0)
       then call (λ w, (tt, SetClientClusterVersion c (to_i64 (cluster_version p)) w)) else mret_ tt) ;;;
      modify_ (λ s, with_connection_map (<[drive_key d := c]> (connection_map s)) s) ;;;
      mret_ (Some c)
    end
  end.

Definition testConnection (p : Partition) (driveID : nat) : M DKN bool :=
  let! con := driveToConnection p driveID in
  match con with
  | None => mret_ false
  | Some c => let! st := call (@con_NoOp _ (connection c)) in mret_ (is_ok st)
  end.

(** ** testPartition *)
Fixpoint testPartition_loop (p : Partition) (i n : nat) (green yellow : Z) : M DKN (option (Z * Z)) :=
  match n with
  | O => mret_ (Some (green, yellow))
  | S n =>
    let! d := drive_at p i in
    if is_red d then testPartition_loop p (S i) n green yellow else
    let green := if is_green d then green + 1 else green in
    let yellow := if is_yellow d then yellow + 1 else yellow in
    let! ok := testConnection p i in
    if negb ok then mret_ None else testPartition_loop p (S i) n green yellow
  end.

Definition testPartition (p : Partition) : M DKN bool :=
  if negb (has_partitionid p) then mret_ true else
  let! counts := testPartition_loop p 0 (length (drives p)) 0 0 in
  match counts with
  | None => mret_ false
  | Some (green, yellow) =>
    let! logok := match logID p with
                  | Some l => let! lp := gets_ log_partition in
                              let! l := as_index l in testConnection lp l
                  | None => mret_ true
                  end in
    if negb logok then mret_ false
    else if green =? 0 then mret_ false
    else if (green + yellow =? 1) && (1 <? Z.of_nat (length (drives p))) && negb (has_logid p) then mret_ false
    else mret_ true
  end.

(** ** Shared partition state: records [clusterversion_<n>] on the drives *)

(** The [while] on cluster version mismatches in getPartitionUpdate. *)
Fixpoint follow_cluster_version (fuel : nat) (c : C) (st : StatusCode) (record : option KineticRecord)
    : M DKN (StatusCode * option KineticRecord) :=
  match fuel with
  | O => nofuel_
  | S f =>
    if bool_decide (st = REMOTE_CLUSTER_VERSION_MISMATCH) then
      let! cversion := gets_ (λ d, expected_cluster_version c (world d)) in
      call (λ w, (tt, SetClientClusterVersion c cversion w)) ;;;
      let! r := call (@con_Get _ (connection c) (cv_base_name ++ to_string cversion)) in
      follow_cluster_version f c r.1 (match r.2 with Some x => Some x | None => record end)
    else mret_ (st, record)
  end.

Fixpoint getPartitionUpdate_loop (fuel : nat) (pr : pref) (i n : nat) : M DKN bool :=
  match n with
  | O => mret_ false
  | S n =>
    let! p := read_p pr in
    let! d := drive_at p i in
    if is_red d then getPartitionUpdate_loop fuel pr (S i) n else
    let! con := driveToConnection p i in
    match con with
    | None => getPartitionUpdate_loop fuel pr (S i) n
    | Some c =>
      let! st := call (@con_NoOp _ (connection c)) in
      let! r := follow_cluster_version fuel c st None in
      let! expected := gets_ (λ d, expected_cluster_version c (world d)) in
      if negb (expected =? 0) then
        if is_ok r.1 then
          match r.2 with
          | None => undef_
          | Some record =>
            write_p pr (match ParseFromString (kr_value record) with
                        | Some q => q
                        | None => partial_parse (kr_value record)
                        end) ;;;
            mret_ true
          end
        else getPartitionUpdate_loop fuel pr (S i) n
      else getPartitionUpdate_loop fuel pr (S i) n
    end
  end.

Definition getPartitionUpdate (fuel : nat) (pr : pref) : M DKN bool :=
  let! p := read_p pr in
  if negb (has_partitionid p) then mret_ false
  else getPartitionUpdate_loop fuel pr 0 (length (drives p)).

Fixpoint putPartitionUpdate_loop (p : Partition) (key : cstr) (record : KineticRecord) (i n : nat) : M DKN bool :=
  match n with
  | O => mret_ true
  | S n =>
    let! d := drive_at p i in
    if is_red d then putPartitionUpdate_loop p key record (S i) n else
    let! con := driveToConnection p i in
    match con with
    | None => mret_ false
    | Some c =>
      let! st := call (@con_Put _ (connection c) key [] REQUIRE_SAME_VERSION record) in
      if negb (is_ok st) then mret_ false else
      call (SetClusterVersion c (to_i64 (cluster_version p))) ;;;
      call (λ w, (tt, SetClientClusterVersion c (to_i64 (cluster_version p)) w)) ;;;
      putPartitionUpdate_loop p key record (S i) n
    end
  end.

Definition putPartitionUpdate (p : Partition) : M DKN bool :=
  if negb (has_partitionid p) then mret_ true else
  let key := cv_base_name ++ to_string (cluster_version p) in
  let record := mk_KineticRecord (SerializeAsString p) (lit "yes") in
  putPartitionUpdate_loop p key record 0 (length (drives p)).

(** ** Failing a drive *)
Definition assign_logdrive (fuel : nat) (pr : pref) : M DKN unit :=
  let! p := read_p pr in
  let! lp := gets_ log_partition in
  if negb (has_logid p) && forallb is_green (drives p) && existsb (λ d, negb (is_red d)) (drives lp) then
    let! lid := draw_until fuel lp (λ d, negb (is_red d)) in
    update_p pr (set_logid (Some (Z.of_nat lid)))
  else mret_ tt.

Fixpoint disableDrive (fuel : nat) (pr : pref) (index : nat) : M DKN bool :=
  match fuel with
  | O => nofuel_
  | S f =>
    let! p := read_p pr in
    let! d := drive_at p index in
    if is_red d then mret_ true else
    assign_logdrive f pr ;;;
    update_p pr (set_drive_status index RED) ;;;
    update_p pr (λ p, set_cluster_version (cluster_version p + 1) p) ;;;
    let! p := read_p pr in
    let! tested := testPartition p in
    if tested : bool then
      let! stored := putPartitionUpdate p in
      if stored : bool then
        let! d := drive_at p index in
        modify_ (λ s, with_connection_map (delete (drive_key d) (connection_map s)) s) ;;;
        mret_ true
      else
        let! updated := getPartitionUpdate f pr in
        if updated : bool then disableDrive f pr index else mret_ false
    else mret_ false
  end.

(** ** Bringing a drive back *)

(** The [do ... while]: search the cluster version of the drive from 0. *)
Fixpoint probe_cluster_version (fuel : nat) (c : C) (cversion : Z) : M DKN StatusCode :=
  match fuel with
  | O => nofuel_
  | S f =>
    let cversion := cversion + 1 in
    call (λ w, (tt, SetClientClusterVersion c cversion w)) ;;;
    let! st := call (@con_NoOp _ (connection c)) in
    if bool_decide (st = REMOTE_CLUSTER_VERSION_MISMATCH) then probe_cluster_version f c cversion else mret_ st
  end.

Fixpoint enableDrive (fuel : nat) (pr : pref) (index : nat) : M DKN bool :=
  match fuel with
  | O => nofuel_
  | S f =>
    let! p := read_p pr in
    let! d := drive_at p index in
    if negb (is_red d) then mret_ true else
    let! con := driveToConnection p index in
    match con with
    | None => mret_ false
    | Some c =>
      let! st := probe_cluster_version f c (-1) in
      if negb (is_ok st) then mret_ false else
      update_p pr (set_drive_status index YELLOW) ;;;
      update_p pr (λ p, set_cluster_version (cluster_version p + 1) p) ;;;
      let rollback :=
        update_p pr (set_drive_status index RED) ;;;
        update_p pr (λ p, set_cluster_version (cluster_version p - 1) p) ;;;
        mret_ false in
      let! p := read_p pr in
      let! tested := testPartition p in
      if tested : bool then
        let! stored := putPartitionUpdate p in
        if stored : bool then
          modify_ (λ s, with_detached (detached s ++ [(pr, index)]) s) ;;;
          mret_ true
        else
          let! updated := getPartitionUpdate f pr in
          if updated : bool then enableDrive f pr index else rollback
      else rollback
    end
  end.

(** ** readRepair: the reference record of the first GREEN drive is enforced on
    every drive that is not RED. [record] is the caller's pointer. *)
Fixpoint readRepair_loop (p : Partition) (key : cstr) (record : option KineticRecord) (index i n : nat) : M DKN StatusCode :=
  match n with
  | O => mret_ OK
  | S n =>
    let! d := drive_at p i in
    if is_red d then readRepair_loop p key record index (S i) n else
    let! con := driveToConnection p i in
    let! c := nonnull con in
    let! r := call (@con_GetVersion _ (connection c) key) in
    let st := r.1 in
    let version := default [] r.2 in
    if negb (is_ok st) && negb (bool_decide (st = REMOTE_NOT_FOUND)) then mret_ st else
    let check st :=
      if negb (is_ok st) && negb (bool_decide (st = REMOTE_NOT_FOUND))
         && negb (bool_decide (st = REMOTE_VERSION_MISMATCH)) then mret_ st
      else if bool_decide (st = REMOTE_VERSION_MISMATCH) && (index =? i)%nat then mret_ OK
      else readRepair_loop p key record index (S i) n in
    match record with
    | None =>
      if is_ok st
      then let! st := call (@con_Delete _ (connection c) key version REQUIRE_SAME_VERSION) in check st
      else check st
    | Some x =>
      if is_ok st && bool_decide (version = kr_version x) then readRepair_loop p key record index (S i) n
      else let! st := call (@con_Put _ (connection c) key version REQUIRE_SAME_VERSION x) in check st
    end
  end.

Definition readRepair (key : cstr) (record : option KineticRecord) : M DKN (StatusCode * option KineticRecord) :=
  let! pr := keyToPartition key in
  let! p := read_p pr in
  match first_green (drives p) with
  | None => undef_
  | Some index =>
    let! con := driveToConnection p index in
    let! c := nonnull con in
    let! r := call (@con_Get _ (connection c) key) in
    let record := match r.2 with Some x => Some x | None => record end in
    if negb (is_ok r.1) && negb (bool_decide (r.1 = REMOTE_NOT_FOUND)) then mret_ (r.1, record) else
    let! st := readRepair_loop p key record index 0 (length (drives p)) in
    mret_ (st, record)
  end.

(** ** synchronizeDrive: runs in a thread of its own *)
(** One batch; the elements are shortened and restored in place, so that the
    last one as the loop leaves it is the start of the next batch. *)
Fixpoint synchronize_keys (pr : pref) (c : C) (prefix : cstr) (write_quorum_all : bool)
    (keys : list cstr) (back : cstr) (record : option KineticRecord) : M DKN (option (cstr * option KineticRecord)) :=
  match keys with
  | [] => mret_ (Some (back, record))
  | element :: keys =>
    let! p := read_p pr in
    let key := if has_logid p then erase element 0 (size_ prefix) else element in
    let! r := readRepair key record in
    if negb (is_ok r.1) then mret_ None else
    let element := if has_logid p then prefix ++ key else element in
    (if has_logid p && write_quorum_all
     then call (@con_Delete _ (connection c) element [] IGNORE_VERSION) ;;; mret_ tt
     else mret_ tt) ;;;
    synchronize_keys pr c prefix write_quorum_all keys element r.2
  end.

Fixpoint synchronize_loop (fuel : nat) (pr : pref) (c : C) (prefix : cstr) (write_quorum_all : bool)
    (keystart keyend : cstr) (record : option KineticRecord) : M DKN bool :=
  match fuel with
  | O => nofuel_
  | S f =>
    let maxsize := 100 in
    let! r := call (@con_GetKeyRange _ (connection c) keystart true keyend true false maxsize) in
    if negb (is_ok r.1) then mret_ false else
    let! done := synchronize_keys pr c prefix write_quorum_all r.2 keystart record in
    match done with
    | None => mret_ false
    | Some (back, record) =>
      if Z.of_nat (length r.2) =? maxsize
      then synchronize_loop f pr c prefix write_quorum_all back keyend record
      else mret_ true
    end
  end.

Definition synchronizeDrive (fuel : nat) (pr : pref) (index : nat) : M DKN bool :=
  let! p := read_p pr in
  let! d := drive_at p index in
  if negb (is_yellow d) then mret_ false else
  let prefix := to_string (partitionid p) ++ logkey_prefix in
  let write_quorum_all := forallb (λ d, negb (is_red d)) (drives p) in
  let! src :=
    match logID p with
    | Some l =>
      let! lp := gets_ log_partition in
      let! l := as_index l in
      let! con := driveToConnection lp l in
      mret_ (prefix ++ lit " ", prefix ++ lit "|", con)
    | None =>
      let! i := draw_until fuel p is_green in
      let! con := driveToConnection p i in
      mret_ (lit " ", lit "|", con)
    end in
  let '(keystart, keyend, con) := src in
  match con with
  | None => mret_ false
  | Some c =>
    let! synced := synchronize_loop fuel pr c prefix write_quorum_all keystart keyend None in
    if negb synced then mret_ false else
    update_p pr (set_drive_status index GREEN) ;;;
    update_p pr (λ p, set_cluster_version (cluster_version p + 1) p) ;;;
    update_p pr (λ p, if has_logid p && forallb is_green (drives p) then set_logid None p else p) ;;;
    let! p := read_p pr in
    let! stored := putPartitionUpdate p in
    if stored : bool then mret_ true else
    update_p pr (set_drive_status index YELLOW) ;;;
    update_p pr (λ p, set_cluster_version (cluster_version p - 1) p) ;;;
    mret_ false
  end.

(** The oldest detached thread runs. *)
Definition run_detached (fuel : nat) : M DKN unit :=
  let! l := gets_ detached in
  match l with
  | [] => mret_ tt
  | (pr, index) :: l =>
    modify_ (with_detached l) ;;;
    synchronizeDrive fuel pr index ;;; mret_ tt
  end.

(** ** Writes: on every drive that is not RED *)

Definition tolerated (st : StatusCode) : bool :=
  is_ok st || bool_decide (st = REMOTE_VERSION_MISMATCH) || bool_decide (st = REMOTE_NOT_AUTHORIZED).

(** [results.at(i)] *)
Definition result_at (results : list StatusCode) (i : nat) : M DKN StatusCode :=
  match results !! i with Some st => mret_ st | None => throw_ end.

(** B) the same result for all drives *)
Fixpoint all_equal (p : Partition) (results : list StatusCode) (green i n : nat) (acc : bool) : M DKN bool :=
  match n with
  | O => mret_ acc
  | S n =>
    let! d := drive_at p i in
    if is_red d then all_equal p results green (S i) n acc else
    let! ri := result_at results i in
    let! rg := result_at results green in
    all_equal p results green (S i) n (if bool_decide (ri = rg) then acc else false)
  end.

(** C) the first drive with an unexpected error *)
Fixpoint first_error (p : Partition) (results : list StatusCode) (i n : nat) : M DKN (option nat) :=
  match n with
  | O => mret_ None
  | S n =>
    let! d := drive_at p i in
    if is_red d then first_error p results (S i) n else
    let! ri := result_at results i in
    if tolerated ri then first_error p results (S i) n else mret_ (Some i)
  end.

Fixpoint evaluateWriteOperation (fuel : nat) (pr : pref) (results : list StatusCode) : M DKN StatusCode :=
  match fuel with
  | O => nofuel_
  | S f =>
    let! p := read_p pr in
    match first_green (drives p) with
    | None => undef_
    | Some green =>
      let! allequal := all_equal p results green 0 (length (drives p)) true in
      if allequal : bool then result_at results green else
      let! e := first_error p results 0 (length (drives p)) in
      match e with
      | Some i =>
        let! disabled := disableDrive f pr i in
        if disabled : bool then evaluateWriteOperation f pr results else result_at results i
      | None => mret_ REMOTE_OTHER_ERROR
      end
    end
  end.

(** The lambdas given to [std::async]. *)
Fixpoint run_operation (pr : pref) (operation : C → W → StatusCode * W) (i n : nat) : M DKN (list StatusCode) :=
  match n with
  | O => mret_ []
  | S n =>
    let! p := read_p pr in
    let! d := drive_at p i in
    let! st := if is_red d then mret_ REMOTE_REMOTE_CONNECTION_ERROR else
               let! con := driveToConnection p i in
               let! c := nonnull con in
               call (operation c) in
    let! sts := run_operation pr operation (S i) n in
    mret_ (st :: sts)
  end.

(** Log the key if a drive is missing from the write quorum. *)
Definition log_operation (fuel : nat) (pr : pref) (key : cstr) : M DKN unit :=
  let! p := read_p pr in
  match logID p with
  | Some l =>
    if existsb is_red (drives p) then
      let! lp := gets_ log_partition in
      let! li := as_index l in
      let! con := driveToConnection lp li in
      let! c := nonnull con in
      let! st := call (@con_Put _ (connection c) (to_string (partitionid p) ++ logkey_prefix ++ key) []
                         IGNORE_VERSION (mk_KineticRecord [] [])) in
      if is_ok st then mret_ tt else
      disableDrive fuel PLog li ;;;
      update_p pr (set_logid None) ;;;
      update_p pr (λ p, set_cluster_version (cluster_version p + 1) p) ;;;
      let! p := read_p pr in
      putPartitionUpdate p ;;; mret_ tt
    else mret_ tt
  | None => mret_ tt
  end.

Fixpoint writeOperation (fuel : nat) (key : cstr) (operation : C → W → StatusCode * W) : M DKN StatusCode :=
  match fuel with
  | O => nofuel_
  | S f =>
    let! pr := keyToPartition key in
    let! p := read_p pr in
    let! results := run_operation pr operation 0 (length (drives p)) in
    log_operation f pr key ;;;
    if existsb (λ r, bool_decide (r = REMOTE_CLUSTER_VERSION_MISMATCH)) results then
      let! updated := getPartitionUpdate f pr in
      if updated : bool then writeOperation f key operation else mret_ REMOTE_CLUSTER_VERSION_MISMATCH
    else evaluateWriteOperation f pr results
  end.

(** ** Reads: on any GREEN drive. [out] is the value of the out parameter. *)
Fixpoint readOperation {A} (fuel : nat) (pr : pref) (operation : C → A → W → (StatusCode * A) * W) (out : A)
    : M DKN (StatusCode * A) :=
  match fuel with
  | O => nofuel_
  | S f =>
    let! p := read_p pr in
    let! index := draw_until f p is_green in
    let! con := driveToConnection p index in
    let! r := match con with
              | Some c => call (operation c out)
              | None => mret_ (REMOTE_REMOTE_CONNECTION_ERROR, out)
              end in
    let '(st, out) := r in
    if bool_decide (st = REMOTE_CLUSTER_VERSION_MISMATCH) then
      let! updated := getPartitionUpdate f pr in
      if updated : bool then readOperation f pr operation out else mret_ (st, out)
    else if negb (is_ok st) && negb (bool_decide (st = REMOTE_NOT_FOUND))
            && negb (bool_decide (st = REMOTE_NOT_AUTHORIZED)) then
      let! disabled := disableDrive f pr index in
      if disabled : bool then readOperation f pr operation out else mret_ (st, out)
    else mret_ (st, out)
  end.

(** ** The operations of the namespace *)

(** What Put and Delete do after a partial write. *)
Definition repair_write (fuel : nat) (key : cstr) : M DKN (StatusCode * option KineticRecord) :=
  let! r := readRepair key None in
  if bool_decide (r.1 = REMOTE_CLUSTER_VERSION_MISMATCH) then
    let! pr := keyToPartition key in
    let! updated := getPartitionUpdate fuel pr in
    if updated : bool then readRepair key r.2 else mret_ r
  else mret_ r.

Definition dist_Put (fuel : nat) (key current_version : cstr) (mode : WriteMode) (record : KineticRecord) : M DKN StatusCode :=
  let! result := writeOperation fuel key (λ c, @con_Put _ (connection c) key current_version mode record) in
  let! result :=
    if bool_decide (result = REMOTE_OTHER_ERROR) then
      let! r := repair_write fuel key in
      if is_ok r.1 then
        match r.2 with
        | Some x => mret_ (if bool_decide (kr_version record = kr_version x) then OK else REMOTE_VERSION_MISMATCH)
        | None => mret_ REMOTE_VERSION_MISMATCH
        end
      else mret_ r.1
    else mret_ result in
  (if is_ok result && bool_decide (current_version = [])
   then modify_ (λ d, with_capacity (capacity_nominal d) (float_add (portion_full d) (capacity_chunksize d)) (capacity_chunksize d) d)
   else mret_ tt) ;;;
  mret_ result.

Definition dist_Delete (fuel : nat) (key version : cstr) (mode : WriteMode) : M DKN StatusCode :=
  let! result := writeOperation fuel key (λ c, @con_Delete _ (connection c) key version mode) in
  let! result :=
    if bool_decide (result = REMOTE_OTHER_ERROR) then
      let! r := repair_write fuel key in
      if is_ok r.1 then
        match r.2 with
        | Some _ => mret_ REMOTE_VERSION_MISMATCH
        | None => mret_ OK
        end
      else mret_ r.1
    else mret_ result in
  (if is_ok result
   then modify_ (λ d, with_capacity (capacity_nominal d) (float_sub (portion_full d) (capacity_chunksize d)) (capacity_chunksize d) d)
   else mret_ tt) ;;;
  mret_ result.

(** An out parameter is assigned when the call delivers a value. *)
Definition deliver {A} (out : option A) (r : (StatusCode * option A) * W) : (StatusCode * option A) * W :=
  (r.1.1, match r.1.2 with Some x => Some x | None => out end, r.2).

Definition dist_Get (fuel : nat) (key : cstr) : M DKN (StatusCode * option KineticRecord) :=
  let! pr := keyToPartition key in
  readOperation fuel pr (λ c out w, deliver out (@con_Get _ (connection c) key w)) None.

Definition dist_GetVersion (fuel : nat) (key : cstr) : M DKN (StatusCode * option cstr) :=
  let! pr := keyToPartition key in
  readOperation fuel pr (λ c out w, deliver out (@con_GetVersion _ (connection c) key w)) None.

(** [std::sort] on the keys. *)
Definition sort_keys (l : list cstr) : list cstr := foldr insert_key [] l.

Fixpoint GetKeyRange_loop (fuel : nat) (start_key end_key : cstr) (max_results : Z) (n : nat) (keys : list cstr)
    : M DKN (StatusCode * list cstr) :=
  match n with
  | O => mret_ (OK, keys)
  | S n =>
    let! r := readOperation fuel PLocal
                (λ c (_ : list cstr), @con_GetKeyRange _ (connection c) start_key false end_key false false max_results) [] in
    if negb (is_ok r.1) then mret_ (r.1, keys) else
    let! p := gets_ local_partition in
    let! cmap := gets_ cluster_map in
    if bool_decide (cmap = []) then undef_ else
    match cmap !! Z.to_nat (wrap64 (partitionid p + 1) mod Z.of_nat (length cmap)) with
    | None => undef_
    | Some q =>
      modify_ (with_local_partition q) ;;;
      GetKeyRange_loop fuel start_key end_key max_results n (keys ++ r.2)
    end
  end.

(** [auto p = keyToPartition(start_key)] copies the partition. *)
Definition dist_GetKeyRange (fuel : nat) (start_key end_key : cstr) (max_results : Z) : M DKN (StatusCode * list cstr) :=
  let! pr := keyToPartition start_key in
  let! p := read_p pr in
  modify_ (with_local_partition p) ;;;
  let! cs := gets_ direntry_clustersize in
  let! r := GetKeyRange_loop fuel start_key end_key max_results (Z.to_nat cs) [] in
  if negb (is_ok r.1) then mret_ r else
  let keys := sort_keys r.2 in
  mret_ (OK, if max_results <? Z.of_nat (length keys) then take (Z.to_nat max_results) keys else keys).

(** ** Capacity *)

(** The drive that answers for a partition: its first GREEN one. *)
Fixpoint capacity_futures (ps : list Partition) : M DKN (list (Z * Fl)) :=
  match ps with
  | [] => mret_ []
  | p :: ps =>
    match first_green (drives p) with
    | None => capacity_futures ps
    | Some i =>
      let! con := driveToConnection p i in
      let! c := nonnull con in
      let! r := call (GetLog_capacity c) in
      if is_ok r.1 then let! rest := capacity_futures ps in mret_ (r.2 :: rest)
      else undef_
    end
  end.

Fixpoint sum_capacity (cs : list (Z * Fl)) (nominal : Z) (full : Fl) : option (Z * Fl) :=
  match cs with
  | [] => Some (nominal, full)
  | (n, f) :: cs => if n =? 0 then None else sum_capacity cs (wrap64 (nominal + n)) (float_add full f)
  end.

Definition updateCapacityEstimate : M DKN bool :=
  let! m := gets_ cluster_map in
  let! futures := capacity_futures m in
  match sum_capacity futures 0 (float_of 0) with
  | None => mret_ false
  | Some (nominal, full) =>
    modify_ (with_capacity nominal (float_div full (float_of (Z.of_nat (length futures))))
               (float_div (float_of (1024 * 1024)) (float_of nominal))) ;;;
    mret_ true
  end.

Definition GetCapacity : M DKN (StatusCode * (Z * Fl)) :=
  let! d := get_ in mret_ (OK, (capacity_nominal d, portion_full d)).

(** ** selfCheck and the constructor *)
Fixpoint enable_drives (fuel : nat) (pr : pref) (i : nat) : M DKN unit :=
  match fuel with
  | O => nofuel_
  | S f =>
    let! p := read_p pr in
    match drives p !! i with
    | None => mret_ tt
    | Some d => (if is_red d then enableDrive f pr i ;;; mret_ tt else mret_ tt) ;;; enable_drives f pr (S i)
    end
  end.

Definition check_partition (fuel : nat) (pr : pref) : M DKN bool :=
  enable_drives fuel pr 0 ;;;
  let! p := read_p pr in
  let! ok := testPartition p in
  if ok : bool then mret_ true else
  let! updated := getPartitionUpdate fuel pr in
  if updated : bool then
    let! p := read_p pr in testPartition p
  else mret_ false.

Fixpoint check_partitions (fuel : nat) (i n : nat) : M DKN bool :=
  match n with
  | O => check_partition fuel PLog
  | S n =>
    let! ok := check_partition fuel (PMap i) in
    if ok : bool then check_partitions fuel (S i) n else mret_ false
  end.

Definition dist_selfCheck (fuel : nat) : M DKN bool :=
  let! n := gets_ (λ d, length (cluster_map d)) in check_partitions fuel 0 n.

(** The members as the constructor's initialisers leave them ... *)
Definition DKN_init (w : W) (cmap : list Partition) (lpart : Partition) (dirclustersize : Z) : DKN :=
  mk_DKN w lpart cmap ∅ dirclustersize 0 (mk_Partition 0 None [] None) [] 0 (float_of 0) (float_of 0).

(** ... and its body. *)
Definition DKN_construct (fuel : nat) : M DKN unit :=
  let! ok := dist_selfCheck fuel in
  if negb ok then throw_ else updateCapacityEstimate ;;; mret_ tt.

End Namespace.
