(* ===== verification/DemoCluster.v ===== *)
(** * A concrete cluster

    In-memory drives with a cluster version and an online switch, connections
    that carry a client version, and a serialiser for partitions. They satisfy
    the laws of {!Drives} and let the definitions of {!Distributed} run; no
    theorem about the program depends on them. *)
From S2P Require Import Prelude CppString Proto Kinetic Demo Drives Distributed.

Record drive := mk_drive { dr_store : store; dr_version : Z; dr_online : bool }.

(** A connection: its number and the drive it leads to. *)
Abbreviation conn := (nat * addr)%type.

Record cluster := mk_cluster {
  cl_drives : gmap (list ascii * Z) drive;
  cl_clients : gmap (nat * (list ascii * Z)) Z;
  cl_next : nat;
  cl_expected : Z;
}.

Definition no_drive : drive := mk_drive ∅ 0 false.
Definition cl_drive (a : addr) (w : cluster) : drive := default no_drive (cl_drives w !! a).
Definition cl_client (c : conn) (w : cluster) : Z := default 0 (cl_clients w !! c).

Definition expect (v : Z) (w : cluster) : cluster := mk_cluster (cl_drives w) (cl_clients w) (cl_next w) v.
Definition set_store (a : addr) (s : store) (w : cluster) : cluster :=
  mk_cluster (<[a := mk_drive s (dr_version (cl_drive a w)) (dr_online (cl_drive a w))]> (cl_drives w))
    (cl_clients w) (cl_next w) (cl_expected w).
Definition set_version (a : addr) (v : Z) (w : cluster) : cluster :=
  mk_cluster (<[a := mk_drive (dr_store (cl_drive a w)) v (dr_online (cl_drive a w))]> (cl_drives w))
    (cl_clients w) (cl_next w) (cl_expected w).
Definition set_online (a : addr) (b : bool) (w : cluster) : cluster :=
  mk_cluster (<[a := mk_drive (dr_store (cl_drive a w)) (dr_version (cl_drive a w)) b]> (cl_drives w))
    (cl_clients w) (cl_next w) (cl_expected w).
Definition set_client (c : conn) (v : Z) (w : cluster) : cluster :=
  mk_cluster (cl_drives w) (<[c := v]> (cl_clients w)) (cl_next w) (cl_expected w).

(** A request that returns [err] with an error, and runs [f] on the store. *)
Definition cl_request {A} (c : conn) (err : StatusCode → A) (f : store → A * store) (w : cluster) : A * cluster :=
  let dr := cl_drive c.2 w in
  if negb (dr_online dr) then (err REMOTE_REMOTE_CONNECTION_ERROR, expect 0 w)
  else if decide (cl_client c w = dr_version dr) then
    let '(a, s) := f (dr_store dr) in (a, expect 0 (set_store c.2 s w))
  else (err REMOTE_CLUSTER_VERSION_MISMATCH, expect (dr_version dr) w).

Definition cl_connection (c : conn) : KineticConnection cluster := {|
  con_Get k := cl_request c (λ st, (st, None)) (drive_Get k);
  con_Delete k v m := cl_request c (λ st, st) (drive_Delete k v m);
  con_Put k v m r := cl_request c (λ st, st) (drive_Put k v m r);
  con_GetVersion k := cl_request c (λ st, (st, None)) (drive_GetVersion k);
  con_GetKeyRange s i e j rv n := cl_request c (λ st, (st, [])) (drive_GetKeyRange s i e j rv n);
  con_NoOp := cl_request c (λ st, st) (λ s, (OK, s));
|}.

#[local] Instance cl_kinetic : KineticDrives cluster conn := {|
  NewConnection h p w :=
    if dr_online (cl_drive (h, p) w)
    then let c := (cl_next w, (h, p)) in
         (Some c, mk_cluster (cl_drives w) (<[c := 0]> (cl_clients w)) (S (cl_next w)) (cl_expected w))
    else (None, w);
  connection := cl_connection;
  SetClientClusterVersion := set_client;
  SetClusterVersion c v w :=
    let '(st, w') := cl_request c (λ st, st) (λ s, (OK, s)) w in
    (st, if is_ok st then set_version c.2 v w' else w');
  expected_cluster_version _ w := cl_expected w;
|}.

Definition cl_obs : observers cluster conn :=
  mk_observers snd (λ a w, dr_store (cl_drive a w)) (λ a w, dr_version (cl_drive a w))
    (λ a w, dr_online (cl_drive a w)) cl_client.

Lemma cl_drive_set_store a s w b :
  cl_drive b (set_store a s w) =
  if decide (b = a) then mk_drive s (dr_version (cl_drive a w)) (dr_online (cl_drive a w)) else cl_drive b w.
Proof. unfold cl_drive at 1. cbn. lookup_cases. Qed.

Lemma cl_drive_set_version a v w b :
  cl_drive b (set_version a v w) =
  if decide (b = a) then mk_drive (dr_store (cl_drive a w)) v (dr_online (cl_drive a w)) else cl_drive b w.
Proof. unfold cl_drive at 1. cbn. lookup_cases. Qed.

Lemma cl_set_store_only a s w : only_store cl_obs a s w (expect 0 (set_store a s w)).
Proof.
  split; intros; cbn; [| | |done].
  all: change (cl_drive b (expect 0 (set_store a s w))) with (cl_drive b (set_store a s w)).
  all: rewrite cl_drive_set_store; case_decide; by subst.
Qed.

Lemma cl_set_store_same a w : unchanged cl_obs w (expect 0 (set_store a (dr_store (cl_drive a w)) w)).
Proof.
  destruct (cl_set_store_only a (dr_store (cl_drive a w)) w) as [H1 H2 H3 H4].
  split; auto. intros b. rewrite H1. case_decide; by subst.
Qed.

(** What a request does, for the laws. *)
Lemma cl_request_law {A} (c : conn) (err : StatusCode → A) (st_of : A → StatusCode) (f : store → A * store) (w : cluster) a w' :
  (∀ st, st_of (err st) = st) →
  cl_request c err f w = (a, w') →
  request cl_obs cl_kinetic c w (st_of a) w'
    (a = (f (dr_store (cl_drive c.2 w))).1 ∧
     only_store cl_obs c.2 (f (dr_store (cl_drive c.2 w))).2 w w').
Proof.
  intros He. unfold cl_request, request. cbn.
  destruct (dr_online _); cbn; [|by intros [= <- <-]; rewrite He].
  case_decide; cbn; [|by intros [= <- <-]; rewrite He].
  destruct (f _) as [x s]. intros [= <- <-]. split; [done|apply cl_set_store_only].
Qed.

Lemma only_store_same a w w' :
  only_store cl_obs a (dr_store (cl_drive a w)) w w' → unchanged cl_obs w w'.
Proof. intros [H1 H2 H3 H4]. split; auto. intros b. rewrite H1. case_decide; by subst. Qed.

Lemma request_mono (c : conn) (w : cluster) st w' (P Q : Prop) :
  (P → Q) → request cl_obs cl_kinetic c w st w' P → request cl_obs cl_kinetic c w st w' Q.
Proof. unfold request. repeat case_match; tauto. Qed.

#[local] Instance cl_spec : DrivesSpec cluster conn.
Proof.
  exists cl_obs.
  - intros h p w r w'. cbn. destruct (dr_online _) eqn:E; intros [= <- <-]; (split; [|intros ?]); try done.
    exists (cl_next w, (h, p)). unfold cl_client. cbn. repeat split; lookup_cases.
    intros c' Hc. by rewrite lookup_insert_ne.
  - intros c k w st r w' E. cbn in E. apply (cl_request_law _ _ fst) in E; [|done]. cbn in E.
    eapply request_mono, E. intros [E1 E2]. split; [done|]. eapply only_store_same.
    unfold drive_Get in E2. destruct (_ !! k); exact E2.
  - intros c k w st r w' E. cbn in E. apply (cl_request_law _ _ fst) in E; [|done]. cbn in E.
    eapply request_mono, E. intros [E1 E2]. split; [done|]. eapply only_store_same.
    unfold drive_GetVersion in E2. destruct (_ !! k); exact E2.
  - intros c k w st r w'. cbn. unfold cl_request, drive_Get. repeat case_match; intros; simplify_eq; done.
  - intros c k w st r w'. cbn. unfold cl_request, drive_GetVersion. repeat case_match; intros; simplify_eq; done.
  - intros c s i e j rv n w st r w' E. cbn in E. apply (cl_request_law _ _ fst) in E; [|done]. cbn in E.
    eapply request_mono, E. intros [E1 E2]. split; [done|]. eapply only_store_same. exact E2.
  - intros c k v m x w st w' E. cbn in E. apply (cl_request_law _ _ (λ s, s)) in E; [|done]. cbn in *.
    destruct (drive_Put _ _ _ _ _). exact E.
  - intros c k v m w st w' E. cbn in E. apply (cl_request_law _ _ (λ s, s)) in E; [|done]. cbn in *.
    destruct (drive_Delete _ _ _ _). exact E.
  - intros c w st w' E. cbn in E. apply (cl_request_law _ _ (λ s, s)) in E; [|done]. cbn in *.
    eapply request_mono, E. intros [E1 E2]. split; [done|]. by eapply only_store_same.
  - intros c v w st w' E. cbn in E. destruct (cl_request c (λ st, st) (λ s, (OK, s)) w) as [st1 w1] eqn:E1.
    injection E as <- <-. apply (cl_request_law _ _ (λ s, s)) in E1; [|done]. cbn in E1.
    unfold request in *. cbn in *. destruct (dr_online (cl_drive c.2 w)); cbn in *.
    + case_decide; cbn in *.
      * destruct E1 as [-> [H1 H2 H3 H4]]. cbn in *. split; [done|].
        split; [|split; [|split]]; intros b; rewrite ?cl_drive_set_version; cbn in *.
        1-3: destruct (decide (b = c.2)) as [->|]; cbn; rewrite ?H1, ?H2, ?H3; cbn; try case_decide; done.
        apply H4.
      * by destruct E1 as (-> & ? & ?).
    + destruct E1 as [E1 ?]. destruct st1; try discriminate E1; done.
  - intros c v w. cbn. unfold cl_client, cl_drive. cbn. repeat split; lookup_cases.
    intros c' Hc. by rewrite lookup_insert_ne.
Defined.

(** ** Partitions as messages *)
Definition status_code (s : DriveStatus) : Z := match s with GREEN => 1 | YELLOW => 2 | RED => 3 end.
Definition status_of (z : Z) : DriveStatus := if z =? 1 then GREEN else if z =? 2 then YELLOW else RED.

Fixpoint drive_fields (l : list KineticDrive) : list cstr :=
  match l with
  | [] => []
  | d :: l => to_string (status_code (kd_status d)) :: kd_host d :: to_string (kd_port d) :: drive_fields l
  end.

Fixpoint drive_list (xs : list cstr) : option (list KineticDrive) :=
  match xs with
  | [] => Some []
  | s :: h :: p :: xs => s ← stoll s; p ← stoll p; l ← drive_list xs; Some (mk_KineticDrive (status_of s) h p :: l)
  | _ => None
  end.

Definition opt_field (o : option Z) : cstr := match o with Some z => to_string z | None => [] end.

#[local] Instance demo_partition : Message Partition := {|
  SerializeAsString p :=
    put_fields (to_string (cluster_version p) :: opt_field (partitionID p) :: opt_field (logID p) :: drive_fields (drives p));
  ParseFromString s :=
    match parse_fields s with
    | Some (v :: i :: l :: xs) => v ← stoll v; ds ← drive_list xs; Some (mk_Partition v (stoll i) ds (stoll l))
    | _ => None
    end
|}.

(** ** The environment *)
Definition byte_sum (s : cstr) : Z := foldr (λ a n, (Z.of_N (Ascii.N_of_ascii a) + 31 * n) mod u64_mod) 0 s.

#[local] Instance demo_dist : DistEnv cluster conn Z := {|
  partial_parse _ := mk_Partition 0 None [] None;
  std_hash := byte_sum;
  uniform_int n hi := Z.of_nat n mod (hi + 1);
  GetLog_capacity c w :=
    if dr_online (cl_drive c.2 w) then (OK, (1048576, 0), w) else (REMOTE_REMOTE_CONNECTION_ERROR, (0, 0), w);
  float_of z := z;
  float_add := Z.add;
  float_sub := Z.sub;
  float_div := Z.div;
|}.

#[local] Instance demo_dist_spec : DistEnvSpec cluster conn Z.
Proof.
  split.
  - intros s. cbn. unfold byte_sum. destruct s; cbn [foldr]; [unfold u64_mod; lia|]. apply Z.mod_pos_bound. done.
  - intros n hi Hh. cbn. pose proof (Z.mod_pos_bound (Z.of_nat n) (hi + 1)). lia.
Qed.

#[local] Instance demo_dist_fair : FairDraws cluster conn Z.
Proof.
  intros n hi j Hj. exists (Z.to_nat (Z.of_nat n * (hi + 1) + j)). cbn. split; [nia|].
  rewrite Z2Nat.id by nia. rewrite Z.add_comm, Z.mod_add by lia. apply Z.mod_small. lia.
Qed.

(** Two partitions of two drives each and two log drives, all fresh. *)
Definition demo_addr (h : string) : addr := (lit h, 8123).
Definition demo_kd (s : DriveStatus) (h : string) : KineticDrive := mk_KineticDrive s (lit h) 8123.
Definition fresh_drive : drive := mk_drive ∅ 0 true.
Definition demo_world : cluster :=
  mk_cluster (list_to_map (map (λ h, (demo_addr h, fresh_drive)) ["a0"; "a1"; "b0"; "b1"; "l0"; "l1"]%string)) ∅ 0 0.
Definition demo_map : list Partition :=
  [ mk_Partition 0 (Some 0) [demo_kd GREEN "a0"; demo_kd GREEN "a1"] (Some 0);
    mk_Partition 0 (Some 1) [demo_kd GREEN "b0"; demo_kd GREEN "b1"] (Some 1) ].
Definition demo_log : Partition := mk_Partition 0 None [demo_kd GREEN "l0"; demo_kd GREEN "l1"] None.

(** The namespace after its constructor. *)
Definition demo_dkn : DistributedKineticNamespace cluster conn Z :=
  let s := DKN_init demo_world demo_map demo_log 2 in state_after (DKN_construct 10 s) s.
