(* ===== verification/KineticHelper.v ===== *)
(** * Helper functions over the namespace (src/namespace/kinetic_helper.cc):
    metadata, data blocks and database entries as versioned keys

    Functions that retry take the number of rounds as fuel. *)
From S2P Require Import Prelude CppString Proto PathMapDB LRUCache DataInfo MetadataInfo Kinetic FsState.

Section Helper.
Context {W : Type} `{!Env} `{!KineticNamespace W}.

Abbreviation FS := (M (hflat_priv W)).

Definition db_base_name : cstr := lit "pathmapDB_".
Definition db_version_key : cstr := db_base_name ++ lit "version".

(** [util::to_int64]: a malformed or out-of-range string gives 0. *)
Definition to_int64 (version_string : cstr) : Z := default 0 (stoll version_string).

(** The overload on a character pointer: the version string up to its first NUL. *)
Definition to_int64_data (version_string : cstr) : Z := to_int64 (c_str version_string).

(** ** Metadata *)

Definition get_metadata (mdi : loc) : FS Z :=
  let! m := deref_md mdi in
  let! r := k_Get (systemPath m) in
  let '(status, record) := r in
  if negb (is_ok status) then
    if bool_decide (status = REMOTE_NOT_FOUND) then mret_ (- ENOENT) else mret_ (- EIO)
  else match record with
       | None => undef_
       | Some record =>
         match ParseFromString (kr_value record) with
         | None => mret_ (- EINVAL)
         | Some x => write_md mdi (setMD x (kr_version record) m) ;;; mret_ 0
         end
       end.

Definition put_metadata (mdi : loc) : FS Z :=
  let! new_version := generate_uuid in
  let! m := deref_md mdi in
  let record := mk_KineticRecord (SerializeAsString (md m)) new_version in
  let! status := k_Put (systemPath m) (keyVersion m) REQUIRE_SAME_VERSION record in
  if negb (is_ok status) then
    lc_invalidate (systemPath m) ;;;
    if bool_decide (status = REMOTE_VERSION_MISMATCH) then mret_ (- EAGAIN)
    else if bool_decide (status = REMOTE_NOT_FOUND) then mret_ (- ENOENT)
    else mret_ (- EIO)
  else
    write_md mdi (setKeyVersion new_version m) ;;;
    lc_revalidate (systemPath m) ;;;
    mret_ 0.

(** [md_update] is the lambda that changes the metadata. *)
Fixpoint put_metadata_forced (fuel : nat) (mdi : loc) (md_update : FS unit) : FS Z :=
  match fuel with
  | O => nofuel_
  | S f =>
    md_update ;;;
    let! err := put_metadata mdi in
    if negb (err =? - EAGAIN) then mret_ err
    else
      let! err := get_metadata mdi in
      if negb (err =? 0) then mret_ err
      else put_metadata_forced f mdi md_update
  end.

Definition create_metadata (mdi : loc) : FS Z :=
  let! new_version := generate_uuid in
  let! m := deref_md mdi in
  let record := mk_KineticRecord (SerializeAsString (md m)) new_version in
  let! status := k_Put (systemPath m) [] REQUIRE_SAME_VERSION record in
  if bool_decide (status = REMOTE_VERSION_MISMATCH) then mret_ (- EEXIST)
  else if negb (is_ok status) then mret_ (- EIO)
  else write_md mdi (setKeyVersion new_version m) ;;; mret_ 0.

Definition delete_metadata (mdi : loc) : FS Z :=
  let! m := deref_md mdi in
  lc_invalidate (systemPath m) ;;;
  let! status := k_Delete (systemPath m) (keyVersion m) REQUIRE_SAME_VERSION in
  if bool_decide (status = REMOTE_VERSION_MISMATCH) then mret_ (- EAGAIN)
  else if bool_decide (status = REMOTE_NOT_FOUND) then mret_ (- ENOENT)
  else if negb (is_ok status) then mret_ (- EIO)
  else mret_ 0.

(** ** Data *)

(** Returns the error code and, on success, the new object. *)
Definition get_data (key : cstr) : FS (Z * option loc) :=
  let! r := k_Get key in
  let '(status, record) := r in
  if negb (is_ok status) && negb (bool_decide (status = REMOTE_NOT_FOUND)) then mret_ (- EIO, None)
  else if bool_decide (status = REMOTE_NOT_FOUND) then
    let! l := new_di (DataInfo_new key [] []) in mret_ (0, Some l)
  else match record with
       | None => undef_
       | Some record => let! l := new_di (DataInfo_new key (kr_version record) (kr_value record)) in mret_ (0, Some l)
       end.

Fixpoint put_data (fuel : nat) (di : loc) : FS Z :=
  match fuel with
  | O => nofuel_
  | S f =>
    let! new_version := generate_uuid in
    let! d := deref_di di in
    let! status := k_Put (di_key d) (di_keyVersion d) REQUIRE_SAME_VERSION (mk_KineticRecord (di_d d) new_version) in
    let finish (status : StatusCode) : FS Z :=
      if negb (is_ok status) then mret_ (- EIO)
      else
        let! d := deref_di di in
        write_di di (di_setKeyVersion new_version (forgetUpdates d)) ;;;
        dc_revalidate (di_key d) ;;;
        mret_ 0 in
    if bool_decide (status = REMOTE_VERSION_MISMATCH) then
      let! r := k_Get (di_key d) in
      let '(status, record) := r in
      if is_ok status then
        match record with
        | None => undef_
        | Some record =>
          on_datainfo di (mergeDataChanges (kr_value record)) ;;;
          on_datainfo di (modify_ (di_setKeyVersion (kr_version record))) ;;;
          put_data f di
        end
      else finish status
    else finish status
  end.

Definition delete_data (di : loc) : FS Z :=
  let! d := deref_di di in
  let! status := k_Delete (di_key d) [] IGNORE_VERSION in
  dc_invalidate (di_key d) ;;;
  if bool_decide (status = REMOTE_NOT_FOUND) then mret_ (- ENOENT)
  else if negb (is_ok status) then mret_ (- EIO)
  else mret_ 0.

(** ** Database entries *)

Definition db_key (version : Z) : cstr := db_base_name ++ to_string version.

Definition put_db_entry (version : Z) (entry : db_entry) : FS Z :=
  let! status := k_Put (db_key version) [] REQUIRE_SAME_VERSION
                   (mk_KineticRecord (SerializeAsString entry) (to_string version)) in
  if bool_decide (status = REMOTE_VERSION_MISMATCH) then mret_ (- EEXIST)
  else if negb (is_ok status) then mret_ (- EIO)
  else
    let! _ := k_Put db_version_key [] IGNORE_VERSION (mk_KineticRecord [] (to_string version)) in
    mret_ 0.

Definition get_db_entry (version : Z) : FS (Z * option db_entry) :=
  let! r := k_Get (db_key version) in
  let '(status, record) := r in
  if bool_decide (status = REMOTE_NOT_FOUND) then mret_ (- ENOENT, None)
  else if negb (is_ok status) then mret_ (- EIO, None)
  else match record with
       | None => undef_
       | Some record =>
         match ParseFromString (kr_value record) with
         | None => mret_ (- EINVAL, None)
         | Some e => mret_ (0, Some e)
         end
       end.

Definition get_db_version : FS (Z * Z) :=
  let! r := k_GetVersion db_version_key in
  let '(status, keyVersion) := r in
  if bool_decide (status = REMOTE_NOT_FOUND) then mret_ (0, 0)
  else if negb (is_ok status) then mret_ (- EIO, 0)
  else match keyVersion with
       | None => undef_
       | Some v => mret_ (0, to_int64_data v)
       end.

Definition snapshot_key : cstr := db_base_name ++ lit "SNAPSHOT".

Definition put_db_snapshot (s : db_snapshot) : FS Z :=
  let! status := k_Put snapshot_key [] IGNORE_VERSION (mk_KineticRecord (SerializeAsString s) []) in
  if negb (is_ok status) then mret_ (- EIO) else mret_ 0.

Definition get_db_snapshot : FS (Z * option db_snapshot) :=
  let! r := k_Get snapshot_key in
  let '(status, record) := r in
  if negb (is_ok status) then mret_ (- EIO, None)
  else match record with
       | None => undef_
       | Some record =>
         match ParseFromString (kr_value record) with
         | None => mret_ (- EINVAL, None)
         | Some s => mret_ (0, Some s)
         end
       end.

End Helper.
