(* ===== verification/Util.v ===== *)
(** * Utility functions (src/util.cc): inode numbers, file names, and the
    protocol that keeps the path map in step with the shared database *)
From S2P Require Import Prelude CppString Proto PathMapDB LRUCache DataInfo MetadataInfo Kinetic FsState KineticHelper.

Section Util.
Context {W : Type} `{!Env} `{!KineticNamespace W}.

Abbreviation FS := (M (hflat_priv W)).

(** ** Inode numbers *)

Definition inode_base_key : cstr := lit "inode_generation".
Definition uint16_max : Z := 65535.

(** The two halves of a round of [grab_inode_generation_token]: reading the
    current token into [inum_base], and claiming the range after it. *)
Definition grab_read : FS Z :=
  let! r := k_GetVersion inode_base_key in
  let '(status, keyVersion) := r in
  if is_ok status then
    match keyVersion with
    | None => undef_
    | Some v => modify_ (λ s, set_inum (to_int64_data v) (inum_counter s) s) ;;; mret_ 0
    end
  else if bool_decide (status = REMOTE_NOT_FOUND) then
    modify_ (λ s, set_inum 0 (inum_counter s) s) ;;; mret_ 0
  else mret_ (- EIO).

Definition grab_claim : FS StatusCode :=
  let! s := get_ in
  let base := inum_base s in
  k_Put inode_base_key (if base =? 0 then [] else to_string base) REQUIRE_SAME_VERSION
    (mk_KineticRecord [] (to_string (base + uint16_max))).

Fixpoint grab_inode_generation_token (fuel : nat) : FS Z :=
  match fuel with
  | O => nofuel_
  | S f =>
    let! err := grab_read in
    if negb (err =? 0) then mret_ err
    else
      let! status := grab_claim in
      if bool_decide (status = REMOTE_VERSION_MISMATCH) then grab_inode_generation_token f
      else if negb (is_ok status) then mret_ (- EIO)
      else mret_ 0
  end.

(** The parts of [generate_inode_number]: [++inum_counter == max], the reset
    after a refresh, and the number itself. *)
Definition bump_counter : FS bool :=
  modify_ (λ s, set_inum (inum_base s) (wrap16 (inum_counter s + 1)) s) ;;;
  let! s := get_ in mret_ (inum_counter s =? uint16_max).

Definition reset_counter : FS unit := modify_ (λ s, set_inum (inum_base s) 0 s).

Definition current_number : FS Z :=
  let! s := get_ in mret_ (wrap64 (inum_base s + inum_counter s)).

(** A failure to refresh the token is only logged. *)
Definition generate_inode_number (fuel : nat) : FS Z :=
  let! exhausted := bump_counter in
  (if exhausted : bool then
     let! _ := grab_inode_generation_token fuel in reset_counter
   else mret_ tt) ;;;
  current_number.

(** [path.substr(path.find_last_of("/:") + 1)] *)
Definition path_to_filename (path : cstr) : cstr :=
  substr path (wrap64 (find_last_of (lit "/:") path + 1)) npos.

(** ** The database *)

(** The loop that collects the entries from [v] on, [n] of them. *)
Fixpoint get_db_entries (n : nat) (v : Z) (entries : list db_entry) : FS (Z * list db_entry) :=
  match n with
  | O => mret_ (0, entries)
  | S n =>
    let! r := get_db_entry v in
    match r with
    | (err, Some e) => if negb (err =? 0) then mret_ (err, entries) else get_db_entries n (v + 1) (entries ++ [e])
    | (err, None) => mret_ (err, entries)
    end
  end.

(** The update from [snapshotVersion] to [dbVersion]: by a full snapshot if many
    entries are missing, and entry by entry from there. *)
Definition update_to (snapshotVersion dbVersion : Z) : FS Z :=
  let! snapshotVersion :=
    (if 42 <? dbVersion - snapshotVersion then
       let! r := get_db_snapshot in
       match r with
       | (err, Some snap) =>
         if err =? 0 then on_pmap (loadSnapshot snap) ;;; let! s := get_ in mret_ (getSnapshotVersion (pmap_ s))
         else mret_ snapshotVersion
       | (_, None) => mret_ snapshotVersion
       end
     else mret_ snapshotVersion) in
  let! r := get_db_entries (Z.to_nat (dbVersion - snapshotVersion)) (snapshotVersion + 1) [] in
  let '(err, entries) := r in
  if negb (err =? 0) then mret_ err
  else on_pmap (updateSnapshot entries snapshotVersion dbVersion).

Definition database_update : FS Z :=
  let! s := get_ in
  let snapshotVersion := getSnapshotVersion (pmap_ s) in
  let! r := get_db_version in
  let '(err, dbVersion) := r in
  if negb (err =? 0) then mret_ err
  else
    assert_ (snapshotVersion <=? dbVersion) ;;;
    (* the version key can lag behind the entries *)
    if dbVersion =? snapshotVersion then
      let! r := get_db_entry (dbVersion + 1) in
      if negb (r.1 =? 0) then mret_ (- EALREADY) else update_to snapshotVersion (dbVersion + 1)
    else update_to snapshotVersion dbVersion.

Fixpoint database_operation (fuel : nat) (entry : db_entry) : FS Z :=
  match fuel with
  | O => nofuel_
  | S f =>
    let! s := get_ in
    let snapshotVersion := getSnapshotVersion (pmap_ s) in
    let! err := put_db_entry (snapshotVersion + 1) entry in
    if err =? 0 then
      let! _ := on_pmap (updateSnapshot [entry] snapshotVersion (snapshotVersion + 1)) in
      (if Z.rem snapshotVersion 42 =? 0 then
         let! s := get_ in
         let! _ := put_db_snapshot (serializeSnapshot env_iter (pmap_ s)) in mret_ tt
       else mret_ tt) ;;;
      mret_ 0
    else if negb (err =? - EEXIST) then mret_ err
    else
      let! err := database_update in
      if negb (err =? 0) then mret_ err
      else database_operation f entry
  end.

End Util.
