(* ===== verification/Lookup.v ===== *)
(** * Lookup of metadata by user path (src/lookup.cc)

    The out-parameter [std::shared_ptr<MetadataInfo> &mdi] is passed in and
    returned: a call that fails early leaves the caller's pointer as it was. *)
From S2P Require Import Prelude CppString Proto PathMapDB LRUCache DataInfo MetadataInfo Kinetic FsState KineticHelper Util.

Section Lookup.
Context {W : Type} `{!Env} `{!KineticNamespace W}.

Abbreviation FS := (M (hflat_priv W)).

(** [PRIV->pmap.toSystemPath]; a remapping that does not end has no result. *)
Definition pmap_toSystemPath (fuel : nat) (user_path : cstr) (ctype : CallingType) : FS (cstr * Z) := λ s,
  match toSystemPath fuel (pmap_ s) user_path ctype with
  | Some r => Ret r s
  | None => NoFuel s
  end.

Definition get_metadata_userpath (fuel : nat) (user_path : cstr) (mdi : option loc) : FS (Z * option loc) :=
  let! r := pmap_toSystemPath fuel user_path LOOKUP in
  let '(key, pathPermissionTimeStamp) := r in
  if pathPermissionTimeStamp <? 0 then mret_ (to_i32 pathPermissionTimeStamp, mdi)
  else
    let! l := new_md (MetadataInfo_new key) in
    let! err := get_metadata l in
    mret_ (err, Some l).

(** Step 2 of [lookup], the loop around the cache: a hit, or [None] once this
    thread has blocked the key. *)
Fixpoint lookup_cached (fuel : nat) (key : cstr) : FS (option loc) :=
  match fuel with
  | O => nofuel_
  | S f =>
    let! r := lc_get key in
    match r with
    | Some l => mret_ (Some l)
    | None => let! b := lc_block key in if b : bool then mret_ None else lookup_cached f key
    end
  end.

Definition hardlink_key (inode_number : Z) : cstr := lit "hardlink_" ++ to_string inode_number.

(** [lookup_parent] with the recursive [lookup] as an argument. *)
Definition lookup_parent_with (rec : cstr → option loc → FS (Z * option loc))
    (user_path : cstr) (mdi_parent : option loc) : FS (Z * option loc) :=
  let pos := find_last_of (lit "/:") user_path in
  if pos =? npos then mret_ (- EINVAL, mdi_parent)
  else
    let pos := if pos =? 0 then pos + 1 else pos in
    let path := erase user_path pos npos in
    let! r := rec path mdi_parent in
    let '(err, mdi_parent) := r in
    if negb (err =? 0) then mret_ (err, mdi_parent)
    else
      let! l := non_null mdi_parent in
      let! m := getMD l in
      if negb (S_ISDIR (md_mode m)) then mret_ (- ENOTDIR, mdi_parent)
      else let! s := get_ in
           mret_ (check_path_permissions (ctx s) (md_path_permission_children m), mdi_parent).

(** Step 4 of [lookup]. *)
Definition lookup_permissions (rec : cstr → option loc → FS (Z * option loc))
    (user_path : cstr) (mdi : loc) (pathPermissionTimeStamp : Z) : FS (Z * option loc) :=
  let check : FS (Z * option loc) :=
    let! m := getMD mdi in
    let! s := get_ in
    mret_ (check_path_permissions (ctx s) (md_path_permission m), Some mdi) in
  let! m := getMD mdi in
  if md_path_permission_verified m <? pathPermissionTimeStamp then
    let! r := lookup_parent_with rec user_path None in
    let '(err, mdi_parent) := r in
    if negb (err =? 0) && negb (err =? - EACCES) then mret_ (err, Some mdi)
    else
      let! lp := non_null mdi_parent in
      let! parent := getMD lp in
      on_metadata mdi (inherit_path_permissions parent) ;;;
      let! err := put_metadata mdi in
      if err =? - EAGAIN then rec user_path (Some mdi)
      else if negb (err =? 0) then mret_ (err, Some mdi)
      else check
  else check.

Fixpoint lookup (fuel : nat) (user_path : cstr) (mdi : option loc) : FS (Z * option loc) :=
  match fuel with
  | O => nofuel_
  | S f =>
    (* Step 1 *)
    let! r := pmap_toSystemPath fuel user_path LOOKUP in
    let '(key, pathPermissionTimeStamp) := r in
    if pathPermissionTimeStamp <? 0 then mret_ (to_i32 pathPermissionTimeStamp, mdi)
    else
      (* Steps 3 and 4 for the object found or read *)
      let continue_ (cached : bool) (l : loc) : FS (Z * option loc) :=
        let! m := getMD l in
        if md_inode_number m =? 0 then mret_ (- ENOENT, Some l)
        else if bool_decide (md_type m = HARDLINK_S) then
          (if cached then mret_ tt
           else
             let! src := new_md (on_md (λ m0, set_inode_number (md_inode_number m) (set_type HARDLINK_S m0))
                                   (MetadataInfo_new key)) in
             let! b := lc_add key src in REQ_TRUE b) ;;;
          lookup f (hardlink_key (md_inode_number m)) (Some l)
        else if bool_decide (md_type m = FORCE_UPDATE) then
          let! err := database_update in
          lc_invalidate key ;;;
          if negb (err =? 0) then mret_ (err, Some l) else lookup f user_path (Some l)
        else
          (if cached then mret_ tt else let! b := lc_add key l in REQ_TRUE b) ;;;
          lookup_permissions (lookup f) user_path l pathPermissionTimeStamp in
      (* Step 2 *)
      let! hit := lookup_cached fuel key in
      match hit with
      | Some l => continue_ true l
      | None =>
        let! l := new_md (MetadataInfo_new key) in
        let! err := get_metadata l in
        if err =? - ENOENT then
          (let! b := lc_add key l in REQ_TRUE b) ;;; continue_ false l
        else if negb (err =? 0) then lc_invalidate key ;;; mret_ (err, Some l)
        else continue_ false l
      end
  end.

Definition lookup_parent (fuel : nat) : cstr → option loc → FS (Z * option loc) :=
  lookup_parent_with (lookup fuel).

End Lookup.
