(* ===== verification/Directory.v ===== *)
(** * Directory entries (src/fuseops/directory.cc) *)
From S2P Require Import Prelude CppString Proto PathMapDB LRUCache DataInfo MetadataInfo Kinetic FsState KineticHelper Util Lookup.

Section Directory.
Context {W : Type} `{!Env} `{!KineticNamespace W}.

Abbreviation FS := (M (hflat_priv W)).

(** [std::to_string(inode_number) + "|" + filename] *)
Definition direntry_key (inode_number : Z) (filename : cstr) : cstr := to_string inode_number ++ lit "|" ++ filename.

(** The time stamps of the parent; a failure is only logged. *)
Definition touch_parent (fuel : nat) (mdi_parent : loc) : FS unit :=
  let! s := get_ in
  if bool_decide (posix s = FULL) then
    let! _ := put_metadata_forced fuel mdi_parent (touch_ACM mdi_parent) in mret_ tt
  else mret_ tt.

Definition create_directory_entry (fuel : nat) (mdi_parent : loc) (filename : cstr) : FS Z :=
  let! m := getMD mdi_parent in
  let! status := k_Put (direntry_key (md_inode_number m) filename) [] REQUIRE_SAME_VERSION
                   (mk_KineticRecord [] (to_string 1)) in
  if bool_decide (status = REMOTE_VERSION_MISMATCH) then mret_ (- EEXIST)
  else if negb (is_ok status) then mret_ (- EIO)
  else touch_parent fuel mdi_parent ;;; mret_ 0.

Definition delete_directory_entry (fuel : nat) (mdi_parent : loc) (filename : cstr) : FS Z :=
  let! m := getMD mdi_parent in
  let! status := k_Delete (direntry_key (md_inode_number m) filename) (to_string 1) REQUIRE_SAME_VERSION in
  if negb (is_ok status) then mret_ (- EIO)
  else touch_parent fuel mdi_parent ;;; mret_ 0.

(** [element.substr(element.find_first_of('|') + 1, element.length())] *)
Definition direntry_name (element : cstr) : cstr :=
  substr element (wrap64 (find_first_of (lit "|") element 0 + 1)) (size_ element).

Definition readdir_maxsize : Z := 100.

(** The [do ... while] loop of [hflat_readdir]; [keys] is the previous batch.
    The result is the sequence of names handed to [filldir], whose own return
    value is ignored, as is the status of [GetKeyRange]. *)
Fixpoint readdir_loop (fuel : nat) (keystart keyend : cstr) (keys names : list cstr) : FS (list cstr) :=
  match fuel with
  | O => nofuel_
  | S f =>
    let keystart := default keystart (last keys) in
    let! r := k_GetKeyRange keystart keyend readdir_maxsize in
    let keys := r.2 in
    let names := names ++ map (λ e, c_str (direntry_name e)) keys in
    if Z.of_nat (length keys) =? readdir_maxsize then readdir_loop f keystart keyend keys names
    else mret_ names
  end.

Definition hflat_readdir (fuel : nat) (user_path : cstr) : FS (Z * list cstr) :=
  let! r := lookup fuel user_path None in
  let '(err, mdi) := r in
  if negb (err =? 0) then mret_ (err, [])
  else
    let! l := non_null mdi in
    let! denied := access_to l R_OK in
    if negb (denied =? 0) then mret_ (- EACCES, [])
    else
      let! m := getMD l in
      let keystart := to_string (md_inode_number m) ++ lit "|" in
      let keyend := to_string (md_inode_number m) ++ lit "|" ++ [Ascii.ascii_of_nat 251] in
      let! names := readdir_loop fuel keystart keyend [] [] in
      mret_ (0, names).

End Directory.
