(* ===== verification/File.v ===== *)
(** * Creating, opening and removing files and directories
    (src/fuseops/file.cc; [hflat_mkdir] and [hflat_rmdir] of
    src/fuseops/directory.cc)

    The detached thread that deletes the data blocks of a removed file is run
    where it is started. *)
From S2P Require Import Prelude CppString Proto PathMapDB LRUCache DataInfo MetadataInfo Kinetic FsState KineticHelper Util Lookup Directory.

Section File.
Context {W : Type} `{!Env} `{!KineticNamespace W}.

Abbreviation FS := (M (hflat_priv W)).

(** ** Creation *)

Definition initialize_metadata (fuel : nat) (mdi mdi_parent : loc) (mode : Z) : FS unit :=
  touch_ACM mdi ;;;
  change_md mdi (set_type POSIX) ;;;
  let! c := fuse_get_context in
  change_md mdi (set_owner (fc_uid c) (fc_gid c)) ;;;
  change_md mdi (set_mode mode) ;;;
  let! ino := generate_inode_number fuel in
  change_md mdi (set_inode_number ino) ;;;
  let! parent := getMD mdi_parent in
  on_metadata mdi (inherit_path_permissions parent).

(** Every guard of [hflat_create] and [hflat_symlink] before the directory entry:
    the path must not exist. Returns the caller's [mdi]. *)
Definition lookup_absent (fuel : nat) (user_path : cstr) : FS (Z * option loc) :=
  let! r := lookup fuel user_path None in
  let '(err, mdi) := r in
  if err =? 0 then mret_ (- EEXIST, mdi)
  else if negb (err =? - ENOENT) then mret_ (err, mdi)
  else mret_ (0, mdi).

Definition hflat_create (fuel : nat) (user_path : cstr) (mode : Z) : FS Z :=
  let! r := lookup_absent fuel user_path in
  let '(err, mdi) := r in
  if negb (err =? 0) then mret_ err
  else
    let! r := lookup_parent fuel user_path None in
    let '(err, mdi_dir) := r in
    if (err =? - ENOENT) && existsb (λ a, bool_decide (a = ":"%char)) user_path then mret_ (- ENOTDIR)
    else if negb (err =? 0) then mret_ err
    else
      let! mdi_dir := non_null mdi_dir in
      access_to mdi_dir W_OK ;;?
      create_directory_entry fuel mdi_dir (path_to_filename user_path) ;;?
      (let! mdi := non_null mdi in
       initialize_metadata fuel mdi mdi_dir mode ;;;
       let! err := create_metadata mdi in
       REQ_0 err ;;; mret_ 0).

Definition hflat_fcreate := hflat_create.
Definition hflat_mknod := hflat_create.
Definition hflat_mkdir (fuel : nat) (user_path : cstr) (mode : Z) : FS Z :=
  hflat_create fuel user_path (Z.lor mode S_IFDIR).

(** ** Opening *)

Definition O_ACCMODE : Z := 3.
Definition O_RDONLY : Z := 0.
Definition O_WRONLY : Z := 1.
Definition O_RDWR : Z := 2.

Definition hflat_open (fuel : nat) (user_path : cstr) (flags : Z) : FS Z :=
  let? mdi := lookup fuel user_path None in
  let access := Z.land flags O_ACCMODE in
  if access =? O_RDONLY then access_to mdi R_OK
  else if access =? O_WRONLY then access_to mdi W_OK
  else if access =? O_RDWR then access_to mdi (Z.lor R_OK W_OK)
  else mret_ 0.

(** ** Removal *)

Definition unlink_force_update (fuel : nat) (user_path : cstr) : FS Z :=
  let! r := get_metadata_userpath fuel user_path None in
  let '(err, mdi_fu) := r in
  if err =? - ENOENT then mret_ 0
  else if negb (err =? 0) then mret_ err
  else
    let! l := non_null mdi_fu in
    let! m := getMD l in
    assert_ (bool_decide (md_type m = FORCE_UPDATE)) ;;;
    delete_metadata l.

(** The two out-parameters, or the error. *)
Definition unlink_lookup (fuel : nat) (user_path : cstr) : FS (Z + loc * loc) :=
  let! r := lookup fuel user_path None in
  if negb (r.1 =? 0) then mret_ (inl r.1)
  else
    let! rd := lookup_parent fuel user_path None in
    if negb (rd.1 =? 0) then mret_ (inl rd.1)
    else
      let! mdi := non_null r.2 in
      let! mdi_dir := non_null rd.2 in
      let! denied := access_to mdi_dir (Z.lor W_OK X_OK) in
      if negb (denied =? 0) then mret_ (inl (- EACCES))
      else
        let! c := fuse_get_context in
        let! dir := getMD mdi_dir in
        let! m := getMD mdi in
        if negb (fc_uid c =? 0) && has_bit (md_mode dir) S_ISVTX
           && negb (fc_uid c =? md_uid dir) && negb (fc_uid c =? md_uid m)
        then mret_ (inl (- EACCES))
        else mret_ (inr (mdi, mdi_dir)).

Definition unlink_hardlink (fuel : nat) (user_path : cstr) (mdiT : loc) : FS Z :=
  let? mdiS := get_metadata_userpath fuel user_path None in
  let! mS := getMD mdiS in
  assert_ (bool_decide (md_type mS = HARDLINK_S)) ;;;
  if md_link_count mS =? 0 then mret_ (- EINVAL)
  else
    change_md mdiS (set_link_count 0) ;;;
    put_metadata mdiS ;;?
    (change_md mdiT (λ m, set_link_count (md_link_count m - 1) m) ;;;
     let! mT := getMD mdiT in
     let! err := (if md_link_count mT =? 0 then delete_metadata mdiT
                  else touch_AC mdiT ;;; put_metadata mdiT) in
     if negb (err =? 0) then
       change_md mdiS (set_link_count 1) ;;;
       let! e := put_metadata mdiS in
       REQ_0 e ;;; mret_ err
     else
       let! e := delete_metadata mdiS in
       REQ_0 e ;;; mret_ 0).

(** The lambda [datadelete(int size, int ino, ...)]; with a positive block size
    every round lowers [size], so [size] rounds are enough. *)
Fixpoint datadelete_loop (fuel : nat) (size ino : Z) : FS unit :=
  if size <=? 0 then mret_ tt
  else match fuel with
  | O => nofuel_
  | S f =>
    let! s := get_ in
    let! q := quot_ size (blocksize s) in
    let! _ := k_Delete (to_string ino ++ lit "_" ++ to_string q) [] IGNORE_VERSION in
    datadelete_loop f (size - blocksize s) ino
  end.

Definition datadelete (size ino : Z) : FS unit :=
  let size := to_i32 size in datadelete_loop (Z.to_nat size) size (to_i32 ino).

Definition database_remove (fuel : nat) (user_path : cstr) : FS Z :=
  database_operation fuel (mk_db_entry user_path db_entry_Type_REMOVED []).

(** [REQ_0(m)] *)
Definition required (m : FS Z) : FS unit := let! err := m in REQ_0 err.

Fixpoint hflat_unlink (fuel : nat) (user_path : cstr) : FS Z :=
  match fuel with
  | O => nofuel_
  | S f =>
    let! r := unlink_lookup fuel user_path in
    match r with
    | inl err => mret_ err
    | inr (mdi, mdi_dir) =>
      let! m := getMD mdi in
      let hardlink := bool_decide (md_type m = HARDLINK_T) in
      let directory := S_ISDIR (md_mode m) in
      let! err := (if hardlink then unlink_hardlink fuel user_path mdi else delete_metadata mdi) in
      if err =? - EAGAIN then hflat_unlink f user_path
      else if negb (err =? 0) then mret_ err
      else
        let! s := get_ in
        (if hasMapping (pmap_ s) user_path then required (database_remove fuel user_path) else mret_ tt) ;;;
        (if directory then required (unlink_force_update fuel user_path) else mret_ tt) ;;;
        required (delete_directory_entry fuel mdi_dir (path_to_filename user_path)) ;;;
        let! m := getMD mdi in
        (if negb hardlink || (md_link_count m =? 0) then datadelete (md_size m) (md_inode_number m) else mret_ tt) ;;;
        let! o := deref_md mdi in
        let reuse := c_str (systemPath o) in
        let! s := get_ in
        (if hasMapping (pmap_ s) reuse then
           let! err := hflat_create fuel reuse S_IFREG in
           if err =? 0 then let! _ := hflat_unlink f reuse in mret_ tt else mret_ tt
         else mret_ tt) ;;;
        mret_ 0
    end
  end.

(** [hflat_rmdir]: a directory with entries is not removed. *)
Definition hflat_rmdir (fuel : nat) (user_path : cstr) : FS Z :=
  let? mdi := lookup fuel user_path None in
  let! m := getMD mdi in
  let keystart := to_string (md_inode_number m) ++ lit "|" in
  let keyend := to_string (md_inode_number m) ++ lit "|" ++ [Ascii.ascii_of_nat 255] in
  let! r := k_GetKeyRange keystart keyend 1 in
  match r.2 with
  | _ :: _ => mret_ (- ENOTEMPTY)
  | [] => let! _ := database_update in hflat_unlink fuel user_path
  end.

(** ** Mounting: the part of [hflat_init] (src/main.cc) after the construction
    of [hflat_priv]. Errors are only logged. *)
Definition hflat_init (fuel : nat) : FS unit :=
  let! _ := grab_inode_generation_token fuel in
  let! mdi := new_md (MetadataInfo_new (lit "/")) in
  let! err := get_metadata mdi in
  let! err :=
    (if err =? - ENOENT then
       initialize_metadata fuel mdi mdi (Z.lor S_IFDIR 511) ;;; create_metadata mdi
     else mret_ err) in
  let! _ := database_update in
  mret_ tt.

End File.
