(* ===== verification/Data.v ===== *)
(** * File contents: synchronisation (src/fuseops/sync.cc), reading, writing and
    truncation (src/fuseops/data.cc), attributes (src/fuseops/attr.cc, without
    [hflat_statfs]) and [hflat_release] (src/fuseops/file.cc) *)
From S2P Require Import Prelude CppString Proto PathMapDB LRUCache DataInfo MetadataInfo Kinetic FsState KineticHelper Util Lookup.

Inductive rw := READ | WRITE.

#[export] Instance rw_eq_dec : EqDecision rw.
Proof. solve_decision. Defined.

Section Data.
Context {W : Type} `{!Env} `{!KineticNamespace W}.

Abbreviation FS := (M (hflat_priv W)).

Definition O_APPEND : Z := 1024.

(** [fi->flags & O_APPEND]; [None] is a null [fi]. *)
Definition appending (fi : option Z) : bool :=
  match fi with Some flags => has_bit flags O_APPEND | None => false end.

(** ** Synchronisation *)

(** The block number in a data key, [<inode number>_<block number>]. *)
Definition key_blocknum (key : cstr) : Z :=
  to_i32 (to_int64 (substr key (wrap64 (find_first_of (lit "_") key 0 + 1)) (size_ key))).

Fixpoint hflat_fsync (fuel : nat) (user_path : cstr) (fi : option Z) : FS Z :=
  match fuel with
  | O => nofuel_
  | S f =>
    let? mdi := lookup fuel user_path None in
    let! o := deref_md mdi in
    match dirty_data o with
    | None => mret_ 0
    | Some di =>
      let! d := deref_di di in
      if negb (hasUpdates d) then mret_ 0
      else
        let! s := get_ in
        let newsize := Z.max (wrap64 (blocksize s * key_blocknum (di_key d) + size_ (di_d d))) (md_size (md o)) in
        if (md_size (md o) <? newsize) || bool_decide (posix s = FULL) then
          change_md mdi (set_size newsize) ;;;
          let! q := quot_ newsize (blocksize s) in
          change_md mdi (set_blocks (q + 1)) ;;;
          touch_ACM mdi ;;;
          let! err := put_metadata mdi in
          if negb (err =? 0) && appending fi then
            dc_invalidate (di_key d) ;;; mret_ err
          else if err =? - EAGAIN then hflat_fsync f user_path fi
          else put_data fuel di
        else put_data fuel di
    end
  end.

Definition hflat_release (fuel : nat) (user_path : cstr) (fi : option Z) : FS Z := hflat_fsync fuel user_path fi.
Definition hflat_fsyncdir : FS Z := mret_ 0.
Definition hflat_flush : FS Z := mret_ 0.

(** ** Attributes *)

Record stat := mk_stat {
  st_ino : Z; st_atime : Z; st_mtime : Z; st_ctime : Z; st_uid : Z; st_gid : Z;
  st_mode : Z; st_nlink : Z; st_size : Z; st_blocks : Z; st_blksize : Z;
}.

Definition stat_of (blksize : Z) (m : Metadata) : stat :=
  mk_stat (md_inode_number m) (md_atime m) (md_mtime m) (md_ctime m) (md_uid m) (md_gid m)
    (md_mode m) (md_link_count m) (md_size m) (md_blocks m) blksize.

(** The result of the flush is ignored. *)
Definition hflat_getattr (fuel : nat) (user_path : cstr) : FS (Z * option stat) :=
  let! r := lookup fuel user_path None in
  let '(err, mdi) := r in
  if negb (err =? 0) then mret_ (err, None)
  else
    let! l := non_null mdi in
    let! s := get_ in
    (if md_dirty s l then let! _ := hflat_fsync fuel user_path None in mret_ tt else mret_ tt) ;;;
    let! m := getMD l in
    let! s := get_ in
    mret_ (0, Some (stat_of (blocksize s) m)).

Definition hflat_fgetattr := hflat_getattr.

(** [hflat_utimens(user_path, tv)] with the two [tv_sec] fields. *)
Fixpoint hflat_utimens (fuel : nat) (user_path : cstr) (tv0 tv1 : Z) : FS Z :=
  match fuel with
  | O => nofuel_
  | S f =>
    let? mdi := lookup fuel user_path None in
    change_md mdi (λ m, set_times tv0 tv1 (md_ctime m) m) ;;;
    let! err := put_metadata mdi in
    if err =? - EAGAIN then hflat_utimens f user_path tv0 tv1 else mret_ err
  end.

(** ** Blocks *)

Definition data_key (inode_number blocknum : Z) : cstr := to_string inode_number ++ lit "_" ++ to_string blocknum.

(** The loop that waits for the block in the data cache, or loads it with [load]
    and adds it, and looks it up again. *)
Fixpoint data_cached (fuel : nat) (key : cstr) (load : FS (Z * option loc)) : FS (Z * option loc) :=
  match fuel with
  | O => nofuel_
  | S f =>
    let! r := dc_get key in
    match r with
    | Some di => mret_ (0, Some di)
    | None =>
      let! b := dc_block key in
      if b : bool then
        let! r := load in
        let '(err, di) := r in
        if negb (err =? 0) then dc_invalidate key ;;; mret_ (err, di)
        else
          let! l := non_null di in
          (let! added := dc_add key l in REQ_TRUE added) ;;;
          data_cached f key load
      else data_cached f key load
    end
  end.


Definition fits_int (z : Z) : bool := (-2147483648 <=? z) && (z <? 2147483648).

(** The second half of [do_rw], on the block [l]: the return value, the
    out-parameter [di] and the content of [buf]. The product
    [blocknum * blocksize] is computed in [int]. *)
Definition rw_in_block (buf : cstr) (size offset blocknum : Z) (l : loc) (mode : rw) : FS (Z * option loc * cstr) :=
  let! s := get_ in
  let bs := blocksize s in
  if negb (fits_int (blocknum * bs)) then undef_
  else
    let inblockstart := to_i32 (offset - blocknum * bs) in
    let inblocksize := to_i32 (if wrap64 (bs - inblockstart) <? size then bs - inblockstart else size) in
    match mode with
    | WRITE =>
      let! _ := on_datainfo l (updateData buf inblockstart (wrap64 inblocksize)) in
      mret_ (inblocksize, Some l, buf)
    | READ =>
      let! d := deref_di l in
      let copysize := Z.min inblocksize (to_i32 (size_ (di_d d)) - inblockstart) in
      let! buf := poke buf 0 (replicate (Z.to_nat size) Ascii.zero) in
      if 0 <? copysize then
        if (inblockstart <? 0) || (size_ (di_d d) <? inblockstart) then throw_
        else
          let! buf := poke buf 0 (substr (di_d d) inblockstart copysize) in
          mret_ (inblocksize, Some l, buf)
      else mret_ (inblocksize, Some l, buf)
    end.

(** [do_rw(buf, size, offset, mdi, di, mode)] *)
Definition do_rw (fuel : nat) (buf : cstr) (size offset : Z) (mdi : loc) (mode : rw) : FS (Z * option loc * cstr) :=
  let! s := get_ in
  let! q := quot_ offset (blocksize s) in
  let blocknum := to_i32 q in
  let! m := getMD mdi in
  let key := data_key (md_inode_number m) blocknum in
  let load : FS (Z * option loc) :=
    let! m := getMD mdi in
    if bool_decide (mode = WRITE) && (md_size m <? wrap64 (offset + size)) then
      let! l := new_di (DataInfo_new key [] []) in mret_ (0, Some l)
    else get_data key in
  let! r := data_cached fuel key load in
  let '(err, di) := r in
  if negb (err =? 0) then mret_ (err, di, buf)
  else let! l := non_null di in rw_in_block buf size offset blocknum l mode.

Definition hflat_read (fuel : nat) (user_path buf : cstr) (size offset : Z) : FS (Z * cstr) :=
  let! r := lookup fuel user_path None in
  let '(err, mdi) := r in
  if negb (err =? 0) then mret_ (err, buf)
  else
    let! l := non_null mdi in
    let! r := do_rw fuel buf size offset l READ in
    mret_ (r.1.1, r.2).

(** [mdi->setDirtyData(di)] *)
Definition set_dirty (mdi : loc) (di : option loc) : FS bool :=
  let! o := deref_md mdi in
  let! s := get_ in
  let '(b, o) := setDirtyData (di_hasUpdates s) di o in
  write_md mdi o ;;; mret_ b.

(** [size] is a [size_t]: a negative result of [do_rw] is a large number here,
    and the return value is converted back to [int]. *)
Fixpoint hflat_write (fuel : nat) (user_path buf : cstr) (size offset fi_flags : Z) : FS Z :=
  match fuel with
  | O => nofuel_
  | S f =>
    let? mdi := lookup fuel user_path None in
    let! r := do_rw fuel buf size offset mdi WRITE in
    let '(n, di, _) := r in
    let size := wrap64 n in
    if size =? 0 then mret_ 0
    else
      let! clean := set_dirty mdi di in
      (if clean : bool then mret_ 0
       else hflat_fsync fuel user_path (Some fi_flags) ;;? (let! _ := set_dirty mdi di in mret_ 0)) ;;?
      (let! s := get_ in
       let! rest := rem_ (wrap64 (offset + size)) (blocksize s) in
       if has_bit fi_flags O_APPEND || (rest =? 0) then
         let! err := hflat_fsync fuel user_path (Some fi_flags) in
         if err =? - EAGAIN then hflat_write f user_path buf size offset fi_flags
         else if negb (err =? 0) then mret_ err
         else mret_ (to_i32 size)
       else mret_ (to_i32 size))
  end.

(** The blocks from [i] on past a truncation point, [n] of them; the result of
    [delete_data] is ignored. *)
Fixpoint truncate_blocks (n : nat) (inode_number i : Z) : FS unit :=
  match n with
  | O => mret_ tt
  | S n =>
    let key := data_key inode_number i in
    let! r := dc_get key in
    let! di := (match r with
                | Some di => dc_invalidate key ;;; mret_ di
                | None => new_di (DataInfo_new key [] [])
                end) in
    let! _ := delete_data di in
    truncate_blocks n inode_number (i + 1)
  end.

Definition u32_max : Z := 4294967295.

Fixpoint hflat_truncate (fuel : nat) (user_path : cstr) (offset : Z) : FS Z :=
  match fuel with
  | O => nofuel_
  | S f =>
    let? mdi := lookup fuel user_path None in
    hflat_fsync fuel user_path None ;;?
    (let! denied := access_to mdi W_OK in
     if negb (denied =? 0) then mret_ (- EACCES)
     else if u32_max <? offset then mret_ (- EFBIG)
     else
       let! m := getMD mdi in
       let size := md_size m in
       change_md mdi (set_size offset) ;;;
       touch_ACM mdi ;;;
       let! err := put_metadata mdi in
       if err =? - EAGAIN then hflat_truncate f user_path offset
       else if negb (err =? 0) then mret_ err
       else
         let! s := get_ in
         let! first := quot_ offset (blocksize s) in
         let! last := quot_ size (blocksize s) in
         (if offset <? size then
            let? di := data_cached fuel (data_key (md_inode_number m) first) (get_data (data_key (md_inode_number m) first)) in
            let! inblock := rem_ offset (blocksize s) in
            on_datainfo di (truncate inblock) ;;;
            let! _ := put_data fuel di in
            mret_ 0
          else mret_ 0) ;;?
         (let i := to_i32 (first + 1) in
          (if (i <=? last) && (2147483647 <=? last) then undef_ else mret_ tt) ;;;
          truncate_blocks (Z.to_nat (last - i + 1)) (md_inode_number m) i ;;;
          mret_ 0))
  end.

Definition hflat_ftruncate := hflat_truncate.

End Data.
