(* ===== verification/PermissionOps.v ===== *)
(** * Access checks and permission changes (src/fuseops/permission.cc) *)
From S2P Require Import Prelude CppString Proto PathMapDB LRUCache DataInfo MetadataInfo Kinetic FsState KineticHelper Util Lookup File.

Section PermissionOps.
Context {W : Type} `{!Env} `{!KineticNamespace W}.

Abbreviation FS := (M (hflat_priv W)).

Definition hflat_access (fuel : nat) (user_path : cstr) (mode : Z) : FS Z :=
  if Nat.eqb (length user_path) 1 then mret_ 0
  else
    let! c := fuse_get_context in
    if fc_uid c =? 0 then mret_ 0
    else let? mdi := lookup fuel user_path None in access_to mdi mode.

(** [(mode_t) -1], [(uid_t) -1] and [(gid_t) -1] *)
Definition unset : Z := 4294967295.

Definition permission_lookup (fuel : nat) (user_path : cstr) (mode uid gid : Z) : FS (Z * option loc) :=
  let! r := lookup fuel user_path None in
  let '(err, mdi) := r in
  if negb (err =? 0) then mret_ (err, mdi)
  else
    let! c := fuse_get_context in
    if fc_uid c =? 0 then mret_ (0, mdi)
    else
      let! l := non_null mdi in
      let! m := getMD l in
      if negb (fc_uid c =? md_uid m) then mret_ (- EPERM, mdi)
      else if negb (gid =? unset) && negb (gid =? fc_gid c) then mret_ (- EPERM, mdi)
      else mret_ (0, mdi).

(** The two adjustments of [mode] before the change, as the code orders them. *)
Definition chmod_mode (c : fuse_context) (m : Metadata) (mode : Z) : Z :=
  if negb (fc_uid c =? 0) && negb (mode =? unset) && negb (fc_gid c =? md_gid m) && S_ISREG mode
  then Z.land mode (Z.lnot S_ISGID) else mode.

Definition chown_mode (c : fuse_context) (m : Metadata) (mode uid gid : Z) : FS Z :=
  if negb (fc_uid c =? 0) && (negb (uid =? unset) || negb (gid =? unset)) then
    assert_ (mode =? unset) ;;;
    mret_ (Z.land (Z.land (md_mode m) (Z.lnot S_ISUID)) (Z.lnot S_ISGID))
  else mret_ mode.

Fixpoint do_permission_change (fuel : nat) (user_path : cstr) (mode uid gid : Z) : FS Z :=
  match fuel with
  | O => nofuel_
  | S f =>
    let? mdi := permission_lookup fuel user_path mode uid gid in
    let! c := fuse_get_context in
    let! m := getMD mdi in
    let mode := chmod_mode c m mode in
    let! mode := chown_mode c m mode uid gid in
    (if uid =? unset then mret_ tt else change_md mdi (λ m, set_owner uid (md_gid m) m)) ;;;
    (if gid =? unset then mret_ tt else change_md mdi (λ m, set_owner (md_uid m) gid m)) ;;;
    (if mode =? unset then mret_ tt else change_md mdi (set_mode mode)) ;;;
    touch_AC mdi ;;;
    let! err := put_metadata mdi in
    if err =? - EAGAIN then do_permission_change f user_path mode uid gid
    else if negb (err =? 0) then mret_ err
    else
      let! m := getMD mdi in
      let! changed := (if S_ISDIR (md_mode m) then on_metadata mdi computePathPermissionChildren else mret_ false) in
      (if changed : bool then
         required (database_operation fuel (mk_db_entry user_path db_entry_Type_NONE [])) ;;;
         let! s := get_ in
         let snapshot_version := getSnapshotVersion (pmap_ s) in
         let! err := put_metadata_forced fuel mdi (change_md mdi (set_path_permission_verified snapshot_version)) in
         assert_ ((err =? 0) || (err =? - ENOENT))
       else mret_ tt) ;;;
      mret_ 0
  end.

Definition hflat_chmod (fuel : nat) (user_path : cstr) (mode : Z) : FS Z :=
  do_permission_change fuel user_path mode unset unset.

Definition hflat_chown (fuel : nat) (user_path : cstr) (uid gid : Z) : FS Z :=
  do_permission_change fuel user_path unset uid gid.

End PermissionOps.
