(* ===== verification/Link.v ===== *)
(** * Symbolic and hard links (src/fuseops/link.cc) *)
From S2P Require Import Prelude CppString Proto PathMapDB LRUCache DataInfo MetadataInfo Kinetic FsState KineticHelper Util Lookup Directory File.

Section Link.
Context {W : Type} `{!Env} `{!KineticNamespace W}.

Abbreviation FS := (M (hflat_priv W)).

(** ** Symbolic links *)

(** [strncpy(buffer, src, size)] pads with NUL characters. *)
Definition strncpy_bytes (src : cstr) (size : nat) : cstr :=
  take size src ++ replicate (size - length src) Ascii.zero.

(** The error of the path map is not looked at; the result is the buffer. *)
Definition hflat_readlink (fuel : nat) (user_path buffer : cstr) (size : Z) : FS (Z * cstr) :=
  let! r := pmap_toSystemPath fuel user_path READLINK in
  let link_destination := r.1 in
  if size <=? size_ link_destination then
    let! buffer := poke buffer 0 (strncpy_bytes (c_str link_destination) (Z.to_nat size)) in
    if size =? 0 then undef_
    else
      let! buffer := poke buffer (Z.to_nat (size - 1)) [Ascii.zero] in
      mret_ (0, buffer)
  else
    let! buffer := poke buffer 0 (c_str link_destination ++ [Ascii.zero]) in
    mret_ (0, buffer).

(** [S_IFLNK | S_IRWXU | S_IRGRP | S_IXGRP | S_IXOTH] *)
Definition symlink_mode : Z :=
  Z.lor S_IFLNK (Z.lor 448 (Z.lor 32 (Z.lor S_IXGRP S_IXOTH))).

Definition hflat_symlink (fuel : nat) (target origin : cstr) : FS Z :=
  let! r := lookup_absent fuel origin in
  let '(err, mdi) := r in
  if negb (err =? 0) then mret_ err
  else
    let? mdi_dir := lookup_parent fuel origin None in
    access_to mdi_dir W_OK ;;?
    create_directory_entry fuel mdi_dir (path_to_filename origin) ;;?
    database_operation fuel (mk_db_entry origin db_entry_Type_SYMLINK target) ;;?
    (let! mdi := non_null mdi in
     initialize_metadata fuel mdi mdi_dir symlink_mode ;;;
     required (create_metadata mdi) ;;;
     mret_ 0).

(** ** Hard links *)

Definition toHardlinkT (mdi_target : loc) : FS Z :=
  let! t := deref_md mdi_target in
  assert_ (bool_decide (md_type (md t) = POSIX)) ;;;
  let! mdi_source := new_md (setKeyVersion (keyVersion t) (MetadataInfo_new (systemPath t))) in
  change_md mdi_source (λ m, set_link_count 1 (set_inode_number (md_inode_number (md t)) (set_type HARDLINK_S m))) ;;;
  write_md mdi_target (on_md (set_type HARDLINK_T) (setSystemPath (hardlink_key (md_inode_number (md t))) t)) ;;;
  put_metadata mdi_source ;;?
  (required (create_metadata mdi_target) ;;; mret_ 0).

Fixpoint hflat_hardlink (fuel : nat) (target origin : cstr) : FS Z :=
  match fuel with
  | O => nofuel_
  | S f =>
    let? mdi_target := lookup fuel target None in
    let? mdi_origin_dir := lookup_parent fuel origin None in
    let? mdi_target_dir := lookup_parent fuel target None in
    access_to mdi_origin_dir W_OK ;;?
    access_to mdi_target_dir W_OK ;;?
    (let! r := lookup_absent fuel origin in
     let '(err, mdi_origin) := r in
     if negb (err =? 0) then mret_ err
     else
       let! mt := deref_md mdi_target in
       assert_ (negb (S_ISDIR (md_mode (md mt)))) ;;;
       let! mdi_origin := non_null mdi_origin in
       let! mo := deref_md mdi_origin in
       lc_invalidate (systemPath mo) ;;;
       lc_invalidate (systemPath mt) ;;;
       let filename := path_to_filename origin in
       (* undo the directory entry, and retry if another client interfered *)
       let fail (err : Z) : FS Z :=
         required (delete_directory_entry fuel mdi_origin_dir filename) ;;;
         if err =? - EAGAIN then hflat_hardlink f target origin else mret_ err in
       create_directory_entry fuel mdi_origin_dir filename ;;?
       (let! err := (if bool_decide (md_type (md mt) = HARDLINK_T) then mret_ 0 else toHardlinkT mdi_target) in
        if negb (err =? 0) then fail err
        else
          touch_AC mdi_target ;;;
          change_md mdi_target (λ m, set_link_count (md_link_count m + 1) m) ;;;
          let! err := put_metadata mdi_target in
          if negb (err =? 0) then fail err
          else
            let! mt := getMD mdi_target in
            change_md mdi_origin (λ m, set_link_count 1 (set_inode_number (md_inode_number mt) (set_type HARDLINK_S m))) ;;;
            required (create_metadata mdi_origin) ;;;
            mret_ 0))
  end.

End Link.
