(* ===== verification/Rename.v ===== *)
(** * Renaming (src/fuseops/rename.cc) *)
From S2P Require Import Prelude CppString Proto PathMapDB LRUCache DataInfo MetadataInfo Kinetic FsState KineticHelper Util Lookup Directory File Link.

Section Rename.
Context {W : Type} `{!Env} `{!KineticNamespace W}.

Abbreviation FS := (M (hflat_priv W)).

(** The directory of a path is sticky, and the caller owns neither it nor the
    entry. *)
Definition sticky_denies (c : fuse_context) (dir m : Metadata) : bool :=
  negb (fc_uid c =? 0) && has_bit (md_mode dir) S_ISVTX
  && negb (fc_uid c =? md_uid dir) && negb (fc_uid c =? md_uid m).

(** The part of the same condition before the entry is dereferenced. *)
Definition sticky_dir (c : fuse_context) (dir : Metadata) : bool :=
  negb (fc_uid c =? 0) && has_bit (md_mode dir) S_ISVTX && negb (fc_uid c =? md_uid dir).

(** The four out-parameters, or the error. *)
Definition rename_lookup (fuel : nat) (user_path_from user_path_to : cstr)
    : FS (Z + loc * loc * loc * option loc) :=
  if is_prefix user_path_from user_path_to then mret_ (inl (- EINVAL))
  else
    let! r := lookup_parent fuel user_path_from None in
    if negb (r.1 =? 0) then mret_ (inl r.1) else
    let! dir_mdifrom := non_null r.2 in
    let! r := lookup_parent fuel user_path_to None in
    if negb (r.1 =? 0) then mret_ (inl r.1) else
    let! dir_mdito := non_null r.2 in
    let! r := lookup fuel user_path_from None in
    if negb (r.1 =? 0) then mret_ (inl r.1) else
    let! mdifrom := non_null r.2 in
    let! c := fuse_get_context in
    let! df := getMD dir_mdifrom in
    let! mf := getMD mdifrom in
    if sticky_denies c df mf then mret_ (inl (- EACCES)) else
    let! r := lookup fuel user_path_to None in
    let '(err, mdito) := r in
    if negb (err =? 0) && negb (err =? - ENOENT) then mret_ (inl err) else
    let! dt := getMD dir_mdito in
    let! sticky := (if sticky_dir c dt then
                      let! l := non_null mdito in
                      let! mt := getMD l in
                      mret_ (sticky_denies c dt mt)
                    else mret_ false) in
    if sticky : bool then mret_ (inl (- EACCES)) else
    let! err := access_to dir_mdito W_OK in
    if negb (err =? 0) then mret_ (inl err) else
    let! err := access_to dir_mdifrom W_OK in
    if negb (err =? 0) then mret_ (inl err) else
    mret_ (inr (dir_mdifrom, dir_mdito, mdifrom, mdito)).

(** The metadata of [from] under the key of [to], then no longer under its own. *)
Definition store_at_target (mdito mdifrom : loc) : FS Z :=
  let! from := deref_md mdifrom in
  let! to := deref_md mdito in
  let! status := k_Put (systemPath to) [] REQUIRE_SAME_VERSION
                   (mk_KineticRecord (SerializeAsString (md from)) (keyVersion to)) in
  if negb (is_ok status) then mret_ (- EIO) else mret_ 0.

Definition delete_source (mdifrom : loc) : FS Z :=
  let! from := deref_md mdifrom in
  let! status := k_Delete (systemPath from) [] IGNORE_VERSION in
  if negb (is_ok status) then mret_ (- EIO) else mret_ 0.

Definition rename_regular (mdito mdifrom : loc) : FS Z :=
  touch_AC mdifrom ;;; store_at_target mdito mdifrom ;;? delete_source mdifrom.

Definition rename_softlink (fuel : nat) (user_path_from user_path_to : cstr) (mdito mdifrom : loc) : FS Z :=
  let! r := hflat_readlink fuel user_path_from (replicate (Z.to_nat PATH_MAX) Ascii.zero) PATH_MAX in
  REQ_0 r.1 ;;;
  required (database_operation fuel (mk_db_entry user_path_from db_entry_Type_REMOVED [])) ;;;
  required (database_operation fuel (mk_db_entry user_path_to db_entry_Type_SYMLINK (c_str r.2))) ;;;
  rename_regular mdito mdifrom.

Definition rename_hardlink (fuel : nat) (user_path_from : cstr) (mdito : loc) : FS Z :=
  let! r := get_metadata_userpath fuel user_path_from None in
  REQ_0 r.1 ;;;
  let! mdifrom := non_null r.2 in
  let! m := getMD mdifrom in
  assert_ (bool_decide (md_type m = HARDLINK_S)) ;;;
  required (rename_regular mdito mdifrom) ;;;
  let! from := deref_md mdifrom in
  lc_invalidate (systemPath from) ;;;
  mret_ 0.

Definition rename_directory (fuel : nat) (user_path_from user_path_to : cstr)
    (mdito mdifrom dir_mdito dir_mdifrom : loc) : FS Z :=
  required (database_operation fuel (mk_db_entry user_path_from db_entry_Type_MOVE user_path_to)) ;;;
  let! df := deref_md dir_mdifrom in
  let fu_dir := if 1 <? size_ (systemPath df) then systemPath df ++ lit "/" else lit "/" in
  let! mdi_fu := new_md (MetadataInfo_new (fu_dir ++ path_to_filename user_path_from)) in
  let! err := get_metadata mdi_fu in
  let! fu := getMD mdi_fu in
  (if (err =? 0) && bool_decide (md_type fu = FORCE_UPDATE) then required (delete_metadata mdi_fu) else mret_ tt) ;;;
  change_md mdito (set_type FORCE_UPDATE) ;;;
  let! ino := generate_inode_number fuel in
  change_md mdito (set_inode_number ino) ;;;
  required (create_metadata mdito) ;;;
  let! s := get_ in
  (if bool_decide (posix s = FULL) then required (put_metadata_forced fuel mdifrom (touch_AC mdifrom)) else mret_ tt) ;;;
  mret_ 0.

(** An existing target is removed; [mdito] is looked up again if it was a hard
    link. *)
Definition rename_remove_target (fuel : nat) (user_path_to : cstr) (mdito : loc) : FS (Z * option loc) :=
  let! mt := getMD mdito in
  if md_inode_number mt =? 0 then mret_ (0, Some mdito)
  else
    let! err := (if S_ISDIR (md_mode mt) then hflat_rmdir fuel user_path_to else hflat_unlink fuel user_path_to) in
    if negb (err =? 0) then mret_ (err, Some mdito)
    else
      let! mt := getMD mdito in
      if bool_decide (md_type mt = HARDLINK_T) then
        let! r := lookup fuel user_path_to (Some mdito) in mret_ (0, r.2)
      else mret_ (0, Some mdito).

(** The name of the entry from which a crashed rename is rolled back. *)
Definition recovery_direntry (user_path_from user_path_to : cstr) : cstr :=
  path_to_filename user_path_to ++ lit "|recovery|" ++ user_path_from.

(** The move itself, which depends on the type. *)
Definition rename_apply (fuel : nat) (user_path_from user_path_to : cstr) (mdito mdifrom dir_mdito dir_mdifrom : loc) : FS unit :=
  let! mf := getMD mdifrom in
  let directory := S_ISDIR (md_mode mf) in
  let softlink := S_ISLNK (md_mode mf) in
  let hardlink := bool_decide (md_type mf = HARDLINK_T) in
  let regular := negb directory && negb hardlink && negb softlink in
  (if directory then required (rename_directory fuel user_path_from user_path_to mdito mdifrom dir_mdito dir_mdifrom)
   else mret_ tt) ;;;
  (if softlink then required (rename_softlink fuel user_path_from user_path_to mdito mdifrom) else mret_ tt) ;;;
  (if hardlink then required (rename_hardlink fuel user_path_from mdito) else mret_ tt) ;;;
  (if regular then required (rename_regular mdito mdifrom) else mret_ tt).

(** The recovery entry is removed and both paths are forgotten. *)
Definition rename_finish (fuel : nat) (recovery : cstr) (dir_mdito mdito mdifrom : loc) : FS Z :=
  required (delete_directory_entry fuel dir_mdito recovery) ;;;
  let! to := deref_md mdito in
  lc_invalidate (systemPath to) ;;;
  let! from := deref_md mdifrom in
  lc_invalidate (systemPath from) ;;;
  mret_ 0.

Definition hflat_rename (fuel : nat) (user_path_from user_path_to : cstr) : FS Z :=
  let! r := rename_lookup fuel user_path_from user_path_to in
  match r with
  | inl err => mret_ err
  | inr (dir_mdifrom, dir_mdito, mdifrom, mdito) =>
    let! mdito := non_null mdito in
    let? mdito := rename_remove_target fuel user_path_to mdito in
    create_directory_entry fuel dir_mdito (path_to_filename user_path_to) ;;?
    (let recovery := recovery_direntry user_path_from user_path_to in
     required (create_directory_entry fuel dir_mdito recovery) ;;;
     let! err := delete_directory_entry fuel dir_mdifrom (path_to_filename user_path_from) in
     if negb (err =? 0) then
       required (delete_directory_entry fuel dir_mdito (path_to_filename user_path_to)) ;;;
       required (delete_directory_entry fuel dir_mdito recovery) ;;;
       mret_ err
     else
       rename_apply fuel user_path_from user_path_to mdito mdifrom dir_mdito dir_mdifrom ;;;
       rename_finish fuel recovery dir_mdito mdito mdifrom)
  end.

End Rename.
