(* ===== verification/Fsck.v ===== *)
(** * Checking a directory (src/fsck/fsck.cc) *)
From S2P Require Import Prelude CppString Proto PathMapDB LRUCache DataInfo MetadataInfo Kinetic FsState KineticHelper Util Lookup Directory File.

Section Fsck.
Context {W : Type} `{!Env} `{!KineticNamespace W}.

Abbreviation FS := (M (hflat_priv W)).

(** One batch of keys: the first failing lookup ends the scan; [entry] is the
    out-parameter. *)
Fixpoint scan_batch (fuel : nat) (user_path : cstr) (keys : list cstr) (entry : cstr) : FS (Z * cstr) :=
  match keys with
  | [] => mret_ (0, entry)
  | element :: keys =>
    let entry := direntry_name element in
    let! r := lookup fuel (c_str (user_path ++ entry)) None in
    if negb (r.1 =? 0) then mret_ (r.1, entry) else scan_batch fuel user_path keys entry
  end.

Definition scan_maxsize : Z := 100.

Fixpoint scan_loop (fuel : nat) (user_path keystart keyend : cstr) (keys : list cstr) (entry : cstr) : FS (Z * cstr) :=
  match fuel with
  | O => nofuel_
  | S f =>
    let keystart := default keystart (last keys) in
    let! r := k_GetKeyRange keystart keyend scan_maxsize in
    let keys := r.2 in
    let! r := scan_batch fuel user_path keys entry in
    let '(err, entry) := r in
    if negb (err =? 0) then mret_ (err, entry)
    else if Z.of_nat (length keys) =? scan_maxsize then scan_loop f user_path keystart keyend keys entry
    else mret_ (0, entry)
  end.

Definition scan_direntries (fuel : nat) (user_path : cstr) (dir : loc) (entry : cstr) : FS (Z * cstr) :=
  let! m := getMD dir in
  let keystart := to_string (md_inode_number m) ++ lit "|" in
  let keyend := to_string (md_inode_number m) ++ lit "|" ++ [Ascii.ascii_of_nat 254] in
  scan_loop fuel user_path keystart keyend [] entry.

(** [if (PRIV->pmap.hasMapping(path)) { ... REMOVED ... if(err) return err; }] *)
Definition remove_mapping (fuel : nat) (path : cstr) : FS Z :=
  let! s := get_ in
  if hasMapping (pmap_ s) (c_str path) then database_remove fuel path else mret_ 0.

(** [origin_mdi->getMD()] through a pointer that may be null. *)
Definition md_of (p : option loc) : FS Metadata := let! l := non_null p in getMD l.

(** One of the two objects exists and passes the test; the second pointer is
    only followed if the first object does not. *)
Definition either_live (test : Metadata → bool) (target origin : option loc) : FS bool :=
  let! t := md_of target in
  if negb (md_inode_number t =? 0) && test t then mret_ true
  else let! o := md_of origin in mret_ (negb (md_inode_number o =? 0) && test o).

(** The origin's metadata key does not exist: it is copied from the target. *)
Definition copy_to_origin (target_mdi origin_mdi : option loc) : FS Z :=
  let! o := md_of origin_mdi in
  if md_inode_number o =? 0 then
    let! t := md_of target_mdi in
    assert_ (negb (md_inode_number t =? 0)) ;;;
    assert_ (negb (S_ISDIR (md_mode t))) ;;;
    let! lt := non_null target_mdi in
    let! to := deref_md lt in
    let! lo := non_null origin_mdi in
    let! oo := deref_md lo in
    let! status := k_Put (systemPath oo) [] REQUIRE_SAME_VERSION
                     (mk_KineticRecord (SerializeAsString (md to)) (keyVersion to)) in
    mret_ (if negb (is_ok status) then - EIO else 0)
  else mret_ 0.

(** The target's metadata key is deleted if it exists. *)
Definition delete_target (target_mdi : option loc) : FS Z :=
  let! t := md_of target_mdi in
  if negb (md_inode_number t =? 0) then
    let! lt := non_null target_mdi in
    let! to := deref_md lt in
    let! status := k_Delete (systemPath to) [] IGNORE_VERSION in
    mret_ (if negb (is_ok status) then - EIO else 0)
  else mret_ 0.

(** The last part of [recover_rename]: the metadata key and the directory entry
    exist at the origin, then the recovery entry goes. *)
Definition recover_finish (fuel : nat) (target_parent_mdi : loc) (entry origin : cstr)
    (target_mdi origin_mdi origin_parent_mdi : option loc) : FS Z :=
  copy_to_origin target_mdi origin_mdi ;;?
  delete_target target_mdi ;;?
  (let! parent := non_null origin_parent_mdi in
   let! err := create_directory_entry fuel parent (path_to_filename origin) in
   if negb (err =? 0) && negb (err =? - EEXIST) then mret_ err
   else delete_directory_entry fuel target_parent_mdi entry).

Definition recover_origin (entry : cstr) : cstr :=
  substr entry (wrap64 (find_last_of (lit "|") entry + 1)) (size_ entry).

Definition recover_target (dir_path entry : cstr) : cstr :=
  let target := if bool_decide (last dir_path = Some "/"%char) then dir_path else dir_path ++ lit "/" in
  target ++ substr entry 0 (find_first_of (lit "|") entry 0).

Definition recover_rename (fuel : nat) (dir_path : cstr) (target_parent_mdi : loc) (entry : cstr) : FS Z :=
  let origin := recover_origin entry in
  let target := recover_target dir_path entry in
  let! r := lookup fuel (c_str target) None in
  let target_mdi := r.2 in
  let! r := lookup fuel (c_str origin) None in
  let origin_mdi := r.2 in
  let! r := lookup_parent fuel (c_str origin) None in
  let origin_parent_mdi := r.2 in
  lc_invalidate origin ;;;
  lc_invalidate target ;;;
  let! hardlinks := either_live (λ m, bool_decide (md_type m = HARDLINK_T)) target_mdi origin_mdi in
  let reload : FS (option loc * option loc) :=
    let! rt := get_metadata_userpath fuel (c_str target) target_mdi in
    let! ro := get_metadata_userpath fuel (c_str origin) origin_mdi in
    mret_ (rt.2, ro.2) in
  let! p := (if hardlinks : bool then reload else mret_ (target_mdi, origin_mdi)) in
  let '(target_mdi, origin_mdi) := p in
  let! directories := either_live (λ m, S_ISDIR (md_mode m)) target_mdi origin_mdi in
  if directories : bool then
    remove_mapping fuel target ;;?
    remove_mapping fuel origin ;;?
    (let! rt := get_metadata_userpath fuel (c_str target) target_mdi in
     let! ro := get_metadata_userpath fuel (c_str origin) origin_mdi in
     recover_finish fuel target_parent_mdi entry origin rt.2 ro.2 origin_parent_mdi)
  else recover_finish fuel target_parent_mdi entry origin target_mdi origin_mdi origin_parent_mdi.

(** The [while] loop of [fsck_directory]: every round repairs one entry. *)
Fixpoint fsck_loop (fuel : nat) (user_path : cstr) (mdi : loc) (entry : cstr) : FS Z :=
  match fuel with
  | O => nofuel_
  | S f =>
    let! r := scan_direntries fuel user_path mdi entry in
    let '(err, entry) := r in
    if err =? 0 then mret_ 0
    else if negb (err =? - ENOENT) then mret_ err
    else if negb (find_first_of (lit "|") entry 0 =? npos) then
      recover_rename fuel user_path mdi entry ;;? fsck_loop f user_path mdi entry
    else
      remove_mapping fuel (user_path ++ entry) ;;?
      delete_directory_entry fuel mdi (c_str entry) ;;?
      fsck_loop f user_path mdi entry
  end.

Definition fsck_directory (fuel : nat) (user_path : cstr) (mdi : loc) : FS Z :=
  let! m := getMD mdi in
  assert_ (S_ISDIR (md_mode m)) ;;;
  let! c := fuse_get_context in
  assert_ (fc_uid c =? 0) ;;;
  fsck_loop fuel user_path mdi [].

End Fsck.
