(* ===== verification/Xattr.v ===== *)
(** * Extended attributes (src/fuseops/xattr.cc) *)
From S2P Require Import Prelude CppString Proto PathMapDB LRUCache DataInfo MetadataInfo Kinetic FsState KineticHelper Util Lookup Directory File Fsck.

Section Xattr.
Context {W : Type} `{!Env} `{!KineticNamespace W}.

Abbreviation FS := (M (hflat_priv W)).

Definition XATTR_CREATE : Z := 1.
Definition XATTR_REPLACE : Z := 2.
Definition ENOATTR : Z := ENODATA.

(** The search loop: the index of the first attribute with the name. *)
Definition find_xattr (name : cstr) (xs : list ExtendedAttribute) : option nat :=
  fst <$> list_find (λ x, xa_name x = name) xs.

Fixpoint hflat_setxattr (fuel : nat) (user_path attr_name attr_value : cstr) (attr_size flags : Z) : FS Z :=
  match fuel with
  | O => nofuel_
  | S f =>
    let? mdi := lookup fuel user_path None in
    if bool_decide (attr_name = lit "fsck") then fsck_directory fuel user_path mdi
    else if bool_decide (attr_name = lit "nsck") then
      let! up := k_selfCheck in mret_ (if up : bool then 0 else - EHOSTDOWN)
    else
      let! m := getMD mdi in
      let found := find_xattr attr_name (md_xattr m) in
      if bool_decide (is_Some found) && has_bit flags XATTR_CREATE then mret_ (- EEXIST)
      else if negb (bool_decide (is_Some found)) && has_bit flags XATTR_REPLACE then mret_ (- ENOATTR)
      else
        (* set_value reads attr_size bytes of the caller's buffer *)
        (if size_ attr_value <? attr_size then undef_ else mret_ tt) ;;;
        let xattr := mk_ExtendedAttribute attr_name (take (Z.to_nat attr_size) attr_value) in
        change_md mdi (λ m, match found with
                            | Some i => set_xattr (<[i := xattr]> (md_xattr m)) m
                            | None => set_xattr (md_xattr m ++ [xattr]) m
                            end) ;;;
        let! err := put_metadata mdi in
        if err =? - EAGAIN then hflat_setxattr f user_path attr_name attr_value attr_size flags else mret_ err
  end.

Definition hflat_setxattr_apple (fuel : nat) (user_path attr_name attr_value : cstr) (attr_size flags position : Z) : FS Z :=
  assert_ (position <=? attr_size) ;;;
  hflat_setxattr fuel user_path attr_name (drop (Z.to_nat position) attr_value) (attr_size - position) flags.

(** The return value and the content of the buffer [attr_value]. *)
Definition hflat_getxattr (fuel : nat) (user_path attr_name attr_value : cstr) (attr_size : Z) : FS (Z * cstr) :=
  let! r := lookup fuel user_path None in
  let '(err, mdi) := r in
  if negb (err =? 0) then mret_ (err, attr_value)
  else
    let! l := non_null mdi in
    let! m := getMD l in
    match find_xattr attr_name (md_xattr m) ≫= (λ i, md_xattr m !! i) with
    | None => mret_ (- ENOATTR, attr_value)
    | Some xattr =>
      if attr_size =? 0 then mret_ (to_i32 (size_ (xa_value xattr) + 1), attr_value)
      else if attr_size <? size_ (xa_value xattr) then mret_ (- ERANGE, attr_value)
      else
        let! buf := poke attr_value 0 (xa_value xattr) in
        mret_ (to_i32 (size_ (xa_value xattr)), buf)
    end.

Definition hflat_getxattr_apple (fuel : nat) (user_path attr_name attr_value : cstr) (attr_size position : Z) : FS (Z * cstr) :=
  assert_ (position <=? attr_size) ;;;
  let! r := hflat_getxattr fuel user_path attr_name (drop (Z.to_nat position) attr_value) (attr_size - position) in
  mret_ (r.1, take (Z.to_nat position) attr_value ++ r.2).

Fixpoint hflat_removexattr (fuel : nat) (user_path attr_name : cstr) : FS Z :=
  match fuel with
  | O => nofuel_
  | S f =>
    let? mdi := lookup fuel user_path None in
    let! m := getMD mdi in
    match find_xattr attr_name (md_xattr m) with
    | None => mret_ (- ENOATTR)
    | Some i =>
      change_md mdi (λ m, set_xattr (take i (md_xattr m) ++ drop (S i) (md_xattr m)) m) ;;;
      let! err := put_metadata mdi in
      if err =? - EAGAIN then hflat_removexattr f user_path attr_name else mret_ err
    end
  end.

(** The loop of [hflat_listxattr]; [bytesize] is also the position in the buffer
    reached so far. *)
Fixpoint listxattr_loop (xs : list ExtendedAttribute) (bytesize : Z) (buffer : cstr) (size : Z) : FS (Z * cstr) :=
  match xs with
  | [] => mret_ (to_i32 bytesize, buffer)
  | x :: xs =>
    let pos := bytesize in
    let bytesize := bytesize + (size_ (xa_name x) + 1) in
    if size =? 0 then listxattr_loop xs bytesize buffer size
    else if size <? bytesize then mret_ (- ERANGE, buffer)
    else
      let! buffer := poke buffer (Z.to_nat pos) (c_str (xa_name x) ++ [Ascii.zero]) in
      listxattr_loop xs bytesize buffer size
  end.

Definition hflat_listxattr (fuel : nat) (user_path buffer : cstr) (size : Z) : FS (Z * cstr) :=
  let! r := lookup fuel user_path None in
  let '(err, mdi) := r in
  if negb (err =? 0) then mret_ (err, buffer)
  else
    let! l := non_null mdi in
    let! m := getMD l in
    listxattr_loop (md_xattr m) 0 buffer size.

End Xattr.
