(* ===== verification/HelperFacts.v ===== *)
(** * Metadata, data blocks and directory entries as versioned keys: properties

    The functions of {!KineticHelper} and {!Directory} against any namespace that
    keeps the promises of {!KineticSpec}; [drive s] is the content of the drives
    a client in state [s] talks to. *)
From S2P Require Import Prelude CppString Proto PathMapDB LRUCache DataInfo MetadataInfo Kinetic FsState Demo KineticHelper Util Lookup Directory.

(** ** Calls on a well-formed cache always return *)
Section CacheCalls.
Context {K D : Type} `{Countable K} (getKey : D → K).
Implicit Types (c : LRUcache K D).

Lemma revalidate_total c k now : wf getKey c → ∃ c', revalidate k now c = Ret tt c' ∧ wf getKey c'.
Proof.
  intros Hwf. destruct (revalidate k now c) as [[] c'| | | | | |] eqn:Hr; [eauto using wf_revalidate|exfalso..];
    unfold revalidate in Hr; destruct (lookup_ c !! k) as [id|] eqn:Hl; try done;
    destruct (wf_lookup _ _ _ _ Hwf Hl) as (e & Hf & _); by rewrite Hf in Hr.
Qed.

Lemma invalidate_total c k : wf getKey c →
  ∃ c', invalidate k c = Ret tt c' ∧ wf getKey c' ∧ peek c' k = None ∧ k ∉ blocked_keys c'.
Proof.
  intros Hwf. unfold invalidate, mbind_. case_bool_decide as Hs.
  - destruct Hs as [id Hl]. rewrite (remove_ret getKey c k id) by done. eexists. split; [done|].
    split; [by apply wf_set_blocked, wf_remove|]. split; [|cbn; set_solver].
    cbn. unfold peek; cbn. by rewrite lookup_delete_eq.
  - eexists. split; [done|]. split; [by apply wf_set_blocked|]. split; [|cbn; set_solver].
    unfold peek; cbn. destruct (lookup_ c !! k) eqn:E; [destruct Hs; eauto|done].
Qed.

Lemma wf_getKey_ext (getKey' : D → K) c :
  wf getKey c → (∀ e, e ∈ cache c → getKey' (ce_data e) = getKey (ce_data e)) → wf getKey' c.
Proof.
  intros (Hnd & Hlk & Hlt) He. split; [done|]. split; [|done]. intros k id. rewrite Hlk.
  split; intros (e & Hin & Hid & Hk); exists e; rewrite ?He in * by done; rewrite ?He by done; done.
Qed.
End CacheCalls.

Section Facts.
Context {W : Type} `{!Env} `{!KineticNamespace W} `{!KineticNamespaceSpec W}.
Implicit Types (s : hflat_priv W).

Definition drive s : store := contents (kinetic s).

(** Both caches are well formed. *)
Definition caches_ok s : Prop :=
  wf (md_getKey s) (lookup_cache s) ∧ wf (di_getKey s) (data_cache s).

(** ** The calls on the namespace *)

Lemma k_Put_run k v mode r s : ∃ st w',
  k_Put k v mode r s = Ret st (set_kinetic w' s) ∧ st = (Put k v mode r (kinetic s)).1 ∧
  (st = OK → version_matches (drive s) k v mode ∧ contents w' = <[k := r]> (drive s)) ∧
  (st = REMOTE_VERSION_MISMATCH → ¬ version_matches (drive s) k v mode ∧ contents w' = drive s) ∧
  (st = REMOTE_NOT_FOUND → contents w' = drive s) ∧
  (contents w' = drive s ∨ version_matches (drive s) k v mode ∧ contents w' = <[k := r]> (drive s)).
Proof.
  unfold k_Put. destruct (Put k v mode r (kinetic s)) as [st w'] eqn:HP. exists st, w'. split; [done|]. split; [done|].
  unfold drive. destruct (spec_Put k v mode r (kinetic s) st w' HP) as (H1 & H2 & H3). naive_solver.
Qed.

Lemma k_Get_run k s : ∃ st r w',
  k_Get k s = Ret (st, r) (set_kinetic w' s) ∧ contents w' = drive s ∧
  (st = OK → ∃ x, r = Some x ∧ drive s !! k = Some x) ∧
  (st = REMOTE_NOT_FOUND → drive s !! k = None).
Proof.
  unfold k_Get. destruct (Get k (kinetic s)) as [[st r] w'] eqn:HP. exists st, r, w'. split; [done|].
  exact (spec_Get k (kinetic s) st r w' HP).
Qed.

Lemma k_Delete_run k v mode s : ∃ st w',
  k_Delete k v mode s = Ret st (set_kinetic w' s) ∧
  (st = OK → version_matches (drive s) k v mode ∧ contents w' = delete k (drive s)) ∧
  (contents w' = drive s ∨ version_matches (drive s) k v mode ∧ contents w' = delete k (drive s)).
Proof.
  unfold k_Delete. destruct (Delete k v mode (kinetic s)) as [st w'] eqn:HP. exists st, w'. split; [done|].
  destruct (spec_Delete k v mode (kinetic s) st w' HP) as (H1 & H2 & H3 & H4). unfold drive. naive_solver.
Qed.

(** ** The cache wrappers *)

Definition tick_steady s : hflat_priv W := set_inputs (uuids_used s) (S (steady_used s)) (time_used s) s.

Lemma lc_revalidate_run k s : caches_ok s →
  ∃ c', lc_revalidate k s = Ret tt (set_lookup_cache c' (tick_steady s)) ∧ wf (md_getKey s) c'.
Proof.
  intros [Hl _]. destruct (revalidate_total _ (lookup_cache s) k (env_steady (steady_used s)) Hl) as (c' & Hr & Hw).
  exists c'. split; [|done]. unfold lc_revalidate, mbind_, steady_now, zoom. cbn. by rewrite Hr.
Qed.

Lemma lc_invalidate_run k s : caches_ok s →
  ∃ c', lc_invalidate k s = Ret tt (set_lookup_cache c' s) ∧ wf (md_getKey s) c' ∧
    peek c' k = None ∧ k ∉ blocked_keys c'.
Proof.
  intros [Hl _]. destruct (invalidate_total _ (lookup_cache s) k Hl) as (c' & Hr & Hw).
  exists c'. split; [|done]. unfold lc_invalidate, zoom. by rewrite Hr.
Qed.

Lemma dc_revalidate_run k s : caches_ok s →
  ∃ c', dc_revalidate k s = Ret tt (set_data_cache c' (tick_steady s)) ∧ wf (di_getKey s) c'.
Proof.
  intros [_ Hl]. destruct (revalidate_total _ (data_cache s) k (env_steady (steady_used s)) Hl) as (c' & Hr & Hw).
  exists c'. split; [|done]. unfold dc_revalidate, mbind_, steady_now, zoom. cbn. by rewrite Hr.
Qed.

(** Changing an object without changing its key keeps the caches well formed. *)
Lemma md_getKey_write s l m m' l' :
  heap_md s !! l = Some m → systemPath m' = systemPath m →
  md_getKey (set_heap (<[l := m']> (heap_md s)) (heap_di s) (next_loc s) s) l' = md_getKey s l'.
Proof.
  intros Hl Hp. unfold md_getKey; cbn. rewrite lookup_insert. case_decide; [|done]. subst. by rewrite Hl, Hp.
Qed.

Lemma caches_ok_write_md s l m m' :
  caches_ok s → heap_md s !! l = Some m → systemPath m' = systemPath m →
  caches_ok (set_heap (<[l := m']> (heap_md s)) (heap_di s) (next_loc s) s).
Proof.
  intros [H1 H2] Hl Hp. split; [|exact H2]. eapply wf_getKey_ext; [exact H1|].
  intros e _. by eapply md_getKey_write.
Qed.

Lemma caches_ok_write_di s l d d' :
  caches_ok s → heap_di s !! l = Some d → di_key d' = di_key d →
  caches_ok (set_heap (heap_md s) (<[l := d']> (heap_di s)) (next_loc s) s).
Proof.
  intros [H1 H2] Hl Hp. split; [exact H1|]. eapply wf_getKey_ext; [exact H2|].
  intros e _. unfold di_getKey; cbn. rewrite lookup_insert. case_decide; [|done]. subst. by rewrite Hl, Hp.
Qed.

(** ** Metadata keys *)

Definition md_record s (m : MetadataInfo) : KineticRecord :=
  mk_KineticRecord (SerializeAsString (md m)) (env_uuid (uuids_used s)).

Definition tick_uuid s : hflat_priv W := set_inputs (S (uuids_used s)) (steady_used s) (time_used s) s.

(** What a failed call of [put_metadata] leaves behind. *)
Definition put_failed s s' (m : MetadataInfo) : Prop :=
  heap_md s' = heap_md s ∧ peek (lookup_cache s') (systemPath m) = None ∧ systemPath m ∉ blocked_keys (lookup_cache s').

(** [put_metadata] always returns; every case of its result. *)
Lemma put_metadata_run s l m :
  caches_ok s → heap_md s !! l = Some m →
  ∃ err s', put_metadata l s = Ret err s' ∧ caches_ok s' ∧ heap_di s' = heap_di s ∧ pmap_ s' = pmap_ s ∧
    (drive s' = drive s ∨
     version_matches (drive s) (systemPath m) (keyVersion m) REQUIRE_SAME_VERSION ∧
     drive s' = <[systemPath m := md_record s m]> (drive s)) ∧
    (err = 0 →
     version_matches (drive s) (systemPath m) (keyVersion m) REQUIRE_SAME_VERSION ∧
     drive s' = <[systemPath m := md_record s m]> (drive s) ∧
     heap_md s' = <[l := setKeyVersion (env_uuid (uuids_used s)) m]> (heap_md s)) ∧
    (err = - EAGAIN →
     ¬ version_matches (drive s) (systemPath m) (keyVersion m) REQUIRE_SAME_VERSION ∧ drive s' = drive s) ∧
    (err ≠ 0 → put_failed s s' m) ∧
    (err = match (Put (systemPath m) (keyVersion m) REQUIRE_SAME_VERSION (md_record s m) (kinetic s)).1 with
           | OK => 0 | REMOTE_VERSION_MISMATCH => - EAGAIN | REMOTE_NOT_FOUND => - ENOENT | _ => - EIO
           end).
Proof.
  intros Hok Hm. unfold put_metadata, mbind_ at 1, generate_uuid. fold (tick_uuid s).
  unfold mbind_ at 1, deref_md. cbn [heap_md tick_uuid set_inputs]. rewrite Hm. unfold mbind_ at 1. fold (md_record s m).
  destruct (k_Put_run (systemPath m) (keyVersion m) REQUIRE_SAME_VERSION (md_record s m) (tick_uuid s))
    as (st & w' & -> & Hst & Hst1 & Hst2 & Hst3 & Hst4). cbn [kinetic tick_uuid set_inputs] in Hst. rewrite <- Hst.
  change (drive (tick_uuid s)) with (drive s) in *. destruct (decide (st = OK)) as [->|Hne].
  - destruct (Hst1 eq_refl) as [Hv Hw]. cbn [is_ok negb]. unfold mbind_ at 1, write_md, modify_.
    set (s1 := set_heap _ _ _ _).
    assert (Hok1 : caches_ok s1) by (eapply (caches_ok_write_md (set_kinetic w' (tick_uuid s))); [exact Hok|exact Hm|done]).
    unfold mbind_. destruct (lc_revalidate_run (systemPath m) s1 Hok1) as (c' & -> & Hc').
    do 2 eexists. split; [done|]. split; [split; [exact Hc'|exact (proj2 Hok1)]|].
    do 2 (split; [done|]). split; [by right|]. done.
  - assert (is_ok st = false) as -> by (by destruct st). cbn [negb]. unfold mbind_.
    destruct (lc_invalidate_run (systemPath m) (set_kinetic w' (tick_uuid s)) Hok) as (c' & -> & Hc' & Hp & Hb).
    assert (∀ err : Z, err ≠ 0 → put_failed s (set_lookup_cache c' (set_kinetic w' (tick_uuid s))) m) by done.
    repeat case_bool_decide; eexists _, _; (split; [done|]); (split; [split; [exact Hc'|exact (proj2 Hok)]|]);
      (split; [done|]); (split; [done|]); (split; [exact Hst4|]); (split; [done|]);
      (split; [first [intros _; by apply Hst2 | done]|]); (split; [by auto|]); by destruct st.
Qed.

(** [put_metadata] is compare-and-swap on the metadata key. It succeeds only
    if the stored version is the one the object was read with; then the drives
    hold the new metadata under a fresh version, which the object now carries.
    On [-EAGAIN] the versions differ and nothing is written. On every failure the
    drives hold the old or the new record, and the cached object is dropped. *)
Theorem put_metadata_compare_and_swap s l m :
  caches_ok s → heap_md s !! l = Some m →
  ∃ err s', put_metadata l s = Ret err s' ∧ caches_ok s' ∧
    (err = 0 →
     version_matches (drive s) (systemPath m) (keyVersion m) REQUIRE_SAME_VERSION ∧
     drive s' = <[systemPath m := md_record s m]> (drive s) ∧
     heap_md s' = <[l := setKeyVersion (env_uuid (uuids_used s)) m]> (heap_md s)) ∧
    (err = - EAGAIN →
     ¬ version_matches (drive s) (systemPath m) (keyVersion m) REQUIRE_SAME_VERSION ∧ drive s' = drive s) ∧
    (err ≠ 0 → put_failed s s' m ∧
     (drive s' = drive s ∨ drive s' = <[systemPath m := md_record s m]> (drive s))).
Proof.
  intros Hok Hm. destruct (put_metadata_run s l m Hok Hm) as (err & s' & H1 & H2 & _ & _ & H3 & H4 & H5 & H6 & _).
  exists err, s'. split; [done|]. split; [done|]. split; [done|]. split; [done|]. intros He. split; [by apply H6|].
  destruct H3 as [H3|[_ H3]]; auto.
Qed.

(** C8: no update is lost. Two clients hold the same version of a metadata key;
    once one of them has stored a change, the other's [put_metadata] fails and
    leaves the drives as they are. *)
Theorem put_metadata_no_lost_update s1 l1 m1 s1' s2 l2 m2 :
  caches_ok s1 → heap_md s1 !! l1 = Some m1 → put_metadata l1 s1 = Ret 0 s1' →
  caches_ok s2 → heap_md s2 !! l2 = Some m2 → drive s2 = drive s1' →
  systemPath m2 = systemPath m1 → keyVersion m2 = keyVersion m1 →
  env_uuid (uuids_used s1) ≠ keyVersion m1 →
  ∃ err s2', put_metadata l2 s2 = Ret err s2' ∧ err ≠ 0 ∧ drive s2' = drive s1'.
Proof.
  intros Hok1 Hm1 Hput Hok2 Hm2 Hd Hp Hv Hfresh.
  destruct (put_metadata_run s1 l1 m1 Hok1 Hm1) as (e1 & t1 & H1 & _ & _ & _ & _ & Hs & _).
  rewrite Hput in H1. simplify_eq. destruct (Hs eq_refl) as (_ & Hdrive & _).
  destruct (put_metadata_run s2 l2 m2 Hok2 Hm2) as (e2 & t2 & H2 & _ & _ & _ & Hc & Hs2 & _).
  assert (Hno : ¬ version_matches (drive s2) (systemPath m2) (keyVersion m2) REQUIRE_SAME_VERSION).
  { rewrite Hd, Hdrive, Hp, Hv. cbn. rewrite lookup_insert_eq. cbn. congruence. }
  exists e2, t2. split; [done|]. split; [intros ->; by destruct (Hs2 eq_refl)|].
  rewrite <- Hd. by destruct Hc as [Hc|[Hc _]].
Qed.

(** [create_metadata] always returns; it succeeds only on a key that does not
    exist (or has the empty version). *)
Lemma create_metadata_run s l m :
  caches_ok s → heap_md s !! l = Some m →
  ∃ err s', create_metadata l s = Ret err s' ∧ caches_ok s' ∧
    (err = 0 →
     version_matches (drive s) (systemPath m) [] REQUIRE_SAME_VERSION ∧
     drive s' = <[systemPath m := md_record s m]> (drive s) ∧
     heap_md s' = <[l := setKeyVersion (env_uuid (uuids_used s)) m]> (heap_md s)) ∧
    (err = - EEXIST → is_Some (drive s !! systemPath m) ∧ drive s' = drive s).
Proof.
  intros Hok Hm. unfold create_metadata, mbind_ at 1, generate_uuid. fold (tick_uuid s).
  unfold mbind_ at 1, deref_md. cbn [heap_md tick_uuid set_inputs]. rewrite Hm. unfold mbind_ at 1. fold (md_record s m).
  destruct (k_Put_run (systemPath m) [] REQUIRE_SAME_VERSION (md_record s m) (tick_uuid s))
    as (st & w' & -> & _ & Hst1 & Hst2 & _ & _).
  change (drive (tick_uuid s)) with (drive s) in *. destruct (decide (st = OK)) as [->|Hne].
  - destruct (Hst1 eq_refl) as [Hv Hw]. cbn. do 2 eexists. split; [done|].
    split; [by eapply (caches_ok_write_md (set_kinetic w' (tick_uuid s)))|]. done.
  - assert (is_ok st = false) as -> by (by destruct st). case_bool_decide as Hmis; cbn.
    + destruct (Hst2 Hmis) as [Hv Hw]. do 2 eexists. split; [done|]. split; [exact Hok|]. split; [done|].
      intros _. split; [|done]. destruct (drive s !! systemPath m) eqn:E; [eauto|]. cbn in Hv. by rewrite E in Hv.
    + do 2 eexists. split; [done|]. by split.
Qed.

(** ** Directory entries *)

Definition direntry_record : KineticRecord := mk_KineticRecord [] (to_string 1).

(** Creating a directory entry is exclusive. If the namespace reports the
    name as taken the entry exists and nothing changes; if it takes the put, the
    entry did not exist before and exists afterwards (here with relaxed time
    stamps, so that the parent is not touched). *)
Theorem create_directory_entry_exclusive fuel s l m filename :
  heap_md s !! l = Some m → posix s = TIMERELAXED →
  let key := direntry_key (md_inode_number (md m)) filename in
  ∃ err s', create_directory_entry fuel l filename s = Ret err s' ∧
    (err = 0 → drive s !! key = None ∨ kr_version <$> drive s !! key = Some []) ∧
    (err = 0 → drive s' = <[key := direntry_record]> (drive s)) ∧
    (err = - EEXIST → is_Some (drive s !! key) ∧ drive s' = drive s).
Proof.
  intros Hm Hp key. unfold create_directory_entry. step_by (getMD_run l s m Hm).
  unfold mbind_ at 1. fold key direntry_record.
  destruct (k_Put_run key [] REQUIRE_SAME_VERSION direntry_record s) as (st & w' & -> & _ & H1 & H2 & _).
  case_bool_decide as Hmis.
  - destruct (H2 Hmis) as [Hv Hw]. eexists _, _. split; [done|]. split; [done|]. split; [done|]. intros _.
    split; [|done]. cbn in Hv. destruct (drive s !! key); [eauto|done].
  - destruct (is_ok st) eqn:Hst; cbn; [|by eexists _, _].
    assert (st = OK) as -> by (by destruct st). destruct (H1 eq_refl) as [Hv Hw].
    unfold mbind_, touch_parent, mbind_, get_. rewrite bool_decide_false by (cbn; congruence).
    eexists _, _. split; [done|]. split; [|done]. intros _. cbn in Hv. destruct (drive s !! key); [right; cbn; congruence|by left].
Qed.

(** ** Reliable namespaces *)

Context `{!KineticReliable W}.

Lemma k_Get_found k s x : drive s !! k = Some x →
  ∃ w', k_Get k s = Ret (OK, Some x) (set_kinetic w' s) ∧ contents w' = drive s.
Proof.
  intros Hk. unfold k_Get. pose proof (reliable_Get k (kinetic s)) as Hst.
  rewrite decide_True in Hst by (unfold drive in Hk; eauto).
  destruct (Get k (kinetic s)) as [[st r] w'] eqn:HG. cbn in Hst. subst st.
  destruct (spec_Get k (kinetic s) OK r w' HG) as (Hc & Hs & _). destruct (Hs eq_refl) as (y & -> & Hy).
  unfold drive in *. rewrite Hk in Hy. simplify_eq. eauto.
Qed.

Lemma k_Get_absent k s : drive s !! k = None →
  ∃ r w', k_Get k s = Ret (REMOTE_NOT_FOUND, r) (set_kinetic w' s) ∧ contents w' = drive s.
Proof.
  intros Hk. unfold k_Get. pose proof (reliable_Get k (kinetic s)) as Hst.
  rewrite decide_False in Hst by (unfold drive in Hk; rewrite Hk; by intros [? ?]).
  destruct (Get k (kinetic s)) as [[st r] w'] eqn:HG. cbn in Hst. subst st.
  destruct (spec_Get k (kinetic s) _ r w' HG) as (Hc & _). eauto.
Qed.

Lemma put_status k v mode r s :
  (Put k v mode r (kinetic s)).1 =
    if decide (version_matches (drive s) k v mode) then OK else REMOTE_VERSION_MISMATCH.
Proof.
  destruct (reliable_Put k v mode r (kinetic s)) as [Hs|Hs]; rewrite Hs;
    destruct (Put k v mode r (kinetic s)) as [st w'] eqn:HP; cbn in Hs; subst st;
    destruct (spec_Put k v mode r (kinetic s) _ w' HP) as (H1 & H2 & _); unfold drive.
  - by rewrite decide_True by (by apply H1).
  - by rewrite decide_False by (by apply H2).
Qed.

Lemma k_Put_ok k v mode r s : version_matches (drive s) k v mode →
  ∃ w', k_Put k v mode r s = Ret OK (set_kinetic w' s) ∧ contents w' = <[k := r]> (drive s).
Proof.
  intros Hv. destruct (k_Put_run k v mode r s) as (st & w' & Hr & Hst & H1 & _).
  rewrite put_status, decide_True in Hst by done. subst st. destruct (H1 eq_refl). eauto.
Qed.

Lemma k_Put_mismatch k v mode r s : ¬ version_matches (drive s) k v mode →
  ∃ w', k_Put k v mode r s = Ret REMOTE_VERSION_MISMATCH (set_kinetic w' s) ∧ contents w' = drive s.
Proof.
  intros Hv. destruct (k_Put_run k v mode r s) as (st & w' & Hr & Hst & _ & H1 & _).
  rewrite put_status, decide_False in Hst by done. subst st. destruct (H1 eq_refl). eauto.
Qed.

Lemma k_Delete_ok k v mode s : is_Some (drive s !! k) → version_matches (drive s) k v mode →
  ∃ w', k_Delete k v mode s = Ret OK (set_kinetic w' s) ∧ contents w' = delete k (drive s).
Proof.
  intros [r Hr] Hv. unfold k_Delete. destruct (Delete k v mode (kinetic s)) as [st w'] eqn:HP.
  destruct (spec_Delete k v mode (kinetic s) st w' HP) as (H1 & H2 & H3 & _).
  pose proof (reliable_Delete k v mode (kinetic s)) as Hst. rewrite HP in Hst. cbn in Hst. exists w'. unfold drive in *.
  destruct Hst as [->|[->| ->]]; [split; [done|by apply H1]|by destruct (H2 eq_refl)|]. rewrite H3 in Hr by done. discriminate.
Qed.

(** ** Data blocks *)

(** The block after a successful store: no pending changes, a new version. *)
Definition stored_block (v : cstr) (d : DataInfo) : DataInfo := di_setKeyVersion v (forgetUpdates d).

(** A round of [put_data] on a block with the current version. *)
Lemma put_data_current f s l d :
  caches_ok s → heap_di s !! l = Some d →
  version_matches (drive s) (di_key d) (di_keyVersion d) REQUIRE_SAME_VERSION →
  ∃ s', put_data (S f) l s = Ret 0 s' ∧ caches_ok s' ∧
    heap_di s' !! l = Some (stored_block (env_uuid (uuids_used s)) d) ∧
    drive s' = <[di_key d := mk_KineticRecord (di_d d) (env_uuid (uuids_used s))]> (drive s).
Proof.
  intros Hok Hd Hv. cbn [put_data]. unfold mbind_ at 1, generate_uuid. fold (tick_uuid s).
  step_by (deref_di_run l (tick_uuid s) d Hd).
  destruct (k_Put_ok (di_key d) (di_keyVersion d) REQUIRE_SAME_VERSION
    (mk_KineticRecord (di_d d) (env_uuid (uuids_used s))) (tick_uuid s) Hv) as (w' & Hput & Hw).
  step_by Hput. cbn [bool_decide is_ok negb]. rewrite bool_decide_false by done.
  step_by (deref_di_run l (set_kinetic w' (tick_uuid s)) d Hd). unfold mbind_ at 1, write_di, modify_.
  set (s1 := set_heap _ _ _ _).
  assert (Hok1 : caches_ok s1) by (by eapply (caches_ok_write_di (set_kinetic w' (tick_uuid s)))).
  destruct (dc_revalidate_run (di_key d) s1 Hok1) as (c' & Hr & Hc'). step_by Hr.
  eexists. split; [done|]. split; [split; [exact (proj1 Hok1)|exact Hc']|]. split; [apply lookup_insert_eq|exact Hw].
Qed.

(** A block is stored within two rounds. *)
Lemma put_data_run f s l d :
  caches_ok s → heap_di s !! l = Some d → writes_ok d →
  (∀ r, drive s !! di_key d = Some r → size_ (kr_value r) <= block_limit) →
  is_Some (drive s !! di_key d) ∨ di_keyVersion d = [] →
  ∃ s' d', put_data (S (S f)) l s = Ret 0 s' ∧ caches_ok s' ∧ heap_di s' !! l = Some d' ∧
    hasUpdates d' = false ∧
    drive s' = <[di_key d := mk_KineticRecord (di_d d') (di_keyVersion d')]> (drive s) ∧
    (version_matches (drive s) (di_key d) (di_keyVersion d) REQUIRE_SAME_VERSION → di_d d' = di_d d) ∧
    (∀ r, drive s !! di_key d = Some r → kr_version r ≠ di_keyVersion d →
     size_ (di_d d') = Z.max (size_ (kr_value r)) (size_ (di_d d)) ∧
     ∀ i, byte_at (di_d d') i =
       if covered (di_updates d) i then byte_at (di_d d) i else byte_at (kr_value r) i).
Proof.
  intros Hok Hd Hwr Hlim Hex.
  destruct (decide (version_matches (drive s) (di_key d) (di_keyVersion d) REQUIRE_SAME_VERSION)) as [Hv|Hv].
  { destruct (put_data_current (S f) s l d Hok Hd Hv) as (s' & H1 & H2 & H3 & H4).
    exists s', (stored_block (env_uuid (uuids_used s)) d). do 5 (split; [done|]). split; [done|].
    intros r Hr Hne. cbn in Hv. rewrite Hr in Hv. congruence. }
  assert (∃ r, drive s !! di_key d = Some r) as [r Hr].
  { destruct Hex as [[r Hr]|He]; [eauto|]. cbn in Hv. destruct (drive s !! di_key d); [eauto|congruence]. }
  destruct (mergeDataChanges_run (kr_value r) d Hwr (Hlim _ Hr)) as (d1 & Hmerge & Hwr1 & Hup & Hsz & Hby).
  pose proof (mergeDataChanges_key _ _ _ Hmerge) as Hk1.
  unfold put_data; fold (@put_data W _ _). unfold mbind_ at 1, generate_uuid. fold (tick_uuid s).
  step_by (deref_di_run l (tick_uuid s) d Hd).
  destruct (k_Put_mismatch (di_key d) (di_keyVersion d) REQUIRE_SAME_VERSION
    (mk_KineticRecord (di_d d) (env_uuid (uuids_used s))) (tick_uuid s) Hv) as (w1 & Hput & Hw1).
  step_by Hput. rewrite bool_decide_true by done.
  destruct (k_Get_found (di_key d) (set_kinetic w1 (tick_uuid s)) r) as (w2 & Hget & Hw2).
  { unfold drive; cbn. by rewrite Hw1. }
  step_by Hget. cbn [is_ok].
  step_by (on_datainfo_run l (set_kinetic w2 (set_kinetic w1 (tick_uuid s))) d _ tt d1 Hd Hmerge).
  set (s1 := set_heap _ _ _ _).
  assert (Hok1 : caches_ok s1) by (by eapply (caches_ok_write_di (set_kinetic w2 (set_kinetic w1 (tick_uuid s))))).
  assert (Hd1 : heap_di s1 !! l = Some d1) by apply lookup_insert_eq.
  step_by (on_datainfo_run l s1 d1 (modify_ (di_setKeyVersion (kr_version r))) tt
             (di_setKeyVersion (kr_version r) d1) Hd1 eq_refl).
  set (s2 := set_heap _ _ _ s1). set (d2 := di_setKeyVersion (kr_version r) d1) in *.
  assert (Hok2 : caches_ok s2) by (by eapply (caches_ok_write_di s1)).
  assert (Hd2 : heap_di s2 !! l = Some d2) by apply lookup_insert_eq.
  assert (Hdr : drive s2 = drive s) by (unfold drive in *; cbn in *; congruence).
  destruct (put_data_current f s2 l d2 Hok2 Hd2) as (s' & H1 & H2 & H3 & H4).
  { rewrite Hdr. cbn. by rewrite Hk1, Hr. }
  exists s', (stored_block (env_uuid (uuids_used s2)) d2). split; [exact H1|]. do 3 (split; [done|]).
  split; [rewrite H4, Hdr; cbn; by rewrite Hk1|]. split; [done|]. intros r' Hr' Hne. rewrite Hr in Hr'. simplify_eq. done.
Qed.

(** C33: on a reliable namespace [put_data] stores the block within two rounds, when
    every pending write lies within the block and none is empty or a truncation
    ([writes_ok]), the stored block is within the size limit, and the block is on
    the drives or was never read. If nobody has written the block since it was read,
    its content is stored as it is; otherwise what is stored has this client's bytes
    where it wrote and the other clients' bytes everywhere else. What empty writes
    and truncations do is shown in {!DataInfo}. *)
Theorem put_data_merges f s l d :
  caches_ok s → heap_di s !! l = Some d → writes_ok d →
  (∀ r, drive s !! di_key d = Some r → size_ (kr_value r) <= block_limit) →
  is_Some (drive s !! di_key d) ∨ di_keyVersion d = [] →
  ∃ s' d', put_data (S (S f)) l s = Ret 0 s' ∧ caches_ok s' ∧ heap_di s' !! l = Some d' ∧
    hasUpdates d' = false ∧
    drive s' = <[di_key d := mk_KineticRecord (di_d d') (di_keyVersion d')]> (drive s) ∧
    (version_matches (drive s) (di_key d) (di_keyVersion d) REQUIRE_SAME_VERSION → di_d d' = di_d d) ∧
    (∀ r, drive s !! di_key d = Some r → kr_version r ≠ di_keyVersion d →
     size_ (di_d d') = Z.max (size_ (kr_value r)) (size_ (di_d d)) ∧
     ∀ i, byte_at (di_d d') i =
       if covered (di_updates d) i then byte_at (di_d d) i else byte_at (kr_value r) i).
Proof. apply put_data_run. Qed.

(** ** Forced metadata changes *)

Lemma get_metadata_found s l m r x :
  heap_md s !! l = Some m → drive s !! systemPath m = Some r → ParseFromString (kr_value r) = Some x →
  ∃ w', contents w' = drive s ∧ let s1 := set_kinetic w' s in
    get_metadata l s = Ret 0 (set_heap (<[l := setMD x (kr_version r) m]> (heap_md s1)) (heap_di s1) (next_loc s1) s1).
Proof.
  intros Hm Hr Hx. unfold get_metadata. step_by (deref_md_run l s m Hm).
  destruct (k_Get_found (systemPath m) s r Hr) as (w' & Hget & Hw). exists w'. split; [done|].
  step_by Hget. cbn [is_ok negb]. by rewrite Hx.
Qed.

(** A successful round of the forced update. *)
Lemma put_metadata_forced_current n s l m f :
  caches_ok s → heap_md s !! l = Some m →
  version_matches (drive s) (systemPath m) (keyVersion m) REQUIRE_SAME_VERSION →
  ∃ s' v, put_metadata_forced (S n) l (change_md l f) s = Ret 0 s' ∧ caches_ok s' ∧
    drive s' = <[systemPath m := mk_KineticRecord (SerializeAsString (f (md m))) v]> (drive s).
Proof.
  intros Hok Hm Hv. cbn [put_metadata_forced]. step_by (change_md_run l s m f Hm).
  set (s1 := set_heap _ _ _ _). assert (Hok1 : caches_ok s1) by (by eapply caches_ok_write_md).
  assert (Hm1 : heap_md s1 !! l = Some (on_md f m)) by apply lookup_insert_eq.
  destruct (put_metadata_run s1 l _ Hok1 Hm1) as (err & s' & Hput & Hok' & _ & _ & _ & H0 & _ & _ & Herr).
  rewrite put_status, decide_True in Herr by done. subst err. destruct (H0 eq_refl) as (_ & Hd & _).
  step_by Hput. eexists s', _. split; [done|]. split; [done|]. exact Hd.
Qed.

(** On a reliable namespace [put_metadata_forced] stores its change within
    two rounds. The change is applied to the metadata in memory if they are
    current; otherwise to the metadata read back from the drives, so that other
    clients' changes are kept (and any other change made in memory is not). *)
Theorem put_metadata_forced_applies n s l m f r x :
  caches_ok s → heap_md s !! l = Some m → drive s !! systemPath m = Some r →
  ParseFromString (kr_value r) = Some x →
  ∃ s' v, put_metadata_forced (S (S n)) l (change_md l f) s = Ret 0 s' ∧ caches_ok s' ∧
    drive s' = <[systemPath m := mk_KineticRecord
                   (SerializeAsString (f (if decide (kr_version r = keyVersion m) then md m else x))) v]> (drive s).
Proof.
  intros Hok Hm Hr Hx. case_decide as Hv.
  { apply put_metadata_forced_current; [done..|]. cbn. by rewrite Hr. }
  cbn [put_metadata_forced]. step_by (change_md_run l s m f Hm).
  set (s1 := set_heap _ _ _ _). assert (Hok1 : caches_ok s1) by (by eapply caches_ok_write_md).
  assert (Hm1 : heap_md s1 !! l = Some (on_md f m)) by apply lookup_insert_eq.
  destruct (put_metadata_run s1 l _ Hok1 Hm1) as (err & s2 & Hput & Hok2 & _ & _ & _ & _ & Hagain & Hfail & Herr).
  rewrite put_status, decide_False in Herr by (cbn; change (drive s1) with (drive s); rewrite Hr; congruence).
  subst err. destruct (Hagain eq_refl) as (_ & Hd2). destruct (Hfail ltac:(done)) as (Hh2 & _).
  assert (Hm2 : heap_md s2 !! l = Some (on_md f m)) by (by rewrite Hh2).
  step_by Hput. rewrite Z.eqb_refl. cbn [negb].
  destruct (get_metadata_found s2 l _ r x Hm2) as (w' & Hw & Hget); [by rewrite Hd2|done|].
  step_by Hget. cbn [negb Z.eqb]. set (s3 := set_heap _ _ _ _).
  assert (Hok3 : caches_ok s3) by (by eapply (caches_ok_write_md (set_kinetic w' s2))).
  assert (Hd3 : drive s3 = drive s) by (unfold drive in *; cbn; by rewrite Hw).
  destruct (put_metadata_forced_current n s3 l (setMD x (kr_version r) (on_md f m)) f Hok3) as (s' & v & H1 & H2 & H3).
  { apply lookup_insert_eq. }
  { cbn. by rewrite Hd3, Hr. }
  exists s', v. split; [exact H1|]. split; [done|]. rewrite H3, Hd3. done.
Qed.

End Facts.

(** ** Witnesses *)

#[local] Existing Instance demo_env.

Lemma demo_client_ok d m b : caches_ok (demo_client d m b).
Proof. split; apply wf_new. Qed.

Lemma put_metadata_compare_and_swap_witness :
  let s := demo_client demo_files (demo_md (lit "r1")) (demo_block []) in
  ∃ s', put_metadata 1 s = Ret 0 s' ∧ drive s' = <[lit "/f" := md_record s (demo_md (lit "r1"))]> demo_files.
Proof.
  intros s. destruct (put_metadata_compare_and_swap s 1 (demo_md (lit "r1"))) as (err & s' & H1 & _ & H2 & _).
  { apply demo_client_ok. }
  { reflexivity. }
  assert (E : result_of (put_metadata 1 s) = Some 0) by (vm_compute; reflexivity).
  rewrite H1 in E. injection E as ->. exists s'. split; [exact H1|]. apply (H2 eq_refl).
Defined.

Lemma put_metadata_no_lost_update_witness :
  let s := demo_client demo_files (demo_md (lit "r1")) (demo_block []) in
  ∃ s1 err s2, put_metadata 1 s = Ret 0 s1 ∧
    put_metadata 1 (demo_client (kinetic s1) (demo_md (lit "r1")) (demo_block [])) = Ret err s2 ∧ err ≠ 0.
Proof.
  intros s. destruct (put_metadata 1 s) as [err s1| | | | | |] eqn:E;
    try (exfalso; apply (f_equal result_of) in E; vm_compute in E; discriminate E).
  assert (E0 : result_of (put_metadata 1 s) = Some 0) by (vm_compute; reflexivity).
  rewrite E in E0. injection E0 as ->.
  destruct (put_metadata_no_lost_update s 1 (demo_md (lit "r1")) s1
    (demo_client (kinetic s1) (demo_md (lit "r1")) (demo_block [])) 1 (demo_md (lit "r1"))) as (err & s2 & H1 & H2 & _).
  - apply demo_client_ok.
  - reflexivity.
  - exact E.
  - apply demo_client_ok.
  - reflexivity.
  - reflexivity.
  - reflexivity.
  - reflexivity.
  - vm_compute. discriminate.
  - exists s1, err, s2. split; [reflexivity|]. split; [exact H1|exact H2].
Defined.

Lemma create_directory_entry_exclusive_witness :
  let s := demo_client demo_files (mk_MetadataInfo (lit "/") (lit "r0") demo_root None) (demo_block []) in
  ∃ s', create_directory_entry 0 1 (lit "f") s = Ret 0 s' ∧
    drive s' = <[lit "1|f" := direntry_record]> demo_files.
Proof.
  intros s. destruct (create_directory_entry_exclusive 0 s 1 (mk_MetadataInfo (lit "/") (lit "r0") demo_root None) (lit "f"))
    as (err & s' & H1 & _ & H2 & _).
  { reflexivity. }
  { reflexivity. }
  assert (E : result_of (create_directory_entry 0 1 (lit "f") s) = Some 0) by (vm_compute; reflexivity).
  rewrite H1 in E. injection E as ->. exists s'. split; [exact H1|exact (H2 eq_refl)].
Defined.

Lemma put_data_merges_witness :
  ∃ s' d', put_data 2 2 (demo_client demo_files (demo_md []) (demo_block (lit "b0"))) = Ret 0 s' ∧
    heap_di s' !! 2%nat = Some d' ∧ size_ (di_d d') = 6 ∧ byte_at (di_d d') 1 = "x"%char ∧ byte_at (di_d d') 4 = "E"%char.
Proof.
  destruct (put_data_merges 0 (demo_client demo_files (demo_md []) (demo_block (lit "b0"))) 2 (demo_block (lit "b0")))
    as (s' & d' & H1 & _ & H2 & _ & _ & _ & H3).
  - apply demo_client_ok.
  - reflexivity.
  - split; [by repeat constructor|vm_compute; discriminate].
  - intros r Hr. vm_compute in Hr. injection Hr as <-. vm_compute. discriminate.
  - left. eexists. vm_compute. reflexivity.
  - destruct (H3 (mk_KineticRecord (lit "ABCDEF") (lit "b1"))) as [H4 H5]; [vm_compute; reflexivity|discriminate|].
    exists s', d'. split; [exact H1|]. split; [exact H2|]. split; [exact H4|]. split; [exact (H5 1%nat)|exact (H5 4%nat)].
Defined.

Lemma put_metadata_forced_applies_witness :
  ∃ s', put_metadata_forced 2 1 (change_md 1 (updateACMtime 9)) (demo_client demo_files (demo_md (lit "old")) (demo_block []))
    = Ret 0 s' ∧ kr_value <$> drive s' !! lit "/f" = Some (SerializeAsString (updateACMtime 9 demo_file)).
Proof.
  destruct (put_metadata_forced_applies 0 (demo_client demo_files (demo_md (lit "old")) (demo_block [])) 1
    (demo_md (lit "old")) (updateACMtime 9) (mk_KineticRecord (SerializeAsString demo_file) (lit "r1")) demo_file)
    as (s' & v & H1 & _ & H2).
  - apply demo_client_ok.
  - reflexivity.
  - vm_compute. reflexivity.
  - vm_compute. reflexivity.
  - exists s'. split; [exact H1|]. rewrite H2. reflexivity.
Defined.
