(* ===== verification/InodeFacts.v ===== *)
(** * Inode numbers are unique across clients

    A transition system of any number of clients over one namespace. A step is
    one call on the namespace made by [generate_inode_number] or by the grab of
    the first token at mount time (see {!Util}), so clients interleave between
    reading the token and claiming it. *)
From S2P Require Import Prelude CppString Proto PathMapDB LRUCache DataInfo MetadataInfo Kinetic FsState Demo KineticHelper Util HelperFacts.

(** Where a client stands: it owns a range of numbers, or it still has to read
    the token, or it has read it and not yet claimed it. [refill] tells a refresh
    inside [generate_inode_number] from the first grab. *)
Inductive grab_pc := Ready | NeedToken (refill : bool) | HasRead (refill : bool).

Section InodeSystem.
Context {W : Type} `{!Env} `{!KineticNamespace W} `{!KineticNamespaceSpec W}.

Record ino_sys := mk_ino_sys {
  is_w : W;
  is_clients : list (grab_pc * hflat_priv W);
  is_issued : list Z;
}.

(** Run a call of a client on the shared namespace. *)
Definition runs_as {A} (sys : ino_sys) (s : hflat_priv W) (m : M (hflat_priv W) A) : outcome (hflat_priv W) A :=
  m (set_kinetic (is_w sys) s).

Definition becomes (sys : ino_sys) (i : nat) (pc : grab_pc) (s : hflat_priv W) (new : list Z) : ino_sys :=
  mk_ino_sys (kinetic s) (<[i := (pc, s)]> (is_clients sys)) (is_issued sys ++ new).

Definition token_bound : Z := 9223372036854775807 - uint16_max.

Inductive ino_step : ino_sys → ino_sys → Prop :=
| ino_mount sys s : inum_counter s = 0 →
    ino_step sys (mk_ino_sys (is_w sys) (is_clients sys ++ [(NeedToken false, s)]) (is_issued sys))
| ino_next sys i s s1 n s2 : is_clients sys !! i = Some (Ready, s) →
    runs_as sys s bump_counter = Ret false s1 → current_number s1 = Ret n s2 →
    ino_step sys (becomes sys i Ready s2 [n])
| ino_exhausted sys i s s1 : is_clients sys !! i = Some (Ready, s) →
    runs_as sys s bump_counter = Ret true s1 → ino_step sys (becomes sys i (NeedToken true) s1 [])
| ino_read sys i b s s1 : is_clients sys !! i = Some (NeedToken b, s) →
    runs_as sys s grab_read = Ret 0 s1 → ino_step sys (becomes sys i (HasRead b) s1 [])
| ino_retry sys i b s s1 : is_clients sys !! i = Some (HasRead b, s) →
    runs_as sys s grab_claim = Ret REMOTE_VERSION_MISMATCH s1 → ino_step sys (becomes sys i (NeedToken b) s1 [])
| ino_claim_mount sys i s s1 : is_clients sys !! i = Some (HasRead false, s) → inum_base s < token_bound →
    runs_as sys s grab_claim = Ret OK s1 → ino_step sys (becomes sys i Ready s1 [])
| ino_claim_refill sys i s s1 s2 n s3 : is_clients sys !! i = Some (HasRead true, s) → inum_base s < token_bound →
    runs_as sys s grab_claim = Ret OK s1 → reset_counter s1 = Ret tt s2 → current_number s2 = Ret n s3 →
    ino_step sys (becomes sys i Ready s3 [n])
| ino_other sys w : contents w !! inode_base_key = contents (is_w sys) !! inode_base_key →
    ino_step sys (mk_ino_sys w (is_clients sys) (is_issued sys)).

(** The token key is absent, or its version is the first number not yet given
    away. *)
Definition token_is (w : W) (t : Z) : Prop :=
  0 <= t <= 9223372036854775807 ∧
  match contents w !! inode_base_key with
  | None => t = 0
  | Some r => 0 < t ∧ kr_version r = to_string t
  end.

Definition range_of (s : hflat_priv W) (n : Z) : Prop := inum_base s <= n < inum_base s + uint16_max.

(** A client that is ready owns a range below the token, and has given out only
    numbers up to its counter. *)
Definition owns (t : Z) (issued : list Z) (c : grab_pc * hflat_priv W) : Prop :=
  match c with
  | (Ready, s) => 0 <= inum_base s ∧ inum_base s + uint16_max <= t ∧ 0 <= inum_counter s < uint16_max ∧
                  ∀ n, n ∈ issued → range_of s n → n <= inum_base s + inum_counter s
  | (NeedToken false, s) | (HasRead false, s) => inum_counter s = 0
  | _ => True
  end.

Definition apart (c c' : grab_pc * hflat_priv W) : Prop :=
  match c, c' with
  | (Ready, s), (Ready, s') => ∀ n, range_of s n → ¬ range_of s' n
  | _, _ => True
  end.

Definition ino_inv_at (t : Z) (sys : ino_sys) : Prop :=
  token_is (is_w sys) t ∧ NoDup (is_issued sys) ∧ Forall (λ n, 0 <= n < t) (is_issued sys) ∧
  (∀ i c, is_clients sys !! i = Some c → owns t (is_issued sys) c) ∧
  (∀ i j c c', i ≠ j → is_clients sys !! i = Some c → is_clients sys !! j = Some c' → apart c c').

Definition ino_inv (sys : ino_sys) : Prop := ∃ t, ino_inv_at t sys.

Lemma lookup_client sys i c0 pc s new j c :
  is_clients sys !! i = Some c0 → is_clients (becomes sys i pc s new) !! j = Some c →
  (j = i ∧ c = (pc, s)) ∨ (j ≠ i ∧ is_clients sys !! j = Some c).
Proof.
  intros Hi. cbn. rewrite list_lookup_insert_Some. intros [(-> & <- & _)|[? ?]]; auto.
Qed.

(** The change of one client keeps the invariant if the token only grows, the new
    numbers are fresh and below it, no other ready client owns them, and the
    client's own range is disjoint from the others'. *)
Lemma inv_becomes sys i c0 pc s new t t' :
  ino_inv_at t sys → is_clients sys !! i = Some c0 → token_is (kinetic s) t' → t <= t' →
  NoDup new → (∀ n, n ∈ new → n ∉ is_issued sys) → Forall (λ n, 0 <= n < t') new →
  owns t' (is_issued sys ++ new) (pc, s) →
  (∀ j c, j ≠ i → is_clients sys !! j = Some c → apart (pc, s) c ∧ ∀ n s', c = (Ready, s') → n ∈ new → ¬ range_of s' n) →
  ino_inv (becomes sys i pc s new).
Proof.
  intros (Htok & Hnd & Hlt & Hown & Hap) Hi Htok' Ht Hndn Hfresh Hnew Hme Hothers.
  exists t'. split; [done|]. split; [|split; [|split]]; cbn [is_issued becomes].
  - apply NoDup_app. naive_solver.
  - apply Forall_app. split; [|done]. eapply Forall_impl; [exact Hlt|]. cbn. lia.
  - intros j c Hj. destruct (lookup_client _ _ _ _ _ _ _ _ Hi Hj) as [[-> ->]|[Hne Hj']]; [done|].
    specialize (Hown j c Hj'). destruct c as [[|[]|[]] sj]; try done.
    destruct Hown as (H1 & H2 & H3 & H4). split; [done|]. split; [lia|]. split; [done|]. intros n Hn Hr.
    apply elem_of_app in Hn as [Hn|Hn]; [by apply H4|]. exfalso. by eapply (Hothers j _ Hne Hj').
  - intros j k c c' Hjk Hj Hk.
    destruct (lookup_client _ _ _ _ _ _ _ _ Hi Hj) as [[-> ->]|[Hne Hj']];
      destruct (lookup_client _ _ _ _ _ _ _ _ Hi Hk) as [[-> ->]|[Hne' Hk']]; [done| | |exact (Hap j k c c' Hjk Hj' Hk')].
    + by apply (Hothers k c').
    + destruct (Hothers j c Hne Hj') as [Ha _]. clear -Ha. destruct pc as [|[]|[]], c as [[|[]|[]] sj]; try done.
      cbn in *. intros n Hn Hn'. by apply (Ha n).
Qed.

(** ** What the calls do *)

Lemma bump_counter_run w (s s1 : hflat_priv W) b : bump_counter (set_kinetic w s) = Ret b s1 →
  0 <= inum_counter s < uint16_max →
  kinetic s1 = w ∧ inum_base s1 = inum_base s ∧ inum_counter s1 = inum_counter s + 1 ∧
  b = (inum_counter s + 1 =? uint16_max).
Proof.
  intros Hrun Hc. unfold bump_counter, mbind_, modify_, get_, mret_ in Hrun. injection Hrun as <- <-. cbn.
  unfold wrap16, u16_mod, uint16_max in *. rewrite Z.mod_small by lia. done.
Qed.

Lemma current_number_run (s s1 : hflat_priv W) n : current_number s = Ret n s1 →
  0 <= inum_base s + inum_counter s <= 9223372036854775807 → s1 = s ∧ n = inum_base s + inum_counter s.
Proof.
  intros Hrun Hc. unfold current_number, mbind_, get_, mret_ in Hrun. injection Hrun as <- <-.
  rewrite wrap64_id by (unfold u64_mod; lia). done.
Qed.

Lemma grab_read_frame w (s s1 : hflat_priv W) : grab_read (set_kinetic w s) = Ret 0 s1 →
  contents (kinetic s1) = contents w ∧ inum_counter s1 = inum_counter s.
Proof.
  unfold grab_read, mbind_, k_GetVersion. cbn [kinetic set_kinetic].
  destruct (GetVersion inode_base_key w) as [[st r] w'] eqn:HG.
  pose proof (proj1 (spec_GetVersion inode_base_key w st r w' HG)) as Hc.
  destruct (is_ok st); [destruct r|case_bool_decide]; intros Hrun; try discriminate Hrun; injection Hrun as <-; done.
Qed.

(** The claim succeeds only with the current token. *)
Lemma grab_claim_OK w (s s1 : hflat_priv W) t : grab_claim (set_kinetic w s) = Ret OK s1 → token_is w t →
  inum_base s < token_bound → inum_base s = t ∧ token_is (kinetic s1) (t + uint16_max) ∧
  inum_base s1 = t ∧ inum_counter s1 = inum_counter s.
Proof.
  intros Hrun [Ht Htok] Hb. unfold grab_claim, mbind_, get_ in Hrun. cbn [inum_base set_kinetic] in Hrun.
  match type of Hrun with k_Put ?k ?v ?m ?r ?s0 = _ => destruct (k_Put_run k v m r s0) as (st & w' & Hr & _ & Hok & _) end.
  rewrite Hr in Hrun. injection Hrun as -> <-. destruct (Hok eq_refl) as [Hv Hc]. unfold drive in *.
  cbn [kinetic set_kinetic version_matches] in *.
  assert (inum_base s = t) as Hbase.
  { destruct (contents w !! inode_base_key) as [r|]; [destruct Htok as [Hpos Hver]; rewrite Hver in Hv|subst t];
      destruct (Z.eqb_spec (inum_base s) 0); try done.
    - symmetry in Hv. by destruct (to_string_not_nil t).
    - by apply (inj to_string).
    - by destruct (to_string_not_nil (inum_base s)). }
  split; [done|]. split; [|done]. unfold token_is. cbn. rewrite Hc, lookup_insert_eq. unfold token_bound, uint16_max in *.
  split; [lia|]. split; [lia|]. by rewrite Hbase.
Qed.

Lemma grab_claim_retry w (s s1 : hflat_priv W) : grab_claim (set_kinetic w s) = Ret REMOTE_VERSION_MISMATCH s1 →
  contents (kinetic s1) = contents w ∧ inum_counter s1 = inum_counter s.
Proof.
  intros Hrun. unfold grab_claim, mbind_, get_ in Hrun. cbn [inum_base set_kinetic] in Hrun.
  match type of Hrun with k_Put ?k ?v ?m ?r ?s0 = _ => destruct (k_Put_run k v m r s0) as (st & w' & Hr & _ & _ & Hm & _) end.
  rewrite Hr in Hrun. injection Hrun as -> <-. destruct (Hm eq_refl) as [_ Hc]. done.
Qed.

Lemma token_is_contents w w' t : contents w' !! inode_base_key = contents w !! inode_base_key →
  token_is w t → token_is w' t.
Proof. unfold token_is. by intros ->. Qed.

Lemma issued_below t sys n : ino_inv_at t sys → n ∈ is_issued sys → 0 <= n < t.
Proof. intros (_ & _ & Hlt & _) Hn. by apply (proj1 (Forall_forall _ _) Hlt). Qed.

(** ** The kinds of steps *)

(** A step that gives out nothing and leaves the client without a range. *)
Lemma inv_idle t sys i c0 pc s :
  ino_inv_at t sys → is_clients sys !! i = Some c0 → contents (kinetic s) = contents (is_w sys) →
  pc ≠ Ready → owns t (is_issued sys) (pc, s) → ino_inv (becomes sys i pc s []).
Proof.
  intros Hinv Hi Hc Hpc Hme. eapply (inv_becomes sys i c0 pc s [] t t); try done.
  - eapply token_is_contents; [by rewrite Hc|]. apply Hinv.
  - constructor.
  - set_solver.
  - by rewrite app_nil_r.
  - intros j c Hne Hj. split; [|set_solver]. by destruct pc as [|[]|[]].
Qed.

(** A claim of the range that starts at the token. *)
Lemma inv_claim t sys i c0 s new :
  ino_inv_at t sys → is_clients sys !! i = Some c0 → token_is (kinetic s) (t + uint16_max) →
  inum_base s = t → inum_counter s = 0 → new = [] ∨ new = [t] → ino_inv (becomes sys i Ready s new).
Proof.
  intros Hinv Hi Htok' Hb Hcz Hnew. pose proof Hinv as ([Ht _] & _ & _ & Hown & _).
  pose proof (λ n, issued_below t sys n Hinv) as Hlt.
  eapply (inv_becomes sys i c0 Ready s new t (t + uint16_max)); try done.
  - unfold uint16_max. lia.
  - destruct Hnew as [-> | ->]; [constructor|apply NoDup_singleton].
  - intros n Hn Hi'. specialize (Hlt n Hi'). destruct Hnew as [-> | ->]; set_unfold; lia.
  - destruct Hnew as [-> | ->]; repeat constructor; unfold uint16_max; lia.
  - cbn. rewrite Hb, Hcz. unfold uint16_max. do 3 (split; [lia|]). intros n Hn Hr. unfold range_of in Hr.
    apply elem_of_app in Hn as [Hn|Hn]; [specialize (Hlt n Hn); lia|]. destruct Hnew as [-> | ->]; set_unfold; lia.
  - intros j c Hne Hj. specialize (Hown j c Hj). split.
    + destruct c as [[|[]|[]] sj]; try done. cbn in *. unfold range_of. lia.
    + intros n s' -> Hn. cbn in Hown. unfold range_of. destruct Hnew as [-> | ->]; set_unfold; lia.
Qed.

(** The next number of the client's own range. *)
Lemma inv_next t sys i s s1 :
  ino_inv_at t sys → is_clients sys !! i = Some (Ready, s) → kinetic s1 = is_w sys →
  inum_base s1 = inum_base s → inum_counter s1 = inum_counter s + 1 → inum_counter s1 ≠ uint16_max →
  ino_inv (becomes sys i Ready s1 [inum_base s1 + inum_counter s1]).
Proof.
  intros Hinv Hi Hk Hbase Hcnt Hf. pose proof Hinv as (Htok & _ & _ & Hown & Hap).
  destruct (Hown _ _ Hi) as (Ho1 & Ho2 & Ho3 & Ho4). rewrite Hbase, Hcnt in *.
  assert (Hin : range_of s (inum_base s + (inum_counter s + 1))) by (unfold range_of; lia).
  eapply (inv_becomes sys i _ Ready s1 _ t t); try done.
  - by rewrite Hk.
  - apply NoDup_singleton.
  - intros n Hn. apply list_elem_of_singleton in Hn as ->. intros Hiss. specialize (Ho4 _ Hiss Hin). lia.
  - repeat constructor; unfold range_of in Hin; lia.
  - cbn. rewrite Hbase, Hcnt. do 2 (split; [done|]). split; [lia|].
    intros n [Hn|Hn]%elem_of_app Hr; [|set_unfold; lia].
    unfold range_of in Hr. rewrite Hbase in Hr. specialize (Ho4 n Hn Hr). lia.
  - intros j c Hne Hj. pose proof (Hap i j _ _ (not_eq_sym Hne) Hi Hj) as Ha. split.
    + destruct c as [[|[]|[]] sj]; try done.
      cbn in *. intros n Hn. apply Ha. unfold range_of in *. by rewrite Hbase in Hn.
    + intros n s' -> Hn. apply list_elem_of_singleton in Hn as ->. by apply Ha.
Qed.

Lemma inv_mount t sys w s : ino_inv_at t sys → inum_counter s = 0 → w = is_w sys →
  ino_inv (mk_ino_sys w (is_clients sys ++ [(NeedToken false, s)]) (is_issued sys)).
Proof.
  intros (Htok & Hnd & Hlt & Hown & Hap) Hc ->. exists t. do 3 (split; [done|]). cbn [is_clients is_issued]. split.
  - intros i c [Hi|[_ Hi]]%lookup_app_Some; [by eapply Hown|]. apply list_lookup_singleton_Some in Hi as [_ <-]. done.
  - intros i j c c' Hij [Hi|[Hli Hi]]%lookup_app_Some [Hj|[Hlj Hj]]%lookup_app_Some; [by eapply (Hap i j)|..];
      repeat match goal with H : [_] !! _ = Some _ |- _ => apply list_lookup_singleton_Some in H as [? <-] end;
      [by destruct c as [[|[]|[]] ?]|done|done].
Qed.

Lemma inv_step sys sys' : ino_inv sys → ino_step sys sys' → ino_inv sys'.
Proof.
  intros (t & Hinv) Hstep. pose proof Hinv as (Htok & _ & _ & Hown & _). pose proof Htok as [Htb _].
  destruct Hstep as [sys s Hc|sys i s s1 n s2 Hi Hb Hn|sys i s s1 Hi Hb|sys i b s s1 Hi Hr|sys i b s s1 Hi Hr
                    |sys i s s1 Hi Hlim Hr|sys i s s1 s2 n s3 Hi Hlim Hr Hreset Hn|sys w Hw];
    unfold runs_as in *; [|specialize (Hown _ _ Hi); cbn in Hown..|].
  - by eapply inv_mount.
  - destruct Hown as (Ho1 & Ho2 & Ho3 & _). destruct (bump_counter_run _ _ _ _ Hb Ho3) as (Hk & Hbase & Hcnt & Hf).
    symmetry in Hf. apply Z.eqb_neq in Hf.
    apply current_number_run in Hn as [-> ->]; [|unfold uint16_max in *; lia]. eapply inv_next; [exact Hinv|exact Hi|done|done|done|lia].
  - destruct Hown as (_ & _ & Ho3 & _). destruct (bump_counter_run _ _ _ _ Hb Ho3) as (Hk & _).
    eapply inv_idle; [exact Hinv|exact Hi| |done|done]. by rewrite Hk.
  - apply grab_read_frame in Hr as [Hc Hcnt]. eapply inv_idle; [exact Hinv|exact Hi|done|done|].
    destruct b; cbn in *; [done|congruence].
  - apply grab_claim_retry in Hr as [Hc Hcnt]. eapply inv_idle; [exact Hinv|exact Hi|done|done|].
    destruct b; cbn in *; [done|congruence].
  - destruct (grab_claim_OK _ _ _ _ Hr Htok Hlim) as (_ & Hk & Hb & Hc).
    eapply inv_claim; [exact Hinv|exact Hi|done|done|congruence|by left].
  - destruct (grab_claim_OK _ _ _ _ Hr Htok Hlim) as (Hbt & Hk & Hb & Hc).
    unfold reset_counter, modify_ in Hreset. injection Hreset as <-.
    apply current_number_run in Hn as [-> ->]; [|cbn; unfold token_bound in Hlim; lia].
    eapply inv_claim; [exact Hinv|exact Hi|done|done|done|]. right. cbn. f_equal. lia.
  - exists t. destruct Hinv as [_ Hinv]. split; [by eapply token_is_contents|done].
Qed.

(** C9: no inode number is given out twice. In every interleaving of any number
    of clients, as long as the namespace reports no failure and fewer than 2^63
    numbers are in use, the numbers returned by [generate_inode_number] are
    pairwise different. *)
Theorem inode_numbers_unique (w : W) sys :
  contents w !! inode_base_key = None →
  steps ino_step (mk_ino_sys w [] []) sys → NoDup (is_issued sys).
Proof.
  intros Hw Hs. assert (ino_inv sys) as (t & _ & Hnd & _); [|exact Hnd].
  eapply (steps_invariant ino_step ino_inv); [exact inv_step| |exact Hs].
  exists 0. split; [unfold token_is; cbn [is_w]; by rewrite Hw|]. split; [constructor|]. split; [constructor|]. done.
Qed.

End InodeSystem.

(** ** A run: two clients mount, both read the token, the second has to retry *)
#[local] Existing Instance demo_env.

Definition demo_turn {A} (sys : ino_sys) (i : nat) (pc : grab_pc) (new : list Z) (m : M (hflat_priv store) A) : ino_sys :=
  match is_clients sys !! i with
  | Some (_, s) => becomes sys i pc (state_after (runs_as sys s m) s) new
  | None => sys
  end.

Definition demo_sys0 : ino_sys := mk_ino_sys (∅ : store) [] [].
Definition demo_join (sys : ino_sys) : ino_sys :=
  mk_ino_sys (is_w sys) (is_clients sys ++ [(NeedToken false, demo_mount ∅)]) (is_issued sys).
Definition demo_sys1 : ino_sys := demo_join (demo_join demo_sys0).
Definition demo_sys2 : ino_sys := demo_turn (demo_turn demo_sys1 0 (HasRead false) [] grab_read) 1 (HasRead false) [] grab_read.
Definition demo_sys3 : ino_sys := demo_turn (demo_turn demo_sys2 0 Ready [] grab_claim) 1 (NeedToken false) [] grab_claim.
Definition demo_sys4 : ino_sys := demo_turn (demo_turn demo_sys3 1 (HasRead false) [] grab_read) 1 Ready [] grab_claim.
Definition demo_number : M (hflat_priv store) Z := let! _ := bump_counter in current_number.
Definition demo_sys5 : ino_sys := demo_turn (demo_turn demo_sys4 0 Ready [1] demo_number) 1 Ready [65536] demo_number.

Lemma turn_read sys i b :
  match is_clients sys !! i with
  | Some (NeedToken b', s) => b' = b ∧ result_of (runs_as sys s grab_read) = Some 0
  | _ => False
  end → ino_step sys (demo_turn sys i (HasRead b) [] grab_read).
Proof.
  unfold demo_turn. destruct (is_clients sys !! i) as [[[|b'|b'] s]|] eqn:Hi; try done. intros [-> Hr].
  eapply ino_read; [done|]. by apply result_of_Ret.
Qed.

Lemma turn_claim sys i b :
  match is_clients sys !! i with
  | Some (HasRead b', s) => b' = b ∧
      (result_of (runs_as sys s grab_claim) = Some REMOTE_VERSION_MISMATCH)
  | _ => False
  end → ino_step sys (demo_turn sys i (NeedToken b) [] grab_claim).
Proof.
  unfold demo_turn. destruct (is_clients sys !! i) as [[[|b'|b'] s]|] eqn:Hi; try done. intros [-> Hr].
  eapply ino_retry; [done|]. by apply result_of_Ret.
Qed.

Lemma turn_mounted sys i :
  match is_clients sys !! i with
  | Some (HasRead false, s) => inum_base s < token_bound ∧ result_of (runs_as sys s grab_claim) = Some OK
  | _ => False
  end → ino_step sys (demo_turn sys i Ready [] grab_claim).
Proof.
  unfold demo_turn. destruct (is_clients sys !! i) as [[[|[]|[]] s]|] eqn:Hi; try done. intros [Hl Hr].
  eapply ino_claim_mount; [done|done|]. by apply result_of_Ret.
Qed.

Lemma turn_number sys i n :
  match is_clients sys !! i with
  | Some (Ready, s) => result_of (runs_as sys s bump_counter) = Some false ∧ result_of (runs_as sys s demo_number) = Some n
  | _ => False
  end → ino_step sys (demo_turn sys i Ready [n] demo_number).
Proof.
  unfold demo_turn. destruct (is_clients sys !! i) as [[[|[]|[]] s]|] eqn:Hi; try done. intros [Hb Hr].
  apply (result_of_Ret _ _ s) in Hb. apply (result_of_Ret _ _ s) in Hr.
  eapply ino_next; [done|exact Hb|]. rewrite <- Hr. unfold runs_as, demo_number in *. by rewrite (mbind_Ret _ _ _ _ _ Hb).
Qed.

Lemma demo_sys5_reachable : steps ino_step demo_sys0 demo_sys5.
Proof.
  do 2 (eapply steps_step; [|apply turn_number; vm_compute; done]).
  eapply steps_step; [|apply turn_mounted; vm_compute; done].
  eapply steps_step; [|apply turn_read; vm_compute; done].
  eapply steps_step; [|apply turn_claim; vm_compute; done].
  eapply steps_step; [|apply turn_mounted; vm_compute; done].
  do 2 (eapply steps_step; [|apply turn_read; vm_compute; done]).
  do 2 (eapply steps_step; [|by apply ino_mount]). constructor.
Qed.

Lemma inode_numbers_unique_witness : NoDup (is_issued demo_sys5) ∧ is_issued demo_sys5 = [1; 65536].
Proof.
  split; [|vm_compute; reflexivity].
  apply (inode_numbers_unique (∅ : store)); [reflexivity|exact demo_sys5_reachable].
Defined.

(** When the token cannot be refreshed, [generate_inode_number] does not
    stop, as its message says, but starts over at the beginning of the range it
    has used up: the number it returns and the ones after it have been given out
    before. *)
Theorem refresh_failure_reuses_range {W} `{!Env} `{!KineticNamespace W} fuel (s : hflat_priv W) st r w' :
  inum_counter s = uint16_max - 1 → 0 <= inum_base s <= 9223372036854775807 →
  GetVersion inode_base_key (kinetic s) = (st, r, w') → st ≠ OK → st ≠ REMOTE_NOT_FOUND →
  ∃ s', generate_inode_number (S fuel) s = Ret (inum_base s) s' ∧
    inum_base s' = inum_base s ∧ inum_counter s' = 0.
Proof.
  intros Hc Hb HG H1 H2. unfold generate_inode_number, mbind_ at 1, bump_counter, mbind_ at 1, modify_, mbind_ at 1, get_.
  cbn [inum_counter set_inum mret_]. rewrite Hc. unfold mret_. cbn [Z.eqb].
  replace (wrap16 (uint16_max - 1 + 1) =? uint16_max) with true by done.
  unfold mbind_ at 1 2. cbn [grab_inode_generation_token]. unfold mbind_ at 1, grab_read, mbind_ at 1, k_GetVersion.
  cbn [kinetic set_inum]. rewrite HG. assert (is_ok st = false) as -> by (by destruct st).
  rewrite bool_decide_false by done. cbv beta iota. cbn [negb Z.eqb Z.opp EIO].
  unfold mbind_ at 1, mret_, reset_counter, modify_, current_number, mbind_, get_. cbn.
  change (- EIO =? 0) with false. cbn. rewrite Z.add_0_r, wrap64_id by (unfold u64_mod; lia). eexists. split; [reflexivity|done].
Qed.

(** A namespace whose drives cannot be reached. *)
Definition unreachable : KineticNamespace unit := {|
  Get _ w := (REMOTE_OTHER_ERROR, None, w);
  Delete _ _ _ w := (REMOTE_OTHER_ERROR, w);
  Put _ _ _ _ w := (REMOTE_OTHER_ERROR, w);
  GetVersion _ w := (REMOTE_OTHER_ERROR, None, w);
  GetKeyRange _ _ _ w := (REMOTE_OTHER_ERROR, [], w);
  selfCheck w := (false, w);
|}.

Lemma refresh_failure_reuses_range_witness :
  let s := mk_hflat_priv tt (LRU_new 0 1000) (LRU_new 0 500) PathMapDB_new 1048576 FULL 65535 65534 ∅ ∅ 1 0 0 0
             (mk_fuse_context 0 0) in
  ∃ s', @generate_inode_number _ unreachable 1 s = Ret 65535 s'.
Proof.
  intros s. destruct (@refresh_failure_reuses_range _ _ unreachable 0 s REMOTE_OTHER_ERROR None tt) as (s' & H & _).
  - reflexivity.
  - split; discriminate.
  - reflexivity.
  - discriminate.
  - discriminate.
  - exists s'. exact H.
Defined.
