(* ===== verification/DatabaseFacts.v ===== *)
(** * The shared database: clients append to one log and follow it

    The operations of {!Util} and {!KineticHelper} on the path map database,
    against a reliable namespace. The keys [pathmapDB_1], [pathmapDB_2], ... hold
    the log; [pathmapDB_version] its length. *)
From S2P Require Import Prelude CppString Proto PathMapDB PathMapLog LRUCache DataInfo MetadataInfo Kinetic FsState Demo KineticHelper Util HelperFacts.

(** ** Keys *)

#[export] Instance db_key_inj : Inj (=) (=) db_key.
Proof. intros x y Hxy. unfold db_key in Hxy. apply app_inv_head in Hxy. by apply (inj to_string). Qed.

Lemma to_string_not_letters z a s : is_digit a = false → a ≠ "-"%char → to_string z ≠ a :: s.
Proof.
  intros Ha Hm Heq. pose proof (to_string_free [a] z) as Hfree.
  assert (free_of [a] (to_string z)) as Hf.
  { apply Hfree. unfold free_of, lit. cbn.
    repeat constructor; unfold char_in; apply bool_decide_eq_false; rewrite list_elem_of_singleton; intros <-;
      first [done | vm_compute in Ha; discriminate Ha]. }
  rewrite Heq in Hf. apply Forall_cons in Hf as [Hf _]. unfold char_in in Hf.
  apply bool_decide_eq_false in Hf. apply Hf. by apply list_elem_of_singleton.
Qed.

Lemma db_key_version v : db_key v ≠ db_version_key.
Proof. intros Hk%app_inv_head. by eapply to_string_not_letters in Hk. Qed.

Lemma db_key_snapshot v : db_key v ≠ snapshot_key.
Proof. intros Hk%app_inv_head. by eapply to_string_not_letters in Hk. Qed.

Lemma version_snapshot : db_version_key ≠ snapshot_key.
Proof. done. Qed.

Lemma c_str_to_string z : c_str (to_string z) = to_string z.
Proof.
  pose proof (to_string_free [Ascii.zero] z) as Hf.
  assert (free_of [Ascii.zero] (to_string z)) as H by (apply Hf; by vm_compute; repeat constructor).
  induction H as [|a t Ha Ht IH]; [done|]. cbn. rewrite bool_decide_false; [by rewrite IH|].
  unfold char_in in Ha. apply bool_decide_eq_false in Ha. intros ->. apply Ha. by apply list_elem_of_singleton.
Qed.

Section Database.
Context {W : Type} `{!Env} `{!KineticNamespace W} `{!KineticNamespaceSpec W} `{!KineticReliable W}.
Context `{!MessageSpec db_entry}.
Implicit Types (s : hflat_priv W) (log : list db_entry).

(** The drives hold exactly this log, and its length. *)
Definition log_on (d : store) log : Prop :=
  (∀ i e, log !! i = Some e → ∃ r, d !! db_key (Z.of_nat i + 1) = Some r ∧
     ParseFromString (kr_value r) = Some e ∧ kr_version r = to_string (Z.of_nat i + 1)) ∧
  (∀ v, Z.of_nat (length log) < v → d !! db_key v = None) ∧
  match log with
  | [] => d !! db_version_key = None
  | _ => kr_version <$> d !! db_version_key = Some (to_string (Z.of_nat (length log)))
  end ∧
  Z.of_nat (length log) < 9223372036854775807.

(** The keys of the log, and two drives that agree on them or on all others. *)
Definition log_key (k : cstr) : bool := is_prefix db_base_name k.

Definition same_log (d d' : store) : Prop := ∀ k, log_key k = true → d' !! k = d !! k.
Definition off_log (d d' : store) : Prop := ∀ k, log_key k = false → d' !! k = d !! k.

#[export] Instance off_log_preorder : PreOrder off_log.
Proof. split; [by intros d k|]. intros d1 d2 d3 H1 H2 k Hk. by rewrite (H2 k Hk), (H1 k Hk). Qed.

#[export] Instance same_log_preorder : PreOrder same_log.
Proof. split; [by intros d k|]. intros d1 d2 d3 H1 H2 k Hk. by rewrite (H2 k Hk), (H1 k Hk). Qed.

Lemma log_key_app k : log_key (db_base_name ++ k) = true.
Proof. apply is_prefix_spec. by exists k. Qed.

Lemma off_log_insert d k r : log_key k = true → off_log d (<[k := r]> d).
Proof. intros Hk k' Hk'. rewrite lookup_insert_ne; [done|]. congruence. Qed.

Lemma same_log_insert d k r : log_key k = false → same_log d (<[k := r]> d).
Proof. intros Hk k' Hk'. rewrite lookup_insert_ne; [done|]. congruence. Qed.

Lemma same_log_delete d k : log_key k = false → same_log d (delete k d).
Proof. intros Hk k' Hk'. rewrite lookup_delete_ne; [done|]. congruence. Qed.

Lemma log_on_same d d' log : same_log d d' → log_on d log → log_on d' log.
Proof.
  intros Heq (H1 & H2 & H3 & H4). assert (Hv : ∀ v, d' !! db_key v = d !! db_key v) by (intros; apply Heq, log_key_app).
  split; [|split; [|split; [|done]]].
  - intros i e Hi. rewrite Hv. by apply H1.
  - intros v Hlt. rewrite Hv. by apply H2.
  - by rewrite (Heq db_version_key (log_key_app _)).
Qed.

(** ** Reading *)

Lemma get_db_entry_found v s r e :
  drive s !! db_key v = Some r → ParseFromString (kr_value r) = Some e →
  ∃ w', get_db_entry v s = Ret (0, Some e) (set_kinetic w' s) ∧ contents w' = drive s.
Proof.
  intros Hr He. unfold get_db_entry. destruct (k_Get_found _ _ _ Hr) as (w' & Hg & Hw). exists w'. split; [|done].
  step_by Hg. cbn [is_ok negb]. rewrite bool_decide_false by done. by rewrite He.
Qed.

Lemma get_db_entry_absent v s : drive s !! db_key v = None →
  ∃ w', get_db_entry v s = Ret (- ENOENT, None) (set_kinetic w' s) ∧ contents w' = drive s.
Proof.
  intros Hr. unfold get_db_entry. destruct (k_Get_absent _ _ Hr) as (r & w' & Hg & Hw). exists w'. split; [|done].
  step_by Hg. by rewrite bool_decide_true by done.
Qed.

(** The entries of a log from a position on. *)
Lemma get_db_entries_run log m acc s : log_on (drive s) log → (m <= length log)%nat →
  ∃ w', get_db_entries (length log - m) (Z.of_nat m + 1) acc s = Ret (0, acc ++ drop m log) (set_kinetic w' s) ∧
    contents w' = drive s.
Proof.
  intros Hlog Hm. remember (length log - m)%nat as n eqn:Hn. revert m acc s Hlog Hm Hn.
  induction n as [|n IH]; intros m acc s Hlog Hm Hn.
  - exists (kinetic s). split; [|done]. cbn. rewrite drop_ge by lia. rewrite app_nil_r. by destruct s.
  - destruct (lookup_lt_is_Some_2 log m) as [e He]; [lia|]. pose proof Hlog as (Hent & _).
    destruct (Hent m e He) as (r & Hr & Hp & _). destruct (get_db_entry_found _ s r e Hr Hp) as (w1 & Hg & Hw1).
    cbn [get_db_entries]. step_by Hg. cbn [negb Z.eqb].
    destruct (IH (S m) (acc ++ [e]) (set_kinetic w1 s)) as (w2 & Hrun & Hw2); [unfold drive; cbn; by rewrite Hw1|lia|lia|].
    replace (Z.of_nat m + 1 + 1) with (Z.of_nat (S m) + 1) by lia. rewrite Hrun. exists w2. split.
    + f_equal. rewrite <- app_assoc. by rewrite (drop_S log e m).
    + rewrite Hw2. exact Hw1.
Qed.

Lemma get_db_version_run log s : log_on (drive s) log →
  ∃ w', get_db_version s = Ret (0, Z.of_nat (length log)) (set_kinetic w' s) ∧ contents w' = drive s.
Proof.
  intros (_ & _ & Hver & Hlen). unfold get_db_version, mbind_, k_GetVersion.
  pose proof (reliable_GetVersion db_version_key (kinetic s)) as Hst.
  destruct (GetVersion db_version_key (kinetic s)) as [[st r] w'] eqn:HG. cbn [fst snd] in Hst.
  destruct (spec_GetVersion _ _ _ _ _ HG) as (Hw & Hok & _). exists w'. unfold drive in *. destruct log as [|e log].
  - rewrite Hver in Hst. rewrite decide_False in Hst by (by intros [? ?]). subst st. rewrite bool_decide_true by done. done.
  - destruct (contents (kinetic s) !! db_version_key) as [x|] eqn:Hx; [|discriminate Hver].
    rewrite decide_True in Hst by eauto. subst st. rewrite bool_decide_false by done. cbn [is_ok negb].
    destruct (Hok eq_refl) as (y & -> & Hy). simplify_eq. cbn in Hver. injection Hver as Hver.
    split; [|done]. unfold mret_. do 2 f_equal. unfold to_int64_data. rewrite Hver.
    change (S (length log)) with (length (e :: log)) in *. rewrite c_str_to_string. unfold to_int64.
    rewrite stoll_to_string by (unfold is_int64; lia). done.
Qed.

Lemma on_pmap_run {A} (op : M PathMapDB A) s a p : op (pmap_ s) = Ret a p → on_pmap op s = Ret a (set_pmap p s).
Proof. unfold on_pmap, zoom. by intros ->. Qed.

(** Where a client stands in the log. *)
Definition follows log s : Prop := consistent log (pmap_ s).

(** ** Catching up *)

Lemma update_behind log s db :
  log_on (drive s) log → follows log s → snapshotVersion (pmap_ s) < Z.of_nat (length log) →
  Z.of_nat (length log) - snapshotVersion (pmap_ s) <= 42 → replay log PathMapDB_new = Ret true db →
  ∃ w', database_update s = Ret 0 (set_pmap db (set_kinetic w' s)) ∧ contents w' = drive s.
Proof.
  intros Hlog (n & Hn & Hv & Hr)%consistent_version Hlt Hlag Hall. rewrite Hv in *.
  unfold database_update, mbind_ at 1, get_. unfold getSnapshotVersion. rewrite Hv.
  destruct (get_db_version_run log s Hlog) as (w1 & Hg & Hw1). step_by Hg. cbn [negb Z.eqb].
  unfold mbind_ at 1, assert_. destruct (Z.leb_spec (Z.of_nat n) (Z.of_nat (length log))); [|lia].
  destruct (Z.eqb_spec (Z.of_nat (length log)) (Z.of_nat n)); [lia|].
  unfold update_to. destruct (Z.ltb_spec 42 (Z.of_nat (length log) - Z.of_nat n)); [lia|]. rewrite mbind_ret_l.
  replace (Z.to_nat (Z.of_nat (length log) - Z.of_nat n)) with (length log - n)%nat by lia.
  destruct (get_db_entries_run log n [] (set_kinetic w1 s)) as (w2 & He & Hw2); [unfold drive; cbn; by rewrite Hw1|lia|].
  step_by He. cbn [negb Z.eqb app]. exists w2. split; [|rewrite Hw2; exact Hw1].
  apply (on_pmap_run _ (set_kinetic w2 s)). cbn [pmap_ set_kinetic]. destruct Hlog as (_ & _ & _ & Hlen).
  apply (updateSnapshot_exact (drop n log) (Z.of_nat n) (Z.of_nat (length log)) (pmap_ s) db); [|unfold u64_mod; lia|done|].
  - rewrite length_drop. lia.
  - rewrite <- (take_drop n log), replay_app in Hall. by rewrite (mbind_Ret _ _ _ _ _ Hr) in Hall.
Qed.

Lemma update_current log s :
  log_on (drive s) log → follows log s → snapshotVersion (pmap_ s) = Z.of_nat (length log) →
  ∃ w', database_update s = Ret (- EALREADY) (set_kinetic w' s) ∧ contents w' = drive s.
Proof.
  intros Hlog Hf Hv. unfold database_update, mbind_ at 1, get_. unfold getSnapshotVersion. rewrite Hv.
  destruct (get_db_version_run log s Hlog) as (w1 & Hg & Hw1). step_by Hg. cbn [negb Z.eqb].
  unfold mbind_ at 1, assert_. rewrite Z.leb_refl, Z.eqb_refl. pose proof Hlog as (_ & Habs & _).
  destruct (get_db_entry_absent (Z.of_nat (length log) + 1) (set_kinetic w1 s)) as (w2 & He & Hw2).
  { unfold drive; cbn. rewrite Hw1. apply Habs. lia. }
  step_by He. exists w2. split; [done|]. rewrite Hw2. exact Hw1.
Qed.

(** ** Appending *)

Lemma log_on_snapshot d log r : log_on d log → log_on (<[snapshot_key := r]> d) log.
Proof.
  intros (H1 & H2 & H3 & H4). split; [|split; [|split; [|done]]].
  - intros i e He. rewrite lookup_insert_ne by (intros Hk; by apply (db_key_snapshot (Z.of_nat i + 1))). by apply H1.
  - intros v Hv. rewrite lookup_insert_ne by (intros Hk; by apply (db_key_snapshot v)). by apply H2.
  - rewrite lookup_insert_ne by done. done.
Qed.

Lemma log_on_append d log e r rv :
  log_on d log → ParseFromString (kr_value r) = Some e → kr_version r = to_string (Z.of_nat (length log) + 1) →
  kr_version rv = to_string (Z.of_nat (length log) + 1) → Z.of_nat (length log) + 1 < 9223372036854775807 →
  log_on (<[db_version_key := rv]> (<[db_key (Z.of_nat (length log) + 1) := r]> d)) (log ++ [e]).
Proof.
  intros (H1 & H2 & H3 & H4) Hp Hr Hrv Hlen.
  assert (Hne : ∀ v, db_version_key ≠ db_key v) by (intros v Hk; by apply (db_key_version v)).
  unfold log_on. rewrite length_app. cbn [length].
  replace (Z.of_nat (length log + 1)) with (Z.of_nat (length log) + 1) by lia. split; [|split; [|split; [|lia]]].
  - intros i x Hx. rewrite lookup_insert_ne by done. apply lookup_app_Some in Hx as [Hx|[Hi Hx]].
    + pose proof (lookup_lt_Some _ _ _ Hx). rewrite lookup_insert_ne; [by apply H1|].
      intros Hk%(inj db_key). lia.
    + apply list_lookup_singleton_Some in Hx as [Hi' <-]. assert (i = length log) as -> by lia.
      rewrite lookup_insert_eq. eauto.
  - intros v Hv. rewrite lookup_insert_ne by done. rewrite lookup_insert_ne by (intros Hk%(inj db_key); lia). apply H2. lia.
  - destruct (log ++ [e]) eqn:E; [by destruct log|]. rewrite lookup_insert_eq. cbn. by rewrite Hrv.
Qed.

Lemma put_db_entry_append log s e :
  log_on (drive s) log → msg_wf e → Z.of_nat (length log) + 1 < 9223372036854775807 →
  ∃ w', put_db_entry (Z.of_nat (length log) + 1) e s = Ret 0 (set_kinetic w' s) ∧ log_on (contents w') (log ++ [e]) ∧
    off_log (drive s) (contents w').
Proof.
  intros Hlog Hwf Hlen. unfold put_db_entry. set (v := Z.of_nat (length log) + 1).
  destruct (k_Put_ok (db_key v) [] REQUIRE_SAME_VERSION (mk_KineticRecord (SerializeAsString e) (to_string v)) s)
    as (w1 & Hput & Hw1).
  { unfold version_matches. destruct Hlog as (_ & Habs & _). rewrite Habs by lia. done. }
  step_by Hput. rewrite bool_decide_false by done. cbn [is_ok negb].
  destruct (k_Put_ok db_version_key [] IGNORE_VERSION (mk_KineticRecord [] (to_string v)) (set_kinetic w1 s))
    as (w2 & Hput2 & Hw2); [done|].
  step_by Hput2. exists w2. split; [done|]. rewrite Hw2. change (drive (set_kinetic w1 s)) with (contents w1). rewrite Hw1. split.
  - apply log_on_append; [done|by apply parse_serialize|done|done|done].
  - etransitivity; apply off_log_insert, log_key_app.
Qed.

Lemma put_db_entry_taken log s e v :
  log_on (drive s) log → 1 <= v <= Z.of_nat (length log) →
  ∃ w', put_db_entry v e s = Ret (- EEXIST) (set_kinetic w' s) ∧ contents w' = drive s.
Proof.
  intros (Hent & _) Hv. destruct (lookup_lt_is_Some_2 log (Z.to_nat (v - 1))) as [x Hx]; [lia|].
  destruct (Hent _ _ Hx) as (r & Hr & _ & Hver). replace (Z.of_nat (Z.to_nat (v - 1)) + 1) with v in * by lia.
  unfold put_db_entry.
  destruct (k_Put_mismatch (db_key v) [] REQUIRE_SAME_VERSION (mk_KineticRecord (SerializeAsString e) (to_string v)) s)
    as (w1 & Hput & Hw1).
  { unfold version_matches. rewrite Hr, Hver. intros Hk. symmetry in Hk. by apply to_string_not_nil in Hk. }
  step_by Hput. rewrite bool_decide_true by done. eauto.
Qed.

(** The write of the serialised snapshot every 42 entries does not touch the log. *)
Lemma store_snapshot_run log (b : bool) s : log_on (drive s) log →
  ∃ w', (if b then let! s := get_ in let! _ := put_db_snapshot (serializeSnapshot env_iter (pmap_ s)) in mret_ tt
         else mret_ tt) s = Ret tt (set_kinetic w' s) ∧ log_on (contents w') log ∧ off_log (drive s) (contents w').
Proof.
  intros Hlog. destruct b; [|exists (kinetic s); split; [by destruct s|by split]].
  unfold mbind_ at 1, get_, put_db_snapshot. rewrite mbind_assoc.
  match goal with |- context [k_Put ?k ?v ?m ?r] => destruct (k_Put_ok k v m r s I) as (w' & Hput & Hw) end.
  step_by Hput. exists w'. split; [done|]. rewrite Hw. split; [by apply log_on_snapshot|apply off_log_insert, log_key_app].
Qed.

Lemma operation_current f log s e db :
  log_on (drive s) log → follows log s → snapshotVersion (pmap_ s) = Z.of_nat (length log) →
  msg_wf e → Z.of_nat (length log) + 1 < 9223372036854775807 → replay (log ++ [e]) PathMapDB_new = Ret true db →
  ∃ w', database_operation (S f) e s = Ret 0 (set_kinetic w' (set_pmap db s)) ∧ log_on (contents w') (log ++ [e]) ∧
    off_log (drive s) (contents w').
Proof.
  intros Hlog (n & Hn & Hv & Hr)%consistent_version Heq Hwf Hlen Hall. assert (n = length log) as -> by lia.
  cbn [database_operation]. unfold mbind_ at 1, get_. unfold getSnapshotVersion. rewrite Heq.
  destruct (put_db_entry_append log s e Hlog Hwf Hlen) as (w1 & Hput & Hw1 & Ho1). step_by Hput. cbn [Z.eqb].
  rewrite firstn_all in Hr. rewrite replay_app, (mbind_Ret _ _ _ _ _ Hr) in Hall.
  destruct (updateSnapshot_exact [e] (Z.of_nat (length log)) (Z.of_nat (length log) + 1) (pmap_ s) db) as [Hup _];
    [cbn; lia|unfold u64_mod; lia|done|exact Hall|].
  step_by (on_pmap_run _ (set_kinetic w1 s) _ _ Hup).
  destruct (store_snapshot_run (log ++ [e]) (Z.rem (Z.of_nat (length log)) 42 =? 0) (set_pmap db (set_kinetic w1 s)) Hw1)
    as (w2 & Hsnap & Hw2 & Ho2).
  step_by Hsnap. exists w2. split; [done|]. split; [done|]. by etransitivity.
Qed.

(** ** Properties *)

(** A client that is behind reads exactly the entries it misses: after
    [database_update] its path map is the replay of the whole log. A client that
    is not behind gets [-EALREADY] and keeps its map. (At most 42 entries behind,
    so that the serialised snapshot is not consulted.) *)
Theorem database_update_catches_up log s db :
  log_on (drive s) log → follows log s → Z.of_nat (length log) - snapshotVersion (pmap_ s) <= 42 →
  replay log PathMapDB_new = Ret true db →
  ∃ err s', database_update s = Ret err s' ∧ drive s' = drive s ∧ pmap_ s' = db ∧
    (err = 0 ∧ snapshotVersion (pmap_ s) < Z.of_nat (length log) ∨
     err = - EALREADY ∧ snapshotVersion (pmap_ s) = Z.of_nat (length log)).
Proof.
  intros Hlog Hf Hlag Hall. pose proof Hf as (n & Hn & Hv & Hr)%consistent_version.
  destruct (decide (n = length log)) as [->|Hne].
  - destruct (update_current log s Hlog Hf Hv) as (w' & Hu & Hw). eexists _, _. split; [exact Hu|]. split; [exact Hw|].
    split; [|by right]. rewrite firstn_all in Hr. cbn. congruence.
  - destruct (update_behind log s db Hlog Hf) as (w' & Hu & Hw); [lia|done|done|]. eexists _, _. split; [exact Hu|].
    split; [exact Hw|]. split; [done|]. left. lia.
Qed.

Lemma operation_run f log s e db :
  log_on (drive s) log → follows log s → Z.of_nat (length log) - snapshotVersion (pmap_ s) <= 42 →
  msg_wf e → Z.of_nat (length log) + 1 < 9223372036854775807 → replay (log ++ [e]) PathMapDB_new = Ret true db →
  ∃ w', database_operation (S (S f)) e s = Ret 0 (set_kinetic w' (set_pmap db s)) ∧ log_on (contents w') (log ++ [e]) ∧
    off_log (drive s) (contents w').
Proof.
  intros Hlog Hf Hlag Hwf Hlen Hall. pose proof Hf as (n & Hn & Hv & Hr)%consistent_version.
  destruct (decide (n = length log)) as [->|Hne]; [by apply operation_current|].
  pose proof Hall as Hall0. rewrite replay_app in Hall0. apply mbind_Ret_inv in Hall0 as (ok & db0 & Hpre & Hlast).
  destruct ok; [|done].
  cbn [database_operation]. unfold mbind_ at 1, get_. unfold getSnapshotVersion. rewrite Hv.
  destruct (put_db_entry_taken log s e (Z.of_nat n + 1) Hlog) as (w1 & Hput & Hw1); [lia|].
  step_by Hput. change (- EEXIST =? 0) with false. rewrite Z.eqb_refl. cbn [negb].
  assert (Hd1 : drive (set_kinetic w1 s) = drive s) by exact Hw1.
  destruct (update_behind log (set_kinetic w1 s) db0) as (w2 & Hu & Hw2); [by rewrite Hd1|done|cbn; lia|cbn; lia|done|].
  step_by Hu. cbn [Z.eqb negb]. rewrite Hd1 in Hw2.
  set (s2 := set_pmap db0 _). assert (Hd2 : drive s2 = drive s) by exact Hw2.
  rewrite <- Hd2. apply (operation_current f log s2 e db); [by rewrite Hd2| | |done..].
  - exists (length log). by rewrite firstn_all.
  - cbn. rewrite (replay_version _ _ _ Hpre). cbn. lia.
Qed.

(** C1: [database_operation] appends its entry to the log exactly once: also if
    other clients have appended meanwhile, it catches up and then adds the entry
    at the end; the log before it is unchanged, and the client's path map is the
    replay of the whole log with the new entry. Two rounds are enough. *)
Theorem database_operation_appends f log s e db :
  log_on (drive s) log → follows log s → Z.of_nat (length log) - snapshotVersion (pmap_ s) <= 42 →
  msg_wf e → Z.of_nat (length log) + 1 < 9223372036854775807 → replay (log ++ [e]) PathMapDB_new = Ret true db →
  ∃ s', database_operation (S (S f)) e s = Ret 0 s' ∧ log_on (drive s') (log ++ [e]) ∧ pmap_ s' = db.
Proof.
  intros Hlog Hf Hlag Hwf Hlen Hall. destruct (operation_run f log s e db Hlog Hf Hlag Hwf Hlen Hall) as (w' & Hrun & Hw & _). by eexists.
Qed.

(** ** Many clients *)

Record db_sys := mk_db_sys { ds_w : W; ds_clients : list (hflat_priv W); ds_log : list db_entry }.

(** A client's call of [database_operation] or [database_update], or a new
    client. The entry must be one the path map accepts. *)
Inductive db_step : db_sys → db_sys → Prop :=
| db_mount sys s : pmap_ s = PathMapDB_new →
    db_step sys (mk_db_sys (ds_w sys) (ds_clients sys ++ [s]) (ds_log sys))
| db_operation sys i s f e db err s' :
    ds_clients sys !! i = Some s → Z.of_nat (length (ds_log sys)) - snapshotVersion (pmap_ s) <= 42 →
    msg_wf e → Z.of_nat (length (ds_log sys)) + 1 < 9223372036854775807 →
    replay (ds_log sys ++ [e]) PathMapDB_new = Ret true db →
    database_operation (S (S f)) e (set_kinetic (ds_w sys) s) = Ret err s' →
    db_step sys (mk_db_sys (kinetic s') (<[i := s']> (ds_clients sys)) (ds_log sys ++ [e]))
| db_update sys i s err s' :
    ds_clients sys !! i = Some s → Z.of_nat (length (ds_log sys)) - snapshotVersion (pmap_ s) <= 42 →
    database_update (set_kinetic (ds_w sys) s) = Ret err s' →
    db_step sys (mk_db_sys (kinetic s') (<[i := s']> (ds_clients sys)) (ds_log sys)).

Definition db_inv (sys : db_sys) : Prop :=
  log_on (contents (ds_w sys)) (ds_log sys) ∧ Forall (follows (ds_log sys)) (ds_clients sys) ∧
  ∃ db, replay (ds_log sys) PathMapDB_new = Ret true db.

Lemma db_inv_step sys sys' : db_inv sys → db_step sys sys' → db_inv sys'.
Proof.
  intros (Hlog & Hcl & db0 & Hrep) Hstep.
  destruct Hstep as [sys s Hs|sys i s f e db err s' Hi Hlag Hwf Hlen Hall Hrun|sys i s err s' Hi Hlag Hrun].
  - split; [done|]. split; [|by exists db0]. apply Forall_app. split; [done|]. constructor; [|constructor].
    unfold follows. rewrite Hs. apply consistent_new.
  - assert (Hf : follows (ds_log sys) s) by (by eapply (proj1 (Forall_lookup _ _) Hcl)).
    destruct (operation_run f (ds_log sys) (set_kinetic (ds_w sys) s) e db Hlog Hf Hlag Hwf Hlen Hall)
      as (w1 & Hop & Hlog1 & _).
    rewrite Hop in Hrun. simplify_eq. split; [exact Hlog1|]. split; [|by exists db]. cbn [ds_clients ds_log].
    apply Forall_insert; [eapply Forall_impl; [exact Hcl|intros x; apply consistent_grow]|].
    exists (length (ds_log sys ++ [e])). rewrite firstn_all. done.
  - assert (Hf : follows (ds_log sys) s) by (by eapply (proj1 (Forall_lookup _ _) Hcl)).
    pose proof Hf as (n & Hn & Hv & Hr)%consistent_version.
    assert (Hres : drive s' = contents (ds_w sys) ∧ pmap_ s' = db0).
    { destruct (decide (n = length (ds_log sys))) as [->|Hne].
      - destruct (update_current (ds_log sys) (set_kinetic (ds_w sys) s) Hlog Hf Hv) as (w' & Hu & Hw).
        rewrite Hu in Hrun. simplify_eq. split; [exact Hw|]. rewrite firstn_all in Hr. cbn. congruence.
      - destruct (update_behind (ds_log sys) (set_kinetic (ds_w sys) s) db0 Hlog Hf) as (w' & Hu & Hw); [cbn; lia|done|done|].
        rewrite Hu in Hrun. simplify_eq. done. }
    destruct Hres as [Hd Hp]. split; [unfold drive in Hd; cbn [ds_w ds_log]; by rewrite Hd|]. split; [|by exists db0].
    cbn [ds_clients ds_log]. apply Forall_insert; [done|]. unfold follows. rewrite Hp. exists (length (ds_log sys)).
    by rewrite firstn_all.
Qed.

(** However the clients' operations follow each other, every client's path
    map is the replay of a prefix of the one log, so two clients at the same
    version agree on every path. *)
Theorem clients_agree (w : W) sys i j s s' :
  log_on (contents w) [] → steps db_step (mk_db_sys w [] []) sys →
  ds_clients sys !! i = Some s → ds_clients sys !! j = Some s' →
  consistent (ds_log sys) (pmap_ s) ∧
  (snapshotVersion (pmap_ s) = snapshotVersion (pmap_ s') → pmap_ s = pmap_ s').
Proof.
  intros Hw Hs Hi Hj. assert (Hinv : db_inv sys).
  { eapply (steps_invariant db_step db_inv); [exact db_inv_step| |exact Hs].
    split; [done|]. split; [constructor|]. by eexists. }
  destruct Hinv as (_ & Hcl & _). pose proof (proj1 (Forall_lookup _ _) Hcl) as Hcl'.
  split; [by eapply Hcl'|]. apply (consistent_unique (ds_log sys)); by eapply Hcl'.
Qed.

End Database.

(** ** Witnesses *)
#[local] Existing Instance demo_env.
#[local] Instance demo_entries : @MessageSpec db_entry env_db_entry := demo_db_entry_spec.

Definition demo_move : db_entry := mk_db_entry (lit "/a") db_entry_Type_MOVE (lit "/b").
Definition demo_db1 : PathMapDB := state_after (replay [demo_move] PathMapDB_new) PathMapDB_new.

Lemma demo_replay : replay [demo_move] PathMapDB_new = Ret true demo_db1.
Proof. apply result_of_Ret. vm_compute. reflexivity. Qed.

Lemma log_on_empty : log_on (∅ : store) [].
Proof. repeat split; intros; done. Qed.

(** The client after the move [/a -> /b], and a fresh client on the same drive. *)
Definition demo_first : hflat_priv store :=
  state_after (database_operation 2 demo_move (demo_mount ∅)) (demo_mount ∅).
Definition demo_second : hflat_priv store := demo_mount (kinetic demo_first).

Lemma demo_first_run : database_operation 2 demo_move (demo_mount ∅) = Ret 0 demo_first.
Proof. apply result_of_Ret. vm_compute. reflexivity. Qed.

Lemma demo_first_log : log_on (drive demo_first) [demo_move] ∧ pmap_ demo_first = demo_db1.
Proof.
  destruct (operation_run 0 [] (demo_mount ∅) demo_move demo_db1) as (w & H1 & H2 & _);
    [exact log_on_empty|exact (consistent_new [])|discriminate|exact I|reflexivity|exact demo_replay|].
  rewrite demo_first_run in H1. injection H1 as <-. done.
Qed.

Lemma database_operation_appends_witness :
  ∃ s, database_operation 2 demo_move (demo_mount ∅) = Ret 0 s ∧ log_on (drive s) [demo_move] ∧
    toSystemPath 9 (pmap_ s) (lit "/b/x") LOOKUP = Some (lit "/a/x", 0).
Proof.
  destruct (database_operation_appends 0 [] (demo_mount ∅) demo_move demo_db1) as (s & H1 & H2 & H3).
  - exact log_on_empty.
  - exact (consistent_new []).
  - discriminate.
  - exact I.
  - reflexivity.
  - exact demo_replay.
  - exists s. split; [exact H1|]. split; [exact H2|]. rewrite H3. vm_compute. reflexivity.
Defined.

Lemma database_update_catches_up_witness :
  ∃ err s, database_update demo_second = Ret err s ∧ pmap_ s = demo_db1.
Proof.
  destruct (database_update_catches_up [demo_move] demo_second demo_db1) as (err & s & H1 & _ & H2 & _).
  - exact (proj1 demo_first_log).
  - apply (consistent_new [demo_move]).
  - vm_compute. discriminate.
  - exact demo_replay.
  - exists err, s. split; [exact H1|exact H2].
Defined.

Definition demo_db_sys (w : store) (cs : list (hflat_priv store)) (log : list db_entry) : db_sys := mk_db_sys w cs log.

Lemma demo_db_reachable :
  steps db_step (demo_db_sys ∅ [] []) (demo_db_sys (kinetic demo_first) [demo_first; demo_mount ∅] [demo_move]).
Proof.
  eapply (steps_step _ _ (demo_db_sys ∅ [demo_mount ∅; demo_mount ∅] [])).
  { eapply (steps_step _ _ (demo_db_sys ∅ [demo_mount ∅] [])).
    - apply steps_one. by apply (db_mount (demo_db_sys ∅ [] []) (demo_mount ∅)).
    - by apply (db_mount (demo_db_sys ∅ [demo_mount ∅] []) (demo_mount ∅)). }
  apply (db_operation (demo_db_sys ∅ [demo_mount ∅; demo_mount ∅] []) 0 (demo_mount ∅) 0 demo_move demo_db1 0 demo_first);
    [done|discriminate|exact I|done|exact demo_replay|exact demo_first_run].
Qed.

Lemma clients_agree_witness :
  consistent [demo_move] (pmap_ demo_first) ∧
  (snapshotVersion (pmap_ demo_first) = snapshotVersion (pmap_ (demo_mount ∅)) → pmap_ demo_first = pmap_ (demo_mount ∅)).
Proof.
  apply (clients_agree (∅ : store) (demo_db_sys (kinetic demo_first) [demo_first; demo_mount ∅] [demo_move]) 0 1).
  - exact log_on_empty.
  - exact demo_db_reachable.
  - reflexivity.
  - reflexivity.
Defined.
