(* ===== verification/DistributedFacts.v ===== *)
(** * Properties of the distributed namespace

    Placement of keys, and the refinement: on a healthy cluster the replicated,
    partitioned namespace behaves as one store. *)
From S2P Require Import Prelude CppString Proto Kinetic Demo Drives Distributed DemoCluster.

Section Facts.
Context {W C Fl : Type} `{DistEnv W C Fl} `{!DrivesSpec W C} `{!DistEnvSpec W C Fl}.
Abbreviation DKN := (DistributedKineticNamespace W C Fl).
Implicit Types (ds : DKN) (p : Partition) (w : W) (c : C).

(** ** Placement of keys *)

Definition dir_part (k : cstr) : cstr := substr k 0 (find_first_of (lit "|") k 0).
Definition is_direntry (k : cstr) : bool :=
  negb (find_first_of (lit "|") k 0 =? npos) && negb (find_first_of (lit "|") k 0 =? wrap64 (size_ k - 1)).
Definition has_dir (k : cstr) : bool := negb (find_first_of (lit "|") k 0 =? npos).
Definition key_hash (cs : Z) (k : cstr) : Z :=
  if is_direntry k then wrap64 (std_hash (dir_part k) + std_hash k mod wrap64 cs) else std_hash (dir_part k).
Definition key_index (ds : DKN) (k : cstr) : nat :=
  Z.to_nat (key_hash (direntry_clustersize ds) k mod Z.of_nat (length (cluster_map ds))).

Lemma keyToPartition_run k ds :
  cluster_map ds ≠ [] → direntry_clustersize ds ≠ 0 →
  keyToPartition k ds = Ret (PMap (key_index ds k)) ds.
Proof.
  intros Hm Hc. unfold keyToPartition, key_index, key_hash, is_direntry, dir_part. msimpl.
  destruct (_ && _); [rewrite (proj2 (Z.eqb_neq _ _) Hc)|];
    (destruct (cluster_map ds) eqn:E; [done|]; cbn -[Z.of_nat]; done).
Qed.

Lemma key_index_bound ds k : cluster_map ds ≠ [] → (key_index ds k < length (cluster_map ds))%nat.
Proof.
  intros Hm. unfold key_index.
  assert (0 < Z.of_nat (length (cluster_map ds))) by (destruct (cluster_map ds); cbn; [done|lia]).
  pose proof (Z.mod_pos_bound (key_hash (direntry_clustersize ds) k) (Z.of_nat (length (cluster_map ds)))). lia.
Qed.

Lemma key_partition ds k : cluster_map ds ≠ [] → ∃ p, cluster_map ds !! key_index ds k = Some p.
Proof. intros Hm. destruct (lookup_lt_is_Some_2 _ _ (key_index_bound ds k Hm)) as [p ?]. eauto. Qed.

(** ** Connected drives *)

Definition ready (c : C) (w : W) : Prop :=
  drive_online obs (addr_of obs c) w = true ∧ client_version obs c w = drive_version obs (addr_of obs c) w.

Definition connected (d : KineticDrive) (ds : DKN) : Prop :=
  ∃ c, connection_map ds !! drive_key d = Some c ∧ addr_of obs c = drive_key d ∧ ready c (world ds).

Lemma request_ready c w st w' P : ready c w → request obs _ c w st w' P → P.
Proof. intros [H1 H2]. unfold request. rewrite H1, H2. cbn. by rewrite decide_True. Qed.

Lemma driveToConnection_connected p i d ds :
  drives p !! i = Some d → connected d ds →
  ∃ c, connection_map ds !! drive_key d = Some c ∧ addr_of obs c = drive_key d ∧ ready c (world ds) ∧
       driveToConnection p i ds = Ret (Some c) ds.
Proof.
  intros Hd (c & Hc & Ha & Hr). exists c. repeat split; try done; try apply Hr.
  unfold driveToConnection, drive_at. rewrite Hd. msimpl. by rewrite Hc.
Qed.

(** A stateless change of the world. *)
Definition same_stores (w w' : W) : Prop := unchanged obs w w'.

Lemma unchanged_refl w : unchanged obs w w.
Proof. by split. Qed.

Lemma unchanged_trans w1 w2 w3 : unchanged obs w1 w2 → unchanged obs w2 w3 → unchanged obs w1 w3.
Proof. intros [] []. split; intros; congruence. Qed.

Lemma unchanged_ready c w w' : unchanged obs w w' → ready c w → ready c w'.
Proof. intros [] []. unfold ready. split; congruence. Qed.

Lemma only_store_ready a s c w w' : only_store obs a s w w' → ready c w → ready c w'.
Proof. intros [] []. unfold ready. split; congruence. Qed.

(** ** Operations on one drive *)

(** [op] performs [f] on the store of a reachable drive. *)
Definition performs (op : C → W → StatusCode * W) (f : store → StatusCode * store) : Prop :=
  ∀ c w, ready c w →
    (op c w).1 = (f (drive_store obs (addr_of obs c) w)).1 ∧
    only_store obs (addr_of obs c) (f (drive_store obs (addr_of obs c) w)).2 w (op c w).2.

Lemma put_performs k v m r : performs (λ c, @con_Put _ (connection c) k v m r) (drive_Put k v m r).
Proof.
  intros c w Hr. destruct (con_Put _ _ _ _ _) as [st w'] eqn:E. apply law_Put in E.
  destruct (drive_Put _ _ _ _ _). by apply request_ready in E.
Qed.

Lemma delete_performs k v m : performs (λ c, @con_Delete _ (connection c) k v m) (drive_Delete k v m).
Proof.
  intros c w Hr. destruct (con_Delete _ _ _ _) as [st w'] eqn:E. apply law_Delete in E.
  destruct (drive_Delete _ _ _ _). by apply request_ready in E.
Qed.

(** ** The drives of one partition *)

(** The stores of the drives in [ks] went through [f], nothing else changed. *)
Record stores_updated (f : store → StatusCode * store) (ks : list addr) (w w' : W) : Prop := {
  su_store a : drive_store obs a w' = if decide (a ∈ ks) then (f (drive_store obs a w)).2 else drive_store obs a w;
  su_version a : drive_version obs a w' = drive_version obs a w;
  su_online a : drive_online obs a w' = drive_online obs a w;
  su_client c : client_version obs c w' = client_version obs c w;
}.

Lemma stores_updated_ready f ks c w w' : stores_updated f ks w w' → ready c w → ready c w'.
Proof. intros [] []. unfold ready. split; congruence. Qed.

Lemma stores_updated_cons f a ks w w1 w2 :
  a ∉ ks → only_store obs a (f (drive_store obs a w)).2 w w1 → stores_updated f ks w1 w2 →
  stores_updated f (a :: ks) w w2.
Proof.
  intros Ha [H1 H2 H3 H4] [H1' H2' H3' H4']. split; intros; try congruence.
  rewrite H1', H1. destruct (decide (a0 = a)) as [->|Hn].
  - rewrite (decide_False (P := a ∈ ks)) by done. rewrite decide_True; [done|set_solver].
  - destruct (decide (a0 ∈ ks)); [rewrite decide_True|rewrite decide_False]; set_solver.
Qed.

Lemma connected_with_world d ds w' :
  (∀ c, ready c (world ds) → ready c w') → connected d ds → connected d (with_world w' ds).
Proof. intros Hr (c & ? & ? & ?). exists c. cbn. eauto. Qed.

Lemma at_with_world pr w ds : at_ pr (with_world w ds) = at_ pr ds.
Proof. by destruct pr. Qed.

Lemma read_p_run pr p ds : at_ pr ds = Some p → read_p pr ds = Ret p ds.
Proof. unfold read_p. by intros ->. Qed.

Lemma drive_at_run p i d ds : drives p !! i = Some d → drive_at p i ds = Ret d ds.
Proof. unfold drive_at. by intros ->. Qed.

(** Every drive that is not RED performs the operation; results come in order. *)
Lemma run_operation_run pr p op f l : ∀ i ds,
  performs op f → at_ pr ds = Some p → drop i (drives p) = l →
  NoDup (map drive_key l) → Forall (λ d, is_red d = false ∧ connected d ds) l →
  ∃ w', run_operation pr op i (length l) ds =
          Ret (map (λ d, (f (drive_store obs (drive_key d) (world ds))).1) l) (with_world w' ds) ∧
        stores_updated f (map drive_key l) (world ds) w'.
Proof.
  induction l as [|d l IH]; intros i ds Hop Hp Hl Hnd Hall; cbn [run_operation length map].
  { exists (world ds). split; [by destruct ds|]. by split. }
  apply Forall_cons in Hall as [[Hr Hc] Hall]. apply NoDup_cons in Hnd as [Hd Hnd].
  assert (Hi : drives p !! i = Some d) by (rewrite <- (Nat.add_0_r i), <- lookup_drop, Hl; done).
  assert (Hl' : drop (S i) (drives p) = l) by (by rewrite <- Nat.add_1_r, <- drop_drop, Hl).
  destruct (driveToConnection_connected p i d ds Hi Hc) as (c & Hm & Ha & Hrd & Hrun).
  destruct (Hop c (world ds) Hrd) as [Hst Hw]. rewrite Ha in Hst, Hw.
  step_by (read_p_run pr p ds Hp). step_by (drive_at_run p i d ds Hi). rewrite Hr.
  unfold mbind_ at 1. step_by Hrun. unfold nonnull. rewrite mbind_ret_l. unfold call.
  destruct (op c (world ds)) as [st w1]. cbn [fst snd] in *. subst st.
  destruct (IH (S i) (with_world w1 ds) Hop) as (w' & Hrun' & Hw'); [by rewrite at_with_world|done|done| |].
  - eapply Forall_impl; [exact Hall|]. intros e [? ?]. split; [done|].
    apply connected_with_world; [|done]. intros. by eapply only_store_ready.
  - exists w'. step_by Hrun'. cbn. unfold mret_. split; [|by eapply stores_updated_cons].
    f_equal. f_equal. apply map_ext_in. intros e He.
    destruct Hw as [Hw _ _ _]. rewrite Hw. rewrite decide_False; [done|].
    intros E. apply Hd. rewrite <- E. apply list_elem_of_In, in_map, He.
Qed.

(** ** The abstract store of a cluster *)

Definition head_store (w : W) (p : Partition) : store :=
  match drives p with d :: _ => drive_store obs (drive_key d) w | [] => ∅ end.

(** The keys of each partition that are placed there, from its first drive. *)
Fixpoint contents_from (ds : DKN) (i : nat) (ps : list Partition) : store :=
  match ps with
  | [] => ∅
  | p :: ps => filter (λ kv, key_index ds kv.1 = i) (head_store (world ds) p) ∪ contents_from ds (S i) ps
  end.
Definition cluster_contents (ds : DKN) : store := contents_from ds 0 (cluster_map ds).

Lemma contents_from_low ds k ps : ∀ i, (key_index ds k < i)%nat → contents_from ds i ps !! k = None.
Proof.
  induction ps as [|p ps IH]; intros i Hi; cbn; [apply lookup_empty|].
  rewrite lookup_union_None. split; [|apply IH; lia].
  apply map_lookup_filter_None. right. cbn. lia.
Qed.

Lemma contents_from_lookup ds k p ps : ∀ i j,
  key_index ds k = (i + j)%nat → ps !! j = Some p → contents_from ds i ps !! k = head_store (world ds) p !! k.
Proof.
  induction ps as [|q ps IH]; intros i j Hk Hj; [done|]. cbn. destruct j as [|j]; cbn in Hj.
  - injection Hj as ->. rewrite lookup_union, (contents_from_low ds k ps (S i)) by lia.
    rewrite (right_id_L None (∪)). destruct (head_store (world ds) p !! k) as [r|] eqn:E.
    + apply map_lookup_filter_Some. split; [done|]. cbn. lia.
    + apply map_lookup_filter_None. by left.
  - rewrite lookup_union, (IH (S i) j) by (done || lia).
    replace (filter _ _ !! k) with (@None KineticRecord); [by destruct (head_store _ _ !! k)|].
    symmetry. apply map_lookup_filter_None. right. cbn. lia.
Qed.

(** ** A healthy cluster: every partition has drives, all are GREEN, connected
    and reachable, no drive is in two partitions, replicas agree on the keys
    placed on them, keys below a directory are only where they are placed, and the
    log drives assigned to partitions are reachable. *)
Record healthy (ds : DKN) : Prop := {
  h_map : cluster_map ds ≠ [];
  h_cs : direntry_clustersize ds ≠ 0;
  h_some i p : cluster_map ds !! i = Some p → drives p ≠ [];
  h_nodup i p : cluster_map ds !! i = Some p → NoDup (map drive_key (drives p));
  h_green i p : cluster_map ds !! i = Some p → Forall (λ d, kd_status d = GREEN) (drives p);
  h_conn i p : cluster_map ds !! i = Some p → Forall (λ d, connected d ds) (drives p);
  h_agree k p d : cluster_map ds !! key_index ds k = Some p → d ∈ drives p →
    drive_store obs (drive_key d) (world ds) !! k = head_store (world ds) p !! k;
  h_apart i j p q d e : cluster_map ds !! i = Some p → cluster_map ds !! j = Some q → i ≠ j →
    d ∈ drives p → e ∈ drives q → drive_key d ≠ drive_key e;
  h_placed i p d k : cluster_map ds !! i = Some p → d ∈ drives p → has_dir k = true →
    is_Some (drive_store obs (drive_key d) (world ds) !! k) → key_index ds k = i;
  h_logpart : partitionID (log_partition ds) = None;
  h_logup : Forall (λ d, is_red d = false) (drives (log_partition ds));
  h_log i p l : cluster_map ds !! i = Some p → logID p = Some l →
    ∃ n ld, l = Z.of_nat n ∧ drives (log_partition ds) !! n = Some ld ∧ connected ld ds;
}.

Lemma contents_lookup ds k p d :
  healthy ds → cluster_map ds !! key_index ds k = Some p → d ∈ drives p →
  cluster_contents ds !! k = drive_store obs (drive_key d) (world ds) !! k.
Proof.
  intros Hh Hp Hd. rewrite (h_agree ds Hh k p d Hp Hd). by apply (contents_from_lookup ds k p _ 0 (key_index ds k)).
Qed.

Lemma green_not_red d : kd_status d = GREEN → is_red d = false.
Proof. unfold is_red. intros ->. done. Qed.

Lemma first_green_all l : Forall (λ d, kd_status d = GREEN) l → l ≠ [] → first_green l = Some O.
Proof. destruct l as [|d l]; [done|]. intros Hg _. apply Forall_cons in Hg as [Hg _]. cbn. unfold is_green. by rewrite Hg. Qed.

(** An operation on one key: its status and effect depend on that key alone. *)
Record on_key (k : cstr) (g : option KineticRecord → StatusCode * option KineticRecord)
    (f : store → StatusCode * store) : Prop := {
  ok_status s : (f s).1 = (g (s !! k)).1;
  ok_effect s : (f s).2 !! k = (g (s !! k)).2;
  ok_frame s k' : k' ≠ k → (f s).2 !! k' = s !! k';
}.

Definition put_cell (v : cstr) (m : WriteMode) (r : KineticRecord) (o : option KineticRecord) : StatusCode * option KineticRecord :=
  let matches := match m with
                 | IGNORE_VERSION => true
                 | REQUIRE_SAME_VERSION => bool_decide (v = match o with Some x => kr_version x | None => [] end)
                 end in
  if matches then (OK, Some r) else (REMOTE_VERSION_MISMATCH, o).

Definition delete_cell (v : cstr) (m : WriteMode) (o : option KineticRecord) : StatusCode * option KineticRecord :=
  match o with
  | None => (REMOTE_NOT_FOUND, None)
  | Some x =>
    let matches := match m with IGNORE_VERSION => true | REQUIRE_SAME_VERSION => bool_decide (v = kr_version x) end in
    if matches then (OK, None) else (REMOTE_VERSION_MISMATCH, Some x)
  end.

Lemma put_cell_run k v m r s : drive_Put k v m r s =
  ((put_cell v m r (s !! k)).1, if is_ok (put_cell v m r (s !! k)).1 then <[k := r]> s else s).
Proof.
  unfold drive_Put, put_cell. case_decide as E; unfold version_matches in E; destruct m; try done.
  - by rewrite bool_decide_true.
  - by rewrite bool_decide_false.
Qed.

Lemma delete_cell_run k v m s : drive_Delete k v m s =
  ((delete_cell v m (s !! k)).1, if is_ok (delete_cell v m (s !! k)).1 then delete k s else s).
Proof.
  unfold drive_Delete, delete_cell.
  destruct (decide (version_matches s k v m)) as [E|E]; unfold version_matches in E; destruct m; destruct (s !! k); try done.
  - by rewrite bool_decide_true.
  - by rewrite bool_decide_false.
Qed.

Lemma put_on_key k v m r : on_key k (put_cell v m r) (drive_Put k v m r).
Proof.
  split; [intros s|intros s|intros s k' Hk]; rewrite put_cell_run; cbn [fst snd]; [done| |];
    unfold put_cell; destruct (match m with IGNORE_VERSION => _ | _ => _ end); cbn;
    rewrite ?lookup_insert_eq, ?lookup_insert_ne by done; done.
Qed.

Lemma delete_on_key k v m : on_key k (delete_cell v m) (drive_Delete k v m).
Proof.
  split; [intros s|intros s|intros s k' Hk]; rewrite delete_cell_run; cbn [fst snd]; [done| |];
    unfold delete_cell; destruct (s !! k) eqn:E; try done;
    destruct (match m with IGNORE_VERSION => _ | _ => _ end); cbn;
    rewrite ?lookup_delete_eq, ?lookup_delete_ne by done; done.
Qed.

(** ** Writes on a healthy cluster *)

Lemma all_equal_replicate p st g ds l : ∀ i acc,
  drop i (drives p) = l → (g < length (drives p))%nat →
  all_equal p (replicate (length (drives p)) st) g i (length l) acc ds = Ret acc ds.
Proof.
  induction l as [|d l IH]; intros i acc Hl Hg; [done|]. cbn [all_equal length].
  assert (Hi : drives p !! i = Some d) by (rewrite <- (Nat.add_0_r i), <- lookup_drop, Hl; done).
  assert (Hl' : drop (S i) (drives p) = l) by (by rewrite <- Nat.add_1_r, <- drop_drop, Hl).
  step_by (drive_at_run p i d ds Hi). destruct (is_red d); [by apply IH|].
  unfold result_at. apply lookup_lt_Some in Hi as Hi'.
  rewrite !lookup_replicate_2 by done. rewrite !mbind_ret_l. rewrite bool_decide_true by done. by apply IH.
Qed.

(** The same result on every drive is the result of the operation. *)
Lemma evaluate_replicate f pr p st g ds :
  at_ pr ds = Some p → first_green (drives p) = Some g → (g < length (drives p))%nat →
  evaluateWriteOperation (S f) pr (replicate (length (drives p)) st) ds = Ret st ds.
Proof.
  intros Hp Hg Hl. cbn [evaluateWriteOperation]. step_by (read_p_run pr p ds Hp). rewrite Hg.
  pose proof (all_equal_replicate p st g ds (drives p) 0 true (drop_0 _) Hl) as Ha. step_by Ha.
  unfold result_at. by rewrite lookup_replicate_2.
Qed.

(** With every drive in service nothing is logged. *)
Lemma log_operation_no_red f pr p key ds :
  at_ pr ds = Some p → Forall (λ d, is_red d = false) (drives p) → log_operation f pr key ds = Ret tt ds.
Proof.
  intros Hp Hg. unfold log_operation. step_by (read_p_run pr p ds Hp). destruct (logID p); [|done].
  assert (E : existsb is_red (drives p) = false); [|by rewrite E].
  induction Hg as [|d l Hd _ IH]; [done|]. cbn. by rewrite Hd, IH.
Qed.

Lemma at_map ds i : at_ (PMap i) ds = cluster_map ds !! i.
Proof. done. Qed.

Lemma healthy_not_red ds i p :
  healthy ds → cluster_map ds !! i = Some p → Forall (λ d, is_red d = false ∧ connected d ds) (drives p).
Proof.
  intros Hh Hp. pose proof (h_green ds Hh i p Hp) as Hg. pose proof (h_conn ds Hh i p Hp) as Hc.
  apply Forall_forall. intros d Hd. rewrite Forall_forall in Hg, Hc. split; [apply green_not_red|]; eauto.
Qed.

(** Replicas of a healthy partition report the same status. *)
Lemma healthy_results ds k p f g :
  healthy ds → cluster_map ds !! key_index ds k = Some p → on_key k g f →
  map (λ d, (f (drive_store obs (drive_key d) (world ds))).1) (drives p) =
  replicate (length (drives p)) (g (cluster_contents ds !! k)).1.
Proof.
  intros Hh Hp Hf. apply list_eq_same_length with (n := length (drives p)); [by rewrite length_replicate|by rewrite length_map|].
  intros i x y Hi Hx Hy. rewrite list_lookup_fmap in Hx. destruct (drives p !! i) as [d|] eqn:Hd; [|done].
  cbn in Hx. injection Hx as <-. apply lookup_replicate in Hy as [-> _]. rewrite (ok_status _ _ _ Hf).
  rewrite (contents_lookup ds k p d); eauto using list_elem_of_lookup_2.
Qed.

Lemma writeOperation_healthy n ds key op f g :
  healthy ds → performs op f → on_key key g f →
  (∀ o, (g o).1 ≠ REMOTE_CLUSTER_VERSION_MISMATCH) →
  ∃ p w', cluster_map ds !! key_index ds key = Some p ∧
    writeOperation (S (S n)) key op ds = Ret (g (cluster_contents ds !! key)).1 (with_world w' ds) ∧
    stores_updated f (map drive_key (drives p)) (world ds) w'.
Proof.
  intros Hh Hop Hf Hg. destruct (key_partition ds key (h_map ds Hh)) as [p Hp].
  pose proof (h_green ds Hh _ p Hp) as Hgr. pose proof (h_some ds Hh _ p Hp) as Hs.
  destruct (run_operation_run (PMap (key_index ds key)) p op f (drives p) 0 ds) as (w' & Hrun & Hw');
    eauto using h_nodup, healthy_not_red.
  exists p, w'. split; [done|]. split; [|done].
  assert (Hfg : first_green (drives p) = Some O) by (by apply first_green_all).
  assert (Hl : (0 < length (drives p))%nat) by (destruct (drives p); [done|cbn; lia]).
  rewrite (healthy_results ds key p f g Hh Hp Hf) in Hrun.
  cbn [writeOperation]. step_by (keyToPartition_run key ds (h_map ds Hh) (h_cs ds Hh)).
  step_by (read_p_run (PMap (key_index ds key)) p ds Hp). step_by Hrun.
  assert (Hp' : at_ (PMap (key_index ds key)) (with_world w' ds) = Some p) by done.
  assert (Hnr : Forall (λ d, is_red d = false) (drives p)) by (eapply Forall_impl; [exact Hgr|apply green_not_red]).
  step_by (log_operation_no_red (S n) _ p key _ Hp' Hnr).
  replace (existsb _ (replicate _ _)) with false; [by eapply evaluate_replicate|].
  symmetry. destruct (existsb _ _) eqn:E; [|done]. apply existsb_exists in E as (x & Hx & Ex).
  apply list_elem_of_In, elem_of_replicate in Hx as [-> _]. by apply bool_decide_eq_true, Hg in Ex.
Qed.

(** ** Frames: what a call on a healthy cluster leaves as it is *)
Record same_config (ds ds' : DKN) : Prop := {
  sc_map : cluster_map ds' = cluster_map ds;
  sc_log : log_partition ds' = log_partition ds;
  sc_conn : connection_map ds' = connection_map ds;
  sc_cs : direntry_clustersize ds' = direntry_clustersize ds;
}.

Lemma same_config_index ds ds' k : same_config ds ds' → key_index ds' k = key_index ds k.
Proof. intros []. unfold key_index. congruence. Qed.

Lemma connected_frame d ds ds' :
  same_config ds ds' → (∀ c, ready c (world ds) → ready c (world ds')) → connected d ds → connected d ds'.
Proof. intros [] Hr (c & ? & ? & ?). exists c. split; [congruence|]. eauto. Qed.

Lemma contents_from_ext ds ds' ps : ∀ i,
  same_config ds ds' → (∀ p, p ∈ ps → head_store (world ds') p = head_store (world ds) p) →
  contents_from ds' i ps = contents_from ds i ps.
Proof.
  induction ps as [|p ps IH]; intros i Hc Hs; [done|]. cbn. rewrite IH, Hs by set_solver. f_equal.
  apply map_filter_ext. intros k r _. cbn. by rewrite (same_config_index ds ds').
Qed.

(** A read. *)
Lemma healthy_unchanged ds ds' :
  healthy ds → same_config ds ds' → unchanged obs (world ds) (world ds') →
  healthy ds' ∧ cluster_contents ds' = cluster_contents ds.
Proof.
  intros Hh Hc Hu. pose proof Hc as [Em El Ec Es].
  assert (Hs : ∀ p, head_store (world ds') p = head_store (world ds) p).
  { intros p. unfold head_store. destruct (drives p); [done|]. apply Hu. }
  split.
  - destruct Hh. split; rewrite ?Em, ?Es, ?El; try done.
    + intros i p Hp. eapply Forall_impl; [exact (h_conn0 i p Hp)|]. intros d Hd. eapply connected_frame; eauto using unchanged_ready.
    + intros k p d. rewrite (same_config_index ds ds' k Hc), Hs, (un_store _ _ _ Hu). eauto.
    + intros i p d k. rewrite (same_config_index ds ds' k Hc), (un_store _ _ _ Hu). eauto.
    + intros i p l Hp Hl. destruct (h_log0 i p l Hp Hl) as (n & ld & ? & ? & ?). exists n, ld.
      eauto using connected_frame, unchanged_ready.
  - unfold cluster_contents. rewrite Em. apply contents_from_ext; auto.
Qed.

Lemma head_store_elem w p : drives p ≠ [] → ∃ d, d ∈ drives p ∧ head_store w p = drive_store obs (drive_key d) w.
Proof. unfold head_store. destruct (drives p) as [|d l]; [done|]. exists d. set_solver. Qed.

(** A write: every replica of the partition of [k] goes through [f]. *)
Lemma healthy_updated ds ds' k p f g :
  healthy ds → same_config ds ds' → cluster_map ds !! key_index ds k = Some p → on_key k g f →
  stores_updated f (map drive_key (drives p)) (world ds) (world ds') →
  healthy ds' ∧ cluster_contents ds' = (f (cluster_contents ds)).2.
Proof.
  intros Hh Hc Hp Hf Hu. pose proof Hc as [Em El Ec Es].
  assert (Hin : ∀ d, d ∈ drives p → drive_store obs (drive_key d) (world ds') = (f (drive_store obs (drive_key d) (world ds))).2).
  { intros d Hd. rewrite (su_store _ _ _ _ Hu), decide_True; [done|]. by apply list_elem_of_In, in_map, list_elem_of_In. }
  assert (Hout : ∀ i q d, cluster_map ds !! i = Some q → i ≠ key_index ds k → d ∈ drives q →
                   drive_store obs (drive_key d) (world ds') = drive_store obs (drive_key d) (world ds)).
  { intros i q d Hq Hi Hd. rewrite (su_store _ _ _ _ Hu), decide_False; [done|]. intros Hx.
    apply list_elem_of_In, in_map_iff in Hx as (e & He & Hx%list_elem_of_In).
    by apply (h_apart ds Hh _ _ p q e d Hp Hq). }
  assert (Hag : ∀ k' q d, cluster_map ds !! key_index ds k' = Some q → d ∈ drives q →
            drive_store obs (drive_key d) (world ds') !! k' = (f (cluster_contents ds)).2 !! k').
  { intros k' q d Hq Hd. destruct (decide (k' = k)) as [->|Hk].
    - assert (q = p) as -> by congruence. rewrite Hin by done. rewrite !(ok_effect _ _ _ Hf).
      by rewrite (contents_lookup ds k p d).
    - rewrite (ok_frame _ _ _ Hf _ _ Hk), (contents_lookup ds k' q d) by done.
      destruct (decide (key_index ds k' = key_index ds k)) as [E|E].
      + assert (q = p) as -> by congruence. rewrite Hin by done. by rewrite (ok_frame _ _ _ Hf _ _ Hk).
      + by erewrite Hout. }
  assert (Hh' : healthy ds').
  { pose proof (h_some ds Hh) as Hsome. destruct Hh. split; rewrite ?Em, ?Es, ?El; try done.
    - intros i q Hq. eapply Forall_impl; [exact (h_conn0 i q Hq)|]. intros d Hd. eapply connected_frame; eauto using stores_updated_ready.
    - intros k' q d. rewrite (same_config_index ds ds' k' Hc). intros Hq Hd.
      destruct (head_store_elem (world ds') q) as (e & He & ->); [by eauto|]. by rewrite (Hag k' q d), (Hag k' q e).
    - intros i q d k' Hq Hd Hk' Hs'. rewrite (same_config_index ds ds' k' Hc).
      destruct (decide (i = key_index ds k)) as [->|Hi]; [|by erewrite Hout in Hs' by done; eauto].
      destruct (decide (k' = k)) as [->|Hkk]; [done|]. assert (q = p) as -> by congruence.
      rewrite Hin, (ok_frame _ _ _ Hf) in Hs' by done. eauto.
    - intros i q l Hq Hl. destruct (h_log0 i q l Hq Hl) as (n & ld & ? & ? & ?). exists n, ld.
      eauto using connected_frame, stores_updated_ready. }
  split; [done|]. apply map_eq. intros k'. destruct (key_partition ds k' (h_map ds Hh)) as [q Hq].
  destruct (head_store_elem (world ds') q (h_some ds Hh _ q Hq)) as (e & He & _).
  rewrite <- (Hag k' q e) by done. apply contents_lookup with q; [done| |done]. by rewrite Em, (same_config_index ds ds').
Qed.

(** ** Reads on a healthy cluster *)

Lemma draw_hit f p pred ds i d :
  drives p ≠ [] → uniform_int (draws ds) (Z.of_nat (length (drives p)) - 1) = Z.of_nat i →
  drives p !! i = Some d → pred d = true →
  draw_until (S f) p pred ds = Ret i (with_draws (S (draws ds)) ds).
Proof.
  intros Hs Hu Hi Hd. cbn [draw_until]. rewrite bool_decide_false by done. msimpl. rewrite Hu.
  unfold as_index, drive_at. rewrite (proj2 (Z.ltb_ge (Z.of_nat i) 0)) by lia. rewrite Nat2Z.id. msimpl.
  rewrite Hi. msimpl. by rewrite Hd.
Qed.

Lemma draw_in_range p n : drives p ≠ [] →
  ∃ i d, uniform_int n (Z.of_nat (length (drives p)) - 1) = Z.of_nat i ∧ drives p !! i = Some d.
Proof.
  intros Hs. assert (0 < length (drives p))%nat by (destruct (drives p); [done|cbn; lia]).
  pose proof (uniform_range n (Z.of_nat (length (drives p)) - 1)) as Hr.
  destruct (lookup_lt_is_Some_2 (drives p) (Z.to_nat (uniform_int n (Z.of_nat (length (drives p)) - 1)))) as [d Hd]; [lia|].
  exists (Z.to_nat (uniform_int n (Z.of_nat (length (drives p)) - 1))), d. split; [lia|done].
Qed.

(** [op] reads [rd] from the store of a reachable drive. *)
Definition reads {A} (op : C → A → W → (StatusCode * A) * W) (rd : store → StatusCode * A) (out : A) : Prop :=
  ∀ c w, ready c w → (op c out w).1 = rd (drive_store obs (addr_of obs c) w) ∧ unchanged obs w (op c out w).2.

Lemma get_reads k : reads (λ c out w, deliver out (@con_Get _ (connection c) k w)) (λ s, (drive_Get k s).1) None.
Proof.
  intros c w Hr. destruct (con_Get _ _) as [[st r] w'] eqn:E. apply law_Get in E.
  apply request_ready in E as [E Hu]; [|done]. unfold deliver. cbn [fst snd]. split; [|done].
  rewrite <- E. by destruct r.
Qed.

Lemma getversion_reads k :
  reads (λ c out w, deliver out (@con_GetVersion _ (connection c) k w)) (λ s, (drive_GetVersion k s).1) None.
Proof.
  intros c w Hr. destruct (con_GetVersion _ _) as [[st r] w'] eqn:E. apply law_GetVersion in E.
  apply request_ready in E as [E Hu]; [|done]. unfold deliver. cbn [fst snd]. split; [|done].
  rewrite <- E. by destruct r.
Qed.

Lemma keyrange_reads s e n :
  reads (λ c (_ : list cstr), @con_GetKeyRange _ (connection c) s false e false false n)
    (λ st, (drive_GetKeyRange s false e false false n st).1) [].
Proof.
  intros c w Hr. destruct (con_GetKeyRange _ _ _ _ _ _ _) as [[st r] w'] eqn:E. apply law_GetKeyRange in E.
  by apply request_ready in E.
Qed.

Definition settled (st : StatusCode) : Prop := st = OK ∨ st = REMOTE_NOT_FOUND.

(** Reading on a drawn drive that is GREEN and reachable settles the operation. *)
Lemma readOperation_settles {A} f pr p (op : C → A → W → (StatusCode * A) * W) rd out ds i d n :
  at_ pr ds = Some p → draw_until f p is_green ds = Ret i (with_draws n ds) →
  drives p !! i = Some d → connected d ds → reads op rd out →
  settled (rd (drive_store obs (drive_key d) (world ds))).1 →
  ∃ w', unchanged obs (world ds) w' ∧
    readOperation (S f) pr op out ds =
      Ret (rd (drive_store obs (drive_key d) (world ds))) (with_world w' (with_draws n ds)).
Proof.
  intros Hp Hdraw Hi Hc Hop Hst.
  assert (Hc' : connected d (with_draws n ds)) by exact Hc.
  destruct (driveToConnection_connected p i d (with_draws n ds) Hi Hc') as (c & Hm & Ha & Hr & Hrun).
  destruct (Hop c (world ds) Hr) as [Hv Hu]. rewrite Ha in Hv.
  exists (op c out (world ds)).2. split; [done|].
  cbn [readOperation]. step_by (read_p_run pr p ds Hp). step_by Hdraw. step_by Hrun.
  unfold call. msimpl. cbn [world with_draws]. destruct (op c out (world ds)) as [[st x] w'].
  cbn [fst snd] in *. rewrite <- Hv in Hst. cbn [fst] in Hst. rewrite <- Hv. by destruct Hst as [-> | ->].
Qed.

Lemma readOperation_healthy {A} f pr p (op : C → A → W → (StatusCode * A) * W) rd out ds :
  at_ pr ds = Some p → drives p ≠ [] → Forall (λ d, kd_status d = GREEN) (drives p) →
  Forall (λ d, connected d ds) (drives p) → reads op rd out →
  (∀ d, d ∈ drives p → settled (rd (drive_store obs (drive_key d) (world ds))).1) →
  ∃ d w', d ∈ drives p ∧ unchanged obs (world ds) w' ∧
    readOperation (S (S f)) pr op out ds =
      Ret (rd (drive_store obs (drive_key d) (world ds))) (with_world w' (with_draws (S (draws ds)) ds)).
Proof.
  intros Hp Hs Hg Hc Hop Hst. destruct (draw_in_range p (draws ds) Hs) as (i & d & Hu & Hi).
  assert (Hd : d ∈ drives p) by eauto using list_elem_of_lookup_2. rewrite Forall_forall in Hg, Hc.
  assert (Hdraw : draw_until (S f) p is_green ds = Ret i (with_draws (S (draws ds)) ds)).
  { eapply draw_hit; eauto. unfold is_green. by rewrite Hg. }
  destruct (readOperation_settles (S f) pr p op rd out ds i d (S (draws ds))) as (w' & ? & ?); eauto.
Qed.

Lemma drive_Get_cell k s s' : s !! k = s' !! k → (drive_Get k s).1 = (drive_Get k s').1.
Proof. unfold drive_Get. intros ->. by destruct (s' !! k). Qed.

Lemma drive_GetVersion_cell k s s' : s !! k = s' !! k → (drive_GetVersion k s).1 = (drive_GetVersion k s').1.
Proof. unfold drive_GetVersion. intros ->. by destruct (s' !! k). Qed.

Lemma drive_Get_settled k s : settled (drive_Get k s).1.1.
Proof. unfold drive_Get, settled. destruct (s !! k); auto. Qed.

Lemma drive_GetVersion_settled k s : settled (drive_GetVersion k s).1.1.
Proof. unfold drive_GetVersion, settled. destruct (s !! k); auto. Qed.

(** A read of one key returns what the abstract store holds. *)
Lemma read_key_healthy {A} n k (op : C → A → W → (StatusCode * A) * W) rd out ds :
  healthy ds → reads op rd out → (∀ s, settled (rd s).1) → (∀ s s', s !! k = s' !! k → rd s = rd s') →
  ∃ ds', readOperation (S (S n)) (PMap (key_index ds k)) op out ds = Ret (rd (cluster_contents ds)) ds' ∧
    healthy ds' ∧ cluster_contents ds' = cluster_contents ds.
Proof.
  intros Hh Hop Hst Hk. destruct (key_partition ds k (h_map ds Hh)) as [p Hp].
  destruct (readOperation_healthy n (PMap (key_index ds k)) p op rd out ds) as (d & w' & Hd & Hu & Hrun);
    eauto using h_some, h_green, h_conn.
  rewrite (Hk _ (cluster_contents ds)) in Hrun by (symmetry; by eapply contents_lookup).
  eexists. split; [exact Hrun|]. by apply healthy_unchanged.
Qed.

(** ** The operations on a healthy cluster *)

(** The capacity estimate is the only other member a write changes. *)
Lemma healthy_capacity ds (a : Z) (b b' : Fl) :
  healthy ds → healthy (with_capacity a b b' ds) ∧ cluster_contents (with_capacity a b b' ds) = cluster_contents ds.
Proof. intros Hh. apply healthy_unchanged; [done|done|apply unchanged_refl]. Qed.

Lemma write_healthy n ds key op f g :
  healthy ds → performs op f → on_key key g f → (∀ o, settled (g o).1 ∨ (g o).1 = REMOTE_VERSION_MISMATCH) →
  ∃ ds', writeOperation (S (S n)) key op ds = Ret (f (cluster_contents ds)).1 ds' ∧
    healthy ds' ∧ cluster_contents ds' = (f (cluster_contents ds)).2.
Proof.
  intros Hh Hop Hf Hg. destruct (writeOperation_healthy n ds key op f g) as (p & w' & Hp & Hrun & Hw); auto.
  { intros o E. destruct (Hg o) as [[E'|E']|E']; congruence. }
  rewrite (ok_status _ _ _ Hf). eexists. split; [exact Hrun|]. by eapply (healthy_updated ds (with_world w' ds)).
Qed.

Lemma put_cell_status v m r o : (put_cell v m r o).1 = OK ∨ (put_cell v m r o).1 = REMOTE_VERSION_MISMATCH.
Proof. unfold put_cell. destruct (match m with IGNORE_VERSION => _ | _ => _ end); auto. Qed.

Lemma delete_cell_status v m o : settled (delete_cell v m o).1 ∨ (delete_cell v m o).1 = REMOTE_VERSION_MISMATCH.
Proof. unfold delete_cell, settled. destruct o; [|auto]. destruct (match m with IGNORE_VERSION => _ | _ => _ end); auto. Qed.

Lemma dist_Put_healthy n k v m r ds : healthy ds →
  ∃ ds', dist_Put (S (S n)) k v m r ds = Ret (drive_Put k v m r (cluster_contents ds)).1 ds' ∧
    healthy ds' ∧ cluster_contents ds' = (drive_Put k v m r (cluster_contents ds)).2.
Proof.
  intros Hh.
  destruct (write_healthy n ds k _ _ _ Hh (put_performs k v m r) (put_on_key k v m r)) as (ds' & Hrun & Hh' & Hc).
  { intros o. destruct (put_cell_status v m r o); unfold settled; auto. }
  assert (Hne : (drive_Put k v m r (cluster_contents ds)).1 ≠ REMOTE_OTHER_ERROR).
  { rewrite (ok_status _ _ _ (put_on_key k v m r)). destruct (put_cell_status v m r (cluster_contents ds !! k)); congruence. }
  rewrite <- Hc. unfold dist_Put. step_by Hrun. rewrite bool_decide_false by done. rewrite mbind_ret_l.
  destruct (_ && _); [|by exists ds'].
  eexists. split; [reflexivity|]. by apply healthy_capacity.
Qed.

Lemma dist_Delete_healthy n k v m ds : healthy ds →
  ∃ ds', dist_Delete (S (S n)) k v m ds = Ret (drive_Delete k v m (cluster_contents ds)).1 ds' ∧
    healthy ds' ∧ cluster_contents ds' = (drive_Delete k v m (cluster_contents ds)).2.
Proof.
  intros Hh.
  destruct (write_healthy n ds k _ _ _ Hh (delete_performs k v m) (delete_on_key k v m) (delete_cell_status v m))
    as (ds' & Hrun & Hh' & Hc).
  assert (Hne : (drive_Delete k v m (cluster_contents ds)).1 ≠ REMOTE_OTHER_ERROR).
  { rewrite (ok_status _ _ _ (delete_on_key k v m)).
    destruct (delete_cell_status v m (cluster_contents ds !! k)) as [[E|E]|E]; congruence. }
  rewrite <- Hc. unfold dist_Delete. step_by Hrun. rewrite bool_decide_false by done. rewrite mbind_ret_l.
  destruct (is_ok _); [|by exists ds'].
  eexists. split; [reflexivity|]. by apply healthy_capacity.
Qed.

Lemma dist_Get_healthy n k ds : healthy ds →
  ∃ ds', dist_Get (S (S n)) k ds = Ret (drive_Get k (cluster_contents ds)).1 ds' ∧
    healthy ds' ∧ cluster_contents ds' = cluster_contents ds.
Proof.
  intros Hh. unfold dist_Get. step_by (keyToPartition_run k ds (h_map ds Hh) (h_cs ds Hh)).
  apply (read_key_healthy n k _ (λ s, (drive_Get k s).1));
    auto using get_reads, drive_Get_settled, drive_Get_cell.
Qed.

Lemma dist_GetVersion_healthy n k ds : healthy ds →
  ∃ ds', dist_GetVersion (S (S n)) k ds = Ret (drive_GetVersion k (cluster_contents ds)).1 ds' ∧
    healthy ds' ∧ cluster_contents ds' = cluster_contents ds.
Proof.
  intros Hh. unfold dist_GetVersion. step_by (keyToPartition_run k ds (h_map ds Hh) (h_cs ds Hh)).
  apply (read_key_healthy n k _ (λ s, (drive_GetVersion k s).1));
    auto using getversion_reads, drive_GetVersion_settled, drive_GetVersion_cell.
Qed.

(** C2: On a healthy cluster the replicated, partitioned namespace is one store:
    Get, GetVersion, Put and Delete return, report what a single drive holding the
    abstract store would report, and leave a healthy cluster whose abstract store
    is that drive's store afterwards. *)
Theorem distributed_refines_store n ds : healthy ds →
  (∀ k, ∃ ds', dist_Get (S (S n)) k ds = Ret (drive_Get k (cluster_contents ds)).1 ds' ∧
     healthy ds' ∧ cluster_contents ds' = cluster_contents ds) ∧
  (∀ k, ∃ ds', dist_GetVersion (S (S n)) k ds = Ret (drive_GetVersion k (cluster_contents ds)).1 ds' ∧
     healthy ds' ∧ cluster_contents ds' = cluster_contents ds) ∧
  (∀ k v m r, ∃ ds', dist_Put (S (S n)) k v m r ds = Ret (drive_Put k v m r (cluster_contents ds)).1 ds' ∧
     healthy ds' ∧ cluster_contents ds' = (drive_Put k v m r (cluster_contents ds)).2) ∧
  (∀ k v m, ∃ ds', dist_Delete (S (S n)) k v m ds = Ret (drive_Delete k v m (cluster_contents ds)).1 ds' ∧
     healthy ds' ∧ cluster_contents ds' = (drive_Delete k v m (cluster_contents ds)).2).
Proof. eauto 10 using dist_Get_healthy, dist_GetVersion_healthy, dist_Put_healthy, dist_Delete_healthy. Qed.
End Facts.

(** ** A healthy cluster *)
#[local] Existing Instance cl_kinetic.
#[local] Existing Instance cl_spec.
#[local] Existing Instance demo_partition.
#[local] Existing Instance demo_dist.
#[local] Existing Instance demo_dist_spec.

Definition demo_state : DistributedKineticNamespace cluster conn Z := Eval vm_compute in demo_dkn.

Lemma demo_stores_empty a : drive_store obs a (world demo_state) = ∅.
Proof.
  change (dr_store (cl_drive a (world demo_state)) = ∅). unfold cl_drive.
  destruct (cl_drives (world demo_state) !! a) as [d|] eqn:E; [|done]. cbn.
  assert (Hall : map_Forall (λ _ d, dr_store d = ∅) (cl_drives (world demo_state))); [|exact (Hall a d E)].
  apply (bool_decide_unpack _). vm_compute. exact I.
Qed.

Lemma demo_head_empty p : head_store (world demo_state) p = ∅.
Proof. unfold head_store. destruct (drives p); [done|apply demo_stores_empty]. Qed.

Lemma demo_healthy : healthy demo_state.
Proof.
  split; try done.
  - intros [|[|i]] p [= <-]; done.
  - intros [|[|i]] p [= <-]; apply (bool_decide_unpack _); vm_compute; exact I.
  - intros [|[|i]] p [= <-]; by repeat constructor.
  - intros [|[|i]] p [= <-]; repeat constructor; unfold connected.
    + exists (0%nat, demo_addr "a0"). by repeat split.
    + exists (1%nat, demo_addr "a1"). by repeat split.
    + exists (3%nat, demo_addr "b0"). by repeat split.
    + exists (4%nat, demo_addr "b1"). by repeat split.
  - intros k p d _ _. by rewrite demo_stores_empty, demo_head_empty.
  - intros i j p q d e Hp Hq Hij Hd He Hk. 
    destruct i as [|[|i]]; [| |done]; destruct j as [|[|j]]; try done; cbn in Hp, Hq; simplify_eq;
      set_solver.
  - intros i p d k _ _ _. rewrite demo_stores_empty. by intros [? ?].
  - by repeat constructor.
  - intros [|[|i]] p l [= <-] [= <-].
    + exists O, (demo_kd GREEN "l0"). split; [done|]. split; [done|]. exists (2%nat, demo_addr "l0"). by repeat split.
    + exists 1%nat, (demo_kd GREEN "l1"). split; [done|]. split; [done|]. exists (5%nat, demo_addr "l1"). by repeat split.
Qed.

Lemma distributed_refines_store_witness :
  ∃ ds', dist_Put 2 (lit "/f") [] REQUIRE_SAME_VERSION (mk_KineticRecord (lit "x") (lit "1")) demo_state =
    Ret (drive_Put (lit "/f") [] REQUIRE_SAME_VERSION (mk_KineticRecord (lit "x") (lit "1")) (cluster_contents demo_state)).1 ds' ∧
    healthy ds' ∧ cluster_contents ds' =
      (drive_Put (lit "/f") [] REQUIRE_SAME_VERSION (mk_KineticRecord (lit "x") (lit "1")) (cluster_contents demo_state)).2.
Proof. apply (distributed_refines_store 0 demo_state demo_healthy). Defined.
