(* ===== verification/DistributedRange.v ===== *)
(** * Listing a directory over several partitions

    The entries of a directory are spread over [direntry_clustersize] consecutive
    partitions; [GetKeyRange] visits them and merges the answers. On a healthy
    cluster the result is that of one drive holding everything. *)
From S2P Require Import Prelude CppString Proto Kinetic KeyOrder Demo Drives Distributed DemoCluster DistributedFacts.

Section Range.
Context {W C Fl : Type} `{DistEnv W C Fl} `{!DrivesSpec W C} `{!DistEnvSpec W C Fl}.
Abbreviation DKN := (DistributedKineticNamespace W C Fl).
Implicit Types (ds : DKN) (p : Partition) (w : W).

(** The partition a number stands for, counted round. *)
Definition part_at (ds : DKN) (h : Z) : nat := Z.to_nat (h mod Z.of_nat (length (cluster_map ds))).
Definition store_at (ds : DKN) (i : nat) : store :=
  match cluster_map ds !! i with Some p => head_store (world ds) p | None => ∅ end.

(** Partitions carry their index, as the configuration assigns it. *)
Definition numbered (ds : DKN) : Prop :=
  ∀ i p, cluster_map ds !! i = Some p → partitionID p = Some (Z.of_nat i).

Lemma replica_range ds s e i p d :
  healthy ds → cluster_map ds !! i = Some p → d ∈ drives p →
  (∀ k, key_between s false e false k = true → has_dir k = true) →
  range_keys s e (drive_store obs (drive_key d) (world ds)) ≡ₚ range_keys s e (store_at ds i).
Proof.
  intros Hh Hp Hd Hdir. apply NoDup_Permutation; [apply NoDup_range_keys..|]. intros k.
  rewrite !elem_of_range_keys. unfold store_at. rewrite Hp.
  destruct (head_store_elem (world ds) p (h_some ds Hh i p Hp)) as (d0 & Hd0 & Eh).
  assert (Hone : ∀ x y, x ∈ drives p → y ∈ drives p → key_between s false e false k = true →
    is_Some (drive_store obs (drive_key x) (world ds) !! k) → is_Some (drive_store obs (drive_key y) (world ds) !! k)).
  { intros x y Hx Hy Hk Hs. pose proof (h_placed ds Hh i p x k Hp Hx (Hdir k Hk) Hs) as Hi. subst i.
    rewrite (h_agree ds Hh k p y Hp Hy), <- (h_agree ds Hh k p x Hp Hx). done. }
  rewrite Eh. naive_solver.
Qed.

Lemma part_at_bound ds h : cluster_map ds ≠ [] → (part_at ds h < length (cluster_map ds))%nat.
Proof.
  intros Hm. unfold part_at. assert (0 < length (cluster_map ds))%nat by (destruct (cluster_map ds); [done|cbn; lia]).
  pose proof (Z.mod_pos_bound h (Z.of_nat (length (cluster_map ds)))). lia.
Qed.

Lemma part_at_next ds h p :
  numbered ds → cluster_map ds !! part_at ds h = Some p → Z.of_nat (length (cluster_map ds)) < u64_mod →
  Z.to_nat (wrap64 (partitionid p + 1) mod Z.of_nat (length (cluster_map ds))) = part_at ds (h + 1).
Proof.
  intros Hn Hp Hl. unfold partitionid. rewrite (Hn _ _ Hp). cbn [default]. apply lookup_lt_Some in Hp.
  unfold part_at in *. set (n := Z.of_nat (length (cluster_map ds))) in *.
  assert (0 < n) by lia. pose proof (Z.mod_pos_bound h n). rewrite Z2Nat.id by lia.
  unfold wrap64. rewrite (Z.mod_small (h mod n + 1)) by lia. by rewrite Zplus_mod_idemp_l.
Qed.

Lemma store_at_unchanged ds ds' i :
  same_config ds ds' → unchanged obs (world ds) (world ds') → store_at ds' i = store_at ds i.
Proof.
  intros Hc Hu. unfold store_at. rewrite (sc_map _ _ Hc). destruct (cluster_map ds !! i) as [x|]; [|done].
  unfold head_store. destruct (drives x); [done|]. apply Hu.
Qed.

(** One round per partition, each answered by one of its replicas. *)
Lemma GetKeyRange_loop_run f s e n m : ∀ ds h keys p,
  healthy ds → numbered ds → Z.of_nat (length (cluster_map ds)) < u64_mod →
  (∀ k, key_between s false e false k = true → has_dir k = true) →
  cluster_map ds !! part_at ds h = Some p → local_partition ds = p →
  ∃ ds', GetKeyRange_loop (S (S f)) s e n m keys ds =
    Ret (OK, keys ++ concat (map (λ j, take (Z.to_nat n) (foldr insert_key [] (range_keys s e (store_at ds (part_at ds (h + Z.of_nat j))))))
                              (seq 0 m))) ds' ∧
    same_config ds ds' ∧ unchanged obs (world ds) (world ds').
Proof.
  induction m as [|m IH]; intros ds h keys p Hh Hn Hl Hdir Hp Hloc; cbn [GetKeyRange_loop].
  { exists ds. rewrite app_nil_r. split; [done|]. split; [done|apply unchanged_refl]. }
  destruct (readOperation_healthy f PLocal p _ _ [] ds ltac:(by cbn; rewrite Hloc)
    (h_some ds Hh _ p Hp) (h_green ds Hh _ p Hp) (h_conn ds Hh _ p Hp) (keyrange_reads s e n) ltac:(intros; by left))
    as (d & w' & Hd & Hu & Hrun).
  step_by Hrun. rewrite drive_GetKeyRange_run. cbn [fst snd is_ok negb].
  set (ds1 := with_world w' (with_draws (S (draws ds)) ds)) in *.
  assert (Hc : same_config ds ds1) by done.
  destruct (healthy_unchanged ds ds1 Hh Hc Hu) as [Hh1 _].
  destruct (lookup_lt_is_Some_2 (cluster_map ds) (part_at ds (h + 1)) (part_at_bound ds (h + 1) (h_map ds Hh))) as [q Hq].
  unfold gets_. msimpl. change (cluster_map ds1) with (cluster_map ds). change (local_partition ds1) with (local_partition ds).
  rewrite bool_decide_false by apply (h_map ds Hh). rewrite Hloc, (part_at_next ds h p) by done. rewrite Hq.
  set (ds2 := with_local_partition q ds1) in *.
  destruct (healthy_unchanged ds1 ds2 Hh1 ltac:(done) (unchanged_refl _)) as [Hh2 _].
  destruct (IH ds2 (h + 1) (keys ++ take (Z.to_nat n) (foldr insert_key [] (range_keys s e (drive_store obs (drive_key d) (world ds))))) q)
    as (ds' & Hrun' & Hc' & Hu'); [exact Hh2|exact Hn|exact Hl|exact Hdir|exact Hq|reflexivity|].
  exists ds'. split; [|split; [|by eapply unchanged_trans; [exact Hu|]]].
  2: { destruct Hc'. by split. }
  rewrite Hrun'. f_equal. f_equal. rewrite <- app_assoc. f_equal. cbn [seq map concat]. f_equal.
  - rewrite (sort_ext _ _ (replica_range ds s e _ p d Hh Hp Hd Hdir)). by rewrite Z.add_0_r.
  - rewrite <- seq_shift, map_map. f_equal. apply map_ext. intros j.
    replace (h + 1 + Z.of_nat j) with (h + Z.of_nat (S j)) by lia.
    change (part_at ds2) with (part_at ds). by rewrite (store_at_unchanged ds ds2 _ ltac:(done) Hu).
Qed.

(** ** Keys of one directory *)
Definition dir_key (ino x : cstr) : cstr := ino ++ lit "|" ++ x.

Lemma dir_key_find ino x : free_of (lit "|") ino → find_first_of (lit "|") (dir_key ino x) 0 = size_ ino.
Proof. intros Hf. unfold dir_key. cbn [lit app]. by apply find_first_of_hit. Qed.

Lemma dir_key_part ino x : free_of (lit "|") ino → dir_part (dir_key ino x) = ino.
Proof.
  intros Hf. unfold dir_part. rewrite dir_key_find by done. unfold substr, dir_key.
  rewrite !size_app. change (size_ (lit "|")) with 1.
  pose proof (size_nonneg ino). pose proof (size_nonneg x).
  rewrite (proj2 (Z.leb_gt _ _)) by lia. rewrite drop_0, Z.min_l by lia. apply take_size.
Qed.

Lemma dir_key_has_dir ino x : free_of (lit "|") ino → size_ ino < npos → has_dir (dir_key ino x) = true.
Proof. intros Hf Hs. unfold has_dir. rewrite dir_key_find by done. by rewrite (proj2 (Z.eqb_neq _ _)) by lia. Qed.

Lemma dir_key_start_hash cs ino : free_of (lit "|") ino → size_ ino < npos →
  key_hash cs (dir_key ino []) = std_hash ino.
Proof.
  intros Hf Hs. unfold key_hash, is_direntry. rewrite dir_key_find, dir_key_part by done. unfold dir_key.
  rewrite !size_app. change (size_ (lit "|")) with 1. change (size_ []) with 0.
  replace (size_ ino + (1 + 0) - 1) with (size_ ino) by lia.
  rewrite (wrap64_id (size_ ino)) by (pose proof (size_nonneg ino); unfold npos in Hs; lia).
  by rewrite Z.eqb_refl, andb_false_r.
Qed.

(** Entries land on one of [cs] consecutive places, unless the sum wraps. *)
Lemma dir_key_hash cs ino x : free_of (lit "|") ino → 0 < cs < u64_mod → std_hash ino + cs <= u64_mod →
  ∃ j, 0 <= j < cs ∧ key_hash cs (dir_key ino x) = std_hash ino + j.
Proof.
  intros Hf Hc Hw. unfold key_hash. rewrite dir_key_part by done. destruct (is_direntry _).
  - exists (std_hash (dir_key ino x) mod cs). pose proof (Z.mod_pos_bound (std_hash (dir_key ino x)) cs).
    split; [lia|]. rewrite (wrap64_id cs) by lia. apply wrap64_id. pose proof (std_hash_range ino). lia.
  - exists 0. lia.
Qed.

Lemma dir_range ino c k :
  key_between (dir_key ino []) false (dir_key ino [c]) false k = true → ∃ x, k = dir_key ino x.
Proof.
  unfold key_between. cbn [andb]. rewrite !orb_false_r, andb_true_iff. intros [H1 H2].
  unfold dir_key in *. rewrite app_nil_r in H1. rewrite (app_assoc ino (lit "|") [c]) in H2.
  destruct (between_extends _ _ _ H1 H2) as (x & -> & _). exists x. by rewrite app_assoc.
Qed.

Lemma elem_of_concat_map {A B} (f : A → list B) l y : y ∈ concat (map f l) ↔ ∃ x, x ∈ l ∧ y ∈ f x.
Proof.
  induction l as [|a l IH]; cbn; [set_solver|]. rewrite elem_of_app, IH. set_solver.
Qed.

Lemma NoDup_concat_map {A B} (f : A → list B) l :
  NoDup l → (∀ x, x ∈ l → NoDup (f x)) → (∀ x x' y, x ∈ l → x' ∈ l → y ∈ f x → y ∈ f x' → x = x') →
  NoDup (concat (map f l)).
Proof.
  induction 1 as [|a l Ha Hl IH]; intros Hf Hd; cbn; [constructor|].
  apply NoDup_app. split; [apply Hf; set_solver|]. split; [|apply IH; set_solver].
  intros y Hy Hy'. apply elem_of_concat_map in Hy' as (x & Hx & Hy'). apply Ha.
  by rewrite (Hd a x y) by set_solver.
Qed.

Lemma mod_near n a b : 0 < n → Z.abs (a - b) < n → a mod n = b mod n → a = b.
Proof.
  intros Hn Hab E. pose proof (Z.div_mod a n). pose proof (Z.div_mod b n).
  destruct (Z.lt_trichotomy (a / n) (b / n)) as [?|[Eq|?]]; [nia| |nia]. rewrite Eq, E in *. lia.
Qed.

(** The partitions visited hold the entries of the directory, each once. *)
Lemma dir_entries_partitioned ds ino c :
  healthy ds → free_of (lit "|") ino → size_ ino < npos →
  0 < direntry_clustersize ds <= Z.of_nat (length (cluster_map ds)) →
  direntry_clustersize ds < u64_mod → std_hash ino + direntry_clustersize ds <= u64_mod →
  concat (map (λ j, range_keys (dir_key ino []) (dir_key ino [c]) (store_at ds (part_at ds (std_hash ino + Z.of_nat j))))
           (seq 0 (Z.to_nat (direntry_clustersize ds)))) ≡ₚ
  range_keys (dir_key ino []) (dir_key ino [c]) (cluster_contents ds).
Proof.
  intros Hh Hf Hs Hcs Hcw Hw. set (cs := direntry_clustersize ds) in *.
  assert (Hin : ∀ i k, k ∈ range_keys (dir_key ino []) (dir_key ino [c]) (store_at ds i) → key_index ds k = i ∧
                  is_Some (cluster_contents ds !! k)).
  { intros i k Hk. apply elem_of_range_keys in Hk as [Hb Hk]. destruct (dir_range _ _ _ Hb) as [x ->].
    unfold store_at in Hk. destruct (cluster_map ds !! i) as [p|] eqn:Hp; [|by destruct Hk].
    destruct (head_store_elem (world ds) p (h_some ds Hh i p Hp)) as (d & Hd & E). rewrite E in Hk.
    pose proof (h_placed ds Hh i p d _ Hp Hd (dir_key_has_dir ino x Hf Hs) Hk) as Hi. split; [done|].
    subst i. by rewrite (contents_lookup ds _ p d). }
  apply NoDup_Permutation; [|apply NoDup_range_keys|].
  - apply NoDup_concat_map; [apply NoDup_seq|intros; apply NoDup_range_keys|].
    intros j j' k Hj Hj' Hk Hk'. apply elem_of_seq in Hj, Hj'.
    apply Hin in Hk as [E _], Hk' as [E' _]. rewrite E in E'. unfold part_at in E'.
    set (n := Z.of_nat (length (cluster_map ds))) in *.
    pose proof (Z.mod_pos_bound (std_hash ino + Z.of_nat j) n). pose proof (Z.mod_pos_bound (std_hash ino + Z.of_nat j') n).
    apply Z2Nat.inj, mod_near in E'; lia.
  - intros k. rewrite elem_of_concat_map. split.
    + intros (j & _ & Hk). pose proof (Hin _ _ Hk) as [_ Hs']. apply elem_of_range_keys in Hk as [Hb _].
      by apply elem_of_range_keys.
    + intros Hk. apply elem_of_range_keys in Hk as [Hb Hk]. destruct (dir_range _ _ _ Hb) as [x ->].
      destruct (dir_key_hash cs ino x Hf ltac:(lia) Hw) as (j & Hj & E).
      exists (Z.to_nat j). split; [apply elem_of_seq; lia|]. apply elem_of_range_keys. split; [done|].
      rewrite Z2Nat.id, <- E by lia. change (part_at ds (key_hash cs (dir_key ino x))) with (key_index ds (dir_key ino x)).
      destruct (key_partition ds (dir_key ino x) (h_map ds Hh)) as [p Hp]. unfold store_at. rewrite Hp.
      destruct (head_store_elem (world ds) p (h_some ds Hh _ p Hp)) as (d & Hd & ->).
      by rewrite <- (contents_lookup ds _ p d).
Qed.

Lemma resize_take (n : Z) (l : list cstr) : 0 <= n →
  (if n <? Z.of_nat (length l) then take (Z.to_nat n) l else l) = take (Z.to_nat n) l.
Proof. intros Hn. destruct (Z.ltb_spec n (Z.of_nat (length l))); [done|]. by rewrite take_ge by lia. Qed.

(** C31: listing a directory. On a healthy cluster with no more directory
    partitions than partitions, [GetKeyRange] over the entries of a directory
    returns exactly what one drive holding the whole store would return: the first
    [max] entries in order, none missing and none twice, although they are spread
    over several partitions; provided the hash of the directory is not within
    [direntry_clustersize] of 2^64. *)
Theorem GetKeyRange_lists_directory f ds ino c n :
  healthy ds → numbered ds → free_of (lit "|") ino → size_ ino < npos → 0 <= n →
  0 < direntry_clustersize ds <= Z.of_nat (length (cluster_map ds)) →
  Z.of_nat (length (cluster_map ds)) < u64_mod → std_hash ino + direntry_clustersize ds <= u64_mod →
  ∃ ds', dist_GetKeyRange (S (S f)) (dir_key ino []) (dir_key ino [c]) n ds =
      Ret (drive_GetKeyRange (dir_key ino []) false (dir_key ino [c]) false false n (cluster_contents ds)).1 ds' ∧
    healthy ds' ∧ cluster_contents ds' = cluster_contents ds.
Proof.
  intros Hh Hnum Hf Hs Hn Hcs Hl Hw.
  destruct (key_partition ds (dir_key ino []) (h_map ds Hh)) as [p Hp].
  unfold dist_GetKeyRange. step_by (keyToPartition_run (dir_key ino []) ds (h_map ds Hh) (h_cs ds Hh)).
  step_by (read_p_run (PMap (key_index ds (dir_key ino []))) p ds Hp).
  unfold modify_, gets_. rewrite !mbind_lam. set (ds1 := with_local_partition p ds).
  destruct (healthy_unchanged ds ds1 Hh ltac:(done) (unchanged_refl _)) as [Hh1 _].
  assert (Hi : key_index ds (dir_key ino []) = part_at ds (std_hash ino)).
  { unfold key_index. by rewrite dir_key_start_hash. }
  destruct (GetKeyRange_loop_run f (dir_key ino []) (dir_key ino [c]) n (Z.to_nat (direntry_clustersize ds)) ds1 (std_hash ino) [] p)
    as (ds' & Hrun & Hc & Hu); [exact Hh1|exact Hnum|exact Hl| |by rewrite Hi in Hp|done|].
  { intros k Hk. destruct (dir_range _ _ _ Hk) as [x ->]. by apply dir_key_has_dir. }
  change (direntry_clustersize ds1) with (direntry_clustersize ds). step_by Hrun. cbn [fst snd is_ok negb app].
  exists ds'. split; [|by apply (healthy_unchanged ds ds'); [|destruct Hc|]].
  unfold mret_. f_equal. rewrite drive_GetKeyRange_run. cbn [fst]. f_equal.
  rewrite resize_take by done. unfold sort_keys.
  rewrite <- (sort_ext _ _ (dir_entries_partitioned ds ino c Hh Hf Hs Hcs ltac:(lia) Hw)).
  symmetry. rewrite <- take_sort_parts, map_map. done.
Qed.
End Range.

(** ** Concrete listings *)
#[local] Existing Instance cl_kinetic.
#[local] Existing Instance cl_spec.
#[local] Existing Instance demo_partition.
#[local] Existing Instance demo_dist.
#[local] Existing Instance demo_dist_spec.

Definition entry (name : string) : cstr := dir_key (lit "7") (lit name).
Definition add_entry (name : string) (ds : DistributedKineticNamespace cluster conn Z) :=
  state_after (dist_Put 2 (entry name) [] REQUIRE_SAME_VERSION (mk_KineticRecord [] (lit "1")) ds) ds.

(** Directory 7 with four entries, spread over both partitions. *)
Definition demo_listed : DistributedKineticNamespace cluster conn Z :=
  add_entry "d" (add_entry "c" (add_entry "b" (add_entry "a" demo_state))).

Lemma add_entry_healthy name ds : healthy ds → healthy (add_entry name ds).
Proof.
  intros Hh. destruct (dist_Put_healthy 0 (entry name) [] REQUIRE_SAME_VERSION (mk_KineticRecord [] (lit "1")) ds Hh)
    as (ds' & Hrun & Hh' & _). unfold add_entry. by rewrite Hrun.
Qed.

Lemma demo_listed_healthy : healthy demo_listed.
Proof. do 4 apply add_entry_healthy. apply demo_healthy. Qed.

Lemma GetKeyRange_lists_directory_witness :
  (∃ ds', dist_GetKeyRange 2 (dir_key (lit "7") []) (dir_key (lit "7") ["255"%char]) 3 demo_listed =
    Ret (OK, [entry "a"; entry "b"; entry "c"]) ds') ∧
  map (λ x, key_index demo_listed (entry x)) ["a"; "b"; "c"; "d"]%string = [1; 0; 1; 0]%nat.
Proof.
  split; [|vm_compute; reflexivity].
  destruct (GetKeyRange_lists_directory 0 demo_listed (lit "7") "255"%char 3) as (ds' & Hrun & _ & _).
  - apply demo_listed_healthy.
  - intros [|[|i]] p; vm_compute; [intros [= <-]; reflexivity..|discriminate].
  - by repeat constructor.
  - reflexivity.
  - lia.
  - vm_compute. split; [reflexivity|discriminate].
  - reflexivity.
  - vm_compute. discriminate.
  - exists ds'. rewrite Hrun. f_equal.
Defined.

(** Three partitions of one drive each; the entries of a directory are spread
    over two of them. *)
Definition demo3_init : DistributedKineticNamespace cluster conn Z :=
  DKN_init (mk_cluster (list_to_map (map (λ h, (demo_addr h, fresh_drive)) ["a0"; "b0"; "c0"]%string)) ∅ 0 0)
    [ mk_Partition 0 (Some 0) [demo_kd GREEN "a0"] None; mk_Partition 0 (Some 1) [demo_kd GREEN "b0"] None;
      mk_Partition 0 (Some 2) [demo_kd GREEN "c0"] None ] (mk_Partition 0 None [] None) 2.

Definition demo3 : DistributedKineticNamespace cluster conn Z :=
  add_entry "d" (add_entry "c" (add_entry "b" (add_entry "a" (state_after (DKN_construct 9 demo3_init) demo3_init)))).

Definition listed (o : outcome (DistributedKineticNamespace cluster conn Z) (StatusCode * list cstr)) : option (list cstr) :=
  snd <$> result_of o.

(** A listing that is continued after its last key misses entries: the partitions
    to visit are computed from the start key, and for the key of an entry they
    begin one partition too far. Here all four entries are listed from the start,
    and the continuation after entry [b] finds only [d]. *)
Example listing_continuation_misses :
  let all := listed (dist_GetKeyRange 2 (dir_key (lit "7") []) (dir_key (lit "7") ["255"%char]) 9 demo3) in
  let rest := listed (dist_GetKeyRange 2 (entry "b") (dir_key (lit "7") ["255"%char]) 9 demo3) in
  all = Some [entry "a"; entry "b"; entry "c"; entry "d"] ∧ rest = Some [entry "d"].
Proof. vm_compute. by split. Qed.
