(* ===== verification/DistributedFailover.v ===== *)
(** * Failures in the distributed namespace

    Writes are acknowledged by every drive that is in service; reads end as long
    as a GREEN drive is left, and never end otherwise; a drive that fails is taken
    out of service and the operation still succeeds; read repair makes the
    replicas of a key equal. *)
From S2P Require Import Prelude CppString Proto Kinetic Demo Drives Distributed DemoCluster DistributedFacts.

Section Failover.
Context {W C Fl : Type} `{DistEnv W C Fl}.
Abbreviation DKN := (DistributedKineticNamespace W C Fl).
Implicit Types (ds : DKN) (p : Partition) (w : W).

(** ** Acknowledged writes *)

Lemma all_equal_sound p results g n : ∀ i acc ds b ds',
  all_equal p results g i n acc ds = Ret b ds' → b = true →
  ds' = ds ∧ acc = true ∧
  ∀ j d, (i <= j < i + n)%nat → drives p !! j = Some d → is_red d = false →
    results !! j = results !! g ∧ is_Some (results !! j).
Proof.
  induction n as [|n IH]; intros i acc ds b ds' E Hb; cbn [all_equal] in E.
  { unfold mret_ in E. simplify_eq. split; [done|]. split; [done|]. intros; lia. }
  apply mbind_Ret_inv in E as (d & s1 & Hd & E). unfold drive_at in Hd.
  destruct (drives p !! i) as [d0|] eqn:Hi; [|done]. unfold mret_ in Hd. simplify_eq.
  assert (Hstep : ∀ acc', all_equal p results g (S i) n acc' s1 = Ret true ds' → 
    (is_red d = false → results !! i = results !! g ∧ is_Some (results !! i)) → ds' = s1 ∧ acc' = true ∧
    ∀ j d, (i <= j < i + S n)%nat → drives p !! j = Some d → is_red d = false →
      results !! j = results !! g ∧ is_Some (results !! j)).
  { intros acc' E' Hhere. destruct (IH _ _ _ _ _ E' eq_refl) as (-> & -> & Hall). split; [done|]. split; [done|]. intros j e Hj He Hr.
    destruct (decide (j = i)) as [->|]; [|apply (Hall j e); [lia|done..]].
    apply Hhere. congruence. }
  destruct (is_red d); [by apply Hstep|].
  unfold result_at in E. destruct (results !! i) as [ri|] eqn:Eri; [|done]. rewrite mbind_ret_l in E.
  destruct (results !! g) as [rg|] eqn:Erg; [|done]. rewrite mbind_ret_l in E.
  case_bool_decide; [subst; apply Hstep; eauto|]. by destruct (IH _ _ _ _ _ E eq_refl) as (_ & ? & _).
Qed.

Lemma first_error_sound p results n : ∀ i ds e ds',
  first_error p results i n ds = Ret e ds' →
  ds' = ds ∧ ∀ j, e = Some j → ∃ st, results !! j = Some st ∧ tolerated st = false.
Proof.
  induction n as [|n IH]; intros i ds e ds' E; cbn [first_error] in E.
  { unfold mret_ in E. by simplify_eq. }
  apply mbind_Ret_inv in E as (d & s1 & Hd & E). unfold drive_at in Hd.
  destruct (drives p !! i) as [d0|] eqn:Hi; [|done]. unfold mret_ in Hd. simplify_eq.
  destruct (is_red d); [by eapply IH|]. unfold result_at in E.
  destruct (results !! i) as [ri|] eqn:Eri; [|done]. rewrite mbind_ret_l in E.
  destruct (tolerated ri) eqn:Et; [by eapply IH|]. unfold mret_ in E. simplify_eq. split; [done|].
  intros j [= <-]. eauto.
Qed.

Lemma first_green_lookup l g : first_green l = Some g → ∃ d, l !! g = Some d ∧ kd_status d = GREEN.
Proof.
  revert g. induction l as [|d l IH]; intros g E; [done|]. cbn in E. destruct (is_green d) eqn:Hg.
  - injection E as <-. exists d. split; [done|]. by apply bool_decide_eq_true in Hg.
  - destruct (first_green l) as [g'|]; [|done]. injection E as <-. by apply IH.
Qed.

(** A write is acknowledged only if every drive in service performed it.
    When [evaluateWriteOperation] returns OK, after however many drives it has
    failed on the way, every drive of the partition that is not RED then, GREEN
    or YELLOW, has reported OK, and there is a GREEN one. *)
Theorem evaluateWriteOperation_acknowledges fuel pr results ds ds' :
  evaluateWriteOperation fuel pr results ds = Ret OK ds' →
  ∃ p, at_ pr ds' = Some p ∧ (∃ d, d ∈ drives p ∧ kd_status d = GREEN) ∧
    ∀ j d, drives p !! j = Some d → kd_status d ≠ RED → results !! j = Some OK.
Proof.
  revert ds. induction fuel as [|f IH]; intros ds E; [done|]. cbn [evaluateWriteOperation] in E.
  apply mbind_Ret_inv in E as (p & s1 & Hp & E). unfold read_p in Hp. destruct (at_ pr ds) as [x|] eqn:Hx; [|done].
  injection Hp as -> ->. destruct (first_green (drives p)) as [g|] eqn:Hg; [|done].
  apply mbind_Ret_inv in E as (b & s2 & Hb & E). destruct b.
  - destruct (all_equal_sound _ _ _ _ _ _ _ _ _ Hb eq_refl) as (-> & _ & Hall).
    destruct (first_green_lookup _ _ Hg) as (d0 & Hd0 & Hgr). unfold result_at in E.
    destruct (results !! g) as [st|] eqn:Est; [|done]. unfold mret_ in E. simplify_eq.
    exists p. split; [done|]. split; [eauto using list_elem_of_lookup_2|]. intros j d Hd Hr.
    destruct (Hall j d) as [-> _]; [apply lookup_lt_Some in Hd; lia|done|by apply bool_decide_eq_false|done].
  - apply mbind_Ret_inv in E as (e & s3 & He & E). destruct (first_error_sound _ _ _ _ _ _ _ He) as [-> Herr].
    destruct e as [i|]; [|done]. apply mbind_Ret_inv in E as (dis & s4 & Hdis & E). destruct dis; [by eapply IH|].
    destruct (Herr i eq_refl) as (st & Hst & Ht). unfold result_at in E. rewrite Hst in E. unfold mret_ in E. by simplify_eq.
Qed.

(** ** Drawing a drive *)

Lemma draw_until_fair `{!FairDraws W C Fl} `{!DistEnvSpec W C Fl} p pred ds d :
  d ∈ drives p → pred d = true →
  ∃ m i e n, drives p !! i = Some e ∧ pred e = true ∧
    ∀ f, (m < f)%nat → draw_until f p pred ds = Ret i (with_draws n ds).
Proof.
  intros Hd Hpred. assert (Hne : drives p ≠ []) by (by intros E; rewrite E in Hd; set_solver).
  apply list_elem_of_lookup_1 in Hd as [j Hj]. pose proof (lookup_lt_Some _ _ _ Hj) as Hlt.
  destruct (uniform_fair (draws ds) (Z.of_nat (length (drives p)) - 1) (Z.of_nat j)) as (m & Hm & Hu); [lia|].
  remember (m - draws ds)%nat as k eqn:Hk. revert ds Hm Hk. induction k as [|k IH]; intros ds Hm Hk.
  { exists O, j, d, (S (draws ds)). split; [done|]. split; [done|]. intros [|f] Hf; [lia|].
    replace m with (draws ds) in Hu by lia. by eapply draw_hit. }
  destruct (draw_in_range p (draws ds) Hne) as (i & e & Hi & He). destruct (pred e) eqn:Epe.
  { exists O, i, e, (S (draws ds)). split; [done|]. split; [done|]. intros [|f] Hf; [lia|]. by eapply draw_hit. }
  destruct (IH (with_draws (S (draws ds)) ds)) as (m' & i' & e' & n & H1 & H2 & H3); [cbn; lia..|].
  exists (S m'), i', e', n. split; [done|]. split; [done|]. intros [|f] Hf; [lia|].
  cbn [draw_until]. rewrite bool_decide_false by done. msimpl. rewrite Hi. unfold as_index, drive_at.
  rewrite (proj2 (Z.ltb_ge (Z.of_nat i) 0)) by lia. rewrite Nat2Z.id. msimpl. rewrite He. msimpl. rewrite Epe.
  rewrite H3 by lia. done.
Qed.

Lemma draw_until_never `{!DistEnvSpec W C Fl} p pred ds :
  drives p ≠ [] → Forall (λ d, pred d = false) (drives p) → ∀ f, ∃ ds', draw_until f p pred ds = NoFuel ds'.
Proof.
  intros Hne Hall f. revert ds. induction f as [|f IH]; intros ds; [by eexists|].
  destruct (draw_in_range p (draws ds) Hne) as (i & e & Hi & He).
  cbn [draw_until]. rewrite bool_decide_false by done. msimpl. rewrite Hi. unfold as_index, drive_at.
  rewrite (proj2 (Z.ltb_ge (Z.of_nat i) 0)) by lia. rewrite Nat2Z.id. msimpl. rewrite He. msimpl.
  rewrite Forall_lookup in Hall. rewrite (Hall i e He). apply IH.
Qed.

(** Reads need a GREEN drive. In a partition that has drives but no GREEN one a read
    never returns, whatever the fuel: it draws drives for ever. *)
Theorem read_without_green_hangs {A} `{!DistEnvSpec W C Fl} pr p (op : C → A → W → (StatusCode * A) * W) out ds :
  at_ pr ds = Some p → drives p ≠ [] → Forall (λ d, kd_status d ≠ GREEN) (drives p) →
  ∀ fuel, ∃ ds', readOperation fuel pr op out ds = NoFuel ds'.
Proof.
  intros Hp Hne Hall [|f]; [by eexists|]. cbn [readOperation]. step_by (read_p_run pr p ds Hp).
  destruct (draw_until_never p is_green ds Hne) with f as [ds' E].
  { eapply Forall_impl; [exact Hall|]. intros d Hd. by apply bool_decide_eq_false. }
  exists ds'. unfold mbind_ at 1. by rewrite E.
Qed.

Context `{!DrivesSpec W C} `{!DistEnvSpec W C Fl}.

(** Reads end. As long as a partition has a GREEN drive, whatever
    the state of the others, and its GREEN drives are reachable, a fair generator
    makes every read return what a GREEN drive holds. *)
Theorem read_with_green_returns {A} `{!FairDraws W C Fl} pr p (op : C → A → W → (StatusCode * A) * W) rd out ds d :
  at_ pr ds = Some p → d ∈ drives p → kd_status d = GREEN →
  (∀ e, e ∈ drives p → kd_status e = GREEN → connected e ds) → reads op rd out → (∀ s, settled (rd s).1) →
  ∃ fuel0, ∀ fuel, (fuel0 <= fuel)%nat → ∃ e ds', e ∈ drives p ∧ kd_status e = GREEN ∧
    readOperation fuel pr op out ds = Ret (rd (drive_store obs (drive_key e) (world ds))) ds' ∧
    unchanged obs (world ds) (world ds').
Proof.
  intros Hp Hd Hg Hc Hop Hst.
  destruct (draw_until_fair p is_green ds d Hd) as (m & i & e & n & Hi & He & Hdraw); [by apply bool_decide_eq_true|].
  apply bool_decide_eq_true in He. assert (He' : e ∈ drives p) by eauto using list_elem_of_lookup_2.
  exists (S (S m)). intros [|f] Hf; [lia|].
  destruct (readOperation_settles f pr p op rd out ds i e n) as (w' & Hu & Hrun); [done|apply Hdraw; lia|auto..|].
  exists e. eexists. split; [done|]. split; [done|]. split; [exact Hrun|exact Hu].
Qed.

(** ** testPartition on reachable drives *)

Lemma testConnection_run p i d ds : drives p !! i = Some d → connected d ds →
  ∃ w', testConnection p i ds = Ret true (with_world w' ds) ∧ unchanged obs (world ds) w'.
Proof.
  intros Hi Hc. destruct (driveToConnection_connected p i d ds Hi Hc) as (c & _ & _ & Hr & Hrun).
  unfold testConnection. step_by Hrun. unfold call. msimpl.
  destruct (con_NoOp (world ds)) as [st w'] eqn:E. apply law_NoOp, request_ready in E as [-> Hu]; [|done]. by exists w'.
Qed.

Lemma connected_unchanged d ds w' : unchanged obs (world ds) w' → connected d ds → connected d (with_world w' ds).
Proof. intros Hu. apply connected_with_world. intros c. by apply unchanged_ready. Qed.

Lemma with_world_with_world w1 w2 ds : with_world w2 (with_world w1 ds) = with_world w2 ds.
Proof. done. Qed.

Lemma with_world_same ds : with_world (world ds) ds = ds.
Proof. by destruct ds. Qed.

Definition count_green (l : list KineticDrive) : Z := Z.of_nat (length (List.filter is_green l)).
Definition count_yellow (l : list KineticDrive) : Z := Z.of_nat (length (List.filter is_yellow l)).

Lemma counts_cons d l :
  count_green (d :: l) = (if is_green d then 1 else 0) + count_green l ∧
  count_yellow (d :: l) = (if is_yellow d then 1 else 0) + count_yellow l.
Proof. unfold count_green, count_yellow. cbn. destruct (is_green d), (is_yellow d); cbn [length]; lia. Qed.

Lemma drop_cons_inv {A} (l : list A) i x r : drop i l = x :: r → l !! i = Some x ∧ drop (S i) l = r.
Proof.
  intros E. split; [rewrite <- (Nat.add_0_r i), <- lookup_drop, E; done|by rewrite <- Nat.add_1_r, <- drop_drop, E].
Qed.

Lemma testPartition_loop_run p l : ∀ i g y ds,
  drop i (drives p) = l → Forall (λ d, is_red d = false → connected d ds) l →
  ∃ w', testPartition_loop p i (length l) g y ds = Ret (Some (g + count_green l, y + count_yellow l)) (with_world w' ds) ∧
    unchanged obs (world ds) w'.
Proof.
  induction l as [|d l IH]; intros i g y ds Hl Hall; cbn [testPartition_loop length].
  { exists (world ds). rewrite with_world_same. split; [|apply unchanged_refl]. unfold count_green, count_yellow, mret_. cbn.
    by rewrite !Z.add_0_r. }
  apply drop_cons_inv in Hl as [Hi Hl]. apply Forall_cons in Hall as [Hd Hall].
  destruct (counts_cons d l) as [-> ->]. step_by (drive_at_run p i d ds Hi). destruct (is_red d) eqn:Hr.
  - destruct (IH (S i) g y ds Hl Hall) as (w' & -> & Hu). exists w'. split; [|done].
    unfold is_red, is_green, is_yellow in *. apply bool_decide_eq_true in Hr. rewrite Hr. done.
  - destruct (testConnection_run p i d ds Hi (Hd eq_refl)) as (w1 & Ht & Hu1). step_by Ht. cbn [negb].
    destruct (IH (S i) (if is_green d then g + 1 else g) (if is_yellow d then y + 1 else y) (with_world w1 ds) Hl) as (w' & -> & Hu).
    { eapply Forall_impl; [exact Hall|]. intros e He Hre. apply connected_unchanged; auto. }
    exists w'. split; [|by eapply unchanged_trans]. rewrite with_world_with_world. do 3 f_equal;
      destruct (is_green d), (is_yellow d); lia.
Qed.

(** A partition with a GREEN drive and a log drive passes. *)
Lemma testPartition_run p l ld ds :
  is_Some (partitionID p) → Forall (λ d, is_red d = false → connected d ds) (drives p) →
  0 < count_green (drives p) → logID p = Some (Z.of_nat l) →
  drives (log_partition ds) !! l = Some ld → connected ld ds →
  ∃ w', testPartition p ds = Ret true (with_world w' ds) ∧ unchanged obs (world ds) w'.
Proof.
  intros Hid Hall Hg Hlog Hld Hlc. unfold testPartition, has_partitionid. rewrite bool_decide_true by done. cbn [negb].
  destruct (testPartition_loop_run p (drives p) 0 0 0 ds (drop_0 _) Hall) as (w1 & Hrun & Hu1). step_by Hrun.
  rewrite Hlog. unfold gets_. rewrite mbind_assoc, mbind_lam. unfold as_index.
  rewrite (proj2 (Z.ltb_ge (Z.of_nat l) 0)) by lia. rewrite Nat2Z.id, mbind_assoc, mbind_ret_l.
  destruct (testConnection_run (log_partition ds) l ld (with_world w1 ds)) as (w2 & Ht & Hu2);
    [done|by apply connected_unchanged|].
  step_by Ht. cbn [negb]. rewrite (proj2 (Z.eqb_neq (0 + count_green (drives p)) 0)) by lia.
  unfold has_logid. rewrite Hlog, bool_decide_true by done. rewrite andb_false_r.
  exists w2. split; [done|]. by eapply unchanged_trans.
Qed.

(** ** Storing a new state of the partition *)

(** The record [key] and cluster version [v] were put on the drives [ks]. *)
Record installed (key : cstr) (r : KineticRecord) (v : Z) (ks : list addr) (w w' : W) : Prop := {
  in_store a : drive_store obs a w' = if decide (a ∈ ks) then <[key := r]> (drive_store obs a w) else drive_store obs a w;
  in_version a : drive_version obs a w' = if decide (a ∈ ks) then v else drive_version obs a w;
  in_online a : drive_online obs a w' = drive_online obs a w;
  in_client c : addr_of obs c ∉ ks → client_version obs c w' = client_version obs c w;
}.

Lemma installed_nil key r v w : installed key r v [] w w.
Proof. by split. Qed.

Lemma installed_cons key r v a ks w w1 w2 :
  a ∉ ks → installed key r v [a] w w1 → installed key r v ks w1 w2 → installed key r v (a :: ks) w w2.
Proof.
  intros Ha [H1 H2 H3 H4] [H1' H2' H3' H4']. split.
  - intros b. rewrite H1', H1. repeat case_decide; set_solver.
  - intros b. rewrite H2', H2. repeat case_decide; set_solver.
  - congruence.
  - intros c Hc. rewrite H4', H4; set_solver.
Qed.

Lemma installed_ready key r v ks w w' c : installed key r v ks w w' → addr_of obs c ∉ ks → ready c w → ready c w'.
Proof.
  intros [H1 H2 H3 H4] Hc [Ho Hv]. split; [congruence|]. rewrite H4, H2, decide_False by done. done.
Qed.

(** One drive: the record, then the version on the drive and on the client. *)
Lemma install_one key r v c w st1 w1 st2 w2 :
  ready c w → drive_store obs (addr_of obs c) w !! key = None →
  @con_Put _ (connection c) key [] REQUIRE_SAME_VERSION r w = (st1, w1) → SetClusterVersion c v w1 = (st2, w2) →
  st1 = OK ∧ installed key r v [addr_of obs c] w (SetClientClusterVersion c v w2) ∧ ready c (SetClientClusterVersion c v w2).
Proof.
  intros Hr Hk E1 E2. apply law_Put in E1. rewrite put_cell_run, Hk in E1. cbn in E1.
  apply request_ready in E1 as [-> Ho]; [|done]. split; [done|]. pose proof (only_store_ready _ _ _ _ _ Ho Hr) as Hr1.
  apply law_SetClusterVersion, request_ready in E2 as (-> & Hs2 & Hv2 & Ho2 & Hc2); [|done].
  destruct (law_SetClient c v w2) as (Hs3 & Hv3 & Ho3 & Hc3 & Hn3). destruct Ho as [Hs1 Hv1 Ho1 Hc1].
  split; [split|split].
  - intros a. rewrite Hs3, Hs2, Hs1. destruct (decide (a = _)) as [->|]; [rewrite decide_True by set_solver|rewrite decide_False by set_solver]; done.
  - intros a. rewrite Hv3, Hv2, Hv1. destruct (decide (a = _)) as [->|]; [rewrite decide_True by set_solver|rewrite decide_False by set_solver]; done.
  - intros a. congruence.
  - intros c' Hc'. rewrite Hn3, Hc2, Hc1; [done|]. intros ->. set_solver.
  - destruct Hr as [Hr _]. congruence.
  - rewrite Hc3, Hv3, Hv2, decide_True; done.
Qed.

Definition in_service (l : list KineticDrive) : list addr := map drive_key (List.filter (λ d, negb (is_red d)) l).

Lemma elem_in_service d l : d ∈ l → is_red d = false → drive_key d ∈ in_service l.
Proof.
  intros Hd Hr. unfold in_service. apply list_elem_of_In, in_map, filter_In. split; [by apply list_elem_of_In|]. by rewrite Hr.
Qed.

Lemma putPartitionUpdate_loop_run p key r l : ∀ i ds,
  drop i (drives p) = l → NoDup (in_service l) →
  Forall (λ d, is_red d = false → connected d ds ∧ drive_store obs (drive_key d) (world ds) !! key = None) l →
  ∃ w', putPartitionUpdate_loop p key r i (length l) ds = Ret true (with_world w' ds) ∧
    installed key r (to_i64 (cluster_version p)) (in_service l) (world ds) w' ∧
    Forall (λ d, is_red d = false → connected d (with_world w' ds)) l.
Proof.
  induction l as [|d l IH]; intros i ds Hl Hnd Hall; cbn [putPartitionUpdate_loop length].
  { exists (world ds). rewrite with_world_same. split; [done|]. split; [apply installed_nil|constructor]. }
  apply drop_cons_inv in Hl as [Hi Hl]. apply Forall_cons in Hall as [Hd Hall].
  step_by (drive_at_run p i d ds Hi). unfold in_service in *. cbn [List.filter] in *. destruct (is_red d) eqn:Hr; cbn [negb] in *.
  { destruct (IH (S i) ds Hl Hnd Hall) as (w' & -> & Hin & Hc). exists w'. split; [done|]. split; [done|]. constructor; [congruence|done]. }
  cbn [map] in *. apply NoDup_cons in Hnd as [Hnotin Hnd]. destruct (Hd eq_refl) as [Hc Hk].
  destruct (driveToConnection_connected p i d ds Hi Hc) as (c & Hm & Ha & Hrd & Hrun). step_by Hrun.
  unfold call. destruct (@con_Put _ (connection c) key [] REQUIRE_SAME_VERSION r (world ds)) as [st1 w1] eqn:E1.
  destruct (SetClusterVersion c (to_i64 (cluster_version p)) w1) as [st2 w2] eqn:E2. rewrite <- Ha in Hk.
  destruct (install_one key r _ c (world ds) st1 w1 st2 w2 Hrd Hk E1 E2) as (-> & Hone & Hrd3). rewrite Ha in Hone.
  set (w3 := SetClientClusterVersion c (to_i64 (cluster_version p)) w2) in *.
  unfold mbind_ at 1. rewrite E1. cbn [is_ok negb]. unfold mbind_ at 1. cbn [world with_world]. rewrite E2.
  unfold mbind_ at 1. cbn [world with_world]. fold w3. rewrite !with_world_with_world.
  destruct (IH (S i) (with_world w3 ds) Hl Hnd) as (w' & Hrun' & Hin & Hcs).
  { rewrite Forall_forall in Hall |- *. intros e He Hre. destruct (Hall e He Hre) as [Hce Hke].
    assert (Hne : drive_key e ≠ drive_key d) by (intros E; apply Hnotin; rewrite <- E; by apply elem_in_service).
    split; [|cbn; rewrite (in_store _ _ _ _ _ _ Hone), decide_False by set_solver; done].
    destruct Hce as (c' & Hm' & Ha' & Hr'). exists c'. split; [done|]. split; [done|].
    eapply installed_ready; [exact Hone| |done]. rewrite Ha'. set_solver. }
  rewrite Hrun', with_world_with_world. exists w'. split; [done|]. split; [by eapply installed_cons|].
  constructor; [|done]. intros _. exists c. split; [done|]. split; [done|].
  eapply installed_ready; [exact Hin| |exact Hrd3]. by rewrite Ha.
Qed.

(** ** Failing a drive *)

Definition cv_key (v : Z) : cstr := cv_base_name ++ to_string v.

(** The state of a partition once drive [x] is failed. *)
Definition without_drive (x : nat) (p : Partition) : Partition :=
  set_cluster_version (cluster_version p + 1) (set_drive_status x RED p).

(** Partition [i] has lost contact with drive [x]: the other drives in service and
    the log drive [l] assigned to it are reachable, one of the others is GREEN,
    and no other client has stored the next state of the partition. *)
Record degraded (ds : DKN) (i : nat) (p : Partition) (x : nat) (dx : KineticDrive) (l : nat) : Prop := {
  dg_part : cluster_map ds !! i = Some p;
  dg_id : is_Some (partitionID p);
  dg_log : logID p = Some (Z.of_nat l);
  dg_logdrive : ∃ ld, drives (log_partition ds) !! l = Some ld ∧ connected ld ds;
  dg_dx : drives p !! x = Some dx;
  dg_dx_up : is_red dx = false;
  dg_nodup : NoDup (map drive_key (drives p));
  dg_others j d : drives p !! j = Some d → j ≠ x → is_red d = false → connected d ds ∧
    drive_store obs (drive_key d) (world ds) !! cv_key (wrap64 (cluster_version p + 1)) = None;
  dg_green : ∃ j d, drives p !! j = Some d ∧ j ≠ x ∧ kd_status d = GREEN;
}.

Lemma without_drive_lookup p x j : j ≠ x → drives (without_drive x p) !! j = drives p !! j.
Proof. intros Hj. cbn. by rewrite list_lookup_alter_ne. Qed.

Lemma without_drive_x p x d : drives p !! x = Some d →
  drives (without_drive x p) !! x = Some (mk_KineticDrive RED (kd_host d) (kd_port d)).
Proof. intros Hd. cbn. by rewrite list_lookup_alter_eq, Hd. Qed.

Lemma without_drive_service p x d :
  d ∈ drives (without_drive x p) → is_red d = false → ∃ j, j ≠ x ∧ drives p !! j = Some d.
Proof.
  intros Hd Hr. apply list_elem_of_lookup_1 in Hd as [j Hj]. exists j. destruct (decide (j = x)) as [->|Hne].
  - exfalso. pose proof (lookup_lt_Some _ _ _ Hj) as Hlt. cbn in Hlt. rewrite length_alter in Hlt.
    destruct (lookup_lt_is_Some_2 _ _ Hlt) as [e He]. rewrite (without_drive_x p x e He) in Hj. injection Hj as <-. done.
  - by rewrite without_drive_lookup in Hj.
Qed.

Lemma without_drive_keys p x : map drive_key (drives (without_drive x p)) = map drive_key (drives p).
Proof.
  cbn. apply list_eq. intros j. rewrite !list_lookup_fmap. destruct (decide (j = x)) as [->|Hne].
  - rewrite list_lookup_alter_eq. by destruct (drives p !! x).
  - by rewrite list_lookup_alter_ne.
Qed.

Lemma in_service_nodup l : NoDup (map drive_key l) → NoDup (in_service l).
Proof.
  unfold in_service. induction l as [|d l IH]; [done|]. cbn. rewrite NoDup_cons. intros [Hd Hl].
  destruct (negb (is_red d)); [|by apply IH]. cbn. apply NoDup_cons. split; [|by apply IH].
  intros Hin. apply Hd. apply list_elem_of_In, in_map_iff in Hin as (e & <- & He). apply filter_In in He as [He _].
  by apply list_elem_of_In, in_map.
Qed.

Lemma count_green_pos l j d : l !! j = Some d → kd_status d = GREEN → 0 < count_green l.
Proof.
  intros Hj Hg. unfold count_green. assert (Hin : In d (List.filter is_green l)).
  { apply filter_In. split; [by apply list_elem_of_In, list_elem_of_lookup_2 with j|]. by apply bool_decide_eq_true. }
  destruct (List.filter is_green l); [done|]. cbn [length]. lia.
Qed.

Lemma unchanged_installed key r v ks w w1 w2 :
  unchanged obs w w1 → installed key r v ks w1 w2 → installed key r v ks w w2.
Proof.
  intros [H1 H2 H3 H4] [H1' H2' H3' H4']. split.
  - intros a. by rewrite H1', H1.
  - intros a. by rewrite H2', H2.
  - congruence.
  - intros c Hc. by rewrite H4', H4.
Qed.

Lemma installed_unchanged key r v ks w w1 w2 :
  installed key r v ks w w1 → unchanged obs w1 w2 → installed key r v ks w w2.
Proof.
  intros [H1 H2 H3 H4] [H1' H2' H3' H4']. split.
  - intros a. by rewrite H1', H1.
  - intros a. by rewrite H2', H2.
  - congruence.
  - intros c Hc. by rewrite H4', H4.
Qed.

Definition partition_record (p : Partition) : KineticRecord := mk_KineticRecord (SerializeAsString p) (lit "yes").

Lemma connected_config d ds ds' :
  connection_map ds' = connection_map ds → world ds' = world ds → connected d ds → connected d ds'.
Proof. intros E1 E2 (c & ? & ? & ?). exists c. rewrite E1, E2. done. Qed.

(** The partition without the drive is stored on the drives left in service. *)
Lemma putPartitionUpdate_run p ds :
  is_Some (partitionID p) → NoDup (map drive_key (drives p)) →
  (∀ d, d ∈ drives p → is_red d = false → connected d ds ∧
     drive_store obs (drive_key d) (world ds) !! cv_key (cluster_version p) = None) →
  ∃ w', putPartitionUpdate p ds = Ret true (with_world w' ds) ∧
    installed (cv_key (cluster_version p)) (partition_record p) (to_i64 (cluster_version p)) (in_service (drives p)) (world ds) w' ∧
    ∀ d, d ∈ drives p → is_red d = false → connected d (with_world w' ds).
Proof.
  intros Hid Hnd Hall. unfold putPartitionUpdate, has_partitionid. rewrite bool_decide_true by done. cbn [negb].
  destruct (putPartitionUpdate_loop_run p (cv_key (cluster_version p)) (partition_record p) (drives p) 0 ds) as (w' & H1 & H2 & H3).
  - apply drop_0.
  - by apply in_service_nodup.
  - by apply Forall_forall.
  - rewrite Forall_forall in H3. eauto.
Qed.

Lemma update_p_map i p f ds : cluster_map ds !! i = Some p →
  update_p (PMap i) f ds = Ret tt (with_cluster_map (<[i := f p]> (cluster_map ds)) ds).
Proof. intros Hp. unfold update_p, read_p, write_p. msimpl. cbn [at_]. by rewrite Hp. Qed.

(** What failing drive [x] leaves. *)
Record drive_failed (ds ds' : DKN) (i : nat) (p : Partition) (x : nat) (dx : KineticDrive) : Prop := {
  df_map : cluster_map ds' = <[i := without_drive x p]> (cluster_map ds);
  df_conn : connection_map ds' = delete (drive_key dx) (connection_map ds);
  df_log : log_partition ds' = log_partition ds;
  df_cs : direntry_clustersize ds' = direntry_clustersize ds;
  df_world : installed (cv_key (cluster_version (without_drive x p))) (partition_record (without_drive x p))
    (to_i64 (cluster_version (without_drive x p))) (in_service (drives (without_drive x p))) (world ds) (world ds');
  df_others d : d ∈ drives (without_drive x p) → is_red d = false → connected d ds';
}.

(** Reads before and after make no difference to it. *)
Lemma drive_failed_before ds ds' w n i p x dx :
  unchanged obs (world ds) w → drive_failed (with_world w (with_draws n ds)) ds' i p x dx → drive_failed ds ds' i p x dx.
Proof. intros Hu []. split; [done..|by eapply unchanged_installed|done]. Qed.

Lemma drive_failed_after ds ds' w n i p x dx :
  drive_failed ds ds' i p x dx → unchanged obs (world ds') w → drive_failed ds (with_world w (with_draws n ds')) i p x dx.
Proof.
  intros [] Hu. split; [done..|by eapply installed_unchanged|]. intros d Hd Hr.
  apply (connected_unchanged d (with_draws n ds')); [exact Hu|]. by apply df_others0.
Qed.

Lemma disableDrive_run ds i p x dx l : degraded ds i p x dx l →
  ∃ ds', (∀ f, disableDrive (S f) (PMap i) x ds = Ret true ds') ∧ drive_failed ds ds' i p x dx.
Proof.
  intros [Hp Hid Hlog (ld & Hld & Hlc) Hdx Hup Hnd Hoth (j & dj & Hj & Hjx & Hg)].
  set (p' := without_drive x p). set (ds1 := with_cluster_map (<[i := p']> (cluster_map ds)) ds).
  pose proof (lookup_lt_Some _ _ _ Hp) as Hi.
  assert (Hserv : ∀ d, d ∈ drives p' → is_red d = false → connected d ds1 ∧
            drive_store obs (drive_key d) (world ds1) !! cv_key (cluster_version p') = None).
  { intros d Hd Hr. destruct (without_drive_service p x d Hd Hr) as (k & Hk & Hdk).
    destruct (Hoth k d Hdk Hk Hr) as [Hc Hn]. split; [by apply (connected_config d ds)|done]. }
  destruct (testPartition_run p' l ld ds1) as (w1 & Ht & Hu1); [done| | |done|done|by apply (connected_config ld ds)|].
  { apply Forall_forall. intros d Hd Hr. by apply Hserv. }
  { eapply (count_green_pos _ j dj); [|done]. unfold p'. by rewrite without_drive_lookup. }
  set (ds2 := with_world w1 ds1).
  destruct (putPartitionUpdate_run p' ds2) as (w2 & Hput & Hin & Hc2); [done|by unfold p'; rewrite without_drive_keys| |].
  { intros d Hd Hr. destruct (Hserv d Hd Hr) as [Hc Hn]. split; [by apply connected_unchanged|].
    cbn. rewrite (un_store _ _ _ Hu1). exact Hn. }
  exists (with_connection_map (delete (drive_key dx) (connection_map ds)) (with_world w2 ds1)). split.
  - intros f. cbn [disableDrive]. step_by (read_p_run (PMap i) p ds Hp). step_by (drive_at_run p x dx ds Hdx). rewrite Hup.
    assert (Hal : assign_logdrive f (PMap i) ds = Ret tt ds).
    { unfold assign_logdrive. step_by (read_p_run (PMap i) p ds Hp). unfold gets_. rewrite mbind_lam. unfold has_logid.
      by rewrite Hlog, bool_decide_true. }
    step_by Hal. step_by (update_p_map i p (set_drive_status x RED) ds Hp).
    erewrite (mbind_Ret (update_p _ _)); [|apply update_p_map; by apply list_lookup_insert_eq]. cbv beta.
    cbn [cluster_map with_cluster_map]. rewrite list_insert_insert_eq.
    change (with_cluster_map _ (with_cluster_map _ ds)) with ds1.
    erewrite (mbind_Ret (read_p _)); [|apply (read_p_run _ p'); by apply list_lookup_insert_eq]. cbv beta.
    step_by Ht. step_by Hput. erewrite (mbind_Ret (drive_at _ _)); [|apply drive_at_run, without_drive_x, Hdx].
    done.
  - split; [done|done|done|done|by eapply unchanged_installed|].
    intros d Hd Hr. destruct (Hc2 d Hd Hr) as (c & Hm & Ha & Hrd). exists c. split; [|done]. cbn in Hm |- *.
    rewrite lookup_delete_ne; [done|]. destruct (without_drive_service p x d Hd Hr) as (k & Hk & Hdk).
    intros E. apply Hk. symmetry. eapply (NoDup_lookup (map drive_key (drives p)) x k (drive_key dx)); [done|..].
    + by rewrite list_lookup_fmap, Hdx.
    + by rewrite list_lookup_fmap, Hdk, E.
Qed.

(** ** Reads survive the failure of a drive *)

(** Drive [d] does not answer. *)
Definition dead (d : KineticDrive) (ds : DKN) : Prop :=
  drive_online obs (drive_key d) (world ds) = false ∧
  ∀ c, connection_map ds !! drive_key d = Some c → addr_of obs c = drive_key d.

Lemma request_offline c w st w' P :
  drive_online obs (addr_of obs c) w = false → request obs _ c w st w' P → io_error st = true ∧ unchanged obs w w'.
Proof. unfold request. by intros ->. Qed.

Lemma io_error_codes st : io_error st = true →
  bool_decide (st = REMOTE_CLUSTER_VERSION_MISMATCH) = false ∧
  negb (is_ok st) && negb (bool_decide (st = REMOTE_NOT_FOUND)) && negb (bool_decide (st = REMOTE_NOT_AUTHORIZED)) = true ∧
  tolerated st = false.
Proof. by destruct st. Qed.

(** No call gets through to a dead drive. *)
Lemma driveToConnection_dead p x dx ds : drives p !! x = Some dx → dead dx ds →
  ∃ con w', driveToConnection p x ds = Ret con (with_world w' ds) ∧ unchanged obs (world ds) w' ∧
    ∀ c, con = Some c → drive_online obs (addr_of obs c) w' = false.
Proof.
  intros Hx [Hoff Hc]. unfold driveToConnection. step_by (drive_at_run p x dx ds Hx). unfold gets_. rewrite mbind_lam.
  destruct (connection_map ds !! drive_key dx) as [c|] eqn:E.
  - exists (Some c), (world ds). rewrite with_world_same. split; [done|]. split; [apply unchanged_refl|].
    intros c' [= <-]. by rewrite (Hc c eq_refl).
  - unfold call. msimpl. destruct (NewConnection _ _ _) as [con w'] eqn:En.
    apply law_connect in En as [Hn _]. destruct (Hn Hoff) as [-> Hu]. by exists None, w'.
Qed.

(** The part of a read that a dead drive answers. *)
Lemma read_dead_drive {A} m pr p (op : C → A → W → (StatusCode * A) * W) out ds x dx n :
  at_ pr ds = Some p → (∀ f, (m < f)%nat → draw_until f p is_green ds = Ret x (with_draws n ds)) →
  drives p !! x = Some dx → dead dx ds →
  (∀ c w st o w', op c out w = (st, o, w') → drive_online obs (addr_of obs c) w = false →
     io_error st = true ∧ o = out ∧ unchanged obs w w') →
  ∃ w', unchanged obs (world ds) w' ∧
    ∀ f ds', (m < f)%nat → disableDrive f pr x (with_world w' (with_draws n ds)) = Ret true ds' →
      readOperation (S f) pr op out ds = readOperation f pr op out ds'.
Proof.
  intros Hp Hdraw Hx Hdead Hop.
  destruct (driveToConnection_dead p x dx (with_draws n ds) Hx) as (con & w1 & Hcon & Hu1 & Hoff); [exact Hdead|].
  assert (Hread : ∃ st w', io_error st = true ∧ unchanged obs (world ds) w' ∧
    (match con with Some c => call (op c out) | None => mret_ (REMOTE_REMOTE_CONNECTION_ERROR, out) end)
      (with_world w1 (with_draws n ds)) = Ret (st, out) (with_world w' (with_draws n ds))).
  { destruct con as [c|]; [|by exists REMOTE_REMOTE_CONNECTION_ERROR, w1]. unfold call. cbn [world with_world].
    destruct (op c out w1) as [[st o] w2] eqn:E. destruct (Hop c w1 st o w2 E (Hoff c eq_refl)) as (Hst & -> & Hu2).
    exists st, w2. split; [done|]. split; [by eapply unchanged_trans|done]. }
  destruct Hread as (st & w' & Hst & Hu & Hread). exists w'. split; [done|]. intros f ds' Hf Hdis.
  cbn [readOperation]. step_by (read_p_run pr p ds Hp). step_by (Hdraw f Hf). step_by Hcon. step_by Hread.
  destruct (io_error_codes st Hst) as (-> & -> & _). by step_by Hdis.
Qed.

Lemma get_offline k c w st o w' :
  deliver None (@con_Get _ (connection c) k w) = (st, o, w') → drive_online obs (addr_of obs c) w = false →
  io_error st = true ∧ o = None ∧ unchanged obs w w'.
Proof.
  unfold deliver. destruct (con_Get k w) as [[st' r] w1] eqn:E. cbn [fst snd]. intros [= -> <- <-] Hoff.
  pose proof (law_Get _ _ _ _ _ _ E) as Hreq. apply request_offline in Hreq as [Hst Hu]; [|done].
  rewrite (law_Get_out _ _ _ _ _ _ E) by (by intros ->). done.
Qed.

Lemma degraded_unchanged ds i p x dx l w' n :
  degraded ds i p x dx l → unchanged obs (world ds) w' → degraded (with_world w' (with_draws n ds)) i p x dx l.
Proof.
  intros [] Hu. split; try done.
  - destruct dg_logdrive0 as (ld & ? & ?). exists ld. split; [done|]. by apply (connected_unchanged ld (with_draws n ds)).
  - intros j d Hj Hjx Hr. destruct (dg_others0 j d Hj Hjx Hr) as [Hc Hk].
    split; [by apply (connected_unchanged d (with_draws n ds))|]. cbn. by rewrite (un_store _ _ _ Hu).
Qed.

Definition found (r : option KineticRecord) : StatusCode * option KineticRecord :=
  match r with Some x => (OK, Some x) | None => (REMOTE_NOT_FOUND, None) end.

Lemma drive_Get_found k s : (drive_Get k s).1 = found (s !! k).
Proof. unfold drive_Get. by destruct (s !! k). Qed.

Definition read_get (k : cstr) (c : C) (out : option KineticRecord) (w : W) := deliver out (@con_Get _ (connection c) k w).

(** The remaining replicas answer once drive [x] has been failed. *)
Lemma get_after_failure `{!FairDraws W C Fl} ds ds' k i p x dx l r :
  degraded ds i p x dx l → drive_failed ds ds' i p x dx → k ≠ cv_key (cluster_version (without_drive x p)) →
  (∀ j d, drives p !! j = Some d → j ≠ x → is_red d = false → drive_store obs (drive_key d) (world ds) !! k = r) →
  ∃ fuel0, ∀ fuel, (fuel0 <= fuel)%nat → ∃ ds'',
    readOperation fuel (PMap i) (read_get k) None ds' = Ret (found r) ds'' ∧ drive_failed ds ds'' i p x dx.
Proof.
  intros Hdg Hdf Hk Hag. destruct (dg_green _ _ _ _ _ _ Hdg) as (j & d & Hj & Hjx & Hg).
  assert (Hp' : at_ (PMap i) ds' = Some (without_drive x p)).
  { cbn. rewrite (df_map _ _ _ _ _ _ Hdf). apply list_lookup_insert_eq, (lookup_lt_Some _ _ _ (dg_part _ _ _ _ _ _ Hdg)). }
  destruct (draw_until_fair (without_drive x p) is_green ds' d) as (m & y & e & n & Hy & He & Hdraw).
  { apply list_elem_of_lookup_2 with j. by rewrite without_drive_lookup. }
  { by apply bool_decide_eq_true. }
  apply bool_decide_eq_true in He. assert (Hr : is_red e = false) by (by apply green_not_red).
  assert (Hin : e ∈ drives (without_drive x p)) by eauto using list_elem_of_lookup_2.
  assert (Hval : drive_store obs (drive_key e) (world ds') !! k = r).
  { destruct (without_drive_service p x e Hin Hr) as (z & Hzx & Hz). rewrite (in_store _ _ _ _ _ _ (df_world _ _ _ _ _ _ Hdf)).
    case_decide; [rewrite lookup_insert_ne by done|]; by eapply Hag. }
  exists (S (S m)). intros [|f] Hf; [lia|].
  destruct (readOperation_settles f (PMap i) (without_drive x p) (read_get k) (λ s, (drive_Get k s).1) None ds' y e n) as (w' & Hu & Hrun);
    [done|apply Hdraw; lia|done|by apply (df_others _ _ _ _ _ _ Hdf)|apply get_reads|apply drive_Get_settled|].
  rewrite drive_Get_found, Hval in Hrun. eexists. split; [exact Hrun|by apply drive_failed_after].
Qed.

(** C11: reads survive the failure of a drive. When drive [x] of the partition has
    gone silent, [Get] still returns the record that the remaining replicas hold.
    Let [y] be the GREEN drive the generator picks first. If it is the silent one,
    [Get] fails it over: it is RED in the map of the client, its connection is
    gone, and the next version of the partition, which says so, is stored on every
    drive left in service. If it is another one, nothing changes anywhere. *)
Theorem Get_survives_drive_failure `{!FairDraws W C Fl} ds k i p x dx l r :
  degraded ds i p x dx l → dead dx ds → direntry_clustersize ds ≠ 0 → key_index ds k = i →
  k ≠ cv_key (cluster_version (without_drive x p)) →
  (∀ j d, drives p !! j = Some d → j ≠ x → is_red d = false → drive_store obs (drive_key d) (world ds) !! k = r) →
  ∃ m y e n, drives p !! y = Some e ∧ is_green e = true ∧
    (∀ f, (m < f)%nat → draw_until f p is_green ds = Ret y (with_draws n ds)) ∧
    ∃ fuel0, ∀ fuel, (fuel0 <= fuel)%nat → ∃ ds', dist_Get fuel k ds = Ret (found r) ds' ∧
      (y = x → drive_failed ds ds' i p x dx) ∧
      (y ≠ x → cluster_map ds' = cluster_map ds ∧ unchanged obs (world ds) (world ds')).
Proof.
  intros Hdg Hdead Hcs Hki Hk Hag. pose proof (dg_part _ _ _ _ _ _ Hdg) as Hp.
  assert (Hm : cluster_map ds ≠ []) by (intros E; by rewrite E in Hp).
  destruct (dg_green _ _ _ _ _ _ Hdg) as (j & d & Hj & Hjx & Hg).
  destruct (draw_until_fair p is_green ds d) as (m & y & e & n & Hy & Hey & Hdraw);
    [by eapply list_elem_of_lookup_2|by apply bool_decide_eq_true|].
  exists m, y, e, n. do 3 (split; [done|]). apply bool_decide_eq_true in Hey.
  assert (Hget : ∀ fuel, dist_Get fuel k ds = readOperation fuel (PMap i) (read_get k) None ds).
  { intros fuel. unfold dist_Get. step_by (keyToPartition_run k ds Hm Hcs). by rewrite Hki. }
  setoid_rewrite Hget. destruct (decide (y = x)) as [->|Hyx].
  - replace e with dx in * by (rewrite (dg_dx _ _ _ _ _ _ Hdg) in Hy; congruence).
    destruct (read_dead_drive m (PMap i) p (read_get k) None ds x dx n) as (w' & Hu & Hstep);
      [done|done|done|done|intros c w st o w'; apply get_offline|].
    pose proof (degraded_unchanged ds i p x dx l w' n Hdg Hu) as Hdg'.
    destruct (disableDrive_run _ i p x dx l Hdg') as (ds' & Hdis & Hdf).
    destruct (get_after_failure _ ds' k i p x dx l r Hdg' Hdf Hk) as (f0 & Hf0).
    { intros j' d' Hj' Hx' Hr'. cbn. rewrite (un_store _ _ _ Hu). by eapply Hag. }
    exists (S (m + f0 + 1)). intros [|[|f]] Hf; [lia|lia|]. rewrite (Hstep (S f) ds') by (done || lia).
    destruct (Hf0 (S f)) as (ds'' & Hrun & Hdf''); [lia|]. exists ds''. split; [done|]. split; [|done].
    intros _. by eapply drive_failed_before.
  - exists (S (S m)). intros [|f] Hf; [lia|]. assert (Hr : is_red e = false) by (by apply green_not_red).
    destruct (dg_others _ _ _ _ _ _ Hdg y e Hy Hyx Hr) as [Hc _].
    destruct (readOperation_settles f (PMap i) p (read_get k) (λ s, (drive_Get k s).1) None ds y e n) as (w' & Hu & Hrun);
      [done|apply Hdraw; lia|done|done|apply get_reads|apply drive_Get_settled|].
    rewrite drive_Get_found, (Hag y e Hy Hyx Hr) in Hrun. eexists. split; [exact Hrun|done].
Qed.
End Failover.

(** ** A cluster that loses a drive *)
#[local] Existing Instance cl_kinetic.
#[local] Existing Instance cl_spec.
#[local] Existing Instance demo_partition.
#[local] Existing Instance demo_dist.
#[local] Existing Instance demo_dist_spec.
#[local] Existing Instance demo_dist_fair.
Abbreviation demo_dkn_t := (DistributedKineticNamespace cluster conn Z).

(** A run that is known to return, continued from its end. *)
Definition after {A} (m : M demo_dkn_t A) (ds : demo_dkn_t) : demo_dkn_t := state_after (m ds) ds.
Definition rec_ (v n : string) : KineticRecord := mk_KineticRecord (lit v) (lit n).
Definition switch (h : string) (b : bool) (ds : demo_dkn_t) : demo_dkn_t :=
  with_world (set_online (demo_addr h) b (world ds)) ds.

(** [/f] is stored on b0 and b1; b0 goes silent. *)
Definition demo_f : demo_dkn_t := after (dist_Put 2 (lit "/f") [] REQUIRE_SAME_VERSION (rec_ "F" "1")) demo_state.
Definition demo_b0_off : demo_dkn_t := switch "b0" false demo_f.
Definition demo_part1 : Partition := mk_Partition 0 (Some 1) [demo_kd GREEN "b0"; demo_kd GREEN "b1"] (Some 1).

Lemma demo_b1_connected : connected (demo_kd GREEN "b1") demo_b0_off.
Proof. exists (4%nat, demo_addr "b1"). repeat split; vm_compute; reflexivity. Qed.

Lemma demo_degraded : degraded demo_b0_off 1 demo_part1 0 (demo_kd GREEN "b0") 1.
Proof.
  split; try (vm_compute; reflexivity).
  - eexists; reflexivity.
  - exists (demo_kd GREEN "l1"). split; [vm_compute; reflexivity|].
    exists (5%nat, demo_addr "l1"). repeat split; vm_compute; reflexivity.
  - apply (bool_decide_unpack _). vm_compute. exact I.
  - intros [|[|j]] d Hj Hjx _; [done| |done]. injection Hj as <-.
    split; [apply demo_b1_connected|vm_compute; reflexivity].
  - exists 1%nat, (demo_kd GREEN "b1"). by repeat split.
Qed.

Definition returned_value {A} (o : outcome demo_dkn_t A) : option A := match o with Ret a _ => Some a | _ => None end.

(** The generator picks b0 first. *)
Lemma demo_draws_b0 m y n : (∀ f, (m < f)%nat → draw_until f demo_part1 is_green demo_b0_off = Ret y (with_draws n demo_b0_off)) → y = 0%nat.
Proof.
  intros Hd. specialize (Hd (S m) (Nat.lt_succ_diag_r m)). apply (f_equal returned_value) in Hd.
  assert (H0 : returned_value (draw_until (S m) demo_part1 is_green demo_b0_off) = Some 0%nat) by (vm_compute; reflexivity).
  rewrite H0 in Hd. injection Hd as <-. reflexivity.
Qed.

Lemma Get_survives_drive_failure_witness :
  ∃ fuel ds', dist_Get fuel (lit "/f") demo_b0_off = Ret (OK, Some (rec_ "F" "1")) ds' ∧
    drive_failed demo_b0_off ds' 1 demo_part1 0 (demo_kd GREEN "b0").
Proof.
  destruct (Get_survives_drive_failure demo_b0_off (lit "/f") 1 demo_part1 0 (demo_kd GREEN "b0") 1 (Some (rec_ "F" "1")))
    as (m & y & e & n & _ & _ & Hdraw & f & Hf).
  - apply demo_degraded.
  - split; [vm_compute; reflexivity|]. intros c Hc. vm_compute in Hc. injection Hc as <-. reflexivity.
  - vm_compute. discriminate.
  - vm_compute. reflexivity.
  - vm_compute. discriminate.
  - intros [|[|j]] d Hj Hjx _; [done| |done]. injection Hj as <-. vm_compute. reflexivity.
  - destruct (Hf f (le_n f)) as (ds' & Hrun & Hx & _). exists f, ds'. split; [exact Hrun|].
    apply Hx. exact (demo_draws_b0 m y n Hdraw).
Defined.

(** Both drives of a partition silent: the first read reports an error, the
    second one fails the last GREEN drive without success, the third hangs. *)
Definition demo_both_off : demo_dkn_t := switch "b1" false demo_b0_off.
Definition demo_no_green : demo_dkn_t := after (dist_Get 9 (lit "/f")) (after (dist_Get 9 (lit "/f")) demo_both_off).

Lemma read_without_green_hangs_witness :
  at_ (PMap 1) demo_no_green = Some (without_drive 1 (without_drive 0 demo_part1)) ∧
  ∀ fuel, ∃ ds', readOperation fuel (PMap 1) (read_get (lit "/f")) None demo_no_green = NoFuel ds'.
Proof.
  split; [vm_compute; reflexivity|].
  apply (read_without_green_hangs (PMap 1) (without_drive 1 (without_drive 0 demo_part1)) (read_get (lit "/f")) None demo_no_green).
  - vm_compute. reflexivity.
  - discriminate.
  - repeat constructor; discriminate.
Defined.

Lemma read_with_green_returns_witness :
  ∃ fuel ds', readOperation fuel (PMap 1) (read_get (lit "/f")) None demo_f = Ret (OK, Some (rec_ "F" "1")) ds'.
Proof.
  destruct (read_with_green_returns (PMap 1) demo_part1 (read_get (lit "/f")) (λ s, (drive_Get (lit "/f") s).1) None demo_f
    (demo_kd GREEN "b0")) as (f & Hf).
  - vm_compute. reflexivity.
  - left.
  - reflexivity.
  - intros e He _. apply list_elem_of_In in He. destruct He as [<-|[<-|[]]].
    + exists (3%nat, demo_addr "b0"). repeat split; vm_compute; reflexivity.
    + exists (4%nat, demo_addr "b1"). repeat split; vm_compute; reflexivity.
  - apply get_reads.
  - apply drive_Get_settled.
  - destruct (Hf f (le_n f)) as (e & ds' & He & _ & Hrun & _). exists f, ds'. rewrite Hrun. f_equal.
    apply list_elem_of_In in He. destruct He as [<-|[<-|[]]]; vm_compute; reflexivity.
Defined.

Lemma evaluateWriteOperation_acknowledges_witness :
  let ds' := after (evaluateWriteOperation 3 (PMap 1) [REMOTE_REMOTE_CONNECTION_ERROR; OK]) demo_b0_off in
  ∃ p, at_ (PMap 1) ds' = Some p ∧ p = without_drive 0 demo_part1 ∧
    ∀ j d, drives p !! j = Some d → kd_status d ≠ RED → [REMOTE_REMOTE_CONNECTION_ERROR; OK] !! j = Some OK.
Proof.
  intros ds'. destruct (evaluateWriteOperation_acknowledges 3 (PMap 1) [REMOTE_REMOTE_CONNECTION_ERROR; OK] demo_b0_off ds')
    as (p & Hp & _ & Hall).
  - apply result_of_Ret. vm_compute. reflexivity.
  - exists p. split; [exact Hp|]. split; [|exact Hall]. vm_compute in Hp. injection Hp as <-. reflexivity.
Defined.
