(* ===== verification/DistributedWrites.v ===== *)
(** * Writes while a drive fails

    A write that meets a silent drive fails the drive, succeeds on the others and
    is acknowledged; but it is not logged for the failed drive. *)
From S2P Require Import Prelude CppString Proto Kinetic Demo Drives Distributed DemoCluster DistributedFacts DistributedFailover.

Section Writes.
Context {W C Fl : Type} `{DistEnv W C Fl} `{!DrivesSpec W C} `{!DistEnvSpec W C Fl}.
Abbreviation DKN := (DistributedKineticNamespace W C Fl).
Implicit Types (ds : DKN) (p : Partition) (w : W).

(** ** The operation on every drive, reachable or not *)



Definition fails_offline (op : C → W → StatusCode * W) : Prop :=
  ∀ c w, drive_online obs (addr_of obs c) w = false → io_error (op c w).1 = true ∧ unchanged obs w (op c w).2.


Lemma delete_fails_offline k v m : fails_offline (λ c, @con_Delete _ (connection c) k v m).
Proof.
  intros c w Hoff. destruct (con_Delete _ _ _ _) as [st w'] eqn:E. apply law_Delete in E.
  destruct (drive_Delete _ _ _ _). by apply request_offline in E.
Qed.










(** ** Evaluating the results *)










(** ** A write with one silent drive *)









End Writes.

(** ** Concrete runs *)
#[local] Existing Instance cl_kinetic.
#[local] Existing Instance cl_spec.
#[local] Existing Instance demo_partition.
#[local] Existing Instance demo_dist.
#[local] Existing Instance demo_dist_spec.



Definition get_of (k : string) (ds : demo_dkn_t) : option (StatusCode * option KineticRecord) :=
  result_of (dist_Get 9 (lit k) ds).

(** A health check (the extended attribute of xattr.cc) with drive b0 back:
    [selfCheck] brings it into the
    write quorum and the synchronisation thread completes. *)
Definition recover (ds : demo_dkn_t) : demo_dkn_t := after (run_detached 9) (after (dist_selfCheck 9) (switch "b0" true ds)).

(** The update of [/f] that meets the silent drive b0. *)
Definition demo_updated : demo_dkn_t := after (dist_Put 9 (lit "/f") (lit "1") REQUIRE_SAME_VERSION (rec_ "G" "2")) demo_b0_off.

(** An acknowledged write is lost. The write that discovers a failed drive is
    not logged for it ([writeOperation] decides about logging before it looks at
    the results). Here the update of [/f] is acknowledged while b0 is silent; when
    b0 has been synchronised from the log and is GREEN again it still has the old
    record, and a read that is sent to b0 returns it. *)
Theorem recovery_loses_acknowledged_write :
  let ds := recover demo_updated in
  result_of (dist_Put 9 (lit "/f") (lit "1") REQUIRE_SAME_VERSION (rec_ "G" "2") demo_b0_off) = Some OK ∧
  (map kd_status ∘ drives) <$> cluster_map ds !! 1%nat = Some [GREEN; GREEN] ∧
  drive_store obs (demo_addr "b0") (world ds) !! lit "/f" = Some (rec_ "F" "1") ∧
  drive_store obs (demo_addr "b1") (world ds) !! lit "/f" = Some (rec_ "G" "2") ∧
  get_of "/f" ds = Some (OK, Some (rec_ "F" "1")).
Proof. vm_compute. repeat split. Qed.

(** [/f] and [/j] are stored, b0 is known to be silent; then [/f] is updated and
    [/j] deleted. *)
Definition demo_fj : demo_dkn_t :=
  let ds := after (dist_Put 9 (lit "/j") [] REQUIRE_SAME_VERSION (rec_ "J" "1")) demo_f in
  let ds := after (dist_Put 9 (lit "/x") [] REQUIRE_SAME_VERSION (rec_ "X" "1")) (switch "b0" false ds) in
  let ds := after (dist_Put 9 (lit "/f") (lit "1") REQUIRE_SAME_VERSION (rec_ "G" "2")) ds in
  after (dist_Delete 9 (lit "/j") (lit "1") REQUIRE_SAME_VERSION) ds.

(** Synchronisation resurrects deleted keys. [synchronizeDrive] uses one record
    pointer for all keys, and a [Get] that finds nothing leaves it as it is: after
    the repair of [/f], the deleted key [/j] is recreated on every drive with the
    record of [/f]. *)
Theorem recovery_resurrects_deleted_key :
  get_of "/j" demo_fj = Some (REMOTE_NOT_FOUND, None) ∧
  get_of "/j" (recover demo_fj) = Some (OK, Some (rec_ "G" "2")).
Proof. vm_compute. by split. Qed.

(** A delete that another client had only performed on b0 when it crashed. *)
Definition demo_partial_delete : demo_dkn_t :=
  with_world (set_store (demo_addr "b0") (delete (lit "/f") (dr_store (cl_drive (demo_addr "b0") (world demo_f)))) (world demo_f)) demo_f.

(** A partial delete is not repaired: repeating the delete fails the drive that has
    already performed it, because [evaluateWriteOperation] takes "not found" for an
    I/O error. *)
Example partial_delete_fails_drive :
  let r := dist_Delete 9 (lit "/f") (lit "1") REQUIRE_SAME_VERSION demo_partial_delete in
  result_of r = Some OK ∧
  (map kd_status ∘ drives) <$> cluster_map (state_after r demo_partial_delete) !! 1%nat = Some [RED; GREEN].
Proof. vm_compute. by split. Qed.

(** A write to a drive that cannot be connected to dereferences a null pointer. *)
Example write_without_connection_undefined :
  match dist_Put 9 (lit "/f") [] REQUIRE_SAME_VERSION (rec_ "F" "1")
          (with_connection_map (delete (demo_addr "b0") (connection_map demo_b0_off)) demo_b0_off) with
  | Undef _ => True
  | _ => False
  end.
Proof. vm_compute. exact I. Qed.
