(* ===== verification/DistributedRepair.v ===== *)
(** * Read repair and partition updates

    [readRepair] makes every drive in service hold what the first GREEN drive holds
    under a key. [getPartitionUpdate] never adopts a newer state of a partition
    when successful statuses carry no expected cluster version. *)
From S2P Require Import Prelude CppString Proto Kinetic Demo Drives Distributed DemoCluster DistributedFacts DistributedFailover.

Section Repair.
Context {W C Fl : Type} `{DistEnv W C Fl} `{!DrivesSpec W C} `{!DistEnvSpec W C Fl}.
Abbreviation DKN := (DistributedKineticNamespace W C Fl).
Implicit Types (ds : DKN) (p : Partition) (w : W).

(** What a drive holds after the repair of [key] with reference [o]. *)
Definition enforce (key : cstr) (o : option KineticRecord) (s : store) : store :=
  match o with Some x => <[key := x]> s | None => delete key s end.

(** Equal versions mean equal records. *)
Definition same_version_same_record (o a : option KineticRecord) : Prop :=
  ∀ x y, o = Some x → a = Some y → kr_version x = kr_version y → x = y.

Lemma enforce_id key o s : s !! key = o → enforce key o s = s.
Proof. intros E. destruct o; cbn; [by apply insert_id|by apply delete_id]. Qed.

Lemma unchanged_only_store a w w' : unchanged obs w w' → only_store obs a (drive_store obs a w) w w'.
Proof. intros []. split; auto. intros b. case_decide; by subst. Qed.

Lemma getversion_ready c key w : ready c w →
  (@con_GetVersion _ (connection c) key w).1 = (drive_GetVersion key (drive_store obs (addr_of obs c) w)).1 ∧
  unchanged obs w (@con_GetVersion _ (connection c) key w).2.
Proof.
  intros Hr. destruct (con_GetVersion key w) as [[st r] w'] eqn:E. apply law_GetVersion in E. by apply request_ready in E.
Qed.

Lemma only_store_after_read a s w w1 w2 :
  unchanged obs w w1 → only_store obs a s w1 w2 → only_store obs a s w w2.
Proof. intros [H1 H2 H3 H4] [H1' H2' H3' H4']. split; intros; try congruence. by rewrite H1', H1. Qed.

(** The repair of one drive. *)
Lemma readRepair_step p key o index i n d ds :
  drives p !! i = Some d → is_red d = false → connected d ds →
  same_version_same_record o (drive_store obs (drive_key d) (world ds) !! key) →
  ∃ w1, readRepair_loop p key o index i (S n) ds = readRepair_loop p key o index (S i) n (with_world w1 ds) ∧
    only_store obs (drive_key d) (enforce key o (drive_store obs (drive_key d) (world ds))) (world ds) w1.
Proof.
  intros Hi Hr Hc Hsame. destruct (driveToConnection_connected p i d ds Hi Hc) as (c & _ & Ha & Hrd & Hrun).
  destruct (getversion_ready c key (world ds) Hrd) as [Hv Hu]. rewrite Ha in Hv.
  cbn [readRepair_loop]. step_by (drive_at_run p i d ds Hi). rewrite Hr. step_by Hrun. unfold nonnull. rewrite mbind_ret_l.
  unfold call. destruct (con_GetVersion key (world ds)) as [[st ver] w1] eqn:Egv. cbn [fst snd] in Hv, Hu.
  unfold mbind_ at 1. rewrite Egv. cbn [fst snd]. set (s := drive_store obs (drive_key d) (world ds)) in *.
  pose proof (unchanged_ready c _ _ Hu Hrd) as Hrd1.
  assert (Hs1 : drive_store obs (addr_of obs c) w1 = s) by (rewrite Ha; apply Hu).
  unfold drive_GetVersion in Hv. destruct (s !! key) as [y|] eqn:Ey; cbn in Hv; injection Hv as -> ->; cbn [is_ok negb andb default from_option id].
  - destruct o as [x|].
    + destruct (bool_decide (kr_version y = kr_version x)) eqn:Ev; cbn [andb].
      * exists w1. split; [done|]. apply bool_decide_eq_true in Ev. assert (x = y) as <- by (by apply Hsame).
        rewrite enforce_id by done. by apply unchanged_only_store.
      * destruct (put_performs key (kr_version y) REQUIRE_SAME_VERSION x c w1 Hrd1) as [Hst Hw]. rewrite Hs1, put_cell_run, Ey in Hst, Hw.
        unfold put_cell in Hst, Hw. rewrite bool_decide_true in Hst, Hw by done. cbn [fst snd is_ok] in Hst, Hw. rewrite Ha in Hw.
        unfold mbind_ at 1. cbn [world with_world]. destruct (con_Put _ _ _ _ w1) as [st2 w2]. cbn [fst snd] in *. subst st2.
        exists w2. split; [done|]. by eapply only_store_after_read.
    + destruct (delete_performs key (kr_version y) REQUIRE_SAME_VERSION c w1 Hrd1) as [Hst Hw]. rewrite Hs1, delete_cell_run, Ey in Hst, Hw.
      unfold delete_cell in Hst, Hw. rewrite bool_decide_true in Hst, Hw by done. cbn [fst snd is_ok] in Hst, Hw. rewrite Ha in Hw.
      unfold mbind_ at 1. cbn [world with_world]. destruct (con_Delete _ _ _ w1) as [st2 w2]. cbn [fst snd] in *. subst st2.
      exists w2. split; [done|]. by eapply only_store_after_read.
  - rewrite (bool_decide_true (REMOTE_NOT_FOUND = REMOTE_NOT_FOUND)) by done. cbn [negb]. destruct o as [x|].
    + destruct (put_performs key [] REQUIRE_SAME_VERSION x c w1 Hrd1) as [Hst Hw]. rewrite Hs1, put_cell_run, Ey in Hst, Hw.
      unfold put_cell in Hst, Hw. rewrite bool_decide_true in Hst, Hw by done. cbn [fst snd is_ok] in Hst, Hw. rewrite Ha in Hw.
      unfold mbind_ at 1. cbn [world with_world]. destruct (con_Put _ _ _ _ w1) as [st2 w2]. cbn [fst snd] in *. subst st2.
      exists w2. split; [done|]. by eapply only_store_after_read.
    + exists w1. split; [done|]. rewrite enforce_id by done. by apply unchanged_only_store.
Qed.

Lemma readRepair_loop_run p key o index l : ∀ i ds,
  drop i (drives p) = l → NoDup (in_service l) →
  Forall (λ d, is_red d = false → connected d ds ∧
    same_version_same_record o (drive_store obs (drive_key d) (world ds) !! key)) l →
  ∃ w', readRepair_loop p key o index i (length l) ds = Ret OK (with_world w' ds) ∧
    stores_updated (λ s, (OK, enforce key o s)) (in_service l) (world ds) w'.
Proof.
  induction l as [|d l IH]; intros i ds Hl Hnd Hall; cbn [length].
  { exists (world ds). rewrite with_world_same. split; [done|]. by split. }
  apply drop_cons_inv in Hl as [Hi Hl]. apply Forall_cons in Hall as [Hd Hall].
  unfold in_service in *. cbn [List.filter] in *. destruct (is_red d) eqn:Hr; cbn [negb] in *.
  { destruct (IH (S i) ds Hl Hnd Hall) as (w' & Hrun & Hu). exists w'. split; [|done].
    cbn [readRepair_loop]. step_by (drive_at_run p i d ds Hi). by rewrite Hr. }
  destruct (Hd eq_refl) as [Hc Hsame]. cbn [map] in *. apply NoDup_cons in Hnd as [Hnotin Hnd].
  destruct (readRepair_step p key o index i (length l) d ds Hi Hr Hc Hsame) as (w1 & -> & Hw1).
  destruct (IH (S i) (with_world w1 ds) Hl Hnd) as (w' & Hrun & Hu).
  { rewrite Forall_forall in Hall |- *. intros e He Hre. destruct (Hall e He Hre) as [Hce Hse]. split.
    - apply connected_with_world; [|done]. intros c. by eapply only_store_ready.
    - cbn. rewrite (os_store _ _ _ _ _ Hw1), decide_False; [done|]. intros E. apply Hnotin. rewrite <- E.
      by apply elem_in_service. }
  exists w'. split; [done|]. eapply stores_updated_cons; [done|exact Hw1|exact Hu].
Qed.

(** Read repair converges. With every drive in service reachable, and equal
    versions meaning equal records, [readRepair] returns OK with the record of the
    first GREEN drive (or none), and afterwards every drive in service holds
    exactly that under the key; nothing else changes. *)
Theorem readRepair_converges ds key p g dg :
  cluster_map ds !! key_index ds key = Some p → direntry_clustersize ds ≠ 0 →
  first_green (drives p) = Some g → drives p !! g = Some dg → NoDup (map drive_key (drives p)) →
  (∀ d, d ∈ drives p → is_red d = false → connected d ds ∧
     same_version_same_record (drive_store obs (drive_key dg) (world ds) !! key) (drive_store obs (drive_key d) (world ds) !! key)) →
  ∃ w', let o := drive_store obs (drive_key dg) (world ds) !! key in
    readRepair key None ds = Ret (OK, o) (with_world w' ds) ∧
    (∀ d, d ∈ drives p → is_red d = false → drive_store obs (drive_key d) w' !! key = o) ∧
    (∀ a k, k ≠ key → drive_store obs a w' !! k = drive_store obs a (world ds) !! k).
Proof.
  intros Hp Hcs Hfg Hg Hnd Hall. assert (Hm : cluster_map ds ≠ []) by (intros E; by rewrite E in Hp).
  destruct (first_green_lookup _ _ Hfg) as (d0 & Hd0 & Hgr). assert (d0 = dg) as -> by congruence.
  assert (Hgin : dg ∈ drives p) by eauto using list_elem_of_lookup_2.
  destruct (Hall dg Hgin (green_not_red _ Hgr)) as [Hgc _].
  destruct (driveToConnection_connected p g dg ds Hg Hgc) as (c & _ & Ha & Hrd & Hrun).
  destruct (get_reads key c (world ds) Hrd) as [Hv Hu]. rewrite Ha, drive_Get_found in Hv.
  set (o := drive_store obs (drive_key dg) (world ds) !! key) in *.
  destruct (con_Get key (world ds)) as [[st r] w1] eqn:Eget. unfold deliver in Hv, Hu. cbn [fst snd] in Hv, Hu.
  destruct (readRepair_loop_run p key o g (drives p) 0 (with_world w1 ds) (drop_0 _) (in_service_nodup _ Hnd)) as (w' & Hloop & Hw').
  { apply Forall_forall. intros d Hd Hr. destruct (Hall d Hd Hr) as [Hc Hs]. split; [by apply connected_unchanged|].
    cbn. by rewrite (un_store _ _ _ Hu). }
  exists w'. cbn zeta. split; [|split].
  - unfold readRepair. step_by (keyToPartition_run key ds Hm Hcs). step_by (read_p_run (PMap (key_index ds key)) p ds Hp).
    rewrite Hfg. step_by Hrun. unfold nonnull. rewrite mbind_ret_l. unfold call. unfold mbind_ at 1. rewrite Eget. cbn [fst snd].
    destruct o as [x|]; cbn in Hv; injection Hv as -> Hr; [destruct r; simplify_eq|destruct r; [done|]]; cbn [is_ok negb andb].
    + by step_by Hloop.
    + rewrite (bool_decide_true (REMOTE_NOT_FOUND = REMOTE_NOT_FOUND)) by done. cbn [negb]. by step_by Hloop.
  - intros d Hd Hr. cbn in Hw'. rewrite (su_store _ _ _ _ Hw'), decide_True by (by apply elem_in_service).
    unfold enforce. destruct o; [apply lookup_insert_eq|apply lookup_delete_eq].
  - intros a k Hk. rewrite (su_store _ _ _ _ Hw'). cbn. rewrite (un_store _ _ _ Hu).
    case_decide; [|done]. unfold enforce. destruct o; [by rewrite lookup_insert_ne|by rewrite lookup_delete_ne].
Qed.
End Repair.

(** ** Adopting a newer state of a partition *)
Section Update.
Context {W C Fl : Type} `{DistEnv W C Fl}.
Abbreviation DKN := (DistributedKineticNamespace W C Fl).
Implicit Types (ds : DKN).

(** A status without error carries no expected cluster version. *)
Definition ok_expects_nothing : Prop :=
  (∀ c w w', @con_NoOp _ (connection c) w = (OK, w') → expected_cluster_version c w' = 0) ∧
  (∀ c k w r w', @con_Get _ (connection c) k w = (OK, r, w') → expected_cluster_version c w' = 0).

Lemma follow_expects_nothing c f : ok_expects_nothing → ∀ st rc ds r ds',
  (st = OK → expected_cluster_version c (world ds) = 0) →
  follow_cluster_version f c st rc ds = Ret r ds' → r.1 = OK → expected_cluster_version c (world ds') = 0.
Proof.
  intros [_ Hget]. induction f as [|f IH]; intros st rc ds r ds' Hst E Hr; [done|]. cbn [follow_cluster_version] in E.
  case_bool_decide as Hm; [|unfold mret_ in E; simplify_eq; by apply Hst].
  unfold gets_ in E. rewrite mbind_lam in E. unfold call in E. apply mbind_Ret_inv in E as (u & s1 & E1 & E).
  injection E1 as <- <-. apply mbind_Ret_inv in E as ([st2 r2] & s2 & E2 & E). cbn [world with_world fst snd] in *.
  destruct (con_Get _ _) as [[st3 r3] w3] eqn:Eg in E2. injection E2 as -> -> <-.
  eapply IH; [|exact E|done]. cbn. intros ->. by eapply Hget.
Qed.

(** No client ever adopts the state another client has stored. The result of
    the query is used only if its status carries an expected cluster version (an
    [if] whose statement is missing covers the next one). The client library sets
    that version on a mismatch only; then [getPartitionUpdate] returns false
    whenever it returns, whatever the drives hold. *)
Theorem getPartitionUpdate_never_adopts fuel pr ds b ds' :
  ok_expects_nothing → getPartitionUpdate fuel pr ds = Ret b ds' → b = false.
Proof.
  intros Hlib E. unfold getPartitionUpdate in E. apply mbind_Ret_inv in E as (p & s1 & _ & E).
  destruct (negb _); [unfold mret_ in E; congruence|]. revert E. generalize O as i. generalize (length (drives p)) as n.
  intros n. revert s1. induction n as [|n IH]; intros s i E; cbn [getPartitionUpdate_loop] in E; [unfold mret_ in E; congruence|].
  apply mbind_Ret_inv in E as (q & s2 & _ & E). apply mbind_Ret_inv in E as (d & s3 & _ & E).
  destruct (is_red d); [by eapply IH|]. apply mbind_Ret_inv in E as (con & s4 & _ & E).
  destruct con as [c|]; [|by eapply IH]. apply mbind_Ret_inv in E as (st & s5 & Hno & E).
  apply mbind_Ret_inv in E as ([st' rc] & s6 & Hf & E). unfold gets_ in E. rewrite mbind_lam in E. cbn [fst snd] in E.
  destruct (negb _) eqn:Ex; [|by eapply IH]. destruct (is_ok st') eqn:Hok; [|by eapply IH].
  exfalso. apply negb_true_iff, Z.eqb_neq in Ex. apply Ex. eapply (follow_expects_nothing c fuel Hlib); [|exact Hf|by destruct st'].
  intros ->. unfold call in Hno. destruct (con_NoOp (world s4)) as [st5 w5] eqn:En. injection Hno as -> <-.
  by eapply (proj1 Hlib).
Qed.
End Update.

(** ** Concrete runs *)
#[local] Existing Instance cl_kinetic.
#[local] Existing Instance cl_spec.
#[local] Existing Instance demo_partition.
#[local] Existing Instance demo_dist.
#[local] Existing Instance demo_dist_spec.

(** A second client that still has the first state of the partition. *)
Definition demo_second_client : demo_dkn_t :=
  with_world (world (after (disableDrive 3 (PMap 1) 0) demo_b0_off)) demo_b0_off.

Lemma demo_expects_nothing : ok_expects_nothing (W := cluster) (C := conn) (Fl := Z).
Proof.
  split.
  - intros c w w'. cbn. unfold cl_request. repeat case_match; intros; simplify_eq; done.
  - intros c k w r w'. cbn. unfold cl_request. repeat case_match; intros; simplify_eq; done.
Qed.

(** The newer state is on drive b1 and the second client is refused there, but it
    does not adopt it. *)
Lemma getPartitionUpdate_never_adopts_witness :
  is_Some (drive_store obs (demo_addr "b1") (world demo_second_client) !! lit "clusterversion_1") ∧
  ∃ ds', getPartitionUpdate 5 (PMap 1) demo_second_client = Ret false ds'.
Proof.
  split; [eexists; vm_compute; reflexivity|].
  destruct (getPartitionUpdate 5 (PMap 1) demo_second_client) as [b ds'| | | | | |] eqn:E;
    try (exfalso; apply (f_equal result_of) in E; vm_compute in E; discriminate E).
  exists ds'. rewrite (getPartitionUpdate_never_adopts 5 (PMap 1) demo_second_client b ds' demo_expects_nothing E). reflexivity.
Defined.

(** b0 missed an update of [/f] and is brought in line by read repair. *)
Definition demo_stale : demo_dkn_t :=
  with_world (set_store (demo_addr "b1") (<[lit "/f" := rec_ "G" "2"]> (dr_store (cl_drive (demo_addr "b1") (world demo_f))))
               (world demo_f)) demo_f.

Lemma readRepair_converges_witness :
  ∃ w', readRepair (lit "/f") None demo_stale = Ret (OK, Some (rec_ "F" "1")) (with_world w' demo_stale) ∧
    drive_store obs (demo_addr "b1") w' !! lit "/f" = Some (rec_ "F" "1").
Proof.
  destruct (readRepair_converges demo_stale (lit "/f") demo_part1 0 (demo_kd GREEN "b0")) as (w' & Hrun & Hall & _).
  - vm_compute. reflexivity.
  - vm_compute. discriminate.
  - reflexivity.
  - reflexivity.
  - apply (bool_decide_unpack _). vm_compute. exact I.
  - intros d Hd _. apply list_elem_of_In in Hd. destruct Hd as [<-|[<-|[]]].
    + split; [exists (3%nat, demo_addr "b0"); repeat split; vm_compute; reflexivity|]. intros x y Hx Hy _. congruence.
    + split; [exists (4%nat, demo_addr "b1"); repeat split; vm_compute; reflexivity|].
      intros x y Hx Hy. vm_compute in Hx, Hy. injection Hx as <-. injection Hy as <-. discriminate.
  - exists w'. split; [exact Hrun|]. apply (Hall (demo_kd GREEN "b1")); [right; left|reflexivity].
Defined.
