(* ===== verification/Replicated.v ===== *)
(** * The replicated namespace behind the namespace interface

    A healthy cluster is an instance of {!KineticNamespace} that satisfies
    {!KineticNamespaceSpec} and {!KineticReliable}: what the other files prove of
    the file system over any such namespace holds over replicated drives. *)
From S2P Require Import Prelude CppString Proto PathMapDB PathMapLog LRUCache DataInfo MetadataInfo Kinetic KeyOrder FsState Demo Drives Distributed DemoCluster KineticHelper Util DatabaseFacts DistributedFacts DistributedRange DistributedFailover.

Section Replicated.
Context {W C Fl : Type} `{DistEnv W C Fl} `{!DrivesSpec W C} `{!DistEnvSpec W C Fl}.
Abbreviation DKN := (DistributedKineticNamespace W C Fl).
Implicit Types (ds : DKN) (p : Partition) (w : W).

(** ** The operations that do not address one key *)

Lemma GetKeyRange_loop_total f s e n m : ∀ ds keys i p,
  healthy ds → cluster_map ds !! i = Some p → local_partition ds = p →
  ∃ keys' ds', GetKeyRange_loop (S (S f)) s e n m keys ds = Ret (OK, keys') ds' ∧
    same_config ds ds' ∧ unchanged obs (world ds) (world ds').
Proof.
  induction m as [|m IH]; intros ds keys i p Hh Hp Hloc; cbn [GetKeyRange_loop].
  { exists keys, ds. split; [done|]. split; [done|apply unchanged_refl]. }
  destruct (readOperation_healthy f PLocal p _ _ [] ds ltac:(by cbn; rewrite Hloc)
    (h_some ds Hh _ p Hp) (h_green ds Hh _ p Hp) (h_conn ds Hh _ p Hp) (keyrange_reads s e n) ltac:(intros; by left))
    as (d & w' & Hd & Hu & Hrun).
  step_by Hrun. rewrite drive_GetKeyRange_run. cbn [fst snd is_ok negb].
  set (ds1 := with_world w' (with_draws (S (draws ds)) ds)) in *.
  destruct (healthy_unchanged ds ds1 Hh ltac:(done) Hu) as [Hh1 _].
  unfold gets_. rewrite !mbind_lam. change (cluster_map ds1) with (cluster_map ds).
  rewrite bool_decide_false by apply (h_map ds Hh).
  set (nx := wrap64 (partitionid (local_partition ds1) + 1)).
  destruct (lookup_lt_is_Some_2 (cluster_map ds) (part_at ds nx) (part_at_bound ds nx (h_map ds Hh))) as [q Hq].
  change (Z.to_nat (nx mod Z.of_nat (length (cluster_map ds)))) with (part_at ds nx). rewrite Hq.
  set (ds2 := with_local_partition q ds1).
  destruct (healthy_unchanged ds1 ds2 Hh1 ltac:(done) (unchanged_refl _)) as [Hh2 _].
  unfold modify_. rewrite mbind_lam. fold ds2.
  edestruct (IH ds2) as (keys' & ds' & Hrun' & Hc' & Hu'); [exact Hh2|exact Hq|reflexivity|].
  rewrite Hrun'. eexists _, ds'. split; [done|]. split; [by destruct Hc'|by eapply unchanged_trans; [exact Hu|]].
Qed.

Lemma dist_GetKeyRange_total n s e m ds : healthy ds →
  ∃ r ds', dist_GetKeyRange (S (S n)) s e m ds = Ret r ds' ∧ healthy ds' ∧ cluster_contents ds' = cluster_contents ds.
Proof.
  intros Hh. destruct (key_partition ds s (h_map ds Hh)) as [p Hp].
  unfold dist_GetKeyRange. step_by (keyToPartition_run s ds (h_map ds Hh) (h_cs ds Hh)).
  step_by (read_p_run (PMap (key_index ds s)) p ds Hp). unfold modify_, gets_. rewrite !mbind_lam.
  set (ds1 := with_local_partition p ds).
  destruct (healthy_unchanged ds ds1 Hh ltac:(done) (unchanged_refl _)) as [Hh1 Hcon1].
  destruct (GetKeyRange_loop_total n s e m (Z.to_nat (direntry_clustersize ds1)) ds1 [] (key_index ds s) p)
    as (keys & ds' & Hrun & Hc & Hu); [exact Hh1|exact Hp|done|].
  step_by Hrun. eexists _, ds'. split; [reflexivity|]. rewrite <- Hcon1. by apply healthy_unchanged.
Qed.

(** ** selfCheck *)

Lemma enable_drives_none pr p l : ∀ f i ds,
  at_ pr ds = Some p → drop i (drives p) = l → Forall (λ d, is_red d = false) l → (length l < f)%nat →
  enable_drives f pr i ds = Ret tt ds.
Proof.
  induction l as [|d l IH]; intros [|f] i ds Hp Hl Hall Hf; cbn in Hf; try lia; cbn [enable_drives];
    step_by (read_p_run pr p ds Hp).
  - assert (E : drives p !! i = None); [|by rewrite E]. apply lookup_ge_None.
    assert (Hlen : length (drop i (drives p)) = O) by (by rewrite Hl). rewrite length_drop in Hlen. lia.
  - apply drop_cons_inv in Hl as [Hi Hl]. apply Forall_cons in Hall as [Hd Hall]. rewrite Hi, Hd, mbind_ret_l.
    apply IH; auto. lia.
Qed.

Lemma testPartition_healthy ds i p : healthy ds → cluster_map ds !! i = Some p →
  ∃ w', testPartition p ds = Ret true (with_world w' ds) ∧ unchanged obs (world ds) w'.
Proof.
  intros Hh Hp. pose proof (h_green ds Hh i p Hp) as Hg. pose proof (h_conn ds Hh i p Hp) as Hc.
  destruct (decide (is_Some (partitionID p))) as [Hid|Hid].
  2: { exists (world ds). rewrite with_world_same. unfold testPartition, has_partitionid.
       rewrite bool_decide_false by done. split; [done|apply unchanged_refl]. }
  destruct (testPartition_loop_run p (drives p) 0 0 0 ds (drop_0 _)) as (w1 & Hrun & Hu1).
  { eapply Forall_impl; [exact Hc|]. auto. }
  assert (Hcg : count_green (drives p) = Z.of_nat (length (drives p)) ∧ count_yellow (drives p) = 0).
  { clear -Hg. induction Hg as [|d l Hd _ [IH1 IH2]]; [done|]. destruct (counts_cons d l) as [-> ->].
    unfold is_green, is_yellow. rewrite Hd. cbn [length]. rewrite IH1, IH2.
    rewrite bool_decide_true, bool_decide_false by done. lia. }
  destruct Hcg as [Hcg Hcy]. rewrite Hcg, Hcy in Hrun.
  assert (Hlen : 0 < Z.of_nat (length (drives p))) by (pose proof (h_some ds Hh i p Hp); destruct (drives p); [done|cbn; lia]).
  unfold testPartition, has_partitionid. rewrite bool_decide_true by done. cbn [negb]. step_by Hrun.
  destruct (logID p) as [l|] eqn:El.
  - destruct (h_log ds Hh i p l Hp El) as (n & ld & -> & Hld & Hlc).
    unfold gets_. rewrite mbind_assoc, mbind_lam. unfold as_index.
    rewrite (proj2 (Z.ltb_ge (Z.of_nat n) 0)) by lia. rewrite Nat2Z.id, mbind_assoc, mbind_ret_l.
    destruct (testConnection_run (log_partition ds) n ld (with_world w1 ds)) as (w2 & Ht & Hu2);
      [done|by apply connected_unchanged|].
    step_by Ht. cbn [negb]. rewrite (proj2 (Z.eqb_neq (0 + Z.of_nat (length (drives p))) 0)) by lia.
    unfold has_logid. rewrite El, bool_decide_true, andb_false_r by done.
    exists w2. split; [done|]. by eapply unchanged_trans.
  - rewrite mbind_ret_l. cbn [negb]. rewrite (proj2 (Z.eqb_neq (0 + Z.of_nat (length (drives p))) 0)) by lia.
    exists w1. split; [|done]. destruct (Z.eqb_spec (0 + Z.of_nat (length (drives p)) + (0 + 0)) 1) as [E|]; [|done].
    by rewrite (proj2 (Z.ltb_ge 1 (Z.of_nat (length (drives p))))) by lia.
Qed.

Lemma check_partition_healthy f ds i p : healthy ds → cluster_map ds !! i = Some p → (length (drives p) < f)%nat →
  ∃ w', check_partition f (PMap i) ds = Ret true (with_world w' ds) ∧ unchanged obs (world ds) w'.
Proof.
  intros Hh Hp Hf. destruct (testPartition_healthy ds i p Hh Hp) as (w' & Ht & Hu). exists w'. split; [|done].
  unfold check_partition.
  assert (He : enable_drives f (PMap i) 0 ds = Ret tt ds).
  { eapply (enable_drives_none (PMap i) p (drives p)); [done|done| |done].
    eapply Forall_impl; [exact (h_green ds Hh i p Hp)|apply green_not_red]. }
  step_by He. step_by (read_p_run (PMap i) p ds Hp). by step_by Ht.
Qed.

Fixpoint count_drives (ps : list Partition) : nat :=
  match ps with [] => O | p :: ps => (length (drives p) + count_drives ps)%nat end.
Definition check_fuel (ds : DKN) : nat := S (count_drives (log_partition ds :: cluster_map ds)).

Lemma count_drives_part ps i p : ps !! i = Some p → (length (drives p) <= count_drives ps)%nat.
Proof.
  revert i. induction ps as [|q ps IH]; intros [|i] Hp; cbn in *; [done..| |].
  - injection Hp as ->. lia.
  - specialize (IH i Hp). lia.
Qed.

Lemma check_fuel_part ds i p : cluster_map ds !! i = Some p → (length (drives p) < check_fuel ds)%nat.
Proof. intros Hp%count_drives_part. unfold check_fuel. cbn. lia. Qed.

Lemma check_partitions_healthy m : ∀ f i ds, healthy ds → (check_fuel ds <= f)%nat →
  (i + m = length (cluster_map ds))%nat →
  ∃ w', check_partitions f i m ds = Ret true (with_world w' ds) ∧ unchanged obs (world ds) w'.
Proof.
  induction m as [|m IH]; intros f i ds Hh Hf Hi; cbn [check_partitions].
  - exists (world ds). rewrite with_world_same. split; [|apply unchanged_refl]. unfold check_partition.
    assert (He : enable_drives f PLog 0 ds = Ret tt ds).
    { eapply (enable_drives_none PLog (log_partition ds) (drives (log_partition ds))); [done|done|apply (h_logup ds Hh)|].
      unfold check_fuel in Hf. cbn in Hf. lia. }
    step_by He. step_by (read_p_run PLog (log_partition ds) ds eq_refl). unfold testPartition, has_partitionid.
    rewrite (h_logpart ds Hh). done.
  - destruct (lookup_lt_is_Some_2 (cluster_map ds) i) as [p Hp]; [lia|].
    pose proof (check_fuel_part ds i p Hp). destruct (check_partition_healthy f ds i p Hh Hp) as (w1 & Hrun & Hu1); [lia|].
    step_by Hrun. destruct (healthy_unchanged ds (with_world w1 ds) Hh ltac:(done) Hu1) as [Hh1 _].
    destruct (IH f (S i) (with_world w1 ds) Hh1) as (w2 & Hrun2 & Hu2); [done|cbn; lia|].
    rewrite Hrun2. exists w2. split; [done|]. by eapply unchanged_trans.
Qed.

(** A healthy cluster passes its own check, and the check changes nothing. *)
Theorem selfCheck_accepts_healthy ds f : healthy ds → (check_fuel ds <= f)%nat →
  ∃ ds', dist_selfCheck f ds = Ret true ds' ∧ healthy ds' ∧ cluster_contents ds' = cluster_contents ds.
Proof.
  intros Hh Hf. destruct (check_partitions_healthy (length (cluster_map ds)) f 0 ds Hh Hf eq_refl) as (w' & Hrun & Hu).
  exists (with_world w' ds). unfold dist_selfCheck, gets_. rewrite mbind_lam. split; [done|].
  by apply (healthy_unchanged ds (with_world w' ds)).
Qed.

(** ** The namespace of a healthy cluster *)
Record replicated := mk_replicated { rep : DKN; rep_ok : healthy rep }.

(** [m] returns in every healthy state and keeps it healthy. *)
Definition stays_healthy {A} (m : DKN → outcome DKN A) (ds : DKN) : Prop :=
  ∃ a ds', m ds = Ret a ds' ∧ healthy ds'.

Lemma stays_healthy_Ret {A} m ds (a : A) ds' : stays_healthy m ds → m ds = Ret a ds' → healthy ds'.
Proof. intros (a0 & ds0 & E & Hh). rewrite E. by intros [= <- <-]. Qed.

(** Run [m]; the default is never used. *)
Definition finish {A} (dflt : A * replicated) (o : outcome DKN A) (Ho : ∀ a ds', o = Ret a ds' → healthy ds') : A * replicated :=
  match o as o' return (∀ a ds', o' = Ret a ds' → healthy ds') → A * replicated with
  | Ret a ds' => λ Ho, (a, mk_replicated ds' (Ho a ds' eq_refl))
  | _ => λ _, dflt
  end Ho.
Definition rep_run {A} (dflt : A) (m : DKN → outcome DKN A) (x : replicated) (Hm : stays_healthy m (rep x)) : A * replicated :=
  finish (dflt, x) (m (rep x)) (λ a ds', stays_healthy_Ret m (rep x) a ds' Hm).

Lemma finish_Ret {A} dflt o Ho (a : A) ds' : o = Ret a ds' → ∃ Hh, finish dflt o Ho = (a, mk_replicated ds' Hh).
Proof. intros E. revert Ho. rewrite E. intros Ho. by eexists. Qed.

Lemma rep_run_Ret {A} dflt m x Hm (a : A) ds' : m (rep x) = Ret a ds' →
  ∃ Hh, rep_run dflt m x Hm = (a, mk_replicated ds' Hh).
Proof. intros E. by apply finish_Ret. Qed.

Lemma stays_Get k ds : healthy ds → stays_healthy (dist_Get 2 k) ds.
Proof. intros Hh. destruct (dist_Get_healthy 0 k ds Hh) as (? & ? & ? & _). by eexists _, _. Qed.
Lemma stays_GetVersion k ds : healthy ds → stays_healthy (dist_GetVersion 2 k) ds.
Proof. intros Hh. destruct (dist_GetVersion_healthy 0 k ds Hh) as (? & ? & ? & _). by eexists _, _. Qed.
Lemma stays_Put k v m r ds : healthy ds → stays_healthy (dist_Put 2 k v m r) ds.
Proof. intros Hh. destruct (dist_Put_healthy 0 k v m r ds Hh) as (? & ? & ? & _). by eexists _, _. Qed.
Lemma stays_Delete k v m ds : healthy ds → stays_healthy (dist_Delete 2 k v m) ds.
Proof. intros Hh. destruct (dist_Delete_healthy 0 k v m ds Hh) as (? & ? & ? & _). by eexists _, _. Qed.
Lemma stays_GetKeyRange s e n ds : healthy ds → stays_healthy (dist_GetKeyRange 2 s e n) ds.
Proof. intros Hh. destruct (dist_GetKeyRange_total 0 s e n ds Hh) as (? & ? & ? & ? & _). by eexists _, _. Qed.
Lemma stays_selfCheck ds : healthy ds → stays_healthy (λ ds, dist_selfCheck (check_fuel ds) ds) ds.
Proof.
  intros Hh. destruct (check_partitions_healthy (length (cluster_map ds)) (check_fuel ds) 0 ds Hh (le_n _) eq_refl) as (w' & Hrun & Hu).
  exists true, (with_world w' ds). split; [done|]. by apply (healthy_unchanged ds (with_world w' ds)).
Qed.

#[local] Instance replicated_namespace : KineticNamespace replicated := {|
  Get k x := rep_run (OK, None) (dist_Get 2 k) x (stays_Get k _ (rep_ok x));
  Delete k v m x := rep_run OK (dist_Delete 2 k v m) x (stays_Delete k v m _ (rep_ok x));
  Put k v m r x := rep_run OK (dist_Put 2 k v m r) x (stays_Put k v m r _ (rep_ok x));
  GetVersion k x := rep_run (OK, None) (dist_GetVersion 2 k) x (stays_GetVersion k _ (rep_ok x));
  GetKeyRange s e n x := rep_run (OK, []) (dist_GetKeyRange 2 s e n) x (stays_GetKeyRange s e n _ (rep_ok x));
  selfCheck x := rep_run false (λ ds, dist_selfCheck (check_fuel ds) ds) x (stays_selfCheck _ (rep_ok x));
|}.

(** The calls are those of one drive holding the abstract store. *)
Definition rep_contents (x : replicated) : store := cluster_contents (rep x).

Lemma rep_Get k x : ∃ x', Get k x = ((drive_Get k (rep_contents x)).1, x') ∧ rep_contents x' = rep_contents x.
Proof.
  destruct (dist_Get_healthy 0 k (rep x) (rep_ok x)) as (ds' & Hrun & Hh & Hc).
  destruct (rep_run_Ret (OK, None) _ x (stays_Get k _ (rep_ok x)) _ _ Hrun) as [Hh' E]. by eexists.
Qed.

Lemma rep_GetVersion k x :
  ∃ x', GetVersion k x = ((drive_GetVersion k (rep_contents x)).1, x') ∧ rep_contents x' = rep_contents x.
Proof.
  destruct (dist_GetVersion_healthy 0 k (rep x) (rep_ok x)) as (ds' & Hrun & Hh & Hc).
  destruct (rep_run_Ret (OK, None) _ x (stays_GetVersion k _ (rep_ok x)) _ _ Hrun) as [Hh' E]. by eexists.
Qed.

Lemma rep_Put k v m r x : ∃ x', Put k v m r x = ((drive_Put k v m r (rep_contents x)).1, x') ∧
  rep_contents x' = (drive_Put k v m r (rep_contents x)).2.
Proof.
  destruct (dist_Put_healthy 0 k v m r (rep x) (rep_ok x)) as (ds' & Hrun & Hh & Hc).
  destruct (rep_run_Ret OK _ x (stays_Put k v m r _ (rep_ok x)) _ _ Hrun) as [Hh' E]. by eexists.
Qed.

Lemma rep_Delete k v m x : ∃ x', Delete k v m x = ((drive_Delete k v m (rep_contents x)).1, x') ∧
  rep_contents x' = (drive_Delete k v m (rep_contents x)).2.
Proof.
  destruct (dist_Delete_healthy 0 k v m (rep x) (rep_ok x)) as (ds' & Hrun & Hh & Hc).
  destruct (rep_run_Ret OK _ x (stays_Delete k v m _ (rep_ok x)) _ _ Hrun) as [Hh' E]. by eexists.
Qed.

(** The laws carry over from the in-memory drive. *)
#[local] Instance replicated_spec : KineticNamespaceSpec replicated.
Proof.
  exists rep_contents.
  - intros k w st r w' E. destruct (rep_Get k w) as (x' & E' & Hc). rewrite E' in E. injection E as E <-.
    rewrite Hc. apply (spec_Get (KineticSpec := drive_connection_spec) k (rep_contents w) st r (rep_contents w)).
    cbn. rewrite <- E. unfold drive_Get. by destruct (rep_contents w !! k).
  - intros k w st r w' E. destruct (rep_GetVersion k w) as (x' & E' & Hc). rewrite E' in E. injection E as E <-.
    rewrite Hc. apply (spec_GetVersion (KineticSpec := drive_connection_spec) k (rep_contents w) st r (rep_contents w)).
    cbn. rewrite <- E. unfold drive_GetVersion. by destruct (rep_contents w !! k).
  - intros k v mode rc w st w' E. destruct (rep_Put k v mode rc w) as (x' & E' & Hc). rewrite E' in E. injection E as <- <-.
    rewrite Hc. exact (spec_Put (KineticSpec := drive_connection_spec) k v mode rc (rep_contents w) _ _ (surjective_pairing _)).
  - intros k v mode w st w' E. destruct (rep_Delete k v mode w) as (x' & E' & Hc). rewrite E' in E. injection E as <- <-.
    rewrite Hc. exact (spec_Delete (KineticSpec := drive_connection_spec) k v mode (rep_contents w) _ _ (surjective_pairing _)).
Defined.

#[local] Instance replicated_reliable : KineticReliable replicated.
Proof.
  split.
  - intros k w. destruct (rep_Get k w) as (x' & -> & _). cbn [fst]. exact (@reliable_Get store _ _ drive_reliable k (rep_contents w)).
  - intros k w. destruct (rep_GetVersion k w) as (x' & -> & _). cbn [fst]. exact (@reliable_GetVersion store _ _ drive_reliable k (rep_contents w)).
  - intros k v mode rc w. destruct (rep_Put k v mode rc w) as (x' & -> & _). cbn [fst].
    exact (@reliable_Put store _ _ drive_reliable k v mode rc (rep_contents w)).
  - intros k v mode w. destruct (rep_Delete k v mode w) as (x' & -> & _). cbn [fst].
    exact (@reliable_Delete store _ _ drive_reliable k v mode (rep_contents w)).
Qed.

(** The log of path map changes over replicated drives. On a healthy cluster
    [database_operation] appends its entry to the log exactly once, also if other
    clients have appended meanwhile; the new log is the abstract store's, and every
    replica of the partition of the new entry's key holds it. *)
Theorem replicated_log_append `{!Env} `{!MessageSpec db_entry} f log (s : hflat_priv replicated) e db :
  log_on (rep_contents (kinetic s)) log → consistent log (pmap_ s) →
  Z.of_nat (length log) - snapshotVersion (pmap_ s) <= 42 → msg_wf e →
  Z.of_nat (length log) + 1 < 9223372036854775807 → replay (log ++ [e]) PathMapDB_new = Ret true db →
  ∃ s', database_operation (S (S f)) e s = Ret 0 s' ∧ log_on (rep_contents (kinetic s')) (log ++ [e]) ∧ pmap_ s' = db ∧
    let ds := rep (kinetic s') in let k := db_key (Z.of_nat (length log) + 1) in
    ∀ p d, cluster_map ds !! key_index ds k = Some p → d ∈ drives p →
      ∃ r, drive_store obs (drive_key d) (world ds) !! k = Some r ∧ ParseFromString (kr_value r) = Some e.
Proof.
  intros Hlog Hf Hlag Hwf Hlen Hdb.
  destruct (operation_run (KineticReliable0 := replicated_reliable) f log s e db Hlog Hf Hlag Hwf Hlen Hdb) as (w' & Hrun & Hlog' & _).
  set (s' := set_kinetic w' (set_pmap db s)) in *. exists s'. split; [done|]. split; [done|]. split; [done|]. cbn zeta. intros p d Hp Hd.
  destruct Hlog' as (Hent & _). destruct (Hent (length log) e) as (r & Hr & Hparse & _); [by rewrite lookup_app_r, Nat.sub_diag by lia|].
  exists r. split; [|done]. rewrite <- Hr. symmetry. by apply (contents_lookup _ _ p d (rep_ok (kinetic s'))).
Qed.
End Replicated.

(** ** A client over the demo cluster *)
#[local] Existing Instance cl_kinetic.
#[local] Existing Instance cl_spec.
#[local] Existing Instance demo_partition.
#[local] Existing Instance demo_dist.
#[local] Existing Instance demo_dist_spec.
#[local] Existing Instance demo_env.
#[local] Existing Instance demo_db_entry_spec.

Lemma selfCheck_accepts_healthy_witness :
  ∃ ds', dist_selfCheck 7 demo_state = Ret true ds' ∧ cluster_contents ds' = cluster_contents demo_state.
Proof.
  destruct (selfCheck_accepts_healthy demo_state 7 demo_healthy) as (ds' & Hrun & _ & Hc).
  - vm_compute. apply le_n.
  - exists ds'. split; [exact Hrun|exact Hc].
Defined.

Definition demo_replicated : replicated (W := cluster) (C := conn) (Fl := Z) := mk_replicated demo_state demo_healthy.

Lemma demo_replicated_empty : rep_contents demo_replicated = ∅.
Proof.
  unfold rep_contents, cluster_contents. cbn [rep demo_replicated]. generalize (cluster_map demo_state) as ps. generalize O as i.
  intros i ps. revert i. induction ps as [|p ps IH]; intros i; [done|]. cbn [contents_from].
  rewrite demo_head_empty, IH. by rewrite (right_id_L ∅ (∪)), map_filter_empty.
Qed.

Definition demo_replicated_mount : hflat_priv (replicated (W := cluster) (C := conn) (Fl := Z)) :=
  mk_hflat_priv demo_replicated (LRU_new 0 1000) (LRU_new 0 500) PathMapDB_new 1048576 TIMERELAXED 0 0 ∅ ∅ 1 0 0 0
    (mk_fuse_context 0 0).

Lemma replicated_log_append_witness :
  ∃ s', database_operation (KineticNamespace0 := replicated_namespace) 2 demo_move demo_replicated_mount = Ret 0 s' ∧
    log_on (rep_contents (kinetic s')) [demo_move] ∧ pmap_ s' = demo_db1.
Proof.
  destruct (replicated_log_append 0 [] demo_replicated_mount demo_move demo_db1) as (s' & H1 & H2 & H3 & _).
  - cbn [kinetic demo_replicated_mount]. rewrite demo_replicated_empty. exact log_on_empty.
  - exact (consistent_new []).
  - discriminate.
  - exact I.
  - reflexivity.
  - exact demo_replay.
  - exists s'. split; [exact H1|]. split; [exact H2|exact H3].
Defined.
