(* ===== verification/Mount.v ===== *)
(** * Mounting: the first half of [hflat_init] (src/main.cc) and the constructors
    it calls; and [hflat_statfs] (src/fuseops/attr.cc)

    From the configuration to the [hflat_priv] of the mount. The second half, which
    runs on that state, is {!File.hflat_init}. *)
From S2P Require Import Prelude CppString Proto PathMapDB LRUCache DataInfo MetadataInfo Kinetic FsState Drives Distributed Config.

(** The same outcome, seen from another state. *)
Definition outcome_map {S T A B} (f : S → T) (g : A → S → B) (o : outcome S A) : outcome T B :=
  match o with
  | Ret a s => Ret (g a s) (f s)
  | Exit s => Exit (f s)
  | AssertFail s => AssertFail (f s)
  | Throw s => Throw (f s)
  | Undef s => Undef (f s)
  | Blocked s => Blocked (f s)
  | NoFuel s => NoFuel (f s)
  end.

(** [catch(std::exception&)] with [REQ_TRUE(false)] in the handler. *)
Definition or_exit {S A} (m : M S A) : M S A := λ s, match m s with Throw s => Exit s | o => o end.

Section Mount.
Context {W C Fl : Type} `{!DistEnv W C Fl} {Cfg Setting : Type} `{!Libconfig Cfg Setting}.

(** ** The constructors of the namespaces *)
Inductive namespace :=
| NSimple (con : C)
| NDistributed (ds : DistributedKineticNamespace W C Fl).

(** [SimpleKineticNamespace::connect] *)
Definition simple_connect (host : cstr) (port : Z) : M W C := λ w,
  let '(con, w) := NewConnection host port w in
  match con with Some c => Ret c w | None => Throw w end.

Definition simple_default : M W C := simple_connect (lit "localhost") 8123.
Definition simple_of_drive (d : KineticDrive) : M W C := simple_connect (kd_host d) (kd_port d).

Definition new_distributed (fuel : nat) (c : configuration) : M W (DistributedKineticNamespace W C Fl) := λ w,
  outcome_map world (λ _ ds, ds)
    (DKN_construct fuel (DKN_init w (cfg_clustermap c) (cfg_logpartition c) (cfg_direntry_clustersize c))).

Definition new_namespace (fuel : nat) (c : configuration) : M W namespace :=
  match cfg_clustermap c with
  | [] => let! con := simple_default in mret_ (NSimple con)
  | p :: ps =>
    match drives p, ps with
    | [d], [] => let! con := simple_of_drive d in mret_ (NSimple con)
    | _, _ => let! ds := new_distributed fuel c in mret_ (NDistributed ds)
    end
  end.

(** ** hflat_init, up to the construction of [hflat_priv] *)
Definition init_configuration (filename : cstr) : M W configuration :=
  if bool_decide (filename = []) then mret_ default_configuration
  else λ w,
    match parse_configuration filename default_configuration tt with
    | Ret (cok, c) _ => (REQ_TRUE cok ;;; mret_ c) w
    | o => outcome_map (λ _, w) (λ r _, r.2) o
    end.

Definition init_namespace (fuel : nat) (filename : cstr) : M W (configuration * namespace) :=
  let! c := init_configuration filename in
  let! n := or_exit (new_namespace fuel c) in mret_ (c, n).

(** The constructor of [hflat_priv]; the last arguments are the caller of the
    request and how much of the inputs has been read. *)
Definition hflat_priv_new {K : Type} (kn : K) (cache_expiration_ms block_size_bytes : Z) (mode : PosixMode)
    (caller : fuse_context) : hflat_priv K :=
  mk_hflat_priv kn (LRU_new cache_expiration_ms 1000) (LRU_new cache_expiration_ms 500) PathMapDB_new
    block_size_bytes mode 0 0 ∅ ∅ 1 0 0 0 caller.

Definition init_priv {K : Type} (kn : K) (c : configuration) (caller : fuse_context) : hflat_priv K :=
  hflat_priv_new kn (cfg_cache_expiration_ms c) (1024 * 1024) (cfg_pmode c) caller.

(** The drives behind a connection, as the one-drive namespace. *)
Definition simple_namespace (con : C) : KineticNamespace W := @SimpleKineticNamespace W (connection con).

Definition simple_GetCapacity (con : C) (w : W) : (StatusCode * option (Z * Fl)) * W :=
  let '(st, cap, w) := GetLog_capacity con w in (st, if is_ok st then Some cap else None, w).
End Mount.

(** ** statfs *)

(** [float] arithmetic; [float_to_u64] has no value outside the range of the type. *)
Class Float (Fl : Type) := {
  float_of_u64 : Z → Fl;
  fmul : Fl → Fl → Fl;
  fsub : Fl → Fl → Fl;
  fdiv : Fl → Fl → Fl;
  float_to_u64 : Fl → option Z;
}.

Record statvfs := mk_statvfs {
  f_frsize : Z; f_bsize : Z; f_blocks : Z; f_bavail : Z; f_bfree : Z; f_namemax : Z; f_files : Z; f_ffree : Z;
}.

Section Statfs.
Context {W Fl : Type} `{!Float Fl} (GetCapacity : W → (StatusCode * option (Z * Fl)) * W).

(** The statistics for a capacity. Signed values become unsigned. *)
Definition statvfs_of (nominal : Z) (full : Fl) : M (hflat_priv W) statvfs := λ s,
  let f_frsize := 4096 in
  let n := float_of_u64 nominal in
  match float_to_u64 (fdiv (fsub n (fmul n full)) (float_of_u64 f_frsize)) with
  | None => Undef s
  | Some bavail =>
    Ret (mk_statvfs f_frsize (wrap64 (blocksize s)) (nominal / f_frsize) bavail bavail NAME_MAX
           (wrap64 (inum_base s + inum_counter s)) 65535) s
  end.

(** A namespace that reports success without a capacity leaves [cap] indeterminate. *)
Definition hflat_statfs (user_path : cstr) : M (hflat_priv W) (Z * option statvfs) := λ s,
  let '(st, cap, w) := GetCapacity (kinetic s) in
  let s := set_kinetic w s in
  if negb (is_ok st) then Ret (- EIO, None) s
  else match cap with
       | None => Undef s
       | Some (nominal, full) => (let! x := statvfs_of nominal full in mret_ (0, Some x)) s
       end.
End Statfs.
