(* ===== verification/MountFacts.v ===== *)
(** * Properties of mounting *)
From S2P Require Import Prelude CppString Proto PathMapDB LRUCache DataInfo MetadataInfo Kinetic FsState Drives Distributed DemoCluster Config ConfigFacts Mount.

(** ** One drive keeps the promises of the namespace interface *)
Section Simple.
Context {W C Fl : Type} `{!DistEnv W C Fl} `{!DrivesSpec W C}.
Implicit Types (w : W) (c : C).

Definition drive_contents c w : store := drive_store obs (addr_of obs c) w.

(** A request that has not reached the drive reports neither success nor one of
    the codes a drive answers with, and changes nothing. *)
Lemma request_missed c w st w' reached : request obs _ c w st w' reached →
  reached ∨ st ≠ OK ∧ st ≠ REMOTE_NOT_FOUND ∧ st ≠ REMOTE_VERSION_MISMATCH ∧ drive_contents c w' = drive_contents c w.
Proof.
  unfold request, drive_contents. destruct (negb _).
  - intros [Hio Hu]. right. rewrite (un_store _ _ _ Hu). by destruct st.
  - case_decide; [by left|]. intros (-> & Hu & _). right. by rewrite (un_store _ _ _ Hu).
Qed.

Lemma only_store_contents c s w w' : only_store obs (addr_of obs c) s w w' → drive_contents c w' = s.
Proof. intros Ho. unfold drive_contents. by rewrite (os_store _ _ _ _ _ Ho), decide_True. Qed.

(** The namespace over one drive meets the contract of the namespace interface:
    whether the drive answers, is unreachable or refuses the cluster version, reads
    are truthful, a write that reports success was a successful test-and-set on the
    stored version, and a reported mismatch or missing key is one. Everything proved
    over that interface therefore holds of a one-drive mount. *)
Theorem simple_namespace_keeps_contract c :
  ∃ spec : @KineticNamespaceSpec W (simple_namespace c),
    ∀ w, @contents _ _ _ _ _ spec w = drive_store obs (addr_of obs c) w.
Proof.
  unshelve eexists; [unshelve esplit; [exact (drive_contents c)|..]|done].
  - intros k w st r w' Hg. apply law_Get, request_missed in Hg as [[Hg Hu]|(? & ? & ? & ->)]; [|done].
    assert (drive_contents c w' = drive_contents c w) as -> by apply (un_store _ _ _ Hu). split; [done|].
    fold (drive_contents c w) in Hg. unfold drive_Get in Hg. destruct (drive_contents c w !! k); injection Hg as -> ->; naive_solver.
  - intros k w st r w' Hg. apply law_GetVersion, request_missed in Hg as [[Hg Hu]|(? & ? & ? & ->)]; [|done].
    assert (drive_contents c w' = drive_contents c w) as -> by apply (un_store _ _ _ Hu). split; [done|].
    fold (drive_contents c w) in Hg. unfold drive_GetVersion in Hg. destruct (drive_contents c w !! k); injection Hg as -> ->; naive_solver.
  - intros k v mode x w st w' Hp. apply law_Put in Hp. unfold drive_Put in Hp. fold (drive_contents c w) in Hp.
    case_decide; apply request_missed in Hp as [[-> Ho%only_store_contents]|(? & ? & ? & ->)]; naive_solver.
  - intros k v mode w st w' Hp. apply law_Delete in Hp. unfold drive_Delete in Hp. fold (drive_contents c w) in Hp.
    destruct (drive_contents c w !! k) eqn:Hk; [case_decide|];
      apply request_missed in Hp as [[-> Ho%only_store_contents]|(? & ? & ? & ->)]; naive_solver.
Qed.
End Simple.

(** ** Which namespace a configuration gets *)
Section Choose.
Context {W C Fl : Type} `{!DistEnv W C Fl} `{!DrivesSpec W C} {Cfg Setting : Type} `{!Libconfig Cfg Setting}.
Implicit Types (w : W) (c : configuration).

(** The mount uses the one drive at [a] if it is online, and exits if it is not. *)
Definition uses_drive (a : addr) c w (o : outcome W (configuration * @namespace W C Fl)) : Prop :=
  if drive_online obs a w
  then ∃ con w', o = Ret (c, NSimple con) w' ∧ addr_of obs con = a ∧ ∀ b, drive_store obs b w' = drive_store obs b w
  else ∃ w', o = Exit w' ∧ unchanged obs w w'.

Lemma simple_connect_uses h p c w :
  uses_drive (h, p) c w ((let! n := or_exit (let! con := simple_connect h p in mret_ (NSimple con)) in mret_ (c, n)) w).
Proof.
  unfold uses_drive, or_exit, simple_connect, mbind_. destruct (NewConnection h p w) as [r w'] eqn:Hc.
  destruct (law_connect h p w r w' Hc) as [Hoff Hon]. destruct (drive_online obs (h, p) w) eqn:Ho.
  - destruct (Hon eq_refl) as (con & -> & Ha & _ & Hs & _). by exists con, w'.
  - destruct (Hoff eq_refl) as [-> Hu]. by exists w'.
Qed.

(** C37: mounting picks the namespace from the configuration and never lets an
    exception through. Without partitions it is the drive at localhost:8123, with
    one partition of one drive it is that drive; if the drive cannot be connected
    the process exits and nothing has changed. Any other cluster map goes to the
    distributed namespace, and its refusal to start ends the process too. *)
Theorem init_namespace_chooses fuel filename w c : init_configuration filename w = Ret c w →
  match cfg_clustermap c with
  | [] => uses_drive (lit "localhost", 8123) c w (init_namespace fuel filename w)
  | [mk_Partition _ _ [d] _] => uses_drive (drive_key d) c w (init_namespace fuel filename w)
  | _ => init_namespace fuel filename w =
           match DKN_construct fuel (DKN_init w (cfg_clustermap c) (cfg_logpartition c) (cfg_direntry_clustersize c)) with
           | Ret _ ds => Ret (c, NDistributed ds) (world ds)
           | Exit ds | Throw ds => Exit (world ds)
           | AssertFail ds => AssertFail (world ds)
           | Undef ds => Undef (world ds)
           | Blocked ds => Blocked (world ds)
           | NoFuel ds => NoFuel (world ds)
           end
  end.
Proof.
  intros Hc. unfold init_namespace. rewrite (mbind_Ret _ _ _ _ _ Hc). unfold new_namespace, simple_default, simple_of_drive.
  assert (Hdist : (let! n := or_exit (let! ds := new_distributed fuel c in mret_ (NDistributed ds)) in mret_ (c, n)) w =
    match DKN_construct fuel (DKN_init w (cfg_clustermap c) (cfg_logpartition c) (cfg_direntry_clustersize c)) with
    | Ret _ ds => Ret (c, NDistributed ds) (world ds)
    | Exit ds | Throw ds => Exit (world ds)
    | AssertFail ds => AssertFail (world ds)
    | Undef ds => Undef (world ds)
    | Blocked ds => Blocked (world ds)
    | NoFuel ds => NoFuel (world ds)
    end) by (unfold or_exit, new_distributed, mbind_, mret_; by destruct (DKN_construct _ _)).
  destruct (cfg_clustermap c) as [|[v i [|d [|d' ds]] l] [|p' ps]]; cbn [drives]; try exact Hdist; apply simple_connect_uses.
Qed.
End Choose.

#[local] Existing Instance cl_kinetic.
#[local] Existing Instance cl_spec.
#[local] Existing Instance demo_partition.
#[local] Existing Instance demo_dist.
#[local] Existing Instance demo_libconfig.

Lemma simple_namespace_keeps_contract_witness :
  ∃ spec : @KineticNamespaceSpec cluster (simple_namespace (W := cluster) (C := conn) (Fl := Z) (0%nat, demo_addr "a0")),
    ∀ w, @contents _ _ _ _ _ spec w = drive_store obs (demo_addr "a0") w.
Proof. exact (simple_namespace_keeps_contract (W := cluster) (C := conn) (Fl := Z) (0%nat, demo_addr "a0")). Defined.

(** A drive on the local host. *)
Definition demo_local : cluster := mk_cluster {[(lit "localhost", 8123) := fresh_drive]} ∅ 0 0.

Lemma init_namespace_chooses_witness :
  drive_online obs (lit "localhost", 8123) demo_local = true ∧
  uses_drive (W := cluster) (C := conn) (Fl := Z) (lit "localhost", 8123) default_configuration demo_local (init_namespace 5 [] demo_local).
Proof. split; [reflexivity|]. apply (init_namespace_chooses 5 [] demo_local default_configuration). reflexivity. Defined.

(** ** statfs *)
Section Statfs.
Context {W Fl : Type} `{!Float Fl} (GetCapacity : W → (StatusCode * option (Z * Fl)) * W).

(** [statfs] on a drive that reports its capacity counts the whole blocks of
    4096 bytes that fit, and leaves the mount as it is apart from the namespace;
    without a capacity it is an I/O error. *)
Theorem statfs_counts_blocks path (s : hflat_priv W) st cap w' : GetCapacity (kinetic s) = (st, cap, w') →
  (st ≠ OK → hflat_statfs GetCapacity path s = Ret (- EIO, None) (set_kinetic w' s)) ∧
  (st = OK → ∀ nominal full bavail, cap = Some (nominal, full) → 
     float_to_u64 (fdiv (fsub (float_of_u64 nominal) (fmul (float_of_u64 nominal) full)) (float_of_u64 4096)) = Some bavail →
     ∃ x, hflat_statfs GetCapacity path s = Ret (0, Some x) (set_kinetic w' s) ∧
       f_blocks x * f_frsize x <= nominal < (f_blocks x + 1) * f_frsize x ∧ f_bavail x = bavail ∧ f_bfree x = bavail).
Proof.
  intros Hc. unfold hflat_statfs. rewrite Hc. split.
  - intros Hst. assert (is_ok st = false) as -> by (by destruct st). done.
  - intros -> nominal full bavail -> Hf. cbn [is_ok negb]. unfold statvfs_of, mbind_. rewrite Hf. eexists. split; [reflexivity|].
    cbn [f_blocks f_frsize f_bavail f_bfree]. split; [|done]. pose proof (Z.mod_pos_bound nominal 4096). 
    pose proof (Z.div_mod nominal 4096). lia.
Qed.
End Statfs.

(** Hundredths stand for [float]. *)
#[local] Instance demo_float : Float Z := {|
  float_of_u64 n := 100 * n; fmul a b := a * b / 100; fsub a b := a - b; fdiv a b := a * 100 / b;
  float_to_u64 f := if (f <? 0) || (100 * u64_mod <=? f) then None else Some (f / 100) |}.

Definition demo_capacity (w : unit) : (StatusCode * option (Z * Z)) * unit := (OK, Some (1000000, 25), w).
Definition demo_stat_mount : hflat_priv unit := init_priv tt default_configuration (mk_fuse_context 0 0).

Lemma statfs_counts_blocks_witness : ∃ x, hflat_statfs demo_capacity (lit "/") demo_stat_mount = Ret (0, Some x) demo_stat_mount ∧
  f_blocks x * f_frsize x <= 1000000 < (f_blocks x + 1) * f_frsize x ∧ f_bavail x = 183 ∧ f_bfree x = 183.
Proof.
  destruct (statfs_counts_blocks demo_capacity (lit "/") demo_stat_mount OK (Some (1000000, 25)) tt eq_refl) as [_ Hok].
  exact (Hok eq_refl 1000000 25 183 eq_refl eq_refl).
Defined.
