(* ===== verification/Iointercept.v ===== *)
(** * The preload library iointercept

    Model of iointercept/pathchange.cc and of the wrappers in
    iointercept/iointercept.cc (Linux): every path given to a libc function is made
    absolute and, below an h-flat mount point, flattened: one virtual directory
    [:NN:] and ':' for '/'. {!PathMapDB.iointercept} undoes that in the file
    system. The contents of /etc/mtab, the working directory, [std::hash] and the
    original libc functions are parameters. *)
From S2P Require Import Prelude CppString PathMapDB.

(** The static variable [mountpoints], empty until the first call. *)
Definition mounts := list cstr.

(** ** More of [std::string] *)

(** [s[pos]]: the terminating NUL at [size()], undefined beyond it. *)
Definition char_at (s : cstr) (pos : Z) : M mounts ascii :=
  if size_ s <? pos then undef_
  else mret_ (match s !! Z.to_nat pos with Some a => a | None => Ascii.zero end).

Fixpoint find_not_from (c : ascii) (s : cstr) (i : Z) : Z :=
  match s with [] => npos | a :: s' => if bool_decide (a = c) then find_not_from c s' (i + 1) else i end.

(** [s.find_first_not_of(c, pos)] *)
Definition find_first_not_of (c : ascii) (s : cstr) (pos : Z) : Z :=
  if size_ s <=? pos then npos else find_not_from c (drop (Z.to_nat pos) s) pos.

(** [s.find_last_of(c, pos)]: at or before [pos]. *)
Definition find_last_of_at (cs s : cstr) (pos : Z) : Z :=
  if pos <? size_ s then find_last_of cs (take (Z.to_nat (pos + 1)) s) else find_last_of cs s.

(** [s.erase(pos, n)] and [s.insert(pos, t)] throw beyond the end. *)
Definition erase_ (s : cstr) (pos n : Z) : M mounts cstr := if size_ s <? pos then throw_ else mret_ (erase s pos n).
Definition insert_ (s : cstr) (pos : Z) (t : cstr) : M mounts cstr :=
  if size_ s <? pos then throw_ else mret_ (take (Z.to_nat pos) s ++ t ++ drop (Z.to_nat pos) s).

Definition slash : ascii := "/"%char.
Definition dot : ascii := "."%char.
Definition colon : ascii := ":"%char.

Section Iointercept.
Context (mtab : list (cstr * cstr)) (cwd : cstr) (std_hash : cstr → Z).

(** The directories where an h-flat file system is mounted, looked for until there is one. *)
Definition getMountPoints : M mounts unit :=
  let! mountpoints := gets_ id in
  if negb (Nat.eqb (length mountpoints) 0) then mret_ () else
  modify_ (λ mountpoints, mountpoints ++ map snd (List.filter (λ e, is_prefix (lit "hflat") e.1) mtab)).

(** ** _realpath *)
Fixpoint realpath_loop (fuel : nat) (path : cstr) (pos : Z) : M mounts cstr :=
  match fuel with
  | O => nofuel_
  | S f =>
    if negb (pos =? npos) && (pos <? wrap64 (size_ path - 1)) then
      (* erase multiple '/' *)
      let! next := char_at path (pos + 1) in
      let! path :=
        if bool_decide (next = slash)
        then erase_ path pos (wrap64 (find_first_not_of slash path pos - pos - 1)) else mret_ path in
      (* handle '.' and '..' *)
      let! next := char_at path (pos + 1) in
      let advance := realpath_loop f path (find_first_of (lit "/") path (pos + 1)) in
      if bool_decide (next = dot) then
        let! here := if size_ path <=? pos + 2 then mret_ true
                     else let! c := char_at path (pos + 2) in mret_ (bool_decide (c = slash)) in
        if here : bool then let! path := erase_ path pos 2 in realpath_loop f path pos
        else
          let! c := char_at path (pos + 2) in
          if bool_decide (c = dot) then
            let pre := find_last_of_at (lit "/") path (wrap64 (pos - 1)) in
            let! path := erase_ path (wrap64 (pre + 1)) (wrap64 (pos - pre + 2)) in realpath_loop f path pos
          else advance
      else advance
    else mret_ path
  end.

Definition _realpath (fuel : nat) (path : cstr) : M mounts cstr :=
  let! first := char_at path 0 in
  let path := if bool_decide (first = slash) then path else cwd ++ lit "/" ++ path in
  realpath_loop fuel path (find_first_of (lit "/") path 0).

(** ** _substitute *)
Fixpoint substitute_loop (fuel : nat) (path : cstr) (pos : Z) : M mounts cstr :=
  match fuel with
  | O => nofuel_
  | S f =>
    if pos =? npos then mret_ path else
    let! c := char_at path pos in
    let path := if bool_decide (c = slash) then set_char path pos colon else path in
    substitute_loop f path (find_first_of (lit "/") path (pos + 1))
  end.

(** Trailing colons. The last character of an empty string is out of range. *)
Fixpoint strip_colons (fuel : nat) (path : cstr) : M mounts cstr :=
  match fuel with
  | O => nofuel_
  | S f =>
    let! c := char_at path (wrap64 (size_ path - 1)) in
    if bool_decide (c = colon) then strip_colons f (resize_ path (size_ path - 1)) else mret_ path
  end.

Definition vdir (path : cstr) : cstr := lit ":" ++ to_string (std_hash path mod 100) ++ lit ":/".

Definition _substitute (path : cstr) (pos : Z) : M mounts cstr :=
  let path := if size_ path <? pos then path ++ lit "/" else path in
  let clean := find_first_of (lit ":") path 0 in
  let! path :=
    if negb (clean =? npos) then
      let end_ := find_first_of (lit "/") path pos in erase_ path clean (wrap64 (end_ - clean + 1))
    else mret_ path in
  let v := vdir path in
  let! path := insert_ path pos v in
  let pos := pos + size_ v in
  let! path := substitute_loop (S (S (length path))) path pos in
  strip_colons (S (S (length path))) path.

(** ** change *)
Fixpoint change_loop (mnts : list cstr) (p : cstr) : M mounts cstr :=
  match mnts with
  | [] => mret_ p
  | mnt :: mnts =>
    let! p := if is_prefix mnt p then _substitute p (size_ mnt + 1) else mret_ p in
    change_loop mnts p
  end.

Definition change (fuel : nat) (path : cstr) : M mounts cstr :=
  let! _ := getMountPoints in
  let! p := _realpath fuel path in
  let! mountpoints := gets_ id in
  change_loop mountpoints p.
End Iointercept.

(** ** The wrappers of iointercept.cc

    [ORIG(f)] is the next definition of the libc function [f]; the arguments other
    than paths (pointers, flags, descriptors) are passed through as numbers. *)
Inductive arg := Path (p : cstr) | Arg (z : Z).

Module Wrappers.
Section Wrappers.
Context {R : Type} (mtab : list (cstr * cstr)) (cwd : cstr) (std_hash : cstr → Z) (fuel : nat).
Context (ORIG : string → list arg → R).

(** [change(path).c_str()] for every path argument. *)
Fixpoint change_args (args : list arg) : M mounts (list arg) :=
  match args with
  | [] => mret_ []
  | Path p :: args =>
    let! p := change mtab cwd std_hash fuel p in
    let! args := change_args args in mret_ (Path (c_str p) :: args)
  | Arg z :: args => let! args := change_args args in mret_ (Arg z :: args)
  end.

Definition forward (name : string) (args : list arg) : M mounts R :=
  let! args := change_args args in mret_ (ORIG name args).

Definition pc_utimes (path : cstr) (times : Z) : M mounts R := forward "utimes" [Path path; Arg times].
Definition pc_utime (path : cstr) (buf : Z) : M mounts R := forward "utime" [Path path; Arg buf].
Definition pc_statfs (path : cstr) (buf : Z) : M mounts R := forward "statfs" [Path path; Arg buf].
Definition pc_statvfs (path : cstr) (buf : Z) : M mounts R := forward "statvfs" [Path path; Arg buf].
Definition pc_fopen (path : cstr) (mode : Z) : M mounts R := forward "fopen" [Path path; Arg mode].
Definition pc_realpath (path : cstr) (resolved : Z) : M mounts R := forward "realpath" [Path path; Arg resolved].
Definition pc_opendir (path : cstr) : M mounts R := forward "opendir" [Path path].
Definition pc_remove (path : cstr) : M mounts R := forward "remove" [Path path].
Definition pc_rename (p1 p2 : cstr) : M mounts R := forward "rename" [Path p1; Path p2].
Definition pc_chmod (path : cstr) (mode : Z) : M mounts R := forward "chmod" [Path path; Arg mode].
Definition pc_lstat (path : cstr) (st : Z) : M mounts R := forward "lstat" [Path path; Arg st].
Definition pc_mkdir (path : cstr) (mode : Z) : M mounts R := forward "mkdir" [Path path; Arg mode].
Definition pc_mkfifo (path : cstr) (mode : Z) : M mounts R := forward "mkfifo" [Path path; Arg mode].
Definition pc_mknod (path : cstr) (mode dev : Z) : M mounts R := forward "mknod" [Path path; Arg mode; Arg dev].
Definition pc_stat (path : cstr) (st : Z) : M mounts R := forward "stat" [Path path; Arg st].
Definition pc_access (path : cstr) (i : Z) : M mounts R := forward "access" [Path path; Arg i].
Definition pc_chown (path : cstr) (uid gid : Z) : M mounts R := forward "chown" [Path path; Arg uid; Arg gid].
Definition pc_lchown (path : cstr) (uid gid : Z) : M mounts R := forward "lchown" [Path path; Arg uid; Arg gid].
Definition pc_link (p1 p2 : cstr) : M mounts R := forward "link" [Path p1; Path p2].
Definition pc_symlink (p1 p2 : cstr) : M mounts R := forward "symlink" [Path p1; Path p2].
Definition pc_readlink (path : cstr) (buf size : Z) : M mounts R := forward "readlink" [Path path; Arg buf; Arg size].
Definition pc_unlink (path : cstr) : M mounts R := forward "unlink" [Path path].
Definition pc_rmdir (path : cstr) : M mounts R := forward "rmdir" [Path path].
Definition pc_truncate (path : cstr) (offset : Z) : M mounts R := forward "truncate" [Path path; Arg offset].
Definition pc_chdir (path : cstr) : M mounts R := forward "chdir" [Path path].
Definition pc_pathconf (path : cstr) (i : Z) : M mounts R := forward "pathconf" [Path path; Arg i].
Definition pc_creat (path : cstr) (mode : Z) : M mounts R := forward "creat" [Path path; Arg mode].
Definition pc_getxattr (path : cstr) (name value size : Z) : M mounts R := forward "getxattr" [Path path; Arg name; Arg value; Arg size].
Definition pc_setxattr (path : cstr) (name value size flags : Z) : M mounts R := forward "setxattr" [Path path; Arg name; Arg value; Arg size; Arg flags].
Definition statfs64 (path : cstr) (buf : Z) : M mounts R := forward "statfs64" [Path path; Arg buf].
Definition stat64 (path : cstr) (buf : Z) : M mounts R := forward "stat64" [Path path; Arg buf].
Definition lstat64 (path : cstr) (buf : Z) : M mounts R := forward "lstat64" [Path path; Arg buf].
Definition statvfs64 (path : cstr) (buf : Z) : M mounts R := forward "statvfs64" [Path path; Arg buf].
Definition creat64 (path : cstr) (mode : Z) : M mounts R := forward "creat64" [Path path; Arg mode].
Definition xmknod (ver : Z) (path : cstr) (mode dev : Z) : M mounts R := forward "__xmknod" [Arg ver; Path path; Arg mode; Arg dev].
Definition xstat (ver : Z) (path : cstr) (buf : Z) : M mounts R := forward "__xstat" [Arg ver; Path path; Arg buf].
Definition xstat64 (ver : Z) (path : cstr) (buf : Z) : M mounts R := forward "__xstat64" [Arg ver; Path path; Arg buf].
Definition lxstat (ver : Z) (path : cstr) (buf : Z) : M mounts R := forward "__lxstat" [Arg ver; Path path; Arg buf].
Definition lxstat64 (ver : Z) (path : cstr) (buf : Z) : M mounts R := forward "__lxstat64" [Arg ver; Path path; Arg buf].
Definition lsetxattr (path : cstr) (name value size flags : Z) : M mounts R := forward "lsetxattr" [Path path; Arg name; Arg value; Arg size; Arg flags].
Definition lgetxattr (path : cstr) (name value size : Z) : M mounts R := forward "lgetxattr" [Path path; Arg name; Arg value; Arg size].
Definition unlinkat (dirfd : Z) (path : cstr) (flags : Z) : M mounts R := forward "unlinkat" [Arg dirfd; Path path; Arg flags].
Definition linkat (olddirfd : Z) (oldpath : cstr) (newdirfd : Z) (newpath : cstr) (flags : Z) : M mounts R := forward "linkat" [Arg olddirfd; Path oldpath; Arg newdirfd; Path newpath; Arg flags].
Definition mkdirat (dirfd : Z) (path : cstr) (mode : Z) : M mounts R := forward "mkdirat" [Arg dirfd; Path path; Arg mode].
Definition mknodat (dirfd : Z) (path : cstr) (mode dev : Z) : M mounts R := forward "mknodat" [Arg dirfd; Path path; Arg mode; Arg dev].
Definition readlinkat (dirfd : Z) (path : cstr) (buf bufsiz : Z) : M mounts R := forward "readlinkat" [Arg dirfd; Path path; Arg buf; Arg bufsiz].
Definition renameat (olddirfd : Z) (oldpath : cstr) (newdirfd : Z) (newpath : cstr) : M mounts R := forward "renameat" [Arg olddirfd; Path oldpath; Arg newdirfd; Path newpath].
Definition symlinkat (oldpath : cstr) (newdirfd : Z) (newpath : cstr) : M mounts R := forward "symlinkat" [Path oldpath; Arg newdirfd; Path newpath].
Definition utimensat (dirfd : Z) (path : cstr) (times flags : Z) : M mounts R := forward "utimensat" [Arg dirfd; Path path; Arg times; Arg flags].
Definition mkfifoat (dirfd : Z) (path : cstr) (mode : Z) : M mounts R := forward "mkfifoat" [Arg dirfd; Path path; Arg mode].

(** [O_CREAT] decides whether there is a third argument. *)
Definition O_CREAT : Z := 64.
Definition pc_open (path : cstr) (flags mode : Z) : M mounts R :=
  if negb (Z.land flags O_CREAT =? 0) then forward "open" [Path path; Arg flags; Arg mode]
  else forward "open" [Path path; Arg flags].
Definition open64 (path : cstr) (flags mode : Z) : M mounts R :=
  if negb (Z.land flags O_CREAT =? 0) then forward "open64" [Path path; Arg flags; Arg mode]
  else forward "open64" [Path path; Arg flags].
Definition openat (dirfd : Z) (path : cstr) (flags mode : Z) : M mounts R :=
  if negb (Z.land flags O_CREAT =? 0) then forward "openat" [Arg dirfd; Path path; Arg flags; Arg mode]
  else forward "openat" [Arg dirfd; Path path; Arg flags].
End Wrappers.
End Wrappers.
