(* ===== verification/Tools.v ===== *)
(** * The command-line tool (src/tools/tools.cc)

    It asks a mounted file system for a check by setting an extended attribute.
    The libc calls are parameters; the calls that only look ([realpath], [stat],
    [getuid], the mount table) are functions of the state [W] of the system. *)
From S2P Require Import Prelude CppString.

Class Libc (W : Type) := {
  realpath : cstr → W → option cstr;
  (** The mode of a file, or nothing if [stat] fails. *)
  stat_mode : cstr → W → option Z;
  getuid : W → Z;
  mtab : W → list (cstr * cstr);
  setxattr : cstr → cstr → cstr → Z → Z → W → Z * W;
}.

Definition EXIT_FAILURE : Z := 1.
Definition S_IFMT : Z := 61440.
Definition S_ISDIR (mode : Z) : bool := Z.land mode S_IFMT =? 16384.
Definition XATTR_CREATE : Z := 1.

Section Tools.
Context {W : Type} `{!Libc W}.

(** The message is output only. *)
Definition failure : M W Z := mret_ EXIT_FAILURE.

(** Each mount point is compared as a string. *)
Definition isHFMount (path : cstr) (w : W) : bool :=
  let mountpoints := map snd (List.filter (λ e, is_prefix (lit "hflat") e.1) (mtab w)) in
  existsb (λ mnt, is_prefix mnt path) mountpoints.

Definition request_check (name path : cstr) : M W Z := λ w,
  let '(err, w) := setxattr path name (lit "no value") 0 XATTR_CREATE w in
  if negb (err =? 0) then failure w else Ret 0 w.

Definition fsck (path : cstr) : M W Z :=
  let! mode := gets_ (stat_mode path) in
  match mode with
  | None => failure
  | Some mode => if negb (S_ISDIR mode) then failure else request_check (lit "fsck") path
  end.

Definition nsck (path : cstr) : M W Z := request_check (lit "nsck") path.

Definition tools_main (argv : list cstr) : M W Z :=
  match argv with
  | [_; op; arg] =>
    if negb (bool_decide (op = lit "-fsck")) && negb (bool_decide (op = lit "-nsck")) then failure else
    let! path := gets_ (realpath arg) in
    match path with
    | None => failure
    | Some path =>
      let! inside := gets_ (isHFMount path) in
      if negb inside then failure else
      let! uid := gets_ getuid in
      if negb (uid =? 0) then failure else
      if bool_decide (op = lit "-fsck") then fsck path
      else if bool_decide (op = lit "-nsck") then nsck path
      else failure
    end
  | _ => failure
  end.

(** ** What the tool does *)

(** The request the arguments ask for, if it may be sent. *)
Definition admissible (argv : list cstr) (w : W) : option (cstr * cstr) :=
  match argv with
  | [_; op; arg] =>
    match realpath arg w with
    | Some path =>
      if isHFMount path w && (getuid w =? 0) then
        if bool_decide (op = lit "-fsck") then
          if match stat_mode path w with Some mode => S_ISDIR mode | None => false end then Some (lit "fsck", path) else None
        else if bool_decide (op = lit "-nsck") then Some (lit "nsck", path) else None
      else None
    | None => None
    end
  | _ => None
  end.

(** The tool asks for a check only when it may. It always ends; unless it is
    called with "-fsck" or "-nsck" and a path that exists inside an h-flat mount, by
    root, and for "-fsck" on a directory, it fails and touches nothing; otherwise
    it sets exactly that one attribute and reports whether that succeeded. *)
Theorem tools_main_requests argv w :
  tools_main argv w =
    match admissible argv w with
    | None => Ret EXIT_FAILURE w
    | Some (name, path) =>
      let '(err, w') := setxattr path name (lit "no value") 0 XATTR_CREATE w in
      Ret (if err =? 0 then 0 else EXIT_FAILURE) w'
    end.
Proof.
  assert (Hreq : ∀ name path w, request_check name path w =
    let '(err, w') := setxattr path name (lit "no value") 0 XATTR_CREATE w in Ret (if err =? 0 then 0 else EXIT_FAILURE) w').
  { intros name path w0. unfold request_check. destruct (setxattr _ _ _ _ _ w0) as [err w1]. by destruct (err =? 0). }
  unfold tools_main, admissible. destruct argv as [|a [|op [|arg [|b argv]]]]; try done. unfold gets_, fsck, nsck.
  destruct (bool_decide (op = lit "-fsck")), (bool_decide (op = lit "-nsck")); cbn [negb andb]; rewrite ?mbind_lam;
    (destruct (realpath arg w) as [path|]; [rewrite ?mbind_lam|done]); destruct (isHFMount path w); cbn [negb andb]; try done;
    rewrite ?mbind_lam; destruct (getuid w =? 0); cbn [negb]; try done; rewrite ?Hreq; try done;
    unfold gets_; rewrite ?mbind_lam; (destruct (stat_mode path w) as [mode|]; [|done]); destruct (S_ISDIR mode); cbn [negb]; try done;
    apply Hreq.
Qed.
End Tools.
