(* ===== verification/IointerceptFacts.v ===== *)
(** * Properties of the preload library

    Clean paths outside the mount points pass unchanged; a clean path below a mount
    point is flattened to two components, and {!PathMapDB.iointercept} restores it;
    paths with ".." are not normalised, and can make the loop run for ever. *)
From S2P Require Import Prelude CppString PathMapDB Iointercept.

(** ** A few paths *)
Definition realpath_of (s : string) : outcome mounts cstr := _realpath (lit "/home") 20 (lit s) [].

Example realpath_relative : realpath_of "a/b" = Ret (lit "/home/a/b") [].
Proof. reflexivity. Qed.
Example realpath_slashes : realpath_of "/a//b/./c" = Ret (lit "/a/b/c") [].
Proof. reflexivity. Qed.

(** ** Clean paths *)

(** A path as the sequence of its components. *)
Definition join (cs : list cstr) : cstr := concat (map (cons slash) cs).

(** A component that [_realpath] has no reason to touch. *)
Definition component (c : cstr) : Prop := c ≠ [] ∧ free_of (lit "/") c ∧ head c ≠ Some dot.

Section Runs.
Context {m : mounts}.

Lemma char_at_run u b v : char_at (u ++ b :: v) (size_ u) m = Ret b m.
Proof.
  unfold char_at. rewrite size_app, size_cons. pose proof (size_nonneg v). pose proof (size_nonneg u).
  rewrite (proj2 (Z.ltb_ge _ _)) by lia. unfold size_. rewrite Nat2Z.id.
  by rewrite list_lookup_middle.
Qed.

Lemma join_cons c cs : join (c :: cs) = slash :: c ++ join cs.
Proof. done. Qed.

Lemma join_app cs ds : join (cs ++ ds) = join cs ++ join ds.
Proof. unfold join. by rewrite map_app, concat_app. Qed.

Lemma slash_is_separator : char_in slash (lit "/") = true.
Proof. done. Qed.

Lemma find_next pre c cs : free_of (lit "/") c → c ≠ [] →
  find_first_of (lit "/") (pre ++ slash :: c ++ join cs) (size_ pre + 1) =
  match cs with [] => npos | _ => size_ (pre ++ slash :: c) end.
Proof.
  intros Hf Hc. replace (pre ++ slash :: c ++ join cs) with ((pre ++ [slash]) ++ (c ++ join cs)) by (by rewrite <- app_assoc).
  replace (size_ pre + 1) with (size_ (pre ++ [slash])) by (by rewrite size_app).
  rewrite find_first_of_skip by (destruct c; done). destruct cs as [|c' cs].
  - rewrite find_first_from_free; [done|]. unfold join. cbn. by rewrite app_nil_r.
  - rewrite join_cons, find_first_from_hit by done. autorewrite with hflat_rw. lia.
Qed.

Lemma realpath_loop_clean cs : ∀ pre f,
  Forall component cs → cs ≠ [] → size_ (pre ++ join cs) < npos → (length cs < f)%nat →
  realpath_loop f (pre ++ join cs) (size_ pre) m = Ret (pre ++ join cs) m.
Proof.
  induction cs as [|c cs IH]; intros pre [|f] Hcs Hne Hs Hf; try done; [cbn in Hf; lia|].
  apply Forall_cons in Hcs as [(Hc & Hfree & Hdot) Hcs]. cbn [length] in Hf. destruct c as [|a t]; [done|].
  assert (Ha : a ≠ slash) by (intros ->; by apply Forall_cons in Hfree as [? _]).
  assert (Had : a ≠ dot) by (intros ->; by apply Hdot).
  rewrite join_cons in *. set (path := pre ++ slash :: (a :: t) ++ join cs) in *.
  assert (Hsz : size_ path = size_ pre + 2 + size_ t + size_ (join cs)).
  { unfold path. rewrite !size_app, size_cons, size_app, size_cons. lia. }
  pose proof (size_nonneg pre). pose proof (size_nonneg t). pose proof (size_nonneg (join cs)).
  cbn [realpath_loop]. rewrite (proj2 (Z.eqb_neq (size_ pre) npos)) by lia.
  rewrite (wrap64_id (size_ path - 1)) by (unfold npos in *; lia). rewrite (proj2 (Z.ltb_lt _ _)) by lia. cbn [negb andb].
  assert (Hchar : char_at path (size_ pre + 1) m = Ret a m).
  { replace path with ((pre ++ [slash]) ++ a :: (t ++ join cs)) by (unfold path; by rewrite <- app_assoc).
    replace (size_ pre + 1) with (size_ (pre ++ [slash])) by (by rewrite size_app). apply char_at_run. }
  step_by Hchar. rewrite bool_decide_false by done. rewrite mbind_ret_l. step_by Hchar. rewrite bool_decide_false by done.
  unfold path at 2. rewrite find_next by done. destruct cs as [|c' cs].
  - destruct f as [|f]; [cbn in Hf; lia|]. cbn [realpath_loop]. by rewrite Z.eqb_refl.
  - replace path with ((pre ++ slash :: a :: t) ++ join (c' :: cs)) in * by (unfold path; by rewrite <- app_assoc).
    apply IH; [done|done|done|cbn in Hf |- *; lia].
Qed.

Lemma realpath_clean cwd cs f :
  Forall component cs → cs ≠ [] → size_ (join cs) < npos → (length cs < f)%nat →
  _realpath cwd f (join cs) m = Ret (join cs) m.
Proof.
  intros Hcs Hne Hs Hf. destruct cs as [|c cs]; [done|]. unfold _realpath.
  assert (Hchar : char_at (join (c :: cs)) 0 m = Ret slash m) by (rewrite join_cons; apply (char_at_run [])).
  step_by Hchar. rewrite bool_decide_true by done.
  replace (find_first_of (lit "/") (join (c :: cs)) 0) with (size_ []).
  - by apply (realpath_loop_clean (c :: cs) []).
  - rewrite join_cons. symmetry. apply (find_first_of_hit (lit "/") []); [constructor|done].
Qed.

(** ** Flattening *)

Definition flatten (s : cstr) : cstr := map (λ a, if bool_decide (a = slash) then colon else a) s.

Lemma flatten_free s : free_of (lit "/") s → flatten s = s.
Proof.
  induction 1 as [|a s Ha _ IH]; [done|]. unfold flatten in *. cbn [map]. rewrite IH. case_bool_decide; [|done]. by subst.
Qed.

Lemma flatten_app s t : flatten (s ++ t) = flatten s ++ flatten t.
Proof. apply map_app. Qed.

Lemma set_char_run u a v b : set_char (u ++ a :: v) (size_ u) b = u ++ b :: v.
Proof. unfold set_char, size_. rewrite Nat2Z.id. by rewrite insert_app_r_alt, Nat.sub_diag. Qed.

Lemma substitute_loop_run n : ∀ f pre s,
  (length s < n)%nat → (n < f)%nat → s ≠ [] → size_ (pre ++ s) < npos →
  substitute_loop f (pre ++ s) (size_ pre) m = Ret (pre ++ flatten s) m.
Proof.
  induction n as [|n IH]; intros [|f] pre s Hn Hf Hne Hs; try lia. destruct s as [|a s]; [done|].
  cbn [substitute_loop]. pose proof (size_nonneg pre). pose proof (size_nonneg s).
  rewrite size_app, size_cons in Hs. rewrite (proj2 (Z.eqb_neq (size_ pre) npos)) by lia.
  step_by (char_at_run pre a s). set (b := if bool_decide (a = slash) then colon else a).
  replace (if bool_decide (a = slash) then set_char (pre ++ a :: s) (size_ pre) colon else pre ++ a :: s) with ((pre ++ [b]) ++ s).
  2: { unfold b. case_bool_decide; rewrite <- app_assoc; cbn; [by rewrite set_char_run|done]. }
  replace (size_ pre + 1) with (size_ (pre ++ [b])) by (by rewrite size_app).
  change (flatten (a :: s)) with (b :: flatten s).
  replace (pre ++ b :: flatten s) with ((pre ++ [b]) ++ flatten s) by (by rewrite <- app_assoc).
  destruct (split_first (lit "/") s) as [Hfree|(u & c & t & -> & Hc & Hu)].
  - rewrite (flatten_free s Hfree). destruct f as [|f]; [lia|]. cbn [substitute_loop].
    destruct s as [|x s].
    + rewrite app_nil_r. unfold find_first_of. rewrite (proj2 (Z.leb_le _ _)) by lia. by rewrite Z.eqb_refl.
    + rewrite find_first_of_skip, find_first_from_free by done. by rewrite Z.eqb_refl.
  - rewrite find_first_of_skip, find_first_from_hit by (done || by destruct u).
    rewrite <- size_app, app_assoc. rewrite flatten_app, (flatten_free u Hu), app_assoc.
    apply IH; [cbn in Hn; rewrite length_app in Hn; cbn in Hn |- *; lia|lia|done|].
    autorewrite with hflat_rw in *. lia.
Qed.

Lemma strip_colons_run f u b : b ≠ colon → size_ (u ++ [b]) < u64_mod → strip_colons (S f) (u ++ [b]) m = Ret (u ++ [b]) m.
Proof.
  intros Hb Hs. cbn [strip_colons]. pose proof (size_nonneg u). autorewrite with hflat_rw in Hs.
  replace (wrap64 (size_ (u ++ [b]) - 1)) with (size_ u); [step_by (char_at_run u b []); by rewrite bool_decide_false|].
  autorewrite with hflat_rw. rewrite wrap64_id by lia. lia.
Qed.

(** A last component keeps the path from ending in a slash. *)
Lemma flatten_last cs : cs ≠ [] → Forall component cs → free_of (lit ":") (join cs) →
  ∃ u b, flatten (drop 1 (join cs)) = u ++ [b] ∧ b ≠ colon.
Proof.
  intros Hne Hcs Hcol. destruct (nil_or_snoc cs) as [->|(cs' & c & ->)]; [done|].
  apply Forall_app in Hcs as [_ [(Hc & Hf & _) _]%Forall_cons].
  destruct (nil_or_snoc c) as [->|(c' & b & ->)]; [done|].
  assert (Hb : b ≠ slash ∧ b ≠ colon).
  { apply free_of_app in Hf as [_ [Hb _]%Forall_cons]. rewrite join_app in Hcol. apply free_of_app in Hcol as [_ Hcol].
    rewrite join_cons, app_comm_cons in Hcol. apply free_of_app in Hcol as [Hcol _].
    rewrite app_comm_cons in Hcol. apply free_of_app in Hcol as [_ [Hb' _]%Forall_cons].
    split; intros ->; done. }
  rewrite join_app, join_cons. change (join []) with (@nil ascii). rewrite app_nil_r, app_comm_cons, app_assoc.
  destruct (join cs' ++ slash :: c') as [|x l] eqn:E; [by destruct (join cs')|].
  exists (flatten l), b. split; [|apply Hb]. cbn [app drop]. rewrite drop_0, flatten_app. f_equal. unfold flatten. cbn [map].
  by rewrite bool_decide_false by apply Hb.
Qed.

Lemma size_flatten s : size_ (flatten s) = size_ s.
Proof. unfold size_, flatten. by rewrite length_map. Qed.

Lemma to_string_mod_100 z : size_ (to_string (z mod 100)) <= 2.
Proof.
  assert (Hall : forallb (λ n, size_ (to_string (Z.of_nat n)) <=? 2) (seq 0 100) = true) by (vm_compute; reflexivity).
  rewrite forallb_forall in Hall. pose proof (Z.mod_pos_bound z 100).
  specialize (Hall (Z.to_nat (z mod 100))). rewrite Z2Nat.id in Hall by lia. apply Z.leb_le, Hall, in_seq. lia.
Qed.

Lemma vdir_size std_hash p : size_ (vdir std_hash p) <= 5.
Proof. unfold vdir. rewrite !size_app. pose proof (to_string_mod_100 (std_hash p)). change (size_ (lit ":")) with 1.
  change (size_ (lit ":/")) with 2. lia. Qed.

Lemma join_slash cs : cs ≠ [] → join cs = slash :: drop 1 (join cs).
Proof. by destruct cs. Qed.

Lemma insert_run u t v : insert_ (u ++ v) (size_ u) t m = Ret (u ++ t ++ v) m.
Proof.
  unfold insert_. rewrite size_app. pose proof (size_nonneg v). rewrite (proj2 (Z.ltb_ge _ _)) by lia.
  by rewrite take_size, drop_size.
Qed.

(** Below a mount point the path is flattened. *)
Lemma substitute_rel std_hash mnt rel u b :
  flatten rel = u ++ [b] → b ≠ colon → free_of (lit ":") (mnt ++ slash :: rel) →
  size_ (mnt ++ slash :: rel) + 5 < npos →
  _substitute std_hash (mnt ++ slash :: rel) (size_ mnt + 1) m =
    Ret (mnt ++ slash :: vdir std_hash (mnt ++ slash :: rel) ++ flatten rel) m.
Proof.
  intros Hub Hb Hcol Hs. pose proof (vdir_size std_hash (mnt ++ slash :: rel)) as Hv. unfold _substitute.
  assert (Hsz : size_ (mnt ++ slash :: rel) = size_ mnt + 1 + size_ rel) by (autorewrite with hflat_rw; lia).
  pose proof (size_nonneg mnt). pose proof (size_nonneg rel).
  rewrite (proj2 (Z.ltb_ge _ _)) by lia. rewrite find_first_of_free by done. rewrite Z.eqb_refl. cbn [negb]. rewrite mbind_ret_l.
  set (v := vdir std_hash (mnt ++ slash :: rel)) in *. pose proof (size_nonneg v).
  assert (Hins : insert_ (mnt ++ slash :: rel) (size_ mnt + 1) v m = Ret (((mnt ++ [slash]) ++ v) ++ rel) m).
  { replace (mnt ++ slash :: rel) with ((mnt ++ [slash]) ++ rel) by (by rewrite <- app_assoc).
    replace (size_ mnt + 1) with (size_ (mnt ++ [slash])) by (by rewrite size_app). rewrite insert_run. by rewrite app_assoc. }
  step_by Hins. replace (size_ mnt + 1 + size_ v) with (size_ ((mnt ++ [slash]) ++ v)) by (autorewrite with hflat_rw; lia).
  assert (Hrel : rel ≠ []) by (intros ->; by destruct u).
  assert (Hsub : ∀ f, (S (length rel) < f)%nat →
    substitute_loop f (((mnt ++ [slash]) ++ v) ++ rel) (size_ ((mnt ++ [slash]) ++ v)) m = Ret (((mnt ++ [slash]) ++ v) ++ flatten rel) m).
  { intros f Hf. apply (substitute_loop_run (S (length rel))); [lia|done|done|]. autorewrite with hflat_rw in *. lia. }
  rewrite (mbind_Ret _ _ _ _ _ (Hsub (S (S (length (((mnt ++ [slash]) ++ v) ++ rel)))) ltac:(rewrite !length_app; cbn; lia))). cbv beta.
  rewrite Hub, app_assoc. rewrite strip_colons_run; [|done|].
  - by rewrite <- !app_assoc.
  - rewrite <- app_assoc, <- Hub. rewrite !size_app, size_flatten in *. change (size_ [slash]) with 1. unfold npos in Hs. lia.
Qed.

(** ** Undoing it in the file system *)

Definition unflatten (s : cstr) : cstr := map (λ a, if bool_decide (a = colon) then slash else a) s.

Lemma unflatten_free s : free_of (lit ":") s → unflatten s = s.
Proof.
  induction 1 as [|a s Ha _ IH]; [done|]. unfold unflatten in *. cbn [map]. rewrite IH. case_bool_decide; [|done]. by subst.
Qed.

Lemma colons_to_slashes_run n s : (length s <= n)%nat → size_ s < npos → colons_to_slashes n s = unflatten s.
Proof.
  intros Hn Hs. assert (Hgen : ∀ n u s, free_of (lit ":") u → (length s <= n)%nat → size_ (u ++ s) < npos →
    colons_to_slashes n (u ++ s) = u ++ unflatten s); [|by apply (Hgen n [] s); [constructor|..]].
  clear. intros n. induction n as [|n IH]; intros u s Hu Hn Hs.
  { destruct s; [|cbn in Hn; lia]. done. }
  cbn [colons_to_slashes]. destruct (split_first (lit ":") s) as [Hfree|(x & c & t & -> & Hc & Hx)].
  - rewrite find_first_of_free by (by apply free_of_app). rewrite Z.eqb_refl. f_equal.
    by rewrite unflatten_free.
  - rewrite app_assoc. assert (Hux : free_of (lit ":") (u ++ x)) by (by apply free_of_app).
    rewrite find_first_of_hit by done. autorewrite with hflat_rw in Hs. pose proof (size_nonneg t).
    rewrite (proj2 (Z.eqb_neq _ _)) by (autorewrite with hflat_rw; lia). rewrite set_char_run.
    assert (Ec : c = colon) by (by apply bool_decide_eq_true in Hc; apply list_elem_of_singleton in Hc).
    replace ((u ++ x) ++ "/"%char :: t) with (((u ++ x) ++ [slash]) ++ t) by (by rewrite <- app_assoc).
    rewrite IH.
    + replace (unflatten (x ++ c :: t)) with (x ++ slash :: unflatten t); [by rewrite <- !app_assoc|].
      unfold unflatten at 2. rewrite map_app. cbn [map]. rewrite (bool_decide_true (c = colon)) by done. f_equal.
      symmetry. by apply unflatten_free.
    + apply free_of_app. split; [done|]. by constructor.
    + rewrite length_app in Hn. cbn in Hn. lia.
    + autorewrite with hflat_rw. lia.
Qed.

Lemma flatten_slash_free s : free_of (lit "/") (flatten s).
Proof.
  induction s as [|a s IH]; [constructor|]. unfold flatten in *. cbn [map]. constructor; [|done].
  destruct (decide (a = slash)) as [->|Hne]; [by rewrite bool_decide_true|]. rewrite (bool_decide_false (a = slash)) by done.
  apply bool_decide_eq_false. intros E. by apply list_elem_of_singleton in E.
Qed.

Lemma unflatten_flatten s : free_of (lit ":") s → unflatten (flatten s) = s.
Proof.
  induction 1 as [|a s Ha _ IH]; [done|]. unfold flatten, unflatten in *. cbn [map]. rewrite IH.
  destruct (decide (a = slash)) as [->|Hne]; [by rewrite (bool_decide_true (slash = slash))|].
  rewrite (bool_decide_false (a = slash)) by done. rewrite bool_decide_false; [done|]. by intros ->.
Qed.

(** The virtual directory without its slash. *)
Definition vdir_name (std_hash : cstr → Z) (p : cstr) : cstr := lit ":" ++ to_string (std_hash p mod 100) ++ lit ":".

Lemma vdir_split std_hash p : vdir std_hash p = vdir_name std_hash p ++ [slash].
Proof. unfold vdir, vdir_name. by rewrite <- !app_assoc. Qed.

Lemma vdir_name_free std_hash p : free_of (lit "/") (vdir_name std_hash p).
Proof.
  unfold vdir_name. apply free_of_app. split; [by repeat constructor|]. apply free_of_app.
  split; [apply to_string_free|]; by repeat constructor.
Qed.

Lemma iointercept_vdir std_hash p rel : free_of (lit ":") rel → size_ rel + 6 < npos →
  iointercept (slash :: vdir_name std_hash p ++ slash :: flatten rel) = slash :: rel.
Proof.
  intros Hcol Hs. pose proof (vdir_size std_hash p) as Hv. rewrite vdir_split in Hv. autorewrite with hflat_rw in Hv.
  pose proof (vdir_name_free std_hash p) as Hd. set (d := vdir_name std_hash p) in *.
  assert (Hcolon : ∃ d', d = colon :: d') by (by eexists). destruct Hcolon as [d' Ed].
  unfold iointercept.
  assert (Hpos : find_first_of (lit ":") (slash :: d ++ slash :: flatten rel) 0 = 1).
  { rewrite Ed. apply (find_first_of_hit (lit ":") [slash]); [by repeat constructor|done]. }
  assert (Hend : find_first_of (lit "/") (slash :: d ++ slash :: flatten rel) 1 = 1 + size_ d).
  { pose proof (find_first_of_skip (lit "/") [slash] (d ++ slash :: flatten rel)) as Hskip. cbn [app] in Hskip.
    change (size_ [slash]) with 1 in Hskip. rewrite Hskip by (by rewrite Ed). by rewrite find_first_from_hit. }
  rewrite Hpos, Hend. change (1 =? npos) with false. cbv iota.
  pose proof (size_nonneg d). pose proof (size_nonneg rel).
  replace (wrap64 (1 + size_ d - 1 + 1)) with (size_ (d ++ [slash])).
  2: { autorewrite with hflat_rw. rewrite wrap64_id by (unfold npos in *; lia). lia. }
  replace (slash :: d ++ slash :: flatten rel) with ([slash] ++ (d ++ [slash]) ++ flatten rel) by (cbn; by rewrite <- app_assoc).
  change 1 with (size_ [slash]). rewrite erase_mid.
  rewrite colons_to_slashes_run; [|done|autorewrite with hflat_rw; rewrite size_flatten; lia].
  change (unflatten ([slash] ++ flatten rel)) with (slash :: unflatten (flatten rel)). by rewrite unflatten_flatten.
Qed.

Lemma is_prefix_app a b : is_prefix a (a ++ b) = true.
Proof. apply is_prefix_spec. by eexists. Qed.

End Runs.

(** C34: flattening and its inverse. For a clean path below the one mount point,
    [change] returns in one pass per component; the result has exactly two
    components below the mount point, a virtual directory and a name; and
    [PathMapDB::iointercept] turns what the file system then sees back into the
    path below the mount point. *)
Theorem change_roundtrip mtab cwd std_hash f m ms cs :
  getMountPoints mtab m = Ret tt [join ms] → Forall component (ms ++ cs) → cs ≠ [] → free_of (lit ":") (join (ms ++ cs)) →
  size_ (join (ms ++ cs)) + 6 < npos → (length (ms ++ cs) < f)%nat →
  ∃ d name, change mtab cwd std_hash f (join (ms ++ cs)) m = Ret (join ms ++ slash :: d ++ slash :: name) [join ms] ∧
    free_of (lit "/") d ∧ free_of (lit "/") name ∧ iointercept (slash :: d ++ slash :: name) = join cs.
Proof.
  intros Hm Hc Hne Hcol Hs Hf. set (rel := drop 1 (join cs)). pose proof (join_slash cs Hne) as Hj. fold rel in Hj.
  rewrite join_app in Hcol, Hs. pose proof Hcol as [_ Hcolcs]%free_of_app.
  destruct (flatten_last cs Hne) as (u & b & Hub & Hb); [by apply Forall_app in Hc as [_ ?]|done|]. fold rel in Hub.
  rewrite Hj in Hcol, Hs, Hcolcs. apply Forall_cons in Hcolcs as [_ Hcolrel].
  exists (vdir_name std_hash (join ms ++ slash :: rel)), (flatten rel). split; [|split; [|split]].
  - unfold change. pose proof (size_nonneg (join ms)). rewrite (mbind_Ret _ _ _ _ _ Hm).
    erewrite mbind_Ret; [|apply realpath_clean; [done|intros E; apply app_eq_nil in E as [_ E]; exact (Hne E)| |done]].
    2: { rewrite join_app, Hj. lia. }
    unfold gets_. rewrite mbind_lam. cbn [id change_loop]. rewrite join_app, is_prefix_app, Hj.
    erewrite mbind_Ret; [|eapply substitute_rel; [done|done|done|lia]].
    unfold mret_. do 2 f_equal. rewrite vdir_split, <- app_assoc. done.
  - apply vdir_name_free.
  - apply flatten_slash_free.
  - rewrite Hj. apply iointercept_vdir; [done|]. pose proof (size_nonneg (join ms)). autorewrite with hflat_rw in Hs. lia.
Qed.

Lemma change_roundtrip_witness :
  let ms := [lit "mnt"; lit "hflat"] in let cs := [lit "a"; lit "b"; lit "c"] in
  ∃ d name, change [(lit "hflat", join ms)] (lit "/home") (λ s, size_ s) 9 (join (ms ++ cs)) [] =
      Ret (join ms ++ slash :: d ++ slash :: name) [join ms] ∧
    free_of (lit "/") d ∧ free_of (lit "/") name ∧ iointercept (slash :: d ++ slash :: name) = join cs.
Proof.
  intros ms cs. apply (change_roundtrip [(lit "hflat", join ms)] (lit "/home") (λ s, size_ s) 9 [] ms cs).
  - reflexivity.
  - by repeat constructor.
  - done.
  - by repeat constructor.
  - by vm_compute.
  - cbn. lia.
Defined.

(** ** Everything else passes through *)

Lemma getMountPoints_cached mtab m m' : getMountPoints mtab m = Ret tt m' → getMountPoints mtab m' = Ret tt m'.
Proof.
  unfold getMountPoints, gets_, modify_. rewrite !mbind_lam. unfold id. set (l := map snd _).
  destruct m as [|x m]; cbn; intros [= <-]; [|done]. by destruct l.
Qed.

(** An argument that [change] must not alter: not a path, or a clean path that no
    mount point is a prefix of. *)
Definition foreign (fuel : nat) (mnts : list cstr) (a : arg) : Prop :=
  match a with
  | Arg _ => True
  | Path p => ∃ cs, p = join cs ∧ cs ≠ [] ∧ (length cs < fuel)%nat ∧ Forall component cs ∧ no_nul p ∧
      size_ p < npos ∧ Forall (λ mnt, is_prefix mnt p = false) mnts
  end.

Lemma change_loop_foreign std_hash mnts p m : Forall (λ mnt, is_prefix mnt p = false) mnts →
  change_loop std_hash mnts p m = Ret p m.
Proof. induction 1 as [|mnt mnts Hp _ IH]; [done|]. cbn [change_loop]. by rewrite Hp, mbind_ret_l. Qed.

Lemma change_foreign mtab cwd std_hash fuel m m' p : getMountPoints mtab m = Ret tt m' → foreign fuel m' (Path p) →
  change mtab cwd std_hash fuel p m = Ret p m'.
Proof.
  intros Hm (cs & -> & Hne & Hf & Hcs & _ & Hs & Hp). unfold change. rewrite (mbind_Ret _ _ _ _ _ Hm).
  erewrite mbind_Ret; [|by apply realpath_clean]. unfold gets_. rewrite mbind_lam. by apply change_loop_foreign.
Qed.

(** Outside the mount points the library is transparent. A wrapper whose path
    arguments are clean and below no mount point calls the original function once,
    with the arguments it was given. *)
Theorem forward_transparent {R} mtab cwd std_hash fuel (ORIG : string → list arg → R) name args m m' :
  getMountPoints mtab m = Ret tt m' → (∃ p, Path p ∈ args) → Forall (foreign fuel m') args →
  Wrappers.forward mtab cwd std_hash fuel ORIG name args m = Ret (ORIG name args) m'.
Proof.
  intros Hm Hex Hargs. unfold Wrappers.forward.
  assert (Hgo : ∀ args m, getMountPoints mtab m = Ret tt m' → Forall (foreign fuel m') args → 
    (∃ p, Path p ∈ args) ∨ m = m' → Wrappers.change_args mtab cwd std_hash fuel args m = Ret args m').
  { clear. induction args as [|[p|z] args IH]; intros m Hm Hargs Hor; cbn [Wrappers.change_args].
    - destruct Hor as [[p Hp]| ->]; [by apply elem_of_nil in Hp|done].
    - apply Forall_cons in Hargs as [Hp Hargs]. rewrite (mbind_Ret _ _ _ _ _ (change_foreign _ cwd std_hash _ _ _ _ Hm Hp)).
      rewrite (mbind_Ret _ _ _ _ _ (IH m' (getMountPoints_cached _ _ _ Hm) Hargs (or_intror eq_refl))).
      destruct Hp as (cs & -> & _ & _ & _ & Hn & _). by rewrite c_str_no_nul.
    - apply Forall_cons in Hargs as [_ Hargs]. rewrite (mbind_Ret _ _ _ _ _ (IH m Hm Hargs ltac:(set_solver))). done. }
  rewrite (mbind_Ret _ _ _ _ _ (Hgo args m Hm Hargs (or_introl Hex))). done.
Qed.

Lemma forward_transparent_witness :
  let args := [Path (lit "/etc/passwd"); Arg 0] in
  Wrappers.forward [(lit "hflat", lit "/mnt/hflat")] (lit "/home") (λ s, size_ s) 5 (λ n a, (n, a)) "stat" args [] =
    Ret ("stat"%string, args) [lit "/mnt/hflat"].
Proof.
  intros args. apply (forward_transparent [(lit "hflat", lit "/mnt/hflat")] (lit "/home") (λ s, size_ s) 5 (λ n a, (n, a)) "stat" args).
  - reflexivity.
  - exists (lit "/etc/passwd"). by left.
  - constructor; [|by repeat constructor]. exists [lit "etc"; lit "passwd"].
    split; [done|]. split; [done|]. split; [cbn; lia|]. split; [by repeat constructor|].
    split; [by vm_compute; set_solver|]. split; [by vm_compute|]. by repeat constructor.
Defined.

(** ** Paths with ".." *)

(** A ".." at the root: [find_last_of] starts at [pos - 1], which wraps to [npos],
    finds the last slash of the whole path, and everything behind it is erased. *)
Lemma dotdot_step (mnts : mounts) f s : size_ s + 8 < npos → ∃ s', size_ s' <= size_ s ∧
  realpath_loop (S f) (lit "/../" ++ s) 0 mnts = realpath_loop f (lit "/../" ++ s') 0 mnts.
Proof.
  intros Hs. pose proof (size_nonneg s). assert (Hsz : size_ (lit "/../" ++ s) = 4 + size_ s) by (by rewrite size_app).
  assert (Hlast : ∃ u t, lit "/../" ++ s = lit "/../" ++ u ++ t ∧ size_ (u ++ t) = size_ s ∧
    find_last_of (lit "/") (lit "/../" ++ s) + 1 = size_ (lit "/../" ++ u)).
  { destruct (split_last (lit "/") s) as [Hf|(u & a & t & -> & Ha & Hf)].
    - exists [], s. split; [done|split; [done|]]. change (lit "/../" ++ s) with (lit "/.." ++ slash :: s).
      by rewrite find_last_of_hit.
    - exists (u ++ [a]), t. split; [by rewrite <- app_assoc|split; [by rewrite <- app_assoc|]].
      rewrite app_assoc, find_last_of_hit by done. by rewrite app_assoc, (size_app _ [a]). }
  destruct Hlast as (u & t & E & Hu & Hpre). exists u. rewrite size_app in Hu. pose proof (size_nonneg t). split; [lia|].
  pose proof (size_nonneg u) as Hu0. set (pre := find_last_of (lit "/") (lit "/../" ++ s)) in *.
  assert (Hpre' : pre = 3 + size_ u) by (rewrite size_app in Hpre; change (size_ (lit "/../")) with 4 in Hpre; lia).
  cbn [realpath_loop]. rewrite (wrap64_id (size_ _ - 1)) by (rewrite Hsz; unfold npos in *; lia).
  change (0 =? npos) with false. rewrite (proj2 (Z.ltb_lt _ _)) by (rewrite Hsz; lia). cbn [negb andb].
  assert (H1 : char_at (lit "/../" ++ s) (0 + 1) mnts = Ret dot mnts) by apply (char_at_run [slash] dot (lit "./" ++ s)).
  assert (H2 : char_at (lit "/../" ++ s) (0 + 2) mnts = Ret dot mnts) by apply (char_at_run (lit "/.") dot (lit "/" ++ s)).
  step_by H1. rewrite bool_decide_false by done. rewrite mbind_ret_l. step_by H1. rewrite bool_decide_true by done.
  rewrite (proj2 (Z.leb_gt _ _)) by (rewrite Hsz; lia). rewrite mbind_assoc. step_by H2. rewrite mbind_ret_l.
  rewrite bool_decide_false by done. cbv iota. step_by H2. rewrite bool_decide_true by done.
  unfold find_last_of_at. replace (wrap64 (0 - 1)) with npos by reflexivity.
  rewrite (proj2 (Z.ltb_ge _ _)) by (rewrite Hsz; lia).
  fold pre. unfold erase_. rewrite (wrap64_id (pre + 1)) by (unfold npos in *; lia).
  rewrite (proj2 (Z.ltb_ge _ _)) by (rewrite Hsz; lia). rewrite mbind_ret_l, Hpre, E, app_assoc. rewrite erase_tail; [done|].
  replace (0 - pre + 2) with (- (1 + size_ u)) by lia. unfold wrap64, npos, u64_mod in *. 
  rewrite <- (Z_mod_plus_full _ 1), Z.mod_small; lia.
Qed.

(** A path that starts with "/../" makes the library loop for ever: whatever
    follows and however long it runs, [_realpath] does not return. *)
Theorem realpath_dotdot_hangs cwd fuel s (mnts : mounts) : size_ s + 8 < npos →
  _realpath cwd fuel (lit "/../" ++ s) mnts = NoFuel mnts.
Proof.
  intros Hs. unfold _realpath. step_by (char_at_run (m := mnts) [] slash (lit "../" ++ s)). rewrite bool_decide_true by done.
  change (find_first_of (lit "/") (lit "/../" ++ s) 0) with 0. revert s Hs.
  induction fuel as [|f IH]; intros s Hs; [done|]. destruct (dotdot_step mnts f s Hs) as (s' & Hs' & ->). apply IH. lia.
Qed.

Lemma realpath_dotdot_hangs_witness : _realpath (lit "/home") 50 (lit "/../" ++ lit "etc/passwd") [] = NoFuel [].
Proof. apply (realpath_dotdot_hangs (lit "/home") 50 (lit "etc/passwd") []). by vm_compute. Defined.

(** Other paths the loop does not normalise: the erased range starts behind the
    slash before the removed component, the position is not moved back, and a name
    that merely starts with two dots is treated as "..". *)
Example realpath_dotdot_doubles_slash : realpath_of "/a/../b" = Ret (lit "//b") [].
Proof. reflexivity. Qed.
Example realpath_dotdot_out_of_range : realpath_of "/a/b/../c/d" = Undef [].
Proof. reflexivity. Qed.
Example realpath_dotdot_prefix : realpath_of "/a/..x/b" = Ret (lit "/x/b") [].
Proof. reflexivity. Qed.

(** The mount point is compared as a string, not as a directory: a sibling whose
    name starts with the mount point's is rewritten too. *)
Example change_sibling :
  change [(lit "hflat", lit "/mnt/hf")] (lit "/home") (λ s, size_ s) 9 (lit "/mnt/hfoo/x") [] =
    Ret (lit "/mnt/hfo:11:/o:x") [lit "/mnt/hf"].
Proof. reflexivity. Qed.

(** A ':' in a name below the mount point is taken for a virtual directory. *)
Example change_colon_name :
  change [(lit "hflat", lit "/mnt/hf")] (lit "/home") (λ s, size_ s) 9 (lit "/mnt/hf/a:b/c") [] =
    Ret (lit "/mnt/hf/:10:/ac") [lit "/mnt/hf"].
Proof. reflexivity. Qed.
