(* ===== verification/FuseFacts.v ===== *)
(** * Properties of the file system operations *)
From S2P Require Import Prelude CppString Proto PathMapDB LRUCache DataInfo MetadataInfo Kinetic FsState Demo KineticHelper Util Lookup Directory File Data Link Rename Fsck Xattr HelperFacts.

(** ** Strings *)

Lemma substr_tail u a s : substr (u ++ a :: s) (size_ u + 1) (size_ (u ++ a :: s)) = s.
Proof.
  pose proof (size_nonneg u). pose proof (size_nonneg s). unfold substr.
  rewrite size_app, size_cons. destruct (Z.leb_spec (size_ u + (1 + size_ s)) (size_ u + 1)).
  - assert (Hs : size_ s = 0) by lia. unfold size_ in Hs. by destruct s.
  - rewrite Z.min_r by lia. replace (Z.to_nat (size_ u + 1)) with (length (u ++ [a])).
    2:{ rewrite length_app. unfold size_ in *. cbn. lia. }
    change (a :: s) with ([a] ++ s). rewrite app_assoc, drop_app_length. apply take_ge. unfold size_ in *. lia.
Qed.

Lemma substr_head u a s : substr (u ++ a :: s) 0 (size_ u) = u.
Proof.
  unfold substr. pose proof (size_nonneg u). pose proof (size_nonneg s).
  rewrite size_app, size_cons. destruct (Z.leb_spec (size_ u + (1 + size_ s)) 0); [lia|].
  rewrite Z.min_l by lia. rewrite drop_0. apply take_size.
Qed.

Lemma wrap64_succ s : size_ s + 1 < u64_mod → wrap64 (size_ s + 1) = size_ s + 1.
Proof. intros. apply wrap64_id. pose proof (size_nonneg s). lia. Qed.

(** ** Names of recovery entries *)

Lemma path_to_filename_spec dir a name :
  char_in a (lit "/:") = true → free_of (lit "/:") name → size_ (dir ++ a :: name) < u64_mod →
  path_to_filename (dir ++ a :: name) = name.
Proof.
  intros Ha Hf Hlen. unfold path_to_filename. rewrite find_last_of_hit by done.
  pose proof (size_nonneg dir). pose proof (size_nonneg name). rewrite size_app, size_cons in Hlen.
  rewrite wrap64_succ by lia. unfold substr. rewrite size_app, size_cons.
  destruct (Z.leb_spec (size_ dir + (1 + size_ name)) (size_ dir + 1)).
  - assert (Hs : size_ name = 0) by lia. unfold size_ in Hs. by destruct name.
  - replace (Z.to_nat (size_ dir + 1)) with (length (dir ++ [a])).
    2:{ rewrite length_app. unfold size_ in *. cbn. lia. }
    change (a :: name) with ([a] ++ name). rewrite app_assoc, drop_app_length. apply take_ge.
    unfold npos, u64_mod, size_ in *. lia.
Qed.

(** What [hflat_rename] writes down, fsck reads back: from the name of a
    recovery entry in directory [dir] it recovers the origin path and the target
    path of the interrupted rename, and it recognises the entry as one. The paths
    must not contain the separator. *)
Theorem recovery_entry_roundtrip from dir name :
  let to := dir ++ lit "/" ++ name in
  let entry := recovery_direntry from to in
  free_of (lit "|") from → free_of (lit "|") name → free_of (lit "/:") name →
  last dir ≠ Some "/"%char → size_ to + size_ from + 11 < u64_mod →
  recover_origin entry = from ∧ recover_target dir entry = to ∧ find_first_of (lit "|") entry 0 ≠ npos.
Proof.
  intros to entry Hfrom Hbar Hname Hdir Hlen. pose proof (size_nonneg from). pose proof (size_nonneg name). pose proof (size_nonneg dir).
  assert (Eto : to = dir ++ "/"%char :: name) by done.
  assert (Hto : size_ to = size_ dir + (1 + size_ name)) by (by rewrite Eto, size_app, size_cons).
  assert (Hentry : entry = name ++ "|"%char :: (lit "recovery|" ++ from)).
  { unfold entry, recovery_direntry. rewrite Eto, path_to_filename_spec; [done|done|done|rewrite <- Eto; lia]. }
  assert (Hentry' : entry = (name ++ lit "|recovery") ++ "|"%char :: from) by (rewrite Hentry, <- app_assoc; done).
  assert (Hlast : find_last_of (lit "|") entry = size_ (name ++ lit "|recovery")) by (rewrite Hentry'; by apply find_last_of_hit).
  assert (Hfirst : find_first_of (lit "|") entry 0 = size_ name) by (rewrite Hentry; by apply find_first_of_hit).
  split; [|split].
  - unfold recover_origin. rewrite Hlast, wrap64_succ.
    + rewrite Hentry'. apply substr_tail.
    + rewrite size_app. change (size_ (lit "|recovery")) with 9. lia.
  - unfold recover_target. rewrite bool_decide_false by done. rewrite Hfirst, Hentry, substr_head. unfold to. by rewrite <- app_assoc.
  - rewrite Hfirst. unfold npos. lia.
Qed.

Lemma recovery_entry_roundtrip_witness :
  recover_origin (recovery_direntry (lit "/a/x") (lit "/b/y")) = lit "/a/x" ∧
  recover_target (lit "/b") (recovery_direntry (lit "/a/x") (lit "/b/y")) = lit "/b/y".
Proof.
  destruct (recovery_entry_roundtrip (lit "/a/x") (lit "/b") (lit "y")) as (H1 & H2 & _).
  - by repeat constructor.
  - by repeat constructor.
  - by repeat constructor.
  - discriminate.
  - reflexivity.
  - split; [exact H1|exact H2].
Defined.

(** [hflat_rename] refuses every target that merely begins with the name of
    the source: the test for a rename into the source's own subtree compares
    characters, not path components, so [/a] cannot be renamed to [/ab]. *)
Theorem rename_refuses_longer_names {W} `{!Env} `{!KineticNamespace W} fuel from suffix (s : hflat_priv W) :
  hflat_rename fuel from (from ++ suffix) s = Ret (- EINVAL) s.
Proof.
  unfold hflat_rename, mbind_, rename_lookup.
  assert (is_prefix from (from ++ suffix) = true) as -> by (apply is_prefix_spec; eauto). done.
Qed.

(** ** Listing extended attributes *)

Fixpoint xattr_names (xs : list ExtendedAttribute) : cstr :=
  match xs with [] => [] | x :: xs => xa_name x ++ Ascii.zero :: xattr_names xs end.

Section Xattrs.
Context {W : Type} `{!Env} `{!KineticNamespace W}.

Lemma poke_fits (buf bytes : cstr) pos (s : hflat_priv W) : (pos + length bytes <= length buf)%nat →
  poke buf pos bytes s = Ret (take pos buf ++ bytes ++ drop (pos + length bytes) buf) s.
Proof. intros Hl. unfold poke. by rewrite (proj2 (Nat.leb_le _ _)). Qed.

(** The loop with [done] already written; [total] is the size of the whole list. *)
Lemma listxattr_loop_run xs pre buf size (s : hflat_priv W) :
  Forall (λ x, no_nul (xa_name x)) xs → size_ buf = size →
  let bytes := xattr_names xs in
  ∃ r buf', listxattr_loop xs (size_ pre) (pre ++ drop (length pre) buf) size s = Ret (r, buf') s ∧
    (size = 0 → r = to_i32 (size_ pre + size_ bytes) ∧ buf' = pre ++ drop (length pre) buf) ∧
    (0 < size → size_ pre <= size →
     (size_ pre + size_ bytes <= size →
      r = to_i32 (size_ pre + size_ bytes) ∧ buf' = pre ++ bytes ++ drop (length pre + length bytes) buf) ∧
     (size < size_ pre + size_ bytes → r = - ERANGE ∧ size_ buf' = size)).
Proof.
  intros Hx Hbuf bytes. unfold bytes. clear bytes. revert pre. induction Hx as [|x xs Hx Hxs IH]; intros pre.
  - eexists _, _. split; [done|]. cbn [xattr_names]. rewrite size_nil, Z.add_0_r, Nat.add_0_r. cbn [app]. naive_solver lia.
  - cbn [listxattr_loop xattr_names]. rewrite (c_str_no_nul _ Hx).
    set (item := xa_name x ++ [Ascii.zero]).
    assert (Hitem : size_ item = size_ (xa_name x) + 1) by (unfold item; by rewrite size_app).
    assert (Hall : xa_name x ++ Ascii.zero :: xattr_names xs = item ++ xattr_names xs) by (unfold item; by rewrite <- app_assoc).
    rewrite Hall, size_app. pose proof (size_nonneg pre). pose proof (size_nonneg item). pose proof (size_nonneg (xattr_names xs)).
    replace (size_ pre + (size_ (xa_name x) + 1)) with (size_ (pre ++ item)) by (rewrite size_app; lia).
    destruct (Z.eqb_spec size 0) as [Hz|Hnz].
    { (* only counting: the buffer is empty *)
      assert (buf = []) as -> by (unfold size_ in Hbuf; destruct buf; [done|cbn in *; lia]). rewrite drop_nil, app_nil_r.
      assert (Hcount : ∀ ys n, listxattr_loop ys n pre size s = Ret (to_i32 (n + size_ (xattr_names ys)), pre) s).
      { induction ys as [|y ys IHy]; intros n; cbn [listxattr_loop xattr_names]; [by rewrite size_nil, Z.add_0_r|].
        rewrite (proj2 (Z.eqb_eq _ _)) by done. rewrite IHy. do 3 f_equal. rewrite size_app, size_cons. lia. }
      eexists _, _. split; [apply Hcount|]. split; [|lia]. intros _. split; [|done]. f_equal. rewrite size_app. lia. }
    destruct (Z.ltb_spec size (size_ (pre ++ item))) as [Hover|Hfit]; rewrite size_app in *.
    { eexists _, _. split; [done|]. split; [done|]. intros _ Hpre. split; [lia|]. intros _. split; [done|].
      rewrite size_app. unfold size_ in *. rewrite length_drop. lia. }
    assert (Hpoke : poke (pre ++ drop (length pre) buf) (Z.to_nat (size_ pre)) item s =
      Ret ((pre ++ item) ++ drop (length (pre ++ item)) buf) s).
    { rewrite poke_fits by (rewrite length_app, length_drop; unfold size_ in *; lia). f_equal. unfold size_.
      rewrite Nat2Z.id, take_app_length, <- app_assoc. do 2 f_equal.
      rewrite drop_app_ge by lia. rewrite drop_drop, length_app. f_equal. lia. }
    step_by Hpoke. rewrite <- size_app. destruct (IH (pre ++ item)) as (r & buf' & Hrun & _ & H3).
    exists r, buf'. split; [exact Hrun|]. split; [done|]. intros Hpos Hpre. rewrite size_app, length_app, <- !app_assoc in H3.
    destruct (H3 Hpos Hfit) as [H4 H5]. split.
    + intros Hle. destruct H4 as [-> ->]; [lia|]. split; [f_equal; lia|]. rewrite <- app_assoc. do 4 f_equal. rewrite length_app. lia.
    + intros Hlt. apply H5. lia.
Qed.
(** C40: [hflat_listxattr] never writes outside the caller's buffer. With an empty
    buffer it returns the size of the name list; with a large enough one it
    writes the NUL-terminated names one after the other and nothing else; with a
    smaller one it returns [-ERANGE]. *)
Theorem listxattr_respects_buffer fuel path buf size (s s' : hflat_priv W) l m :
  lookup fuel path None s = Ret (0, Some l) s' → heap_md s' !! l = Some m →
  Forall (λ x, no_nul (xa_name x)) (md_xattr (md m)) → size_ buf = size →
  let names := xattr_names (md_xattr (md m)) in
  ∃ r buf', hflat_listxattr fuel path buf size s = Ret (r, buf') s' ∧ size_ buf' = size ∧
    (size = 0 → r = to_i32 (size_ names)) ∧
    (0 < size → size_ names <= size → r = to_i32 (size_ names) ∧ buf' = names ++ drop (length names) buf) ∧
    (0 < size < size_ names → r = - ERANGE).
Proof.
  intros Hl Hm Hx Hbuf names. unfold hflat_listxattr. step_by Hl. cbn [negb Z.eqb]. unfold mbind_ at 1, non_null, mret_.
  step_by (getMD_run l s' m Hm).
  destruct (listxattr_loop_run (md_xattr (md m)) [] buf size s' Hx Hbuf) as (r & buf' & Hrun & Hzero & Hsome).
  cbn [app length size_] in *. rewrite drop_0 in Hrun, Hzero. change (size_ []) with 0 in *. cbn [Nat.add] in Hsome.
  exists r, buf'. split; [exact Hrun|]. fold names in Hzero, Hsome. pose proof (size_nonneg buf). pose proof (size_nonneg names).
  destruct (decide (size = 0)) as [Hz|Hnz].
  - destruct (Hzero Hz) as [-> ->]. split; [done|]. split; [done|]. lia.
  - destruct (Hsome ltac:(lia) ltac:(lia)) as [Hfit Hbig]. split; [|split; [done|split; [intros _; exact Hfit|intros; apply Hbig; lia]]].
    destruct (decide (size_ names <= size)) as [Hle|Hgt]; [|apply Hbig; lia]. destruct (Hfit Hle) as [_ ->].
    rewrite size_app. unfold size_ in *. rewrite length_drop. lia.
Qed.
End Xattrs.

Definition demo_xattr : Metadata := set_xattr [mk_ExtendedAttribute (lit "user.a") (lit "v")] demo_file.
Definition demo_xattr_drive : store :=
  <[ lit "/f" := mk_KineticRecord (@SerializeAsString _ (@env_metadata demo_env) demo_xattr) (lit "r1") ]> demo_drive.

Lemma listxattr_respects_buffer_witness :
  ∃ r buf s', @hflat_listxattr _ demo_env drive_namespace 9 (lit "/f") (lit "ABCDEFGHI") 9 (demo_mount demo_xattr_drive) = Ret (r, buf) s' ∧
    buf = lit "user.a" ++ [Ascii.zero] ++ lit "HI".
Proof.
  set (o := @lookup _ demo_env drive_namespace 9 (lit "/f") None (demo_mount demo_xattr_drive)).
  destruct (@listxattr_respects_buffer _ demo_env drive_namespace 9 (lit "/f") (lit "ABCDEFGHI") 9 (demo_mount demo_xattr_drive)
    (state_after o (demo_mount demo_xattr_drive)) 1 (mk_MetadataInfo (lit "/f") (lit "r1") demo_xattr None))
    as (r & buf & H1 & _ & _ & H2 & _).
  - apply result_of_Ret. vm_compute. reflexivity.
  - vm_compute. reflexivity.
  - constructor; [apply (bool_decide_unpack _); vm_compute; exact I|constructor].
  - reflexivity.
  - exists r, buf, (state_after o (demo_mount demo_xattr_drive)). split; [exact H1|]. apply H2; vm_compute; [done|discriminate].
Defined.

(** ** Reading and writing blocks *)
Section Blocks.
Context {W : Type} `{!Env} `{!KineticNamespace W}.
Implicit Types (s : hflat_priv W).

(** The block [key] is in the data cache, cannot expire, and nobody is loading
    it. *)
Definition block_cached s (key : cstr) (l : loc) (d : DataInfo) : Prop :=
  wf (di_getKey s) (data_cache s) ∧ (key ∉ blocked_keys (data_cache s)) ∧ peek (data_cache s) key = Some l ∧
  heap_di s !! l = Some d ∧ (hasUpdates d = true ∨ expiration_time (data_cache s) = 0).

(** A hit moves the node to the front and changes nothing else. *)
Lemma dc_get_hit s key l d : block_cached s key l d →
  ∃ c', let s' := set_data_cache c' (set_inputs (uuids_used s) (S (steady_used s)) (time_used s) s) in
    dc_get key s = Ret (Some l) s' ∧ block_cached s' key l d.
Proof.
  intros (Hwf & Hb & Hp & Hd & Hexp). unfold peek in Hp. destruct (lookup_ (data_cache s) !! key) as [id|] eqn:Hl; [|done].
  destruct (wf_lookup _ _ _ _ Hwf Hl) as (e & Hf & Hin & Hid & Hk). cbn in Hp. rewrite Hf in Hp. cbn in Hp. injection Hp as <-.
  set (now := env_steady (steady_used s)).
  assert (He : expired (di_hasUpdates s) now (data_cache s) e = false).
  { unfold expired, di_hasUpdates. rewrite Hd. destruct Hexp as [-> | ->]; [done|]. by case_match. }
  exists (set_nodes (e :: erase_node id (cache (data_cache s))) (lookup_ (data_cache s)) (data_cache s)).
  split.
  - unfold dc_get, mbind_, steady_now, zoom. cbn [data_cache set_inputs]. fold now.
    change (di_hasUpdates (set_inputs _ _ _ s)) with (di_hasUpdates s).
    by rewrite (get_hit (di_getKey s) (di_hasUpdates s) (data_cache s) key now id e).
  - split; [|split; [done|split; [|done]]].
    + apply wf_front; [done|]. subst id. apply erase_node_perm; [by eapply wf_ids|done].
    + unfold peek. cbn. rewrite Hl. cbn. by rewrite Hid, Nat.eqb_refl.
Qed.

Lemma data_cached_hit f s key l d load : block_cached s key l d →
  ∃ c', let s' := set_data_cache c' (set_inputs (uuids_used s) (S (steady_used s)) (time_used s) s) in
    data_cached (S f) key load s = Ret (0, Some l) s' ∧ block_cached s' key l d.
Proof.
  intros Hc. destruct (dc_get_hit s key l d Hc) as (c' & Hg & Hc'). exists c'. split; [|done].
  cbn [data_cached]. by rewrite (mbind_Ret _ _ _ _ _ Hg).
Qed.

(** The position of an access inside its block, and its length. *)
Definition in_block (bs offset : Z) : Z := offset mod bs.
Definition in_block_size (bs offset size : Z) : Z := Z.min size (bs - in_block bs offset).

Lemma block_arith bs offset size :
  0 < bs <= block_limit → 0 <= offset < 2147483648 → 0 < size < 2147483648 →
  let blocknum := to_i32 (Z.quot offset bs) in
  let start := to_i32 (offset - blocknum * bs) in
  blocknum = offset / bs ∧ fits_int (blocknum * bs) = true ∧ start = in_block bs offset ∧
  to_i32 (if wrap64 (bs - start) <? size then bs - start else size) = in_block_size bs offset size ∧
  0 <= in_block bs offset < bs ∧ 0 < in_block_size bs offset size <= size.
Proof.
  unfold block_limit, in_block_size, in_block. intros Hbs Ho Hs. rewrite Z.quot_div_nonneg by lia.
  pose proof (Z.mod_pos_bound offset bs ltac:(lia)). pose proof (Z.div_mod offset bs ltac:(lia)).
  assert (0 <= offset / bs <= offset) by (split; [apply Z.div_pos; lia|apply Z.div_le_upper_bound; nia]).
  rewrite to_i32_id by (unfold is_int32; lia). cbv zeta. assert (Hst : offset - offset / bs * bs = offset mod bs) by lia.
  rewrite Hst. rewrite to_i32_id by (unfold is_int32; lia). rewrite wrap64_id by (unfold u64_mod; lia).
  split; [done|]. split; [unfold fits_int; lia|]. split; [done|].
  split; [|lia]. destruct (Z.ltb_spec (bs - offset mod bs) size); rewrite to_i32_id by (unfold is_int32; lia); lia.
Qed.

(** The parameters of an access that the theorems below share. *)
Definition access_ok s (mdi : loc) (m : MetadataInfo) (size offset : Z) : Prop :=
  heap_md s !! mdi = Some m ∧ 0 < blocksize s <= block_limit ∧ 0 <= offset < 2147483648 ∧ 0 < size < 2147483648.

Definition access_key s (m : MetadataInfo) (offset : Z) : cstr :=
  data_key (md_inode_number (md m)) (offset / blocksize s).

Lemma updateData_take buf o n d : updateData (take (Z.to_nat n) buf) o n d = updateData buf o n d.
Proof. unfold updateData. by rewrite take_take, Nat.min_id. Qed.

(** An access to a cached block works on that block. *)
Lemma do_rw_hit f buf size offset s mdi m mode l d :
  heap_md s !! mdi = Some m → 0 < blocksize s → 0 <= offset → offset / blocksize s < 2147483648 →
  block_cached s (access_key s m offset) l d →
  ∃ c', let s1 := set_data_cache c' (set_inputs (uuids_used s) (S (steady_used s)) (time_used s) s) in
    do_rw (S f) buf size offset mdi mode s = rw_in_block buf size offset (offset / blocksize s) l mode s1 ∧
    block_cached s1 (access_key s m offset) l d.
Proof.
  intros Hm Hbs Ho Hq Hc. unfold do_rw, mbind_ at 1, get_. unfold mbind_ at 1, quot_.
  destruct (Z.eqb_spec (blocksize s) 0); [lia|]. unfold mret_ at 1. step_by (getMD_run mdi s m Hm).
  assert (0 <= offset / blocksize s) by (apply Z.div_pos; lia).
  rewrite Z.quot_div_nonneg, to_i32_id by (unfold is_int32; lia). fold (access_key s m offset).
  match goal with |- context [data_cached _ _ ?ld] => destruct (data_cached_hit f s _ l d ld Hc) as (c' & Hg & Hc') end.
  exists c'. split; [|exact Hc']. step_by Hg. done.
Qed.

Lemma div_small bs offset : 0 < bs → 0 <= offset < 2147483648 → offset / bs < 2147483648.
Proof. intros. apply Z.div_lt_upper_bound; nia. Qed.

(** The second half of a write. *)
Lemma rw_in_block_write buf size offset s l d :
  0 < blocksize s <= block_limit → 0 <= offset < 2147483648 → 0 < size < 2147483648 → size_ buf = size →
  heap_di s !! l = Some d →
  let n := in_block_size (blocksize s) offset size in
  let o := in_block (blocksize s) offset in
  ∃ b, let d' := push_update (o, n) (set_d b d) in
    rw_in_block buf size offset (offset / blocksize s) l WRITE s =
      Ret (n, Some l, buf) (set_heap (heap_md s) (<[l := d']> (heap_di s)) (next_loc s) s) ∧
    size_ b = Z.max (o + n) (size_ (di_d d)) ∧
    ∀ i, byte_at b i = if decide (o <= Z.of_nat i < o + n) then byte_at buf (i - Z.to_nat o) else byte_at (di_d d) i.
Proof.
  intros Hbs Ho Hs Hbuf Hd n o. destruct (block_arith (blocksize s) offset size Hbs Ho Hs) as (Hbn & Hfit & Hst & Hn & Hin & Hnb).
  fold n in Hn, Hnb. fold o in Hst, Hin. rewrite Hbn in *. unfold rw_in_block, mbind_ at 1, get_.
  rewrite Hfit. cbn [negb]. rewrite Hst in *. rewrite Hn. rewrite wrap64_id by (unfold u64_mod; lia).
  assert (Hlim : o + n <= block_limit) by (unfold o, n, in_block_size in *; lia).
  assert (Hlen : size_ (take (Z.to_nat n) buf) = n) by (unfold size_ in *; rewrite length_take; lia).
  destruct (updateData_run (take (Z.to_nat n) buf) o n d) as (b & Hup & Hsz & Hby); [lia..|]. rewrite updateData_take in Hup.
  exists b. step_by (on_datainfo_run l s d _ _ _ Hd Hup). split; [done|]. split; [done|].
  intros i. rewrite Hby. case_decide as Hi; [|done]. unfold byte_at. rewrite lookup_take_lt by lia. done.
Qed.

(** A block that is changed stays in the cache. *)
Lemma cached_write s l d d' : wf (di_getKey s) (data_cache s) → heap_di s !! l = Some d → di_key d' = di_key d →
  wf (di_getKey (set_heap (heap_md s) (<[l := d']> (heap_di s)) (next_loc s) s)) (data_cache s).
Proof.
  intros Hwf Hd Hk. eapply wf_getKey_ext; [exact Hwf|]. intros e _. unfold di_getKey; cbn. rewrite lookup_insert.
  case_decide; [|done]. subst. by rewrite Hd.
Qed.

Lemma do_rw_write f buf size offset s mdi m l d :
  access_ok s mdi m size offset → block_cached s (access_key s m offset) l d → size_ buf = size →
  let n := in_block_size (blocksize s) offset size in
  ∃ s' d', do_rw (S f) buf size offset mdi WRITE s = Ret (n, Some l, buf) s' ∧
    access_ok s' mdi m size offset ∧ blocksize s' = blocksize s ∧
    block_cached s' (access_key s m offset) l d' ∧
    size_ (di_d d') = Z.max (in_block (blocksize s) offset + n) (size_ (di_d d)) ∧
    ∀ i, byte_at (di_d d') i =
      if decide (in_block (blocksize s) offset <= Z.of_nat i < in_block (blocksize s) offset + n)
      then byte_at buf (i - Z.to_nat (in_block (blocksize s) offset)) else byte_at (di_d d) i.
Proof.
  intros (Hm & Hbs & Ho & Hs) Hc Hbuf n. destruct (do_rw_hit f buf size offset s mdi m WRITE l d Hm ltac:(lia) ltac:(lia)
    ltac:(apply div_small; lia) Hc) as (c' & -> & Hc').
  set (s1 := set_data_cache c' _) in *. pose proof Hc' as (Hwf & Hb & Hp & Hd & Hexp).
  destruct (rw_in_block_write buf size offset s1 l d Hbs Ho Hs Hbuf Hd) as (b & Hrun & Hsz & Hby).
  eexists _, (push_update (in_block (blocksize s) offset, n) (set_d b d)). split; [exact Hrun|]. split; [exact (conj Hm (conj Hbs (conj Ho Hs)))|]. split; [reflexivity|]. split; [|split; [exact Hsz|exact Hby]].
  split; [exact (cached_write s1 l d (push_update (in_block (blocksize s) offset, n) (set_d b d)) Hwf Hd eq_refl)|]. split; [done|]. split; [done|]. split; [apply lookup_insert_eq|left].
  unfold hasUpdates; cbn. by destruct (di_updates d).
Qed.

Lemma byte_at_zeros n i : byte_at (replicate n Ascii.zero) i = Ascii.zero.
Proof. unfold byte_at. destruct (replicate _ _ !! i) eqn:E; [|done]. by apply lookup_replicate in E as [-> _]. Qed.

Lemma byte_at_ge (b : cstr) i : size_ b <= Z.of_nat i → byte_at b i = Ascii.zero.
Proof. intros. unfold byte_at. rewrite lookup_ge_None_2; [done|]. unfold size_ in *. lia. Qed.

(** A piece copied to the front of a zeroed buffer. *)
Lemma byte_at_front piece n i :
  byte_at (take 0 (replicate n Ascii.zero) ++ piece ++ drop (0 + length piece) (replicate n Ascii.zero)) i =
  if decide (Z.of_nat i < size_ piece) then byte_at piece i else Ascii.zero.
Proof.
  rewrite take_0. cbn [app]. unfold byte_at at 1. case_decide as Hi.
  - by rewrite lookup_app_l by (unfold size_ in *; lia).
  - rewrite lookup_app_r by (unfold size_ in *; lia). rewrite lookup_drop. apply byte_at_zeros.
Qed.

(** The second half of a read. *)
Lemma rw_in_block_read buf size offset s l d :
  0 < blocksize s <= block_limit → 0 <= offset < 2147483648 → 0 < size < 2147483648 → size_ buf = size →
  heap_di s !! l = Some d → size_ (di_d d) <= block_limit →
  let n := in_block_size (blocksize s) offset size in
  ∃ buf', rw_in_block buf size offset (offset / blocksize s) l READ s = Ret (n, Some l, buf') s ∧ size_ buf' = size ∧
    ∀ i, byte_at buf' i = if decide (Z.of_nat i < n) then byte_at (di_d d) (Z.to_nat (in_block (blocksize s) offset) + i)
                          else Ascii.zero.
Proof.
  intros Hbs Ho Hs Hbuf Hd Hlim n. destruct (block_arith (blocksize s) offset size Hbs Ho Hs) as (Hbn & Hfit & Hst & Hn & Hin & Hnb).
  fold n in Hn, Hnb. rewrite Hbn in *. unfold rw_in_block, mbind_ at 1, get_.
  rewrite Hfit. cbn [negb]. rewrite Hst in *. rewrite Hn. set (o := in_block (blocksize s) offset) in *.
  step_by (deref_di_run l s d Hd). set (zeros := replicate (Z.to_nat size) Ascii.zero).
  pose proof (size_nonneg (di_d d)). unfold block_limit in *.
  rewrite (to_i32_id (size_ (di_d d))) by (unfold is_int32; lia).
  assert (Hzl : length zeros = Z.to_nat size) by apply length_replicate.
  assert (Hz : poke buf 0 zeros s = Ret zeros s).
  { unfold size_ in *. rewrite poke_fits by lia. rewrite drop_ge by lia. by rewrite app_nil_r. }
  step_by Hz. destruct (Z.ltb_spec 0 (Z.min n (size_ (di_d d) - o))) as [Hcp|Hcp].
  - destruct (Z.ltb_spec o 0); [lia|]. destruct (Z.ltb_spec (size_ (di_d d)) o); [lia|]. cbn [orb].
    destruct (substr_in_range (di_d d) o (Z.min n (size_ (di_d d) - o))) as [Hsl Hsb]; [lia..|].
    set (piece := substr _ _ _) in *. step_by (poke_fits zeros piece 0 s ltac:(unfold size_ in *; lia)).
    eexists _. split; [done|]. split; [unfold size_ in *; rewrite !length_app, length_take, length_drop; lia|].
    intros i. unfold zeros. rewrite byte_at_front. repeat case_decide; [by rewrite Hsb by lia|lia|by rewrite byte_at_ge by lia|done].
  - eexists _. split; [done|]. split; [unfold size_ in *; lia|]. intros i. unfold zeros. rewrite byte_at_zeros.
    case_decide; [|done]. by rewrite byte_at_ge by lia.
Qed.

Lemma do_rw_read f buf size offset s mdi m l d :
  access_ok s mdi m size offset → block_cached s (access_key s m offset) l d → size_ buf = size →
  size_ (di_d d) <= block_limit →
  let n := in_block_size (blocksize s) offset size in
  ∃ s' buf', do_rw (S f) buf size offset mdi READ s = Ret (n, Some l, buf') s' ∧ size_ buf' = size ∧
    ∀ i, byte_at buf' i = if decide (Z.of_nat i < n) then byte_at (di_d d) (Z.to_nat (in_block (blocksize s) offset) + i)
                          else Ascii.zero.
Proof.
  intros (Hm & Hbs & Ho & Hs) Hc Hbuf Hlim n. destruct (do_rw_hit f buf size offset s mdi m READ l d Hm ltac:(lia) ltac:(lia)
    ltac:(apply div_small; lia) Hc) as (c' & -> & (_ & _ & _ & Hd & _)).
  set (s1 := set_data_cache c' _) in *.
  destruct (rw_in_block_read buf size offset s1 l d Hbs Ho Hs Hbuf Hd Hlim) as (buf' & Hrun & ?). by exists s1, buf'.
Qed.

(** Data read back are the data written. A write to a cached block reports
    the part [n] of the request that lies in the block; a read of those [n] bytes
    at the same offset then returns exactly them, with the cache entry still in
    place. *)
Theorem do_rw_write_then_read f g buf size offset s mdi m l d :
  access_ok s mdi m size offset → block_cached s (access_key s m offset) l d → size_ buf = size →
  size_ (di_d d) <= block_limit →
  let n := in_block_size (blocksize s) offset size in
  ∃ s1, do_rw (S f) buf size offset mdi WRITE s = Ret (n, Some l, buf) s1 ∧
    ∀ rbuf, size_ rbuf = n → ∃ s2, do_rw (S g) rbuf n offset mdi READ s1 = Ret (n, Some l, take (Z.to_nat n) buf) s2.
Proof.
  intros Hacc Hc Hbuf Hlim n. pose proof Hacc as (Hm & Hbs & Ho & Hs).
  destruct (block_arith (blocksize s) offset size Hbs Ho Hs) as (_ & _ & _ & _ & Hin & Hnb). fold n in Hnb.
  destruct (do_rw_write f buf size offset s mdi m l d Hacc Hc Hbuf) as (s1 & d1 & H1 & Hacc1 & Hb1 & Hc1 & Hsz & Hby).
  exists s1. split; [exact H1|]. intros rbuf Hr.
  assert (Hn' : in_block_size (blocksize s1) offset n = n) by (unfold n, in_block_size; rewrite Hb1; lia).
  destruct (do_rw_read g rbuf n offset s1 mdi m l d1) as (s2 & rb & H2 & Hl2 & Hby2).
  - destruct Hacc1 as (? & ? & ? & ?). repeat split; try done; lia.
  - unfold access_key. rewrite Hb1. exact Hc1.
  - done.
  - rewrite Hsz. unfold n, in_block_size. lia.
  - exists s2. rewrite H2, Hn'. do 2 f_equal. rewrite Hn' in Hby2.
    apply byte_ext; [unfold size_ in *; rewrite length_take; lia|]. intros i. rewrite Hby2, Hb1. case_decide as Hi.
    + rewrite Hby, decide_True by lia. unfold byte_at. rewrite lookup_take_lt by lia. do 2 f_equal. lia.
    + unfold byte_at. rewrite lookup_ge_None_2; [done|]. rewrite length_take. lia.
Qed.

(** Beyond 2 GiB the position in the block is computed from an [int] product
    that overflows: an access at such an offset is undefined, although file sizes
    up to 4 GiB are accepted. *)
Theorem do_rw_offset_overflow f buf size offset s mdi m mode l d :
  heap_md s !! mdi = Some m → 0 < blocksize s <= block_limit → 2147483648 + blocksize s <= offset < 4294967296 →
  offset / blocksize s < 2147483648 → block_cached s (access_key s m offset) l d →
  ∃ s', do_rw (S f) buf size offset mdi mode s = Undef s'.
Proof.
  intros Hm Hbs Ho Hq Hc. unfold block_limit in *.
  destruct (do_rw_hit f buf size offset s mdi m mode l d Hm ltac:(lia) ltac:(lia) Hq Hc) as (c' & -> & _).
  unfold rw_in_block, mbind_ at 1, get_. cbn [blocksize set_data_cache set_inputs].
  pose proof (Z.mod_pos_bound offset (blocksize s) ltac:(lia)). pose proof (Z.div_mod offset (blocksize s) ltac:(lia)).
  assert (fits_int (offset / blocksize s * blocksize s) = false) as -> by (unfold fits_int; lia). eexists. reflexivity.
Qed.

End Blocks.

(** A client with [/f] at location 1 and the block [key] of it cached. *)
Definition demo_reader (key : cstr) : hflat_priv store :=
  set_data_cache (push_front key 2%nat 0 (LRU_new 0 500))
    (demo_client demo_files (demo_md (lit "r1")) (DataInfo_new key (lit "b1") (lit "ABCDEF"))).

Lemma demo_reader_cached key : block_cached (demo_reader key) key 2 (DataInfo_new key (lit "b1") (lit "ABCDEF")).
Proof.
  split; [apply wf_push; [apply wf_new|done|done]|]. split; [cbn; set_solver|]. split.
  - unfold peek. cbn. by rewrite lookup_insert_eq.
  - split; [done|by right].
Qed.

Lemma do_rw_write_then_read_witness :
  ∃ s1 s2, @do_rw _ demo_env drive_namespace 1 (lit "xyz") 3 2 1 WRITE (demo_reader (lit "7_0")) = Ret (3, Some 2%nat, lit "xyz") s1 ∧
    @do_rw _ demo_env drive_namespace 1 (lit "???") 3 2 1 READ s1 = Ret (3, Some 2%nat, lit "xyz") s2.
Proof.
  destruct (@do_rw_write_then_read _ demo_env drive_namespace 0 0 (lit "xyz") 3 2 (demo_reader (lit "7_0")) 1 (demo_md (lit "r1")) 2
    (DataInfo_new (lit "7_0") (lit "b1") (lit "ABCDEF"))) as (s1 & H1 & H2).
  - split; [reflexivity|]. split; [split; [reflexivity|discriminate]|]. split; split; discriminate || reflexivity.
  - exact (demo_reader_cached (lit "7_0")).
  - reflexivity.
  - vm_compute. discriminate.
  - destruct (H2 (lit "???") eq_refl) as (s2 & H3). exists s1, s2. split; [exact H1|exact H3].
Defined.

Lemma do_rw_offset_overflow_witness :
  ∃ s', @do_rw _ demo_env drive_namespace 1 (lit "xyz") 3 3221225472 1 WRITE (demo_reader (lit "7_3072")) = Undef s'.
Proof.
  apply (@do_rw_offset_overflow _ demo_env drive_namespace 0 (lit "xyz") 3 3221225472 (demo_reader (lit "7_3072")) 1 (demo_md (lit "r1"))
    WRITE 2 (DataInfo_new (lit "7_3072") (lit "b1") (lit "ABCDEF"))).
  - reflexivity.
  - split; [reflexivity|discriminate].
  - split; [discriminate|reflexivity].
  - reflexivity.
  - exact (demo_reader_cached (lit "7_3072")).
Defined.

(** ** Deleting the blocks of a removed file *)
Section DataDelete.
Context {W : Type} `{!Env} `{!KineticNamespace W} `{!KineticNamespaceSpec W}.
Implicit Types (s : hflat_priv W).

Lemma data_key_inj ino a b : data_key ino a = data_key ino b → a = b.
Proof. unfold data_key. intros Hk%app_inv_head%app_inv_head. by apply (inj to_string). Qed.

(** Rounds with [k] whole blocks left touch the blocks [1 .. k] only. *)
Lemma datadelete_loop_multiple k f s ino :
  0 < blocksize s → (k <= f)%nat →
  ∃ s', datadelete_loop f (Z.of_nat k * blocksize s) ino s = Ret tt s' ∧
    drive s' !! data_key ino 0 = drive s !! data_key ino 0.
Proof.
  revert f s. induction k as [|k IH]; intros f s Hbs Hf.
  { exists s. split; [|done]. by destruct f. }
  destruct f as [|f]; [lia|]. cbn [datadelete_loop].
  destruct (Z.leb_spec (Z.of_nat (S k) * blocksize s) 0); [nia|].
  unfold mbind_ at 1, get_. unfold mbind_ at 1, quot_. destruct (Z.eqb_spec (blocksize s) 0); [lia|].
  unfold mret_ at 1. rewrite Z.quot_mul by lia. fold (data_key ino (Z.of_nat (S k))).
  destruct (k_Delete_run (data_key ino (Z.of_nat (S k))) [] IGNORE_VERSION s) as (st & w' & Hdel & _ & Hc).
  step_by Hdel. destruct (IH f (set_kinetic w' s)) as (s' & Hrun & Hd'); [done|lia|]. exists s'. cbn [blocksize set_kinetic] in Hrun.
  replace (Z.of_nat (S k) * blocksize s - blocksize s) with (Z.of_nat k * blocksize s) by lia.
  split; [exact Hrun|]. rewrite Hd'. unfold drive at 1. cbn [kinetic set_kinetic].
  destruct Hc as [-> | [_ ->]]; [done|]. rewrite lookup_delete_ne; [done|]. intros Hk%data_key_inj. lia.
Qed.

(** The thread that deletes the data of a removed file counts its blocks down
    from [size / blocksize] while the rest is positive: for a file of a whole
    number of blocks it stops before block 0, which stays on the drives. *)
Theorem datadelete_leaves_first_block k s ino :
  0 < blocksize s → Z.of_nat k * blocksize s < 2147483648 → 0 <= ino < 2147483648 →
  ∃ s', datadelete (Z.of_nat k * blocksize s) ino s = Ret tt s' ∧
    drive s' !! data_key ino 0 = drive s !! data_key ino 0.
Proof.
  intros Hbs Hsz Hino. unfold datadelete. rewrite !to_i32_id by (unfold is_int32; nia).
  apply datadelete_loop_multiple; [done|]. nia.
Qed.
End DataDelete.

(** The file [/f] with one full block: its only block survives. *)
Lemma datadelete_leaves_first_block_witness :
  ∃ s', @datadelete _ drive_namespace 1048576 7 (demo_mount demo_files) = Ret tt s' ∧
    drive s' !! lit "7_0" = Some (mk_KineticRecord (lit "ABCDEF") (lit "b1")).
Proof.
  destruct (@datadelete_leaves_first_block _ drive_namespace _ 1 (demo_mount demo_files) 7) as (s' & H1 & H2).
  - reflexivity.
  - reflexivity.
  - split; [discriminate|reflexivity].
  - exists s'. split; [exact H1|]. change (data_key 7 0) with (lit "7_0") in H2. rewrite H2. vm_compute. reflexivity.
Defined.
