(* ===== verification/LinkFacts.v ===== *)
(** * Symbolic links end to end: the path map and [readlink] *)
From S2P Require Import Prelude CppString Proto PathMapDB PathMapFacts LRUCache DataInfo MetadataInfo Kinetic FsState Demo KineticHelper Util Lookup Directory File Link FuseFacts.

(** ** The map after [ln -s d o] *)
Section SoftLink.
Context (m : gmap (list ascii) PMEntry) (o d : cstr).

Definition after_link : gmap (list ascii) PMEntry := <[o := mk_PMEntry SYMLINK d 0]> m.

Lemma addSoftLink_fresh db : plain o → plain d → snapshot db = m → m !! o = None →
  addSoftLink o d db = Ret tt (mk_PathMapDB (snapshotVersion db + 1) after_link).
Proof. intros Ho Hd Hm Hn. unfold addSoftLink. rewrite !iointercept_plain by done. by rewrite Hm, Hn. Qed.

Lemma after_link_lookup p q e : unmapped m p → anc q p → after_link !! q = Some e → q = o ∧ e = mk_PMEntry SYMLINK d 0.
Proof.
  intros Hu Ha. unfold after_link. rewrite lookup_insert, Hu by done. case_decide as Heq; [|done]. intros [= <-]. by rewrite Heq.
Qed.

Lemma after_link_ts p q e : unmapped m p → anc q p → after_link !! q = Some e → pm_permissionTimeStamp e <= 0.
Proof. intros Hu Ha He. by destruct (after_link_lookup p q e Hu Ha He) as [_ ->]. Qed.

(** A path that does not lead through the link. *)
Lemma after_link_done f p fr fs n : path_ok p → unmapped m p → ¬ anc o p →
  toSystemPath_loop (S f) after_link p p 0 fr fs n = Some (p, 0).
Proof.
  intros Hp Hu Ho. apply loop_done; [by apply path_ok_size|by apply Hp| |].
  - intros q Ha (e & He & _). destruct (after_link_lookup p q e Hu Ha He) as [-> _]. done.
  - intros q e Ha. by apply (after_link_ts p).
Qed.

(** One that does: through its end only if links at the end are followed. *)
Lemma after_link_follow f x fs : is_suffix x → (x = [] → fs = true) →
  path_ok (o ++ x) → path_ok (d ++ x) → unmapped m (o ++ x) → unmapped m (d ++ x) → ¬ anc o (d ++ x) →
  toSystemPath_loop (S (S f)) after_link (o ++ x) (o ++ x) 0 true fs 0 = Some (d ++ x, 0).
Proof.
  intros Hx Hfs Hox Hdx Huo Hud Hod. cbn [toSystemPath_loop].
  rewrite (search_unique after_link true fs (o ++ x) o 0); [|by apply path_ok_size|by apply Hox|by apply anc_suffix| | |].
  - unfold after_link at 1. rewrite lookup_insert_eq. cbn [pm_type]. rewrite bool_decide_true by done. cbn [andb].
    change (MAXSYMLINKS <? 0 + 1) with false. cbn [pm_target]. rewrite replace_head. by apply after_link_done.
  - exists (mk_PMEntry SYMLINK d 0). split; [by apply lookup_insert_eq|].
    assert ((if decide (o = o ++ x) then fs else true) = true) as ->; [|done]. case_decide as E; [|done].
    apply Hfs. symmetry in E. rewrite <- (app_nil_r o) in E at 2. by apply app_inv_head in E.
  - intros q Ha Hlen (e & He & _). destruct (after_link_lookup _ q e Huo Ha He) as [-> _]. lia.
  - intros q e Ha. by apply (after_link_ts (o ++ x)).
Qed.

(** The link itself keeps its own metadata. *)
Lemma after_link_self f : path_ok o → unmapped m o → toSystemPath_loop (S f) after_link o o 0 true false 0 = Some (o, 0).
Proof.
  intros Ho Hu. apply loop_done; [by apply path_ok_size|by apply Ho| |].
  - intros q Ha (e & He & Hd). destruct (after_link_lookup o q e Hu Ha He) as [-> ->]. rewrite decide_True in Hd by done. done.
  - intros q e Ha. by apply (after_link_ts o).
Qed.
End SoftLink.

(** ** readlink *)
Section Readlink.
Context {W : Type} `{!Env} `{!KineticNamespace W}.

(** What [readlink] leaves in a buffer: the target, cut to fit, and a NUL. *)
Definition linked_buffer (target buffer : cstr) : cstr :=
  let n := Nat.min (length target) (length buffer - 1) in take n target ++ Ascii.zero :: drop (S n) buffer.

Lemma readlink_buffer fuel path buffer target ts (s : hflat_priv W) :
  toSystemPath fuel (pmap_ s) path READLINK = Some (target, ts) → no_nul target → buffer ≠ [] →
  hflat_readlink fuel path buffer (size_ buffer) s = Ret (0, linked_buffer target buffer) s.
Proof.
  intros Ht Hn Hb. unfold hflat_readlink.
  assert (Hp : pmap_toSystemPath fuel path READLINK s = Ret (target, ts) s) by (unfold pmap_toSystemPath; by rewrite Ht).
  step_by Hp. cbn [fst]. rewrite c_str_no_nul by done. assert (Hlen : length buffer ≠ 0%nat) by (by destruct buffer).
  unfold linked_buffer, strncpy_bytes. destruct (Z.leb_spec (size_ buffer) (size_ target)) as [Hle|Hlt]; unfold size_ in *.
  - rewrite Nat2Z.id. replace (length buffer - length target)%nat with 0%nat by lia. cbn [replicate]. rewrite app_nil_r.
    assert (Hpoke : poke buffer 0 (take (length buffer) target) s = Ret (take (length buffer) target) s).
    { rewrite poke_fits by (rewrite length_take; lia). rewrite drop_ge by (rewrite length_take; lia). by rewrite take_0, app_nil_r. }
    step_by Hpoke. rewrite (proj2 (Z.eqb_neq _ 0)) by lia.
    assert (Hpoke2 : poke (take (length buffer) target) (Z.to_nat (Z.of_nat (length buffer) - 1)) [Ascii.zero] s =
      Ret (take (length buffer - 1) target ++ [Ascii.zero]) s).
    { replace (Z.to_nat (Z.of_nat (length buffer) - 1)) with (length buffer - 1)%nat by lia.
      rewrite poke_fits by (rewrite length_take; cbn; lia). rewrite drop_ge by (rewrite length_take; cbn; lia).
      rewrite take_take, app_nil_r. by replace (Nat.min (length buffer - 1) (length buffer)) with (length buffer - 1)%nat by lia. }
    step_by Hpoke2. unfold mret_. do 2 f_equal. replace (Nat.min _ _) with (length buffer - 1)%nat by lia.
    by rewrite (drop_ge buffer) by lia.
  - assert (Hpoke : poke buffer 0 (target ++ [Ascii.zero]) s = Ret (target ++ Ascii.zero :: drop (S (length target)) buffer) s).
    { rewrite poke_fits by (rewrite length_app; cbn; lia). rewrite take_0, <- app_assoc, length_app, Nat.add_0_l. cbn.
      by rewrite Nat.add_1_r. }
    step_by Hpoke. replace (Nat.min (length target) (length buffer - 1)) with (length target) by lia. by rewrite take_ge.
Qed.

(** Symbolic links. After the path map has recorded [ln -s d o] for paths
    without other mappings, [o] itself is looked up where it is, a path below [o]
    is looked up below [d], and [readlink] of [o] gives [d], cut to the buffer and
    terminated. *)
Theorem symlink_readlink_roundtrip f o d x buffer db (s : hflat_priv W) :
  path_ok o → path_ok d → unmapped (snapshot db) o → unmapped (snapshot db) d → ¬ anc o d →
  is_suffix x → x ≠ [] → path_ok (o ++ x) → path_ok (d ++ x) → unmapped (snapshot db) (o ++ x) → unmapped (snapshot db) (d ++ x) →
  ¬ anc o (d ++ x) → no_nul d → buffer ≠ [] →
  ∃ db', addSoftLink o d db = Ret tt db' ∧ snapshotVersion db' = snapshotVersion db + 1 ∧
    toSystemPath (S (S f)) db' o LOOKUP = Some (o, 0) ∧
    toSystemPath (S (S f)) db' (o ++ x) LOOKUP = Some (d ++ x, 0) ∧
    (pmap_ s = db' → hflat_readlink (S (S f)) o buffer (size_ buffer) s = Ret (0, linked_buffer d buffer) s).
Proof.
  intros Ho Hd Huo Hud Hod Hx Hxn Hox Hdx Huox Hudx Hodx Hn Hb. eexists. split; [|split; [|split; [|split]]].
  - apply addSoftLink_fresh; [by apply Ho|by apply Hd|done|apply Huo, anc_refl].
  - done.
  - rewrite toSystemPath_ok by done. by apply after_link_self.
  - rewrite toSystemPath_ok by done. by apply after_link_follow.
  - intros Hs. apply (readlink_buffer _ _ _ _ 0); [|done|done]. rewrite Hs, toSystemPath_ok by done. cbn [snapshot].
    pose proof (after_link_follow (snapshot db) o d f [] true) as Hf. rewrite !app_nil_r in Hf. apply Hf; try done. by left.
Qed.
End Readlink.

#[local] Existing Instance demo_env.

Definition demo_linked : PathMapDB := mk_PathMapDB 1 {[lit "/l" := mk_PMEntry SYMLINK (lit "/t") 0]}.
Definition demo_link_mount : hflat_priv store := set_pmap demo_linked (demo_mount ∅).

Lemma unmapped_empty p : unmapped ∅ p.
Proof. intros q _. apply lookup_empty. Qed.

Lemma symlink_readlink_roundtrip_witness :
  ∃ db', addSoftLink (lit "/l") (lit "/t") PathMapDB_new = Ret tt db' ∧ snapshotVersion db' = 1 ∧
    toSystemPath 2 db' (lit "/l") LOOKUP = Some (lit "/l", 0) ∧
    toSystemPath 2 db' (lit "/l/x") LOOKUP = Some (lit "/t/x", 0) ∧
    (pmap_ demo_link_mount = db' →
      hflat_readlink 2 (lit "/l") (lit "abcdefg") 7 demo_link_mount = Ret (0, lit "/t" ++ Ascii.zero :: lit "defg") demo_link_mount).
Proof.
  apply (symlink_readlink_roundtrip 0 (lit "/l") (lit "/t") (lit "/x") (lit "abcdefg") PathMapDB_new demo_link_mount);
    try apply unmapped_empty; try (apply short_path_ok; reflexivity); try (apply anc_dec_false; [reflexivity|done]); try done.
  - right. by exists (lit "x").
  - vm_compute. set_solver.
Defined.

(** [readlink] answers with the place the target is stored at, not with the target
    the link was made with: after [mv /t /u] and [ln -s /u /l] it is [/t]. *)
Example readlink_resolves_moves :
  match (addDirectoryMove (lit "/t") (lit "/u") ;;; addSoftLink (lit "/l") (lit "/u")) PathMapDB_new with
  | Ret _ db => toSystemPath 5 db (lit "/l") READLINK = Some (lit "/t", 0)
  | _ => False
  end.
Proof. by vm_compute. Qed.
