(* ===== verification/LookupFacts.v ===== *)
(** * Looking up metadata: the cache in front of the drives

    {!Lookup.lookup} on a reliable namespace, for a path whose metadata are read
    from the drives (once, then served from the cache) and for a path that does
    not exist (which is remembered as well). *)
From S2P Require Import Prelude CppString Proto PathMapDB LRUCache DataInfo MetadataInfo Kinetic FsState Demo KineticHelper Util Lookup HelperFacts.

(** ** Cache entries by key *)
Section Entries.
Context {K D : Type} `{Countable K} (getKey : D → K) (dirty : D → bool).
Implicit Types (c : LRUcache K D) (k : K) (e : cache_entry D).

(** The node stored for a key: what {!LRUCache.peek} shows, and its time. *)
Definition entry_of c k : option (cache_entry D) := id ← lookup_ c !! k; find_node id (cache c).

(** Not old enough to expire at [now], dirty or not. *)
Definition timely c (now : Z) (time : Z) : Prop :=
  expiration_time c = 0 ∨ Z.quot (now - time) 1000000 <= expiration_time c.

Lemma timely_expired c now e : timely c now (ce_time e) → expired dirty now c e = false.
Proof.
  unfold timely, expired. intros Ht. case_match; [done|]. apply andb_false_iff.
  destruct Ht as [-> | Ht]; [by left|right]. by apply Z.ltb_ge.
Qed.

(** A cache that differs in the order of its elements only. *)
Definition reordered c c' : Prop :=
  wf getKey c' ∧ cache c' ≡ₚ cache c ∧ (∀ k, entry_of c' k = entry_of c k) ∧
  blocked_keys c' = blocked_keys c ∧ expiration_time c' = expiration_time c ∧ capacity c' = capacity c.

Lemma entry_of_front c e k : wf getKey c → e ∈ cache c →
  entry_of (set_nodes (e :: erase_node (ce_id e) (cache c)) (lookup_ c) c) k = entry_of c k.
Proof.
  intros Hwf Hin. unfold entry_of. cbn. destruct (lookup_ c !! k) as [id|] eqn:Hl; [|done]. cbn.
  destruct (Nat.eqb_spec (ce_id e) id) as [<-|Hne].
  - symmetry. by apply find_node_Some; [eapply wf_ids|].
  - apply find_node_erase. congruence.
Qed.

Lemma get_entry c k now e : wf getKey c → k ∉ blocked_keys c → entry_of c k = Some e → timely c now (ce_time e) →
  ∃ c', get dirty k now c = Ret (Some (ce_data e)) c' ∧ reordered c c'.
Proof.
  intros Hwf Hb He Ht. unfold entry_of in He. destruct (lookup_ c !! k) as [id|] eqn:Hl; [|done].
  destruct (wf_lookup _ _ _ _ Hwf Hl) as (e' & Hf & Hin & Hid & _). cbn in He. rewrite Hf in He. injection He as ->.
  eexists. split; [by eapply (get_hit getKey), timely_expired|]. subst id.
  pose proof (erase_node_perm e (cache c) (wf_ids _ _ Hwf) Hin) as Hp.
  split; [by apply wf_front|]. split; [done|]. split; [|done]. intros k'. by apply entry_of_front.
Qed.

Lemma entry_of_push c k d now k' : wf getKey c →
  entry_of (push_front k d now c) k' =
    if decide (k' = k) then Some (mk_cache_entry (next_id c) d now) else entry_of c k'.
Proof.
  intros Hwf. unfold entry_of. cbn. rewrite lookup_insert. case_decide as E; case_decide as E'; try congruence; cbn.
  - by rewrite Nat.eqb_refl.
  - destruct (lookup_ c !! k') as [id|] eqn:Hl; [|done]. cbn.
    destruct (wf_lookup _ _ _ _ Hwf Hl) as (e & _ & Hin & Hid & _). destruct Hwf as (_ & _ & Hlt).
    rewrite Forall_forall in Hlt. specialize (Hlt e Hin). destruct (Nat.eqb_spec (next_id c) id); [lia|done].
Qed.
End Entries.

Section LookupFacts.
Context {W : Type} `{!Env} `{!KineticNamespace W} `{!KineticNamespaceSpec W}.
Implicit Types (s : hflat_priv W) (m : MetadataInfo) (key path : cstr).

(** The lookup cache is well formed and everything it points to is allocated. *)
Record cache_ok s : Prop := {
  ok_wf : wf (md_getKey s) (lookup_cache s);
  ok_allocated : ∀ e, e ∈ cache (lookup_cache s) → (ce_data e < next_loc s)%nat;
  ok_fresh : ∀ l, (next_loc s <= l)%nat → heap_md s !! l = None;
}.

(** What a lookup leaves alone: it allocates and caches objects, it does not
    change those that exist, nor the drives, nor anything else. *)
Record quiet s s' : Prop := {
  q_drive : drive s' = drive s;
  q_pmap : pmap_ s' = pmap_ s;
  q_ctx : ctx s' = ctx s;
  q_posix : posix s' = posix s;
  q_inum : inum_base s' = inum_base s ∧ inum_counter s' = inum_counter s;
  q_inputs : uuids_used s' = uuids_used s ∧ time_used s' = time_used s;
  q_data : heap_di s' = heap_di s ∧ data_cache s' = data_cache s;
  q_heap : heap_md s ⊆ heap_md s';
  q_next : (next_loc s <= next_loc s')%nat;
  q_config : expiration_time (lookup_cache s') = expiration_time (lookup_cache s) ∧
             capacity (lookup_cache s') = capacity (lookup_cache s);
}.

(** [key] is cached: nobody is loading it, and its object is the one at [l],
    which is [m] and has been there since [time]. *)
Definition held s key (l : loc) m (time : Z) : Prop :=
  (key ∉ blocked_keys (lookup_cache s)) ∧ heap_md s !! l = Some m ∧ systemPath m = key ∧
  ∃ e, entry_of (lookup_cache s) key = Some e ∧ ce_data e = l ∧ ce_time e = time.

(** [key] is not cached, nobody is loading it, and there is room for it. *)
Definition missing s key : Prop :=
  (key ∉ blocked_keys (lookup_cache s)) ∧ lookup_ (lookup_cache s) !! key = None ∧
  Z.of_nat (length (cache (lookup_cache s))) < capacity (lookup_cache s).

Definition now_of s : Z := env_steady (steady_used s).

(** ** The cache calls *)

Lemma lc_get_held s key l m time : cache_ok s → held s key l m time → timely (lookup_cache s) (now_of s) time →
  ∃ c', lc_get key s = Ret (Some l) (set_lookup_cache c' (tick_steady s)) ∧
    reordered (md_getKey s) (lookup_cache s) c'.
Proof.
  intros Hok (Hb & _ & _ & e & He & <- & <-) Ht.
  destruct (get_entry (md_getKey s) (md_dirty s) _ key (now_of s) e (ok_wf _ Hok) Hb He Ht) as (c' & Hg & Hr).
  exists c'. split; [|done]. unfold lc_get, mbind_, steady_now, zoom. cbn [lookup_cache set_inputs].
  change (md_dirty (set_inputs _ _ _ s)) with (md_dirty s). fold (now_of s). by rewrite Hg.
Qed.

Definition blocking s key : hflat_priv W :=
  set_lookup_cache (set_blocked ({[key]} ∪ blocked_keys (lookup_cache s)) (lookup_cache s)) (tick_steady s).

Lemma lookup_cached_missing f s key : missing s key → lookup_cached (S f) key s = Ret None (blocking s key).
Proof.
  intros (Hb & Hl & _). cbn [lookup_cached].
  assert (Hg : lc_get key s = Ret None (tick_steady s)).
  { unfold lc_get, mbind_, steady_now, zoom, get. cbn [lookup_cache set_inputs].
    rewrite bool_decide_false, Hl by done. by destruct s. }
  step_by Hg.
  assert (Hk : lc_block key (tick_steady s) = Ret true (blocking s key)).
  { unfold lc_block, zoom, block. cbn [lookup_cache tick_steady set_inputs]. by rewrite bool_decide_false by done. }
  by step_by Hk.
Qed.

Lemma lc_add_room s key l : cache_ok s → md_getKey s l = key → lookup_ (lookup_cache s) !! key = None →
  Z.of_nat (length (cache (lookup_cache s))) < capacity (lookup_cache s) →
  lc_add key l s = Ret true (set_lookup_cache (push_front key l (now_of s) (lookup_cache s)) (tick_steady s)).
Proof.
  intros Hok Hk Hl Hroom. unfold lc_add, mbind_, steady_now, zoom. cbn [lookup_cache set_inputs].
  change (md_getKey (set_inputs _ _ _ s)) with (md_getKey s). change (md_dirty (set_inputs _ _ _ s)) with (md_dirty s).
  fold (now_of s). by rewrite (proj1 (add_without_eviction (md_getKey s) (md_dirty s) _ key l (now_of s) (ok_wf _ Hok) Hl Hk (or_introl Hroom))).
Qed.

(** ** A lookup that finds its object *)

(** What a lookup answers for an object: the one with inode number 0 stands for a
    path that does not exist. *)
Definition answer s (x : Metadata) : Z :=
  if md_inode_number x =? 0 then - ENOENT else check_path_permissions (ctx s) (md_path_permission x).

(** An object that needs no further work: a missing file, or the inode itself
    with path permissions that are up to date. *)
Definition settled (ts : Z) (x : Metadata) : Prop :=
  md_inode_number x = 0 ∨
  md_type x ≠ HARDLINK_S ∧ md_type x ≠ FORCE_UPDATE ∧ ts <= md_path_permission_verified x.

Lemma lookup_permissions_verified rec path l ts s m : heap_md s !! l = Some m →
  ts <= md_path_permission_verified (md m) →
  lookup_permissions rec path l ts s = Ret (check_path_permissions (ctx s) (md_path_permission (md m)), Some l) s.
Proof.
  intros Hm Hts. unfold lookup_permissions. step_by (getMD_run l s m Hm).
  destruct (Z.ltb_spec (md_path_permission_verified (md m)) ts); [lia|]. by step_by (getMD_run l s m Hm).
Qed.

Lemma reordered_ok s c' : cache_ok s → reordered (md_getKey s) (lookup_cache s) c' →
  cache_ok (set_lookup_cache c' (tick_steady s)).
Proof.
  intros [Hwf Ha Hf] (Hwf' & Hp & _). split; [exact Hwf'| |exact Hf]. intros e. cbn. rewrite Hp. apply Ha.
Qed.

Lemma reordered_quiet s c' : reordered (md_getKey s) (lookup_cache s) c' → quiet s (set_lookup_cache c' (tick_steady s)).
Proof. intros (_ & _ & _ & _ & He & Hc). by split. Qed.

Lemma reordered_held s c' key l m time : reordered (md_getKey s) (lookup_cache s) c' →
  held s key l m time ↔ held (set_lookup_cache c' (tick_steady s)) key l m time.
Proof. intros (_ & _ & He & Hb & _). unfold held. cbn. by rewrite He, Hb. Qed.

(** A hit answers from the cache: the drives are not asked. *)
Lemma lookup_held f path p s key ts l m time :
  cache_ok s → toSystemPath (S f) (pmap_ s) path LOOKUP = Some (key, ts) → 0 <= ts →
  held s key l m time → timely (lookup_cache s) (now_of s) time → settled ts (md m) →
  ∃ c', lookup (S f) path p s = Ret (answer s (md m), Some l) (set_lookup_cache c' (tick_steady s)) ∧
    reordered (md_getKey s) (lookup_cache s) c'.
Proof.
  intros Hok Hp Hts Hh Ht Hset. destruct (lc_get_held s key l m time Hok Hh Ht) as (c' & Hg & Hr).
  exists c'. split; [|done]. destruct Hh as (_ & Hm & _). set (s1 := set_lookup_cache c' (tick_steady s)) in *.
  assert (Hm1 : heap_md s1 !! l = Some m) by exact Hm. cbn [lookup].
  assert (Hpm : pmap_toSystemPath (S f) path LOOKUP s = Ret (key, ts) s) by (unfold pmap_toSystemPath; by rewrite Hp).
  step_by Hpm. destruct (Z.ltb_spec ts 0); [lia|].
  assert (Hlc : lookup_cached (S f) key s = Ret (Some l) s1) by (cbn [lookup_cached]; by step_by Hg).
  step_by Hlc. step_by (getMD_run l s1 m Hm1). unfold answer.
  destruct (Z.eqb_spec (md_inode_number (md m)) 0) as [E|E]; [done|]. destruct Hset as [|(Hh & Hfu & Hv)]; [done|].
  rewrite !bool_decide_false by done. rewrite mbind_ret_l. by rewrite (lookup_permissions_verified _ _ _ _ _ m).
Qed.

(** ** A lookup that asks the drives *)
Context `{!KineticReliable W}.

(** The object made for [key] from what the drives hold. *)
Definition loads s key m : Prop :=
  match drive s !! key with
  | None => m = MetadataInfo_new key
  | Some r => ∃ x, ParseFromString (kr_value r) = Some x ∧ md_inode_number x ≠ 0 ∧
                m = setMD x (kr_version r) (MetadataInfo_new key)
  end.

(** The state once the object is read and cached. *)
Definition loaded s w' key m : hflat_priv W :=
  let s1 := set_kinetic w' (blocking s key) in
  let s2 := set_heap (<[next_loc s := m]> (heap_md s)) (heap_di s) (S (next_loc s)) s1 in
  set_lookup_cache (push_front key (next_loc s) (env_steady (S (steady_used s))) (lookup_cache s2)) (tick_steady s2).

Lemma blocked_ok s s1 key m : cache_ok s →
  lookup_cache s1 = set_blocked ({[key]} ∪ blocked_keys (lookup_cache s)) (lookup_cache s) →
  heap_md s1 = <[next_loc s := m]> (heap_md s) → next_loc s1 = S (next_loc s) → cache_ok s1.
Proof.
  intros [Hwf Ha Hf] Hc Hh Hn. split.
  - rewrite Hc. apply wf_set_blocked. eapply wf_getKey_ext; [exact Hwf|]. intros e Hin. unfold md_getKey.
    rewrite Hh, lookup_insert_ne; [done|]. pose proof (Ha e Hin). lia.
  - rewrite Hc, Hn. intros e Hin. pose proof (Ha e Hin). lia.
  - rewrite Hh, Hn. intros l Hl. rewrite lookup_insert_ne by lia. apply Hf. lia.
Qed.

Lemma loads_path s key m : loads s key m → systemPath m = key.
Proof. unfold loads. case_match; [by intros (x & _ & _ & ->)|by intros ->]. Qed.

(** Reading into the fresh object. *)
Lemma get_metadata_loads s key m l : heap_md s !! l = Some (MetadataInfo_new key) → loads s key m →
  ∃ w', contents w' = drive s ∧
    get_metadata l s = Ret (if decide (drive s !! key = None) then - ENOENT else 0)
                         (set_heap (<[l := m]> (heap_md s)) (heap_di s) (next_loc s) (set_kinetic w' s)).
Proof.
  unfold loads. intros Hl Hm. destruct (drive s !! key) as [r|] eqn:E.
  - destruct Hm as (x & Hx & _ & ->). rewrite decide_False by done.
    destruct (get_metadata_found s l _ r x Hl E Hx) as (w' & Hw & Hg). by exists w'.
  - subst m. rewrite decide_True by done. destruct (k_Get_absent key s E) as (r & w' & Hg & Hw).
    exists w'. split; [done|]. unfold get_metadata. step_by (deref_md_run l s _ Hl). step_by Hg.
    cbn. rewrite insert_id by done. by destruct s.
Qed.

(** The object is made, read, and added to the cache, in the first two steps of
    a lookup. *)
Lemma read_and_add s key m : cache_ok s → missing s key → loads s key m →
  ∃ w' s2, contents w' = drive s ∧
    (let! l := new_md (MetadataInfo_new key) in let! err := get_metadata l in mret_ (l, err)) (blocking s key)
      = Ret (next_loc s, if decide (drive s !! key = None) then - ENOENT else 0) s2 ∧
    lc_add key (next_loc s) s2 = Ret true (loaded s w' key m) ∧ heap_md s2 !! next_loc s = Some m.
Proof.
  intros Hok (Hb & Hl & Hroom) Hm. unfold new_md. rewrite mbind_lam.
  set (s1 := set_heap (<[next_loc (blocking s key) := _]> _) _ _ _).
  destruct (get_metadata_loads s1 key m (next_loc s)) as (w' & Hw & Hg); [apply lookup_insert_eq|exact Hm|].
  exists w'. eexists. split; [exact Hw|]. split; [by step_by Hg|].
  assert (Heq : <[next_loc s:=m]> (heap_md s1) = <[next_loc s:=m]> (heap_md s)) by apply insert_insert_eq.
  rewrite Heq. clear Hg Heq. set (s2 := set_heap _ _ _ _).
  assert (Hm2 : heap_md s2 !! next_loc s = Some m) by apply lookup_insert_eq. split; [|exact Hm2].
  rewrite lc_add_room; [done| | |exact Hl|exact Hroom].
  - by apply (blocked_ok s s2 key m).
  - unfold md_getKey. rewrite Hm2. by eapply loads_path.
Qed.

(** A miss on a key that is stored, up to the check of the path permissions. *)
Lemma lookup_missing_stored f path p s key ts m :
  cache_ok s → toSystemPath (S f) (pmap_ s) path LOOKUP = Some (key, ts) → 0 <= ts →
  missing s key → loads s key m → is_Some (drive s !! key) → md_type (md m) ≠ HARDLINK_S → md_type (md m) ≠ FORCE_UPDATE →
  ∃ w', contents w' = drive s ∧
    lookup (S f) path p s = lookup_permissions (lookup f) path (next_loc s) ts (loaded s w' key m).
Proof.
  intros Hok Hp Hts Hmiss Hm [r Hr] Hh Hfu. destruct (read_and_add s key m Hok Hmiss Hm) as (w' & s2 & Hw & Hread & Hadd & Hm2).
  exists w'. split; [done|]. cbn [lookup].
  assert (Hpm : pmap_toSystemPath (S f) path LOOKUP s = Ret (key, ts) s) by (unfold pmap_toSystemPath; by rewrite Hp).
  step_by Hpm. destruct (Z.ltb_spec ts 0); [lia|]. step_by (lookup_cached_missing f s key Hmiss).
  revert Hread. unfold new_md. rewrite !mbind_lam. intros (err & s2' & Hget & Heq)%mbind_Ret_inv.
  unfold mret_ in Heq. rewrite Hr, decide_False in Heq by done. injection Heq as -> ->. step_by Hget.
  unfold loads in Hm. rewrite Hr in Hm. destruct Hm as (x & _ & Hino & ->).
  change (0 =? - ENOENT) with false. cbn [negb Z.eqb]. step_by (getMD_run _ _ _ Hm2). cbn [md setMD] in *.
  destruct (Z.eqb_spec (md_inode_number x) 0); [done|].
  rewrite !bool_decide_false by done. rewrite mbind_assoc. step_by Hadd. unfold REQ_TRUE. by rewrite mbind_lam.
Qed.

(** A miss reads the drives once and leaves the object in the cache. *)
Lemma lookup_missing f path p s key ts m :
  cache_ok s → toSystemPath (S f) (pmap_ s) path LOOKUP = Some (key, ts) → 0 <= ts →
  missing s key → loads s key m → settled ts (md m) →
  ∃ w', contents w' = drive s ∧
    lookup (S f) path p s = Ret (answer s (md m), Some (next_loc s)) (loaded s w' key m).
Proof.
  intros Hok Hp Hts Hmiss Hm Hset. destruct (drive s !! key) as [r|] eqn:Hd.
  - assert (Hino : md_inode_number (md m) ≠ 0) by (unfold loads in Hm; rewrite Hd in Hm; by destruct Hm as (x & _ & ? & ->)).
    destruct Hset as [|(Hh & Hfu & Hv)]; [done|].
    destruct (lookup_missing_stored f path p s key ts m Hok Hp Hts Hmiss Hm) as (w' & Hw & ->); [by rewrite Hd|done|done|].
    exists w'. split; [done|]. rewrite (lookup_permissions_verified _ _ _ _ (loaded s w' key m) m); [|apply lookup_insert_eq|done].
    unfold answer. by rewrite (proj2 (Z.eqb_neq _ _) Hino).
  - destruct (read_and_add s key m Hok Hmiss Hm) as (w' & s2 & Hw & Hread & Hadd & Hm2).
    exists w'. split; [done|]. cbn [lookup].
    assert (Hpm : pmap_toSystemPath (S f) path LOOKUP s = Ret (key, ts) s) by (unfold pmap_toSystemPath; by rewrite Hp).
    step_by Hpm. destruct (Z.ltb_spec ts 0); [lia|]. step_by (lookup_cached_missing f s key Hmiss).
    revert Hread. unfold new_md. rewrite !mbind_lam. intros (err & s2' & Hget & Heq)%mbind_Ret_inv.
    unfold mret_ in Heq. rewrite Hd in Heq. injection Heq as -> ->. step_by Hget.
    unfold loads in Hm. rewrite Hd in Hm. subst m. change (- ENOENT =? - ENOENT) with true. cbv iota. rewrite mbind_assoc. step_by Hadd.
    unfold REQ_TRUE. assert (Hm3 : heap_md (loaded s w' key (MetadataInfo_new key)) !! next_loc s = Some (MetadataInfo_new key)) by apply lookup_insert_eq.
    by rewrite mbind_lam, (mbind_Ret _ _ _ _ _ (getMD_run _ _ _ Hm3)).
Qed.

Lemma loaded_blocked s w' key m :
  blocked_keys (lookup_cache (loaded s w' key m)) = ({[key]} ∪ blocked_keys (lookup_cache s)) ∖ {[key]}.
Proof. done. Qed.

(** Adding an object that is not cached. *)
Lemma push_ok s key (l : loc) : cache_ok s → md_getKey s l = key → (l < next_loc s)%nat → lookup_ (lookup_cache s) !! key = None →
  cache_ok (set_lookup_cache (push_front key l (now_of s) (lookup_cache s)) (tick_steady s)).
Proof.
  intros Hok Hk Hl Hn. split.
  - exact (wf_push (md_getKey s) (lookup_cache s) key l _ (ok_wf _ Hok) Hn Hk).
  - intros e [-> |Hin]%elem_of_cons; cbn; [done|]. exact (ok_allocated _ Hok e Hin).
  - exact (ok_fresh _ Hok).
Qed.

(** The loaded state: everything else is as before, the object is cached. *)
Lemma loaded_ok s w' key m : cache_ok s → missing s key → loads s key m → cache_ok (loaded s w' key m).
Proof.
  intros Hok (Hb & Hl & Hroom) Hm.
  set (s2 := set_heap (<[next_loc s := m]> (heap_md s)) (heap_di s) (S (next_loc s)) (set_kinetic w' (blocking s key))).
  assert (Hok2 : cache_ok s2) by (by apply (blocked_ok s s2 key m)).
  assert (Hk : md_getKey s2 (next_loc s) = key).
  { unfold md_getKey. cbn. rewrite lookup_insert_eq. by eapply loads_path. }
  apply (push_ok s2 key (next_loc s) Hok2 Hk); [cbn; lia|exact Hl].
Qed.

Lemma loaded_quiet s w' key m : cache_ok s → contents w' = drive s → quiet s (loaded s w' key m).
Proof.
  intros Hok Hw. split; first [exact Hw | done | cbn; lia | idtac]. apply insert_subseteq. by apply Hok.
Qed.

Lemma loaded_held s w' key m : cache_ok s → loads s key m →
  held (loaded s w' key m) key (next_loc s) m (env_steady (S (steady_used s))).
Proof.
  intros Hok Hm. split; [rewrite loaded_blocked; set_solver|]. split; [apply lookup_insert_eq|]. split; [by eapply loads_path|].
  exists (mk_cache_entry (next_id (lookup_cache s)) (next_loc s) (env_steady (S (steady_used s)))).
  split; [|done]. unfold loaded. cbn [lookup_cache set_lookup_cache].
  rewrite (entry_of_push (md_getKey s)) by (apply wf_set_blocked, Hok). by rewrite decide_True.
Qed.

(** Other entries stay. *)
Lemma loaded_held_other s w' key m key' l' m' time : cache_ok s → key' ≠ key → held s key' l' m' time →
  held (loaded s w' key m) key' l' m' time.
Proof.
  intros Hok Hne (Hb & Hm & Hp & He). split; [rewrite loaded_blocked; set_solver|].
  split; [cbn; rewrite lookup_insert_ne; [done|]|].
  { intros <-. by rewrite (ok_fresh _ Hok) in Hm. }
  split; [done|]. unfold loaded. cbn [lookup_cache set_lookup_cache].
  rewrite (entry_of_push (md_getKey s)) by (apply wf_set_blocked, Hok). by rewrite decide_False.
Qed.

(** C21: lookup is read-through. The path's metadata are not cached, and what the
    drives hold needs no further work: nothing, or an inode that is neither a
    FORCE_UPDATE inode nor the reference of a hard link and whose path permissions
    are up to date. Then the path is answered from the drives, which stay as they
    are, and so does every object already in memory: the answer is [-ENOENT] if the
    drives have no record, else the check of the caller against the path permissions
    stored in the record. From then on and until the entry expires it is answered
    from the cache, whatever other clients have done to the drives in the meantime
    ([w]). *)
Theorem lookup_reads_through f path p p' s key ts m :
  cache_ok s → toSystemPath (S f) (pmap_ s) path LOOKUP = Some (key, ts) → 0 <= ts →
  missing s key → loads s key m → settled ts (md m) →
  ∃ l s', lookup (S f) path p s = Ret (answer s (md m), Some l) s' ∧
    quiet s s' ∧ cache_ok s' ∧ heap_md s' !! l = Some m ∧
    ∀ w, timely (lookup_cache s) (env_steady (2 + steady_used s)) (env_steady (1 + steady_used s)) →
      ∃ s'', lookup (S f) path p' (set_kinetic w s') = Ret (answer s (md m), Some l) s'' ∧ kinetic s'' = w.
Proof.
  intros Hok Hp Hts Hmiss Hm Hset.
  destruct (lookup_missing f path p s key ts m Hok Hp Hts Hmiss Hm Hset) as (w' & Hw & Hrun).
  exists (next_loc s), (loaded s w' key m). split; [exact Hrun|]. split; [by apply loaded_quiet|].
  pose proof (loaded_ok s w' key m Hok Hmiss Hm) as Hok'. split; [done|].
  pose proof (loaded_held s w' key m Hok Hm) as Hh. split; [apply Hh|]. intros w Ht.
  destruct (lookup_held f path p' (set_kinetic w (loaded s w' key m)) key ts (next_loc s) m (env_steady (S (steady_used s))))
    as (c' & Hrun' & _); try done.
  - by destruct Hok'.
  - eexists. split; [exact Hrun'|done].
Qed.

(** ** A file that is open at a client *)

(** [path] leads to the file of [key], whose object [m] the client has cached at
    [l], where it stays for the next [h] readings of the clock. *)
Record opened f (h : nat) s path key (l : loc) m : Prop := {
  o_ok : cache_ok s;
  o_path : ∃ ts, toSystemPath (S f) (pmap_ s) path LOOKUP = Some (key, ts) ∧ 0 <= ts ∧
             md_type (md m) ≠ HARDLINK_S ∧ md_type (md m) ≠ FORCE_UPDATE ∧ ts <= md_path_permission_verified (md m);
  o_held : ∃ time, held s key l m time ∧ ∀ n, (n < h)%nat → timely (lookup_cache s) (env_steady (n + steady_used s)) time;
  o_answer : answer s (md m) = 0;
}.

(** What the answer of a lookup depends on. *)
Definition same_access (x y : Metadata) : Prop :=
  md_inode_number x = md_inode_number y ∧ md_type x = md_type y ∧ md_path_permission x = md_path_permission y ∧
  md_path_permission_verified x = md_path_permission_verified y.

Lemma allocated s l m : cache_ok s → heap_md s !! l = Some m → (l < next_loc s)%nat.
Proof.
  intros Hok Hm. destruct (decide (l < next_loc s)%nat); [done|]. by rewrite (ok_fresh _ Hok) in Hm by lia.
Qed.

(** An object is changed in place. *)
Lemma cache_ok_frame s s' l m m' : cache_ok s → heap_md s !! l = Some m → lookup_cache s' = lookup_cache s →
  heap_md s' = <[l := m']> (heap_md s) → (next_loc s <= next_loc s')%nat → systemPath m' = systemPath m → cache_ok s'.
Proof.
  intros Hok Hm Hc Hh Hn Hsp. pose proof (allocated s l m Hok Hm). destruct Hok as [Hwf Ha Hf]. split; rewrite ?Hc.
  - eapply wf_getKey_ext; [exact Hwf|]. intros e _. unfold md_getKey. rewrite Hh, lookup_insert. case_decide; [|done]. subst. by rewrite Hm, Hsp.
  - intros e Hin. pose proof (Ha e Hin). lia.
  - intros l' Hl'. rewrite Hh, lookup_insert_ne by lia. apply Hf. lia.
Qed.

(** A new object, in place of none. *)
Lemma cache_ok_alloc s s' m : cache_ok s → lookup_cache s' = lookup_cache s →
  heap_md s' = <[next_loc s := m]> (heap_md s) → next_loc s' = S (next_loc s) → cache_ok s'.
Proof.
  intros [Hwf Ha Hf] Hc Hh Hn. split; rewrite ?Hc.
  - eapply wf_getKey_ext; [exact Hwf|]. intros e Hin. unfold md_getKey. rewrite Hh, lookup_insert_ne; [done|].
    pose proof (Ha e Hin). lia.
  - intros e Hin. pose proof (Ha e Hin). lia.
  - intros l Hl. rewrite Hh, lookup_insert_ne by lia. apply Hf. lia.
Qed.

(** Objects that the cache does not point to may change in any way. *)
Lemma cache_ok_uncached s s' : cache_ok s → lookup_cache s' = lookup_cache s → (next_loc s <= next_loc s')%nat →
  (∀ e, e ∈ cache (lookup_cache s) → heap_md s' !! ce_data e = heap_md s !! ce_data e) →
  (∀ l, (next_loc s' <= l)%nat → heap_md s' !! l = None) → cache_ok s'.
Proof.
  intros [Hwf Ha Hf] Hc Hn Hh Hfr. split; rewrite ?Hc; [|intros e Hin; pose proof (Ha e Hin); lia|done].
  eapply wf_getKey_ext; [exact Hwf|]. intros e Hin. unfold md_getKey. by rewrite Hh.
Qed.

(** The state changed elsewhere, the object in place. *)
Lemma opened_frame f h h' s s' path key l m m' :
  opened f h s path key l m → lookup_cache s' = lookup_cache s → pmap_ s' = pmap_ s → ctx s' = ctx s →
  heap_md s' = <[l := m']> (heap_md s) → (next_loc s <= next_loc s')%nat →
  (steady_used s <= steady_used s')%nat → (h' + (steady_used s' - steady_used s) <= h)%nat →
  systemPath m' = systemPath m → same_access (md m') (md m) → opened f h' s' path key l m'.
Proof.
  intros [Hok (ts & Hp & Hts & Hset) (time & (Hb & Hm & Hk & He) & Ht) Hans] Hc Hpm Hx Hh Hn Hst Hh' Hsp (Ei & Et & Ep & Ev).
  split.
  - by apply (cache_ok_frame s s' l m m').
  - exists ts. rewrite Hpm, Et, Ev. done.
  - exists time. split.
    + unfold held. rewrite Hc, Hh, lookup_insert_eq, Hsp. done.
    + intros n Hlt. rewrite Hc. replace (n + steady_used s')%nat with (n + (steady_used s' - steady_used s) + steady_used s)%nat by lia.
      apply Ht. lia.
  - unfold answer in *. by rewrite Ei, Ep, Hx.
Qed.

(** A lookup of another path that finds its object. *)
Lemma opened_reordered f h s path key l m c' : opened f (S h) s path key l m →
  reordered (md_getKey s) (lookup_cache s) c' → opened f h (set_lookup_cache c' (tick_steady s)) path key l m.
Proof.
  intros [Hok (ts & Hp) (time & Hh & Ht) Hans] Hr. split; [by apply reordered_ok|by exists ts| |exact Hans].
  exists time. split; [by apply (reordered_held s c' key l m time Hr)|]. intros n Hlt.
  destruct Hr as (_ & _ & _ & _ & He & _). unfold timely. cbn [lookup_cache set_lookup_cache]. rewrite He.
  change (steady_used (set_lookup_cache _ _)) with (S (steady_used s)). rewrite <- Nat.add_succ_comm. apply (Ht (S n)). lia.
Qed.

Lemma opened_lookup f h s path key l m p : opened f (S h) s path key l m →
  ∃ c', let s1 := set_lookup_cache c' (tick_steady s) in
    lookup (S f) path p s = Ret (0, Some l) s1 ∧ reordered (md_getKey s) (lookup_cache s) c' ∧ opened f h s1 path key l m.
Proof.
  intros Hop. pose proof Hop as [Hok (ts & Hp & Hts & Hset) (time & Hh & Ht) Hans].
  destruct (lookup_held f path p s key ts l m time Hok Hp Hts Hh (Ht O ltac:(lia)) (or_intror Hset)) as (c' & Hrun & Hr).
  exists c'. rewrite Hans in Hrun. split; [exact Hrun|]. split; [done|]. by apply opened_reordered.
Qed.

Lemma opened_heap f h s path key l m : opened f h s path key l m → heap_md s !! l = Some m.
Proof. by intros [_ _ (? & (_ & ? & _) & _) _]. Qed.

Lemma opened_key f h s path key l m : opened f h s path key l m → systemPath m = key.
Proof. by intros [_ _ (? & (_ & _ & ? & _) & _) _]. Qed.

(** What a missing path needs stays when others are looked up. *)
Lemma reordered_missing s c' key : reordered (md_getKey s) (lookup_cache s) c' → wf (md_getKey s) (lookup_cache s) →
  missing s key → missing (set_lookup_cache c' (tick_steady s)) key.
Proof.
  intros (Hwf' & Hp & He & Hb & _ & Hc) Hwf (Hmb & Hml & Hroom). unfold missing. cbn. rewrite Hb, Hc, Hp. split; [done|]. split; [|done].
  destruct (lookup_ c' !! key) as [id|] eqn:E; [|done]. specialize (He key). unfold entry_of in He. rewrite E, Hml in He.
  destruct (wf_lookup _ _ _ _ Hwf' E) as (e & Hf & _). cbn in He. by rewrite Hf in He.
Qed.

(** A lookup that reads another key from the drives. *)
Lemma opened_loaded f h s path key l m w key' m' : opened f (2 + h) s path key l m → missing s key' → loads s key' m' →
  key ≠ key' → opened f h (loaded s w key' m') path key l m.
Proof.
  intros [Hok (ts & Hp) (time & Hh & Ht) Hans] Hmiss Hm Hne. split; [by apply loaded_ok|by exists ts| |exact Hans].
  exists time. split; [by apply loaded_held_other|]. intros n Hlt. specialize (Ht (S (S n)) ltac:(lia)).
  change (steady_used (loaded s w key' m')) with (S (S (steady_used s))). by rewrite <- !Nat.add_succ_comm.
Qed.

(** With room for two. *)
Lemma loaded_missing s w key m key' : missing s key → missing s key' → key ≠ key' →
  Z.of_nat (length (cache (lookup_cache s))) + 1 < capacity (lookup_cache s) → missing (loaded s w key m) key'.
Proof.
  intros (Hb & Hl & _) (Hb' & Hl' & _) Hne Hroom. split; [rewrite loaded_blocked; set_solver|]. cbn. rewrite lookup_insert_ne by done.
  split; [done|]. lia.
Qed.

(** ** Dropping a key *)

(** [c'] is [c] without [key]. *)
Record dropped key (c c' : LRUcache (list ascii) loc) : Prop := {
  d_gone : (key ∉ blocked_keys c') ∧ lookup_ c' !! key = None;
  d_others : ∀ key', key' ≠ key → lookup_ c' !! key' = lookup_ c !! key';
  d_blocked : blocked_keys c' = blocked_keys c ∖ {[key]};
  d_nodes : sublist (cache c') (cache c);
  d_fewer : is_Some (lookup_ c !! key) → (length (cache c') < length (cache c))%nat;
  d_config : capacity c' = capacity c ∧ expiration_time c' = expiration_time c;
}.

Lemma lc_invalidate_ok key s : cache_ok s →
  ∃ c', lc_invalidate key s = Ret tt (set_lookup_cache c' s) ∧ dropped key (lookup_cache s) c' ∧ cache_ok (set_lookup_cache c' s).
Proof.
  intros [Hwf Ha Hf]. set (c := lookup_cache s) in *. unfold lc_invalidate, zoom. fold c.
  assert (Hinv : ∃ c', invalidate key c = Ret tt c' ∧ dropped key c c').
  { unfold invalidate, mbind_, modify_. case_bool_decide as Hs.
    - destruct Hs as [id Hl]. rewrite (remove_ret (md_getKey s) c key id Hwf Hl). eexists. split; [done|].
      destruct (wf_lookup _ _ _ _ Hwf Hl) as (e & _ & Hin & Hid & _). subst id.
      pose proof (Permutation_length (erase_node_perm e (cache c) (wf_ids _ _ Hwf) Hin)) as Hlen. cbn in Hlen.
      split; cbn; [|intros; by rewrite lookup_delete_ne|done|apply erase_node_sublist|lia|done].
      split; [set_solver|apply lookup_delete_eq].
    - eexists. split; [done|]. split; cbn; [|done|done|done|done|done]. split; [set_solver|].
      destruct (lookup_ c !! key) eqn:E; [destruct Hs; eauto|done]. }
  destruct Hinv as (c' & Hr & Hd). exists c'. rewrite Hr. split; [done|]. split; [done|].
  split; [by eapply wf_invalidate| |exact Hf]. intros e Hin. apply Ha. by eapply elem_of_sublist; [exact Hin|apply Hd].
Qed.
End LookupFacts.

(** ** Witness: a fresh mount looks up the root *)

#[local] Existing Instance demo_env.

Definition demo_root_md : MetadataInfo := setMD demo_root (lit "r0") (MetadataInfo_new (lit "/")).

Lemma demo_loads_root : loads (demo_mount demo_drive) (lit "/") demo_root_md.
Proof. exists demo_root. split; [by vm_compute|done]. Qed.

Lemma demo_mount_ok d : cache_ok (demo_mount d).
Proof. split; [apply wf_new|cbn; set_solver|intros; apply lookup_empty]. Qed.

Lemma demo_missing d key : missing (demo_mount d) key.
Proof. split; [cbn; set_solver|]. split; [apply lookup_empty|done]. Qed.

Lemma lookup_reads_through_witness :
  ∃ l s', lookup 1 (lit "/") None (demo_mount demo_drive) = Ret (0, Some l) s' ∧ heap_md s' !! l = Some demo_root_md ∧
    ∃ s'', lookup 1 (lit "/") None (set_kinetic ∅ s') = Ret (0, Some l) s'' ∧ kinetic s'' = ∅.
Proof.
  destruct (lookup_reads_through 0 (lit "/") None None (demo_mount demo_drive) (lit "/") 0 demo_root_md)
    as (l & s' & H1 & _ & _ & H2 & H3).
  - apply demo_mount_ok.
  - vm_compute. reflexivity.
  - done.
  - apply demo_missing.
  - apply demo_loads_root.
  - right. vm_compute. by repeat split.
  - exists l, s'. split; [exact H1|]. split; [exact H2|]. apply (H3 ∅). by left.
Defined.

(** ** A client that has looked up the root and the file [/f] *)
Section TwoLookups.
Variables (d : store) (m : MetadataInfo).

Definition demo_rooted_at : hflat_priv store := loaded (demo_mount d) d (lit "/") demo_root_md.
Definition demo_two : hflat_priv store := loaded demo_rooted_at d (lit "/f") m.

Lemma demo_rooted_at_missing (key : cstr) : key ≠ lit "/" → missing demo_rooted_at key.
Proof. intros Hne. split; [cbn; set_solver|]. split; [|done]. cbn. rewrite lookup_insert_ne by done. apply lookup_empty. Qed.

Lemma demo_two_missing (key : cstr) : key ≠ lit "/" → key ≠ lit "/f" → missing demo_two key.
Proof. intros Hne Hnf. split; [cbn; set_solver|]. split; [|done]. cbn. rewrite !lookup_insert_ne by done. apply lookup_empty. Qed.

Hypothesis root_stored : loads (demo_mount d) (lit "/") demo_root_md.
Hypothesis file_stored : loads (demo_mount d) (lit "/f") m.

Lemma demo_rooted_at_ok : cache_ok demo_rooted_at.
Proof. apply loaded_ok; [apply demo_mount_ok|apply demo_missing|exact root_stored]. Qed.

Lemma demo_rooted_root h f : opened f h demo_rooted_at (lit "/") (lit "/") 1 demo_root_md.
Proof.
  split; [apply demo_rooted_at_ok| | |by vm_compute].
  - exists 0. vm_compute. by repeat split.
  - exists 1. split; [exact (loaded_held _ d _ _ (demo_mount_ok _) root_stored)|]. intros. by left.
Qed.

Lemma demo_two_root h f : opened f h demo_two (lit "/") (lit "/") 1 demo_root_md.
Proof. apply (opened_loaded f h); [apply demo_rooted_root|by apply demo_rooted_at_missing|exact file_stored|done]. Qed.

Hypothesis file_posix : md_inode_number (md m) ≠ 0 ∧ md_type (md m) = POSIX ∧ md_path_permission (md m) = [] ∧ md_path_permission_verified (md m) = 0.

Lemma demo_two_file h f : opened f h demo_two (lit "/f") (lit "/f") 2 m.
Proof.
  destruct file_posix as (Hi & Ht & Hp & Hv).
  split; [apply loaded_ok; [apply demo_rooted_at_ok|by apply demo_rooted_at_missing|exact file_stored]| | |].
  - exists 0. rewrite Ht, Hv. split; [vm_compute; reflexivity|done].
  - exists 3. split; [exact (loaded_held _ d _ _ demo_rooted_at_ok file_stored)|]. intros. by left.
  - unfold answer. by rewrite Hp, (proj2 (Z.eqb_neq _ _) Hi).
Qed.
End TwoLookups.
