(* ===== verification/CreateFacts.v ===== *)
(** * Creating files and directories

    {!File.hflat_create} run as a whole, with the lookups, the directory entry,
    the inode number and the metadata key it is made of, on a reliable namespace
    with relaxed time stamps. *)
From S2P Require Import Prelude CppString Proto PathMapDB LRUCache DataInfo MetadataInfo Kinetic FsState Demo KineticHelper Util Lookup Directory File Permission HelperFacts LookupFacts.

Section CreateFacts.
Context {W : Type} `{!Env} `{!KineticNamespace W} `{!KineticNamespaceSpec W} `{!KineticReliable W}.
Implicit Types (s : hflat_priv W) (m pm : MetadataInfo) (key path : cstr).

(** ** The new inode *)

(** Room left in the client's range of inode numbers. *)
Definition numbers_left s : Prop :=
  0 <= inum_base s ∧ 0 <= inum_counter s ∧ inum_counter s + 1 < uint16_max ∧
  inum_base s + inum_counter s + 1 < u64_mod.

Definition next_number s : Z := inum_base s + (inum_counter s + 1).

Lemma generate_run fuel s : numbers_left s →
  generate_inode_number fuel s = Ret (next_number s) (set_inum (inum_base s) (inum_counter s + 1) s).
Proof.
  intros (Hb & Hc & Hmax & Hw). unfold generate_inode_number, bump_counter, next_number, uint16_max in *.
  rewrite mbind_assoc. unfold modify_. rewrite mbind_lam. unfold get_ at 1. rewrite mbind_assoc, mbind_lam, mbind_ret_l.
  cbn [inum_counter set_inum inum_base]. unfold wrap16, u16_mod. rewrite Z.mod_small by lia.
  destruct (Z.eqb_spec (inum_counter s + 1) 65535); [lia|]. rewrite mbind_ret_l.
  unfold current_number, get_. rewrite mbind_lam. cbn [inum_base inum_counter set_inum]. unfold mret_.
  by rewrite wrap64_id by lia.
Qed.

(** The object at [l] replaced. *)
Definition with_md s (l : loc) m : hflat_priv W := set_heap (<[l := m]> (heap_md s)) (heap_di s) (next_loc s) s.

Lemma change_md_next {B} l f (k : unit → M (hflat_priv W) B) s m :
  mbind_ (change_md l f) k (with_md s l m) = k tt (with_md s l (on_md f m)).
Proof.
  rewrite (mbind_Ret _ _ _ _ _ (change_md_run l (with_md s l m) m f (lookup_insert_eq _ _ _))).
  unfold with_md at 1. cbn. by rewrite insert_insert_eq.
Qed.

Lemma with_md_self s l m : heap_md s !! l = Some m → with_md s l m = s.
Proof. intros Hm. unfold with_md. rewrite insert_id by done. by destruct s. Qed.

(** The metadata [initialize_metadata] starts from. *)
Definition new_inode s (mode : Z) (x : Metadata) : Metadata :=
  set_inode_number (next_number s)
    (set_mode mode (set_owner (fc_uid (ctx s)) (fc_gid (ctx s))
      (set_type POSIX (updateACMtime (env_time (time_used s)) x)))).

Definition initialized s (l : loc) m (x : Metadata) : hflat_priv W :=
  with_md (set_inum (inum_base s) (inum_counter s + 1)
            (set_inputs (uuids_used s) (steady_used s) (S (time_used s)) s)) l (on_md (λ _, x) m).

Lemma initialize_metadata_run fuel l ld mode s m pm x : numbers_left s →
  heap_md s !! l = Some m → heap_md s !! ld = Some pm → l ≠ ld →
  inherit_path_permissions (md pm) (new_inode s mode (md m)) = Ret tt x →
  initialize_metadata fuel l ld mode s = Ret tt (initialized s l m x).
Proof.
  intros Hn Hm Hpm Hne Hx. rewrite <- (with_md_self s l m Hm) at 1. unfold initialize_metadata, touch_ACM.
  rewrite mbind_assoc. unfold time_now. rewrite mbind_lam.
  change (set_inputs _ _ _ (with_md s l m)) with (with_md (set_inputs (uuids_used s) (steady_used s) (S (time_used s)) s) l m).
  set (s1 := set_inputs _ _ _ s). rewrite !change_md_next. unfold fuse_get_context, gets_. rewrite mbind_lam, !change_md_next.
  rewrite (mbind_Ret _ _ _ _ _ (generate_run fuel (with_md s1 l _) Hn)).
  set (s2 := set_inum (inum_base s) (inum_counter s + 1) s1).
  match goal with |- context [set_inum _ _ (with_md s1 l ?m1)] => change (set_inum _ _ (with_md s1 l m1)) with (with_md s2 l m1) end.
  rewrite change_md_next. match goal with |- mbind_ _ _ (with_md s2 l ?m1) = _ => set (m2 := m1) end.
  assert (Hpm2 : heap_md (with_md s2 l m2) !! ld = Some pm) by (cbn; by rewrite lookup_insert_ne).
  step_by (getMD_run ld _ pm Hpm2). unfold on_metadata.
  rewrite (mbind_Ret _ _ _ _ _ (deref_md_run l (with_md s2 l m2) m2 (lookup_insert_eq _ _ _))).
  unfold zoom. change (md m2) with (new_inode s mode (md m)). rewrite Hx. unfold initialized, with_md. cbn.
  by rewrite insert_insert_eq.
Qed.

(** ** The writes *)

Lemma create_directory_entry_ok fuel s ld pm name : heap_md s !! ld = Some pm → posix s = TIMERELAXED →
  drive s !! direntry_key (md_inode_number (md pm)) name = None →
  ∃ w', create_directory_entry fuel ld name s = Ret 0 (set_kinetic w' s) ∧
    contents w' = <[direntry_key (md_inode_number (md pm)) name := direntry_record]> (drive s).
Proof.
  intros Hm Hp Hd. unfold create_directory_entry. step_by (getMD_run ld s pm Hm). fold direntry_record.
  destruct (k_Put_ok (direntry_key (md_inode_number (md pm)) name) [] REQUIRE_SAME_VERSION direntry_record s)
    as (w' & Hput & Hw); [cbn; by rewrite Hd|].
  exists w'. split; [|done]. step_by Hput. rewrite bool_decide_false by done. cbn [is_ok negb].
  unfold touch_parent. rewrite mbind_assoc. unfold get_. rewrite mbind_lam. rewrite bool_decide_false; [done|].
  cbn. by rewrite Hp.
Qed.

Lemma delete_directory_entry_ok fuel s ld m name : heap_md s !! ld = Some m → posix s = TIMERELAXED →
  drive s !! direntry_key (md_inode_number (md m)) name = Some direntry_record →
  ∃ w', delete_directory_entry fuel ld name s = Ret 0 (set_kinetic w' s) ∧
    contents w' = delete (direntry_key (md_inode_number (md m)) name) (drive s).
Proof.
  intros Hm Hp Hd. unfold delete_directory_entry. step_by (getMD_run ld s m Hm).
  destruct (k_Delete_ok (direntry_key (md_inode_number (md m)) name) (to_string 1) REQUIRE_SAME_VERSION s) as (w' & Hdel & Hw);
    [by rewrite Hd|cbn; by rewrite Hd|].
  exists w'. split; [|done]. step_by Hdel. cbn [is_ok negb]. unfold touch_parent. rewrite mbind_assoc. unfold get_. rewrite mbind_lam.
  rewrite bool_decide_false; [done|]. cbn. by rewrite Hp.
Qed.

Lemma create_metadata_ok s l m : heap_md s !! l = Some m → drive s !! systemPath m = None →
  ∃ w', create_metadata l s = Ret 0 (with_md (set_kinetic w' (tick_uuid s)) l (setKeyVersion (env_uuid (uuids_used s)) m)) ∧
    contents w' = <[systemPath m := md_record s m]> (drive s).
Proof.
  intros Hm Hd. unfold create_metadata, generate_uuid. rewrite mbind_lam. fold (tick_uuid s).
  step_by (deref_md_run l (tick_uuid s) m Hm). fold (md_record s m).
  destruct (k_Put_ok (systemPath m) [] REQUIRE_SAME_VERSION (md_record s m) (tick_uuid s)) as (w' & Hput & Hw).
  { cbn. change (drive (tick_uuid s)) with (drive s). by rewrite Hd. }
  exists w'. split; [|exact Hw]. step_by Hput. by rewrite bool_decide_false.
Qed.

(** ** The whole operation *)

(** [lookup_parent] cuts the path at its last separator, the root's kept. *)
Definition parent_path path : cstr :=
  let pos := find_last_of (lit "/:") path in erase path (if pos =? 0 then pos + 1 else pos) npos.

Lemma lookup_parent_run f path p s s' err ld pm :
  find_last_of (lit "/:") path ≠ npos → lookup f (parent_path path) p s = Ret (err, Some ld) s' → err = 0 →
  heap_md s' !! ld = Some pm → S_ISDIR (md_mode (md pm)) = true →
  lookup_parent f path p s = Ret (check_path_permissions (ctx s') (md_path_permission_children (md pm)), Some ld) s'.
Proof.
  intros Hpos Hl -> Hpm Hdir. unfold lookup_parent, lookup_parent_with.
  destruct (Z.eqb_spec (find_last_of (lit "/:") path) npos); [done|]. fold (parent_path path). step_by Hl.
  cbn [negb Z.eqb non_null]. rewrite mbind_ret_l. step_by (getMD_run ld s' pm Hpm). by rewrite Hdir.
Qed.

Lemma opened_parent f h s path key l m p : opened f (S h) s (parent_path path) key l m →
  find_last_of (lit "/:") path ≠ npos → S_ISDIR (md_mode (md m)) = true →
  check_path_permissions (ctx s) (md_path_permission_children (md m)) = 0 →
  ∃ c', let s1 := set_lookup_cache c' (tick_steady s) in
    lookup_parent (S f) path p s = Ret (0, Some l) s1 ∧ reordered (md_getKey s) (lookup_cache s) c'.
Proof.
  intros Hop Hpos Hdir Hch. destruct (opened_lookup f h s _ key l m p Hop) as (c' & Hl & Hr & Hop1). exists c'. split; [|done].
  rewrite (lookup_parent_run (S f) path p s _ 0 l m Hpos Hl eq_refl (opened_heap _ _ _ _ _ _ _ Hop1) Hdir).
  change (ctx (set_lookup_cache c' (tick_steady s))) with (ctx s). by rewrite Hch.
Qed.

Lemma required_run {B} (m : M (hflat_priv W) Z) (k : unit → M (hflat_priv W) B) s s' : m s = Ret 0 s' → mbind_ (required m) k s = k tt s'.
Proof. intros Hm. unfold required. rewrite mbind_assoc. by step_by Hm. Qed.

(** What it takes to create [path]: neither its key nor its name exists; the
    parent is a directory in the cache that the caller may search and write. *)
Record creatable f s path key (ts : Z) (ld : loc) pm (time mode : Z) (x : Metadata) : Prop := {
  c_path : toSystemPath (S f) (pmap_ s) path LOOKUP = Some (key, ts) ∧ 0 <= ts <= md_path_permission_verified (md pm);
  c_missing : missing s key ∧ drive s !! key = None;
  c_slash : find_last_of (lit "/:") path ≠ npos;
  c_parent : ∃ pts, toSystemPath (S f) (pmap_ s) (parent_path path) LOOKUP = Some (systemPath pm, pts) ∧
               0 <= pts <= md_path_permission_verified (md pm);
  c_held : held s (systemPath pm) ld pm time ∧ systemPath pm ≠ key ∧
           timely (lookup_cache s) (env_steady (2 + steady_used s)) time;
  c_dir : md_inode_number (md pm) ≠ 0 ∧ md_type (md pm) = POSIX ∧ S_ISDIR (md_mode (md pm)) = true;
  c_allowed : check_path_permissions (ctx s) (md_path_permission (md pm)) = 0 ∧
              check_path_permissions (ctx s) (md_path_permission_children (md pm)) = 0 ∧
              check_access (ctx s) (md pm) W_OK = 0;
  c_name : drive s !! direntry_key (md_inode_number (md pm)) (path_to_filename path) = None ∧
           direntry_key (md_inode_number (md pm)) (path_to_filename path) ≠ key;
  c_posix : posix s = TIMERELAXED;
  c_number : numbers_left s;
  c_inode : inherit_path_permissions (md pm) (new_inode s mode default_Metadata) = Ret tt x;
}.

(** The inode as it is stored and cached. *)
Definition created_md s key (x : Metadata) : MetadataInfo :=
  setKeyVersion (env_uuid (uuids_used s)) (on_md (λ _, x) (MetadataInfo_new key)).

Definition created_state s (w1 : W) c' (w2 w3 : W) key (x : Metadata) : hflat_priv W :=
  let s1 := loaded s w1 key (MetadataInfo_new key) in
  let s2 := set_lookup_cache c' (tick_steady s1) in
  with_md (set_kinetic w3 (tick_uuid (initialized (set_kinetic w2 s2) (next_loc s) (MetadataInfo_new key) x)))
    (next_loc s) (created_md s key x).

Definition created_drive s key pm path (x : Metadata) : store :=
  <[key := mk_KineticRecord (SerializeAsString x) (env_uuid (uuids_used s))]>
    (<[direntry_key (md_inode_number (md pm)) (path_to_filename path) := direntry_record]> (drive s)).

(** The lookups and the directory entry, in which creating a file and a symbolic
    link begin. *)
Lemma create_lookups f s path key ts ld pm time mode x :
  cache_ok s → creatable f s path key ts ld pm time mode x →
  ∃ w1 c' w2, let s1 := loaded s w1 key (MetadataInfo_new key) in
    let s2 := set_lookup_cache c' (tick_steady s1) in let s3 := set_kinetic w2 s2 in
    lookup_absent (S f) path s = Ret (0, Some (next_loc s)) s1 ∧
    lookup_parent (S f) path None s1 = Ret (0, Some ld) s2 ∧ access_to ld W_OK s2 = Ret 0 s2 ∧
    create_directory_entry (S f) ld (path_to_filename path) s2 = Ret 0 s3 ∧
    reordered (md_getKey s1) (lookup_cache s1) c' ∧ heap_md s2 !! ld = Some pm ∧ next_loc s ≠ ld ∧
    contents w2 = <[direntry_key (md_inode_number (md pm)) (path_to_filename path) := direntry_record]> (drive s).
Proof.
  intros Hok [[Hp Hts] [Hmiss Hnew] Hpos (pts & Hpp & Hpts) (Hheld & Hne & Htime) (Hino & Hty & Hdir)
    (Hpe & Hch & Hacc) (Hname & Hnk) Hpx Hnum Hx].
  assert (Hload : loads s key (MetadataInfo_new key)) by (unfold loads; by rewrite Hnew).
  destruct (lookup_missing f path None s key ts _ Hok Hp ltac:(lia) Hmiss Hload (or_introl eq_refl)) as (w1 & Hw1 & Hl1).
  exists w1. set (s1 := loaded s w1 key (MetadataInfo_new key)) in *.
  pose proof (loaded_ok s w1 key _ Hok Hmiss Hload) as Hok1. fold s1 in Hok1.
  pose proof (loaded_held_other s w1 key (MetadataInfo_new key) _ _ _ _ Hok Hne Hheld) as Hheld1. fold s1 in Hheld1.
  destruct (lookup_held f (parent_path path) None s1 (systemPath pm) pts ld pm time Hok1 Hpp ltac:(lia) Hheld1 Htime)
    as (c' & Hl2 & Hr); [right; split; [by rewrite Hty|split; [by rewrite Hty|lia]]|].
  exists c'. set (s2 := set_lookup_cache c' (tick_steady s1)) in *.
  assert (Hpm2 : heap_md s2 !! ld = Some pm) by apply Hheld1.
  assert (Hnd : drive s2 !! direntry_key (md_inode_number (md pm)) (path_to_filename path) = None).
  { change (contents w1 !! direntry_key (md_inode_number (md pm)) (path_to_filename path) = None). by rewrite Hw1. }
  destruct (create_directory_entry_ok (S f) s2 ld pm (path_to_filename path) Hpm2 Hpx Hnd) as (w2 & Hentry & Hw2).
  change (drive s2) with (contents w1) in Hw2. rewrite Hw1 in Hw2. exists w2. cbv zeta. fold s1. fold s2.
  assert (Hans : answer s1 (md pm) = 0).
  { unfold answer. destruct (Z.eqb_spec (md_inode_number (md pm)) 0); [done|]. exact Hpe. }
  split; [|split; [|split; [|split; [exact Hentry|split; [exact Hr|split; [exact Hpm2|split; [|exact Hw2]]]]]]].
  - unfold lookup_absent. step_by Hl1. change (answer s (md (MetadataInfo_new key))) with (- ENOENT). by rewrite Z.eqb_refl.
  - rewrite (lookup_parent_run (S f) path None s1 s2 _ ld pm Hpos Hl2 Hans Hpm2 Hdir). change (ctx s2) with (ctx s). by rewrite Hch.
  - unfold access_to, fuse_get_context, gets_. rewrite mbind_lam. step_by (getMD_run ld s2 pm Hpm2). change (ctx s2) with (ctx s). by rewrite Hacc.
  - intros Heq. destruct Hheld as (_ & Hh & _). rewrite <- Heq, (ok_fresh _ Hok) in Hh by lia. done.
Qed.

Lemma hflat_create_run f s path key ts ld pm time mode x :
  cache_ok s → creatable f s path key ts ld pm time mode x →
  ∃ w1 c' w2 w3, let s1 := loaded s w1 key (MetadataInfo_new key) in
    hflat_create (S f) path mode s = Ret 0 (created_state s w1 c' w2 w3 key x) ∧
    reordered (md_getKey s1) (lookup_cache s1) c' ∧ contents w3 = created_drive s key pm path x.
Proof.
  intros Hok Hc. destruct (create_lookups f s path key ts ld pm time mode x Hok Hc) as (w1 & c' & w2 & Hl1 & Hl2 & Hacc & Hentry & Hr & Hpm2 & Hll & Hw2).
  destruct Hc as [_ [_ Hnew] _ _ _ _ _ (_ & Hnk) _ Hnum Hx]. exists w1, c', w2.
  set (s1 := loaded s w1 key (MetadataInfo_new key)) in *. set (s2 := set_lookup_cache c' (tick_steady s1)) in *. set (s3 := set_kinetic w2 s2) in *.
  assert (Hl3 : heap_md s3 !! next_loc s = Some (MetadataInfo_new key)) by apply lookup_insert_eq.
  pose proof (initialize_metadata_run (S f) (next_loc s) ld mode s3 _ pm x Hnum Hl3 Hpm2 Hll Hx) as Hinit.
  set (s4 := initialized s3 (next_loc s) (MetadataInfo_new key) x) in *.
  destruct (create_metadata_ok s4 (next_loc s) (on_md (λ _, x) (MetadataInfo_new key))) as (w3 & Hcreate & Hw3).
  { apply lookup_insert_eq. }
  { change (contents w2 !! key = None). by rewrite Hw2, lookup_insert_ne by done. }
  assert (Hu : uuids_used s4 = uuids_used s) by reflexivity. rewrite Hu in Hcreate.
  exists w3. split; [|split; [exact Hr|]].
  - unfold hflat_create. step_by Hl1. cbn [negb Z.eqb]. step_by Hl2. change (0 =? - ENOENT) with false. cbn [negb Z.eqb andb non_null].
    rewrite mbind_ret_l. unfold on_ok. step_by Hacc. cbn [negb Z.eqb]. step_by Hentry. cbn [negb Z.eqb]. rewrite mbind_ret_l. step_by Hinit.
    step_by Hcreate. unfold REQ_0, REQ_TRUE. cbn [Z.eqb]. unfold mbind_, mret_, created_state. fold s1 s2 s3 s4.
    reflexivity.
  - rewrite Hw3. change (drive s4) with (contents w2). by rewrite Hw2.
Qed.

(** *** The inode *)

Lemma inherit_identity parent y x : inherit_path_permissions parent y = Ret tt x →
  md_type x = md_type y ∧ md_inode_number x = md_inode_number y.
Proof.
  unfold inherit_path_permissions, computePathPermissionChildren. intros Hx. msimpl.
  repeat (case_match; simplify_eq; try done).
Qed.

(** The inode of [creatable]. *)
Lemma created_inode f s path key ts ld pm time mode x : creatable f s path key ts ld pm time mode x →
  md_type x = POSIX ∧ md_mode x = wrap32 mode ∧ md_uid x = wrap32 (fc_uid (ctx s)) ∧ md_gid x = wrap32 (fc_gid (ctx s)) ∧
  md_inode_number x = next_number s ∧ md_inode_number x ≠ 0 ∧
  md_path_permission_verified x = md_path_permission_verified (md pm) ∧
  check_path_permissions (ctx s) (md_path_permission x) = 0.
Proof.
  intros [_ _ _ _ _ _ (Hpe & Hch & _) _ _ (Hb & Hc & _ & Hw) Hx].
  destruct (inherit_pp _ _ _ Hx) as (Hpp & Hm & Hu & Hg & Hv & _). destruct (inherit_identity _ _ _ Hx) as (Ht & Hi).
  assert (Hn : md_inode_number x = next_number s).
  { rewrite Hi. cbn. apply wrap64_id. unfold next_number in *. lia. }
  do 5 (split; [done|]). split; [rewrite Hn; unfold next_number; lia|]. split; [done|].
  rewrite Hpp. by apply check_pp_app.
Qed.

(** *** The state afterwards *)

Lemma created_ok s w1 c' w2 w3 key x : cache_ok s → missing s key → loads s key (MetadataInfo_new key) →
  let s1 := loaded s w1 key (MetadataInfo_new key) in
  reordered (md_getKey s1) (lookup_cache s1) c' → cache_ok (created_state s w1 c' w2 w3 key x).
Proof.
  intros Hok Hmiss Hload s1 (Hwf & Hp & _). destruct (loaded_ok s w1 key _ Hok Hmiss Hload) as [_ Ha Hf].
  split; [eapply wf_getKey_ext; [exact Hwf|]| |].
  - intros e _. unfold md_getKey. cbn. rewrite !lookup_insert. by case_decide.
  - intros e. cbn. rewrite Hp. apply Ha.
  - intros l Hl. cbn in Hl |- *. rewrite !lookup_insert_ne by lia. apply Hok. lia.
Qed.

Lemma created_held s w1 c' w2 w3 key x : cache_ok s → missing s key → loads s key (MetadataInfo_new key) →
  let s1 := loaded s w1 key (MetadataInfo_new key) in
  reordered (md_getKey s1) (lookup_cache s1) c' →
  held (created_state s w1 c' w2 w3 key x) key (next_loc s) (created_md s key x) (env_steady (S (steady_used s))).
Proof.
  intros Hok Hmiss Hload s1 (_ & _ & He & Hb & _).
  destruct (loaded_held s w1 key _ Hok Hload) as (Hb1 & _ & _ & e & He1 & Hd).
  split; [cbn; rewrite Hb; exact Hb1|]. split; [apply lookup_insert_eq|]. split; [done|].
  exists e. split; [cbn; rewrite He; exact He1|exact Hd].
Qed.

(** C12: creating a file. When neither the key of the path nor its name in the
    parent exists and the caller may write the parent, [hflat_create] returns 0
    and adds exactly two keys to the drives: the directory entry and the inode.
    The inode has the caller's identity, the mode asked for, a number of the
    client's range and the parent's path permissions. The client finds it without
    asking the drives: the object it had cached for the missing path is now the
    inode. Any other client that has nothing cached for the path reads the same
    inode from the drives. *)
Theorem created_file_is_found `{!MessageSpec Metadata} f s path key ts ld pm time mode x :
  cache_ok s → creatable f s path key ts ld pm time mode x → msg_wf x →
  timely (lookup_cache s) (env_steady (3 + steady_used s)) (env_steady (1 + steady_used s)) →
  ∃ l s', hflat_create (S f) path mode s = Ret 0 s' ∧ drive s' = created_drive s key pm path x ∧
    md_mode x = wrap32 mode ∧ md_inode_number x = next_number s ∧
    (∃ s'' m, lookup (S f) path None s' = Ret (0, Some l) s'' ∧ kinetic s'' = kinetic s' ∧
       heap_md s'' !! l = Some m ∧ md m = x) ∧
    ∀ s2 ts2, drive s2 = drive s' → cache_ok s2 → missing s2 key →
      toSystemPath (S f) (pmap_ s2) path LOOKUP = Some (key, ts2) → 0 <= ts2 <= md_path_permission_verified x →
      ∃ l2 s2' m2, lookup (S f) path None s2 = Ret (check_path_permissions (ctx s2) (md_path_permission x), Some l2) s2' ∧
        heap_md s2' !! l2 = Some m2 ∧ md m2 = x.
Proof.
  intros Hok Hc Hwf Hclock. destruct (hflat_create_run f s path key ts ld pm time mode x Hok Hc) as (w1 & c' & w2 & w3 & Hrun & Hr & Hw).
  destruct (created_inode _ _ _ _ _ _ _ _ _ _ Hc) as (Hty & Hmode & _ & _ & Hnum & Hino & Hver & Hpp).
  destruct Hc as [[Hp Hts] [Hmiss Hnew] _ _ _ _ _ _ _ _ _].
  assert (Hload : loads s key (MetadataInfo_new key)) by (unfold loads; by rewrite Hnew).
  set (s' := created_state s w1 c' w2 w3 key x) in *. exists (next_loc s), s'.
  split; [exact Hrun|]. split; [exact Hw|]. split; [done|]. split; [done|]. split.
  - pose proof (created_held s w1 c' w2 w3 key x Hok Hmiss Hload Hr) as Hh. fold s' in Hh.
    destruct (lookup_held f path None s' key ts (next_loc s) (created_md s key x) (env_steady (S (steady_used s)))) as (c2 & Hl & _).
    + by apply created_ok.
    + exact Hp.
    + lia.
    + exact Hh.
    + destruct Hr as (_ & _ & _ & _ & He & _). unfold timely, s', created_state. cbn. rewrite He. exact Hclock.
    + right. cbn. rewrite Hty, Hver. by split; [|split; [|lia]].
    + exists (set_lookup_cache c2 (tick_steady s')), (created_md s key x).
      split; [|split; [done|split; [apply Hh|done]]].
      assert (Ha : answer s' (md (created_md s key x)) = 0); [|by rewrite Ha in Hl].
      change (md _) with x. unfold answer. destruct (Z.eqb_spec (md_inode_number x) 0); [done|exact Hpp].
  - intros s2 ts2 Hd Hok2 Hmiss2 Hp2 Hts2.
    set (m2 := setMD x (env_uuid (uuids_used s)) (MetadataInfo_new key)).
    destruct (lookup_missing f path None s2 key ts2 m2 Hok2 Hp2 ltac:(lia) Hmiss2) as (w' & _ & Hl).
    + unfold loads. rewrite Hd. change (drive s') with (contents w3). rewrite Hw. unfold created_drive.
      rewrite lookup_insert_eq. exists x. split; [by apply parse_serialize|done].
    + right. cbn. rewrite Hty. by split; [|split; [|lia]].
    + exists (next_loc s2), (loaded s2 w' key m2), m2. split; [|split; [apply lookup_insert_eq|done]].
      unfold answer in Hl. cbn [md m2 setMD] in Hl. destruct (Z.eqb_spec (md_inode_number x) 0); [done|exact Hl].
Qed.
End CreateFacts.

(** ** Witness: [create("/f")] below the root *)

#[local] Existing Instance demo_env.

(** The messages the demonstration serialiser represents. *)
#[local] Instance demo_metadata_spec : MessageSpec Metadata := {|
  msg_wf x := ParseFromString (SerializeAsString x) = Some x;
  parse_serialize _ H := H
|}.

(** A client that has looked up the root. *)
Definition demo_rooted : hflat_priv store := loaded (demo_mount demo_drive) demo_drive (lit "/") demo_root_md.

Definition demo_new : Metadata := mk_Metadata POSIX 1000 1000 1000 0 0 33188 1 1 0 0 [] 0 [] [].

Lemma demo_rooted_ok : cache_ok demo_rooted.
Proof. apply loaded_ok; [apply demo_mount_ok|apply demo_missing|apply demo_loads_root]. Qed.

Lemma demo_creatable : creatable 0 demo_rooted (lit "/f") (lit "/f") 0 1 demo_root_md 1 33188 demo_new.
Proof.
  split; try (by vm_compute).
  - exists 0. split; [by vm_compute|done].
  - split; [|split; [done|by right]]. exact (loaded_held _ demo_drive _ _ (demo_mount_ok _) demo_loads_root).
Qed.

Lemma created_file_is_found_witness :
  ∃ l s', hflat_create 1 (lit "/f") 33188 demo_rooted = Ret 0 s' ∧
    (∃ s'' m, lookup 1 (lit "/f") None s' = Ret (0, Some l) s'' ∧ heap_md s'' !! l = Some m ∧ md m = demo_new) ∧
    ∃ l2 s2' m2, lookup 1 (lit "/f") None (demo_mount (kinetic s')) = Ret (0, Some l2) s2' ∧
      heap_md s2' !! l2 = Some m2 ∧ md m2 = demo_new.
Proof.
  destruct (created_file_is_found 0 demo_rooted (lit "/f") (lit "/f") 0 1 demo_root_md 1 33188 demo_new)
    as (l & s' & H1 & H2 & _ & _ & (s'' & m & H3 & _ & H4 & H5) & H6).
  - apply demo_rooted_ok.
  - apply demo_creatable.
  - vm_compute. reflexivity.
  - by left.
  - destruct (H6 (demo_mount (kinetic s')) 0) as (l2 & s2' & m2 & H7 & H8 & H9).
    + reflexivity.
    + apply demo_mount_ok.
    + apply demo_missing.
    + vm_compute. reflexivity.
    + vm_compute. split; discriminate.
    + exists l, s'. split; [exact H1|]. split; [exists s'', m; split; [exact H3|split; [exact H4|exact H5]]|].
      exists l2, s2', m2. split; [exact H7|split; [exact H8|exact H9]].
Defined.
