(* ===== verification/DirectoryFacts.v ===== *)
(** * Listing a directory

    {!Directory.hflat_readdir} run as a whole: it reads the range of the entries in
    batches of a hundred, each starting after the last key of the one before. *)
From stdpp Require Import sorting.
From S2P Require Import Prelude CppString Proto PathMapDB LRUCache DataInfo MetadataInfo Kinetic KeyOrder FsState Demo KineticHelper Util Lookup Directory File Permission HelperFacts LookupFacts CreateFacts.

(** ** Ranges of keys, as a promise of the namespace *)

(** [GetKeyRange] answers with the first keys strictly between its bounds. *)
Class KineticRanges (W : Type) `{KineticNamespaceSpec W} := {
  ranges_GetKeyRange a b n w : 0 <= n →
    ∃ w', GetKeyRange a b n w = (OK, take (Z.to_nat n) (listing a b (contents w)), w') ∧ contents w' = contents w;
}.

(** The namespace over one drive keeps it. *)
#[export] Instance drive_ranges : KineticRanges store.
Proof. split. intros a b n w _. by exists w. Qed.

(** ** Names *)

Lemma direntry_name_key ino x : size_ (to_string ino) + 1 < u64_mod → direntry_name (direntry_key ino x) = x.
Proof.
  intros Hs. unfold direntry_name, direntry_key. change (lit "|" ++ x) with ("|"%char :: x).
  rewrite find_first_of_hit; [|apply to_string_free; by repeat constructor|done]. pose proof (size_nonneg (to_string ino)).
  rewrite wrap64_id by lia. unfold substr. rewrite size_app, size_cons. pose proof (size_nonneg x).
  destruct (Z.leb_spec (size_ (to_string ino) + (1 + size_ x)) (size_ (to_string ino) + 1)).
  - assert (Hx : size_ x = 0) by lia. unfold size_ in Hx. by destruct x.
  - change ("|"%char :: x) with (["|"%char] ++ x). rewrite app_assoc.
    replace (Z.to_nat (size_ (to_string ino) + 1)) with (length (to_string ino ++ ["|"%char])) by (rewrite length_app; unfold size_; cbn; lia).
    rewrite drop_app_length. apply take_ge. unfold size_ in *. lia.
Qed.

Lemma direntry_key_app ino x : direntry_key ino x = (to_string ino ++ lit "|") ++ x.
Proof. unfold direntry_key. by rewrite app_assoc. Qed.

(** The names [hflat_readdir] asks for: all but those that begin with one of the
    bytes 251 to 255. *)
Definition readdir_end : cstr := [Ascii.ascii_of_nat 251].
Definition shown (x : cstr) : Prop := x ≠ [] ∧ key_lt x readdir_end = true.

Lemma listing_names (d : store) ino : ∃ names,
  listing (to_string ino ++ lit "|") ((to_string ino ++ lit "|") ++ readdir_end) d = map (direntry_key ino) names ∧
  StronglySorted key_le names ∧ NoDup names ∧ ∀ x, x ∈ names ↔ is_Some (d !! direntry_key ino x) ∧ shown x.
Proof.
  set (p := to_string ino ++ lit "|"). set (l := listing p (p ++ readdir_end) d).
  assert (Hin : ∀ k, k ∈ l ↔ ∃ x, k = p ++ x ∧ is_Some (d !! (p ++ x)) ∧ shown x).
  { intros k. unfold l. rewrite elem_of_listing. unfold shown. split.
    - intros (H1 & H2 & H3). destruct (between_extends _ _ _ H1 H2) as (x & -> & Hx). exists x. by rewrite key_lt_app in H2.
    - intros (x & -> & H3 & Hx & H2). rewrite key_lt_app, <- (app_nil_r p) at 1. by rewrite key_lt_app; destruct x. }
  assert (Hmap : ∃ names, l = map (app p) names).
  { clear -Hin. assert (Hall : Forall (λ k, ∃ x, k = p ++ x) l) by (apply Forall_forall; intros k Hk; apply Hin in Hk as (x & -> & _); eauto).
    clear Hin. induction Hall as [|k l' (x & ->) _ (names & ->)]; [by exists []|]. by exists (x :: names). }
  destruct Hmap as (names & Hl). exists names.
  assert (Hsort : StronglySorted key_le l) by apply sort_sorted. assert (Hnd : NoDup l) by apply NoDup_listing.
  assert (Hext : map (direntry_key ino) names = l) by (rewrite Hl; apply map_ext; intros x; by rewrite direntry_key_app).
  split; [done|]. rewrite Hl in Hsort, Hnd. split; [|split; [by eapply NoDup_fmap_1|]].
  - clear -Hsort. induction names as [|x names IH]; [constructor|]. apply StronglySorted_inv in Hsort as [Hs Hx]. constructor; [by apply IH|].
    apply (proj1 (Forall_fmap (app p) _ names)) in Hx. eapply Forall_impl; [exact Hx|]. intros y. cbn. unfold key_le. by rewrite key_lt_app.
  - intros x. rewrite direntry_key_app. fold p. transitivity (p ++ x ∈ l).
    + rewrite Hl, list_elem_of_fmap. split; [by exists x|]. by intros (y & ->%app_inv_head & ?).
    + rewrite Hin. split; [by intros (y & ->%app_inv_head & ?)|eauto].
Qed.

Section DirectoryFacts.
Context {W : Type} `{!Env} `{!KineticNamespace W} `{!KineticNamespaceSpec W} `{!KineticRanges W}.
Implicit Types (s : hflat_priv W) (m : MetadataInfo) (key path : cstr).

Lemma k_GetKeyRange_run a b n s : 0 <= n →
  ∃ w, k_GetKeyRange a b n s = Ret (OK, take (Z.to_nat n) (listing a b (drive s))) (set_kinetic w s) ∧ contents w = drive s.
Proof.
  intros Hn. destruct (ranges_GetKeyRange a b n (kinetic s) Hn) as (w & Hr & Hw). exists w. unfold k_GetKeyRange. by rewrite Hr.
Qed.

(** The batches put together are the whole range. *)
Lemma readdir_loop_run n : ∀ a b keys names s, (length (listing (default a (last keys)) b (drive s)) < 100 * n)%nat →
  ∃ w, readdir_loop n a b keys names s =
      Ret (names ++ map (λ e, c_str (direntry_name e)) (listing (default a (last keys)) b (drive s))) (set_kinetic w s) ∧
    contents w = drive s.
Proof.
  induction n as [|n IH]; intros a b keys names s Hn; [lia|]. cbn [readdir_loop]. set (a' := default a (last keys)) in *.
  destruct (k_GetKeyRange_run a' b readdir_maxsize s) as (w & Hr & Hw); [done|]. step_by Hr. cbn [fst snd].
  change (Z.to_nat readdir_maxsize) with 100%nat. set (l := listing a' b (drive s)) in *. unfold readdir_maxsize.
  destruct (Z.eqb_spec (Z.of_nat (length (take 100 l))) 100) as [E|E]; rewrite length_take in E.
  - destruct (lookup_lt_is_Some_2 l 99) as [y Hy]; [lia|].
    assert (Hlast : last (take 100 l) = Some y).
    { rewrite last_lookup, length_take, Nat.min_l by lia. cbn [Nat.pred]. by rewrite lookup_take_lt by lia. }
    assert (Hrest : listing y b (drive (set_kinetic w s)) = drop 100 l).
    { change (drive (set_kinetic w s)) with (contents w). rewrite Hw. by apply (listing_after a' b (drive s) 99). }
    specialize (IH a' b (take 100 l) (names ++ map (λ e, c_str (direntry_name e)) (take 100 l)) (set_kinetic w s)).
    rewrite Hlast in IH. change (default a' (Some y)) with y in IH. rewrite Hrest, <- app_assoc, <- map_app, take_drop in IH.
    destruct IH as (w2 & Hrun & Hw2); [rewrite length_drop; lia|]. exists w2. split; [exact Hrun|]. by rewrite Hw2.
  - rewrite take_ge by lia. by exists w.
Qed.

(** C22: listing a directory. On a namespace that answers range requests as one
    drive would, [hflat_readdir] of a directory the caller may read returns 0 and
    hands out the names of its entries in byte-wise order, each exactly once, in
    however many batches; only names that begin with one of the bytes 251 to 255
    are left out. The drives stay as they are. *)
Theorem readdir_lists_directory f h s path key (l : loc) m :
  let ino := md_inode_number (md m) in
  opened f (S h) s path key l m → check_access (ctx s) (md m) R_OK = 0 → size_ (to_string ino) + 1 < u64_mod →
  (∀ x, is_Some (drive s !! direntry_key ino x) → no_nul x) →
  (length (listing (direntry_key ino []) (direntry_key ino readdir_end) (drive s)) < 100 * S f)%nat →
  ∃ names s', hflat_readdir (S f) path s = Ret (0, names) s' ∧ drive s' = drive s ∧
    (∀ x, x ∈ names ↔ is_Some (drive s !! direntry_key ino x) ∧ shown x) ∧ StronglySorted key_le names ∧ NoDup names.
Proof.
  intros ino Hop Hacc Hsize Hnul Hlen. destruct (opened_lookup f h s path key l m None Hop) as (c & Hl & _ & Hop1).
  set (s1 := set_lookup_cache c (tick_steady s)) in *. pose proof (opened_heap _ _ _ _ _ _ _ Hop1) as Hm.
  destruct (listing_names (drive s) ino) as (names & Hnames & Hsort & Hnd & Hin).
  rewrite !direntry_key_app, app_nil_r in Hlen.
  destruct (readdir_loop_run (S f) (to_string ino ++ lit "|") ((to_string ino ++ lit "|") ++ readdir_end) [] [] s1 Hlen) as (w & Hrun & Hw).
  exists names, (set_kinetic w s1). split; [|split; [exact Hw|done]].
  unfold hflat_readdir. step_by Hl. cbn [negb Z.eqb fst snd non_null]. rewrite mbind_ret_l.
  assert (Ha : access_to l R_OK s1 = Ret 0 s1).
  { unfold access_to, fuse_get_context, gets_. rewrite mbind_lam. step_by (getMD_run l s1 m Hm). change (ctx s1) with (ctx s). by rewrite Hacc. }
  step_by Ha. cbn [negb Z.eqb]. step_by (getMD_run l s1 m Hm). fold ino. rewrite app_assoc. fold readdir_end. step_by Hrun.
  cbn [last default app]. change (drive s1) with (drive s). rewrite Hnames, map_map. unfold mret_. do 2 f_equal.
  transitivity (map id names); [|apply map_id]. apply map_ext_in. intros x Hx%list_elem_of_In.
  rewrite direntry_name_key by done. apply c_str_no_nul, Hnul. by apply Hin.
Qed.
End DirectoryFacts.

(** ** Witness: the root with two entries *)

#[local] Existing Instance demo_env.

Definition demo_name (ino : Z) (x : cstr) : cstr := direntry_key ino x.
Definition demo_listed : store :=
  <[ demo_name 1 (lit "b") := direntry_record ]> (<[ demo_name 1 (lit "a") := direntry_record ]> demo_drive).

(** Root having looked up the root directory. *)
Definition demo_lister : hflat_priv store := demo_rooted_at demo_listed.

Lemma demo_lister_root h : opened 0 h demo_lister (lit "/") (lit "/") 1 demo_root_md.
Proof.
  assert (Hl : loads (demo_mount demo_listed) (lit "/") demo_root_md) by (exists demo_root; split; [by vm_compute|done]).
  split; [apply (demo_rooted_at_ok _ Hl)| | |by vm_compute].
  - exists 0. vm_compute. by repeat split.
  - exists 1. split; [exact (loaded_held _ demo_listed _ _ (demo_mount_ok _) Hl)|]. intros. by left.
Qed.

Lemma readdir_lists_directory_witness :
  ∃ names s', hflat_readdir 1 (lit "/") demo_lister = Ret (0, names) s' ∧ lit "a" ∈ names ∧ lit "b" ∈ names ∧ NoDup names.
Proof.
  destruct (readdir_lists_directory 0 0 demo_lister (lit "/") (lit "/") 1 demo_root_md) as (names & s' & H1 & _ & H2 & _ & H3).
  - apply demo_lister_root.
  - reflexivity.
  - reflexivity.
  - intros x [r Hr]. change (demo_listed !! direntry_key 1 x = Some r) in Hr. unfold demo_listed, demo_drive in Hr.
    apply lookup_insert_Some in Hr as [(<-%app_inv_head%(app_inv_head (lit "|")) & _)|[_ [(<-%app_inv_head%(app_inv_head (lit "|")) & _)|[_ [E _]%lookup_singleton_Some]]%lookup_insert_Some]].
    + unfold no_nul. apply not_elem_of_cons. split; [done|apply not_elem_of_nil].
    + unfold no_nul. apply not_elem_of_cons. split; [done|apply not_elem_of_nil].
    + discriminate E.
  - apply Nat.ltb_lt. vm_compute. reflexivity.
  - exists names, s'. split; [exact H1|]. split; [|split; [|exact H3]]; apply H2; (split; [vm_compute; by eexists|split; [discriminate|reflexivity]]).
Defined.

(** ** Names that are not listed, and entries that are no names *)

(** The directory [/d] with one entry. *)
Definition demo_dir7 : Metadata := mk_Metadata POSIX 5 5 5 0 0 (Z.lor S_IFDIR 493) 7 1 0 0 [] 0 [] [].
Definition demo_holding (name : cstr) : store :=
  <[ direntry_key 7 name := direntry_record ]> (<[ demo_name 1 (lit "d") := direntry_record ]>
  (<[ lit "/d" := mk_KineticRecord (SerializeAsString demo_dir7) (lit "r1") ]> demo_drive)).

Definition byte (n : nat) : cstr := [Ascii.ascii_of_nat n].

(** [hflat_readdir], [hflat_rmdir] and fsck end their ranges at different bytes (251,
    255 and 254). A directory whose only entry begins with byte 252 is listed as
    empty and cannot be removed; one whose only entry is the byte 255 is removed,
    and the entry stays on the drives. *)
Theorem unlisted_names :
  let d252 := demo_mount (demo_holding (byte 252)) in let d255 := demo_mount (demo_holding (byte 255)) in
  result_of (hflat_readdir 3 (lit "/d") d252) = Some (0, []) ∧ result_of (hflat_rmdir 3 (lit "/d") d252) = Some (- ENOTEMPTY) ∧
  result_of (hflat_rmdir 3 (lit "/d") d255) = Some 0 ∧
  kr_version <$> drive (state_after (hflat_rmdir 3 (lit "/d") d255) d255) !! direntry_key 7 (byte 255) = Some (lit "1").
Proof. vm_compute. repeat split. Qed.

(** While a rename is under way, or after it was interrupted, its recovery entry
    is handed out as a name. *)
Theorem readdir_shows_recovery_entries :
  result_of (hflat_readdir 3 (lit "/d") (demo_mount (demo_holding (lit "g|recovery|/f")))) = Some (0, [lit "g|recovery|/f"]).
Proof. vm_compute. reflexivity. Qed.
