(* ===== verification/WriteFacts.v ===== *)
(** * From one client's write to another client's read

    {!Data.hflat_write}, {!Data.hflat_fsync} and {!Data.hflat_read} run as a whole,
    with the lookups, both caches, the metadata key and the data key they are made
    of, on a reliable namespace. *)
From S2P Require Import Prelude CppString Proto PathMapDB LRUCache DataInfo MetadataInfo Kinetic FsState Demo KineticHelper Util Lookup Directory File Data Link Rename Fsck Xattr HelperFacts FuseFacts LookupFacts CreateFacts.

Section WriteFacts.
Context {W : Type} `{!Env} `{!KineticNamespace W} `{!KineticNamespaceSpec W} `{!KineticReliable W}.
Implicit Types (s t : hflat_priv W) (m : MetadataInfo) (d : DataInfo) (key path buf : cstr).

(** ** A block that is not in the data cache *)

Record block_missing s key : Prop := {
  bm_wf : wf (di_getKey s) (data_cache s);
  bm_unblocked : key ∉ blocked_keys (data_cache s);
  bm_absent : lookup_ (data_cache s) !! key = None;
  bm_room : Z.of_nat (length (cache (data_cache s))) < capacity (data_cache s);
  bm_allocated : ∀ e, e ∈ cache (data_cache s) → (ce_data e < next_loc s)%nat;
}.

(** The block as the drives have it. *)
Definition stored_on (σ : store) key : DataInfo :=
  match σ !! key with
  | Some r => DataInfo_new key (kr_version r) (kr_value r)
  | None => DataInfo_new key [] []
  end.

Lemma stored_on_key σ key : di_key (stored_on σ key) = key.
Proof. unfold stored_on. by case_match. Qed.

Definition new_block s d (w : W) : hflat_priv W :=
  set_heap (heap_md s) (<[next_loc s := d]> (heap_di s)) (S (next_loc s)) (set_kinetic w s).

Lemma get_data_run key s : ∃ w, get_data key s = Ret (0, Some (next_loc s)) (new_block s (stored_on (drive s) key) w) ∧ contents w = drive s.
Proof.
  unfold get_data, stored_on. destruct (drive s !! key) as [r|] eqn:E.
  - destruct (k_Get_found key s r E) as (w & Hg & Hw). exists w. split; [|done]. by step_by Hg.
  - destruct (k_Get_absent key s E) as (r & w & Hg & Hw). exists w. split; [|done]. step_by Hg. cbn [is_ok negb andb].
    by rewrite bool_decide_true.
Qed.

Definition dc_blocking s key : hflat_priv W :=
  set_data_cache (set_blocked ({[key]} ∪ blocked_keys (data_cache s)) (data_cache s)) (tick_steady s).

Lemma dc_get_missing s key : block_missing s key → dc_get key s = Ret None (tick_steady s).
Proof.
  intros []. unfold dc_get, mbind_, steady_now, zoom, get. cbn [data_cache set_inputs].
  rewrite bool_decide_false, bm_absent0 by done. by destruct s.
Qed.

Lemma dc_block_missing s key : block_missing s key → dc_block key (tick_steady s) = Ret true (dc_blocking s key).
Proof. intros []. unfold dc_block, zoom, block. cbn [data_cache tick_steady set_inputs]. by rewrite bool_decide_false. Qed.

(** The block once it is read and cached, and looked up again. *)
Definition block_loaded s (w : W) c d : hflat_priv W :=
  set_data_cache c (tick_steady (tick_steady (new_block (dc_blocking s (di_key d)) d w))).

Lemma data_cached_missing f s key (load : M (hflat_priv W) (Z * option loc)) d w : block_missing s key → di_key d = key →
  load (dc_blocking s key) = Ret (0, Some (next_loc s)) (new_block (dc_blocking s key) d w) →
  timely (data_cache s) (env_steady (2 + steady_used s)) (env_steady (1 + steady_used s)) →
  ∃ c, let s1 := block_loaded s w c d in
    data_cached (S (S f)) key load s = Ret (0, Some (next_loc s)) s1 ∧
    wf (di_getKey s1) c ∧ (key ∉ blocked_keys c) ∧ peek c key = Some (next_loc s).
Proof.
  intros Hm Hk Hload Ht. cbn [data_cached]. step_by (dc_get_missing s key Hm). step_by (dc_block_missing s key Hm). step_by Hload.
  cbn [negb Z.eqb non_null]. rewrite mbind_ret_l. set (s2 := new_block _ d w) in *.
  assert (Hl2 : heap_di s2 !! next_loc s = Some d) by apply lookup_insert_eq.
  assert (Hg2 : di_getKey s2 (next_loc s) = key) by (unfold di_getKey; by rewrite Hl2).
  assert (Hwf2 : wf (di_getKey s2) (data_cache s2)).
  { apply wf_set_blocked. eapply wf_getKey_ext; [apply Hm|]. intros e He. unfold di_getKey. cbn.
    rewrite lookup_insert_ne; [done|]. pose proof (bm_allocated s key Hm e He). lia. }
  set (c2 := push_front key (next_loc s) (env_steady (S (steady_used s))) (data_cache s2)).
  assert (Hadd : dc_add key (next_loc s) s2 = Ret true (set_data_cache c2 (tick_steady s2))).
  { unfold dc_add, mbind_, steady_now, zoom. cbn [data_cache set_inputs].
    change (di_getKey (set_inputs _ _ _ s2)) with (di_getKey s2). change (di_hasUpdates (set_inputs _ _ _ s2)) with (di_hasUpdates s2).
    by rewrite (proj1 (add_without_eviction (di_getKey s2) (di_hasUpdates s2) (data_cache s2) key (next_loc s) _ Hwf2 (bm_absent s key Hm) Hg2
      (or_introl (bm_room s key Hm)))). }
  rewrite mbind_assoc. step_by Hadd. unfold REQ_TRUE at 1. rewrite mbind_lam. set (s3 := set_data_cache c2 (tick_steady s2)) in *.
  assert (Hwf3 : wf (di_getKey s2) c2) by (by apply wf_push; [exact Hwf2|apply Hm|]).
  assert (Hb3 : key ∉ blocked_keys c2) by (cbn; set_solver).
  destruct (get_entry (di_getKey s2) (di_hasUpdates s2) c2 key (env_steady (2 + steady_used s))
    (mk_cache_entry (next_id (data_cache s2)) (next_loc s) (env_steady (S (steady_used s))))) as (c3 & Hg & Hr); [done|done| |exact Ht|].
  { unfold c2. rewrite (entry_of_push (di_getKey s2)) by done. by rewrite decide_True. }
  exists c3. destruct Hr as (Hwf & _ & He & Hbk & _). unfold block_loaded. rewrite Hk. split; [|split; [exact Hwf|split; [by rewrite Hbk|]]].
  - cbn [data_cached].
    assert (Hget : dc_get key s3 = Ret (Some (next_loc s)) (set_data_cache c3 (tick_steady s3))).
    { unfold dc_get, mbind_, steady_now, zoom. cbn [data_cache set_inputs s3 set_data_cache].
      change (di_hasUpdates (set_inputs _ _ _ s3)) with (di_hasUpdates s2). change (steady_used s3) with (2 + steady_used s)%nat. by rewrite Hg. }
    by step_by Hget.
  - assert (Hp : peek c3 key = e ← entry_of c3 key; Some (ce_data e)) by (unfold peek, entry_of; by destruct (lookup_ c3 !! key)).
    rewrite Hp, He. unfold c2. rewrite (entry_of_push (di_getKey s2)) by done. by rewrite decide_True.
Qed.

(** The block an access starts from: a write beyond the end of the file does not
    read it. *)
Definition first_block s m (mode : rw) (size offset : Z) : DataInfo :=
  if bool_decide (mode = WRITE) && (md_size (md m) <? wrap64 (offset + size)) then DataInfo_new (access_key s m offset) [] []
  else stored_on (drive s) (access_key s m offset).

Lemma first_block_key s m mode size offset : di_key (first_block s m mode size offset) = access_key s m offset.
Proof. unfold first_block. case_match; [done|apply stored_on_key]. Qed.

Lemma do_rw_missing f buf size offset s mdi m mode :
  heap_md s !! mdi = Some m → 0 < blocksize s → 0 <= offset < 2147483648 →
  block_missing s (access_key s m offset) →
  timely (data_cache s) (env_steady (2 + steady_used s)) (env_steady (1 + steady_used s)) →
  ∃ w c, let s1 := block_loaded s w c (first_block s m mode size offset) in
    do_rw (S (S f)) buf size offset mdi mode s = rw_in_block buf size offset (offset / blocksize s) (next_loc s) mode s1 ∧
    contents w = drive s ∧ wf (di_getKey s1) c ∧ (access_key s m offset ∉ blocked_keys c) ∧
    peek c (access_key s m offset) = Some (next_loc s).
Proof.
  intros Hm Hbs Ho Hmiss Ht. set (key := access_key s m offset) in *. set (d := first_block s m mode size offset).
  assert (Hload : ∃ w, (let! x := getMD mdi in
      if bool_decide (mode = WRITE) && (md_size x <? wrap64 (offset + size)) then
        let! l := new_di (DataInfo_new key [] []) in mret_ (0, Some l)
      else get_data key) (dc_blocking s key) = Ret (0, Some (next_loc s)) (new_block (dc_blocking s key) d w) ∧ contents w = drive s).
  { step_by (getMD_run mdi (dc_blocking s key) m Hm). unfold d, first_block. fold key. case_match.
    - exists (kinetic s). split; [|done]. done.
    - apply (get_data_run key (dc_blocking s key)). }
  destruct Hload as (w & Hload & Hw). exists w.
  destruct (data_cached_missing f s key _ d w Hmiss (first_block_key _ _ _ _ _) Hload Ht) as (c & Hrun & Hc).
  exists c. split; [|by split]. unfold do_rw, mbind_ at 1, get_. unfold mbind_ at 1, quot_.
  destruct (Z.eqb_spec (blocksize s) 0); [lia|]. unfold mret_ at 1. step_by (getMD_run mdi s m Hm).
  assert (0 <= offset / blocksize s) by (apply Z.div_pos; lia). assert (offset / blocksize s < 2147483648) by (apply div_small; lia).
  rewrite Z.quot_div_nonneg, to_i32_id by (unfold is_int32; lia). fold key. step_by Hrun. done.
Qed.

(** ** Which block a key names *)

Lemma key_blocknum_data_key ino b : 0 <= b < 2147483648 → size_ (data_key ino b) < u64_mod → key_blocknum (data_key ino b) = b.
Proof.
  intros Hb Hs. pose proof (size_nonneg (to_string ino)). pose proof (size_nonneg (to_string b)). unfold key_blocknum.
  assert (E : data_key ino b = to_string ino ++ "_"%char :: to_string b) by done. rewrite E in *.
  rewrite find_first_of_hit; [|apply to_string_free; by repeat constructor|done]. rewrite size_app, size_cons in Hs.
  rewrite wrap64_succ, substr_tail by lia. unfold to_int64. rewrite stoll_to_string by (unfold is_int64; lia).
  apply to_i32_id. unfold is_int32. lia.
Qed.

(** ** Writing *)

Definition dirtied (di : loc) m : MetadataInfo := mk_MetadataInfo (systemPath m) (keyVersion m) (md m) (Some di).

Lemma set_dirty_clean s l di m : heap_md s !! l = Some m → dirty_data m = None →
  set_dirty l (Some di) s = Ret true (set_heap (<[l := dirtied di m]> (heap_md s)) (heap_di s) (next_loc s) s).
Proof.
  intros Hm Hc. unfold set_dirty. step_by (deref_md_run l s m Hm). unfold mbind_ at 1, get_, setDirtyData.
  by rewrite bool_decide_false, Hc by congruence.
Qed.

(** Bytes [n] from [o] on are those of [buf], the others those of [old]. *)
Definition overlaid (old buf : cstr) (o n : Z) (new : cstr) : Prop :=
  ∀ i, byte_at new i = if decide (o <= Z.of_nat i < o + n) then byte_at buf (i - Z.to_nat o) else byte_at old i.

(** An access to a part of one block that does not reach the end of the block. *)
Definition within_block s (size offset : Z) : Prop :=
  0 < blocksize s <= block_limit ∧ 0 <= offset < 2147483648 ∧ 0 < size < 2147483648 ∧
  in_block (blocksize s) offset + size < blocksize s.

Lemma within_in_block s size offset : within_block s size offset →
  in_block_size (blocksize s) offset size = size ∧ 0 <= in_block (blocksize s) offset ∧
  Z.rem (wrap64 (offset + size)) (blocksize s) ≠ 0.
Proof.
  intros (Hbs & Ho & Hs & Hin). unfold in_block_size, in_block in *.
  pose proof (Z.mod_pos_bound offset (blocksize s) ltac:(lia)). pose proof (Z.div_mod offset (blocksize s) ltac:(lia)).
  split; [lia|]. split; [lia|]. rewrite wrap64_id by (unfold u64_mod; lia). rewrite Z.rem_mod_nonneg by lia.
  rewrite <- (Z.mod_unique (offset + size) (blocksize s) (offset / blocksize s) (offset mod blocksize s + size)); lia.
Qed.

(** The block a write leaves in the cache, pending. *)
Record pending s m (size offset : Z) (buf : cstr) d : Prop := {
  p_key : di_key d = access_key s m offset;
  p_updates : di_updates d = [(in_block (blocksize s) offset, size)];
  p_version : di_keyVersion d = di_keyVersion (first_block s m WRITE size offset);
  p_size : size_ (di_d d) = Z.max (in_block (blocksize s) offset + size) (size_ (di_d (first_block s m WRITE size offset)));
  p_bytes : overlaid (di_d (first_block s m WRITE size offset)) buf (in_block (blocksize s) offset) size (di_d d);
}.

Lemma hflat_write_run f h s path key l m buf size offset flags :
  opened (S f) (5 + h) s path key l m → dirty_data m = None → within_block s size offset → size_ buf = size →
  has_bit flags O_APPEND = false → block_missing s (access_key s m offset) →
  timely (data_cache s) (env_steady (3 + steady_used s)) (env_steady (2 + steady_used s)) →
  ∃ s' d, hflat_write (S (S f)) path buf size offset flags s = Ret size s' ∧
    drive s' = drive s ∧ blocksize s' = blocksize s ∧ posix s' = posix s ∧ time_used s' = time_used s ∧
    opened (S f) h s' path key l (dirtied (next_loc s) m) ∧ wf (di_getKey s') (data_cache s') ∧
    heap_di s' !! next_loc s = Some d ∧ pending s m size offset buf d.
Proof.
  intros Hop Hcl Hin Hbuf Happ Hmiss Ht. pose proof Hin as (Hbs & Ho & Hs & _).
  destruct (within_in_block _ _ _ Hin) as (Hn & Hst & Hrem).
  destruct (opened_lookup (S f) (4 + h) s path key l m None Hop) as (c1 & Hl & _ & Hop1). set (s1 := set_lookup_cache c1 _) in *.
  destruct (do_rw_missing f buf size offset s1 l m WRITE (opened_heap _ _ _ _ _ _ _ Hop1) (proj1 Hbs) Ho) as (w & c & Hrw & Hw & Hwf & _ & _);
    [by destruct Hmiss|exact Ht|].
  set (d0 := first_block s1 m WRITE size offset) in *. set (s2 := block_loaded s1 w c d0) in *.
  assert (Hd0 : heap_di s2 !! next_loc s = Some d0) by apply lookup_insert_eq.
  destruct (rw_in_block_write buf size offset s2 (next_loc s) d0 Hbs Ho Hs Hbuf Hd0) as (b & Hblk & Hsz & Hby).
  change (blocksize s2) with (blocksize s) in *. rewrite Hn in *.
  set (d := push_update _ _) in Hblk. set (s3 := set_heap _ _ _ s2) in *.
  set (s' := set_heap (<[l := dirtied (next_loc s) m]> (heap_md s3)) (heap_di s3) (next_loc s3) s3).
  assert (Hdirty : set_dirty l (Some (next_loc s)) s3 = Ret true s').
  { apply set_dirty_clean; [|done]. exact (opened_heap _ _ _ _ _ _ _ Hop1). }
  exists s', d. split; [|split; [exact Hw|]].
  - cbn [hflat_write]. unfold on_found. step_by Hl. cbn [negb Z.eqb fst snd]. unfold non_null at 1. rewrite mbind_ret_l.
    change (next_loc s1) with (next_loc s) in Hrw. step_by (eq_trans Hrw Hblk).
    rewrite wrap64_id by (unfold u64_mod; lia). destruct (Z.eqb_spec size 0); [lia|]. step_by Hdirty.
    unfold on_ok at 1. rewrite mbind_ret_l. cbn [negb Z.eqb]. unfold get_. rewrite mbind_lam. unfold rem_.
    change (blocksize s') with (blocksize s). destruct (Z.eqb_spec (blocksize s) 0); [lia|]. rewrite mbind_ret_l, Happ.
    destruct (Z.eqb_spec (Z.rem (wrap64 (offset + size)) (blocksize s)) 0); [done|]. cbn [orb].
    by rewrite to_i32_id by (unfold is_int32; lia).
  - do 3 (split; [done|]). split; [|split; [|split; [apply lookup_insert_eq|]]].
    + eapply (opened_frame _ (4 + h) h s1); [exact Hop1|try done..]; cbn; lia.
    + exact (cached_write s2 (next_loc s) d0 d Hwf Hd0 eq_refl).
    + split; [exact (first_block_key s1 m WRITE size offset)| |done|exact Hsz|exact Hby]. unfold d, push_update. cbn.
      unfold d0, first_block, stored_on. by repeat case_match.
Qed.

(** ** Flushing *)

Definition flush_size s m d : Z :=
  Z.max (wrap64 (blocksize s * key_blocknum (di_key d) + size_ (di_d d))) (md_size (md m)).

(** The metadata that go with the flushed block. *)
Definition flushed s m d : Metadata :=
  if (md_size (md m) <? flush_size s m d) || bool_decide (posix s = FULL) then
    updateACMtime (env_time (time_used s))
      (set_blocks (Z.quot (flush_size s m d) (blocksize s) + 1) (set_size (flush_size s m d) (md m)))
  else md m.

Lemma flushed_access s m d : same_access (flushed s m d) (md m).
Proof. unfold flushed. by case_match. Qed.

(** The metadata are stored before the block. *)
Lemma flush_metadata_run {B} (k : Z → M (hflat_priv W) B) s l m n : caches_ok s → heap_md s !! l = Some m → blocksize s ≠ 0 →
  version_matches (drive s) (systemPath m) (keyVersion m) REQUIRE_SAME_VERSION →
  let x := updateACMtime (env_time (time_used s)) (set_blocks (Z.quot n (blocksize s) + 1) (set_size n (md m))) in
  ∃ s', (change_md l (set_size n) ;;;
         let! q := quot_ n (blocksize s) in
         change_md l (set_blocks (q + 1)) ;;; touch_ACM l ;;; let! err := put_metadata l in k err) s = k 0 s' ∧
    caches_ok s' ∧ heap_di s' = heap_di s ∧
    ∃ v, drive s' = <[systemPath m := mk_KineticRecord (SerializeAsString x) v]> (drive s).
Proof.
  intros Hok Hm Hbs Hv x. set (m' := on_md (λ _, x) m).
  set (s1 := with_md (set_inputs (uuids_used s) (steady_used s) (S (time_used s)) s) l m').
  assert (Hok1 : caches_ok s1) by (by eapply (caches_ok_write_md (set_inputs _ _ _ s))).
  assert (Hm1 : heap_md s1 !! l = Some m') by apply lookup_insert_eq.
  destruct (put_metadata_run s1 l m' Hok1 Hm1) as (err & s' & Hput & Hok' & Hdi & _ & _ & H0 & _ & _ & Herr).
  rewrite put_status, decide_True in Herr by done. subst err. destruct (H0 eq_refl) as (_ & Hd & _).
  exists s'. split; [|split; [done|split; [done|by eexists]]].
  rewrite <- (with_md_self s l m Hm) at 1. rewrite change_md_next. unfold quot_. rewrite (proj2 (Z.eqb_neq _ _)) by done.
  rewrite mbind_ret_l, change_md_next. unfold touch_ACM. rewrite mbind_assoc. unfold time_now. rewrite mbind_lam.
  change (set_inputs _ _ _ (with_md s l ?y)) with (with_md (set_inputs (uuids_used s) (steady_used s) (S (time_used s)) s) l y).
  rewrite change_md_next. by step_by Hput.
Qed.

(** A flush of the block [d] at [di], dirty for the file at [l]. *)
Record flushable s key m (di : loc) d : Prop := {
  f_caches : caches_ok s;
  f_block : heap_di s !! di = Some d ∧ hasUpdates d = true ∧ writes_ok d;
  f_dirty : dirty_data m = Some di;
  f_bs : 0 < blocksize s;
  f_md : ∃ r, drive s !! key = Some r ∧ kr_version r = keyVersion m ∧ ParseFromString (kr_value r) = Some (md m);
  f_keys : key ≠ di_key d;
  f_limit : ∀ r, drive s !! di_key d = Some r → size_ (kr_value r) <= block_limit;
  f_version : is_Some (drive s !! di_key d) ∨ di_keyVersion d = [];
}.

Lemma hflat_fsync_run `{!MessageSpec Metadata} f h s path key l m di d fi :
  opened (S f) (S h) s path key l m → flushable s key m di d → msg_wf (flushed s m d) →
  ∃ s' b v rk, hflat_fsync (S (S f)) path fi s = Ret 0 s' ∧
    drive s' = <[di_key d := mk_KineticRecord b v]> (<[key := rk]> (drive s)) ∧
    ParseFromString (kr_value rk) = Some (flushed s m d) ∧
    (version_matches (drive s) (di_key d) (di_keyVersion d) REQUIRE_SAME_VERSION → b = di_d d) ∧
    (∀ r, drive s !! di_key d = Some r → kr_version r ≠ di_keyVersion d →
     size_ b = Z.max (size_ (kr_value r)) (size_ (di_d d)) ∧
     ∀ i, byte_at b i = if covered (di_updates d) i then byte_at (di_d d) i else byte_at (kr_value r) i).
Proof.
  intros Hop [Hok (Hd & Hup & Hwr) Hdirty Hbs (r & Hr & Hv & Hx) Hne Hlim Hex] Hwf.
  destruct (opened_lookup (S f) h s path key l m None Hop) as (c1 & Hl & _ & Hop1). set (s1 := set_lookup_cache c1 _) in *.
  pose proof (opened_heap _ _ _ _ _ _ _ Hop1) as Hm. assert (Hok1 : caches_ok s1) by (split; [apply Hop1|apply Hok]).
  assert (Hk : systemPath m = key) by (by destruct Hop as [_ _ (? & (_ & _ & ? & _) & _) _]).
  assert (Hfin : ∃ s2 rk, hflat_fsync (S (S f)) path fi s = put_data (S (S f)) di s2 ∧ caches_ok s2 ∧ heap_di s2 = heap_di s ∧
    drive s2 = <[key := rk]> (drive s) ∧ ParseFromString (kr_value rk) = Some (flushed s m d)).
  { cbn [hflat_fsync]. unfold on_found. step_by Hl. cbn [negb Z.eqb fst snd]. unfold non_null at 1. rewrite mbind_ret_l.
    step_by (deref_md_run l s1 m Hm). rewrite Hdirty. step_by (deref_di_run di s1 d Hd). rewrite Hup. cbn [negb].
    unfold get_ at 1. rewrite mbind_lam. change (blocksize s1) with (blocksize s). change (posix s1) with (posix s). fold (flush_size s m d).
    unfold flushed in *. destruct (_ || _).
    - match goal with |- context [let! err := put_metadata l in @?k err] =>
        destruct (flush_metadata_run k s1 l m (flush_size s m d) Hok1 Hm) as (s2 & Hrun & Hok2 & Hdi & v & Hdr) end.
      + change (blocksize s1) with (blocksize s). lia.
      + cbn. change (drive s1) with (drive s). by rewrite Hk, Hr.
      + exists s2. eexists. rewrite Hk in Hdr. split; [exact Hrun|]. do 2 (split; [done|]). split; [exact Hdr|].
        by apply parse_serialize.
    - exists s1, r. do 3 (split; [done|]). split; [by rewrite insert_id|done]. }
  destruct Hfin as (s2 & rk & Hrun & Hok2 & Hdi & Hdr & Hpk). rewrite <- Hdi in Hd.
  assert (Hsame : drive s2 !! di_key d = drive s !! di_key d) by (by rewrite Hdr, lookup_insert_ne).
  destruct (put_data_run f s2 di d Hok2 Hd Hwr) as (s' & d' & Hput & _ & _ & _ & Hdr' & Hb1 & Hb2).
  { by rewrite Hsame. } { by rewrite Hsame. }
  exists s', (di_d d'), (di_keyVersion d'), rk. rewrite Hrun. split; [exact Hput|]. rewrite <- Hdr. split; [done|]. split; [done|].
  rewrite Hsame in Hb2. cbn [version_matches] in Hb1. rewrite Hsame in Hb1. by split.
Qed.

(** ** Reading *)

(** Nothing of the file of [key] is cached at [t], which resolves [path] to it and
    whose user may follow the path; [x] are the metadata on the drives. *)
Record reader f t path key (x : Metadata) (size offset : Z) : Prop := {
  r_ok : cache_ok t;
  r_missing : missing t key;
  r_path : ∃ ts, toSystemPath (S f) (pmap_ t) path LOOKUP = Some (key, ts) ∧ 0 <= ts <= md_path_permission_verified x;
  r_inode : md_inode_number x ≠ 0 ∧ md_type x ≠ HARDLINK_S ∧ md_type x ≠ FORCE_UPDATE;
  r_allowed : check_path_permissions (ctx t) (md_path_permission x) = 0;
  r_block : block_missing t (data_key (md_inode_number x) (offset / blocksize t));
  r_clock : timely (data_cache t) (env_steady (4 + steady_used t)) (env_steady (3 + steady_used t));
  r_within : within_block t size offset;
}.

Lemma hflat_read_run f t path key x rk size offset rbuf : reader (S f) t path key x size offset →
  drive t !! key = Some rk → ParseFromString (kr_value rk) = Some x → size_ rbuf = size →
  let block := di_d (stored_on (drive t) (data_key (md_inode_number x) (offset / blocksize t))) in
  size_ block <= block_limit →
  ∃ t' buf, hflat_read (S (S f)) path rbuf size offset t = Ret (size, buf) t' ∧ size_ buf = size ∧
    ∀ i, Z.of_nat i < size → byte_at buf i = byte_at block (Z.to_nat (in_block (blocksize t) offset) + i).
Proof.
  intros [Hok Hmiss (ts & Hp & Hts) (Hino & Hty) Hpp Hbm Ht Hin] Hrk Hx Hbuf block Hlim. pose proof Hin as (Hbs & Ho & Hs & _).
  destruct (within_in_block _ _ _ Hin) as (Hn & _). set (m := setMD x (kr_version rk) (MetadataInfo_new key)).
  assert (Hload : loads t key m) by (unfold loads; rewrite Hrk; by exists x).
  assert (Hset : settled ts (md m)) by (right; cbn; naive_solver lia).
  destruct (lookup_missing (S f) path None t key ts m Hok Hp ltac:(lia) Hmiss Hload Hset) as (w & Hw & Hl).
  set (t1 := loaded t w key m) in *.
  assert (Hans : answer t (md m) = 0) by (unfold answer; cbn; by rewrite (proj2 (Z.eqb_neq _ _))). rewrite Hans in Hl.
  assert (Hm1 : heap_md t1 !! next_loc t = Some m) by apply lookup_insert_eq.
  destruct (do_rw_missing f rbuf size offset t1 (next_loc t) m READ Hm1 (proj1 Hbs) Ho) as (w2 & c & Hrw & _); [|exact Ht|].
  { destruct Hbm as [? ? ? ? Ha]. split; try done. intros e He. pose proof (Ha e He). cbn. lia. }
  set (d := first_block t1 m READ size offset) in *. set (t2 := block_loaded t1 w2 c d) in *.
  assert (Hd : heap_di t2 !! next_loc t1 = Some d) by apply lookup_insert_eq.
  assert (Ed : d = stored_on (drive t) (data_key (md_inode_number x) (offset / blocksize t))).
  { unfold d, first_block. cbn -[access_key stored_on]. change (drive t1) with (contents w). by rewrite Hw. }
  destruct (rw_in_block_read rbuf size offset t2 (next_loc t1) d Hbs Ho Hs Hbuf Hd) as (buf & Hblk & Hsz & Hby); [by rewrite Ed|].
  change (blocksize t2) with (blocksize t) in *. rewrite Hn in *. exists t2, buf. split; [|split; [done|]].
  - unfold hflat_read. step_by Hl. cbn [negb Z.eqb non_null]. rewrite mbind_ret_l. by step_by (eq_trans Hrw Hblk).
  - intros i Hi. rewrite Hby, decide_True by done. by rewrite Ed.
Qed.

(** ** From the write to the read *)

(** The blocks on the drives fit, and have versions. *)
Definition block_sound (σ : store) (bkey : cstr) : Prop :=
  ∀ r, σ !! bkey = Some r → kr_version r ≠ [] ∧ size_ (kr_value r) <= block_limit.

Lemma stored_small σ bkey : block_sound σ bkey → size_ (di_d (stored_on σ bkey)) <= block_limit.
Proof. intros Hs. unfold stored_on. destruct (σ !! bkey) as [r|] eqn:E; [by apply (Hs r E)|]. unfold block_limit, size_. cbn. lia. Qed.

Lemma pending_ok s m size offset buf d : pending s m size offset buf d → within_block s size offset →
  block_sound (drive s) (access_key s m offset) →
  hasUpdates d = true ∧ writes_ok d ∧ (is_Some (drive s !! di_key d) ∨ di_keyVersion d = []).
Proof.
  intros [Hk Hu Hv Hsz _] Hin Hs. destruct (within_in_block _ _ _ Hin) as (_ & Ho & _). destruct Hin as (Hbs & _ & Hpos & Hin).
  assert (Hd0 : size_ (di_d (first_block s m WRITE size offset)) <= block_limit ∧
    (is_Some (drive s !! di_key d) ∨ di_keyVersion (first_block s m WRITE size offset) = [])).
  { rewrite Hk. unfold first_block, stored_on. case_match; [cbn; split; [unfold block_limit, size_; cbn; lia|by right]|].
    destruct (drive s !! _) as [r|] eqn:E; cbn; [|split; [unfold block_limit, size_; cbn; lia|by right]].
    split; [by apply (Hs r E)|left; eauto]. }
  split; [unfold hasUpdates; by rewrite Hu|]. rewrite Hv. split; [|apply Hd0]. split; [|lia].
  rewrite Hu. constructor; [|constructor]. unfold write_ok. cbn. lia.
Qed.

(** What the flush stores is the old block under the bytes written, whether the
    block had been read or not. *)
Lemma flushed_bytes s m size offset buf d b : pending s m size offset buf d → within_block s size offset →
  block_sound (drive s) (access_key s m offset) →
  (version_matches (drive s) (di_key d) (di_keyVersion d) REQUIRE_SAME_VERSION → b = di_d d) →
  (∀ r, drive s !! di_key d = Some r → kr_version r ≠ di_keyVersion d →
     size_ b = Z.max (size_ (kr_value r)) (size_ (di_d d)) ∧
     ∀ i, byte_at b i = if covered (di_updates d) i then byte_at (di_d d) i else byte_at (kr_value r) i) →
  let old := di_d (stored_on (drive s) (access_key s m offset)) in
  overlaid old buf (in_block (blocksize s) offset) size b ∧
  size_ b = Z.max (in_block (blocksize s) offset + size) (size_ old).
Proof.
  intros [Hk Hu Hv Hsz Hby] Hin Hs Hmatch Hmerge. rewrite Hk, Hv, Hu in *. unfold first_block in *.
  destruct (_ && _); [|].
  - unfold stored_on. cbn in Hmatch, Hmerge, Hby, Hsz |- *. destruct (drive s !! access_key s m offset) as [r|] eqn:E; cbn.
    + destruct (Hs r E) as [Hne _]. destruct (Hmerge r eq_refl Hne) as [Hb1 Hb2]. split; [|rewrite size_nil in Hsz; pose proof (size_nonneg (kr_value r)); lia].
      intros i. rewrite Hb2, Hby. unfold covered. cbn. rewrite orb_false_r. repeat case_decide; case_match; try done; lia.
    + rewrite (Hmatch eq_refl). by split.
  - assert (Hvm : version_matches (drive s) (access_key s m offset)
                    (di_keyVersion (stored_on (drive s) (access_key s m offset))) REQUIRE_SAME_VERSION).
    { cbn. unfold stored_on. by destruct (drive s !! access_key s m offset). }
    rewrite (Hmatch Hvm). by split.
Qed.

Lemma byte_at_overlaid old buf o n b i : overlaid old buf o n b → 0 <= o → Z.of_nat i < n →
  byte_at b (Z.to_nat o + i) = byte_at buf i.
Proof. intros Hb Ho Hi. rewrite Hb, decide_True by lia. f_equal. lia. Qed.

(** C13: data travel from one client to another. When a client writes [buf]
    inside a block it has not cached, of a file whose metadata it has, the write
    returns the size and the flush returns 0; the block on the drives is then the
    old one with exactly the written bytes replaced, whether or not the write made
    the file grow, in which case the block was not read before. Every other client
    that has cached nothing of the file and may follow the path then reads exactly
    [buf] at that place. *)
Theorem flushed_write_is_read `{!MessageSpec Metadata} f h s path key l m buf size offset flags fi :
  opened (S f) (6 + h) s path key l m → dirty_data m = None → within_block s size offset → size_ buf = size →
  has_bit flags O_APPEND = false → block_missing s (access_key s m offset) →
  timely (data_cache s) (env_steady (3 + steady_used s)) (env_steady (2 + steady_used s)) →
  (∃ r, drive s !! key = Some r ∧ kr_version r = keyVersion m ∧ ParseFromString (kr_value r) = Some (md m)) →
  key ≠ access_key s m offset → block_sound (drive s) (access_key s m offset) →
  (∀ d, pending s m size offset buf d → msg_wf (flushed s m d)) →
  ∃ s1 s2 x r, hflat_write (S (S f)) path buf size offset flags s = Ret size s1 ∧
    hflat_fsync (S (S f)) path fi s1 = Ret 0 s2 ∧
    drive s2 !! access_key s m offset = Some r ∧
    (let old := di_d (stored_on (drive s) (access_key s m offset)) in
     overlaid old buf (in_block (blocksize s) offset) size (kr_value r) ∧
     size_ (kr_value r) = Z.max (in_block (blocksize s) offset + size) (size_ old)) ∧
    same_access x (md m) ∧
    ∀ t g rbuf, drive t = drive s2 → blocksize t = blocksize s → reader (S g) t path key x size offset → size_ rbuf = size →
      ∃ t', hflat_read (S (S g)) path rbuf size offset t = Ret (size, buf) t'.
Proof.
  intros Hop Hcl Hin Hbuf Happ Hbm Ht Hmd Hne Hsound Hwf.
  destruct (hflat_write_run f (S h) s path key l m buf size offset flags Hop Hcl Hin Hbuf Happ Hbm Ht)
    as (s1 & d & Hwrite & Hd1 & Hb1 & Hp1 & Ht1 & Hop1 & Hwf1 & Hdi & Hpend).
  destruct (pending_ok _ _ _ _ _ _ Hpend Hin Hsound) as (Hup & Hwr & Hex). pose proof (p_key _ _ _ _ _ _ Hpend) as Hk.
  assert (Hfl : flushed s1 (dirtied (next_loc s) m) d = flushed s m d) by (unfold flushed, flush_size; by rewrite Hb1, Hp1, Ht1).
  pose proof Hin as (Hbs & _).
  destruct (hflat_fsync_run f h s1 path key l (dirtied (next_loc s) m) (next_loc s) d fi Hop1) as (s2 & b & v & rk & Hsync & Hd2 & Hx & Hm1 & Hm2).
  { split; rewrite ?Hd1, ?Hb1, ?Hk; try done; [split; [apply Hop1|exact Hwf1]|lia|by intros r Hr; apply (Hsound r Hr)|by rewrite <- Hk]. }
  { rewrite Hfl. by apply Hwf. }
  rewrite Hd1 in *. destruct (flushed_bytes _ _ _ _ _ _ _ Hpend Hin Hsound Hm1 Hm2) as [Hbytes Hsz].
  exists s1, s2, (flushed s m d), (mk_KineticRecord b v). do 2 (split; [done|]). rewrite Hk in Hd2.
  split; [by rewrite Hd2, lookup_insert_eq|]. split; [by split|]. split; [apply flushed_access|].
  intros t g rbuf Hdt Hbt Hr Hrb. pose proof (flushed_access s m d) as (Ei & _). rewrite Hfl in Hx.
  assert (Est : stored_on (drive t) (data_key (md_inode_number (flushed s m d)) (offset / blocksize t)) = DataInfo_new (access_key s m offset) v b).
  { rewrite Ei, Hbt. unfold stored_on. fold (access_key s m offset). by rewrite Hdt, Hd2, lookup_insert_eq. }
  destruct (hflat_read_run g t path key _ rk size offset rbuf Hr) as (t' & buf' & Hread & Hsz' & Hby'); try done.
  { rewrite Hdt, Hd2, lookup_insert_ne by done. by rewrite lookup_insert_eq. }
  { rewrite Est. cbn. destruct (within_in_block _ _ _ Hin) as (_ & Ho & _). destruct Hin as (? & _ & _ & ?).
    pose proof (stored_small _ _ Hsound). lia. }
  exists t'. rewrite Hread. do 2 f_equal. apply byte_ext; [lia|]. intros i. destruct (decide (Z.of_nat i < size)).
  - rewrite Hby', Est, Hbt by done. cbn. apply (byte_at_overlaid _ _ _ size _ _ Hbytes); [|done]. by destruct (within_in_block _ _ _ Hin) as (_ & ? & _).
  - unfold byte_at. rewrite !lookup_ge_None_2; [done|unfold size_ in *; lia..].
Qed.
End WriteFacts.

(** ** Witness: [/f] is written by one client and read by another *)

#[local] Existing Instance demo_env.
#[local] Existing Instance demo_metadata_spec.

(** The file [/f] of six bytes, with its block. *)
Definition demo_six_drive : store := <[ lit "/f" := mk_KineticRecord (SerializeAsString demo_six) (lit "r1") ]> demo_files.
Definition demo_six_md : MetadataInfo := setMD demo_six (lit "r1") (MetadataInfo_new (lit "/f")).

Lemma demo_loads_six : loads (demo_mount demo_six_drive) (lit "/f") demo_six_md.
Proof. exists demo_six. split; [by vm_compute|done]. Qed.

(** A client that has looked up [/f]. *)
Definition demo_writer : hflat_priv store := loaded (demo_mount demo_six_drive) demo_six_drive (lit "/f") demo_six_md.

Lemma demo_block_missing (d : store) (s : hflat_priv store) key : data_cache s = LRU_new 0 500 → heap_di s = ∅ → block_missing (set_kinetic d s) key.
Proof.
  intros Hc Hh. split; cbn; rewrite Hc; [apply wf_new|cbn; set_solver|apply lookup_empty|done|cbn; set_solver].
Qed.

Lemma demo_writer_opened : opened 1 9 demo_writer (lit "/f") (lit "/f") 1 demo_six_md.
Proof.
  split.
  - apply loaded_ok; [apply demo_mount_ok|apply demo_missing|apply demo_loads_six].
  - exists 0. vm_compute. by repeat split.
  - exists 1. split; [exact (loaded_held _ demo_six_drive _ _ (demo_mount_ok _) demo_loads_six)|]. intros. by left.
  - reflexivity.
Qed.

Lemma demo_sound : block_sound demo_six_drive (lit "7_0").
Proof.
  intros r. assert (demo_six_drive !! lit "7_0" = Some (mk_KineticRecord (lit "ABCDEF") (lit "b1"))) as -> by (vm_compute; reflexivity).
  intros [= <-]. split; [discriminate|]. unfold block_limit. by vm_compute.
Qed.

(** Three bytes at offset 5 of [ABCDEF]. *)
Lemma flushed_write_is_read_witness :
  ∃ s1 s2 r t', hflat_write 2 (lit "/f") (lit "xyz") 3 5 0 demo_writer = Ret 3 s1 ∧
    hflat_fsync 2 (lit "/f") None s1 = Ret 0 s2 ∧ drive s2 !! lit "7_0" = Some r ∧ kr_value r = lit "ABCDExyz" ∧
    hflat_read 2 (lit "/f") (lit "???") 3 5 (demo_mount (kinetic s2)) = Ret (3, lit "xyz") t'.
Proof.
  destruct (flushed_write_is_read 0 3 demo_writer (lit "/f") (lit "/f") 1 demo_six_md (lit "xyz") 3 5 0 None)
    as (s1 & s2 & x & r & H1 & H2 & H3 & (H4 & H5) & (E1 & E2 & E3 & E4) & H6).
  - exact demo_writer_opened.
  - reflexivity.
  - split; [split; [reflexivity|discriminate]|]. split; [split; [discriminate|reflexivity]|]. split; [split; reflexivity|reflexivity].
  - reflexivity.
  - reflexivity.
  - exact (demo_block_missing demo_six_drive demo_writer (lit "7_0") eq_refl eq_refl).
  - by left.
  - eexists. split; [vm_compute; reflexivity|]. split; vm_compute; reflexivity.
  - discriminate.
  - exact demo_sound.
  - intros d Hd. unfold flushed, flush_size. rewrite (p_key _ _ _ _ _ _ Hd), (p_size _ _ _ _ _ _ Hd). vm_compute. reflexivity.
  - destruct (H6 (demo_mount (kinetic s2)) O (lit "???")) as (t' & H7).
    + reflexivity.
    + reflexivity.
    + split.
      * apply demo_mount_ok.
      * apply demo_missing.
      * exists 0. split; [reflexivity|]. rewrite E4. split; [reflexivity|discriminate].
      * rewrite E1, E2. repeat split; discriminate.
      * rewrite E3. reflexivity.
      * exact (demo_block_missing (kinetic s2) (demo_mount (kinetic s2)) _ eq_refl eq_refl).
      * by left.
      * split; [split; [reflexivity|discriminate]|]. split; [split; [discriminate|reflexivity]|]. split; [split; reflexivity|reflexivity].
    + reflexivity.
    + exists s1, s2, r, t'. split; [exact H1|]. split; [exact H2|]. split; [exact H3|]. split; [|exact H7].
      apply byte_ext; [exact H5|]. intros i. rewrite H4. change (in_block _ _) with 5.
      do 8 (destruct i as [|i]; [reflexivity|]). rewrite decide_False by lia. reflexivity.
Defined.

(** A write that makes the file grow does not read the block it starts in ("Don't
    GET if the file is growing"), although the block may hold data before the
    write: until the flush merges the two, the client itself reads NUL bytes where
    the drives have [ABCDE]. *)
Theorem growing_write_hides_block :
  ∃ s1 s2, hflat_write 2 (lit "/f") (lit "xyz") 3 5 0 demo_writer = Ret 3 s1 ∧
    hflat_read 2 (lit "/f") (lit "????????") 8 0 s1 = Ret (8, replicate 5 Ascii.zero ++ lit "xyz") s2 ∧
    drive s2 !! lit "7_0" = Some (mk_KineticRecord (lit "ABCDEF") (lit "b1")).
Proof.
  set (o1 := hflat_write 2 (lit "/f") (lit "xyz") 3 5 0 demo_writer). set (s1 := state_after o1 demo_writer).
  set (o2 := hflat_read 2 (lit "/f") (lit "????????") 8 0 s1). exists s1, (state_after o2 s1).
  split; [apply result_of_Ret; vm_compute; reflexivity|]. split; [apply result_of_Ret; vm_compute; reflexivity|].
  vm_compute. reflexivity.
Qed.
