(* ===== verification/RenameFacts.v ===== *)
(** * Renaming a regular file

    {!Rename.hflat_rename} run as a whole on a reliable namespace, with the lookups
    of both paths and their directories, the three directory entries, the inode and
    the cache entries it touches. *)
From S2P Require Import Prelude CppString Proto PathMapDB LRUCache DataInfo MetadataInfo Kinetic FsState Demo KineticHelper Util Lookup Directory File Data Link Rename Permission HelperFacts FuseFacts LookupFacts CreateFacts.

Section RenameFacts.
Context {W : Type} `{!Env} `{!KineticNamespace W} `{!KineticNamespaceSpec W} `{!KineticReliable W}.
Implicit Types (s t : hflat_priv W) (m df dt mf : MetadataInfo) (key path from to kfrom kto : cstr).

(** ** Looking up both paths *)

(** The file and both directories are in the cache, the target is missing. *)
Record files f h s from to kfrom kto (lf ldf ldt : loc) mf df dt : Prop := {
  g_from : opened f h s from kfrom lf mf;
  g_dir_from : ∃ k, opened f h s (parent_path from) k ldf df;
  g_dir_to : ∃ k, opened f h s (parent_path to) k ldt dt;
  g_missing : missing s kto;
}.

Lemma files_reordered f h s c' from to kfrom kto lf ldf ldt mf df dt : files f (S h) s from to kfrom kto lf ldf ldt mf df dt →
  reordered (md_getKey s) (lookup_cache s) c' →
  files f h (set_lookup_cache c' (tick_steady s)) from to kfrom kto lf ldf ldt mf df dt.
Proof.
  intros [Hf (kd & Hd) (kt & Ht) Hm] Hr. split; [by apply opened_reordered|exists kd; by apply opened_reordered|
    exists kt; by apply opened_reordered|]. apply reordered_missing; [done|apply Hf|done].
Qed.

(** And the caller may follow both paths. *)
Record renamable f h s from to kfrom kto (lf ldf ldt : loc) mf df dt : Prop := {
  n_prefix : is_prefix from to = false;
  n_files : files f (5 + h) s from to kfrom kto lf ldf ldt mf df dt;
  n_slash : find_last_of (lit "/:") from ≠ npos ∧ find_last_of (lit "/:") to ≠ npos;
  n_dirs : S_ISDIR (md_mode (md df)) = true ∧ S_ISDIR (md_mode (md dt)) = true;
  n_children : check_path_permissions (ctx s) (md_path_permission_children (md df)) = 0 ∧
               check_path_permissions (ctx s) (md_path_permission_children (md dt)) = 0;
  n_to : ∃ ts, toSystemPath (S f) (pmap_ s) to LOOKUP = Some (kto, ts) ∧ 0 <= ts;
  n_new : drive s !! kto = None;
  n_sticky_from : sticky_denies (ctx s) (md df) (md mf) = false;
}.

(** What the rest of the operation uses of the state after the four lookups. *)
Record looked_ok s s4 kfrom kto (lf ldf ldt lt : loc) mf df dt : Prop := {
  u_ok : cache_ok s4;
  u_drive : drive s4 = drive s;
  u_same : ctx s4 = ctx s ∧ posix s4 = posix s ∧ pmap_ s4 = pmap_ s ∧ time_used s4 = time_used s ∧ uuids_used s4 = uuids_used s ∧
           inum_base s4 = inum_base s ∧ inum_counter s4 = inum_counter s;
  u_objects : heap_md s4 !! lf = Some mf ∧ heap_md s4 !! ldf = Some df ∧ heap_md s4 !! ldt = Some dt ∧
              heap_md s4 !! lt = Some (MetadataInfo_new kto);
  u_fresh : lt ≠ lf ∧ lt ≠ ldf ∧ lt ≠ ldt;
  u_keys : systemPath mf = kfrom;
  u_cached : is_Some (lookup_ (lookup_cache s4) !! kfrom) ∧ is_Some (lookup_ (lookup_cache s4) !! kto) ∧ kfrom ≠ kto ∧
             Z.of_nat (length (cache (lookup_cache s4))) <= capacity (lookup_cache s4);
}.

(** The tests of [rename_lookup] that follow the lookups. *)
Definition rename_checks s df dt mf : Z :=
  if sticky_denies (ctx s) (md dt) default_Metadata then - EACCES
  else if negb (check_access (ctx s) (md dt) W_OK =? 0) then check_access (ctx s) (md dt) W_OK
  else check_access (ctx s) (md df) W_OK.

Lemma looked_ok_loaded f h s w from to kfrom kto lf ldf ldt mf df dt : files f (2 + h) s from to kfrom kto lf ldf ldt mf df dt →
  drive s !! kto = None → contents w = drive s →
  looked_ok s (loaded s w kto (MetadataInfo_new kto)) kfrom kto lf ldf ldt (next_loc s) mf df dt.
Proof.
  intros [Hf (kd & Hd) (kt & Ht) Hmiss] Hnew Hw. pose proof (o_ok _ _ _ _ _ _ _ Hf) as Hok.
  assert (Hload : loads s kto (MetadataInfo_new kto)) by (unfold loads; by rewrite Hnew).
  assert (Hne : ∀ l m, heap_md s !! l = Some m → next_loc s ≠ l).
  { intros l m Hm <-. by rewrite (ok_fresh _ Hok) in Hm by lia. }
  pose proof (opened_heap _ _ _ _ _ _ _ Hf) as Hf'. pose proof (opened_heap _ _ _ _ _ _ _ Hd) as Hd'.
  pose proof (opened_heap _ _ _ _ _ _ _ Ht) as Ht'.
  assert (Hkf : is_Some (lookup_ (lookup_cache s) !! kfrom)).
  { destruct Hf as [_ _ (time & (_ & _ & _ & e & He & _) & _) _]. unfold entry_of in He. destruct (lookup_ _ !! kfrom); [eauto|done]. }
  assert (Hkk : kfrom ≠ kto) by (intros ->; destruct Hmiss as (_ & Hl & _); rewrite Hl in Hkf; by destruct Hkf).
  split; [by apply loaded_ok|exact Hw|done| |naive_solver|exact (opened_key _ _ _ _ _ _ _ Hf)|].
  - cbn. rewrite !(lookup_insert_ne (heap_md s)) by (by eapply Hne). by rewrite lookup_insert_eq.
  - cbn. rewrite lookup_insert_ne, lookup_insert_eq by done. destruct Hmiss as (_ & _ & Hroom). split; [done|]. split; [done|]. split; [done|]. lia.
Qed.

Lemma rename_lookup_run f h s from to kfrom kto lf ldf ldt mf df dt : renamable f h s from to kfrom kto lf ldf ldt mf df dt →
  let lt := next_loc s in
  ∃ s4, looked_ok s s4 kfrom kto lf ldf ldt lt mf df dt ∧
    rename_lookup (S f) from to s =
      Ret (if rename_checks s df dt mf =? 0 then inr (ldf, ldt, lf, Some lt) else inl (rename_checks s df dt mf)) s4.
Proof.
  intros [Hpre Hg (Hp1 & Hp2) (Hd1 & Hd2) (Hc1 & Hc2) (ts & Hp & Hts) Hnew Hst] lt. unfold rename_lookup. rewrite Hpre.
  destruct (g_dir_from _ _ _ _ _ _ _ _ _ _ _ _ _ Hg) as (kdf & Hdf).
  destruct (opened_parent f (4 + h) s from kdf ldf df None Hdf Hp1 Hd1 Hc1) as (c1 & Hl1 & Hr1).
  apply (files_reordered f (4 + h) s c1) in Hg; [|done]. set (s1 := set_lookup_cache c1 (tick_steady s)) in *.
  destruct (g_dir_to _ _ _ _ _ _ _ _ _ _ _ _ _ Hg) as (kdt & Hdt).
  destruct (opened_parent f (3 + h) s1 to kdt ldt dt None Hdt Hp2 Hd2 Hc2) as (c2 & Hl2 & Hr2).
  apply (files_reordered f (3 + h) s1 c2) in Hg; [|done]. set (s2 := set_lookup_cache c2 (tick_steady s1)) in *.
  destruct (opened_lookup f (2 + h) s2 from kfrom lf mf None (g_from _ _ _ _ _ _ _ _ _ _ _ _ _ Hg)) as (c3 & Hl3 & Hr3 & _).
  apply (files_reordered f (2 + h) s2 c3) in Hg; [|done]. set (s3 := set_lookup_cache c3 (tick_steady s2)) in *.
  destruct (lookup_missing f to None s3 kto ts (MetadataInfo_new kto)) as (w & Hw & Hl4); [apply Hg|done|done|apply Hg| |by left|].
  { unfold loads. change (drive s3) with (drive s). by rewrite Hnew. }
  pose proof (looked_ok_loaded f h s3 w _ _ _ _ _ _ _ _ _ _ Hg Hnew Hw) as [? ? ? Ho ? ? ?].
  set (s4 := loaded s3 w kto _) in *. exists s4. split; [by split|]. destruct Ho as (Hmf & Hmdf & Hmdt & Hmt).
  change (next_loc s3) with lt in *. change (answer s3 _) with (- ENOENT) in Hl4.
  step_by Hl1. cbn [negb Z.eqb fst snd non_null]. rewrite mbind_ret_l. step_by Hl2. cbn [negb Z.eqb fst snd non_null]. rewrite mbind_ret_l.
  step_by Hl3. cbn [negb Z.eqb fst snd non_null]. rewrite mbind_ret_l. unfold fuse_get_context, gets_. rewrite mbind_lam.
  change (ctx s3) with (ctx s). step_by (getMD_run ldf s3 df (opened_heap _ _ s _ _ _ _ Hdf)).
  step_by (getMD_run lf s3 mf (opened_heap _ _ s3 _ _ _ _ (g_from _ _ _ _ _ _ _ _ _ _ _ _ _ Hg))).
  rewrite Hst. step_by Hl4. change (- ENOENT =? 0) with false. rewrite Z.eqb_refl. cbn [negb andb].
  step_by (getMD_run ldt s4 dt Hmdt). unfold rename_checks, access_to, fuse_get_context, gets_.
  assert (Hsticky : (if sticky_dir (ctx s) (md dt)
      then let! l := non_null (Some lt) in let! mt := getMD l in mret_ (sticky_denies (ctx s) (md dt) mt)
      else mret_ false) s4 = Ret (sticky_denies (ctx s) (md dt) default_Metadata) s4).
  { unfold sticky_denies, sticky_dir. destruct (_ && _ && _); [|done]. unfold non_null. rewrite mbind_ret_l. by step_by (getMD_run lt s4 _ Hmt). }
  step_by Hsticky. destruct (sticky_denies (ctx s) (md dt) default_Metadata); [done|].
  rewrite mbind_assoc, mbind_lam, mbind_assoc. step_by (getMD_run ldt s4 dt Hmdt). rewrite mbind_ret_l.
  change (ctx s4) with (ctx s). destruct (Z.eqb_spec (check_access (ctx s) (md dt) W_OK) 0) as [E|E]; cbn [negb];
    [|by rewrite (proj2 (Z.eqb_neq _ _) E)].
  rewrite mbind_assoc, mbind_lam, mbind_assoc. step_by (getMD_run ldf s4 df Hmdf). rewrite mbind_ret_l.
  change (ctx s4) with (ctx s). by destruct (_ =? 0).
Qed.

(** ** The writes *)

(** The inode with the time of the move. *)
Definition moved_md s m : Metadata := updateACtime (env_time (time_used s)) (md m).

Lemma touch_AC_run s l m : heap_md s !! l = Some m →
  touch_AC l s = Ret tt (with_md (set_inputs (uuids_used s) (steady_used s) (S (time_used s)) s) l (on_md (λ _, moved_md s m) m)).
Proof.
  intros Hm. rewrite <- (with_md_self s l m Hm) at 1. unfold touch_AC, time_now. rewrite mbind_lam.
  set (s1 := set_inputs _ _ _ (with_md s l m)). rewrite (change_md_run l s1 m _ (lookup_insert_eq _ _ _)).
  unfold with_md, s1. cbn. by rewrite insert_insert_eq.
Qed.

Lemma store_at_target_run s lf lt mf mt : heap_md s !! lf = Some mf → heap_md s !! lt = Some mt → drive s !! systemPath mt = None →
  ∃ w, store_at_target lt lf s = Ret 0 (set_kinetic w s) ∧
    contents w = <[systemPath mt := mk_KineticRecord (SerializeAsString (md mf)) (keyVersion mt)]> (drive s).
Proof.
  intros Hf Ht Hnew. destruct (k_Put_ok (systemPath mt) [] REQUIRE_SAME_VERSION
    (mk_KineticRecord (SerializeAsString (md mf)) (keyVersion mt)) s) as (w & Hput & Hw); [cbn; by rewrite Hnew|].
  exists w. split; [|done]. unfold store_at_target. step_by (deref_md_run lf s mf Hf). step_by (deref_md_run lt s mt Ht). by step_by Hput.
Qed.

Lemma delete_source_run s lf mf : heap_md s !! lf = Some mf → is_Some (drive s !! systemPath mf) →
  ∃ w, delete_source lf s = Ret 0 (set_kinetic w s) ∧ contents w = delete (systemPath mf) (drive s).
Proof.
  intros Hf Hold. destruct (k_Delete_ok (systemPath mf) [] IGNORE_VERSION s Hold I) as (w & Hdel & Hw). exists w. split; [|done].
  unfold delete_source. step_by (deref_md_run lf s mf Hf). by step_by Hdel.
Qed.

(** ** The whole operation *)

Definition entry_from from df : cstr := direntry_key (md_inode_number (md df)) (path_to_filename from).
Definition entry_to to dt : cstr := direntry_key (md_inode_number (md dt)) (path_to_filename to).
Definition entry_recovery from to dt : cstr := direntry_key (md_inode_number (md dt)) (recovery_direntry from to).

(** A regular file, whose inode and directory entry are on the drives; the five
    keys involved differ. *)
Record regular_file s from to kfrom kto mf df dt : Prop := {
  v_posix : posix s = TIMERELAXED;
  v_mode : S_ISDIR (md_mode (md mf)) = false ∧ S_ISLNK (md_mode (md mf)) = false ∧ md_type (md mf) = POSIX;
  v_keys : NoDup [kfrom; kto; entry_from from df; entry_to to dt; entry_recovery from to dt];
  v_stored : is_Some (drive s !! kfrom) ∧ drive s !! entry_from from df = Some direntry_record;
  v_free : drive s !! entry_to to dt = None ∧ drive s !! entry_recovery from to dt = None;
}.

(** The drives after the move. *)
Definition renamed_drive (σ : store) from to kfrom kto df dt (r : KineticRecord) : store :=
  <[kto := r]> (<[entry_to to dt := direntry_record]> (delete kfrom (delete (entry_from from df) σ))).

(** The recovery entry leaves no trace. *)
Lemma renamed_drive_steps (σ : store) (kf kt ef et rc : cstr) (r : KineticRecord) : NoDup [kf; kt; ef; et; rc] → σ !! rc = None →
  delete rc (delete kf (<[kt := r]> (delete ef (<[rc := direntry_record]> (<[et := direntry_record]> σ))))) =
  <[kt := r]> (<[et := direntry_record]> (delete kf (delete ef σ))).
Proof.
  rewrite !NoDup_cons, !not_elem_of_cons. intros ((? & ? & ? & ? & _) & (? & ? & ? & _) & (? & ? & _) & (? & _) & _) Hrc.
  apply map_eq. intros k. rewrite !lookup_delete, !lookup_insert, !lookup_delete, !lookup_insert. repeat case_decide; congruence.
Qed.

(** The six steps that write, from state to state. *)
Record rename_writes fuel (lf ldf ldt lt : loc) from to s4 s5 s6 s7 sa s8 s9 : Prop := {
  x_to : create_directory_entry fuel ldt (path_to_filename to) s4 = Ret 0 s5;
  x_recovery : create_directory_entry fuel ldt (recovery_direntry from to) s5 = Ret 0 s6;
  x_from : delete_directory_entry fuel ldf (path_to_filename from) s6 = Ret 0 s7;
  x_store : (touch_AC lf ;;; store_at_target lt lf) s7 = Ret 0 sa;
  x_source : delete_source lf sa = Ret 0 s8;
  x_done : delete_directory_entry fuel ldt (recovery_direntry from to) s8 = Ret 0 s9;
}.

Lemma rename_regular_split s7 sa s8 lt lf : (touch_AC lf ;;; store_at_target lt lf) s7 = Ret 0 sa → delete_source lf sa = Ret 0 s8 →
  rename_regular lt lf s7 = Ret 0 s8.
Proof.
  intros Hs Hd. unfold rename_regular, on_ok. rewrite <- mbind_assoc. by step_by Hs.
Qed.

(** The drives while the recovery entry exists: after it is written, after the old
    entry is deleted, after the inode is stored at the target, and after it is
    deleted at the source. *)
Definition rename_window (σ : store) from to kfrom kto df dt (r : KineticRecord) : list store :=
  let σ1 := <[entry_recovery from to dt := direntry_record]> (<[entry_to to dt := direntry_record]> σ) in
  let σ2 := delete (entry_from from df) σ1 in
  let σ3 := <[kto := r]> σ2 in
  [σ1; σ2; σ3; delete kfrom σ3].

(** The three directory entries, which every kind of rename starts with. *)
Record rename_entries fuel (ldf ldt : loc) from to s4 s5 s6 s7 : Prop := {
  e_to : create_directory_entry fuel ldt (path_to_filename to) s4 = Ret 0 s5;
  e_recovery : create_directory_entry fuel ldt (recovery_direntry from to) s5 = Ret 0 s6;
  e_from : delete_directory_entry fuel ldf (path_to_filename from) s6 = Ret 0 s7;
}.

Definition entries_drive (σ : store) from to df dt : store :=
  delete (entry_from from df) (<[entry_recovery from to dt := direntry_record]> (<[entry_to to dt := direntry_record]> σ)).

Lemma rename_entries_run fuel s4 (ldf ldt : loc) from to df dt :
  heap_md s4 !! ldf = Some df → heap_md s4 !! ldt = Some dt → posix s4 = TIMERELAXED →
  NoDup [entry_from from df; entry_to to dt; entry_recovery from to dt] →
  drive s4 !! entry_from from df = Some direntry_record →
  drive s4 !! entry_to to dt = None → drive s4 !! entry_recovery from to dt = None →
  ∃ w5 w6 w7, rename_entries fuel ldf ldt from to s4 (set_kinetic w5 s4) (set_kinetic w6 s4) (set_kinetic w7 s4) ∧
    contents w6 = <[entry_recovery from to dt := direntry_record]> (<[entry_to to dt := direntry_record]> (drive s4)) ∧
    contents w7 = entries_drive (drive s4) from to df dt.
Proof.
  intros Hdf Hdt Hp Hnd Hef Het Hrc. rewrite !NoDup_cons, !not_elem_of_cons in Hnd. destruct Hnd as ((Hn1 & Hn2 & _) & (Hn3 & _) & _).
  destruct (create_directory_entry_ok fuel s4 ldt dt (path_to_filename to) Hdt Hp Het) as (w5 & H5 & Hw5). set (s5 := set_kinetic w5 s4) in *.
  destruct (create_directory_entry_ok fuel s5 ldt dt (recovery_direntry from to) Hdt Hp) as (w6 & H6 & Hw6).
  { change (drive s5) with (contents w5). rewrite Hw5, lookup_insert_ne by done. exact Hrc. }
  set (s6 := set_kinetic w6 s5) in *. change (drive s5) with (contents w5) in Hw6. rewrite Hw5 in Hw6.
  destruct (delete_directory_entry_ok fuel s6 ldf df (path_to_filename from) Hdf Hp) as (w7 & H7 & Hw7).
  { change (drive s6) with (contents w6). rewrite Hw6, !lookup_insert_ne by done. exact Hef. }
  change (drive s6) with (contents w6) in Hw7. rewrite Hw6 in Hw7. by exists w5, w6, w7.
Qed.

(** From the lookups to the two cache entries. *)
Lemma rename_writes_run fuel s4 lf ldf ldt lt from to kfrom kto mf df dt : cache_ok s4 →
  heap_md s4 !! lf = Some mf → heap_md s4 !! ldf = Some df → heap_md s4 !! ldt = Some dt →
  heap_md s4 !! lt = Some (MetadataInfo_new kto) → lt ≠ lf → lf ≠ ldt → systemPath mf = kfrom →
  drive s4 !! kto = None → regular_file s4 from to kfrom kto mf df dt →
  let r := mk_KineticRecord (SerializeAsString (moved_md s4 mf)) (lit "0") in
  ∃ s5 s6 s7 sa s8 s9, rename_writes fuel lf ldf ldt lt from to s4 s5 s6 s7 sa s8 s9 ∧ heap_md s7 = heap_md s4 ∧
    [drive s6; drive s7; drive sa; drive s8] = rename_window (drive s4) from to kfrom kto df dt r ∧
    cache_ok s9 ∧ lookup_cache s9 = lookup_cache s4 ∧
    heap_md s9 = <[lf := on_md (λ _, moved_md s4 mf) mf]> (heap_md s4) ∧ ctx s9 = ctx s4 ∧ pmap_ s9 = pmap_ s4 ∧
    drive s9 = renamed_drive (drive s4) from to kfrom kto df dt r.
Proof.
  intros Hok Hmf Hdf Hdt Hmt Hne Hld Hk Hnew [Hp _ Hnd (Hsf & Hef) (Het & Hrc)] r.
  pose proof Hnd as (_ & (_ & Hnd3)%NoDup_cons)%NoDup_cons. pose proof Hnd as Hnd'. rewrite !NoDup_cons, !not_elem_of_cons in Hnd'.
  destruct Hnd' as ((Hn1 & Hn2 & Hn3 & Hn4 & _) & (Hn5 & Hn6 & Hn7 & _) & (Hn8 & Hn9 & _) & (Hn10 & _) & _).
  destruct (rename_entries_run fuel s4 ldf ldt from to df dt Hdf Hdt Hp Hnd3 Hef Het Hrc) as (w5 & w6 & w7 & [H5 H6 H7] & Hw6 & Hw7).
  set (s5 := set_kinetic w5 s4) in *. set (s6 := set_kinetic w6 s4) in *. set (s7 := set_kinetic w7 s4) in *. unfold entries_drive in Hw7.
  pose proof (touch_AC_run s7 lf mf Hmf) as Ht. set (st := with_md _ lf _) in Ht. change (moved_md s7 mf) with (moved_md s4 mf) in *.
  assert (Hft : heap_md st !! lf = Some (on_md (λ _, moved_md s4 mf) mf)) by apply lookup_insert_eq.
  destruct (store_at_target_run st lf lt _ (MetadataInfo_new kto) Hft) as (wa & Ha & Hwa); [cbn; by rewrite lookup_insert_ne| |].
  { change (contents w7 !! kto = None). rewrite Hw7, lookup_delete_ne, !lookup_insert_ne by done. exact Hnew. }
  set (sa := set_kinetic wa st) in *. change (drive st) with (contents w7) in Hwa. rewrite Hw7 in Hwa.
  destruct (delete_source_run sa lf _ Hft) as (w8 & H8 & Hw8).
  { cbn [systemPath on_md]. rewrite Hk. change (drive sa) with (contents wa). rewrite Hwa. cbn [systemPath MetadataInfo_new].
    rewrite lookup_insert_ne, lookup_delete_ne, !lookup_insert_ne by done. exact Hsf. }
  cbn [systemPath on_md] in Hw8. rewrite Hk in Hw8. set (s8 := set_kinetic w8 sa) in *. change (drive sa) with (contents wa) in Hw8. rewrite Hwa in Hw8.
  destruct (delete_directory_entry_ok fuel s8 ldt dt (recovery_direntry from to)) as (w9 & H9 & Hw9); [cbn; by rewrite lookup_insert_ne|exact Hp| |].
  { change (drive s8) with (contents w8). rewrite Hw8, lookup_delete_ne, lookup_insert_ne, lookup_delete_ne by done. apply lookup_insert_eq. }
  exists s5, s6, s7, sa, s8, (set_kinetic w9 s8). split; [split; try done; by step_by Ht|]. split; [done|].
  split; [|split; [|do 4 (split; [done|])]].
  - change (drive s6) with (contents w6). change (drive s7) with (contents w7). change (drive sa) with (contents wa).
    change (drive s8) with (contents w8). by rewrite Hw6, Hw7, Hwa, Hw8.
  - apply (cache_ok_frame s4 _ lf mf (on_md (λ _, moved_md s4 mf) mf) Hok Hmf); done.
  - change (drive (set_kinetic w9 s8)) with (contents w9). rewrite Hw9. change (drive s8) with (contents w8). rewrite Hw8.
    exact (renamed_drive_steps (drive s4) kfrom kto (entry_from from df) (entry_to to dt) (entry_recovery from to dt) _ Hnd Hrc).
Qed.

(** Dropping two keys of a cache that is full at worst. *)
Lemma both_dropped s (k1 k2 : cstr) c c1 c2 : dropped k2 c c1 → dropped k1 c1 c2 → is_Some (lookup_ c !! k2) → k1 ≠ k2 →
  Z.of_nat (length (cache c)) <= capacity c → lookup_cache s = c2 → missing s k1 ∧ missing s k2.
Proof.
  intros [(_ & Hn2) _ Hb2 _ Hf2 (Hcap2 & _)] [(Hg1 & Hn1) Ho1 Hb1 Hs1 _ (Hcap1 & _)] Hin Hne Hlen <-. specialize (Hf2 Hin).
  pose proof (sublist_length _ _ Hs1). unfold missing. rewrite Hb1, Hb2, Hn1, Ho1, Hn2, Hcap1, Hcap2 by done. set_solver by lia.
Qed.

(** Up to the removal of the old entry, when nothing is at the target. *)
Lemma hflat_rename_head f s s4 s5 s6 s7 (lf ldf ldt lt : loc) from to df dt kto :
  rename_lookup (S f) from to s = Ret (inr (ldf, ldt, lf, Some lt)) s4 → heap_md s4 !! lt = Some (MetadataInfo_new kto) →
  rename_entries (S f) ldf ldt from to s4 s5 s6 s7 →
  hflat_rename (S f) from to s =
    (rename_apply (S f) from to lt lf ldt ldf ;;; rename_finish (S f) (recovery_direntry from to) ldt lt lf) s7.
Proof.
  intros Hlook Hmt [H5 H6 H7]. unfold hflat_rename. step_by Hlook. cbn [Z.eqb non_null]. rewrite mbind_ret_l.
  assert (Hrm : rename_remove_target (S f) to lt s4 = Ret (0, Some lt) s4).
  { unfold rename_remove_target. by step_by (getMD_run lt s4 _ Hmt). }
  unfold on_found. step_by Hrm. cbn [negb Z.eqb fst snd]. unfold non_null. rewrite mbind_ret_l. unfold on_ok. step_by H5. cbn [negb Z.eqb].
  rewrite (required_run _ _ _ _ H6). step_by H7. done.
Qed.

(** The two cache entries are dropped in the end. *)
Lemma rename_finish_run fuel s8 s9 recovery (ldt lt lf : loc) mt mf' : cache_ok s9 →
  delete_directory_entry fuel ldt recovery s8 = Ret 0 s9 → heap_md s9 !! lt = Some mt → heap_md s9 !! lf = Some mf' →
  is_Some (lookup_ (lookup_cache s9) !! systemPath mt) → systemPath mf' ≠ systemPath mt →
  Z.of_nat (length (cache (lookup_cache s9))) <= capacity (lookup_cache s9) →
  ∃ c', let s' := set_lookup_cache c' s9 in rename_finish fuel recovery ldt lt lf s8 = Ret 0 s' ∧
    cache_ok s' ∧ missing s' (systemPath mf') ∧ missing s' (systemPath mt).
Proof.
  intros Hok H9 Hmt Hmf Hin Hne Hlen.
  destruct (lc_invalidate_ok (systemPath mt) s9 Hok) as (c10 & H10 & Hd10 & Hok10). set (s10 := set_lookup_cache c10 s9) in *.
  destruct (lc_invalidate_ok (systemPath mf') s10 Hok10) as (c11 & H11 & Hd11 & Hok11). exists c11.
  split; [|split; [exact Hok11|by apply (both_dropped (set_lookup_cache c11 s9) _ _ (lookup_cache s9) c10 c11)]].
  unfold rename_finish. rewrite (required_run _ _ _ _ H9). step_by (deref_md_run lt s9 _ Hmt). step_by H10.
  step_by (deref_md_run lf s10 _ Hmf). by step_by H11.
Qed.

Lemma hflat_rename_run f h s from to kfrom kto lf ldf ldt mf df dt :
  renamable f h s from to kfrom kto lf ldf ldt mf df dt →
  rename_checks s df dt mf = 0 → regular_file s from to kfrom kto mf df dt →
  let r := mk_KineticRecord (SerializeAsString (moved_md s mf)) (lit "0") in
  ∃ s4 s5 s6 s7 sa s8 s9 s', rename_lookup (S f) from to s = Ret (inr (ldf, ldt, lf, Some (next_loc s))) s4 ∧
    rename_writes (S f) lf ldf ldt (next_loc s) from to s4 s5 s6 s7 sa s8 s9 ∧
    [drive s6; drive s7; drive sa; drive s8] = rename_window (drive s) from to kfrom kto df dt r ∧
    hflat_rename (S f) from to s = Ret 0 s' ∧ drive s' = renamed_drive (drive s) from to kfrom kto df dt r ∧
    ctx s' = ctx s ∧ pmap_ s' = pmap_ s ∧ cache_ok s' ∧ missing s' kfrom ∧ missing s' kto.
Proof.
  intros Hr Hchk Hv r. destruct (rename_lookup_run f h s from to _ _ _ _ _ _ _ _ Hr) as (s4 & Hu & Hlook).
  rewrite Hchk in Hlook. destruct Hu as [Hok4 Hd4 (Hx4 & Hp4 & Hpm4 & Ht4 & _) (Hmf & Hdf & Hdt & Hmt) (Hne & _) Hk (Hck & Hct & Hkk & Hlen)].
  set (lt := next_loc s) in *.
  assert (Hld : lf ≠ ldt).
  { intros ->. rewrite Hmf in Hdt. injection Hdt as ->. destruct (v_mode _ _ _ _ _ _ _ _ Hv) as (Hv1 & _).
    rewrite (proj2 (n_dirs _ _ _ _ _ _ _ _ _ _ _ _ _ Hr)) in Hv1. discriminate. }
  destruct (rename_writes_run (S f) s4 lf ldf ldt lt from to kfrom kto mf df dt Hok4 Hmf Hdf Hdt Hmt Hne Hld Hk)
    as (s5 & s6 & s7 & sa & s8 & s9 & Hwr & Hh7 & Hwin & Hok9 & Hc9 & Hh9 & Hx9 & Hpm9 & Hd9).
  { rewrite Hd4. apply Hr. } { destruct Hv; split; rewrite ?Hd4, ?Hp4; done. }
  assert (Hmt9 : heap_md s9 !! lt = Some (MetadataInfo_new kto)) by (by rewrite Hh9, lookup_insert_ne).
  assert (Hmf9 : heap_md s9 !! lf = Some (on_md (λ _, moved_md s4 mf) mf)) by (by rewrite Hh9, lookup_insert_eq).
  destruct (rename_finish_run (S f) s8 s9 (recovery_direntry from to) ldt lt lf _ _ Hok9 (x_done _ _ _ _ _ _ _ _ _ _ _ _ _ _ Hwr) Hmt9 Hmf9)
    as (c11 & Hfin & Hok' & Hmiss); [by rewrite Hc9|cbn; by rewrite Hk|by rewrite Hc9|].
  cbn [systemPath on_md] in Hmiss. rewrite Hk in Hmiss. exists s4, s5, s6, s7, sa, s8, s9, (set_lookup_cache c11 s9).
  assert (Hm7 : heap_md s7 !! lf = Some mf) by (by rewrite Hh7). destruct (v_mode _ _ _ _ _ _ _ _ Hv) as (Hv1 & Hv2 & Hv3).
  assert (Hmv : moved_md s4 mf = moved_md s mf) by (unfold moved_md; by rewrite Ht4). rewrite Hmv, Hd4 in Hd9, Hwin.
  split; [exact Hlook|]. split; [exact Hwr|]. split; [exact Hwin|]. destruct Hwr as [H5 H6 H7 Ha Hs H9].
  pose proof (rename_regular_split _ _ _ _ _ Ha Hs) as H8.
  split; [|split; [exact Hd9|split; [etransitivity; [exact Hx9|done]|split; [etransitivity; [exact Hpm9|done]|done]]]].
  rewrite (hflat_rename_head f s s4 s5 s6 s7 lf ldf ldt lt from to df dt kto Hlook Hmt) by by split.
  assert (Happ : rename_apply (S f) from to lt lf ldt ldf s7 = Ret tt s8); [|by step_by Happ].
  unfold rename_apply. step_by (getMD_run lf s7 mf Hm7).
  rewrite Hv1, Hv2, Hv3, bool_decide_false by done. cbn [negb andb]. rewrite !mbind_ret_l. unfold required. by step_by H8.
Qed.

(** C14: renaming a regular file. When both directories may be written and nothing is
    stored at the target, [hflat_rename] returns 0 and the drives afterwards differ
    in four keys: the inode is under the target's key and no longer under the
    source's, and its directory entry likewise; the recovery entry is gone. Every
    client that has cached neither path, and the renaming client is one, then finds
    the inode under the new path, with its time of change set and everything else
    as it was, and nothing under the old one. *)
Theorem renamed_file_moves `{!MessageSpec Metadata} f h s from to kfrom kto lf ldf ldt mf df dt :
  renamable f h s from to kfrom kto lf ldf ldt mf df dt → rename_checks s df dt mf = 0 →
  regular_file s from to kfrom kto mf df dt → msg_wf (moved_md s mf) →
  ∃ s', hflat_rename (S f) from to s = Ret 0 s' ∧
    drive s' = renamed_drive (drive s) from to kfrom kto df dt (mk_KineticRecord (SerializeAsString (moved_md s mf)) (lit "0")) ∧
    cache_ok s' ∧ missing s' kfrom ∧ missing s' kto ∧
    ∀ t, drive t = drive s' → cache_ok t →
      (∀ ts, missing t kto → toSystemPath (S f) (pmap_ t) to LOOKUP = Some (kto, ts) →
         0 <= ts <= md_path_permission_verified (md mf) →
         ∃ l t' m, lookup (S f) to None t = Ret (check_path_permissions (ctx t) (md_path_permission (md mf)), Some l) t' ∧
           heap_md t' !! l = Some m ∧ md m = moved_md s mf) ∧
      (∀ ts, missing t kfrom → toSystemPath (S f) (pmap_ t) from LOOKUP = Some (kfrom, ts) → 0 <= ts →
         ∃ l t', lookup (S f) from None t = Ret (- ENOENT, Some l) t').
Proof.
  intros Hr Hchk Hv Hwf. destruct (hflat_rename_run f h s from to _ _ _ _ _ _ _ _ Hr Hchk Hv) as (s4 & s5 & s6 & s7 & sa & s8 & s9 & s' & _ & _ & _ & Hrun & Hd & _ & _ & Hok & Hmf & Hmt).
  exists s'. do 5 (split; [done|]). intros t Hdt Hokt. rewrite <- Hdt in Hd.
  assert (Hino : md_inode_number (md mf) ≠ 0).
  { pose proof (o_answer _ _ _ _ _ _ _ (g_from _ _ _ _ _ _ _ _ _ _ _ _ _ (n_files _ _ _ _ _ _ _ _ _ _ _ _ _ Hr))) as Ha.
    unfold answer in Ha. by destruct (Z.eqb_spec (md_inode_number (md mf)) 0). }
  destruct (v_mode _ _ _ _ _ _ _ _ Hv) as (_ & _ & Hty). pose proof (v_keys _ _ _ _ _ _ _ _ Hv) as Hnd.
  rewrite !NoDup_cons, !not_elem_of_cons in Hnd. destruct Hnd as ((Hn1 & Hn2 & Hn3 & _) & _). split; intros ts Hmiss Hp Hts.
  - set (m := setMD (moved_md s mf) (lit "0") (MetadataInfo_new kto)).
    destruct (lookup_missing f to None t kto ts m Hokt Hp ltac:(lia) Hmiss) as (w & _ & Hl).
    + unfold loads. rewrite Hd. unfold renamed_drive. rewrite lookup_insert_eq. exists (moved_md s mf). split; [by apply parse_serialize|done].
    + right. cbn. rewrite Hty. by split; [|split; [|lia]].
    + exists (next_loc t), (loaded t w kto m), m. split; [|split; [apply lookup_insert_eq|done]].
      unfold answer in Hl. cbn in Hl. by rewrite (proj2 (Z.eqb_neq _ _) Hino) in Hl.
  - destruct (lookup_missing f from None t kfrom ts (MetadataInfo_new kfrom) Hokt Hp Hts Hmiss) as (w & _ & Hl); [|by left|].
    + unfold loads. rewrite Hd. unfold renamed_drive. by rewrite !lookup_insert_ne, lookup_delete_eq by done.
    + by exists (next_loc t), (loaded t w kfrom (MetadataInfo_new kfrom)).
Qed.

(** In a directory with the sticky bit nobody but its owner and root can rename
    anything to a new name: the owner of the target that does not exist is taken
    from an empty object, where it is root. *)
Theorem rename_into_sticky_refused f h s from to kfrom kto lf ldf ldt mf df dt :
  renamable f h s from to kfrom kto lf ldf ldt mf df dt →
  has_bit (md_mode (md dt)) S_ISVTX = true → fc_uid (ctx s) ≠ 0 → fc_uid (ctx s) ≠ md_uid (md dt) →
  ∃ s', hflat_rename (S f) from to s = Ret (- EACCES) s' ∧ drive s' = drive s.
Proof.
  intros Hr Hvtx Hu Hd. destruct (rename_lookup_run f h s from to _ _ _ _ _ _ _ _ Hr) as (s4 & [_ Hd4 _ _ _ _ _] & Hlook).
  exists s4. split; [|done]. unfold hflat_rename. step_by Hlook. unfold rename_checks, sticky_denies.
  change (md_uid default_Metadata) with 0. by rewrite Hvtx, (proj2 (Z.eqb_neq _ _) Hu), (proj2 (Z.eqb_neq _ _) Hd).
Qed.
End RenameFacts.

(** ** Witness: [/f] is renamed to [/g] in the root *)

#[local] Existing Instance demo_env.
#[local] Existing Instance demo_metadata_spec.

(** The root with the file [/f], its entry included. *)
Definition demo_entry (name : cstr) : cstr := direntry_key 1 name.
Definition demo_tree : store := <[ demo_entry (lit "f") := direntry_record ]> demo_files.

Definition demo_file_md : MetadataInfo := setMD demo_file (lit "r1") (MetadataInfo_new (lit "/f")).

Definition demo_renamer : hflat_priv store := demo_two demo_tree demo_file_md.

Lemma demo_tree_root : loads (demo_mount demo_tree) (lit "/") demo_root_md.
Proof. exists demo_root. split; [by vm_compute|done]. Qed.

Lemma demo_tree_file : loads (demo_mount demo_tree) (lit "/f") demo_file_md.
Proof. exists demo_file. split; [by vm_compute|done]. Qed.

Lemma demo_renamable : renamable 0 4 demo_renamer (lit "/f") (lit "/g") (lit "/f") (lit "/g") 2 1 1 demo_file_md demo_root_md demo_root_md.
Proof.
  split; [reflexivity| |split; discriminate|split; reflexivity|split; reflexivity| |vm_compute; reflexivity|reflexivity].
  - pose proof (demo_two_root demo_tree demo_file_md demo_tree_root demo_tree_file) as Hroot. split; [|exists (lit "/"); apply Hroot|exists (lit "/"); apply Hroot|].
    + apply demo_two_file; [apply demo_tree_root|apply demo_tree_file|done].
    + apply demo_two_missing; discriminate.
  - exists 0. split; [vm_compute; reflexivity|done].
Qed.

Lemma demo_regular : regular_file demo_renamer (lit "/f") (lit "/g") (lit "/f") (lit "/g") demo_file_md demo_root_md demo_root_md.
Proof.
  split; [reflexivity|repeat split; reflexivity| | |split; vm_compute; reflexivity].
  - apply (bool_decide_unpack _). vm_compute. exact I.
  - split; [exists (mk_KineticRecord (SerializeAsString demo_file) (lit "r1"))|]; vm_compute; reflexivity.
Qed.

Lemma renamed_file_moves_witness :
  ∃ s' l t' m, hflat_rename 1 (lit "/f") (lit "/g") demo_renamer = Ret 0 s' ∧
    drive s' !! lit "/f" = None ∧ drive s' !! demo_entry (lit "f") = None ∧ drive s' !! demo_entry (lit "g") = Some direntry_record ∧
    lookup 1 (lit "/g") None (demo_mount (kinetic s')) = Ret (0, Some l) t' ∧ heap_md t' !! l = Some m ∧ md_inode_number (md m) = 7.
Proof.
  destruct (renamed_file_moves 0 4 demo_renamer (lit "/f") (lit "/g") (lit "/f") (lit "/g") 2 1 1 demo_file_md demo_root_md demo_root_md)
    as (s' & H1 & H2 & _ & _ & _ & H3).
  - exact demo_renamable.
  - reflexivity.
  - exact demo_regular.
  - vm_compute. reflexivity.
  - destruct (H3 (demo_mount (kinetic s')) eq_refl (demo_mount_ok _)) as (H4 & _).
    destruct (H4 0 (demo_missing _ _)) as (l & t' & m & H5 & H6 & H7).
    + reflexivity.
    + split; [reflexivity|discriminate].
    + exists s', l, t', m. split; [exact H1|]. rewrite H2. split; [vm_compute; reflexivity|]. split; [vm_compute; reflexivity|].
      split; [vm_compute; reflexivity|]. split; [exact H5|]. split; [exact H6|]. rewrite H7. reflexivity.
Defined.

(** ** What the new inode does not take over *)

(** A client of user [uid] with a fresh range of inode numbers. *)
Definition demo_user (uid : Z) (d : store) : hflat_priv store :=
  let s := set_inum 100 0 (demo_mount d) in
  mk_hflat_priv (kinetic s) (lookup_cache s) (data_cache s) (pmap_ s) (blocksize s) (posix s) (inum_base s) (inum_counter s)
    (heap_md s) (heap_di s) (next_loc s) (uuids_used s) (steady_used s) (time_used s) (mk_fuse_context uid uid).

(** Root makes a private directory [/d], creates [/d/h] and moves [/f] into it. *)
Definition demo_private_run : outcome (hflat_priv store) (Z * Z * Z) :=
  (let! mkdir := hflat_mkdir 5 (lit "/d") 448 in
   let! create := hflat_create 5 (lit "/d/h") (Z.lor S_IFREG 420) in
   let! rename := hflat_rename 5 (lit "/f") (lit "/d/f") in
   mret_ (mkdir, create, rename)) (demo_user 0 demo_tree).

(** A renamed file keeps the path permissions of the directory it was created in:
    a file moved into a private directory stays accessible to everybody, while one
    created there is not. *)
Theorem renamed_file_keeps_path_permissions :
  result_of demo_private_run = Some (0, 0, 0) ∧
  let t := demo_user 1000 (drive (state_after demo_private_run (demo_user 0 demo_tree))) in
  fst <$> result_of (lookup 5 (lit "/d/h") None t) = Some (- EACCES) ∧
  fst <$> result_of (lookup 5 (lit "/d/f") None t) = Some 0.
Proof. vm_compute. repeat split. Qed.

Definition after_run {A} (m : M (hflat_priv store) A) (s : hflat_priv store) : hflat_priv store := state_after (m s) s.

(** Client A creates [/h] and renames [/f] to [/x]; client B looks [/x] up; client A
    renames [/x] to [/y] and [/h] to [/x]. *)
Definition demo_first_rename : hflat_priv store :=
  after_run (hflat_create 5 (lit "/h") (Z.lor S_IFREG 420) ;;; hflat_rename 5 (lit "/f") (lit "/x")) (demo_user 0 demo_tree).
Definition demo_other_client : hflat_priv store :=
  after_run (lookup 5 (lit "/x") None) (demo_user 0 (drive demo_first_rename)).
Definition demo_later_renames : hflat_priv store :=
  after_run (hflat_rename 5 (lit "/x") (lit "/y") ;;; hflat_rename 5 (lit "/h") (lit "/x")) demo_first_rename.

Definition stored_inode (σ : store) (key : cstr) : option Z :=
  r ← σ !! key; x ← @ParseFromString _ (@env_metadata demo_env) (kr_value r); Some (md_inode_number x).

(** Every inode is stored by a rename with the same version, that of a new object.
    The versions of [/x] that client B has read and that are now on the drives
    agree although they are two files; changing the times of [/x], B overwrites
    the inode of the second file by that of the first. *)
Theorem rename_reuses_version :
  let b := set_kinetic (drive demo_later_renames) demo_other_client in
  let o := hflat_utimens 5 (lit "/x") 9 9 b in
  stored_inode (drive b) (lit "/x") = Some 101 ∧ result_of o = Some 0 ∧
  stored_inode (drive (state_after o b)) (lit "/x") = Some 7 ∧ stored_inode (drive (state_after o b)) (lit "/y") = Some 7.
Proof. vm_compute. repeat split. Qed.
