(* ===== verification/MoveFacts.v ===== *)
(** * Moving a directory

    {!Rename.hflat_rename} of a directory run as a whole on a reliable namespace:
    the entry in the database log, the FORCE_UPDATE inode at the target, and how
    the other clients find the directory and everything below it under the new
    name, whatever part of the log they have seen. *)
From S2P Require Import Prelude CppString Proto PathMapDB PathMapFacts PathMapLog LRUCache DataInfo MetadataInfo Kinetic FsState Demo KineticHelper Util Lookup Directory File Data Link Rename Permission HelperFacts DatabaseFacts FuseFacts LookupFacts CreateFacts RenameFacts.

(** ** Keys of entries, of inodes and of the log *)

Lemma direntry_key_head n name a k : is_digit a = false → a ≠ "-"%char → direntry_key n name ≠ a :: k.
Proof.
  intros Ha Hm. unfold direntry_key. destruct (to_string n) as [|b t] eqn:E; [by apply to_string_not_nil in E|].
  intros [= -> _]. by eapply to_string_not_letters in E.
Qed.

Lemma direntry_log_key n name : log_key (direntry_key n name) = false.
Proof.
  apply not_true_is_false. intros (k & Hk)%is_prefix_spec. by eapply (direntry_key_head n name "p"%char) in Hk.
Qed.

Lemma absolute_log_key p : absolute p → log_key p = false.
Proof. intros [r ->]. done. Qed.

Lemma absolute_direntry p n name : absolute p → p ≠ direntry_key n name.
Proof. intros [r ->] Heq. symmetry in Heq. by eapply direntry_key_head in Heq. Qed.

Lemma absolute_app p x : absolute p → absolute (p ++ x).
Proof. intros [r ->]. by exists (r ++ x). Qed.

Lemma app_ne_self (p x : cstr) : x ≠ [] → p ++ x ≠ p.
Proof. intros Hx Heq. apply Hx. apply (app_inv_head p). by rewrite app_nil_r. Qed.

Section MoveFacts.
Context {W : Type} `{!Env} `{!KineticNamespace W} `{!KineticNamespaceSpec W} `{!KineticReliable W} `{!MessageSpec db_entry}.
Implicit Types (s t : hflat_priv W) (m df dt mf : MetadataInfo) (key path from to : cstr) (log : list db_entry) (db : PathMapDB).

(** ** Looking up a FORCE_UPDATE inode *)

(** The cache can take two more objects. *)
Definition room s : Prop := Z.of_nat (length (cache (lookup_cache s))) + 1 < capacity (lookup_cache s).

(** A lookup that meets a FORCE_UPDATE inode first brings the path map up to date,
    and then starts again. *)
Lemma lookup_forced f path p s key ts m log db :
  cache_ok s → toSystemPath (S f) (pmap_ s) path LOOKUP = Some (key, ts) → 0 <= ts → missing s key →
  loads s key m → is_Some (drive s !! key) → md_type (md m) = FORCE_UPDATE →
  log_on (drive s) log → follows log s → snapshotVersion (pmap_ s) < Z.of_nat (length log) →
  Z.of_nat (length log) - snapshotVersion (pmap_ s) <= 42 → replay log PathMapDB_new = Ret true db →
  ∃ s1, lookup (S f) path p s = lookup f path (Some (next_loc s)) s1 ∧ cache_ok s1 ∧ drive s1 = drive s ∧
    pmap_ s1 = db ∧ ctx s1 = ctx s ∧ (∀ key', missing s key' → missing s1 key') ∧ (room s → room s1).
Proof.
  intros Hok Hp Hts Hmiss Hm Hsome Hfu Hlog Hfol Hlt Hlag Hall. cbn [lookup].
  assert (Hpm : pmap_toSystemPath (S f) path LOOKUP s = Ret (key, ts) s) by (unfold pmap_toSystemPath; by rewrite Hp).
  step_by Hpm. destruct (Z.ltb_spec ts 0); [lia|]. step_by (lookup_cached_missing f s key Hmiss).
  unfold new_md. rewrite !mbind_lam. set (s1 := set_heap (<[next_loc (blocking s key) := _]> _) _ _ _).
  destruct (get_metadata_loads s1 key m (next_loc s)) as (w1 & Hw1 & Hg); [apply lookup_insert_eq|exact Hm|].
  rewrite decide_False in Hg by (change (drive s1) with (drive s); by destruct Hsome as [? ->]). set (s2 := set_heap _ _ _ _) in Hg.
  assert (Hh2 : heap_md s2 = <[next_loc s := m]> (heap_md s)) by apply insert_insert_eq.
  assert (Hm2 : heap_md s2 !! next_loc s = Some m) by (rewrite Hh2; apply lookup_insert_eq).
  assert (Hd2 : drive s2 = drive s) by exact Hw1. step_by Hg. change (0 =? - ENOENT) with false. cbn [negb Z.eqb].
  step_by (getMD_run _ s2 m Hm2). assert (Hino : md_inode_number (md m) ≠ 0).
  { unfold loads in Hm. destruct Hsome as [r Hr]. rewrite Hr in Hm. by destruct Hm as (x & _ & ? & ->). }
  rewrite (proj2 (Z.eqb_neq _ _) Hino). rewrite (bool_decide_false (md_type (md m) = HARDLINK_S)) by congruence.
  rewrite (bool_decide_true (md_type (md m) = FORCE_UPDATE)) by done.
  destruct (update_behind log s2 db) as (w3 & Hu & Hw3); [by rewrite Hd2|done|done|done|done|]. step_by Hu.
  set (s3 := set_pmap db (set_kinetic w3 s2)).
  assert (Hok3 : cache_ok s3) by (by apply (blocked_ok s s3 key m)).
  destruct (lc_invalidate_ok key s3 Hok3) as (c' & Hinv & Hdrop & Hok4). step_by Hinv. cbn [negb Z.eqb].
  exists (set_lookup_cache c' s3). split; [done|]. split; [done|]. split; [by rewrite <- Hd2|]. split; [done|]. split; [done|].
  destruct Hdrop as [(Hgb & Hgl) Ho Hbl Hn _ (Hcap & _)]. pose proof (sublist_length _ _ Hn) as Hlen.
  change (cache (lookup_cache s3)) with (cache (lookup_cache s)) in Hlen. change (capacity (lookup_cache s3)) with (capacity (lookup_cache s)) in Hcap.
  split; [intros key' (Hb & Hl & Hroom); split; [|split]|unfold room; cbn; rewrite Hcap; lia].
  - cbn. rewrite Hbl. cbn. set_solver.
  - cbn. destruct (decide (key' = key)) as [->|Hne]; [done|]. by rewrite Ho.
  - cbn. rewrite Hcap. lia.
Qed.

(** ** The move *)

Definition move_entry from to : db_entry := mk_db_entry from db_entry_Type_MOVE to.

(** The inode that makes the clients that meet it follow the log. *)
Definition forced_inode (n : Z) : Metadata := set_inode_number n (set_type FORCE_UPDATE default_Metadata).

Definition forced_record s : KineticRecord :=
  mk_KineticRecord (SerializeAsString (forced_inode (next_number s))) (env_uuid (uuids_used s)).

(** The key under which the name was first used in its directory. *)
Definition fu_key df from : cstr :=
  (if 1 <? size_ (systemPath df) then systemPath df ++ lit "/" else lit "/") ++ path_to_filename from.

(** No FORCE_UPDATE inode of an earlier move has to go. *)
Lemma check_forced s key m : loads s key m → md_type (md m) ≠ FORCE_UPDATE →
  ∃ w, contents w = drive s ∧ ∀ B (k : M (hflat_priv W) B),
    (let! l := new_md (MetadataInfo_new key) in
     let! err := get_metadata l in
     let! fu := getMD l in
     (if (err =? 0) && bool_decide (md_type fu = FORCE_UPDATE) then required (delete_metadata l) else mret_ tt) ;;; k) s =
    k (set_heap (<[next_loc s := m]> (heap_md s)) (heap_di s) (S (next_loc s)) (set_kinetic w s)).
Proof.
  intros Hm Hne. set (s1 := set_heap (<[next_loc s := MetadataInfo_new key]> (heap_md s)) (heap_di s) (S (next_loc s)) s).
  destruct (get_metadata_loads s1 key m (next_loc s)) as (w & Hw & Hg); [apply lookup_insert_eq|exact Hm|].
  exists w. split; [exact Hw|]. intros B k. unfold new_md. rewrite mbind_lam. step_by Hg. set (s2 := set_heap _ _ _ _).
  assert (Hm2 : heap_md s2 !! next_loc s = Some m) by apply lookup_insert_eq. step_by (getMD_run _ s2 m Hm2).
  rewrite (bool_decide_false (md_type (md m) = FORCE_UPDATE)) by done. rewrite andb_false_r, mbind_ret_l.
  unfold s2. cbn. by rewrite insert_insert_eq.
Qed.

(** The new inode at the target. *)
Lemma create_forced fuel s (lt lf : loc) kto : numbers_left s → posix s = TIMERELAXED →
  heap_md s !! lt = Some (MetadataInfo_new kto) → drive s !! kto = None →
  ∃ w m', (change_md lt (set_type FORCE_UPDATE) ;;;
      let! ino := generate_inode_number fuel in
      change_md lt (set_inode_number ino) ;;;
      required (create_metadata lt) ;;;
      let! s := get_ in
      (if bool_decide (posix s = FULL) then required (put_metadata_forced fuel lf (touch_AC lf)) else mret_ tt) ;;;
      mret_ 0) s =
      Ret 0 (with_md (set_kinetic w (tick_uuid (set_inum (inum_base s) (inum_counter s + 1) s))) lt m') ∧
    contents w = <[kto := forced_record s]> (drive s) ∧ systemPath m' = kto.
Proof.
  intros Hnum Hp Hm Hnew. set (s2 := set_inum (inum_base s) (inum_counter s + 1) s).
  set (m2 := on_md (set_inode_number (next_number s)) (on_md (set_type FORCE_UPDATE) (MetadataInfo_new kto))).
  destruct (create_metadata_ok (with_md s2 lt m2) lt m2) as (w & Hc & Hw); [apply lookup_insert_eq|exact Hnew|].
  exists w, (setKeyVersion (env_uuid (uuids_used s)) m2). split; [|split; [exact Hw|done]].
  rewrite <- (with_md_self s lt _ Hm) at 1. rewrite change_md_next, (mbind_Ret _ _ _ _ _ (generate_run fuel (with_md s lt _) Hnum)).
  change (set_inum _ _ (with_md s lt ?m)) with (with_md s2 lt m). rewrite change_md_next, (required_run _ _ _ _ Hc).
  unfold get_. rewrite mbind_lam. rewrite bool_decide_false by (cbn; by rewrite Hp).
  rewrite mbind_ret_l. unfold mret_, with_md. cbn. by rewrite insert_insert_eq.
Qed.

(** The state after the move, but for the recovery entry. *)
Record directory_done s s' db (lt : loc) kto : Prop := {
  dd_ok : cache_ok s' ∧ lookup_cache s' = lookup_cache s;
  dd_same : ctx s' = ctx s ∧ posix s' = posix s;
  dd_pmap : pmap_ s' = db;
  dd_heap : ∀ l, l ≠ lt → is_Some (heap_md s !! l) → heap_md s' !! l = heap_md s !! l;
  dd_target : ∃ m', heap_md s' !! lt = Some m' ∧ systemPath m' = kto;
}.

(** What the call needs of the log: the client may be behind. *)
Definition can_append s log e db : Prop :=
  log_on (drive s) log ∧ follows log s ∧ Z.of_nat (length log) - snapshotVersion (pmap_ s) <= 42 ∧ msg_wf e ∧
  Z.of_nat (length log) + 1 < 9223372036854775807 ∧ replay (log ++ [e]) PathMapDB_new = Ret true db.

Lemma rename_directory_run f s log db (lt lf ldt ldf : loc) from to kto df mfu :
  can_append s log (move_entry from to) db → cache_ok s → posix s = TIMERELAXED → numbers_left s →
  heap_md s !! lt = Some (MetadataInfo_new kto) → heap_md s !! ldf = Some df → drive s !! kto = None → log_key kto = false →
  loads s (fu_key df from) mfu → md_type (md mfu) ≠ FORCE_UPDATE → log_key (fu_key df from) = false →
  ∃ s', rename_directory (S (S f)) from to lt lf ldt ldf s = Ret 0 s' ∧ directory_done s s' db lt kto ∧
    log_on (drive s') (log ++ [move_entry from to]) ∧ off_log (<[kto := forced_record s]> (drive s)) (drive s').
Proof.
  intros (Hlog & Hfol & Hlag & Hwf & Hlen & Hall) Hok Hp Hnum Hmt Hdf Hnew Hkt Hfu Hty Hkfu.
  destruct (operation_run f log s _ db Hlog Hfol Hlag Hwf Hlen Hall) as (w1 & Hop & Hlog1 & Hoff1).
  set (s1 := set_kinetic w1 (set_pmap db s)) in *.
  assert (Hfu1 : loads s1 (fu_key df from) mfu) by (unfold loads; change (drive s1) with (contents w1); rewrite Hoff1 by done; exact Hfu).
  unfold rename_directory. rewrite (required_run _ _ _ _ Hop). step_by (deref_md_run ldf s1 df Hdf).
  destruct (check_forced s1 _ mfu Hfu1 Hty) as (w2 & Hw2 & Hck). cbv zeta. fold (fu_key df from). rewrite Hck.
  set (s2 := set_heap _ _ _ _). pose proof (allocated s lt _ Hok Hmt) as Hlt. pose proof (ok_fresh _ Hok (next_loc s) (le_n _)) as Hfr.
  destruct (create_forced (S (S f)) s2 lt lf kto) as (w3 & m' & Hcr & Hw3 & Hk'); [exact Hnum|exact Hp| | |].
  { cbn. rewrite lookup_insert_ne by lia. exact Hmt. }
  { change (drive s2) with (contents w2). rewrite Hw2. change (drive s1) with (contents w1). by rewrite Hoff1. }
  eexists. split; [exact Hcr|]. change (drive s2) with (contents w2) in Hw3. rewrite Hw2 in Hw3.
  change (forced_record s2) with (forced_record s) in Hw3. change (drive s1) with (contents w1) in Hw3. set (s3 := with_md _ lt m').
  assert (Hd3 : drive s3 = <[kto := forced_record s]> (contents w1)) by exact Hw3.
  split; [|split].
  - split; [split; [|done]|done|done| |exists m'; split; [apply lookup_insert_eq|done]].
    + apply (cache_ok_frame s2 s3 lt (MetadataInfo_new kto) m'); try done; [|cbn; by rewrite lookup_insert_ne by lia].
      by apply (cache_ok_alloc s s2 mfu).
    + intros l Hl [x Hx]. cbn. rewrite !lookup_insert_ne; [done| |done]. intros <-. congruence.
  - rewrite Hd3. eapply log_on_same; [by apply same_log_insert|done].
  - rewrite Hd3. intros k Hk. rewrite !lookup_insert. case_decide; [done|]. by apply Hoff1.
Qed.

(** A directory that may be moved: nobody has used its name or the target for a
    mapping or the target's name for an entry, its inode is on the drives. *)
Record directory_move s log db from to df dt mf mi : Prop := {
  m_posix : posix s = TIMERELAXED ∧ numbers_left s;
  m_mode : S_ISDIR (md_mode (md mf)) = true ∧ md_type (md mf) ≠ HARDLINK_T;
  m_log : log_on (drive s) log ∧ follows log s ∧ Z.of_nat (length log) - snapshotVersion (pmap_ s) <= 42 ∧
          Z.of_nat (length log) + 1 < 9223372036854775807 ∧ msg_wf (move_entry from to);
  m_db : replay log PathMapDB_new = Ret true db ∧ movable (snapshot db) from to;
  m_names : NoDup [entry_from from df; entry_to to dt; entry_recovery from to dt] ∧
            drive s !! entry_from from df = Some direntry_record ∧
            drive s !! entry_to to dt = None ∧ drive s !! entry_recovery from to dt = None;
  m_stored : loads s from mi ∧ is_Some (drive s !! from) ∧ settled 0 (md mi);
  m_origin : fu_key df from = from;
}.

(** The path map and the drives after the move; the log apart. *)
Definition moved_db db from to : PathMapDB :=
  mk_PathMapDB (snapshotVersion db + 1) (after_move (snapshot db) from to (snapshotVersion db + 1)).

Definition moved_drive (σ : store) from to df dt (r : KineticRecord) : store :=
  <[to := r]> (<[entry_to to dt := direntry_record]> (delete (entry_from from df) σ)).

Lemma moved_replay log db from to : replay log PathMapDB_new = Ret true db → movable (snapshot db) from to →
  replay (log ++ [move_entry from to]) PathMapDB_new = Ret true (moved_db db from to).
Proof.
  intros Hr Hm. rewrite replay_app, (mbind_Ret _ _ _ _ _ Hr). cbn [replay apply_entry move_entry de_type de_origin de_target].
  rewrite mbind_assoc. by step_by (addDirectoryMove_movable db from to Hm).
Qed.

Lemma entries_same_log (σ : store) from to df dt : same_log σ (entries_drive σ from to df dt).
Proof.
  unfold entries_drive. do 2 (etransitivity; [apply same_log_insert, direntry_log_key|]). apply same_log_delete, direntry_log_key.
Qed.

(** The recovery entry leaves no trace. *)
Lemma moved_drive_steps (σ : store) from to df dt (r : KineticRecord) (d8 : store) :
  NoDup [entry_from from df; entry_to to dt; entry_recovery from to dt] → σ !! entry_recovery from to dt = None → absolute to →
  off_log (<[to := r]> (entries_drive σ from to df dt)) d8 →
  off_log (moved_drive σ from to df dt r) (delete (entry_recovery from to dt) d8).
Proof.
  rewrite !NoDup_cons, !not_elem_of_cons. intros ((? & ? & _) & (? & _) & _) Hrc Hto Hoff k Hk.
  assert (to ≠ entry_recovery from to dt) by (by apply absolute_direntry).
  rewrite lookup_delete. case_decide as E; [subst k|rewrite (Hoff k Hk)]; unfold moved_drive, entries_drive;
    repeat rewrite ?lookup_insert, ?lookup_delete; repeat case_decide; congruence.
Qed.

(** A stored inode that needs no further work is the inode itself. *)
Lemma stored_settled s key m ts : loads s key m → is_Some (drive s !! key) → settled ts (md m) →
  md_inode_number (md m) ≠ 0 ∧ md_type (md m) ≠ FORCE_UPDATE.
Proof. unfold loads. intros Hm [r Hr]. rewrite Hr in Hm. destruct Hm as (x & _ & Hi & ->). by intros [|(_ & ? & _)]. Qed.

Lemma directory_done_frame s s' w db (lt : loc) kto : directory_done s s' db lt kto → directory_done s (set_kinetic w s') db lt kto.
Proof. intros [[[? ? ?] ?] ? ? ? ?]. by split. Qed.

(** The writes of the move, the recovery entry around them. *)
Lemma rename_directory_steps f s s4 (lf ldf ldt : loc) from to mf df dt log db mi :
  let lt := next_loc s in looked_ok s s4 from to lf ldf ldt lt mf df dt →
  directory_move s log db from to df dt mf mi → drive s !! to = None →
  ∃ w5 w6 w7 s8 w9, let s7 := set_kinetic w7 s4 in let s9 := set_kinetic w9 s8 in
    rename_entries (S (S f)) ldf ldt from to s4 (set_kinetic w5 s4) (set_kinetic w6 s4) s7 ∧
    rename_directory (S (S f)) from to lt lf ldt ldf s7 = Ret 0 s8 ∧
    delete_directory_entry (S (S f)) ldt (recovery_direntry from to) s8 = Ret 0 s9 ∧ directory_done s4 s9 (moved_db db from to) lt to ∧
    log_on (drive s9) (log ++ [move_entry from to]) ∧ off_log (moved_drive (drive s) from to df dt (forced_record s)) (drive s9).
Proof.
  intros lt [Hok4 Hd4 (Hx4 & Hp4 & Hpm4 & _ & Hu4 & Hb4 & Hc4) (Hmf & Hdf & Hdt & Hmt) (Hn1 & Hn2 & Hn3) _ _]
    [(Hp & Hnum) _ (Hlog & Hfol & Hlag & Hlen & Hwf) (Hrep & Hmv) (Hnd & Hef & Het & Hrc) (Hst & Hsome & Hset) Hfu] Hnew.
  pose proof (mv_absolute _ _ _ Hmv) as (Hao & Hat).
  destruct (rename_entries_run (S (S f)) s4 ldf ldt from to df dt Hdf Hdt) as (w5 & w6 & w7 & He & _ & Hw7); rewrite ?Hd4, ?Hp4; [done..|].
  rewrite Hd4 in Hw7. set (s7 := set_kinetic w7 s4) in *. assert (Hd7 : drive s7 = entries_drive (drive s) from to df dt) by exact Hw7.
  assert (Hkeep : ∀ p, absolute p → drive s7 !! p = drive s !! p).
  { intros p Ha. rewrite Hd7. unfold entries_drive, entry_from, entry_to, entry_recovery.
    by rewrite lookup_delete_ne, !lookup_insert_ne by (intros E; by eapply absolute_direntry). }
  destruct (rename_directory_run f s7 log (moved_db db from to) lt lf ldt ldf from to to df mi) as (s8 & Hrun & [(Hok8 & Hc8) (Hx8 & Hp8) Hpm8 Hh8 Ht8] & Hlog8 & Hoff8);
    try done; rewrite ?Hfu.
  - split; [rewrite Hd7; by eapply log_on_same; [apply entries_same_log|]|]. unfold follows. change (pmap_ s7) with (pmap_ s4). rewrite Hpm4.
    do 4 (split; [done|]). by apply moved_replay.
  - change (cache_ok s7). by destruct Hok4.
  - by rewrite <- Hp4 in Hp.
  - unfold numbers_left. change (inum_base s7) with (inum_base s4). change (inum_counter s7) with (inum_counter s4). by rewrite Hb4, Hc4.
  - by rewrite Hkeep.
  - by apply absolute_log_key.
  - unfold loads. by rewrite Hkeep.
  - by eapply stored_settled.
  - by apply absolute_log_key.
  - assert (Hdt8 : heap_md s8 !! ldt = Some dt) by (rewrite Hh8; [exact Hdt|congruence|by exists dt]).
    assert (Hfr : forced_record s7 = forced_record s) by (unfold forced_record, next_number; change (inum_base s7) with (inum_base s4);
      change (inum_counter s7) with (inum_counter s4); change (uuids_used s7) with (uuids_used s4); by rewrite Hb4, Hc4, Hu4).
    rewrite Hfr, Hd7 in Hoff8.
    destruct (delete_directory_entry_ok (S (S f)) s8 ldt dt (recovery_direntry from to) Hdt8) as (w9 & H9 & Hw9).
    { rewrite Hp8. change (posix s4 = TIMERELAXED). by rewrite Hp4. }
    { rewrite Hoff8 by apply direntry_log_key. rewrite lookup_insert_ne by (by apply absolute_direntry). unfold entries_drive.
      rewrite !NoDup_cons, !not_elem_of_cons in Hnd. rewrite lookup_delete_ne by naive_solver. apply lookup_insert_eq. }
    exists w5, w6, w7, s8, w9. cbn zeta. do 3 (split; [done|]). change (drive (set_kinetic w9 s8)) with (contents w9). rewrite Hw9.
    split; [by apply directory_done_frame|]. split; [by eapply log_on_same; [apply same_log_delete, direntry_log_key|]|].
    by apply moved_drive_steps.
Qed.

Lemma directory_not_link mode : S_ISDIR mode = true → S_ISLNK mode = false.
Proof. unfold S_ISDIR, S_ISLNK. intros ->%Z.eqb_eq. done. Qed.

(** [hflat_rename] of a directory. *)
Lemma rename_directory_whole f h s (lf ldf ldt : loc) from to mf df dt log db mi :
  renamable (S f) h s from to from to lf ldf ldt mf df dt → rename_checks s df dt mf = 0 →
  directory_move s log db from to df dt mf mi →
  ∃ s', hflat_rename (S (S f)) from to s = Ret 0 s' ∧ log_on (drive s') (log ++ [move_entry from to]) ∧
    off_log (moved_drive (drive s) from to df dt (forced_record s)) (drive s') ∧
    pmap_ s' = moved_db db from to ∧ ctx s' = ctx s ∧ cache_ok s' ∧ missing s' from ∧ missing s' to.
Proof.
  intros Hr Hchk Hdm. destruct (rename_lookup_run (S f) h s from to _ _ _ _ _ _ _ _ Hr) as (s4 & Hu & Hlook). rewrite Hchk in Hlook.
  destruct (rename_directory_steps f s s4 lf ldf ldt from to mf df dt log db mi Hu Hdm (n_new _ _ _ _ _ _ _ _ _ _ _ _ _ Hr))
    as (w5 & w6 & w7 & s8 & w9 & He & Hrun & H9 & [(Hok9 & Hc9) (Hx9 & _) Hpm9 Hh9 (m' & Ht9 & Hk')] & Hlog9 & Hoff9).
  destruct Hu as [Hok4 Hd4 (Hx4 & _) (Hmf & Hdf & Hdt & Hmt) (Hn1 & _) Hkf (Hcf & Hct & Hne & Hlen)].
  set (s7 := set_kinetic w7 s4) in *. set (s9 := set_kinetic w9 s8) in *. set (lt := next_loc s) in *.
  assert (Hmf9 : heap_md s9 !! lf = Some mf) by (rewrite Hh9; [exact Hmf|done|by exists mf]).
  destruct (rename_finish_run (S (S f)) s8 s9 (recovery_direntry from to) ldt lt lf m' mf Hok9 H9 Ht9 Hmf9) as (c' & Hfin & Hok' & Hmiss);
    [by rewrite Hc9, Hk'|congruence|by rewrite Hc9|].
  rewrite Hk', Hkf in Hmiss. exists (set_lookup_cache c' s9).
  split; [|split; [exact Hlog9|split; [exact Hoff9|split; [exact Hpm9|split; [etransitivity; [exact Hx9|exact Hx4]|done]]]]].
  rewrite (hflat_rename_head (S f) s s4 _ _ s7 lf ldf ldt lt from to df dt to Hlook Hmt He).
  destruct (m_mode _ _ _ _ _ _ _ _ _ Hdm) as (Hdir & Hty).
  assert (Happ : rename_apply (S (S f)) from to lt lf ldt ldf s7 = Ret tt s8); [|by step_by Happ].
  unfold rename_apply. step_by (getMD_run lf s7 mf Hmf). rewrite Hdir, (directory_not_link _ Hdir), bool_decide_false by done.
  cbn [negb andb]. rewrite (required_run _ _ _ _ Hrun). by rewrite !mbind_ret_l.
Qed.

(** ** The other clients *)

(** A client that has followed the log up to some point; if it has not seen the
    move, it still takes the target's name for what it says. *)
Record follower f t log db from to : Prop := {
  f_ok : cache_ok t;
  f_log : log_on (drive t) log ∧ follows log t ∧ Z.of_nat (length log) - snapshotVersion (pmap_ t) <= 42 ∧
          replay log PathMapDB_new = Ret true db;
  f_stale : snapshotVersion (pmap_ t) < Z.of_nat (length log) → toSystemPath (S (S (S f))) (pmap_ t) to LOOKUP = Some (to, 0);
  f_missing : missing t from ∧ missing t to ∧ room t;
}.

(** It finds the inode of the directory, at whichever key it looks first. *)
Lemma follower_lookup f t log db from to mt mi : follower f t log db from to →
  toSystemPath (S (S f)) db to LOOKUP = Some (from, 0) → toSystemPath (S (S (S f))) db to LOOKUP = Some (from, 0) →
  loads t to mt → is_Some (drive t !! to) → md_type (md mt) = FORCE_UPDATE → loads t from mi → settled 0 (md mi) →
  ∃ l t', lookup (S (S (S f))) to None t = Ret (answer t (md mi), Some l) t' ∧ heap_md t' !! l = Some mi ∧
    pmap_ t' = db ∧ drive t' = drive t ∧ ctx t' = ctx t ∧ cache_ok t' ∧ (∀ key, key ≠ from → missing t key → missing t' key).
Proof.
  intros [Hok (Hlog & Hfol & Hlag & Hrep) Hst (Hmf & Hmt & Hroom)] Hp2 Hp3 Hlt Hsome Hty Hlf Hset.
  pose proof Hfol as (n & Hn & Hv & Hr)%consistent_version. destruct (decide (n = length log)) as [->|Hne].
  - rewrite firstn_all in Hr. assert (Hdb : pmap_ t = db) by congruence.
    destruct (lookup_missing (S (S f)) to None t from 0 mi Hok) as (w & Hw & Hl); [by rewrite Hdb|done|done|done|done|].
    eexists _, _. split; [exact Hl|]. split; [apply lookup_insert_eq|]. split; [exact Hdb|]. split; [exact Hw|]. split; [done|].
    split; [by apply loaded_ok|]. intros key Hk Hm. by apply loaded_missing.
  - destruct (lookup_forced (S (S f)) to None t to 0 mt log db Hok) as (t1 & Hl1 & Hok1 & Hd1 & Hp1 & Hx1 & Hm1 & Hr1); [by apply Hst; lia|lia|exact Hmt|exact Hlt|exact Hsome|exact Hty|exact Hlog|exact Hfol|lia|exact Hlag|exact Hrep|].
    destruct (lookup_missing (S f) to (Some (next_loc t)) t1 from 0 mi Hok1) as (w & Hw & Hl2); [by rewrite Hp1|done|by apply Hm1| |done|].
    { unfold loads. by rewrite Hd1. }
    assert (Hans : answer t1 (md mi) = answer t (md mi)) by (unfold answer; by rewrite Hx1).
    exists (next_loc t1), (loaded t1 w from mi). rewrite Hl1, Hl2, Hans. split; [done|]. split; [apply lookup_insert_eq|].
    split; [exact Hp1|]. split; [etransitivity; [exact Hw|exact Hd1]|]. split; [exact Hx1|].
    split; [apply loaded_ok; [done|by apply Hm1|]; unfold loads; by rewrite Hd1|].
    intros key Hk Hm. apply loaded_missing; [by apply Hm1|by apply Hm1|done|by apply Hr1].
Qed.

(** Below the directory nothing moves. *)
Lemma moved_below s t from to df dt (y : cstr) (r : KineticRecord) : absolute from → ¬ anc from to → is_suffix y →
  off_log (moved_drive (drive s) from to df dt r) (drive t) → drive t !! (from ++ y) = drive s !! (from ++ y).
Proof.
  intros Ha Hanc Hy Hoff. pose proof (absolute_app from y Ha) as Hay. rewrite Hoff by (by apply absolute_log_key).
  unfold moved_drive, entry_from, entry_to. rewrite lookup_insert_ne by (intros ->; by apply Hanc, anc_suffix).
  by rewrite lookup_insert_ne, lookup_delete_ne by (intros E; by eapply absolute_direntry).
Qed.

Lemma forced_number s : numbers_left s → md_inode_number (forced_inode (next_number s)) = next_number s ∧ next_number s ≠ 0.
Proof. intros (Hb & Hc & _ & Hw). unfold next_number in *. cbn. rewrite wrap64_id by lia. lia. Qed.

(** The target's key on the drives of a client that reads them. *)
Lemma forced_loads `{!MessageSpec Metadata} s t from to df dt : numbers_left s → msg_wf (forced_inode (next_number s)) → absolute to →
  off_log (moved_drive (drive s) from to df dt (forced_record s)) (drive t) →
  is_Some (drive t !! to) ∧
  loads t to (setMD (forced_inode (next_number s)) (env_uuid (uuids_used s)) (MetadataInfo_new to)).
Proof.
  intros Hn Hwf Ha Hoff. assert (Ht : drive t !! to = Some (forced_record s)).
  { rewrite Hoff by (by apply absolute_log_key). apply lookup_insert_eq. }
  split; [by rewrite Ht|]. unfold loads. rewrite Ht. exists (forced_inode (next_number s)). split; [by apply parse_serialize|].
  destruct (forced_number s Hn) as [-> ?]. done.
Qed.

(** What a client that has the new path map finds for a path. *)
Lemma follower_finds f t path key m : cache_ok t → toSystemPath (S (S f)) (pmap_ t) path LOOKUP = Some (key, 0) →
  missing t key → loads t key m → settled 0 (md m) →
  ∃ l t', lookup (S (S f)) path None t = Ret (answer t (md m), Some l) t' ∧ heap_md t' !! l = Some m.
Proof.
  intros Hok Hp Hmiss Hm Hset. destruct (lookup_missing (S f) path None t key 0 m Hok Hp (Z.le_refl 0) Hmiss Hm Hset) as (w & _ & Hl).
  eexists _, _. split; [exact Hl|]. apply lookup_insert_eq.
Qed.

(** C16: moving a directory. [hflat_rename] of a directory [from] to a free name
    [to], names that no entry of the path map concerns and neither inside the other,
    returns 0; it appends one entry to the database log and otherwise changes the
    two directory entries and stores a FORCE_UPDATE inode at the target: the inode
    of the directory and everything below it stay where they are. Every client that
    is at most 42 entries behind, so that it reads the log entry by entry and not
    from a snapshot, that has cached neither path and has room for two objects, then
    finds the directory's own inode under the new name: one that is behind meets the
    FORCE_UPDATE inode, follows the log and starts again. From then on it finds
    every file below the new name that it has not cached and whose names are not
    mapped where it has always been, and nothing under the old name. *)
Theorem moved_directory_is_found `{!MessageSpec Metadata} f h s (lf ldf ldt : loc) from to mf df dt log db mi :
  renamable (S f) h s from to from to lf ldf ldt mf df dt → rename_checks s df dt mf = 0 →
  directory_move s log db from to df dt mf mi → msg_wf (forced_inode (next_number s)) →
  unmapped (snapshot db) from → unmapped (snapshot db) to →
  ∃ s', hflat_rename (S (S f)) from to s = Ret 0 s' ∧
    log_on (drive s') (log ++ [move_entry from to]) ∧
    off_log (moved_drive (drive s) from to df dt (forced_record s)) (drive s') ∧
    cache_ok s' ∧ missing s' from ∧ missing s' to ∧ pmap_ s' = moved_db db from to ∧
    ∀ t, drive t = drive s' → follower f t (log ++ [move_entry from to]) (moved_db db from to) from to →
      ∃ l t', lookup (S (S (S f))) to None t = Ret (answer t (md mi), Some l) t' ∧ heap_md t' !! l = Some mi ∧
        pmap_ t' = moved_db db from to ∧
        (∀ (y : cstr) m, is_suffix y → path_ok (from ++ y) → path_ok (to ++ y) →
           unmapped (snapshot db) (from ++ y) → unmapped (snapshot db) (to ++ y) →
           y ≠ [] → missing t (from ++ y) → loads s (from ++ y) m → settled 0 (md m) →
           ∃ lc t'', lookup (S (S f)) (to ++ y) None t' = Ret (answer t (md m), Some lc) t'' ∧ heap_md t'' !! lc = Some m) ∧
        (let old := reuse_name (snapshotVersion db + 1) in
         path_ok old → unmapped (snapshot db) old → missing t old → drive t !! old = None →
         ∃ lc t'', lookup (S (S f)) from None t' = Ret (- ENOENT, Some lc) t'').
Proof.
  intros Hr Hchk Hdm Hwf Huf Hut. destruct (rename_directory_whole f h s lf ldf ldt from to mf df dt log db mi Hr Hchk Hdm)
    as (s' & Hrun & Hlog & Hoff & Hpm & _ & Hok & Hmf & Hmt).
  exists s'. do 7 (split; [done|]). intros t Hdt Hfol. rewrite <- Hdt in Hoff. clear Hrun Hlog Hpm Hok Hmf Hmt.
  destruct Hdm as [(_ & Hnum) _ _ (_ & Hmv) _ (Hst & Hsome & Hset) _]. pose proof Hmv as [(Haf & Hat) (Hft & _) (Hof & Hot) _].
  destruct (forced_loads s t from to df dt Hnum Hwf Hat Hoff) as (Hts & Htl).
  assert (Hbelow : ∀ (y : cstr) m, is_suffix y → loads s (from ++ y) m → loads t (from ++ y) m).
  { intros y m Hy Hm. unfold loads. by rewrite (moved_below s t from to df dt y _ Haf Hft Hy Hoff). }
  assert (Hpath : ∀ g (y : cstr), is_suffix y → path_ok (from ++ y) → path_ok (to ++ y) → unmapped (snapshot db) (from ++ y) →
            unmapped (snapshot db) (to ++ y) → toSystemPath (S (S g)) (moved_db db from to) (to ++ y) LOOKUP = Some (from ++ y, 0)).
  { intros g y Hy ????. by apply moved_target. }
  pose proof (Hpath (S f) []) as Hp. rewrite !app_nil_r in Hp. specialize (Hbelow [] mi) as Hmi. rewrite app_nil_r in Hmi.
  pose proof (Hpath f []) as Hp'. rewrite !app_nil_r in Hp'.
  destruct (follower_lookup f t _ _ from to _ mi Hfol (Hp' (or_introl eq_refl) Hof Hot Huf Hut) (Hp (or_introl eq_refl) Hof Hot Huf Hut) Htl Hts eq_refl
      (Hmi (or_introl eq_refl) Hst) Hset) as (l & t' & Hl & Hm & Hpm' & Hd' & Hx' & Hok' & Hmiss').
  exists l, t'. split; [exact Hl|]. split; [exact Hm|]. split; [exact Hpm'|]. split.
  - intros y m Hy Hoy Hty Hfy Htoy Hne Hmiss Hload Hsy.
    assert (Hans : answer t' (md m) = answer t (md m)) by (unfold answer; by rewrite Hx'). rewrite <- Hans.
    apply (follower_finds f t' _ (from ++ y)); [exact Hok'|rewrite Hpm'; by apply Hpath|apply Hmiss'; [by apply app_ne_self|exact Hmiss]| |exact Hsy].
    unfold loads. rewrite Hd'. by apply Hbelow.
  - intros old Hold Huo Hmiss Hno.
    destruct (follower_finds f t' from old (MetadataInfo_new old)) as (lc & t'' & Hlc & _); [exact Hok'| |apply Hmiss'; [|exact Hmiss]| |by left|by exists lc, t''].
    + rewrite Hpm'. pose proof (moved_origin f (snapshot db) from to [] (snapshotVersion db + 1) (snapshotVersion db + 1) LOOKUP Hmv (or_introl eq_refl)) as Hor.
      rewrite !app_nil_r in Hor. by apply Hor.
    + destruct Haf as [? ->]. done.
    + unfold loads. by rewrite Hd', Hno.
Qed.

End MoveFacts.

(** ** Witness: the directory [/f] with the file [/f/x] is moved to [/g] *)

#[local] Existing Instance demo_env.
#[local] Existing Instance demo_metadata_spec.
#[local] Existing Instance demo_entries.

Definition demo_dir : Metadata := mk_Metadata POSIX 5 5 5 0 0 (Z.lor S_IFDIR 493) 7 1 0 0 [] 0 [] [].
Definition demo_dir_md : MetadataInfo := setMD demo_dir (lit "r1") (MetadataInfo_new (lit "/f")).
Definition demo_child : Metadata := mk_Metadata POSIX 5 5 5 0 0 (Z.lor S_IFREG 420) 8 1 0 0 [] 0 [] [].
Definition demo_child_md : MetadataInfo := setMD demo_child (lit "r2") (MetadataInfo_new (lit "/f/x")).

Definition demo_nested : store :=
  <[ lit "/f" := mk_KineticRecord (SerializeAsString demo_dir) (lit "r1") ]>
  (<[ lit "/f/x" := mk_KineticRecord (SerializeAsString demo_child) (lit "r2") ]>
  (<[ demo_entry (lit "f") := direntry_record ]> demo_drive)).

Definition demo_mover : hflat_priv store := demo_two demo_nested demo_dir_md.

Lemma demo_nested_root : loads (demo_mount demo_nested) (lit "/") demo_root_md.
Proof. exists demo_root. split; [by vm_compute|done]. Qed.

Lemma demo_nested_dir : loads (demo_mount demo_nested) (lit "/f") demo_dir_md.
Proof. exists demo_dir. split; [by vm_compute|done]. Qed.

Lemma demo_nested_child : loads demo_mover (lit "/f/x") demo_child_md.
Proof. exists demo_child. split; [by vm_compute|done]. Qed.

Lemma demo_mover_renamable : renamable 1 4 demo_mover (lit "/f") (lit "/g") (lit "/f") (lit "/g") 2 1 1 demo_dir_md demo_root_md demo_root_md.
Proof.
  split; [reflexivity| |split; discriminate|split; reflexivity|split; reflexivity| |vm_compute; reflexivity|reflexivity].
  - pose proof (demo_two_root demo_nested demo_dir_md demo_nested_root demo_nested_dir) as Hroot.
    split; [|exists (lit "/"); apply Hroot|exists (lit "/"); apply Hroot|apply demo_two_missing; discriminate].
    apply demo_two_file; [apply demo_nested_root|apply demo_nested_dir|done].
  - exists 0. split; [vm_compute; reflexivity|done].
Qed.

Lemma nothing_mapped p : unmapped ∅ p.
Proof. intros q _. apply lookup_empty. Qed.

Lemma demo_movable : movable ∅ (lit "/f") (lit "/g").
Proof.
  split; [split; eexists; reflexivity|split; by apply anc_dec_false| |apply lookup_empty].
  split; apply short_path_ok; vm_compute; reflexivity.
Qed.

Lemma demo_no_log : log_on (drive demo_mover) [].
Proof.
  apply (log_on_same (∅ : store)); [|exact log_on_empty]. intros k Hk. change (drive demo_mover) with demo_nested. unfold demo_nested, demo_drive.
  repeat (rewrite lookup_insert_ne; [|intros <-; vm_compute in Hk; discriminate Hk]).
  rewrite lookup_singleton_ne; [done|]. intros <-. vm_compute in Hk. discriminate Hk.
Qed.

Lemma demo_directory_move : directory_move demo_mover [] PathMapDB_new (lit "/f") (lit "/g") demo_root_md demo_root_md demo_dir_md demo_dir_md.
Proof.
  split.
  - split; [reflexivity|]. by repeat split.
  - split; [reflexivity|discriminate].
  - split; [exact demo_no_log|]. split; [exact (consistent_new [])|]. split; [discriminate|]. split; [reflexivity|exact I].
  - split; [reflexivity|exact demo_movable].
  - split; [|vm_compute; by repeat split]. apply (bool_decide_unpack _). vm_compute. exact I.
  - split; [exists demo_dir; split; [by vm_compute|done]|]. split; [vm_compute; by eexists|]. right. by repeat split.
  - reflexivity.
Qed.

(** A client that mounts after the move and has not read the log. *)
Lemma demo_late (d : store) db : log_on d [move_entry (lit "/f") (lit "/g")] →
  replay [move_entry (lit "/f") (lit "/g")] PathMapDB_new = Ret true db →
  follower 0 (demo_mount d) [move_entry (lit "/f") (lit "/g")] db (lit "/f") (lit "/g").
Proof.
  intros Hlog Hr. split; [apply demo_mount_ok| | |split; [apply demo_missing|split; [apply demo_missing|reflexivity]]].
  - split; [exact Hlog|]. split; [apply consistent_new|]. split; [discriminate|exact Hr].
  - intros _. vm_compute. reflexivity.
Qed.

Lemma moved_directory_is_found_witness :
  ∃ s' l t' lc t'' lo to', hflat_rename 2 (lit "/f") (lit "/g") demo_mover = Ret 0 s' ∧
    lookup 3 (lit "/g") None (demo_mount (kinetic s')) = Ret (0, Some l) t' ∧ heap_md t' !! l = Some demo_dir_md ∧
    lookup 2 (lit "/g/x") None t' = Ret (0, Some lc) t'' ∧ heap_md t'' !! lc = Some demo_child_md ∧
    lookup 2 (lit "/f") None t' = Ret (- ENOENT, Some lo) to'.
Proof.
  destruct (moved_directory_is_found 0 4 demo_mover 2 1 1 (lit "/f") (lit "/g") demo_dir_md demo_root_md demo_root_md [] PathMapDB_new demo_dir_md)
    as (s' & H1 & H2 & H3 & _ & _ & _ & _ & H4).
  - exact demo_mover_renamable.
  - reflexivity.
  - exact demo_directory_move.
  - vm_compute. reflexivity.
  - apply nothing_mapped.
  - apply nothing_mapped.
  - destruct (H4 (demo_mount (kinetic s')) eq_refl) as (l & t' & H5 & H6 & H7 & H8 & H9).
    + apply demo_late; [exact H2|]. apply (moved_replay []); [reflexivity|exact demo_movable].
    + destruct (H8 (lit "/x") demo_child_md) as (lc & t'' & H10 & H11);
        [right; eexists; reflexivity|apply short_path_ok; vm_compute; reflexivity|apply short_path_ok; vm_compute; reflexivity
        |apply nothing_mapped|apply nothing_mapped|discriminate|apply demo_missing|exact demo_nested_child|right; by repeat split|].
      destruct H9 as (lo & to' & H12); [apply short_path_ok; vm_compute; reflexivity|apply nothing_mapped|apply demo_missing| |].
      { change (drive s' !! lit "|reuse_1" = None). rewrite H3 by reflexivity. vm_compute. reflexivity. }
      exists s', l, t', lc, t'', lo, to'. split; [exact H1|]. split; [exact H5|]. split; [exact H6|].
      split; [exact H10|]. split; [exact H11|exact H12].
Defined.

(** ** What does not move *)

(** Root makes [/d] with the file [/d/f] and the private directory [/p], and moves
    [/d] into it. *)
Definition demo_private_move : outcome (hflat_priv store) (Z * Z * Z * Z) :=
  (let! d := hflat_mkdir 5 (lit "/d") 493 in
   let! c := hflat_create 5 (lit "/d/f") (Z.lor S_IFREG 420) in
   let! p := hflat_mkdir 5 (lit "/p") 448 in
   let! r := hflat_rename 5 (lit "/d") (lit "/p/d") in
   mret_ (d, c, p, r)) (demo_user 0 demo_tree).

(** A directory that is moved into a private one stays accessible to everybody, and
    so does everything below it: neither the inodes nor the path map take notice
    of the permissions above the new name. *)
Theorem moved_directory_keeps_path_permissions :
  result_of demo_private_move = Some (0, 0, 0, 0) ∧
  let t := demo_user 1000 (drive (state_after demo_private_move (demo_user 0 demo_tree))) in
  fst <$> result_of (lookup 5 (lit "/p/x") None t) = Some (- ENOENT) ∧
  fst <$> result_of (lookup_parent 5 (lit "/p/x") None t) = Some (- EACCES) ∧
  fst <$> result_of ((lookup 5 (lit "/p/d") None ;;; lookup 5 (lit "/p/d/f") None) t) = Some 0.
Proof. vm_compute. repeat split. Qed.

(** A client that has not followed the log. *)
Definition demo_stale : hflat_priv store := demo_mount (drive (state_after (hflat_rename 2 (lit "/f") (lit "/g") demo_mover) demo_mover)).

(** Nothing at the old name tells a client that is behind about the move: it still
    finds the directory there, and can make a file in it, which appears under the
    new name; once it has looked the new name up the old one is gone. *)
Theorem old_name_stays_for_stale_clients :
  fst <$> result_of (lookup 3 (lit "/f") None demo_stale) = Some 0 ∧
  fst <$> result_of ((hflat_create 3 (lit "/f/n") (Z.lor S_IFREG 420) ;;; lookup 3 (lit "/g") None ;;; lookup 3 (lit "/g/n") None) demo_stale) = Some 0 ∧
  fst <$> result_of ((lookup 3 (lit "/g") None ;;; lookup 3 (lit "/f") None) demo_stale) = Some (- ENOENT).
Proof. vm_compute. repeat split. Qed.

(** What the drives hold outside the log. *)
Definition outside_log (σ : store) : store := filter (λ kr, log_key kr.1 = false) σ.

Definition demo_cleanup (again : bool) : M (hflat_priv store) (Z * Z * Z) :=
  let! mkdir := hflat_mkdir 5 (lit "/a") 493 in
  let! rename := hflat_rename 5 (lit "/a") (lit "/b") in
  (if again then required (hflat_mkdir 5 (lit "/a") 493) else mret_ tt) ;;;
  let! rmdir := hflat_rmdir 5 (lit "/b") in
  mret_ (mkdir, rename, rmdir).

(** The two cases of the comment in [hflat_unlink]: after [mkdir a; mv a b; rmdir b]
    neither the path map nor the drives, the log apart, hold anything of the
    directory; when [/a] was made again before the [rmdir], its mapping to the
    reuse name stays, and with it everything that leads to the new directory. *)
Theorem removed_move_leaves_nothing :
  let s := demo_user 0 demo_tree in let s1 := after_run (demo_cleanup false) s in let s2 := after_run (demo_cleanup true) s in
  result_of (demo_cleanup false s) = Some (0, 0, 0) ∧ snapshot (pmap_ s1) = ∅ ∧ outside_log (drive s1) = demo_tree ∧
  result_of (demo_cleanup true s) = Some (0, 0, 0) ∧
  snapshot (pmap_ s2) = {[ lit "/a" := mk_PMEntry REUSE (lit "|reuse_1") 0 ]} ∧
  fst <$> result_of (lookup 5 (lit "/a") None s2) = Some 0 ∧ fst <$> result_of (lookup 5 (lit "/b") None s2) = Some (- ENOENT).
Proof.
  intros s s1 s2. repeat split; apply (bool_decide_unpack _); vm_compute; exact I.
Qed.
