(* ===== verification/SymlinkFacts.v ===== *)
(** * Symbolic links

    {!Link.hflat_symlink} run as a whole on a reliable namespace: the directory
    entry, the entry in the database log and the inode, and what the clients that
    have followed the log find under the link; what the others read. *)
From S2P Require Import Prelude CppString Proto PathMapDB PathMapFacts PathMapLog LRUCache DataInfo MetadataInfo Kinetic FsState Demo KineticHelper Util Lookup Directory File Link Rename Permission HelperFacts DatabaseFacts FuseFacts LinkFacts LookupFacts CreateFacts RenameFacts MoveFacts.

Section SymlinkFacts.
Context {W : Type} `{!Env} `{!KineticNamespace W} `{!KineticNamespaceSpec W} `{!KineticReliable W} `{!MessageSpec db_entry}.
Implicit Types (s t : hflat_priv W) (m pm : MetadataInfo) (key path target : cstr) (log : list db_entry) (db : PathMapDB) (x : Metadata).

Definition link_entry path target : db_entry := mk_db_entry path db_entry_Type_SYMLINK target.

Definition linked_db db path target : PathMapDB := mk_PathMapDB (snapshotVersion db + 1) (after_link (snapshot db) path target).

Lemma linked_replay log db path target : replay log PathMapDB_new = Ret true db → path_ok path → path_ok target → unmapped (snapshot db) path →
  replay (log ++ [link_entry path target]) PathMapDB_new = Ret true (linked_db db path target).
Proof.
  intros Hr Hp Ht Hu. rewrite replay_app, (mbind_Ret _ _ _ _ _ Hr). cbn [replay apply_entry link_entry de_type de_origin de_target].
  rewrite mbind_assoc. step_by (addSoftLink_fresh (snapshot db) path target db (proj1 Hp) (proj1 Ht) eq_refl (Hu path (anc_refl path))). done.
Qed.

(** ** The whole operation *)

Lemma hflat_symlink_run f s path target key ts ld pm time x log db : cache_ok s →
  creatable (S f) s path key ts ld pm time symlink_mode x → can_append s log (link_entry path target) db → log_key key = false →
  ∃ s', hflat_symlink (S (S f)) target path s = Ret 0 s' ∧ cache_ok s' ∧ pmap_ s' = db ∧
    log_on (drive s') (log ++ [link_entry path target]) ∧ off_log (created_drive s key pm path x) (drive s').
Proof.
  intros Hok Hc (Hlog & Hfol & Hlag & Hwf & Hlen & Hall) Hkey.
  destruct (create_lookups (S f) s path key ts ld pm time symlink_mode x Hok Hc) as (w1 & c' & w2 & Hl1 & Hl2 & Hacc & Hentry & Hr & Hpm2 & Hll & Hw2).
  pose proof Hc as [_ [Hmiss Hnew] _ _ _ _ _ (_ & Hnk) _ Hnum Hx].
  set (s1 := loaded s w1 key (MetadataInfo_new key)) in *. set (s2 := set_lookup_cache c' (tick_steady s1)) in *. set (s3 := set_kinetic w2 s2) in *.
  assert (Hload : loads s key (MetadataInfo_new key)) by (unfold loads; by rewrite Hnew).
  pose proof (reordered_ok s1 c' (loaded_ok s w1 key _ Hok Hmiss Hload) Hr) as Hok2. fold s2 in Hok2.
  assert (Hlog3 : log_on (drive s3) log).
  { change (drive s3) with (contents w2). rewrite Hw2. by eapply log_on_same; [apply same_log_insert, direntry_log_key|]. }
  destruct (operation_run f log s3 (link_entry path target) db Hlog3 Hfol Hlag Hwf Hlen Hall) as (w3 & Hop & Hlog4 & Hoff4).
  set (s4 := set_kinetic w3 (set_pmap db s3)) in *. set (l := next_loc s) in *.
  assert (Hl4 : heap_md s4 !! l = Some (MetadataInfo_new key)) by apply lookup_insert_eq.
  pose proof (initialize_metadata_run (S (S f)) l ld symlink_mode s4 _ pm x Hnum Hl4 Hpm2 Hll Hx) as Hinit.
  set (s5 := initialized s4 l (MetadataInfo_new key) x) in *. set (m5 := on_md (λ _, x) (MetadataInfo_new key)).
  assert (Hl5 : heap_md s5 !! l = Some m5) by apply lookup_insert_eq.
  assert (Hd4 : off_log (<[direntry_key (md_inode_number (md pm)) (path_to_filename path) := direntry_record]> (drive s)) (contents w3)).
  { intros k Hk. rewrite Hoff4 by done. change (drive s3) with (contents w2). by rewrite Hw2. }
  destruct (create_metadata_ok s5 l m5 Hl5) as (w6 & Hcr & Hw6).
  { change (contents w3 !! key = None). by rewrite Hd4, lookup_insert_ne. }
  set (s6 := with_md _ l _) in Hcr. exists s6.
  assert (Hok4 : cache_ok s4) by (by destruct Hok2; split).
  assert (Hok5 : cache_ok s5) by (by apply (cache_ok_frame s4 s5 l (MetadataInfo_new key) m5)).
  split; [|split; [by apply (cache_ok_frame s5 s6 l m5 (setKeyVersion (env_uuid (uuids_used s5)) m5))|split; [done|]]].
  - unfold hflat_symlink. step_by Hl1. cbn [negb Z.eqb]. unfold on_found. step_by Hl2. cbn [negb Z.eqb fst snd non_null]. rewrite mbind_ret_l.
    unfold on_ok. step_by Hacc. cbn [negb Z.eqb]. step_by Hentry. cbn [negb Z.eqb]. step_by Hop. cbn [negb Z.eqb]. rewrite mbind_ret_l.
    step_by Hinit. by rewrite (required_run _ _ _ _ Hcr).
  - change (drive s6) with (contents w6). rewrite Hw6. change (drive s5) with (contents w3). cbn [systemPath on_md m5].
    split; [by eapply log_on_same; [apply same_log_insert|]|].
    intros k Hk. unfold created_drive. destruct (decide (key = k)) as [<-|Hne]; [by rewrite !lookup_insert_eq|].
    by rewrite !(lookup_insert_ne _ key k), Hd4 by done.
Qed.
(** ** What the map says afterwards *)

(** Names no mapping is involved in, the link not above its own target. *)
Definition linkable_names db path target : Prop :=
  path_ok path ∧ path_ok target ∧ unmapped (snapshot db) path ∧ unmapped (snapshot db) target ∧ ¬ anc path target.

Lemma linked_self f db path target : linkable_names db path target → toSystemPath (S f) (linked_db db path target) path LOOKUP = Some (path, 0).
Proof. intros (Hp & _ & Hu & _). rewrite toSystemPath_ok by done. by apply after_link_self. Qed.

Lemma linked_below f db path target y : is_suffix y → y ≠ [] → linkable_names db path target → linkable_names db (path ++ y) (target ++ y) →
  ¬ anc path (target ++ y) → toSystemPath (S (S f)) (linked_db db path target) (path ++ y) LOOKUP = Some (target ++ y, 0).
Proof. intros Hy Hne (Hp & Ht & Hup & Hut & _) (Hpy & Hty & Hupy & Huty & _) Hay. rewrite toSystemPath_ok by done. by apply after_link_follow. Qed.

Lemma linked_read f t db path target buffer : linkable_names db path target → no_nul target → pmap_ t = linked_db db path target → buffer ≠ [] →
  hflat_readlink (S (S f)) path buffer (size_ buffer) t = Ret (0, linked_buffer target buffer) t.
Proof.
  intros (Hp & Ht & Hup & Hut & Ha) Hn Hpm Hb. apply (readlink_buffer _ _ _ _ 0); [|done|done]. rewrite Hpm, toSystemPath_ok by done. cbn [snapshot linked_db].
  pose proof (after_link_follow (snapshot db) path target f [] true) as Hf. rewrite !app_nil_r in Hf. apply Hf; try done. by left.
Qed.

(** C20: symbolic links, for a link and a target whose names no earlier entry of the
    log maps and where the link is not above its target, by a client at most 42
    entries behind. [hflat_symlink] returns 0; it adds the directory entry and an
    inode that says it is a link, and appends one entry to the database log. A
    client that is behind by at most 42 entries gets the same path map from
    [database_update]. A client with that map reads the target back with [readlink],
    cut to the buffer and terminated. If it has not cached them, it finds the link's
    own inode under its name, and under a path through the link what is stored below
    the target, where the two paths are unmapped as well. A target that was moved
    before is another matter: {!LinkFacts.readlink_resolves_moves}. *)
Theorem symlink_leads_to_target `{!MessageSpec Metadata} f s path target ts ld pm time x log db :
  cache_ok s → creatable (S f) s path path ts ld pm time symlink_mode x →
  log_on (drive s) log ∧ follows log s ∧ Z.of_nat (length log) - snapshotVersion (pmap_ s) <= 42 →
  Z.of_nat (length log) + 1 < 9223372036854775807 → replay log PathMapDB_new = Ret true db →
  msg_wf (link_entry path target) → msg_wf x → linkable_names db path target → absolute path → no_nul target →
  let db' := linked_db db path target in let log' := log ++ [link_entry path target] in
  ∃ s', hflat_symlink (S (S f)) target path s = Ret 0 s' ∧ cache_ok s' ∧ pmap_ s' = db' ∧
    log_on (drive s') log' ∧ off_log (created_drive s path pm path x) (drive s') ∧ S_ISLNK (md_mode x) = true ∧
    (∀ t, drive t = drive s' → follows log' t → snapshotVersion (pmap_ t) < Z.of_nat (length log') <= snapshotVersion (pmap_ t) + 42 →
       ∃ w, database_update t = Ret 0 (set_pmap db' (set_kinetic w t)) ∧ contents w = drive s') ∧
    ∀ t, pmap_ t = db' →
      (∀ buffer, buffer ≠ [] → hflat_readlink (S (S f)) path buffer (size_ buffer) t = Ret (0, linked_buffer target buffer) t) ∧
      (drive t = drive s' → cache_ok t →
        (∀ g, missing t path → 0 <= md_path_permission_verified x →
           ∃ l t' m, lookup (S g) path None t = Ret (check_path_permissions (ctx t) (md_path_permission x), Some l) t' ∧
             heap_md t' !! l = Some m ∧ md m = x) ∧
        (∀ y m, is_suffix y → y ≠ [] → linkable_names db (path ++ y) (target ++ y) → ¬ anc path (target ++ y) →
           missing t (target ++ y) → loads t (target ++ y) m → settled 0 (md m) →
           ∃ l t', lookup (S (S f)) (path ++ y) None t = Ret (answer t (md m), Some l) t' ∧ heap_md t' !! l = Some m)).
Proof.
  intros Hok Hc (Hlog & Hfol & Hlag) Hlen Hr Hwe Hwx Hn Ha Hnn db' log'.
  assert (Hrep : replay log' PathMapDB_new = Ret true db') by (destruct Hn as (? & ? & ? & _); by apply linked_replay).
  destruct (hflat_symlink_run f s path target path ts ld pm time x log db' Hok Hc) as (s' & Hrun & Hok' & Hpm & Hlog' & Hoff); [done|by apply absolute_log_key|].
  destruct (created_inode _ _ _ _ _ _ _ _ _ _ Hc) as (Hty & Hmode & _ & _ & _ & Hino & _).
  exists s'. do 5 (split; [done|]). split; [by rewrite Hmode|]. split; [|intros t Ht; split; [|intros Hdt Hokt; split]].
  - intros t Hdt Hft Hbehind. rewrite <- Hdt. apply (update_behind log'); [by rewrite Hdt|done|lia|lia|exact Hrep].
  - intros buffer Hb. by eapply linked_read.
  - intros g Hmiss Hv. set (m := setMD x (env_uuid (uuids_used s)) (MetadataInfo_new path)). destruct (lookup_missing g path None t path 0 m Hokt) as (w & _ & Hl); [rewrite Ht; by apply linked_self|done|done| | |].
    + unfold loads. rewrite Hdt, Hoff by (by apply absolute_log_key). unfold created_drive. rewrite lookup_insert_eq.
      exists x. split; [by apply parse_serialize|done].
    + right. cbn. by rewrite Hty.
    + exists (next_loc t), (loaded t w path m), m. split; [|split; [apply lookup_insert_eq|done]].
      unfold answer in Hl. change (md m) with x in Hl. by rewrite (proj2 (Z.eqb_neq _ _) Hino) in Hl.
  - intros y m Hy Hne Hny Hay Hmiss Hm Hset.
    destruct (lookup_missing (S f) (path ++ y) None t (target ++ y) 0 m Hokt) as (w & _ & Hl); [rewrite Ht; by apply linked_below|done|done|done|done|].
    eexists _, _. split; [exact Hl|]. apply lookup_insert_eq.
Qed.
End SymlinkFacts.

(** ** Witness: [ln -s /f /l], where [/f] is a directory with the file [/f/x] *)

#[local] Existing Instance demo_env.
#[local] Existing Instance demo_metadata_spec.
#[local] Existing Instance demo_entries.

Definition demo_link_inode : Metadata := mk_Metadata POSIX 1000 1000 1000 0 0 symlink_mode 1 1 0 0 [] 0 [] [].
Definition demo_linker : hflat_priv store := demo_rooted_at demo_nested.

Lemma demo_link_creatable : creatable 1 demo_linker (lit "/l") (lit "/l") 0 1 demo_root_md 1 symlink_mode demo_link_inode.
Proof.
  split; try (by vm_compute).
  - exists 0. split; [by vm_compute|done].
  - split; [|split; [discriminate|by right]]. exact (loaded_held _ demo_nested _ _ (demo_mount_ok _) demo_nested_root).
Qed.

Lemma demo_linkable_names (y : cstr) : y = [] ∨ y = lit "/x" → linkable_names PathMapDB_new (lit "/l" ++ y) (lit "/f" ++ y).
Proof.
  intros [-> | ->]; (split; [apply short_path_ok; vm_compute; reflexivity|split; [apply short_path_ok; vm_compute; reflexivity|split; [apply nothing_mapped|split; [apply nothing_mapped|]]]]);
    by apply anc_dec_false.
Qed.

Lemma symlink_leads_to_target_witness :
  ∃ s' t l t', hflat_symlink 2 (lit "/f") (lit "/l") demo_linker = Ret 0 s' ∧ database_update (demo_mount (kinetic s')) = Ret 0 t ∧
    hflat_readlink 2 (lit "/l") (lit "abcdefg") 7 t = Ret (0, lit "/f" ++ Ascii.zero :: lit "defg") t ∧
    lookup 2 (lit "/l/x") None t = Ret (0, Some l) t' ∧ heap_md t' !! l = Some demo_child_md.
Proof.
  destruct (symlink_leads_to_target 0 demo_linker (lit "/l") (lit "/f") 0 1 demo_root_md 1 demo_link_inode [] PathMapDB_new)
    as (s' & H1 & _ & _ & H2 & H3 & _ & H4 & H5).
  - apply demo_rooted_at_ok, demo_nested_root.
  - exact demo_link_creatable.
  - split; [exact demo_no_log|]. split; [exact (consistent_new [])|discriminate].
  - reflexivity.
  - reflexivity.
  - exact I.
  - vm_compute. reflexivity.
  - apply (demo_linkable_names []). by left.
  - exists (lit "l"). reflexivity.
  - vm_compute. set_solver.
  - destruct (H4 (demo_mount (kinetic s')) eq_refl (consistent_new _)) as (w & H6 & H7); [split; [reflexivity|discriminate]|].
    set (t := set_pmap _ _) in H6. destruct (H5 t eq_refl) as (H8 & H9).
    assert (Hok : cache_ok t) by (split; apply (demo_mount_ok (kinetic s'))).
    assert (Hdt : drive t = drive s') by exact H7.
    assert (Hload : loads t (lit "/f/x") demo_child_md).
    { assert (Hd : drive t !! lit "/f/x" = demo_nested !! lit "/f/x").
      { rewrite Hdt, H3 by reflexivity. vm_compute. reflexivity. }
      unfold loads. rewrite Hd. exact demo_nested_child. }
    assert (Hs : is_suffix (lit "/x")) by (right; exists (lit "x"); reflexivity).
    assert (Hanc : ¬ anc (lit "/l") (lit "/f" ++ lit "/x")) by (apply anc_dec_false; [reflexivity|discriminate]).
    assert (Hset : settled 0 (md demo_child_md)) by (right; split; [discriminate|split; [discriminate|apply Z.le_refl]]).
    destruct (H9 Hdt Hok) as (_ & H10).
    destruct (H10 (lit "/x") demo_child_md Hs ltac:(discriminate) (demo_linkable_names _ (or_intror eq_refl)) Hanc (demo_missing _ _) Hload Hset)
      as (l & t' & H11 & H12).
    exists s', t, l, t'. split; [exact H1|]. split; [exact H6|]. split; [apply (H8 (lit "abcdefg")); discriminate|]. split; [exact H11|exact H12].
Defined.

(** ** A client that was mounted before the link was made *)

Definition demo_before_link : hflat_priv store := demo_mount (drive (state_after (hflat_symlink 2 (lit "/f") (lit "/l") demo_linker) demo_linker)).

(** Unlike a move, a link leaves nothing behind that makes the clients that meet it
    follow the log: such a client finds the inode of the link, and [readlink] answers
    with the link's own name; below the link it finds nothing. *)
Theorem stale_client_reads_own_name :
  result_of (hflat_readlink 2 (lit "/l") (lit "abcdefg") 7 demo_before_link) = Some (0, lit "/l" ++ Ascii.zero :: lit "defg") ∧
  result_of ((let! r := lookup 2 (lit "/l") None in let! l := non_null r.2 in let! m := getMD l in mret_ (r.1, S_ISLNK (md_mode m))) demo_before_link) = Some (0, true) ∧
  fst <$> result_of (lookup 2 (lit "/l/x") None demo_before_link) = Some (- ENOENT).
Proof. vm_compute. repeat split. Qed.
