(* ===== verification/RefreshFacts.v ===== *)
(** * Permission changes reach the files below

    A change of a directory's permissions is one entry in the log; every inode below
    it is then older than the path map demands, and the first lookup of each takes
    over the permissions of its directory ({!Lookup.lookup_permissions}). This file
    is about such a lookup on a reliable namespace. *)
From S2P Require Import Prelude CppString Proto PathMapDB LRUCache DataInfo MetadataInfo Kinetic FsState Demo KineticHelper Util Lookup Directory File Data Rename Permission PermissionOps HelperFacts LookupFacts CreateFacts RenameFacts.

Section RefreshFacts.
Context {W : Type} `{!Env} `{!KineticNamespace W} `{!KineticNamespaceSpec W} `{!KineticReliable W}.
Implicit Types (s t : hflat_priv W) (m pm : MetadataInfo) (x : Metadata) (key path : cstr).

(** A new time for an entry. *)
Lemma revalidate_nodes (c c' : LRUcache (list ascii) loc) key now : revalidate key now c = Ret tt c' →
  ce_data <$> cache c' = ce_data <$> cache c ∧ lookup_ c' = lookup_ c ∧ blocked_keys c' = blocked_keys c ∧ capacity c' = capacity c.
Proof.
  unfold revalidate. destruct (lookup_ c !! key) as [id|]; [|by intros [= <-]]. destruct (find_node id (cache c)); [|done]. intros [= <-].
  split; [|done]. cbn. rewrite <- list_fmap_compose. apply list_fmap_ext. intros i e _. unfold compose, set_time. by case_match.
Qed.

(** A write of an inode at the version it was read with, its key cached or not. *)
Lemma put_metadata_ok s l m : cache_ok s → heap_md s !! l = Some m →
  version_matches (drive s) (systemPath m) (keyVersion m) REQUIRE_SAME_VERSION →
  ∃ w c, let s' := set_lookup_cache c (tick_steady (with_md (set_kinetic w (tick_uuid s)) l (setKeyVersion (env_uuid (uuids_used s)) m))) in
    put_metadata l s = Ret 0 s' ∧ contents w = <[systemPath m := md_record s m]> (drive s) ∧ cache_ok s'.
Proof.
  intros Hok Hm Hv. unfold put_metadata, generate_uuid. rewrite mbind_lam. fold (tick_uuid s). step_by (deref_md_run l (tick_uuid s) m Hm).
  fold (md_record s m). destruct (k_Put_ok (systemPath m) (keyVersion m) REQUIRE_SAME_VERSION (md_record s m) (tick_uuid s) Hv) as (w & Hput & Hw).
  step_by Hput. cbn [is_ok negb]. unfold write_md, modify_. rewrite mbind_lam. set (s1 := set_heap _ _ _ _).
  assert (Hok1 : cache_ok s1) by (by apply (cache_ok_frame s s1 l m (setKeyVersion (env_uuid (uuids_used s)) m) Hok Hm)).
  destruct (revalidate_total _ (lookup_cache s1) (systemPath m) (env_steady (steady_used s1)) (ok_wf _ Hok1)) as (c & Hr & Hwf).
  assert (Hlr : lc_revalidate (systemPath m) s1 = Ret tt (set_lookup_cache c (tick_steady s1))).
  { unfold lc_revalidate, mbind_, steady_now, zoom. cbn [lookup_cache set_inputs]. by rewrite Hr. }
  step_by Hlr. exists w, c. split; [done|]. split; [exact Hw|]. split; [exact Hwf| |exact (ok_fresh _ Hok1)].
  intros e Hin. apply revalidate_nodes in Hr as (Hr & _).
  assert (ce_data e ∈ ce_data <$> cache (lookup_cache s1)) as (e0 & -> & Hin0)%list_elem_of_fmap by (rewrite <- Hr; by apply list_elem_of_fmap_2).
  exact (ok_allocated _ Hok1 e0 Hin0).
Qed.

(** The parent is a directory the client has cached and whose own path permissions
    are up to date, the inode of [path] is on the drives and older. *)
Record stale_child f s path key (ts : Z) (ld : loc) pm m x : Prop := {
  t_path : toSystemPath (S (S f)) (pmap_ s) path LOOKUP = Some (key, ts) ∧ 0 <= ts ∧ md_path_permission_verified (md m) < ts;
  t_child : missing s key ∧ loads s key m ∧ is_Some (drive s !! key) ∧ md_type (md m) = POSIX;
  t_slash : find_last_of (lit "/:") path ≠ npos;
  t_parent : ∃ pts, toSystemPath (S f) (pmap_ s) (parent_path path) LOOKUP = Some (systemPath pm, pts) ∧
               0 <= pts <= md_path_permission_verified (md pm);
  t_held : ∃ time, held s (systemPath pm) ld pm time ∧ systemPath pm ≠ key ∧
             timely (lookup_cache s) (env_steady (2 + steady_used s)) time;
  t_dir : md_inode_number (md pm) ≠ 0 ∧ md_type (md pm) = POSIX ∧ S_ISDIR (md_mode (md pm)) = true;
  t_inode : inherit_path_permissions (md pm) (md m) = Ret tt x;
}.

(** A client whose path map has moved on. *)
Lemma set_pmap_ok s db : cache_ok s → cache_ok (set_pmap db s).
Proof. intros [? ? ?]. by split. Qed.

Lemma set_pmap_missing s db key : missing s key → missing (set_pmap db s) key.
Proof. done. Qed.

Lemma set_pmap_held s db key (l : loc) m time : held s key l m time → held (set_pmap db s) key l m time.
Proof. done. Qed.

(** What looking up the parent answers when its object is cached. *)
Lemma parent_answer f s path pts (ld : loc) pm time : cache_ok s → find_last_of (lit "/:") path ≠ npos →
  toSystemPath (S f) (pmap_ s) (parent_path path) LOOKUP = Some (systemPath pm, pts) → 0 <= pts <= md_path_permission_verified (md pm) →
  held s (systemPath pm) ld pm time → timely (lookup_cache s) (now_of s) time →
  md_inode_number (md pm) ≠ 0 → md_type (md pm) = POSIX → S_ISDIR (md_mode (md pm)) = true →
  ∃ err c', (err = 0 ∨ err = - EACCES) ∧
    lookup_parent_with (lookup (S f)) path None s = Ret (err, Some ld) (set_lookup_cache c' (tick_steady s)) ∧
    reordered (md_getKey s) (lookup_cache s) c'.
Proof.
  intros Hok Hpos Hp Hpts Hh Ht Hino Hty Hdir.
  destruct (lookup_held f (parent_path path) None s (systemPath pm) pts ld pm time Hok Hp ltac:(lia) Hh Ht) as (c' & Hl & Hr).
  { right. rewrite Hty. by split; [|split; [|lia]]. }
  unfold answer in Hl. rewrite (proj2 (Z.eqb_neq _ _) Hino) in Hl. set (s1 := set_lookup_cache c' (tick_steady s)) in *.
  destruct (check_pp_codes (ctx s) (md_path_permission (md pm))) as [E|E]; rewrite E in Hl.
  - assert (Hm1 : heap_md s1 !! ld = Some pm) by apply Hh.
    exists (check_path_permissions (ctx s1) (md_path_permission_children (md pm))), c'.
    split; [apply check_pp_codes|]. split; [|done]. exact (lookup_parent_run (S f) path None s s1 0 ld pm Hpos Hl eq_refl Hm1 Hdir).
  - exists (- EACCES), c'. split; [by right|]. split; [|done]. unfold lookup_parent_with.
    destruct (Z.eqb_spec (find_last_of (lit "/:") path) npos); [done|]. fold (parent_path path). by step_by Hl.
Qed.

Lemma on_metadata_run {A} (op : M Metadata A) l s m a x : heap_md s !! l = Some m → op (md m) = Ret a x →
  on_metadata l op s = Ret a (with_md s l (on_md (λ _, x) m)).
Proof. intros Hm Hop. unfold on_metadata. step_by (deref_md_run l s m Hm). unfold zoom. by rewrite Hop. Qed.

Lemma loads_version s key m : loads s key m → is_Some (drive s !! key) →
  version_matches (drive s) key (keyVersion m) REQUIRE_SAME_VERSION ∧ md_inode_number (md m) ≠ 0.
Proof. unfold loads. intros Hm [r Hr]. rewrite Hr in Hm. destruct Hm as (x & _ & ? & ->). split; [|done]. cbn. by rewrite Hr. Qed.

Lemma lookup_stale f s path key ts (ld : loc) pm m x p : cache_ok s → stale_child f s path key ts ld pm m x →
  ∃ s', lookup (S (S f)) path p s = Ret (check_path_permissions (ctx s) (md_path_permission x), Some (next_loc s)) s' ∧
    drive s' = <[key := mk_KineticRecord (SerializeAsString x) (env_uuid (uuids_used s))]> (drive s) ∧
    (∃ v, heap_md s' !! next_loc s = Some (setKeyVersion v (on_md (λ _, x) m))) ∧ pmap_ s' = pmap_ s.
Proof.
  intros Hok [(Hp & Hts & Hv) (Hmiss & Hm & Hsome & Hty) Hpos (pts & Hpp & Hpts) (time & Hh & Hne & Ht) (Hpi & Hpt & Hpd) Hx].
  destruct (loads_version s key m Hm Hsome) as (Hver & Hino). pose proof (loads_path s key m Hm) as Hk.
  destruct (lookup_missing_stored (S f) path p s key ts m Hok Hp Hts Hmiss Hm Hsome) as (w & Hw & ->); [by rewrite Hty|by rewrite Hty|].
  set (s1 := loaded s w key m). set (l := next_loc s).
  assert (Hok1 : cache_ok s1) by (by apply loaded_ok). assert (Hm1 : heap_md s1 !! l = Some m) by apply lookup_insert_eq.
  destruct (parent_answer f s1 path pts ld pm time Hok1 Hpos Hpp Hpts) as (err & c' & Herr & Hl & Hr); [|exact Ht|done..|].
  { by apply loaded_held_other. }
  set (s2 := set_lookup_cache c' (tick_steady s1)) in *. pose proof (reordered_ok s1 c' Hok1 Hr) as Hok2. fold s2 in Hok2.
  assert (Hpm2 : heap_md s2 !! ld = Some pm) by (by apply (loaded_held_other s w key m) in Hh as (_ & ? & _)).
  pose proof (on_metadata_run (inherit_path_permissions (md pm)) l s2 m tt x Hm1 Hx) as Hinh. set (m3 := on_md (λ _, x) m) in *.
  set (s3 := with_md s2 l m3) in *. assert (Hm3 : heap_md s3 !! l = Some m3) by apply lookup_insert_eq.
  assert (Hok3 : cache_ok s3) by (by apply (cache_ok_frame s2 s3 l m m3)).
  assert (Hd3 : drive s3 = drive s) by exact Hw.
  destruct (put_metadata_ok s3 l m3 Hok3 Hm3) as (w' & c3 & Hput & Hd & _); [by rewrite Hd3; cbn; rewrite Hk|]. set (s' := set_lookup_cache c3 _) in Hput.
  assert (Hm' : heap_md s' !! l = Some (setKeyVersion (env_uuid (uuids_used s3)) m3)) by apply lookup_insert_eq.
  exists s'. split; [|split; [|split; [eauto|done]]].
  - unfold lookup_permissions. step_by (getMD_run l s1 m Hm1). destruct (Z.ltb_spec (md_path_permission_verified (md m)) ts); [|lia].
    step_by Hl. assert (negb (err =? 0) && negb (err =? - EACCES) = false) as -> by (by destruct Herr as [->| ->]).
    cbn [non_null]. rewrite mbind_ret_l. step_by (getMD_run ld s2 pm Hpm2). step_by Hinh. step_by Hput.
    change (0 =? - EAGAIN) with false. cbn [negb Z.eqb]. step_by (getMD_run l s' _ Hm'). unfold get_. by rewrite mbind_lam.
  - change (drive s') with (contents w'). rewrite Hd, Hd3. cbn [systemPath on_md m3]. by rewrite Hk.
Qed.

(** C25: a change of permissions reaches the files below. The client has the
    directory in its cache, and the directory's own path permissions are up to date;
    the inode of [path] is not cached and older than the last change of permissions
    above it. A lookup then answers by what the path to the directory and the
    directory itself now demand, not by what the inode says; it writes these to the
    inode, at the version it was read with, and changes nothing else on the drives.
    From then on every client that has not cached the inode and reads it finds it up
    to date, gets the same answer for the same caller, and writes nothing. If the
    directory is out of date as well, the lookup rewrites its inode too, which is
    not covered. *)
Theorem stale_permissions_refreshed `{!MessageSpec Metadata} f s path key ts (ld : loc) pm m x p :
  cache_ok s → stale_child f s path key ts ld pm m x → msg_wf x →
  let demanded := md_path_permission (md pm) ++ md_path_permission_children (md pm) in
  ∃ l s', lookup (S (S f)) path p s = Ret (check_path_permissions (ctx s) demanded, Some l) s' ∧
    drive s' = <[key := mk_KineticRecord (SerializeAsString x) (env_uuid (uuids_used s))]> (drive s) ∧
    md_path_permission x = demanded ∧ md_path_permission_verified x = md_path_permission_verified (md pm) ∧
    md_mode x = md_mode (md m) ∧ md_uid x = md_uid (md m) ∧ md_gid x = md_gid (md m) ∧
    md_inode_number x = md_inode_number (md m) ∧
    ∀ t ts' p', drive t = drive s' → cache_ok t → missing t key →
      toSystemPath (S f) (pmap_ t) path LOOKUP = Some (key, ts') → 0 <= ts' <= md_path_permission_verified (md pm) →
      ∃ lt t', lookup (S f) path p' t = Ret (check_path_permissions (ctx t) demanded, Some lt) t' ∧ drive t' = drive t.
Proof.
  intros Hok Hst Hwf demanded. destruct (lookup_stale f s path key ts ld pm m x p Hok Hst) as (s' & Hl & Hd & _ & _).
  destruct Hst as [_ (_ & Hm & Hsome & Hty) _ _ _ _ Hx]. destruct (loads_version s key m Hm Hsome) as (_ & Hino).
  destruct (inherit_pp _ _ _ Hx) as (Hpp & Hmode & Hu & Hg & Hver & _). destruct (inherit_identity _ _ _ Hx) as (Hxt & Hxi).
  fold demanded in Hpp. rewrite Hpp in Hl. exists (next_loc s), s'. do 8 (split; [done|]). intros t ts' p' Hdt Hokt Hmiss Hp Hts.
  set (m' := setMD x (env_uuid (uuids_used s)) (MetadataInfo_new key)).
  destruct (lookup_missing f path p' t key ts' m' Hokt Hp ltac:(lia) Hmiss) as (w & Hw & Hlt).
  - unfold loads. rewrite Hdt, Hd, lookup_insert_eq. exists x. split; [by apply parse_serialize|]. split; [by rewrite Hxi|done].
  - right. cbn. rewrite Hxt, Hty, Hver. by split; [|split; [|lia]].
  - exists (next_loc t), (loaded t w key m'). split; [|exact Hw]. rewrite Hlt. unfold answer. cbn [md setMD m'].
    rewrite Hxi, (proj2 (Z.eqb_neq _ _) Hino), Hpp. done.
Qed.
End RefreshFacts.

(** ** Witness: the directory [/f] has become private *)

#[local] Existing Instance demo_env.
#[local] Existing Instance demo_metadata_spec.

(** Version 1 of the path map: the permissions of [/f] have changed. *)
Definition demo_changed : PathMapDB := mk_PathMapDB 1 {[ lit "/f" := mk_PMEntry NONE [] 1 ]}.

Definition demo_private : Metadata :=
  mk_Metadata POSIX 5 5 5 0 0 (Z.lor S_IFDIR 448) 7 1 0 0 [] 1 [] [mk_ReachabilityEntry UID 0 0].
Definition demo_private_md : MetadataInfo := setMD demo_private (lit "r1") (MetadataInfo_new (lit "/f")).
Definition demo_below : Metadata := mk_Metadata POSIX 5 5 5 0 0 (Z.lor S_IFREG 420) 8 1 0 0 [] 0 [] [].
Definition demo_below_md : MetadataInfo := setMD demo_below (lit "r2") (MetadataInfo_new (lit "/f/x")).
Definition demo_refreshed : Metadata := set_path_permission [mk_ReachabilityEntry UID 0 0] (set_path_permission_verified 1 demo_below).

Definition demo_outdated : store :=
  <[ lit "/f" := mk_KineticRecord (SerializeAsString demo_private) (lit "r1") ]>
  (<[ lit "/f/x" := mk_KineticRecord (SerializeAsString demo_below) (lit "r2") ]> demo_drive).

(** Root, having looked up [/f], at version 1. *)
Definition demo_owner : hflat_priv store := set_pmap demo_changed (demo_two demo_outdated demo_private_md).

Lemma demo_outdated_root : loads (demo_mount demo_outdated) (lit "/") demo_root_md.
Proof. exists demo_root. split; [by vm_compute|done]. Qed.

Lemma demo_outdated_dir : loads (demo_mount demo_outdated) (lit "/f") demo_private_md.
Proof. exists demo_private. split; [by vm_compute|done]. Qed.

(** A client that has looked up the root and [/f]. *)
Lemma demo_two_ok d m : loads (demo_mount d) (lit "/") demo_root_md → loads (demo_mount d) (lit "/f") m →
  cache_ok (demo_two d m) ∧ held (demo_two d m) (lit "/f") 2 m 3.
Proof.
  intros Hr Hf. pose proof (demo_rooted_at_ok d Hr) as Hok. split; [|exact (loaded_held (demo_rooted_at d) d (lit "/f") m Hok Hf)].
  apply loaded_ok; [done|by apply demo_rooted_at_missing|exact Hf].
Qed.

Lemma demo_user_ok uid d db key : cache_ok (set_pmap db (demo_user uid d)) ∧ missing (set_pmap db (demo_user uid d)) key.
Proof.
  split; [apply set_pmap_ok; split; [apply wf_new|cbn; set_solver|intros; apply lookup_empty]|].
  apply set_pmap_missing. split; [cbn; set_solver|]. split; [apply lookup_empty|done].
Qed.

Lemma demo_owner_ok : cache_ok demo_owner ∧ held demo_owner (lit "/f") 2 demo_private_md 3.
Proof.
  destruct (demo_two_ok demo_outdated demo_private_md demo_outdated_root demo_outdated_dir) as [H1 H2].
  split; [exact (set_pmap_ok _ demo_changed H1)|exact (set_pmap_held _ demo_changed _ _ _ _ H2)].
Qed.

Lemma demo_stale_child : stale_child 0 demo_owner (lit "/f/x") (lit "/f/x") 1 2 demo_private_md demo_below_md demo_refreshed.
Proof.
  split.
  - split; [vm_compute; reflexivity|]. split; [discriminate|reflexivity].
  - split; [apply (set_pmap_missing (demo_two demo_outdated demo_private_md)), demo_two_missing; discriminate|].
    split; [exists demo_below; split; [by vm_compute|done]|]. split; [vm_compute; by eexists|reflexivity].
  - discriminate.
  - exists 1. split; [vm_compute; reflexivity|done].
  - exists 3. split; [exact (proj2 demo_owner_ok)|].
    split; [discriminate|by left].
  - split; [discriminate|]. split; reflexivity.
  - reflexivity.
Qed.

Lemma stale_permissions_refreshed_witness :
  ∃ l s' l' t', lookup 2 (lit "/f/x") None demo_owner = Ret (0, Some l) s' ∧
    lookup 1 (lit "/f/x") None (set_pmap demo_changed (demo_user 1000 (kinetic s'))) = Ret (- EACCES, Some l') t'.
Proof.
  destruct (stale_permissions_refreshed 0 demo_owner (lit "/f/x") (lit "/f/x") 1 2 demo_private_md demo_below_md demo_refreshed None)
    as (l & s' & H1 & _ & _ & _ & _ & _ & _ & _ & H2).
  - exact (proj1 demo_owner_ok).
  - exact demo_stale_child.
  - vm_compute. reflexivity.
  - destruct (H2 (set_pmap demo_changed (demo_user 1000 (kinetic s'))) 1 None) as (l' & t' & H3 & _).
    + reflexivity.
    + apply (demo_user_ok 1000 _ demo_changed []).
    + apply (demo_user_ok 1000 _ demo_changed (lit "/f/x")).
    + vm_compute. reflexivity.
    + split; [discriminate|]. vm_compute. discriminate.
    + exists l, s', l', t'. split; [exact H1|exact H3].
Defined.

(** ** A permission change that hides another *)

Definition demo_setup : hflat_priv store :=
  after_run (hflat_mkdir 5 (lit "/p") 493 ;;; hflat_mkdir 5 (lit "/p/d") 448 ;;; hflat_create 5 (lit "/p/d/f") (Z.lor S_IFREG 420))
    (demo_user 0 demo_tree).

(** One client closes [/p] to others; then another, which has not read the log,
    opens [/p/d]. *)
Definition demo_closed : hflat_priv store := after_run (hflat_chmod 5 (lit "/p") (Z.lor S_IFDIR 488)) demo_setup.
Definition demo_reopened : hflat_priv store :=
  after_run (hflat_chmod 5 (lit "/p/d") (Z.lor S_IFDIR 493)) (demo_user 0 (drive demo_closed)).

(** What user 1000 is told of a path at a client that follows the log. *)
Definition demo_told (s : hflat_priv store) (path : cstr) : option Z :=
  fst <$> result_of ((database_update ;;; lookup 5 path None) (demo_user 1000 (drive s))).

(** [do_permission_change] marks the path permissions of the directory as up to date
    at the version its own entry has got, also when entries of other clients came
    between the lookup and its own. Their change of [/p] is then never passed on
    to [/p/d], nor to anything below it: the paths in the closed directory are
    accessible to everybody. *)
Theorem chmod_hides_permission_change :
  demo_told demo_closed (lit "/p/d") = Some (- EACCES) ∧ demo_told demo_closed (lit "/p/d/f") = Some (- EACCES) ∧
  demo_told demo_reopened (lit "/p/d") = Some 0 ∧ demo_told demo_reopened (lit "/p/d/f") = Some 0 ∧
  check_path_permissions (mk_fuse_context 1000 1000) [mk_ReachabilityEntry UID_OR_GID 0 0] = - EACCES ∧
  (r ← drive demo_reopened !! lit "/p"; x ← @ParseFromString _ (@env_metadata demo_env) (kr_value r); Some (md_path_permission_children x)) =
    Some [mk_ReachabilityEntry UID_OR_GID 0 0].
Proof. vm_compute. repeat split. Qed.
