(* ===== verification/HardlinkFacts.v ===== *)
(** * Hard links

    {!Link.hflat_hardlink} of a file that has one name, run as a whole on a reliable
    namespace, and the lookups of both names afterwards: each finds a record that
    forwards to the key of the shared inode. *)
From S2P Require Import Prelude CppString Proto PathMapDB LRUCache DataInfo MetadataInfo Kinetic FsState Demo KineticHelper Util Lookup Directory File Data Link Rename Permission HelperFacts FuseFacts LookupFacts CreateFacts RenameFacts MoveFacts.

Section HardlinkFacts.
Context {W : Type} `{!Env} `{!KineticNamespace W} `{!KineticNamespaceSpec W} `{!KineticReliable W}.
Implicit Types (s t : hflat_priv W) (m : MetadataInfo) (key path : cstr).

(** ** Writes beside the cache *)

(** The objects at [ls] and new ones may differ, the cache does not. *)
Record aside (ls : list loc) s s' : Prop := {
  a_cache : lookup_cache s' = lookup_cache s;
  a_next : (next_loc s <= next_loc s')%nat;
  a_heap : ∀ l, (l < next_loc s)%nat → l ∉ ls → heap_md s' !! l = heap_md s !! l;
  a_fresh : (∀ l, (next_loc s <= l)%nat → heap_md s !! l = None) → ∀ l, (next_loc s' <= l)%nat → heap_md s' !! l = None;
  a_same : ctx s' = ctx s ∧ posix s' = posix s ∧ pmap_ s' = pmap_ s;
}.

Lemma aside_trans ls s1 s2 s3 : aside ls s1 s2 → aside ls s2 s3 → aside ls s1 s3.
Proof.
  intros [Hc1 Hn1 Hh1 Hf1 (Hx1 & Hp1 & Hm1)] [Hc2 Hn2 Hh2 Hf2 (Hx2 & Hp2 & Hm2)]. split; [congruence|lia| |auto|by rewrite Hx2, Hp2, Hm2].
  intros l Hl Hls. rewrite Hh2, Hh1 by (done || lia). done.
Qed.

Lemma aside_mono ls ls' s s' : aside ls s s' → ls ⊆ ls' → aside ls' s s'.
Proof. intros [Hc Hn Hh Hf Hs] Hls. split; [done|done| |done|done]. intros l Hl Hn'. apply Hh; [done|]. intros Hin. by apply Hn', Hls. Qed.

(** Only the drives, the clocks and the counter of names moved. *)
Lemma aside_frame ls s s' : heap_md s' = heap_md s → lookup_cache s' = lookup_cache s → next_loc s' = next_loc s →
  ctx s' = ctx s → posix s' = posix s → pmap_ s' = pmap_ s → aside ls s s'.
Proof. intros Hh Hc Hn ???. split; [done|lia|by rewrite Hh|by rewrite Hh, Hn|done]. Qed.

Lemma aside_with_md ls s (l : loc) m : l ∈ ls → (l < next_loc s)%nat → aside ls s (with_md s l m).
Proof.
  intros Hl Hlt. split; [done|done| | |done].
  - intros l' _ Hn. cbn. rewrite lookup_insert_ne; [done|]. intros ->. done.
  - intros Hf l' Hl'. cbn in *. rewrite lookup_insert_ne by lia. by apply Hf.
Qed.

Lemma aside_new ls s m : aside ls s (set_heap (<[next_loc s := m]> (heap_md s)) (heap_di s) (S (next_loc s)) s).
Proof.
  split; [done|cbn; lia| | |done].
  - intros l Hl _. cbn. by rewrite lookup_insert_ne by lia.
  - intros Hf l Hl. cbn in *. rewrite lookup_insert_ne by lia. apply Hf. lia.
Qed.

(** The cache stays well formed if it does not point to these objects. *)
Lemma aside_ok ls s s' : cache_ok s → aside ls s s' → (∀ l, l ∈ ls → lookup_ (lookup_cache s) !! md_getKey s l = None) → cache_ok s'.
Proof.
  intros Hok [Hc Hn Hh Hf _] Hls. pose proof Hok as [Hwf Ha Hfr]. apply (cache_ok_uncached s s'); [done..| |by apply Hf].
  intros e Hin. apply Hh; [by apply Ha|]. intros Hl. pose proof (wf_node _ _ e Hwf Hin) as Hlk. by rewrite Hls in Hlk.
Qed.

(** An inode written at the version it was read with, its key not cached. *)
Lemma put_metadata_uncached s (l : loc) m : heap_md s !! l = Some m → lookup_ (lookup_cache s) !! systemPath m = None →
  version_matches (drive s) (systemPath m) (keyVersion m) REQUIRE_SAME_VERSION →
  ∃ w, put_metadata l s = Ret 0 (tick_steady (with_md (set_kinetic w (tick_uuid s)) l (setKeyVersion (env_uuid (uuids_used s)) m))) ∧
    contents w = <[systemPath m := md_record s m]> (drive s).
Proof.
  intros Hm Hl Hv. unfold put_metadata, generate_uuid. rewrite mbind_lam. fold (tick_uuid s). step_by (deref_md_run l (tick_uuid s) m Hm).
  fold (md_record s m). destruct (k_Put_ok (systemPath m) (keyVersion m) REQUIRE_SAME_VERSION (md_record s m) (tick_uuid s) Hv) as (w & Hput & Hw).
  exists w. split; [|exact Hw]. step_by Hput. cbn [is_ok negb]. unfold write_md, modify_. rewrite mbind_lam.
  change (set_heap _ _ _ _) with (with_md (set_kinetic w (tick_uuid s)) l (setKeyVersion (env_uuid (uuids_used s)) m)).
  set (s1 := with_md _ l _). assert (Hlr : lc_revalidate (systemPath m) s1 = Ret tt (tick_steady s1)); [|by step_by Hlr].
  unfold lc_revalidate, mbind_, steady_now, zoom, revalidate. cbn [lookup_cache set_inputs].
  change (lookup_cache s1) with (lookup_cache s). by rewrite Hl.
Qed.

(** ** Steps that succeed *)

Lemma on_ok_run (x k : M (hflat_priv W) Z) s s1 : x s = Ret 0 s1 → on_ok x k s = k s1.
Proof. intros Hx. unfold on_ok. by step_by Hx. Qed.

Lemma on_ok_inv (x k : M (hflat_priv W) Z) s s' : on_ok x k s = Ret 0 s' → ∃ s1, x s = Ret 0 s1 ∧ k s1 = Ret 0 s'.
Proof.
  unfold on_ok. intros (e & s1 & Hx & Hk)%mbind_Ret_inv. destruct (Z.eqb_spec e 0) as [->|He]; [eauto|].
  injection Hk as ->. done.
Qed.

(** ** The records *)

(** The forwarding inode, and the shared one. *)
Definition source_md (n : Z) : Metadata := set_link_count 1 (set_inode_number n (set_type HARDLINK_S default_Metadata)).
Definition source_record s (i : nat) (n : Z) : KineticRecord := mk_KineticRecord (SerializeAsString (source_md n)) (env_uuid (i + uuids_used s)).
Definition shared_md s m : Metadata :=
  let x := updateACtime (env_time (time_used s)) (set_type HARDLINK_T (md m)) in set_link_count (md_link_count x + 1) x.
Definition shared_record s m : KineticRecord := mk_KineticRecord (SerializeAsString (shared_md s m)) (env_uuid (2 + uuids_used s)).

Definition shared_key m : cstr := hardlink_key (md_inode_number (md m)).

(** The target's object when it stands for the shared inode. *)
Definition as_target s m : MetadataInfo :=
  setKeyVersion (env_uuid (1 + uuids_used s)) (on_md (set_type HARDLINK_T) (setSystemPath (shared_key m) m)).

(** The name's inode is overwritten by the forwarding one first. *)
Lemma toHardlinkT_source s (lt : loc) m : heap_md s !! lt = Some m → (lt < next_loc s)%nat → md_type (md m) = POSIX →
  lookup_ (lookup_cache s) !! systemPath m = None → version_matches (drive s) (systemPath m) (keyVersion m) REQUIRE_SAME_VERSION →
  ∃ s4, toHardlinkT lt s = (required (create_metadata lt) ;;; mret_ 0) s4 ∧ aside [lt] s s4 ∧
    heap_md s4 !! lt = Some (on_md (set_type HARDLINK_T) (setSystemPath (shared_key m) m)) ∧
    uuids_used s4 = (1 + uuids_used s)%nat ∧ time_used s4 = time_used s ∧
    drive s4 = <[systemPath m := source_record s 0 (md_inode_number (md m))]> (drive s).
Proof.
  intros Hm Hlt Hty Hl Hv. set (l1 := next_loc s).
  set (m1 := setKeyVersion (keyVersion m) (MetadataInfo_new (systemPath m))).
  set (s1 := set_heap (<[l1 := m1]> (heap_md s)) (heap_di s) (S l1) s).
  set (m2 := on_md (λ x, set_link_count 1 (set_inode_number (md_inode_number (md m)) (set_type HARDLINK_S x))) m1).
  set (m3 := on_md (set_type HARDLINK_T) (setSystemPath (shared_key m) m)). set (s3 := with_md (with_md s1 l1 m2) lt m3).
  assert (Hm2 : heap_md s3 !! l1 = Some m2) by (cbn; rewrite lookup_insert_ne, lookup_insert_eq by lia; done).
  destruct (put_metadata_uncached s3 l1 m2 Hm2 Hl Hv) as (w1 & Hput & Hw1). set (s4 := tick_steady _) in Hput.
  exists s4. split; [|split; [|split; [|do 2 (split; [done|]); exact Hw1]]].
  - unfold toHardlinkT. step_by (deref_md_run lt s m Hm). rewrite bool_decide_true by done. unfold assert_ at 1. rewrite mbind_lam.
    unfold new_md. rewrite mbind_lam. fold l1. fold m1. change (set_heap _ _ _ s) with s1.
    assert (Hm1 : heap_md s1 !! l1 = Some m1) by apply lookup_insert_eq.
    step_by (change_md_run l1 s1 m1 (λ x, set_link_count 1 (set_inode_number (md_inode_number (md m)) (set_type HARDLINK_S x))) Hm1).
    unfold write_md, modify_. rewrite mbind_lam. fold (shared_key m). change (set_heap _ _ _ (set_heap _ _ _ s1)) with s3.
    unfold on_ok. step_by Hput. done.
  - split; [done|cbn; lia| | |done].
    + intros l Hl' [Hn _]%not_elem_of_cons. cbn. rewrite !lookup_insert_ne; [done|..]; first [lia|congruence].
    + intros Hf l Hl'. cbn in *. rewrite !lookup_insert_ne by lia. apply Hf. lia.
  - cbn. rewrite lookup_insert_ne, lookup_insert_eq by lia. done.
Qed.

Lemma toHardlinkT_run s (lt : loc) m : heap_md s !! lt = Some m → (lt < next_loc s)%nat → md_type (md m) = POSIX →
  lookup_ (lookup_cache s) !! systemPath m = None → version_matches (drive s) (systemPath m) (keyVersion m) REQUIRE_SAME_VERSION →
  shared_key m ≠ systemPath m → drive s !! shared_key m = None →
  ∃ s', toHardlinkT lt s = Ret 0 s' ∧ aside [lt] s s' ∧ heap_md s' !! lt = Some (as_target s m) ∧
    uuids_used s' = (2 + uuids_used s)%nat ∧ time_used s' = time_used s ∧
    drive s' = <[shared_key m := mk_KineticRecord (SerializeAsString (set_type HARDLINK_T (md m))) (env_uuid (1 + uuids_used s))]>
                 (<[systemPath m := source_record s 0 (md_inode_number (md m))]> (drive s)).
Proof.
  intros Hm Hlt Hty Hl Hv Hne Hnew. destruct (toHardlinkT_source s lt m Hm Hlt Hty Hl Hv) as (s4 & Hrun & Has & Hm4 & Hu & Ht & Hd).
  set (m3 := on_md (set_type HARDLINK_T) (setSystemPath (shared_key m) m)) in *.
  destruct (create_metadata_ok s4 lt m3 Hm4) as (w2 & Hcr & Hw2); [by rewrite Hd; cbn; rewrite lookup_insert_ne by done|].
  rewrite Hu in Hcr. set (s5 := with_md _ lt _) in Hcr. exists s5.
  split; [by rewrite Hrun, (required_run _ _ _ _ Hcr)|]. split; [|split; [apply lookup_insert_eq|split; [|split; [exact Ht|]]]].
  - apply (aside_trans _ s s4 s5 Has). split; [done|done| | |done].
    + intros l _ [Hn _]%not_elem_of_cons. cbn. by rewrite lookup_insert_ne by congruence.
    + intros Hf l Hl'. pose proof (a_next _ _ _ Has). cbn in *. rewrite lookup_insert_ne by lia. by apply Hf.
  - change (S (uuids_used s4) = (2 + uuids_used s)%nat). by rewrite Hu.
  - change (drive s5) with (contents w2). rewrite Hw2, Hd. unfold md_record. by rewrite Hu.
Qed.

(** ** The link *)

(** A regular file with one name, which is cached, and a new name in a directory
    that may be written. *)
Record linkable f h s target origin kt ko (lt ldt ldo : loc) mt dt dr : Prop := {
  k_files : files f (5 + h) s target origin kt ko lt ldt ldo mt dt dr;
  k_slash : find_last_of (lit "/:") target ≠ npos ∧ find_last_of (lit "/:") origin ≠ npos;
  k_dirs : S_ISDIR (md_mode (md dt)) = true ∧ S_ISDIR (md_mode (md dr)) = true;
  k_children : check_path_permissions (ctx s) (md_path_permission_children (md dt)) = 0 ∧
               check_path_permissions (ctx s) (md_path_permission_children (md dr)) = 0;
  k_access : check_access (ctx s) (md dt) W_OK = 0 ∧ check_access (ctx s) (md dr) W_OK = 0;
  k_origin : ∃ ts, toSystemPath (S f) (pmap_ s) origin LOOKUP = Some (ko, ts) ∧ 0 <= ts;
  k_posix : posix s = TIMERELAXED;
  k_file : S_ISDIR (md_mode (md mt)) = false ∧ md_type (md mt) = POSIX;
  k_keys : NoDup [kt; ko; shared_key mt; entry_to origin dr];
  k_stored : version_matches (drive s) kt (keyVersion mt) REQUIRE_SAME_VERSION;
  k_free : drive s !! ko = None ∧ drive s !! shared_key mt = None ∧ drive s !! entry_to origin dr = None;
  k_shared : missing s (shared_key mt);
}.

(** The state after the lookups and the two invalidations. *)
Record link_ready s s6 kt ko (lt lo ldo : loc) mt dr : Prop := {
  y_ok : cache_ok s6;
  y_drive : drive s6 = drive s;
  y_same : ctx s6 = ctx s ∧ posix s6 = posix s ∧ pmap_ s6 = pmap_ s ∧ time_used s6 = time_used s ∧ uuids_used s6 = uuids_used s;
  y_objects : heap_md s6 !! lt = Some mt ∧ heap_md s6 !! ldo = Some dr ∧ heap_md s6 !! lo = Some (MetadataInfo_new ko) ∧ lo ≠ lt ∧ lo ≠ ldo;
  y_missing : missing s6 kt ∧ missing s6 ko ∧ missing s6 (shared_key mt);
  y_key : systemPath mt = kt;
}.

(** The writes that follow. *)
Definition link_writes (fuel : nat) (lt lo ldo : loc) origin : M (hflat_priv W) Z :=
  create_directory_entry fuel ldo (path_to_filename origin) ;;?
  (toHardlinkT lt ;;? (touch_AC lt ;;;
     change_md lt (λ x, set_link_count (md_link_count x + 1) x) ;;;
     put_metadata lt ;;?
     (let! x := getMD lt in
      change_md lo (λ y, set_link_count 1 (set_inode_number (md_inode_number x) (set_type HARDLINK_S y))) ;;;
      required (create_metadata lo) ;;;
      mret_ 0))).

(** The drives afterwards. *)
Definition linked_drive s (σ : store) (origin kt ko : cstr) (dr mt : MetadataInfo) : store :=
  <[ko := source_record s 3 (md_inode_number (md mt))]> (<[shared_key mt := shared_record s mt]>
    (<[kt := source_record s 0 (md_inode_number (md mt))]> (<[entry_to origin dr := direntry_record]> σ))).

(** One link more, and the time of it. *)
Definition counted_md s m : Metadata :=
  let x := updateACtime (env_time (time_used s)) (md m) in set_link_count (md_link_count x + 1) x.

Lemma target_counted s (l : loc) m : heap_md s !! l = Some m → (l < next_loc s)%nat → lookup_ (lookup_cache s) !! systemPath m = None →
  version_matches (drive s) (systemPath m) (keyVersion m) REQUIRE_SAME_VERSION →
  ∃ s' m', (∀ k, (touch_AC l ;;; change_md l (λ x, set_link_count (md_link_count x + 1) x) ;;; put_metadata l ;;? k) s = k s') ∧
    aside [l] s s' ∧ (heap_md s' !! l = Some m' ∧ md m' = counted_md s m) ∧ uuids_used s' = S (uuids_used s) ∧
    drive s' = <[systemPath m := mk_KineticRecord (SerializeAsString (counted_md s m)) (env_uuid (uuids_used s))]> (drive s).
Proof.
  intros Hm Hlt Hl Hv. pose proof (touch_AC_run s l m Hm) as Htc. set (m1 := on_md (λ x, moved_md s m) m) in Htc. set (s1 := with_md _ l m1) in Htc.
  assert (Hm1 : heap_md s1 !! l = Some m1) by apply lookup_insert_eq.
  set (m2 := on_md (λ x, set_link_count (md_link_count x + 1) x) m1). set (s2 := with_md s1 l m2).
  destruct (put_metadata_uncached s2 l m2 (lookup_insert_eq _ _ _) Hl Hv) as (w & Hput & Hw). set (s3 := tick_steady _) in Hput.
  exists s3, (setKeyVersion (env_uuid (uuids_used s2)) m2). split; [|split; [|split; [split; [apply lookup_insert_eq|done]|split; [done|exact Hw]]]].
  - intros k. step_by Htc. step_by (change_md_run l s1 m1 (λ x, set_link_count (md_link_count x + 1) x) Hm1). by rewrite (on_ok_run _ _ _ _ Hput).
  - split; [done|done| |intros Hf l' Hl'; cbn in *; rewrite !lookup_insert_ne by lia; by apply Hf|done].
    intros l' _ [Hn _]%not_elem_of_cons. cbn. by rewrite !lookup_insert_ne by congruence.
Qed.

(** The new name's forwarding inode. *)
Lemma source_created s (l : loc) key n : heap_md s !! l = Some (MetadataInfo_new key) → (l < next_loc s)%nat → drive s !! key = None →
  ∃ s', (change_md l (λ y, set_link_count 1 (set_inode_number n (set_type HARDLINK_S y))) ;;; required (create_metadata l) ;;; mret_ 0) s = Ret 0 s' ∧
    aside [l] s s' ∧ drive s' = <[key := mk_KineticRecord (SerializeAsString (source_md n)) (env_uuid (uuids_used s))]> (drive s).
Proof.
  intros Hm Hlt Hno. set (m := on_md (λ y, set_link_count 1 (set_inode_number n (set_type HARDLINK_S y))) (MetadataInfo_new key)).
  destruct (create_metadata_ok (with_md s l m) l m (lookup_insert_eq _ _ _) Hno) as (w & Hc & Hw). set (s1 := with_md s l m) in *.
  exists (with_md (set_kinetic w (tick_uuid s1)) l (setKeyVersion (env_uuid (uuids_used s1)) m)).
  split; [step_by (change_md_run l s _ (λ y, set_link_count 1 (set_inode_number n (set_type HARDLINK_S y))) Hm);
    change (set_heap _ _ _ s) with s1; by rewrite (required_run _ _ _ _ Hc)|split; [|exact Hw]].
  split; [done|done| |intros Hf l' Hl'; cbn in *; rewrite !lookup_insert_ne by lia; by apply Hf|done].
  intros l' _ [Hn _]%not_elem_of_cons. cbn. by rewrite !lookup_insert_ne by congruence.
Qed.

Lemma link_writes_run fuel s s6 origin kt ko (lt lo ldo : loc) mt dr : link_ready s s6 kt ko lt lo ldo mt dr →
  posix s = TIMERELAXED → md_type (md mt) = POSIX → NoDup [kt; ko; shared_key mt; entry_to origin dr] →
  version_matches (drive s) kt (keyVersion mt) REQUIRE_SAME_VERSION →
  drive s !! ko = None → drive s !! shared_key mt = None → drive s !! entry_to origin dr = None →
  ∃ s', link_writes fuel lt lo ldo origin s6 = Ret 0 s' ∧ aside [lt; lo] s6 s' ∧ drive s' = linked_drive s (drive s) origin kt ko dr mt.
Proof.
  intros [Hok Hd (Hx & Hp & Hpm & Ht & Hu) (Hmt & Hdr & Hmo & Hne & _) ((_ & Hlt & _) & (_ & Hlo & _) & (_ & Hls & _)) Hk] Hpx Hty Hnd Hv Hno Hns Hne'.
  rewrite !NoDup_cons, !not_elem_of_cons in Hnd. destruct Hnd as ((Hn1 & Hn2 & Hn3 & _) & (Hn4 & Hn5 & _) & (Hn6 & _) & _).
  destruct (create_directory_entry_ok fuel s6 ldo dr (path_to_filename origin) Hdr) as (w7 & H7 & Hw7); [by rewrite Hp|by rewrite Hd|].
  rewrite Hd in Hw7. fold (entry_to origin dr) in Hw7. set (s7 := set_kinetic w7 s6) in *. pose proof (allocated s6 lt mt Hok Hmt) as Ha.
  assert (Hd7 : drive s7 = <[entry_to origin dr := direntry_record]> (drive s)) by exact Hw7.
  destruct (toHardlinkT_run s7 lt mt Hmt Ha Hty) as (s8 & H8 & Has & Hm8 & Hu8 & Ht8 & Hd8);
    [by rewrite Hk|by rewrite Hd7, Hk; cbn; rewrite lookup_insert_ne by done|by rewrite Hk|by rewrite Hd7, lookup_insert_ne|].
  change (uuids_used s7) with (uuids_used s6) in *. change (time_used s7) with (time_used s6) in *. rewrite Hu in Hu8, Hd8. rewrite Ht in Ht8. rewrite Hd7, Hk in Hd8.
  pose proof (allocated s6 lo _ Hok Hmo) as Hao. pose proof (a_next _ _ _ Has) as Hnx. change (next_loc s7) with (next_loc s6) in Hnx.
  destruct (target_counted s8 lt _ Hm8) as (s9 & m9 & H9 & Has9 & (Hm9 & Hmd9) & Hu9 & Hd9);
    [lia|by rewrite (a_cache _ _ _ Has)|rewrite Hd8; cbn; by rewrite lookup_insert_eq, Hu|].
  assert (Hc9 : counted_md s8 (as_target s7 mt) = shared_md s mt) by (unfold counted_md, shared_md; by rewrite Ht8).
  rewrite Hc9, Hu8, Hd8 in Hd9. change (systemPath (as_target s7 mt)) with (shared_key mt) in Hd9. rewrite insert_insert_eq in Hd9.
  pose proof (a_next _ _ _ Has9) as Hnx9.
  assert (Hnl : ∀ l', l' ∈ [lt] → lo ≠ l') by (by intros l' ->%list_elem_of_singleton).
  destruct (source_created s9 lo ko (md_inode_number (md m9))) as (s10 & H10 & Has10 & Hd10);
    [rewrite (a_heap _ _ _ Has9), (a_heap _ _ _ Has); [exact Hmo|exact Hao|by intros ?%Hnl|lia|by intros ?%Hnl]|lia|by rewrite Hd9, !lookup_insert_ne by done|].
  exists s10. split; [|split].
  - unfold link_writes. rewrite (on_ok_run _ _ _ _ H7), (on_ok_run _ _ _ _ H8), H9. step_by (getMD_run lt s9 m9 Hm9). exact H10.
  - apply (aside_trans _ s6 s7); [by apply aside_frame|]. apply (aside_trans _ s7 s8); [eapply aside_mono; [exact Has|set_solver]|].
    apply (aside_trans _ s8 s9); eapply aside_mono; [exact Has9|set_solver|exact Has10|set_solver].
  - rewrite Hd10, Hd9, Hmd9, Hc9, Hu9, Hu8. unfold linked_drive, source_record, shared_record. change (uuids_used s7) with (uuids_used s6). by rewrite Hu.
Qed.
(** ** The whole operation *)

Lemma on_found_run (x : M (hflat_priv W) (Z * option loc)) k l s s1 : x s = Ret (0, Some l) s1 → on_found x k s = k l s1.
Proof. intros Hx. unfold on_found. step_by Hx. cbn [fst snd negb Z.eqb non_null]. by rewrite mbind_ret_l. Qed.

Lemma access_to_run (l : loc) m mode s : heap_md s !! l = Some m → access_to l mode s = Ret (check_access (ctx s) (md m) mode) s.
Proof. intros Hm. unfold access_to, fuse_get_context, gets_. rewrite mbind_lam. by step_by (getMD_run l s m Hm). Qed.

(** The two keys are dropped; a third one that was missing stays so. *)
Lemma links_dropped s (k1 k2 k3 : cstr) c1 c2 : dropped k2 (lookup_cache s) c1 → dropped k1 c1 c2 → is_Some (lookup_ (lookup_cache s) !! k2) →
  NoDup [k1; k2; k3] → Z.of_nat (length (cache (lookup_cache s))) <= capacity (lookup_cache s) →
  k3 ∉ blocked_keys (lookup_cache s) → lookup_ (lookup_cache s) !! k3 = None →
  missing (set_lookup_cache c2 s) k1 ∧ missing (set_lookup_cache c2 s) k2 ∧ missing (set_lookup_cache c2 s) k3.
Proof.
  rewrite !NoDup_cons, !not_elem_of_cons. intros H2 H1 Hin ((Hn1 & Hn2 & _) & (Hn3 & _) & _) Hlen Hb Hl.
  destruct (both_dropped (set_lookup_cache c2 s) k1 k2 _ c1 c2 H2 H1 Hin Hn1 Hlen eq_refl) as (Hm1 & Hm2).
  split; [done|]. split; [done|]. destruct Hm1 as (_ & _ & Hroom). split; [|split; [|exact Hroom]]; cbn.
  - rewrite (d_blocked _ _ _ H1), (d_blocked _ _ _ H2). set_solver.
  - by rewrite (d_others _ _ _ H1), (d_others _ _ _ H2).
Qed.

(** When nothing fails the operation is the lookups, the two invalidations and the writes. *)
Lemma hflat_hardlink_head f s s1 s2 s3 s4 s5 s6 s' target origin ko (lt ldt ldo lo : loc) mt dt dr :
  lookup (S f) target None s = Ret (0, Some lt) s1 → lookup_parent (S f) origin None s1 = Ret (0, Some ldo) s2 →
  lookup_parent (S f) target None s2 = Ret (0, Some ldt) s3 → heap_md s3 !! ldo = Some dr → heap_md s3 !! ldt = Some dt →
  check_access (ctx s3) (md dr) W_OK = 0 → check_access (ctx s3) (md dt) W_OK = 0 →
  lookup (S f) origin None s3 = Ret (- ENOENT, Some lo) s4 → heap_md s4 !! lt = Some mt → heap_md s4 !! lo = Some (MetadataInfo_new ko) →
  S_ISDIR (md_mode (md mt)) = false → md_type (md mt) = POSIX → lc_invalidate ko s4 = Ret tt s5 → lc_invalidate (systemPath mt) s5 = Ret tt s6 →
  link_writes (S f) lt lo ldo origin s6 = Ret 0 s' → hflat_hardlink (S f) target origin s = Ret 0 s'.
Proof.
  intros H1 H2 H3 Hdo Hdt Ha1 Ha2 H4 Hmt Hmo Hdir Hty H5 H6 Hw.
  apply on_ok_inv in Hw as (s7 & H7 & (s8 & H8 & Hw)%on_ok_inv). apply mbind_Ret_inv in Hw as (u & s9 & H9 & Hw).
  apply mbind_Ret_inv in Hw as (u' & s10 & H10 & (s11 & H11 & Hw)%on_ok_inv).
  cbn [hflat_hardlink]. rewrite (on_found_run _ _ _ _ _ H1), (on_found_run _ _ _ _ _ H2), (on_found_run _ _ _ _ _ H3).
  rewrite (on_ok_run _ _ s3 s3) by (by rewrite (access_to_run ldo dr), Ha1). rewrite (on_ok_run _ _ s3 s3) by (by rewrite (access_to_run ldt dt), Ha2).
  assert (Habs : lookup_absent (S f) origin s3 = Ret (0, Some lo) s4) by (unfold lookup_absent; by step_by H4).
  step_by Habs. cbn [negb Z.eqb]. step_by (deref_md_run lt s4 mt Hmt). rewrite Hdir. unfold assert_ at 1. cbn [negb]. rewrite mbind_lam.
  cbn [non_null]. rewrite mbind_ret_l. step_by (deref_md_run lo s4 _ Hmo). step_by H5. step_by H6. cbv zeta.
  rewrite (on_ok_run _ _ _ _ H7), Hty, bool_decide_false by done. step_by H8. cbn [negb Z.eqb]. step_by H9. step_by H10. step_by H11. exact Hw.
Qed.

Lemma link_lookup_run f h s target origin kt ko (lt ldt ldo : loc) mt dt dr : linkable f h s target origin kt ko lt ldt ldo mt dt dr →
  let lo := next_loc s in ∃ s6, link_ready s s6 kt ko lt lo ldo mt dr ∧
    ∀ s', link_writes (S f) lt lo ldo origin s6 = Ret 0 s' → hflat_hardlink (S f) target origin s = Ret 0 s'.
Proof.
  intros [Hg (Hp1 & Hp2) (Hd1 & Hd2) (Hc1 & Hc2) (Ha1 & Ha2) (ts & Hp & Hts) Hpx (Hdir & Hty) Hnd _ (Hno & _) Hsh] lo.
  destruct (opened_lookup f (4 + h) s target kt lt mt None (g_from _ _ _ _ _ _ _ _ _ _ _ _ _ Hg)) as (c1 & Hl1 & Hr1 & _).
  apply (files_reordered f (4 + h) s c1) in Hg as Hg1; [|done]. set (s1 := set_lookup_cache c1 (tick_steady s)) in *.
  assert (Hsh1 : missing s1 (shared_key mt)) by (apply reordered_missing; [done|apply Hg|done]).
  destruct (g_dir_to _ _ _ _ _ _ _ _ _ _ _ _ _ Hg1) as (kdo & Hdo).
  destruct (opened_parent f (3 + h) s1 origin kdo ldo dr None Hdo Hp2 Hd2 Hc2) as (c2 & Hl2 & Hr2).
  apply (files_reordered f (3 + h) s1 c2) in Hg1 as Hg2; [|done]. set (s2 := set_lookup_cache c2 (tick_steady s1)) in *.
  assert (Hsh2 : missing s2 (shared_key mt)) by (apply reordered_missing; [done|apply Hg1|done]).
  destruct (g_dir_from _ _ _ _ _ _ _ _ _ _ _ _ _ Hg2) as (kdt & Hdt).
  destruct (opened_parent f (2 + h) s2 target kdt ldt dt None Hdt Hp1 Hd1 Hc1) as (c3 & Hl3 & Hr3).
  apply (files_reordered f (2 + h) s2 c3) in Hg2 as Hg3; [|done]. set (s3 := set_lookup_cache c3 (tick_steady s2)) in *.
  assert (Hsh3 : missing s3 (shared_key mt)) by (apply reordered_missing; [done|apply Hg2|done]).
  destruct (lookup_missing f origin None s3 ko ts (MetadataInfo_new ko)) as (w & Hw & Hl4); [apply Hg3|done|done|apply Hg3| |by left|].
  { unfold loads. change (drive s3) with (drive s). by rewrite Hno. }
  destruct (looked_ok_loaded f h s3 w _ _ _ _ _ _ _ _ _ _ Hg3 Hno Hw) as [Hok4 Hd4 Hs4 (Hmt & Hmdt & Hmdo & Hmo) (Hf1 & _ & Hf2) Hk (_ & Hck & _ & Hlen)].
  set (s4 := loaded s3 w ko _) in *. change (next_loc s3) with lo in *. change (answer s3 _) with (- ENOENT) in Hl4.
  destruct (lc_invalidate_ok ko s4 Hok4) as (c5 & Hi5 & Hdr5 & Hok5). set (s5 := set_lookup_cache c5 s4) in *.
  destruct (lc_invalidate_ok kt s5 Hok5) as (c6 & Hi6 & Hdr6 & Hok6). exists (set_lookup_cache c6 s5). set (s6 := set_lookup_cache c6 s5) in *.
  split.
  - split; [exact Hok6|exact Hd4|by destruct Hs4 as (? & ? & ? & ? & ? & _)|done| |exact Hk].
    rewrite !NoDup_cons, !not_elem_of_cons in Hnd. destruct Hnd as ((Hn1 & Hn2 & _) & (Hn4 & _) & _).
    destruct Hsh3 as (Hb & Hl & _). apply (links_dropped s4 kt ko (shared_key mt) c5 c6); [done..| |done| |].
    + rewrite !NoDup_cons, !not_elem_of_cons. by repeat split; try apply not_elem_of_nil; try apply NoDup_nil_2.
    + unfold s4. rewrite loaded_blocked. set_solver.
    + cbn. by rewrite lookup_insert_ne.
  - intros s' Hrun. subst kt.
    by apply (hflat_hardlink_head f s s1 s2 s3 s4 s5 s6 s' target origin ko lt ldt ldo lo mt dt dr Hl1 Hl2 Hl3
      (opened_heap _ _ s1 _ _ _ _ Hdo) (opened_heap _ _ s2 _ _ _ _ Hdt)).
Qed.
Lemma hflat_hardlink_run f h s target origin kt ko (lt ldt ldo : loc) mt dt dr : linkable f h s target origin kt ko lt ldt ldo mt dt dr →
  ∃ s', hflat_hardlink (S f) target origin s = Ret 0 s' ∧ drive s' = linked_drive s (drive s) origin kt ko dr mt ∧
    cache_ok s' ∧ missing s' kt ∧ missing s' ko ∧ missing s' (shared_key mt) ∧ ctx s' = ctx s ∧ pmap_ s' = pmap_ s.
Proof.
  intros Hl. destruct (link_lookup_run f h s target origin kt ko lt ldt ldo mt dt dr Hl) as (s6 & Hy & Hrest).
  destruct Hl as [_ _ _ _ _ _ Hpx (_ & Hty) Hnd Hst (Hf1 & Hf2 & Hf3) _].
  destruct (link_writes_run (S f) s s6 origin kt ko lt (next_loc s) ldo mt dr Hy Hpx Hty Hnd Hst Hf1 Hf2 Hf3) as (s' & Hw & Has & Hd).
  destruct Hy as [Hok Hd6 (Hx & _ & Hpm & _) (Hmt & Hdr & Hmo & _) (Hm1 & Hm2 & Hm3) Hk].
  pose proof Has as [Hc _ _ _ (Hx' & _ & Hpm')]. exists s'. split; [by apply Hrest|]. split; [exact Hd|].
  assert (Hmiss : ∀ key, missing s6 key → missing s' key) by (unfold missing; by rewrite Hc).
  split; [|split; [by apply Hmiss|split; [by apply Hmiss|split; [by apply Hmiss|split; congruence]]]].
  apply (aside_ok _ s6 s' Hok Has). intros l [-> | ->%list_elem_of_singleton]%elem_of_cons; unfold md_getKey.
  - rewrite Hmt, Hk. apply Hm1.
  - rewrite Hmo. apply Hm2.
Qed.

(** ** Looking up a name that forwards *)

(** Another key enters the cache. *)
Lemma opened_pushed f h s s' path key (l : loc) m key' (l' : loc) time : opened f (2 + h) s path key l m → key ≠ key' → cache_ok s' →
  lookup_cache s' = push_front key' l' time (set_blocked ({[key']} ∪ blocked_keys (lookup_cache s)) (lookup_cache s)) →
  heap_md s' !! l = heap_md s !! l → pmap_ s' = pmap_ s → ctx s' = ctx s → steady_used s' = (2 + steady_used s)%nat →
  opened f h s' path key l m.
Proof.
  intros [Hok (ts & Hp & Hset) (time0 & (Hb & Hm & Hk & He) & Ht) Hans] Hne Hok' Hc Hh Hpm Hx Hst. split; [done|exists ts; by rewrite Hpm| |by unfold answer in *; rewrite Hx].
  exists time0. split; [split; [rewrite Hc; cbn; set_solver|split; [by rewrite Hh|split; [done|]]]|].
  - rewrite Hc, (entry_of_push (md_getKey s)) by (apply wf_set_blocked, Hok). by rewrite decide_False.
  - intros n Hlt. specialize (Ht (S (S n)) ltac:(lia)). rewrite Hc, Hst. unfold timely in *. cbn [capacity expiration_time push_front set_blocked].
    replace (n + (2 + steady_used s))%nat with (S (S n) + steady_used s)%nat by lia. exact Ht.
Qed.

(** The forwarding inode is cached without its other fields, and the lookup goes on
    with the key of the shared inode. *)
Lemma lookup_source f path p t key ts m : cache_ok t → toSystemPath (S f) (pmap_ t) path LOOKUP = Some (key, ts) → 0 <= ts →
  missing t key → loads t key m → is_Some (drive t !! key) → md_type (md m) = HARDLINK_S →
  ∃ t1, lookup (S f) path p t = lookup f (hardlink_key (md_inode_number (md m))) (Some (next_loc t)) t1 ∧
    cache_ok t1 ∧ drive t1 = drive t ∧
    (ctx t1 = ctx t ∧ pmap_ t1 = pmap_ t ∧ posix t1 = posix t ∧ time_used t1 = time_used t ∧ uuids_used t1 = uuids_used t) ∧
    (room t → ∀ key', key' ≠ key → missing t key' → missing t1 key') ∧
    (∀ f' h path' key' l' m', opened f' (2 + h) t path' key' l' m' → key' ≠ key → opened f' h t1 path' key' l' m').
Proof.
  intros Hok Hp Hts Hmiss Hm Hsome Hty. cbn [lookup].
  assert (Hpm : pmap_toSystemPath (S f) path LOOKUP t = Ret (key, ts) t) by (unfold pmap_toSystemPath; by rewrite Hp).
  step_by Hpm. destruct (Z.ltb_spec ts 0); [lia|]. step_by (lookup_cached_missing f t key Hmiss).
  unfold new_md at 1. rewrite !mbind_lam. set (t1 := set_heap (<[next_loc (blocking t key) := _]> _) _ _ _).
  destruct (get_metadata_loads t1 key m (next_loc t)) as (w & Hw & Hg); [apply lookup_insert_eq|exact Hm|].
  rewrite decide_False in Hg by (change (drive t1) with (drive t); by destruct Hsome as [? ->]). set (t2 := set_heap _ _ _ _) in Hg.
  assert (Hh2 : heap_md t2 = <[next_loc t := m]> (heap_md t)) by apply insert_insert_eq.
  assert (Hm2 : heap_md t2 !! next_loc t = Some m) by (rewrite Hh2; apply lookup_insert_eq).
  step_by Hg. change (0 =? - ENOENT) with false. cbn [negb Z.eqb]. step_by (getMD_run _ t2 m Hm2).
  assert (Hino : md_inode_number (md m) ≠ 0).
  { unfold loads in Hm. destruct Hsome as [r Hr]. rewrite Hr in Hm. by destruct Hm as (x & _ & ? & ->). }
  rewrite (proj2 (Z.eqb_neq _ _) Hino), (bool_decide_true (md_type (md m) = HARDLINK_S)) by done.
  unfold new_md. rewrite mbind_assoc, mbind_lam. set (src := on_md _ (MetadataInfo_new key)). set (t3 := set_heap _ _ _ t2).
  assert (Hok2 : cache_ok t2) by (by apply (blocked_ok t t2 key m)).
  assert (Hok3 : cache_ok t3) by (by apply (cache_ok_alloc t2 t3 src)).
  assert (Hk3 : md_getKey t3 (next_loc t2) = key) by (unfold md_getKey; cbn [heap_md t3 set_heap]; by rewrite lookup_insert_eq).
  destruct Hmiss as (Hb & Hl & Hroom).
  rewrite mbind_assoc. step_by (lc_add_room t3 key (next_loc t2) Hok3 Hk3 Hl Hroom). unfold REQ_TRUE. rewrite mbind_lam.
  assert (Hok4 : cache_ok (set_lookup_cache (push_front key (next_loc t2) (now_of t3) (lookup_cache t3)) (tick_steady t3))).
  { apply push_ok; [done|done|cbn; lia|exact Hl]. }
  eexists. split; [done|]. split; [exact Hok4|]. split; [exact Hw|]. split; [done|]. split.
  - intros Hr key' Hne (Hb' & Hl' & _). split; [cbn; set_solver|]. cbn. rewrite lookup_insert_ne by done. split; [done|].
    unfold room in Hr. lia.
  - intros f' h path' key' l' m' Ho Hne. eapply (opened_pushed f' h t _ path' key' l' m' key); [exact Ho|done|exact Hok4|done| |done..].
    pose proof (allocated t l' m' Hok (opened_heap _ _ _ _ _ _ _ Ho)). change (heap_md t3 !! l' = heap_md t !! l').
    cbn [heap_md t3 set_heap]. rewrite Hh2, !lookup_insert_ne; [done|cbn; lia..].
Qed.
(** What the name answers: whatever is stored for the shared inode. *)
Lemma lookup_linked f path p t key n ts m : cache_ok t → room t → toSystemPath (S (S f)) (pmap_ t) path LOOKUP = Some (key, ts) → 0 <= ts →
  missing t key → (∃ ms, loads t key ms ∧ is_Some (drive t !! key) ∧ md_type (md ms) = HARDLINK_S ∧ md_inode_number (md ms) = n) →
  hardlink_key n ≠ key → missing t (hardlink_key n) → toSystemPath (S f) (pmap_ t) (hardlink_key n) LOOKUP = Some (hardlink_key n, 0) →
  loads t (hardlink_key n) m → settled 0 (md m) →
  ∃ l t', lookup (S (S f)) path p t = Ret (answer t (md m), Some l) t' ∧ heap_md t' !! l = Some m ∧ drive t' = drive t.
Proof.
  intros Hok Hroom Hp Hts Hmiss (ms & Hms & Hsome & Hty & Hn) Hne Hmh Hph Hm Hset.
  destruct (lookup_source (S f) path p t key ts ms Hok Hp Hts Hmiss Hms Hsome Hty) as (t1 & -> & Hok1 & Hd1 & (Hx1 & Hp1 & _) & Hkeep & _). rewrite Hn.
  destruct (lookup_missing f (hardlink_key n) (Some (next_loc t)) t1 (hardlink_key n) 0 m Hok1) as (w & Hw & Hl);
    [by rewrite Hp1|done|by apply Hkeep|unfold loads; by rewrite Hd1|done|].
  assert (Hans : answer t1 (md m) = answer t (md m)) by (unfold answer; by rewrite Hx1). rewrite Hans in Hl.
  exists (next_loc t1), (loaded t1 w (hardlink_key n) m). split; [exact Hl|]. split; [apply lookup_insert_eq|].
  etransitivity; [exact Hw|exact Hd1].
Qed.

(** The forwarding record, read. *)
Lemma source_loads `{!MessageSpec Metadata} t key n r : msg_wf (source_md n) → 0 < n < u64_mod →
  drive t !! key = Some r → kr_value r = SerializeAsString (source_md n) →
  ∃ ms, loads t key ms ∧ is_Some (drive t !! key) ∧ md_type (md ms) = HARDLINK_S ∧ md_inode_number (md ms) = n.
Proof.
  intros Hwf Hn Hr Hv. exists (setMD (source_md n) (kr_version r) (MetadataInfo_new key)). unfold loads. rewrite Hr.
  split; [|split; [by exists r|split; [done|exact (wrap64_id n ltac:(lia))]]]. exists (source_md n). rewrite Hv.
  split; [by apply parse_serialize|]. split; [|done]. change (md_inode_number (source_md n)) with (wrap64 n). rewrite wrap64_id; lia.
Qed.

(** C18: hard links. [hflat_hardlink] of a regular file with one name, the file and
    both directories being cached and the caller allowed to write them, returns 0
    and adds the new name's directory entry; the inode goes to a key made of its
    number, counts one more link and is otherwise the same but for the time of
    change, and both names hold records that forward to it. Whatever up-to-date
    inode any client stores under that key afterwards, a client that has cached
    neither the name it asks for nor the shared inode and has room for both finds it
    under either name, with the same answer for the same caller; what is stored
    there to begin with is that inode, and the linking client has none of the three
    keys cached. A client that still holds the old inode is not covered: it goes on
    finding that one. *)
Theorem linked_names_share_inode `{!MessageSpec Metadata} f h s target origin kt ko (lt ldt ldo : loc) mt dt dr :
  linkable f h s target origin kt ko lt ldt ldo mt dt dr →
  let n := md_inode_number (md mt) in let x := shared_md s mt in
  0 < n < u64_mod → msg_wf x → msg_wf (source_md n) →
  ∃ s', hflat_hardlink (S f) target origin s = Ret 0 s' ∧ drive s' = linked_drive s (drive s) origin kt ko dr mt ∧
    cache_ok s' ∧ missing s' kt ∧ missing s' ko ∧ missing s' (hardlink_key n) ∧
    (md_link_count x = wrap32 (md_link_count (md mt) + 1) ∧ md_inode_number x = n ∧ md_mode x = md_mode (md mt) ∧ md_uid x = md_uid (md mt) ∧
     md_gid x = md_gid (md mt) ∧ md_size x = md_size (md mt) ∧ md_path_permission x = md_path_permission (md mt)) ∧
    loads s' (hardlink_key n) (setMD x (env_uuid (2 + uuids_used s)) (MetadataInfo_new (hardlink_key n))) ∧ settled 0 x ∧
    ∀ t g name key ts p m, (name = target ∧ key = kt) ∨ (name = origin ∧ key = ko) → drive t !! key = drive s' !! key →
      cache_ok t → room t → missing t key → missing t (hardlink_key n) →
      toSystemPath (S (S g)) (pmap_ t) name LOOKUP = Some (key, ts) → 0 <= ts →
      toSystemPath (S g) (pmap_ t) (hardlink_key n) LOOKUP = Some (hardlink_key n, 0) →
      loads t (hardlink_key n) m → settled 0 (md m) →
      ∃ l t', lookup (S (S g)) name p t = Ret (answer t (md m), Some l) t' ∧ heap_md t' !! l = Some m ∧ drive t' = drive t.
Proof.
  intros Hl n x Hino Hwx Hws. destruct (hflat_hardlink_run f h s target origin kt ko lt ldt ldo mt dt dr Hl) as (s' & Hrun & Hd & Hok & Hm1 & Hm2 & Hm3 & _).
  destruct Hl as [Hg _ _ _ _ _ _ (_ & Hty) Hnd _ _ _]. rewrite !NoDup_cons, !not_elem_of_cons in Hnd.
  destruct Hnd as ((Hn1 & Hn2 & _) & (Hn4 & _) & _). fold n in Hn2, Hn4. change (shared_key mt) with (hardlink_key n) in *.
  destruct (g_from _ _ _ _ _ _ _ _ _ _ _ _ _ Hg) as [_ (ts0 & _ & Hts0 & _ & _ & Hv) _ Hans].
  exists s'. do 6 (split; [done|]). split; [done|]. split; [|split; [right; repeat split; [done..|cbn; lia]|]].
  - unfold loads. rewrite Hd. unfold linked_drive. rewrite lookup_insert_ne, lookup_insert_eq by done. exists x. split; [by apply parse_serialize|]. split; [|done].
    change (n ≠ 0). lia.
  - intros t g name key ts p m Hnk Hdk Hokt Hroom Hmk Hmh Hp Hts Hph Hm Hset. rewrite Hd in Hdk. unfold linked_drive in Hdk.
    apply (lookup_linked g name p t key n ts m); try done; [|by destruct Hnk as [[_ ->]|[_ ->]]].
    destruct Hnk as [[_ ->]|[_ ->]].
    + rewrite !lookup_insert_ne, lookup_insert_eq in Hdk by done. by eapply source_loads.
    + rewrite lookup_insert_eq in Hdk. by eapply source_loads.
Qed.
(** Between the two writes of [toHardlinkT] the inode is nowhere: the name forwards
    to a key that does not exist, and every client that looks it up is told that
    there is no such file. An interruption here loses the file. *)
Theorem link_window_loses_inode `{!MessageSpec Metadata} s (lt : loc) m : let n := md_inode_number (md m) in
  heap_md s !! lt = Some m → (lt < next_loc s)%nat → md_type (md m) = POSIX →
  lookup_ (lookup_cache s) !! systemPath m = None → version_matches (drive s) (systemPath m) (keyVersion m) REQUIRE_SAME_VERSION →
  hardlink_key n ≠ systemPath m → drive s !! hardlink_key n = None → 0 < n < u64_mod → msg_wf (source_md n) →
  ∃ s1, toHardlinkT lt s = (required (create_metadata lt) ;;; mret_ 0) s1 ∧
    drive s1 = <[systemPath m := source_record s 0 n]> (drive s) ∧
    ∀ t g path ts p, drive t = drive s1 → cache_ok t → room t → missing t (systemPath m) → missing t (hardlink_key n) →
      toSystemPath (S (S g)) (pmap_ t) path LOOKUP = Some (systemPath m, ts) → 0 <= ts →
      toSystemPath (S g) (pmap_ t) (hardlink_key n) LOOKUP = Some (hardlink_key n, 0) →
      ∃ l t', lookup (S (S g)) path p t = Ret (- ENOENT, Some l) t'.
Proof.
  intros n Hm Hlt Hty Hl Hv Hne Hnew Hn Hwf. destruct (toHardlinkT_source s lt m Hm Hlt Hty Hl Hv) as (s1 & Hrun & _ & _ & _ & _ & Hd).
  exists s1. split; [exact Hrun|]. split; [exact Hd|]. intros t g path ts p Hdt Hok Hroom Hmk Hmh Hp Hts Hph. rewrite Hd in Hdt.
  destruct (lookup_linked g path p t (systemPath m) n ts (MetadataInfo_new (hardlink_key n))) as (l & t' & Hrun' & _); try done; [| |by left|by eexists _, _].
  - eapply source_loads; [done|done|rewrite Hdt; apply lookup_insert_eq|done].
  - unfold loads. by rewrite Hdt, lookup_insert_ne, Hnew.
Qed.
End HardlinkFacts.

(** ** Witness: [/f] gets the second name [/g] *)

#[local] Existing Instance demo_env.
#[local] Existing Instance demo_metadata_spec.

Lemma demo_linkable : linkable 0 4 demo_renamer (lit "/f") (lit "/g") (lit "/f") (lit "/g") 2 1 1 demo_file_md demo_root_md demo_root_md.
Proof.
  pose proof demo_renamable as [_ Hg Hs Hd Hc _ _ _].
  split; [exact Hg|exact Hs|exact Hd|exact Hc|split; reflexivity| |reflexivity|split; reflexivity| |vm_compute; reflexivity| |].
  - exists 0. split; [vm_compute; reflexivity|done].
  - apply (bool_decide_unpack _). vm_compute. exact I.
  - split; [|split]; vm_compute; reflexivity.
  - apply demo_two_missing; discriminate.
Qed.

Lemma linked_names_share_inode_witness :
  ∃ s' l t' m l2 t2, hflat_hardlink 1 (lit "/f") (lit "/g") demo_renamer = Ret 0 s' ∧
    lookup 2 (lit "/g") None (demo_mount (kinetic s')) = Ret (0, Some l) t' ∧ heap_md t' !! l = Some m ∧
    lookup 2 (lit "/f") None (demo_mount (kinetic s')) = Ret (0, Some l2) t2 ∧ heap_md t2 !! l2 = Some m ∧
    md_link_count (md m) = 2 ∧ md_inode_number (md m) = 7.
Proof.
  destruct (linked_names_share_inode 0 4 demo_renamer (lit "/f") (lit "/g") (lit "/f") (lit "/g") 2 1 1 demo_file_md demo_root_md demo_root_md demo_linkable)
    as (s' & H1 & _ & _ & _ & _ & _ & _ & H2 & H3 & H4).
  - split; reflexivity.
  - vm_compute. reflexivity.
  - vm_compute. reflexivity.
  - set (t := demo_mount (kinetic s')).
    set (m := setMD (shared_md demo_renamer demo_file_md) (env_uuid (2 + uuids_used demo_renamer)) (MetadataInfo_new (hardlink_key (md_inode_number (md demo_file_md))))) in *.
    assert (Hroom : room t) by reflexivity.
    assert (Hh : toSystemPath 1 (pmap_ t) (hardlink_key (md_inode_number (md demo_file_md))) LOOKUP = Some (hardlink_key (md_inode_number (md demo_file_md)), 0)) by (vm_compute; reflexivity).
    destruct (H4 t 0%nat (lit "/g") (lit "/g") 0 None m (or_intror (conj eq_refl eq_refl)) eq_refl (demo_mount_ok _) Hroom (demo_missing _ _) (demo_missing _ _)
      ltac:(vm_compute; reflexivity) (Z.le_refl 0) Hh H2 H3) as (l & t' & H5 & H6 & _).
    destruct (H4 t 0%nat (lit "/f") (lit "/f") 0 None m (or_introl (conj eq_refl eq_refl)) eq_refl (demo_mount_ok _) Hroom (demo_missing _ _) (demo_missing _ _)
      ltac:(vm_compute; reflexivity) (Z.le_refl 0) Hh H2 H3) as (l2 & t2 & H7 & H8 & _).
    exists s', l, t', m, l2, t2. split; [exact H1|]. split; [exact H5|]. split; [exact H6|]. split; [exact H7|]. split; [exact H8|].
    split; vm_compute; reflexivity.
Defined.
