(* ===== verification/RemoveFacts.v ===== *)
(** * Removing a regular file

    {!File.hflat_unlink} run as a whole on a reliable namespace, with the lookups,
    the inode, the directory entry and the thread that deletes the data. *)
From S2P Require Import Prelude CppString Proto PathMapDB LRUCache DataInfo MetadataInfo Kinetic FsState Demo KineticHelper Util Lookup Directory File Data Rename Permission HelperFacts FuseFacts LookupFacts CreateFacts RenameFacts.

Section RemoveFacts.
Context {W : Type} `{!Env} `{!KineticNamespace W} `{!KineticNamespaceSpec W} `{!KineticReliable W}.
Implicit Types (s t : hflat_priv W) (m dm : MetadataInfo) (key path : cstr).

(** ** The blocks *)

(** A deletion whose result is ignored. *)
Lemma k_Delete_any key s : ∃ st w, k_Delete key [] IGNORE_VERSION s = Ret st (set_kinetic w s) ∧ contents w = delete key (drive s).
Proof.
  destruct (drive s !! key) as [r|] eqn:E.
  - destruct (k_Delete_ok key [] IGNORE_VERSION s) as (w & Hw); [by rewrite E|done|]. by exists OK, w.
  - destruct (k_Delete_run key [] IGNORE_VERSION s) as (st & w & Hrun & _ & Hc). exists st, w. split; [done|].
    rewrite delete_id by done. destruct Hc as [->|[_ ->]]; [done|]. by rewrite delete_id.
Qed.

(** The blocks [l] of a file deleted. *)
Definition without_blocks (ino : Z) (l : list Z) (σ : store) : store := foldr (λ b, delete (data_key ino b)) σ l.

Lemma without_blocks_lookup (ino : Z) (l : list Z) (σ : store) key :
  without_blocks ino l σ !! key = if decide (key ∈ data_key ino <$> l) then None else σ !! key.
Proof.
  unfold without_blocks. induction l as [|b l IH]; [done|]. cbn [foldr fmap list_fmap]. rewrite lookup_delete, IH.
  repeat case_decide; set_solver.
Qed.

Lemma without_blocks_delete (ino b : Z) (l : list Z) (σ : store) :
  without_blocks ino l (delete (data_key ino b) σ) = without_blocks ino (b :: l) σ.
Proof.
  apply map_eq. intros key. rewrite !without_blocks_lookup, lookup_delete. cbn [fmap list_fmap]. repeat case_decide; set_solver.
Qed.

(** The blocks of a file of [size] bytes that the loop meets: all that hold one of
    its bytes and the one its end lies in, but for block 0 when the file ends with
    a block, and none at all when the size is not positive. *)
Definition meets (bs size b : Z) : Prop := 0 < size ∧ 0 <= b <= size / bs ∧ (b = 0 → size mod bs ≠ 0).

Lemma meets_step bs size b : 0 < bs → 0 < size → meets bs size b ↔ b = size / bs ∨ meets bs (size - bs) b.
Proof.
  intros Hb Hs. unfold meets. pose proof (Z.div_mod size bs ltac:(lia)). pose proof (Z.mod_pos_bound size bs Hb).
  assert (Hq : (size - bs) / bs = size / bs - 1) by (replace (size - bs) with (size + (-1) * bs) by lia; rewrite Z.div_add by lia; lia).
  assert (Hm : (size - bs) mod bs = size mod bs) by (replace (size - bs) with (size + (-1) * bs) by lia; by rewrite Z.mod_add by lia).
  assert (0 <= size / bs) by (apply Z.div_pos; lia). rewrite Hq, Hm. split.
  - intros (_ & Hr & Hz). destruct (decide (b = size / bs)) as [|Hne]; [by left|right]. split; [|split; [lia|done]].
    destruct (decide (0 < size - bs)) as [|Hle]; [done|]. assert (size / bs = 1 ∨ size / bs = 0) as [Hs1|Hs1] by nia; [|lia].
    assert (b = 0) by lia. specialize (Hz ltac:(done)). nia.
  - intros [->|(Hp1 & Hp2 & Hp3)]; split_and!; try lia; try done.
Qed.

Lemma datadelete_round f s size ino : 0 < size → 0 < blocksize s →
  ∃ w, datadelete_loop (S f) size ino s = datadelete_loop f (size - blocksize s) ino (set_kinetic w s) ∧
    contents w = delete (data_key ino (size / blocksize s)) (drive s).
Proof.
  intros Hs Hb. cbn [datadelete_loop]. destruct (Z.leb_spec size 0); [lia|]. unfold mbind_ at 1, get_. unfold mbind_ at 1, quot_.
  destruct (Z.eqb_spec (blocksize s) 0); [lia|]. unfold mret_ at 1. rewrite Z.quot_div_nonneg by lia. fold (data_key ino (size / blocksize s)).
  destruct (k_Delete_any (data_key ino (size / blocksize s)) s) as (st & w & Hdel & Hw). exists w. split; [|done]. by step_by Hdel.
Qed.

Lemma datadelete_loop_run f : ∀ s size ino, 0 < blocksize s → (Z.to_nat size <= f)%nat →
  ∃ w l, datadelete_loop f size ino s = Ret tt (set_kinetic w s) ∧ contents w = without_blocks ino l (drive s) ∧
    ∀ b, b ∈ l ↔ meets (blocksize s) size b.
Proof.
  induction f as [|f IH]; intros s size ino Hb Hf.
  all: destruct (Z.leb_spec size 0) as [Hle|Hs].
  1, 3: exists (kinetic s), []; split; [cbn [datadelete_loop]; rewrite (proj2 (Z.leb_le size 0) Hle); by destruct s|];
    split; [done|]; intros b; split; [by intros ?%not_elem_of_nil|intros (? & _); lia].
  - lia.
  - destruct (datadelete_round f s size ino Hs Hb) as (w & Hrun & Hw).
    destruct (IH (set_kinetic w s) (size - blocksize s) ino Hb ltac:(lia)) as (w' & l & Hrun' & Hw' & Hl).
    exists w', (size / blocksize s :: l). split; [by rewrite Hrun|]. split.
    + rewrite Hw'. change (drive (set_kinetic w s)) with (contents w). by rewrite Hw, without_blocks_delete.
    + intros b. rewrite elem_of_cons, Hl. symmetry. by apply meets_step.
Qed.

(** The thread that deletes the data of a file: it takes size and inode number as
    [int]. *)
Lemma datadelete_run s size ino : 0 < blocksize s →
  ∃ w l, datadelete size ino s = Ret tt (set_kinetic w s) ∧ contents w = without_blocks (to_i32 ino) l (drive s) ∧
    ∀ b, b ∈ l ↔ meets (blocksize s) (to_i32 size) b.
Proof. intros Hb. by apply datadelete_loop_run. Qed.

(** The number of blocks of a file. *)
Definition block_count s (size : Z) : nat := if size =? 0 then O else S (Z.to_nat (size / blocksize s)).

(** Files of which the loop finds every block: it overlooks block 0 of a file that
    ends with a block, sizes from 2 GiB on are negative for it, and inode numbers
    from 2{^31} on stand for others. *)
Definition whole_data s (m : Metadata) : Prop :=
  0 <= md_inode_number m < 2147483648 ∧ 0 <= md_size m < 2147483648 ∧ (md_size m = 0 ∨ md_size m mod blocksize s ≠ 0).

Lemma whole_data_met s (m : Metadata) b : 0 < blocksize s → whole_data s m → (b < block_count s (md_size m))%nat →
  to_i32 (md_inode_number m) = md_inode_number m ∧ meets (blocksize s) (to_i32 (md_size m)) (Z.of_nat b).
Proof.
  intros Hb (Hi & Hs & Hm) Hlt. unfold block_count in Hlt. rewrite !to_i32_id by (unfold is_int32; lia). split; [done|].
  destruct (Z.eqb_spec (md_size m) 0); [lia|]. assert (0 <= md_size m / blocksize s) by (apply Z.div_pos; lia).
  split; [lia|]. split; [lia|]. intros _. by destruct Hm.
Qed.

(** ** The whole operation *)

(** The file and its directory are in the cache, the caller may write the
    directory, and the path map has no entry for the file. *)
Record removable f h s path key (l ld : loc) m dm : Prop := {
  e_file : opened f (2 + h) s path key l m;
  e_dir : ∃ k, opened f (2 + h) s (parent_path path) k ld dm;
  e_slash : find_last_of (lit "/:") path ≠ npos;
  e_isdir : S_ISDIR (md_mode (md dm)) = true;
  e_access : check_path_permissions (ctx s) (md_path_permission_children (md dm)) = 0 ∧
             check_access (ctx s) (md dm) (Z.lor W_OK X_OK) = 0;
  e_sticky : sticky_denies (ctx s) (md dm) (md m) = false;
  e_mode : S_ISDIR (md_mode (md m)) = false ∧ md_type (md m) = POSIX;
  e_posix : posix s = TIMERELAXED;
  e_stored : ∃ r, drive s !! key = Some r ∧ kr_version r = keyVersion m;
  e_entry : drive s !! entry_from path dm = Some direntry_record ∧ entry_from path dm ≠ key;
  e_unmapped : hasMapping (pmap_ s) path = false ∧ hasMapping (pmap_ s) (c_str key) = false;
  e_blocks : 0 < blocksize s;
  e_room : Z.of_nat (length (cache (lookup_cache s))) <= capacity (lookup_cache s);
}.

Lemma delete_metadata_ok s l m r : cache_ok s → heap_md s !! l = Some m → drive s !! systemPath m = Some r → kr_version r = keyVersion m →
  ∃ c w, delete_metadata l s = Ret 0 (set_kinetic w (set_lookup_cache c s)) ∧ dropped (systemPath m) (lookup_cache s) c ∧
    cache_ok (set_lookup_cache c s) ∧ contents w = delete (systemPath m) (drive s).
Proof.
  intros Hok Hm Hr Hv. destruct (lc_invalidate_ok (systemPath m) s Hok) as (c & Hinv & Hdrop & Hok').
  destruct (k_Delete_ok (systemPath m) (keyVersion m) REQUIRE_SAME_VERSION (set_lookup_cache c s)) as (w & Hdel & Hw).
  { change (is_Some (drive s !! systemPath m)). eauto. } { cbn. change (drive (set_lookup_cache c s)) with (drive s). by rewrite Hr, Hv. }
  exists c, w. split; [|done]. unfold delete_metadata. step_by (deref_md_run l s m Hm). step_by Hinv. by step_by Hdel.
Qed.

Lemma unlink_lookup_run f h s path key l ld m dm : removable f h s path key l ld m dm →
  ∃ c, let s2 := set_lookup_cache c (tick_steady (tick_steady s)) in
    unlink_lookup (S f) path s = Ret (inr (l, ld)) s2 ∧ opened f h s2 path key l m ∧ heap_md s2 !! ld = Some dm ∧
    length (cache c) = length (cache (lookup_cache s)) ∧ capacity c = capacity (lookup_cache s).
Proof.
  intros [Hf (kd & Hd) Hp Hdir (Hc & Ha) Hst _ _ _ _ _ _ _].
  destruct (opened_lookup f (1 + h) s path key l m None Hf) as (c1 & Hl1 & Hr1 & Hf1). set (s1 := set_lookup_cache c1 (tick_steady s)) in *.
  pose proof (opened_reordered f (1 + h) s _ _ _ _ c1 Hd Hr1) as Hd1. fold s1 in Hd1.
  destruct (opened_parent f h s1 path kd ld dm None Hd1 Hp Hdir Hc) as (c2 & Hl2 & Hr2). exists c2.
  pose proof (opened_reordered f h s1 _ _ _ _ c2 Hf1 Hr2) as Hf2. pose proof (opened_heap _ _ _ _ _ _ _ Hd1) as Hdm.
  set (s2 := set_lookup_cache c2 (tick_steady s1)) in *. split; [|split; [exact Hf2|split; [exact Hdm|]]].
  - unfold unlink_lookup. step_by Hl1. cbn [negb Z.eqb fst snd]. step_by Hl2. cbn [negb Z.eqb fst snd]. unfold non_null. rewrite !mbind_ret_l.
    assert (Hacc : access_to ld (Z.lor W_OK X_OK) s2 = Ret 0 s2).
    { unfold access_to, fuse_get_context, gets_. rewrite mbind_lam. step_by (getMD_run ld s2 dm Hdm). change (ctx s2) with (ctx s). by rewrite Ha. }
    step_by Hacc. cbn [negb Z.eqb]. unfold fuse_get_context, gets_. rewrite mbind_lam. change (ctx s2) with (ctx s).
    step_by (getMD_run ld s2 dm Hdm). step_by (getMD_run l s2 m (opened_heap _ _ _ _ _ _ _ Hf2)). fold (sticky_denies (ctx s) (md dm) (md m)). by rewrite Hst.
  - destruct Hr1 as (_ & Hp1 & _ & _ & _ & Hcap1), Hr2 as (_ & Hp2 & _ & _ & _ & Hcap2).
    split; [exact (eq_trans (Permutation_length Hp2) (Permutation_length Hp1))|exact (eq_trans Hcap2 Hcap1)].
Qed.

(** The drives after the removal, when the loop has met the blocks [bl]. *)
Definition removed_drive s key path m dm (bl : list Z) : store :=
  without_blocks (to_i32 (md_inode_number (md m))) bl (delete (entry_from path dm) (delete key (drive s))).

Lemma hflat_unlink_run f h s path key l ld m dm : removable f h s path key l ld m dm →
  ∃ s' bl, hflat_unlink (S f) path s = Ret 0 s' ∧ drive s' = removed_drive s key path m dm bl ∧
    (∀ b, b ∈ bl ↔ meets (blocksize s) (to_i32 (md_size (md m))) b) ∧ cache_ok s' ∧ missing s' key.
Proof.
  intros Hr. destruct (unlink_lookup_run f h s path key l ld m dm Hr) as (c & Hlook & Hf & Hdm & Hlen & Hcap).
  destruct Hr as [_ _ _ _ _ _ (Hm1 & Hm2) Hpx (r & Hsr & Hsv) (He & Hne) (Hu1 & Hu2) Hdata Hroom].
  set (s2 := set_lookup_cache c (tick_steady (tick_steady s))) in *. pose proof (opened_heap _ _ _ _ _ _ _ Hf) as Hm.
  pose proof (opened_key _ _ _ _ _ _ _ Hf) as Hk. subst key.
  destruct (delete_metadata_ok s2 l m r (o_ok _ _ _ _ _ _ _ Hf) Hm Hsr Hsv) as (c3 & w3 & H3 & Hdrop & Hok3 & Hw3).
  set (s3 := set_kinetic w3 (set_lookup_cache c3 s2)) in *.
  destruct (delete_directory_entry_ok (S f) s3 ld dm (path_to_filename path) Hdm Hpx) as (w4 & H4 & Hw4).
  { change (drive s3) with (contents w3). rewrite Hw3, lookup_delete_ne by done. exact He. }
  set (s4 := set_kinetic w4 s3) in *.
  destruct (datadelete_run s4 (md_size (md m)) (md_inode_number (md m)) Hdata) as (w5 & bl & H5 & Hw5 & Hbl). exists (set_kinetic w5 s4), bl.
  split; [|split; [|split; [exact Hbl|split]]].
  - cbn [hflat_unlink]. step_by Hlook. step_by (getMD_run l s2 m Hm). rewrite bool_decide_false by (by rewrite Hm2). step_by H3.
    change (0 =? - EAGAIN) with false. cbn [negb Z.eqb orb]. unfold get_. rewrite mbind_lam.
    change (pmap_ s3) with (pmap_ s). rewrite Hu1, Hm1, !mbind_ret_l, (required_run _ _ _ _ H4).
    step_by (getMD_run l s4 m Hm). step_by H5. step_by (deref_md_run l (set_kinetic w5 s4) m Hm). rewrite mbind_lam.
    change (pmap_ (set_kinetic w5 s4)) with (pmap_ s). by rewrite Hu2, mbind_ret_l.
  - change (drive (set_kinetic w5 s4)) with (contents w5). rewrite Hw5. change (drive s4) with (contents w4). rewrite Hw4.
    change (drive s3) with (contents w3). by rewrite Hw3.
  - by destruct Hok3; split.
  - destruct Hf as [_ _ (time & (_ & _ & _ & e & Hent & _) & _) _], Hdrop as [Hg _ _ _ Hfew (Hc3 & _)]. split; [apply Hg|]. split; [apply Hg|].
    assert (Hin : is_Some (lookup_ c !! systemPath m)) by (unfold entry_of in Hent; cbn in Hent; destruct (lookup_ c !! _); [eauto|done]).
    specialize (Hfew Hin). cbn in Hfew, Hc3 |- *. rewrite Hc3. change (lookup_cache s2) with c in *. lia.
Qed.

(** C17: removing a regular file that has one name and no entry in the path map, on
    a drive nobody else writes meanwhile. [hflat_unlink] returns 0 and removes the
    inode, the directory entry and the blocks its loop over the size meets, and
    nothing else. For a file below 2 GiB that does not end with a block and whose
    inode number is below 2{^31} these are all blocks of the file; the others are
    the subject of [datadelete_truncates] and {!FuseFacts}. Every client that has
    not cached the path, the removing client included, then finds nothing there. *)
Theorem removed_file_is_gone f h s path key l ld m dm : removable f h s path key l ld m dm →
  ∃ s', hflat_unlink (S f) path s = Ret 0 s' ∧
    drive s' !! key = None ∧ drive s' !! entry_from path dm = None ∧
    (∀ b, meets (blocksize s) (to_i32 (md_size (md m))) b → drive s' !! data_key (to_i32 (md_inode_number (md m))) b = None) ∧
    (whole_data s (md m) →
       ∀ b, (b < block_count s (md_size (md m)))%nat → drive s' !! data_key (md_inode_number (md m)) (Z.of_nat b) = None) ∧
    (∀ k : cstr, k ≠ key → k ≠ entry_from path dm →
       (∀ b, meets (blocksize s) (to_i32 (md_size (md m))) b → k ≠ data_key (to_i32 (md_inode_number (md m))) b) →
       drive s' !! k = drive s !! k) ∧
    cache_ok s' ∧ missing s' key ∧
    ∀ t ts, drive t = drive s' → cache_ok t → missing t key → toSystemPath (S f) (pmap_ t) path LOOKUP = Some (key, ts) → 0 <= ts →
      ∃ l' t', lookup (S f) path None t = Ret (- ENOENT, Some l') t'.
Proof.
  intros Hr. destruct (hflat_unlink_run f h s path key l ld m dm Hr) as (s' & bl & Hrun & Hd & Hbl & Hok & Hmiss). exists s'. split; [done|].
  assert (Hkey : drive s' !! key = None).
  { rewrite Hd. unfold removed_drive. rewrite without_blocks_lookup. case_decide; [done|].
    rewrite lookup_delete_ne by apply (e_entry _ _ _ _ _ _ _ _ _ Hr). apply lookup_delete_eq. }
  assert (Hgone : ∀ b, meets (blocksize s) (to_i32 (md_size (md m))) b → drive s' !! data_key (to_i32 (md_inode_number (md m))) b = None).
  { intros b Hb%Hbl. rewrite Hd. unfold removed_drive. rewrite without_blocks_lookup, decide_True; [done|]. by apply list_elem_of_fmap_2. }
  split; [done|]. split; [|split; [exact Hgone|split; [|split; [|do 2 (split; [done|])]]]].
  - rewrite Hd. unfold removed_drive. rewrite without_blocks_lookup. case_decide; [done|]. apply lookup_delete_eq.
  - intros Hw b Hb. destruct (whole_data_met s (md m) b (e_blocks _ _ _ _ _ _ _ _ _ Hr) Hw Hb) as (Hi & Hm). rewrite <- Hi. by apply Hgone.
  - intros k Hk He Hb. rewrite Hd. unfold removed_drive. rewrite without_blocks_lookup, decide_False; [by rewrite !lookup_delete_ne|].
    intros (b & -> & Hin%Hbl)%list_elem_of_fmap. by apply (Hb b).
  - intros t ts Hdt Hokt Hm Hp Hts.
    destruct (lookup_missing f path None t key ts (MetadataInfo_new key) Hokt Hp Hts Hm) as (w & _ & Hl); [|by left|].
    + unfold loads. by rewrite Hdt, Hkey.
    + by exists (next_loc t), (loaded t w key (MetadataInfo_new key)).
Qed.

(** The thread that deletes the data takes its arguments as [int]: once inode
    numbers pass 2{^32} the blocks of another file are deleted, and a file of
    2 GiB keeps all of its blocks. *)
Theorem datadelete_truncates s size ino :
  datadelete size (ino + 4294967296) s = datadelete size ino s ∧
  (2147483648 <= size < 4294967296 → datadelete size ino s = Ret tt s).
Proof.
  unfold datadelete. split.
  - assert (to_i32 (ino + 4294967296) = to_i32 ino) as ->; [|done]. unfold to_i32, u32_mod. rewrite <- (Z.mod_add (ino + 2147483648) 1) by lia.
    do 2 f_equal. lia.
  - intros Hs. assert (Hneg : to_i32 size = size - 4294967296).
    { unfold to_i32, u32_mod. rewrite <- (Z.mod_unique (size + 2147483648) 4294967296 1 (size - 2147483648)); lia. }
    rewrite Hneg. assert ((size - 4294967296 <=? 0) = true) as Hle by (apply Z.leb_le; lia).
    destruct (Z.to_nat _); cbn [datadelete_loop]; by rewrite Hle.
Qed.
End RemoveFacts.

(** ** Witness: [/f] is removed from the root *)

#[local] Existing Instance demo_env.

(** The file with six bytes, its entry and its block. *)
Definition demo_six_tree : store := <[ lit "/f" := mk_KineticRecord (SerializeAsString demo_six) (lit "r1") ]> demo_tree.
Definition demo_six_file : MetadataInfo := setMD demo_six (lit "r1") (MetadataInfo_new (lit "/f")).
Definition demo_remover : hflat_priv store := demo_two demo_six_tree demo_six_file.

Lemma demo_six_root_stored : loads (demo_mount demo_six_tree) (lit "/") demo_root_md.
Proof. exists demo_root. split; [by vm_compute|done]. Qed.

Lemma demo_six_file_stored : loads (demo_mount demo_six_tree) (lit "/f") demo_six_file.
Proof. exists demo_six. split; [by vm_compute|done]. Qed.

Lemma demo_removable : removable 0 4 demo_remover (lit "/f") (lit "/f") 2 1 demo_six_file demo_root_md.
Proof.
  pose proof (demo_two_root demo_six_tree demo_six_file demo_six_root_stored demo_six_file_stored) as Hroot.
  split; [|exists (lit "/"); apply Hroot|discriminate|reflexivity|split; reflexivity|reflexivity|split; reflexivity|reflexivity| | |
    split; vm_compute; reflexivity| |discriminate].
  - apply demo_two_file; [apply demo_six_root_stored|apply demo_six_file_stored|done].
  - exists (mk_KineticRecord (SerializeAsString demo_six) (lit "r1")). split; [vm_compute|]; reflexivity.
  - split; [vm_compute; reflexivity|discriminate].
  - reflexivity.
Qed.

Lemma removed_file_is_gone_witness :
  ∃ s' l' t', hflat_unlink 1 (lit "/f") demo_remover = Ret 0 s' ∧ drive s' !! lit "/f" = None ∧ drive s' !! lit "7_0" = None ∧
    drive s' !! lit "/" = drive demo_remover !! lit "/" ∧
    lookup 1 (lit "/f") None (demo_mount (kinetic s')) = Ret (- ENOENT, Some l') t'.
Proof.
  destruct (removed_file_is_gone 0 4 demo_remover (lit "/f") (lit "/f") 2 1 demo_six_file demo_root_md)
    as (s' & H1 & H2 & _ & _ & H4 & H5 & _ & _ & H6).
  - exact demo_removable.
  - destruct (H6 (demo_mount (kinetic s')) 0) as (l' & t' & H7).
    + reflexivity.
    + apply demo_mount_ok.
    + apply demo_missing.
    + vm_compute. reflexivity.
    + discriminate.
    + exists s', l', t'. split; [exact H1|]. split; [exact H2|]. split; [apply H4 with (b := O); [split; [done|split; [done|by right]]|apply Nat.lt_0_succ]|]. split; [|exact H7].
      apply H5; [discriminate|discriminate|]. intros b. discriminate.
Defined.
