(* ===== verification/UnlinkFacts.v ===== *)
(** * Removing one of several names

    {!File.hflat_unlink} of a name that forwards to a shared inode, by a client that
    has cached neither: the name goes, the inode stays with one link less, and the
    other names lead to it as before. *)
From S2P Require Import Prelude CppString Proto PathMapDB LRUCache DataInfo MetadataInfo Kinetic FsState Demo KineticHelper Util Lookup Directory File Data Link Rename Permission HelperFacts FuseFacts LookupFacts CreateFacts RenameFacts MoveFacts RefreshFacts HardlinkFacts RemoveFacts.

Section UnlinkFacts.
Context {W : Type} `{!Env} `{!KineticNamespace W} `{!KineticNamespaceSpec W} `{!KineticReliable W}.
Implicit Types (s t : hflat_priv W) (m mT ms dm : MetadataInfo) (key path : cstr).

(** ** The two inodes *)

(** The shared inode with one link less. *)
Definition fewer_md s m : Metadata :=
  updateACtime (env_time (time_used s)) (set_link_count (md_link_count (md m) - 1) (md m)).
Definition fewer_record s m : KineticRecord := mk_KineticRecord (SerializeAsString (fewer_md s m)) (env_uuid (1 + uuids_used s)).

(** The forwarding inode is read anew. *)
Lemma source_read f s path key ts ms : cache_ok s → toSystemPath f (pmap_ s) path LOOKUP = Some (key, ts) → 0 <= ts →
  loads s key ms → is_Some (drive s !! key) →
  ∃ w, let s1 := set_heap (<[next_loc s := ms]> (heap_md s)) (heap_di s) (S (next_loc s)) (set_kinetic w s) in
    contents w = drive s ∧ cache_ok s1 ∧ get_metadata_userpath f path None s = Ret (0, Some (next_loc s)) s1.
Proof.
  intros Hok Hp Hts Hms Hsome. set (s0 := set_heap (<[next_loc s := MetadataInfo_new key]> (heap_md s)) (heap_di s) (S (next_loc s)) s).
  destruct (get_metadata_loads s0 key ms (next_loc s)) as (w & Hw & Hg); [apply lookup_insert_eq|exact Hms|].
  rewrite decide_False in Hg by (change (drive s0) with (drive s); by destruct Hsome as [? ->]).
  exists w. cbn zeta. set (s1 := set_heap (<[next_loc s := ms]> _) _ _ (set_kinetic w s)).
  assert (Hs1 : set_heap (<[next_loc s := ms]> (heap_md s0)) (heap_di s0) (next_loc s0) (set_kinetic w s0) = s1).
  { unfold s1. cbn. by rewrite insert_insert_eq. } rewrite Hs1 in Hg.
  split; [exact Hw|]. split; [by apply (cache_ok_alloc s s1 ms)|].
  unfold get_metadata_userpath. assert (Hpm : pmap_toSystemPath f path LOOKUP s = Ret (key, ts) s) by (unfold pmap_toSystemPath; by rewrite Hp).
  step_by Hpm. destruct (Z.ltb_spec ts 0); [lia|]. unfold new_md. rewrite mbind_lam. fold s0. by step_by Hg.
Qed.

(** And its count set to 0. *)
Lemma source_claimed s1 (l3 : loc) key ms : cache_ok s1 → heap_md s1 !! l3 = Some ms → loads s1 key ms → is_Some (drive s1 !! key) →
  let m0 := on_md (set_link_count 0) ms in
  ∃ w c, let s2 := set_lookup_cache c (tick_steady (with_md (set_kinetic w (tick_uuid (with_md s1 l3 m0))) l3 (setKeyVersion (env_uuid (uuids_used s1)) m0))) in
    put_metadata l3 (with_md s1 l3 m0) = Ret 0 s2 ∧ cache_ok s2 ∧
    drive s2 = <[key := mk_KineticRecord (SerializeAsString (md m0)) (env_uuid (uuids_used s1))]> (drive s1).
Proof.
  intros Hok Hm Hms Hsome m0. assert (Hok1 : cache_ok (with_md s1 l3 m0)) by (by apply (cache_ok_frame s1 (with_md s1 l3 m0) l3 ms m0)).
  destruct (loads_version s1 key ms Hms Hsome) as (Hver & _). pose proof (loads_path s1 key ms Hms) as Hk.
  destruct (put_metadata_ok (with_md s1 l3 m0) l3 m0 Hok1 (lookup_insert_eq _ _ _)) as (w & c & Hput & Hw & Hok2); [by cbn; rewrite Hk|].
  exists w, c. split; [exact Hput|]. split; [exact Hok2|]. etransitivity; [exact Hw|]. cbn [systemPath on_md m0]. by rewrite Hk.
Qed.

(** The shared inode is stored with one link less. *)
Lemma target_released s (l : loc) m : cache_ok s → heap_md s !! l = Some m →
  version_matches (drive s) (systemPath m) (keyVersion m) REQUIRE_SAME_VERSION → wrap32 (md_link_count (md m) - 1) ≠ 0 →
  ∃ w c m', let s' := set_lookup_cache c (tick_steady (with_md (set_kinetic w (tick_uuid (set_inputs (uuids_used s) (steady_used s) (S (time_used s)) s))) l m')) in
    (∀ B (k : Z → M (hflat_priv W) B),
      (change_md l (λ x, set_link_count (md_link_count x - 1) x) ;;;
       let! y := getMD l in
       let! err := (if md_link_count y =? 0 then delete_metadata l else touch_AC l ;;; put_metadata l) in k err) s = k 0 s') ∧
    systemPath m' = systemPath m ∧ md m' = fewer_md s m ∧ cache_ok s' ∧
    drive s' = <[systemPath m := mk_KineticRecord (SerializeAsString (fewer_md s m)) (env_uuid (uuids_used s))]> (drive s).
Proof.
  intros Hok Hm Hv Hc. set (m1 := on_md (λ x, set_link_count (md_link_count x - 1) x) m). set (s1 := with_md s l m1).
  assert (Hm1 : heap_md s1 !! l = Some m1) by apply lookup_insert_eq. pose proof (touch_AC_run s1 l m1 Hm1) as Ht.
  set (m2 := on_md (λ x, moved_md s1 m1) m1) in Ht. set (s2 := with_md _ l m2) in Ht.
  assert (Hm2 : heap_md s2 !! l = Some m2) by apply lookup_insert_eq.
  assert (Hok1 : cache_ok s1) by (by apply (cache_ok_frame s s1 l m m1)).
  assert (Hok2 : cache_ok s2) by (by apply (cache_ok_frame s1 s2 l m1 m2)).
  destruct (put_metadata_ok s2 l m2 Hok2 Hm2 Hv) as (w & c & Hput & Hw & Hok'). set (s' := set_lookup_cache c _) in *.
  exists w, c, (setKeyVersion (env_uuid (uuids_used s)) m2).
  assert (Hs' : s' = set_lookup_cache c (tick_steady (with_md (set_kinetic w (tick_uuid (set_inputs (uuids_used s) (steady_used s) (S (time_used s)) s))) l (setKeyVersion (env_uuid (uuids_used s)) m2)))).
  { unfold s', s2, s1, with_md. cbn. by rewrite !insert_insert_eq. }
  cbn zeta. rewrite <- Hs'. split; [|split; [done|split; [done|split; [exact Hok'|exact Hw]]]].
  intros B k. step_by (change_md_run l s m (λ x, set_link_count (md_link_count x - 1) x) Hm). change (set_heap _ _ _ s) with s1.
  step_by (getMD_run l s1 m1 Hm1). change (md_link_count (md m1)) with (wrap32 (md_link_count (md m) - 1)).
  rewrite (proj2 (Z.eqb_neq _ _) Hc), mbind_assoc. step_by Ht. by step_by Hput.
Qed.
Lemma unlink_hardlink_run f s path key ts ms (l : loc) m : cache_ok s → toSystemPath f (pmap_ s) path LOOKUP = Some (key, ts) → 0 <= ts →
  loads s key ms → is_Some (drive s !! key) → md_type (md ms) = HARDLINK_S → md_link_count (md ms) ≠ 0 →
  heap_md s !! l = Some m → version_matches (drive s) (systemPath m) (keyVersion m) REQUIRE_SAME_VERSION →
  systemPath m ≠ key → wrap32 (md_link_count (md m) - 1) ≠ 0 →
  ∃ s' m', unlink_hardlink f path l s = Ret 0 s' ∧ cache_ok s' ∧
    drive s' = delete key (<[systemPath m := fewer_record s m]> (drive s)) ∧
    (heap_md s' !! l = Some m' ∧ systemPath m' = systemPath m ∧ md m' = fewer_md s m) ∧
    (∀ l', l' ≠ l → is_Some (heap_md s !! l') → heap_md s' !! l' = heap_md s !! l') ∧
    (ctx s' = ctx s ∧ posix s' = posix s ∧ pmap_ s' = pmap_ s).
Proof.
  intros Hok Hp Hts Hms Hsome Hty Hcs Hm Hv Hne Hc. set (l3 := next_loc s). set (m0 := on_md (set_link_count 0) ms).
  assert (Hlo : ∀ l', is_Some (heap_md s !! l') → l3 ≠ l') by (intros l' [x Hx] <-; by rewrite (ok_fresh _ Hok) in Hx by (unfold l3; lia)).
  destruct (source_read f s path key ts ms Hok Hp Hts Hms Hsome) as (w1 & Hw1 & Hok1 & Hget).
  fold l3 in Hok1, Hget. set (s1 := set_heap (<[l3 := ms]> _) _ _ _) in *. assert (Hd1 : drive s1 = drive s) by exact Hw1.
  assert (Hm1 : heap_md s1 !! l3 = Some ms) by apply lookup_insert_eq.
  destruct (source_claimed s1 l3 key ms Hok1 Hm1) as (w2 & c & Hput & Hok2 & Hd2); [unfold loads; by rewrite Hd1|by rewrite Hd1|].
  fold m0 in Hput, Hok2, Hd2. rewrite Hd1 in Hd2. change (uuids_used s1) with (uuids_used s) in *. set (s2 := set_lookup_cache c _) in *.
  assert (Hh2 : heap_md s2 = <[l3 := setKeyVersion (env_uuid (uuids_used s)) m0]> (heap_md s)).
  { unfold s2, s1, with_md. cbn. by rewrite !insert_insert_eq. }
  assert (Hm2 : heap_md s2 !! l = Some m) by (rewrite Hh2, lookup_insert_ne; [done|apply Hlo; eauto]).
  destruct (target_released s2 l m Hok2 Hm2) as (w3 & c3 & m' & Hrun & Hk' & Hmd' & Hok3 & Hd3); [rewrite Hd2; cbn; by rewrite lookup_insert_ne by done|exact Hc|].
  set (s3 := set_lookup_cache c3 _) in *.
  assert (Hh3 : ∀ l', l' ≠ l → heap_md s3 !! l' = heap_md s2 !! l') by (intros l' Hl'; apply lookup_insert_ne; congruence).
  assert (Hu2 : uuids_used s2 = S (uuids_used s) ∧ time_used s2 = time_used s) by done.
  assert (Hf : fewer_md s2 m = fewer_md s m) by (unfold fewer_md; by rewrite (proj2 Hu2)).
  rewrite (proj1 Hu2), Hf, Hd2 in Hd3. rewrite Hf in Hmd'.
  destruct (delete_metadata_ok s3 l3 (setKeyVersion (env_uuid (uuids_used s)) m0) (mk_KineticRecord (SerializeAsString (md m0)) (env_uuid (uuids_used s))))
    as (c4 & w4 & Hdel & _ & Hok4 & Hw4); [exact Hok3|rewrite Hh3, Hh2; [apply lookup_insert_eq|apply Hlo; eauto]| |done|].
  { cbn [systemPath setKeyVersion on_md m0]. rewrite (loads_path s key ms Hms), Hd3, lookup_insert_ne by done. apply lookup_insert_eq. }
  set (s4 := set_kinetic w4 _) in Hdel. exists s4, m'. split; [|split; [by destruct Hok4; split|split; [|split; [|split]]]].
  - unfold unlink_hardlink. rewrite (on_found_run _ _ _ _ _ Hget). step_by (getMD_run l3 s1 ms Hm1). rewrite bool_decide_true by done. unfold assert_ at 1.
    rewrite mbind_lam, (proj2 (Z.eqb_neq _ _) Hcs). step_by (change_md_run l3 s1 ms (set_link_count 0) Hm1).
    rewrite (on_ok_run _ _ _ _ Hput). change (set_lookup_cache _ _) with s2. rewrite Hrun. cbn [negb Z.eqb]. by step_by Hdel.
  - change (drive s4) with (contents w4). rewrite Hw4, Hd3. cbn [systemPath setKeyVersion on_md m0]. rewrite (loads_path s key ms Hms).
    rewrite insert_insert_ne by done. by rewrite delete_insert_eq.
  - split; [apply lookup_insert_eq|done].
  - intros l' Hl' Hs. change (heap_md s3 !! l' = heap_md s !! l'). rewrite Hh3, Hh2, lookup_insert_ne; [done|by apply Hlo|done].
  - done.
Qed.
(** ** The whole operation *)

(** A name that forwards to a shared inode, of which the client has cached neither,
    in a directory that it has cached and may write. *)
Record linked_name f h t path key (n ts : Z) (ld : loc) ms mT dm : Prop := {
  q_ok : cache_ok t ∧ room t;
  q_path : toSystemPath (S (S f)) (pmap_ t) path LOOKUP = Some (key, ts) ∧ 0 <= ts ∧
           toSystemPath (S f) (pmap_ t) (hardlink_key n) LOOKUP = Some (hardlink_key n, 0);
  q_missing : missing t key ∧ missing t (hardlink_key n);
  q_source : loads t key ms ∧ is_Some (drive t !! key) ∧ md_type (md ms) = HARDLINK_S ∧ md_inode_number (md ms) = n;
  q_target : loads t (hardlink_key n) mT ∧ is_Some (drive t !! hardlink_key n) ∧ md_type (md mT) = HARDLINK_T ∧
             S_ISDIR (md_mode (md mT)) = false ∧ 0 <= md_path_permission_verified (md mT);
  q_answer : check_path_permissions (ctx t) (md_path_permission (md mT)) = 0;
  q_dir : ∃ k, opened (S f) (5 + h) t (parent_path path) k ld dm ∧ k ≠ key ∧ k ≠ hardlink_key n;
  q_slash : find_last_of (lit "/:") path ≠ npos;
  q_isdir : S_ISDIR (md_mode (md dm)) = true;
  q_access : check_path_permissions (ctx t) (md_path_permission_children (md dm)) = 0 ∧ check_access (ctx t) (md dm) (Z.lor W_OK X_OK) = 0;
  q_sticky : sticky_denies (ctx t) (md dm) (md mT) = false;
  q_posix : posix t = TIMERELAXED;
  q_entry : drive t !! entry_from path dm = Some direntry_record ∧ NoDup [key; hardlink_key n; entry_from path dm];
  q_unmapped : hasMapping (pmap_ t) path = false ∧ hasMapping (pmap_ t) (c_str (hardlink_key n)) = false;
}.

Lemma unlink_lookup_linked f h t path key n ts ld ms mT dm : linked_name f h t path key n ts ld ms mT dm →
  ∃ l t3, unlink_lookup (S (S f)) path t = Ret (inr (l, ld)) t3 ∧ cache_ok t3 ∧ drive t3 = drive t ∧
    (heap_md t3 !! l = Some mT ∧ heap_md t3 !! ld = Some dm ∧ l ≠ ld) ∧
    (ctx t3 = ctx t ∧ posix t3 = posix t ∧ pmap_ t3 = pmap_ t ∧ time_used t3 = time_used t ∧ uuids_used t3 = uuids_used t).
Proof.
  intros [(Hok & Hroom) (Hp & Hts & Hph) (Hm1 & Hm2) (Hms & Hss & Hst & Hn) (HmT & HsT & HtT & _ & Hv) Hans (k & Hd & Hk1 & Hk2) Hpos Hdir (Hch & Hacc) Hsticky _ (_ & Hnd) _].
  rewrite !NoDup_cons, !not_elem_of_cons in Hnd. destruct Hnd as ((Hne & _) & _).
  destruct (lookup_source (S f) path None t key ts ms Hok Hp Hts Hm1 Hms Hss Hst) as (t1 & Hl1 & Hok1 & Hd1 & (Hx1 & Hp1 & Hpx1 & Htm1 & Hu1) & Hkeep & Hopen). rewrite Hn in Hl1.
  assert (HmT1 : loads t1 (hardlink_key n) mT) by (unfold loads; by rewrite Hd1). pose proof (Hkeep Hroom _ (not_eq_sym Hne) Hm2) as Hm21.
  destruct (loads_version t _ mT HmT HsT) as (_ & Hino).
  destruct (lookup_missing f (hardlink_key n) (Some (next_loc t)) t1 (hardlink_key n) 0 mT Hok1) as (w & Hw & Hl2); [by rewrite Hp1|done|done|done| |].
  { right. by rewrite HtT. }
  assert (Ha1 : answer t1 (md mT) = 0) by (unfold answer; by rewrite (proj2 (Z.eqb_neq _ _) Hino), Hx1). rewrite Ha1, <- Hl1 in Hl2.
  pose proof (opened_loaded (S f) (1 + h) t1 _ k ld dm w (hardlink_key n) mT (Hopen _ _ _ _ _ _ Hd Hk1) Hm21 HmT1 Hk2) as Hd2.
  set (t2 := loaded t1 w (hardlink_key n) mT) in *. set (l := next_loc t1) in *.
  destruct (opened_parent (S f) h t2 path k ld dm None Hd2 Hpos Hdir) as (c & Hl3 & Hr); [change (ctx t2) with (ctx t1); by rewrite Hx1|].
  set (t3 := set_lookup_cache c (tick_steady t2)) in *.
  assert (HT3 : heap_md t3 !! l = Some mT) by apply lookup_insert_eq. pose proof (opened_heap _ _ _ _ _ _ _ Hd2) as HD3.
  exists l, t3. split; [|split; [apply reordered_ok; [apply Hd2|done]|split; [etransitivity; [exact Hw|exact Hd1]|split; [|done]]]].
  - unfold unlink_lookup. step_by Hl2. cbn [negb Z.eqb fst snd]. step_by Hl3. cbn [negb Z.eqb fst snd]. unfold non_null. rewrite !mbind_ret_l.
    assert (Hct : ctx t3 = ctx t) by exact Hx1. step_by (access_to_run ld dm (Z.lor W_OK X_OK) t3 HD3). rewrite Hct, Hacc. cbn [negb Z.eqb].
    unfold fuse_get_context, gets_. rewrite mbind_lam, Hct. step_by (getMD_run ld t3 dm HD3). step_by (getMD_run l t3 mT HT3).
    fold (sticky_denies (ctx t) (md dm) (md mT)). by rewrite Hsticky.
  - split; [exact HT3|]. split; [exact HD3|]. intros E. pose proof (opened_heap _ _ _ _ _ _ _ (Hopen _ _ _ _ _ _ Hd Hk1)) as Hx.
    by rewrite <- E, (ok_fresh _ Hok1) in Hx.
Qed.

Lemma one_less (c : Z) : 2 <= c < u32_mod → wrap32 (c - 1) = c - 1.
Proof. intros. apply Z.mod_small. lia. Qed.

(** The drives afterwards. *)
Definition unlinked_drive t path key (n : Z) mT dm : store :=
  delete (entry_from path dm) (delete key (<[hardlink_key n := fewer_record t mT]> (drive t))).

Lemma hflat_unlink_linked f h t path key n ts ld ms mT dm : linked_name f h t path key n ts ld ms mT dm →
  md_link_count (md ms) ≠ 0 → 2 <= md_link_count (md mT) < u32_mod →
  ∃ t', hflat_unlink (S (S f)) path t = Ret 0 t' ∧ drive t' = unlinked_drive t path key n mT dm ∧ cache_ok t' ∧ ctx t' = ctx t ∧ pmap_ t' = pmap_ t.
Proof.
  intros Hq Hcs Hct. destruct (unlink_lookup_linked f h t path key n ts ld ms mT dm Hq) as (l & t3 & Hl & Hok3 & Hd3 & (HT & HD & Hlne) & (Hx & Hpx & Hpm & Htm & Hu)).
  destruct Hq as [_ (Hp & Hts & _) _ (Hms & Hss & Hst & _) (HmT & HsT & HtT & Hdirm & _) _ _ _ _ _ _ Hposix (He & Hnd) (Hun1 & Hun2)].
  assert (wrap32 (md_link_count (md mT) - 1) ≠ 0) as Hcw by (rewrite one_less; lia).
  rewrite !NoDup_cons, !not_elem_of_cons in Hnd. destruct Hnd as ((Hne & Hne1 & _) & (Hne2 & _) & _).
  destruct (loads_version t _ mT HmT HsT) as (Hver & _). pose proof (loads_path t _ mT HmT) as Hk.
  destruct (unlink_hardlink_run (S (S f)) t3 path key ts ms l mT Hok3) as (t4 & m' & Hrun & Hok4 & Hd4 & (Hm' & Hk' & Hmd') & Hh4 & (Hx4 & Hpx4 & Hpm4));
    [by rewrite Hpm|done|unfold loads; by rewrite Hd3|by rewrite Hd3|done|done|done|by rewrite Hd3, Hk|rewrite Hk; congruence|done|].
  assert (Hfr : fewer_record t3 mT = fewer_record t mT) by (unfold fewer_record, fewer_md; by rewrite Htm, Hu). rewrite Hfr, Hk, Hd3 in Hd4.
  assert (HD4 : heap_md t4 !! ld = Some dm) by (rewrite Hh4; [done|done|by exists dm]).
  destruct (delete_directory_entry_ok (S (S f)) t4 ld dm (path_to_filename path) HD4) as (w & Hdel & Hw);
    [congruence|rewrite Hd4, lookup_delete_ne, lookup_insert_ne by done; exact He|]. rewrite Hd4 in Hw.
  exists (set_kinetic w t4). split; [|split; [exact Hw|split; [by destruct Hok4; split|split; cbn; congruence]]].
  cbn [hflat_unlink]. step_by Hl. step_by (getMD_run l t3 mT HT). rewrite bool_decide_true by done. step_by Hrun. change (0 =? - EAGAIN) with false. cbn [negb Z.eqb orb].
  unfold get_. rewrite mbind_lam, Hpm4, Hpm, Hun1, Hdirm, !mbind_ret_l, (required_run _ _ _ _ Hdel).
  step_by (getMD_run l (set_kinetic w t4) m' Hm'). rewrite Hmd'.
  change (md_link_count (fewer_md t3 mT)) with (wrap32 (md_link_count (md mT) - 1)). rewrite (proj2 (Z.eqb_neq _ _) Hcw), mbind_ret_l.
  step_by (deref_md_run l (set_kinetic w t4) m' Hm'). rewrite mbind_lam. cbn [pmap_ set_kinetic]. by rewrite Hpm4, Hpm, Hk', Hk, Hun2, mbind_ret_l.
Qed.

(** C19: removing one name of a file that has at least two. For a client that has
    cached the directory, which the caller may write, but neither the name nor the
    shared inode, [hflat_unlink] returns 0; the name and its directory entry are
    gone, the shared inode counts one link less and is otherwise the same but for
    the times, and nothing else on the drives changes, the data of the file
    included. Every client that has not cached the name then gets -ENOENT for it,
    and every client that has cached neither another name nor the shared inode finds
    the inode under that name. *)
Theorem unlinked_name_leaves_inode `{!MessageSpec Metadata} f h t path key n ts ld ms mT dm :
  linked_name f h t path key n ts ld ms mT dm → md_link_count (md ms) ≠ 0 → 2 <= md_link_count (md mT) < u32_mod →
  let x := fewer_md t mT in msg_wf x →
  ∃ t', hflat_unlink (S (S f)) path t = Ret 0 t' ∧ drive t' = unlinked_drive t path key n mT dm ∧ cache_ok t' ∧
    (md_link_count x = md_link_count (md mT) - 1 ∧ md_inode_number x = md_inode_number (md mT) ∧ md_size x = md_size (md mT) ∧
     md_mode x = md_mode (md mT) ∧ md_uid x = md_uid (md mT) ∧ md_gid x = md_gid (md mT)) ∧
    ∀ u, drive u = drive t' → cache_ok u →
      (∀ g p ts', missing u key → toSystemPath (S g) (pmap_ u) path LOOKUP = Some (key, ts') → 0 <= ts' →
         ∃ l u', lookup (S g) path p u = Ret (- ENOENT, Some l) u') ∧
      (∀ g p name kn ts' mn, kn ∉ [key; hardlink_key n; entry_from path dm] →
         loads t kn mn → is_Some (drive t !! kn) → md_type (md mn) = HARDLINK_S → md_inode_number (md mn) = n →
         room u → missing u kn → missing u (hardlink_key n) →
         toSystemPath (S (S g)) (pmap_ u) name LOOKUP = Some (kn, ts') → 0 <= ts' →
         toSystemPath (S g) (pmap_ u) (hardlink_key n) LOOKUP = Some (hardlink_key n, 0) →
         ∃ l u' m, lookup (S (S g)) name p u = Ret (check_path_permissions (ctx u) (md_path_permission (md mT)), Some l) u' ∧
           heap_md u' !! l = Some m ∧ md m = x).
Proof.
  intros Hq Hcs Hct x Hwf. destruct (hflat_unlink_linked f h t path key n ts ld ms mT dm Hq Hcs Hct) as (t' & Hrun & Hd & Hok & _ & _).
  destruct Hq as [_ _ _ _ (HmT & HsT & HtT & _ & Hv) _ _ _ _ _ _ _ (_ & Hnd) _]. destruct (loads_version t _ mT HmT HsT) as (_ & Hino).
  rewrite !NoDup_cons, !not_elem_of_cons in Hnd. destruct Hnd as ((Hne & Hne1 & _) & (Hne2 & _) & _).
  exists t'. split; [done|]. split; [done|]. split; [done|]. split; [split; [exact (one_less _ Hct)|done]|].
  intros u Hdu Hoku. rewrite Hd in Hdu. unfold unlinked_drive in Hdu. split.
  - intros g p ts' Hmk Hp Hts'. destruct (lookup_missing g path p u key ts' (MetadataInfo_new key) Hoku Hp Hts' Hmk) as (w & _ & Hl); [|by left|by eexists _, _].
    unfold loads. by rewrite Hdu, lookup_delete_ne, lookup_delete_eq by done.
  - intros g p name kn ts' mn Hnk Hmn Hsn Htn Hin Hroom Hmk Hmh Hp Hts' Hph.
    rewrite !not_elem_of_cons in Hnk. destruct Hnk as (Hn1 & Hn2 & Hn3 & _). set (m := setMD x (env_uuid (1 + uuids_used t)) (MetadataInfo_new (hardlink_key n))).
    assert (Hkn : drive u !! kn = drive t !! kn) by (by rewrite Hdu, !lookup_delete_ne, lookup_insert_ne by done).
    destruct (lookup_linked g name p u kn n ts' m Hoku Hroom Hp Hts' Hmk) as (l & u' & Hl & Hm & _); [| |done|done| | |].
    + exists mn. unfold loads. by rewrite Hkn.
    + done.
    + unfold loads. rewrite Hdu, !lookup_delete_ne, lookup_insert_eq by done. exists x. split; [by apply parse_serialize|done].
    + right. cbn. by rewrite HtT.
    + exists l, u', m. split; [|done]. unfold answer in Hl. change (md_inode_number (md m)) with (md_inode_number (md mT)) in Hl.
      by rewrite (proj2 (Z.eqb_neq _ _) Hino) in Hl.
Qed.
(** The count of the forwarding inode is set to 0 before anything else is written, and
    a name whose count is 0 is refused: an unlink that is cut off here leaves a name
    that leads to the file as before and that nobody can remove any more. *)
Theorem interrupted_unlink_stays f h t path key n ts ld ms mT dm : linked_name f h t path key n ts ld ms mT dm →
  md_link_count (md ms) = 0 →
  (∃ t', hflat_unlink (S (S f)) path t = Ret (- EINVAL) t' ∧ drive t' = drive t) ∧
  (∃ l t', lookup (S (S f)) path None t = Ret (0, Some l) t' ∧ heap_md t' !! l = Some mT).
Proof.
  intros Hq Hc. destruct (unlink_lookup_linked f h t path key n ts ld ms mT dm Hq) as (l & t3 & Hl & Hok3 & Hd3 & (HT & _) & (_ & _ & Hpm & _)).
  destruct Hq as [(Hok & Hroom) (Hp & Hts & Hph) (Hm1 & Hm2) (Hms & Hss & Hst & Hn) (HmT & HsT & HtT & _ & Hv) Hans _ _ _ _ _ _ (_ & Hnd) _].
  rewrite NoDup_cons, not_elem_of_cons in Hnd. destruct Hnd as ((Hne & _) & _). split.
  - assert (Hld3 : loads t3 key ms) by (unfold loads; by rewrite Hd3).
    destruct (source_read (S (S f)) t3 path key ts ms Hok3) as (w1 & Hw1 & _ & Hget); [by rewrite Hpm|done|done|by rewrite Hd3|].
    set (s1 := set_heap _ _ _ _) in Hget. assert (Hm' : heap_md s1 !! next_loc t3 = Some ms) by apply lookup_insert_eq.
    assert (Hr : unlink_hardlink (S (S f)) path l t3 = Ret (- EINVAL) s1).
    { unfold unlink_hardlink. rewrite (on_found_run _ _ _ _ _ Hget). step_by (getMD_run _ s1 ms Hm'). rewrite bool_decide_true by done.
      unfold assert_. by rewrite mbind_lam, Hc. }
    exists s1. split; [|etransitivity; [exact Hw1|exact Hd3]]. cbn [hflat_unlink]. step_by Hl. step_by (getMD_run l t3 mT HT).
    rewrite bool_decide_true by done. by step_by Hr.
  - destruct (loads_version t _ mT HmT HsT) as (_ & Hino).
    destruct (lookup_linked f path None t key n ts mT Hok Hroom Hp Hts Hm1 ltac:(by exists ms) ltac:(congruence) Hm2 Hph HmT) as (l' & t' & Hrun & Hm' & _).
    { right. by rewrite HtT. }
    exists l', t'. split; [|done]. unfold answer in Hrun. by rewrite (proj2 (Z.eqb_neq _ _) Hino), Hans in Hrun.
Qed.
End UnlinkFacts.

(** ** Witness: [/f] is removed, [/g] is the same file *)

#[local] Existing Instance demo_env.
#[local] Existing Instance demo_metadata_spec.

Definition demo_linked_tree : store :=
  linked_drive demo_renamer (<[ demo_entry (lit "f") := direntry_record ]> demo_files) (lit "/g") (lit "/f") (lit "/g") demo_root_md demo_file_md.
Definition demo_name (key : cstr) (i : nat) : MetadataInfo := setMD (source_md 7) (env_uuid (i + uuids_used demo_renamer)) (MetadataInfo_new key).
Definition demo_shared : MetadataInfo := setMD (shared_md demo_renamer demo_file_md) (env_uuid (2 + uuids_used demo_renamer)) (MetadataInfo_new (hardlink_key 7)).
Definition demo_unlinker : hflat_priv store := demo_rooted_at demo_linked_tree.

Lemma demo_linked_root : loads (demo_mount demo_linked_tree) (lit "/") demo_root_md.
Proof. exists demo_root. split; [vm_compute; reflexivity|done]. Qed.

Lemma demo_linked_name (key : cstr) (i : nat) (r : KineticRecord) : demo_linked_tree !! key = Some r →
  kr_value r = SerializeAsString (source_md 7) → kr_version r = env_uuid (i + uuids_used demo_renamer) →
  loads demo_unlinker key (demo_name key i) ∧ is_Some (drive demo_unlinker !! key) ∧
  md_type (md (demo_name key i)) = HARDLINK_S ∧ md_inode_number (md (demo_name key i)) = 7.
Proof.
  intros Hr Hv Hver. change (drive demo_unlinker) with demo_linked_tree. unfold loads. change (drive demo_unlinker) with demo_linked_tree. rewrite Hr.
  split; [|by split; [exists r|]]. exists (source_md 7). rewrite Hv, Hver. split; [vm_compute; reflexivity|done].
Qed.

Lemma demo_unlinkable : linked_name 0 0 demo_unlinker (lit "/f") (lit "/f") 7 0 1 (demo_name (lit "/f") 0) demo_shared demo_root_md.
Proof.
  split.
  - split; [apply demo_rooted_at_ok, demo_linked_root|reflexivity].
  - split; [vm_compute; reflexivity|]. split; [apply Z.le_refl|vm_compute; reflexivity].
  - split; apply demo_rooted_at_missing; discriminate.
  - apply (demo_linked_name _ _ (source_record demo_renamer 0 7)); vm_compute; reflexivity.
  - split; [|split; [|split; [reflexivity|split; [reflexivity|discriminate]]]].
    + exists (shared_md demo_renamer demo_file_md). split; [vm_compute; reflexivity|]. split; [discriminate|reflexivity].
    + exists (shared_record demo_renamer demo_file_md). vm_compute. reflexivity.
  - reflexivity.
  - exists (lit "/"). split; [apply demo_rooted_root, demo_linked_root|split; discriminate].
  - discriminate.
  - reflexivity.
  - split; reflexivity.
  - reflexivity.
  - reflexivity.
  - split; [vm_compute; reflexivity|]. apply (bool_decide_unpack _). vm_compute. exact I.
  - split; vm_compute; reflexivity.
Qed.

Lemma unlinked_name_leaves_inode_witness :
  ∃ t' l u l2 u2 m, hflat_unlink 2 (lit "/f") demo_unlinker = Ret 0 t' ∧
    lookup 1 (lit "/f") None (demo_mount (kinetic t')) = Ret (- ENOENT, Some l) u ∧
    lookup 2 (lit "/g") None (demo_mount (kinetic t')) = Ret (0, Some l2) u2 ∧ heap_md u2 !! l2 = Some m ∧
    md_link_count (md m) = 1 ∧ md_inode_number (md m) = 7.
Proof.
  destruct (unlinked_name_leaves_inode 0 0 demo_unlinker (lit "/f") (lit "/f") 7 0 1 (demo_name (lit "/f") 0) demo_shared demo_root_md demo_unlinkable)
    as (t' & H1 & _ & _ & H2 & H3).
  - discriminate.
  - split; [discriminate|reflexivity].
  - vm_compute. reflexivity.
  - set (u0 := demo_mount (kinetic t')). destruct (H3 u0 eq_refl (demo_mount_ok _)) as (H4 & H5).
    destruct (H4 0%nat None 0 (demo_missing _ _) ltac:(vm_compute; reflexivity) (Z.le_refl 0)) as (l & u & H6).
    destruct (demo_linked_name (lit "/g") 3 (source_record demo_renamer 3 7)) as (Hn1 & Hn2 & Hn3 & Hn4);
      [vm_compute; reflexivity|reflexivity|reflexivity|].
    assert (Hnk : lit "/g" ∉ [lit "/f"; hardlink_key 7; entry_from (lit "/f") demo_root_md]).
    { apply (bool_decide_unpack _). vm_compute. exact I. }
    assert (Hroom : room u0) by reflexivity.
    destruct (H5 0%nat None (lit "/g") (lit "/g") 0 (demo_name (lit "/g") 3) Hnk Hn1 Hn2 Hn3 Hn4 Hroom (demo_missing _ _) (demo_missing _ _)
      ltac:(vm_compute; reflexivity) (Z.le_refl 0) ltac:(vm_compute; reflexivity)) as (l2 & u2 & m & H7 & H8 & H9).
    exists t', l, u, l2, u2, m. split; [exact H1|]. split; [exact H6|]. split; [exact H7|]. split; [exact H8|]. rewrite H9. split; vm_compute; reflexivity.
Defined.
