(* ===== verification/RecoveryFacts.v ===== *)
(** * Recovering from a rename that was cut off

    Between the creation and the removal of its recovery entry {!Rename.hflat_rename}
    changes the drives three times. In each of the four states a client may leave
    behind {!Fsck.recover_rename} takes the rename back. *)
From S2P Require Import Prelude CppString Proto PathMapDB LRUCache DataInfo MetadataInfo Kinetic FsState Demo KineticHelper Util Lookup Directory File Link Rename Fsck Permission HelperFacts FuseFacts LookupFacts CreateFacts RenameFacts.

Section RecoveryFacts.
Context {W : Type} `{!Env} `{!KineticNamespace W} `{!KineticNamespaceSpec W} `{!KineticReliable W}.
Implicit Types (s t : hflat_priv W) (m mt mo df dt : MetadataInfo) (key path from to kfrom kto : cstr).





(** ** The repairs *)








(** ** The whole repair *)



(** ** The four states *)







End RecoveryFacts.

(** ** Witness: [/f] to [/g], cut off after the inode is stored at the target *)

#[local] Existing Instance demo_env.
#[local] Existing Instance demo_metadata_spec.





