(* ===== verification/Invariant.v ===== *)
(** * The state invariant of a mount, and how it is kept

    [fs_ok]: the tables and lists of both caches agree, every cached object is
    stored under its own key and every cached pointer is valid, the heap has room,
    the inode counter has its width. A call keeps it if all its steps do: [keeps]
    is a relation between the states around a call that composes along the binds,
    so that the operations follow from the few calls that touch caches or heap. *)
From S2P Require Import Prelude CppString Proto PathMapDB LRUCache DataInfo MetadataInfo Kinetic FsState KineticHelper Util Lookup Directory File HelperFacts.

(** ** Relations kept by a call *)
Definition keeps {S A} (R : S → S → Prop) (m : M S A) : Prop := ∀ s a s', m s = Ret a s' → R s s'.

Section Keeps.
Context {S : Type} (R : S → S → Prop) `{!PreOrder R}.

Lemma keeps_ret {A} (a : A) : keeps R (mret_ a).
Proof. intros s b s' Hr. unfold mret_, gets_, get_ in Hr. simplify_eq. reflexivity. Qed.

Lemma keeps_bind {A B} (m : M S A) (f : A → M S B) : keeps R m → (∀ a, keeps R (f a)) → keeps R (mbind_ m f).
Proof. intros Hm Hf s b s'' (a & s' & H1 & H2)%mbind_Ret_inv. etrans; [by eapply Hm|by eapply Hf]. Qed.

Lemma keeps_gets {A} (f : S → A) : keeps R (gets_ f).
Proof. intros s a s' Hr. unfold mret_, gets_, get_ in Hr. simplify_eq. reflexivity. Qed.

Lemma keeps_get : keeps R get_.
Proof. intros s a s' Hr. unfold mret_, gets_, get_ in Hr. simplify_eq. reflexivity. Qed.

Lemma keeps_assert b : keeps R (assert_ b).
Proof. intros s a s'. unfold assert_. destruct b; [|done]. intros Hr. simplify_eq. reflexivity. Qed.

Lemma keeps_REQ_TRUE b : keeps R (REQ_TRUE b).
Proof. intros s a s'. unfold REQ_TRUE. destruct b; [|done]. intros Hr. simplify_eq. reflexivity. Qed.

Lemma keeps_exit {A} : keeps R (exit_ (A := A)). Proof. done. Qed.
Lemma keeps_undef {A} : keeps R (undef_ (A := A)). Proof. done. Qed.
Lemma keeps_throw {A} : keeps R (throw_ (A := A)). Proof. done. Qed.
Lemma keeps_nofuel {A} : keeps R (nofuel_ (A := A)). Proof. done. Qed.

Lemma keeps_modify f : (∀ s, R s (f s)) → keeps R (modify_ f).
Proof. intros Hf s a s' Hr. unfold modify_ in Hr. simplify_eq. apply Hf. Qed.

(** A step that reads the state and goes on. *)
Lemma keeps_lam {A} (m : S → M S A) : (∀ s, keeps R (m s)) → keeps R (λ s, m s s).
Proof. intros Hm s a s' Hr. by eapply Hm. Qed.
End Keeps.

Lemma keeps_mono {S A} (R R' : S → S → Prop) (m : M S A) : (∀ s s', R s s' → R' s s') → keeps R m → keeps R' m.
Proof. intros Hi Hm s a s' Hr. by eapply Hi, Hm. Qed.

Create HintDb keeps discriminated.

(** ** What the calls of a cache leave in it *)
Section CacheSub.
Context {K D : Type} `{Countable K} (getKey : D → K) (dirty : D → bool).
Implicit Types (c : LRUcache K D) (k : K) (d : D).

(** Nothing new is stored. *)
Definition smaller c c' : Prop :=
  (∀ e, e ∈ cache c' → ∃ e0, e0 ∈ cache c ∧ ce_data e0 = ce_data e) ∧
  (∀ k, lookup_ c !! k = None → lookup_ c' !! k = None).

#[export] Instance smaller_preorder : PreOrder smaller.
Proof.
  split; [by split; eauto|]. intros c1 c2 c3 [H1 H1'] [H2 H2']. split; [|eauto].
  intros e He. destruct (H2 e He) as (e2 & He2 & <-). destruct (H1 e2 He2) as (e1 & He1 & <-). eauto.
Qed.

Lemma smaller_erase c id k : smaller c (set_nodes (erase_node id (cache c)) (delete k (lookup_ c)) c).
Proof.
  split; cbn.
  - intros e [He _]%elem_of_erase. eauto.
  - intros k' Hk'. rewrite lookup_delete. by case_decide.
Qed.

Lemma smaller_remove c k c' : remove k c = Ret tt c' → smaller c c'.
Proof. unfold remove. repeat case_match; try done. intros Hr. injection Hr as <-. apply smaller_erase. Qed.

Lemma smaller_evict f base c c' : evict getKey dirty f base c = Ret tt c' → smaller c c'.
Proof.
  revert base c. induction f as [|f IH]; intros base c; cbn [evict]; [done|].
  destruct (prev_node base (cache c)) as [e|]; [|intros Hr; by injection Hr as <-].
  destruct (_ <? _); [intros Hr; by injection Hr as <-|]. intros ([] & c1 & Hrm & Hgo)%mbind_Ret_inv.
  trans c1.
  - destruct (dirty (ce_data e)); [by injection Hrm as <-|by eapply smaller_remove].
  - destruct base as [b|]; repeat case_match; try done; eauto.
Qed.

Lemma smaller_get c k now r c' : wf getKey c → get dirty k now c = Ret r c' → smaller c c'.
Proof.
  intros Hwf. unfold get. case_bool_decide; [done|]. destruct (lookup_ c !! k) as [id|] eqn:Hl; [|intros Hr; by injection Hr as _ <-].
  destruct (wf_lookup _ _ _ _ Hwf Hl) as (e & Hf & Hin & Hid & _). rewrite Hf. destruct (expired _ _ _ _).
  - intros ([] & c1 & Hrm & Hr)%mbind_Ret_inv. injection Hr as _ <-. by eapply smaller_remove.
  - intros Hr. injection Hr as _ <-. split; [|done]. cbn. intros e' [->|[He' _]%elem_of_erase]%elem_of_cons; eauto.
Qed.

Lemma smaller_block c k b c' : block k c = Ret b c' → smaller c c'.
Proof. unfold block. case_bool_decide; intros Hr; injection Hr as _ <-; [done|]. split; cbn; eauto. Qed.

Lemma smaller_revalidate c k now c' : revalidate k now c = Ret tt c' → smaller c c'.
Proof.
  unfold revalidate. destruct (lookup_ c !! k) as [id|]; [|intros Hr; by injection Hr as <-].
  destruct (find_node id (cache c)); [|done]. intros Hr. injection Hr as <-. split; [|done]. cbn.
  change (map (set_time id now) (cache c)) with (set_time id now <$> cache c).
  intros e' (e & -> & He)%list_elem_of_fmap. exists e. split; [done|]. unfold set_time. by case_match.
Qed.

Lemma smaller_invalidate c k c' : invalidate k c = Ret tt c' → smaller c c'.
Proof.
  unfold invalidate. intros ([] & c1 & Hr & Hm)%mbind_Ret_inv. injection Hm as <-.
  assert (smaller c c1) as [H1 H2]; [|by split].
  case_bool_decide; [by eapply smaller_remove|]. by injection Hr as <-.
Qed.

(** Afterwards the key is not stored. *)
Lemma invalidate_absent c k c' : invalidate k c = Ret tt c' → lookup_ c' !! k = None.
Proof.
  unfold invalidate. intros ([] & c1 & Hr & Hm)%mbind_Ret_inv. injection Hm as <-. cbn. case_bool_decide as Hs.
  - unfold remove in Hr. repeat case_match; try done. injection Hr as <-. cbn. apply lookup_delete_eq.
  - injection Hr as <-. destruct (lookup_ c !! k) eqn:E; [|done]. destruct Hs. eauto.
Qed.

(** [add] stores its element and nothing else. *)
Lemma add_sub c k d now b c' : add getKey dirty k d now c = Ret b c' →
  ∀ e, e ∈ cache c' → ce_data e = d ∨ ∃ e0, e0 ∈ cache c ∧ ce_data e0 = ce_data e.
Proof.
  set (ins := λ c, mbind_ (evict getKey dirty (S (length (cache c))) None) (λ _, mbind_ (modify_ (push_front k d now)) (λ _, mret_ true)) c).
  assert (Hins : ∀ c1, smaller c c1 → ins c1 = Ret b c' →
    ∀ e, e ∈ cache c' → ce_data e = d ∨ ∃ e0, e0 ∈ cache c ∧ ce_data e0 = ce_data e).
  { intros c1 Hs ([] & c2 & Hev & ([] & c3 & Hp & Hr)%mbind_Ret_inv)%mbind_Ret_inv.
    injection Hr as _ <-. injection Hp as <-. intros e [->|He]%elem_of_cons; [by left|]. right.
    assert (smaller c c2) as [H1 _]; [etrans; [done|by eapply smaller_evict]|auto]. }
  unfold add. destruct (lookup_ c !! k) as [id|]; [destruct (find_node id (cache c)); [|done]; destruct (expired _ _ _ _)|].
  - intros ([] & c1 & Hrm & Hr)%mbind_Ret_inv. apply (Hins c1); [by eapply smaller_remove|]. exact Hr.
  - intros Hr. injection Hr as _ <-. eauto.
  - intros Hr. apply (Hins c); [done|exact Hr].
Qed.

Lemma wf_add_any c k d now b c' : wf getKey c → getKey d = k → add getKey dirty k d now c = Ret b c' → wf getKey c'.
Proof.
  intros Hwf Hd Ha. destruct b; [by eapply wf_add|]. unfold add in Ha.
  destruct (lookup_ c !! k) as [id|].
  - destruct (find_node id (cache c)); [|done]. destruct (expired _ _ _ _); [|by injection Ha as <-].
    apply mbind_Ret_inv in Ha as (? & ? & _ & (? & ? & _ & (? & ? & _ & ?)%mbind_Ret_inv)%mbind_Ret_inv). done.
  - apply mbind_Ret_inv in Ha as (? & ? & _ & (? & ? & _ & ?)%mbind_Ret_inv). done.
Qed.
End CacheSub.

(** ** The invariant *)
Section Invariant.
Context {W : Type}.
Implicit Types (s : hflat_priv W) (l : loc).

Record fs_ok s : Prop := {
  fo_lookup : wf (md_getKey s) (lookup_cache s);
  fo_data : wf (di_getKey s) (data_cache s);
  fo_lookup_valid : ∀ e, e ∈ cache (lookup_cache s) → is_Some (heap_md s !! ce_data e);
  fo_data_valid : ∀ e, e ∈ cache (data_cache s) → is_Some (heap_di s !! ce_data e);
  fo_fresh : ∀ l, (next_loc s <= l)%nat → heap_md s !! l = None ∧ heap_di s !! l = None;
  fo_counter : 0 <= inum_counter s < u16_mod;
}.

(** Objects stay where they are and keep their keys; the mount's parameters do
    not change. *)
Record same_keys s s' : Prop := {
  sk_md : ∀ l m, heap_md s !! l = Some m → ∃ m', heap_md s' !! l = Some m' ∧ systemPath m' = systemPath m;
  sk_di : ∀ l d, heap_di s !! l = Some d → ∃ d', heap_di s' !! l = Some d' ∧ di_key d' = di_key d;
  sk_mount : ctx s' = ctx s ∧ blocksize s' = blocksize s ∧ posix s' = posix s;
}.

#[export] Instance same_keys_preorder : PreOrder same_keys.
Proof.
  split; [by split; eauto|]. intros s1 s2 s3 [A1 B1 (C1 & C2 & C3)] [A2 B2 (D1 & D2 & D3)]. split; [| |by split_and!; etrans].
  - intros l m Hm. destruct (A1 l m Hm) as (m' & Hm' & <-). by apply A2.
  - intros l d Hd. destruct (B1 l d Hd) as (d' & Hd' & <-). by apply B2.
Qed.

(** What every call does to a good state; and what a call does that caches no
    further metadata. *)
Definition evolves s s' : Prop := fs_ok s → fs_ok s' ∧ same_keys s s'.
Definition calm s s' : Prop :=
  fs_ok s → fs_ok s' ∧ same_keys s s' ∧ ∀ k, lookup_ (lookup_cache s) !! k = None → lookup_ (lookup_cache s') !! k = None.

#[export] Instance evolves_preorder : PreOrder evolves.
Proof.
  split; [done|]. intros s1 s2 s3 H1 H2 Hok. destruct (H1 Hok) as [Hok2 K1]. destruct (H2 Hok2) as [Hok3 K2].
  split; [done|by etrans].
Qed.

#[export] Instance calm_preorder : PreOrder calm.
Proof.
  split; [done|]. intros s1 s2 s3 H1 H2 Hok. destruct (H1 Hok) as (Hok2 & K1 & L1). destruct (H2 Hok2) as (Hok3 & K2 & L2).
  split; [done|]. split; [by etrans|auto].
Qed.

Lemma calm_evolves s s' : calm s s' → evolves s s'.
Proof. intros Hc Hok. destruct (Hc Hok) as (? & ? & _). done. Qed.

Lemma keeps_calm {A} (m : M (hflat_priv W) A) : keeps calm m → keeps evolves m.
Proof. apply keeps_mono, calm_evolves. Qed.

(** The object at [l] has this key; what is done to a state where it has. *)
Definition at_key l (key : cstr) s : Prop := ∃ m, heap_md s !! l = Some m ∧ systemPath m = key.
Definition evolves_at l (key : cstr) s s' : Prop := at_key l key s → evolves s s'.

Lemma at_key_same l key s s' : at_key l key s → same_keys s s' → at_key l key s'.
Proof. intros (m & Hm & <-) [Hk _ _]. destruct (Hk l m Hm) as (m' & Hm' & Hp). by exists m'. Qed.

#[export] Instance evolves_at_preorder l key : PreOrder (evolves_at l key).
Proof.
  split; [by intros s _|]. intros s1 s2 s3 H1 H2 Hat Hok. destruct (H1 Hat Hok) as [Hok2 K1].
  destruct (H2 (at_key_same _ _ _ _ Hat K1) Hok2) as [Hok3 K2]. split; [done|by etrans].
Qed.

Lemma keeps_at {A} l key (m : M (hflat_priv W) A) : keeps evolves m → keeps (evolves_at l key) m.
Proof. apply keeps_mono. by intros s s' He _. Qed.

(** Caches over objects that keep their keys. *)
Lemma fs_ok_intro s s' : fs_ok s → same_keys s s' →
  wf (md_getKey s) (lookup_cache s') → (∀ e, e ∈ cache (lookup_cache s') → is_Some (heap_md s !! ce_data e)) →
  wf (di_getKey s) (data_cache s') → (∀ e, e ∈ cache (data_cache s') → is_Some (heap_di s !! ce_data e)) →
  (∀ l, (next_loc s' <= l)%nat → heap_md s' !! l = None ∧ heap_di s' !! l = None) →
  0 <= inum_counter s' < u16_mod → fs_ok s'.
Proof.
  intros Hok [Hmd Hdi _] Hl Hlv Hd Hdv Hf Hc.
  assert (Hmd' : ∀ l, is_Some (heap_md s !! l) → is_Some (heap_md s' !! l) ∧ md_getKey s' l = md_getKey s l).
  { intros l [m Hm]. destruct (Hmd l m Hm) as (m' & Hm' & Hp). unfold md_getKey. rewrite Hm, Hm'. eauto. }
  assert (Hdi' : ∀ l, is_Some (heap_di s !! l) → is_Some (heap_di s' !! l) ∧ di_getKey s' l = di_getKey s l).
  { intros l [d Hx]. destruct (Hdi l d Hx) as (d' & Hd' & Hp). unfold di_getKey. rewrite Hx, Hd'. eauto. }
  split; try done.
  - eapply wf_getKey_ext; [exact Hl|]. intros e He. by apply Hmd', Hlv.
  - eapply wf_getKey_ext; [exact Hd|]. intros e He. by apply Hdi', Hdv.
  - intros e He. by apply Hmd', Hlv.
  - intros e He. by apply Hdi', Hdv.
Qed.

(** Everything but the caches, the heap and the counter may change. *)
Lemma calm_frame s s' :
  lookup_cache s' = lookup_cache s → data_cache s' = data_cache s → heap_md s' = heap_md s → heap_di s' = heap_di s →
  next_loc s' = next_loc s → 0 <= inum_counter s' < u16_mod ∨ inum_counter s' = inum_counter s →
  ctx s' = ctx s ∧ blocksize s' = blocksize s ∧ posix s' = posix s → calm s s'.
Proof.
  intros El Ed Hm Hd Hn Hc Hx Hok.
  assert (Hk : same_keys s s') by (split; [rewrite Hm; eauto|rewrite Hd; eauto|done]).
  split; [|split; [done|by rewrite El]]. apply (fs_ok_intro s); try done.
  - rewrite El. apply Hok.
  - rewrite El. apply Hok.
  - rewrite Ed. apply Hok.
  - rewrite Ed. apply Hok.
  - rewrite Hm, Hd, Hn. apply Hok.
  - destruct Hc as [?|Hc]; [done|]. rewrite Hc. apply Hok.
Qed.

(** The lookup cache alone. *)
Lemma calm_lookup_cache s c' : (fs_ok s → wf (md_getKey s) c') → (fs_ok s → smaller (lookup_cache s) c') →
  calm s (set_lookup_cache c' s).
Proof.
  intros Hwf Hsm Hok. assert (Hk : same_keys s (set_lookup_cache c' s)) by (split; eauto).
  split; [|split; [done|by apply Hsm]]. apply (fs_ok_intro s); try done; try apply Hok; [by apply Hwf|].
  intros e He. destruct (proj1 (Hsm Hok) e He) as (e0 & He0 & <-). by apply Hok.
Qed.

Lemma calm_data_cache s c' : (fs_ok s → wf (di_getKey s) c') →
  (fs_ok s → ∀ e, e ∈ cache c' → is_Some (heap_di s !! ce_data e)) → calm s (set_data_cache c' s).
Proof.
  intros Hwf Hv Hok. assert (Hk : same_keys s (set_data_cache c' s)) by (split; eauto).
  split; [|split; [done|done]]. apply (fs_ok_intro s); try done; try apply Hok; [by apply Hwf|by apply Hv].
Qed.

(** The heap alone. *)
Lemma calm_heap s hm hd n :
  (∀ l m, heap_md s !! l = Some m → ∃ m', hm !! l = Some m' ∧ systemPath m' = systemPath m) →
  (∀ l d, heap_di s !! l = Some d → ∃ d', hd !! l = Some d' ∧ di_key d' = di_key d) →
  (fs_ok s → ∀ l, (n <= l)%nat → hm !! l = None ∧ hd !! l = None) →
  calm s (set_heap hm hd n s).
Proof.
  intros Hm Hd Hf Hok. assert (Hk : same_keys s (set_heap hm hd n s)) by (split; [exact Hm|exact Hd|done]).
  split; [|done]. apply (fs_ok_intro s); try done; try apply Hok. by apply Hf.
Qed.
End Invariant.

(** ** The steps of the operations *)

Section Idioms.
Context {W : Type} (R : hflat_priv W → hflat_priv W → Prop) `{!PreOrder R}.

Lemma keeps_non_null p : keeps R (non_null p).
Proof. destruct p; [by apply keeps_ret|by apply keeps_undef]. Qed.
Lemma keeps_on_ok m k : keeps R m → keeps R k → keeps R (on_ok m k).
Proof. intros Hm Hk. apply (keeps_bind R); [done|]. intros err. destruct (negb _); [by apply keeps_ret|done]. Qed.
Lemma keeps_on_found m k : keeps R m → (∀ l, keeps R (k l)) → keeps R (on_found m k).
Proof.
  intros Hm Hk. apply (keeps_bind R); [done|]. intros r. destruct (negb _); [by apply keeps_ret|].
  apply (keeps_bind R); [apply keeps_non_null|done].
Qed.
Lemma keeps_required m : keeps R m → keeps R (required m).
Proof. intros Hm. apply (keeps_bind R); [done|]. intros. apply keeps_REQ_TRUE, _. Qed.
End Idioms.

(** Follow the code; what is left are the calls that are not in the database. *)
Ltac keep :=
  repeat (cbv beta zeta; first
    [ progress intros
    | solve [auto with keeps]
    | solve [apply keeps_calm; auto with keeps]
    | solve [apply keeps_at; auto with keeps]
    | solve [apply keeps_at, keeps_calm; auto with keeps]
    | match goal with
      | |- keeps _ (mbind_ _ _) => apply keeps_bind
      | |- keeps _ (mret_ _) => apply keeps_ret
      | |- keeps _ (on_ok _ _) => apply keeps_on_ok
      | |- keeps _ (on_found _ _) => apply keeps_on_found
      | |- keeps _ (required _) => apply keeps_required
      | |- keeps _ (if ?b then _ else _) => destruct b eqn:?
      | |- keeps _ (match ?x with _ => _ end) => destruct x eqn:?
      | |- keeps _ ((match ?x with _ => _ end) _) => destruct x eqn:?
      end ]).

#[export] Hint Resolve keeps_ret keeps_gets keeps_get keeps_assert keeps_REQ_TRUE keeps_exit keeps_undef keeps_throw
  keeps_nofuel : keeps.

Section Steps.
Context {W : Type} `{!Env} `{!KineticNamespace W}.
Implicit Types (s : hflat_priv W) (l : loc).

Abbreviation calm := (calm (W := W)).
Abbreviation evolves := (evolves (W := W)).

Lemma keeps_frame {A} (f : hflat_priv W → A) (g : hflat_priv W → hflat_priv W) :
  (∀ s, calm s (g s)) → keeps calm (λ s, Ret (f s) (g s)).
Proof. intros Hg s a s' Hr. injection Hr as _ <-. apply Hg. Qed.

Ltac frame := apply calm_frame; by (done || right).

Lemma keeps_generate_uuid : keeps calm generate_uuid.
Proof. apply keeps_frame. intros s. frame. Qed.
Lemma keeps_steady_now : keeps calm steady_now.
Proof. apply keeps_frame. intros s. frame. Qed.
Lemma keeps_time_now : keeps calm time_now.
Proof. apply keeps_frame. intros s. frame. Qed.

Lemma keeps_kinetic {A B} (call : W → A * W) (f : A → B) :
  keeps calm (λ s, let '(r, w) := call (kinetic s) in Ret (f r) (set_kinetic w s)).
Proof. intros s a s'. destruct (call (kinetic s)) as [r w]. intros Hr. injection Hr as _ <-. frame. Qed.

Lemma keeps_k_Get k : keeps calm (k_Get k).
Proof. exact (keeps_kinetic (Get k) (λ r, r)). Qed.
Lemma keeps_k_GetVersion k : keeps calm (k_GetVersion k).
Proof. exact (keeps_kinetic (GetVersion k) (λ r, r)). Qed.
Lemma keeps_k_GetKeyRange a b n : keeps calm (k_GetKeyRange a b n).
Proof. exact (keeps_kinetic (GetKeyRange a b n) (λ r, r)). Qed.
Lemma keeps_k_Put k v mode r : keeps calm (k_Put k v mode r).
Proof. exact (keeps_kinetic (Put k v mode r) (λ r, r)). Qed.
Lemma keeps_k_Delete k v mode : keeps calm (k_Delete k v mode).
Proof. exact (keeps_kinetic (Delete k v mode) (λ r, r)). Qed.
Lemma keeps_k_selfCheck : keeps calm k_selfCheck.
Proof. exact (keeps_kinetic selfCheck (λ r, r)). Qed.

Lemma keeps_on_pmap {A} (op : M PathMapDB A) : keeps calm (on_pmap op).
Proof. intros s a s'. unfold on_pmap, zoom. destruct (op (pmap_ s)); try done. intros Hr. injection Hr as _ <-. frame. Qed.

(** *** Pointers *)

Lemma keeps_deref_md l : keeps calm (deref_md l).
Proof. intros s a s'. unfold deref_md. destruct (_ !! l); [|done]. intros Hr. by injection Hr as _ <-. Qed.
Lemma keeps_deref_di l : keeps calm (deref_di l).
Proof. intros s a s'. unfold deref_di. destruct (_ !! l); [|done]. intros Hr. by injection Hr as _ <-. Qed.
Lemma keeps_getMD l : keeps calm (getMD l).
Proof. apply keeps_bind; [apply _|apply keeps_deref_md|]. intros a. apply keeps_ret, _. Qed.

Lemma calm_new s hm hd : fs_ok s → (hm = heap_md s ∨ ∃ m, hm = <[next_loc s := m]> (heap_md s)) →
  (hd = heap_di s ∨ ∃ d, hd = <[next_loc s := d]> (heap_di s)) → calm s (set_heap hm hd (S (next_loc s)) s).
Proof.
  intros Hok Hm Hd. pose proof (fo_fresh s Hok) as Hf. apply calm_heap.
  - intros l m Hl. destruct Hm as [->|[m0 ->]]; [eauto|]. rewrite lookup_insert_ne; [eauto|].
    intros <-. by rewrite (proj1 (Hf _ (le_n _))) in Hl.
  - intros l d Hl. destruct Hd as [->|[d0 ->]]; [eauto|]. rewrite lookup_insert_ne; [eauto|].
    intros <-. by rewrite (proj2 (Hf _ (le_n _))) in Hl.
  - intros _ l Hl. destruct (Hf l ltac:(lia)) as [H1 H2]. destruct Hm as [->|[m0 ->]], Hd as [->|[d0 ->]];
      rewrite ?lookup_insert_ne by lia; done.
Qed.

Lemma keeps_new_md m : keeps calm (new_md m).
Proof. intros s a s' Hr. injection Hr as _ <-. intros Hok. apply (calm_new s); eauto. Qed.
Lemma keeps_new_di d : keeps calm (new_di d).
Proof. intros s a s' Hr. injection Hr as _ <-. intros Hok. apply (calm_new s); eauto. Qed.

(** Writing an object that keeps its key. *)
Lemma calm_write_md s l m m' : heap_md s !! l = Some m → systemPath m' = systemPath m →
  calm s (set_heap (<[l := m']> (heap_md s)) (heap_di s) (next_loc s) s).
Proof.
  intros Hl Hp. apply calm_heap; [|eauto|].
  - intros l0 m0 H0. rewrite lookup_insert. case_decide; simplify_eq; eauto.
  - intros Hok l0 H0. destruct (fo_fresh s Hok l0 H0) as [H1 H2]. split; [|done].
    rewrite lookup_insert_ne; [done|]. intros <-. congruence.
Qed.

Lemma calm_write_di s l d d' : heap_di s !! l = Some d → di_key d' = di_key d →
  calm s (set_heap (heap_md s) (<[l := d']> (heap_di s)) (next_loc s) s).
Proof.
  intros Hl Hp. apply calm_heap; [eauto| |].
  - intros l0 m0 H0. rewrite lookup_insert. case_decide; simplify_eq; eauto.
  - intros Hok l0 H0. destruct (fo_fresh s Hok l0 H0) as [H1 H2]. split; [done|].
    rewrite lookup_insert_ne; [done|]. intros <-. congruence.
Qed.

Lemma deref_md_inv l s m s' : deref_md l s = Ret m s' → s' = s ∧ heap_md s !! l = Some m.
Proof. unfold deref_md. destruct (_ !! l); [|done]. intros Hr. by injection Hr as -> <-. Qed.
Lemma deref_di_inv l s d s' : deref_di l s = Ret d s' → s' = s ∧ heap_di s !! l = Some d.
Proof. unfold deref_di. destruct (_ !! l); [|done]. intros Hr. by injection Hr as -> <-. Qed.

Lemma keeps_change_md l f : keeps calm (change_md l f).
Proof.
  intros s a s' (m & s1 & (-> & Hm)%deref_md_inv & Hw)%mbind_Ret_inv. injection Hw as _ <-. by eapply calm_write_md.
Qed.

Lemma keeps_on_metadata {A} l (op : M Metadata A) : keeps calm (on_metadata l op).
Proof.
  intros s a s' (m & s1 & (-> & Hm)%deref_md_inv & Hw)%mbind_Ret_inv. unfold zoom in Hw.
  destruct (op (md m)); try done. injection Hw as _ <-. by eapply calm_write_md.
Qed.

(** A method of a block that leaves its key alone. *)
Lemma keeps_on_datainfo {A} l (op : M DataInfo A) :
  (∀ d a d', op d = Ret a d' → di_key d' = di_key d) → keeps calm (on_datainfo l op).
Proof.
  intros Hop s a s' (d & s1 & (-> & Hd)%deref_di_inv & Hw)%mbind_Ret_inv. unfold zoom in Hw.
  destruct (op d) eqn:E; try done. injection Hw as _ <-. eapply calm_write_di; [done|by eapply Hop].
Qed.

(** *** The caches *)

(** The dirty elements a cache call is told about. *)
Lemma zoom_lookup_cache {A} (op : hflat_priv W → M (LRUcache (list ascii) loc) A) :
  (∀ s a c', op s (lookup_cache s) = Ret a c' → calm s (set_lookup_cache c' s)) →
  keeps calm (λ s, zoom lookup_cache set_lookup_cache (op s) s).
Proof.
  intros Hop s a s' Hr. unfold zoom in Hr. destruct (op s (lookup_cache s)) eqn:E; try done. injection Hr as _ <-. by eapply Hop.
Qed.

Lemma zoom_data_cache {A} (op : hflat_priv W → M (LRUcache (list ascii) loc) A) :
  (∀ s a c', op s (data_cache s) = Ret a c' → calm s (set_data_cache c' s)) →
  keeps calm (λ s, zoom data_cache set_data_cache (op s) s).
Proof.
  intros Hop s a s' Hr. unfold zoom in Hr. destruct (op s (data_cache s)) eqn:E; try done. injection Hr as _ <-. by eapply Hop.
Qed.

Lemma calm_smaller_lookup s c' : (fs_ok s → wf (md_getKey s) c' ∧ smaller (lookup_cache s) c') → calm s (set_lookup_cache c' s).
Proof. intros Hc. apply calm_lookup_cache; intros Hok; by apply Hc. Qed.

Lemma calm_smaller_data s c' : (fs_ok s → wf (di_getKey s) c' ∧ smaller (data_cache s) c') → calm s (set_data_cache c' s).
Proof.
  intros Hc. apply calm_data_cache; intros Hok; destruct (Hc Hok) as [Hw Hs]; [done|].
  intros e He. destruct (proj1 Hs e He) as (e0 & He0 & <-). by apply Hok.
Qed.

Lemma keeps_lc_get k : keeps calm (lc_get k).
Proof.
  apply keeps_bind; [apply _|apply keeps_steady_now|]. intros now. apply (zoom_lookup_cache (λ s, get (md_dirty s) k now)).
  intros s a c' Hg. apply calm_smaller_lookup. intros Hok. split; [by eapply wf_get, Hg; apply Hok|by eapply smaller_get, Hg; apply Hok].
Qed.

Lemma keeps_dc_get k : keeps calm (dc_get k).
Proof.
  apply keeps_bind; [apply _|apply keeps_steady_now|]. intros now. apply (zoom_data_cache (λ s, get (di_hasUpdates s) k now)).
  intros s a c' Hg. apply calm_smaller_data. intros Hok. split; [by eapply wf_get, Hg; apply Hok|by eapply smaller_get, Hg; apply Hok].
Qed.

Lemma wf_block {K D} `{Countable K} (getKey : D → K) c k b c' : wf getKey c → block k c = Ret b c' → wf getKey c'.
Proof. intros Hwf. unfold block. case_bool_decide; intros Hr; injection Hr as _ <-; [done|by apply wf_set_blocked]. Qed.

Lemma keeps_lc_block k : keeps calm (lc_block k).
Proof.
  apply (zoom_lookup_cache (λ s, block k)). intros s a c' Hg. apply calm_smaller_lookup. intros Hok.
  split; [by eapply wf_block, Hg; apply Hok|by eapply smaller_block].
Qed.

Lemma keeps_dc_block k : keeps calm (dc_block k).
Proof.
  apply (zoom_data_cache (λ s, block k)). intros s a c' Hg. apply calm_smaller_data. intros Hok.
  split; [by eapply wf_block, Hg; apply Hok|by eapply smaller_block].
Qed.

Lemma keeps_lc_invalidate k : keeps calm (lc_invalidate k).
Proof.
  apply (zoom_lookup_cache (λ s, invalidate k)). intros s [] c' Hg. apply calm_smaller_lookup. intros Hok.
  split; [by eapply wf_invalidate, Hg; apply Hok|by eapply smaller_invalidate].
Qed.

Lemma keeps_dc_invalidate k : keeps calm (dc_invalidate k).
Proof.
  apply (zoom_data_cache (λ s, invalidate k)). intros s [] c' Hg. apply calm_smaller_data. intros Hok.
  split; [by eapply wf_invalidate, Hg; apply Hok|by eapply smaller_invalidate].
Qed.

Lemma keeps_lc_revalidate k : keeps calm (lc_revalidate k).
Proof.
  apply keeps_bind; [apply _|apply keeps_steady_now|]. intros now. apply (zoom_lookup_cache (λ s, revalidate k now)).
  intros s [] c' Hg. apply calm_smaller_lookup. intros Hok. split; [by eapply wf_revalidate, Hg; apply Hok|by eapply smaller_revalidate].
Qed.

Lemma keeps_dc_revalidate k : keeps calm (dc_revalidate k).
Proof.
  apply keeps_bind; [apply _|apply keeps_steady_now|]. intros now. apply (zoom_data_cache (λ s, revalidate k now)).
  intros s [] c' Hg. apply calm_smaller_data. intros Hok. split; [by eapply wf_revalidate, Hg; apply Hok|by eapply smaller_revalidate].
Qed.

(** Adding is good for an object that has the key it is added under. *)
Lemma lc_add_evolves k l s m b s' : heap_md s !! l = Some m → systemPath m = k → lc_add k l s = Ret b s' → evolves s s'.
Proof.
  intros Hm Hk (now & s1 & Hnow & Hz)%mbind_Ret_inv Hok. injection Hnow as _ <-. unfold zoom in Hz.
  destruct (add _ _ _ _ _ _) eqn:E; try done. injection Hz as _ <-.
  assert (Hkey : md_getKey s l = k) by (unfold md_getKey; by rewrite Hm).
  split; [|by split; eauto]. apply (fs_ok_intro s); try done; try apply Hok.
  - by split; eauto.
  - eapply wf_add_any; [apply Hok|exact Hkey|exact E].
  - intros e He. destruct (add_sub _ _ _ _ _ _ _ _ E e He) as [->|(e0 & He0 & <-)]; [eauto|by apply Hok].
Qed.

Lemma dc_add_calm k l s d b s' : heap_di s !! l = Some d → di_key d = k → dc_add k l s = Ret b s' → calm s s'.
Proof.
  intros Hd Hk (now & s1 & Hnow & Hz)%mbind_Ret_inv Hok. injection Hnow as _ <-. unfold zoom in Hz.
  destruct (add _ _ _ _ _ _) eqn:E; try done. injection Hz as _ <-.
  assert (Hkey : di_getKey s l = k) by (unfold di_getKey; by rewrite Hd).
  split; [|split; [by split; eauto|done]]. apply (fs_ok_intro s); try done; try apply Hok.
  - by split; eauto.
  - eapply wf_add_any; [apply Hok|exact Hkey|exact E].
  - intros e He. destruct (add_sub _ _ _ _ _ _ _ _ E e He) as [->|(e0 & He0 & <-)]; [eauto|by apply Hok].
Qed.
End Steps.

#[export] Hint Resolve keeps_generate_uuid keeps_steady_now keeps_time_now keeps_k_Get keeps_k_GetVersion
  keeps_k_GetKeyRange keeps_k_Put keeps_k_Delete keeps_k_selfCheck keeps_on_pmap keeps_deref_md keeps_deref_di
  keeps_non_null keeps_getMD keeps_new_md keeps_new_di keeps_change_md keeps_on_metadata keeps_lc_get keeps_dc_get
  keeps_lc_block keeps_dc_block keeps_lc_invalidate keeps_dc_invalidate keeps_lc_revalidate keeps_dc_revalidate : keeps.
#[export] Hint Resolve calm_preorder evolves_preorder evolves_at_preorder : keeps.
