(* ===== verification/InvariantOps.v ===== *)
(** * Every operation keeps the state invariant

    One lemma per function of the program, in the order of the files; most are
    proved by following the code with {!Invariant.keep}. *)
From S2P Require Import Prelude CppString Proto PathMapDB LRUCache DataInfo MetadataInfo Kinetic FsState Mount KineticHelper Util Lookup Directory File Data PermissionOps Link Rename Fsck Xattr HelperFacts Invariant.

Section Ops.
Context {W : Type} `{!Env} `{!KineticNamespace W}.
Implicit Types (s : hflat_priv W) (l : loc).

Abbreviation calm := (calm (W := W)).
Abbreviation evolves := (evolves (W := W)).

(** ** kinetic_helper.cc *)

(** A call, then a write to an object that was read before it. *)
Lemma calm_then_write s s1 l m m' : calm s s1 → heap_md s1 = heap_md s → heap_md s !! l = Some m →
  systemPath m' = systemPath m → calm s (set_heap (<[l := m']> (heap_md s1)) (heap_di s1) (next_loc s1) s1).
Proof. intros Hc Hh Hm Hp. trans s1; [done|]. eapply calm_write_md; [by rewrite Hh|done]. Qed.

Lemma k_Get_heap k s a s' : k_Get k s = Ret a s' → heap_md s' = heap_md s ∧ heap_di s' = heap_di s.
Proof. unfold k_Get. destruct (Get k (kinetic s)). intros Hr. by injection Hr as _ <-. Qed.
Lemma k_Put_heap k v mode r s a s' : k_Put k v mode r s = Ret a s' → heap_md s' = heap_md s ∧ heap_di s' = heap_di s.
Proof. unfold k_Put. destruct (Put k v mode r (kinetic s)). intros Hr. by injection Hr as _ <-. Qed.

Lemma keeps_get_metadata l : keeps calm (get_metadata l).
Proof.
  intros s a s' (m & s1 & (-> & Hm)%deref_md_inv & Hr)%mbind_Ret_inv.
  apply mbind_Ret_inv in Hr as ([st r] & s1 & Hg & Hr).
  destruct (k_Get_heap _ _ _ _ Hg) as [Hh _]. apply keeps_k_Get in Hg. trans s1; [done|].
  revert Hr. destruct (is_ok st); cbn [negb]; [|case_bool_decide; intros Hr; by injection Hr as _ <-].
  destruct r as [r|]; [|done]. destruct (ParseFromString _); [|intros Hr; by injection Hr as _ <-].
  intros Hr. injection Hr as _ <-. eapply calm_write_md; [by rewrite Hh|done].
Qed.

(** The common part of [put_metadata] and [create_metadata]. *)
Lemma keeps_put_then l v mode (k : StatusCode → cstr → MetadataInfo → M (hflat_priv W) Z) :
  (∀ st u m s0 s1, heap_md s1 = heap_md s0 → heap_md s0 !! l = Some m → ∀ a s', k st u m s1 = Ret a s' → calm s1 s') →
  keeps calm (let! u := generate_uuid in let! m := deref_md l in
              let! st := k_Put (systemPath m) (v m) mode (mk_KineticRecord (SerializeAsString (md m)) u) in k st u m).
Proof.
  intros Hk s a s' (u & s0 & Hu & (m & s1 & (-> & Hm)%deref_md_inv & (st & s2 & Hp & Hr)%mbind_Ret_inv)%mbind_Ret_inv)%mbind_Ret_inv.
  apply keeps_generate_uuid in Hu. trans s0; [done|]. destruct (k_Put_heap _ _ _ _ _ _ _ Hp) as [Hh _].
  apply keeps_k_Put in Hp. trans s2; [done|]. by eapply (Hk st u m s0 s2).
Qed.

Lemma keeps_put_metadata l : keeps calm (put_metadata l).
Proof.
  apply (keeps_put_then l keyVersion). intros st u m s0 s1 Hh Hm a s'. destruct (is_ok st); cbn [negb].
  - intros ([] & s2 & Hw & Hr)%mbind_Ret_inv. injection Hw as <-. trans (set_heap (<[l := setKeyVersion u m]> (heap_md s1)) (heap_di s1) (next_loc s1) s1).
    + eapply calm_write_md; [by rewrite Hh|done].
    + revert Hr. apply keeps_bind; [apply _|auto with keeps|]. intros; apply keeps_ret, _.
  - apply keeps_bind; [apply _|auto with keeps|]. keep.
Qed.

Lemma keeps_create_metadata l : keeps calm (create_metadata l).
Proof.
  apply (keeps_put_then l (λ _, [])). intros st u m s0 s1 Hh Hm a s'. case_bool_decide; [by apply keeps_ret, _|].
  destruct (is_ok st); cbn [negb]; [|by apply keeps_ret, _].
  intros ([] & s2 & Hw & Hr)%mbind_Ret_inv. injection Hw as <-. injection Hr as _ <-.
  eapply calm_write_md; [by rewrite Hh|done].
Qed.

Lemma keeps_delete_metadata l : keeps calm (delete_metadata l).
Proof. unfold delete_metadata. keep. Qed.

Lemma keeps_put_metadata_forced fuel l upd : keeps calm upd → keeps calm (put_metadata_forced fuel l upd).
Proof.
  intros Hu. induction fuel as [|f IH]; cbn [put_metadata_forced]; [apply keeps_nofuel|].
  pose proof keeps_put_metadata. pose proof keeps_get_metadata. keep.
Qed.

Lemma keeps_get_data key : keeps calm (get_data key).
Proof. unfold get_data. keep. Qed.

Lemma keeps_put_data fuel l : keeps calm (put_data fuel l).
Proof.
  induction fuel as [|f IH]; [apply keeps_nofuel|]. cbn [put_data].
  assert (Hmerge : ∀ v, keeps calm (on_datainfo l (mergeDataChanges v))).
  { intros v. apply keeps_on_datainfo. intros fresh []. apply mergeDataChanges_key. }
  assert (Hver : ∀ v, keeps calm (on_datainfo l (modify_ (di_setKeyVersion v)))).
  { intros v. apply keeps_on_datainfo. intros d a d' Hr. by injection Hr as _ <-. }
  assert (Hfin : ∀ v, keeps calm (let! d := deref_di l in write_di l (di_setKeyVersion v (forgetUpdates d)) ;;;
                                  dc_revalidate (di_key d) ;;; mret_ 0)).
  { intros v s a s' (d & s1 & (-> & Hd)%deref_di_inv & ([] & s2 & Hw & Hr)%mbind_Ret_inv)%mbind_Ret_inv.
    injection Hw as <-. etrans; [by apply (calm_write_di s l d (di_setKeyVersion v (forgetUpdates d)))|].
    revert Hr. apply (keeps_bind calm); [auto with keeps|]. intros; apply keeps_ret, _. }
  keep.
Qed.

Lemma keeps_delete_data l : keeps calm (delete_data l).
Proof. unfold delete_data. keep. Qed.

Lemma keeps_put_db_entry v e : keeps calm (put_db_entry v e).
Proof. unfold put_db_entry. keep. Qed.
Lemma keeps_get_db_entry v : keeps calm (get_db_entry v).
Proof. unfold get_db_entry. keep. Qed.
Lemma keeps_get_db_version : keeps calm get_db_version.
Proof. unfold get_db_version. keep. Qed.
Lemma keeps_put_db_snapshot x : keeps calm (put_db_snapshot x).
Proof. unfold put_db_snapshot. keep. Qed.
Lemma keeps_get_db_snapshot : keeps calm get_db_snapshot.
Proof. unfold get_db_snapshot. keep. Qed.

(** ** util.cc *)

Lemma keeps_set_inum (f g : hflat_priv W → Z) : (∀ s, 0 <= g s < u16_mod ∨ g s = inum_counter s) →
  keeps calm (modify_ (λ s, set_inum (f s) (g s) s)).
Proof. intros Hg. apply keeps_modify. intros s. apply calm_frame; try done. exact (Hg s). Qed.

Lemma keeps_grab_read : keeps calm grab_read.
Proof.
  unfold grab_read. pose proof (λ v, keeps_set_inum (λ _, v) inum_counter (λ s, or_intror eq_refl)). keep.
Qed.

Lemma keeps_grab_claim : keeps calm grab_claim.
Proof. unfold grab_claim. keep. Qed.

Lemma keeps_grab_token fuel : keeps calm (grab_inode_generation_token fuel).
Proof.
  induction fuel as [|f IH]; cbn [grab_inode_generation_token]; [apply keeps_nofuel|].
  pose proof keeps_grab_read. pose proof keeps_grab_claim. keep.
Qed.

Lemma keeps_generate_inode_number fuel : keeps calm (generate_inode_number fuel).
Proof.
  unfold generate_inode_number, bump_counter, reset_counter, current_number. pose proof (keeps_grab_token fuel).
  pose proof (keeps_set_inum inum_base (λ s, wrap16 (inum_counter s + 1)) (λ s, or_introl (Z.mod_pos_bound _ u16_mod eq_refl))).
  pose proof (keeps_set_inum inum_base (λ _, 0) (λ _, or_introl (conj (Z.le_refl 0) eq_refl))). keep.
Qed.

Lemma keeps_get_db_entries n : ∀ v acc, keeps calm (get_db_entries n v acc).
Proof. pose proof keeps_get_db_entry. induction n as [|n IH]; intros v acc; cbn [get_db_entries]; keep. Qed.

Lemma keeps_database_update : keeps calm database_update.
Proof.
  unfold database_update, update_to. pose proof keeps_get_db_version. pose proof keeps_get_db_entry.
  pose proof keeps_get_db_snapshot. pose proof keeps_get_db_entries. keep.
Qed.

Lemma keeps_database_operation fuel e : keeps calm (database_operation fuel e).
Proof.
  induction fuel as [|f IH]; cbn [database_operation]; [apply keeps_nofuel|].
  pose proof keeps_put_db_entry. pose proof keeps_put_db_snapshot. pose proof keeps_database_update. keep.
Qed.
End Ops.

#[export] Hint Resolve keeps_get_metadata keeps_put_metadata keeps_create_metadata keeps_delete_metadata
  keeps_put_metadata_forced keeps_get_data keeps_put_data keeps_delete_data keeps_put_db_entry keeps_get_db_entry
  keeps_get_db_version keeps_put_db_snapshot keeps_get_db_snapshot keeps_generate_inode_number keeps_grab_token
  keeps_database_update keeps_database_operation : keeps.

(** ** lookup.cc *)
Section Lookups.
Context {W : Type} `{!Env} `{!KineticNamespace W}.
Implicit Types (s : hflat_priv W) (l : loc) (key : cstr).

Abbreviation calm := (calm (W := W)).
Abbreviation evolves := (evolves (W := W)).
Abbreviation evolves_at := (evolves_at (W := W)).

Lemma keeps_add_at key l : keeps (evolves_at l key) (let! b := lc_add key l in REQ_TRUE b).
Proof.
  apply keeps_bind; [apply _| |intros; apply keeps_REQ_TRUE, _]. intros s b s' Ha (m & Hm & Hp). by eapply lc_add_evolves.
Qed.

Lemma new_md_inv m s l s' : new_md m s = Ret l s' → heap_md s' !! l = Some m ∧ calm s s'.
Proof. intros Hr. split; [|by eapply keeps_new_md]. injection Hr as <- <-. apply lookup_insert_eq. Qed.

Lemma keeps_new_add m key : systemPath m = key →
  keeps evolves (let! l := new_md m in let! b := lc_add key l in REQ_TRUE b).
Proof.
  intros Hp s b s' (l & s1 & [Hm Hc]%new_md_inv & Ha)%mbind_Ret_inv.
  trans s1; [by apply calm_evolves|]. eapply (keeps_add_at key l); [exact Ha|by exists m].
Qed.

Lemma keeps_pmap_toSystemPath fuel path ct : keeps calm (pmap_toSystemPath fuel path ct).
Proof. intros s a s'. unfold pmap_toSystemPath. destruct (toSystemPath _ _ _ _); [|done]. intros Hr. by injection Hr as _ <-. Qed.
#[local] Hint Resolve keeps_pmap_toSystemPath : keeps.

Lemma keeps_get_metadata_userpath fuel path p : keeps calm (get_metadata_userpath fuel path p).
Proof. unfold get_metadata_userpath. keep. Qed.

Lemma keeps_lookup_cached fuel key : keeps calm (lookup_cached fuel key).
Proof. induction fuel as [|f IH]; cbn [lookup_cached]; keep. Qed.
#[local] Hint Resolve keeps_lookup_cached : keeps.

Lemma keeps_lookup_parent_with rec path p : (∀ x q, keeps evolves (rec x q)) → keeps evolves (lookup_parent_with rec path p).
Proof. intros Hrec. unfold lookup_parent_with. keep. Qed.

Lemma keeps_lookup_permissions rec path l ts : (∀ x q, keeps evolves (rec x q)) → keeps evolves (lookup_permissions rec path l ts).
Proof.
  intros Hrec. unfold lookup_permissions. pose proof (λ x q, keeps_lookup_parent_with rec x q Hrec). keep.
Qed.

Lemma keeps_lookup fuel : ∀ path p, keeps evolves (lookup fuel path p).
Proof.
  induction fuel as [|f IH]; intros path p; [apply keeps_nofuel|]. cbn [lookup].
  pose proof (λ x l ts, keeps_lookup_permissions (lookup f) x l ts IH) as Hperm. pose proof keeps_database_update as Hupd.
  apply (keeps_bind evolves); [keep|]. intros [key ts]. destruct (ts <? 0); [keep|].
  apply (keeps_bind evolves); [keep|]. intros [l|]; [keep|].
  intros s a s' (l & s1 & [Hm Hc1]%new_md_inv & Hr)%mbind_Ret_inv.
  trans s1; [by apply calm_evolves|].
  refine ((_ : keeps (evolves_at l key) _) s1 a s' Hr (ex_intro _ _ (conj Hm eq_refl))).
  pose proof (keeps_add_at key l) as Hadd. pose proof (λ g, keeps_new_add (on_md g (MetadataInfo_new key)) key eq_refl) as Hnew. keep.
Qed.
End Lookups.

#[export] Hint Resolve keeps_pmap_toSystemPath keeps_get_metadata_userpath keeps_lookup_cached keeps_lookup : keeps.

(** ** The operations *)
Section Operations.
Context {W : Type} `{!Env} `{!KineticNamespace W}.
Implicit Types (s : hflat_priv W) (l : loc) (path : cstr).

Abbreviation calm := (calm (W := W)).
Abbreviation evolves := (evolves (W := W)).

Lemma keeps_lookup_parent fuel path p : keeps evolves (lookup_parent fuel path p).
Proof. apply keeps_lookup_parent_with. intros. apply keeps_lookup. Qed.

Lemma keeps_touch_ACM l : keeps calm (touch_ACM l).
Proof. unfold touch_ACM. keep. Qed.
Lemma keeps_touch_AC l : keeps calm (touch_AC l).
Proof. unfold touch_AC. keep. Qed.
Lemma keeps_access_to l mode : keeps calm (access_to l mode).
Proof. unfold access_to, fuse_get_context. keep. Qed.

Lemma keeps_quot a b : keeps calm (quot_ a b).
Proof. unfold quot_. keep. Qed.
Lemma keeps_rem a b : keeps calm (rem_ a b).
Proof. unfold rem_. keep. Qed.
Lemma keeps_poke b n x : keeps calm (poke b n x).
Proof. unfold poke. keep. Qed.
#[local] Hint Resolve keeps_lookup_parent keeps_touch_ACM keeps_touch_AC keeps_access_to keeps_quot keeps_rem keeps_poke : keeps.

(** directory.cc *)
Lemma keeps_touch_parent fuel l : keeps calm (touch_parent fuel l).
Proof. unfold touch_parent. keep. Qed.
#[local] Hint Resolve keeps_touch_parent : keeps.
Lemma keeps_create_directory_entry fuel l name : keeps calm (create_directory_entry fuel l name).
Proof. unfold create_directory_entry. keep. Qed.
Lemma keeps_delete_directory_entry fuel l name : keeps calm (delete_directory_entry fuel l name).
Proof. unfold delete_directory_entry. keep. Qed.
#[local] Hint Resolve keeps_create_directory_entry keeps_delete_directory_entry : keeps.
Lemma keeps_readdir_loop fuel : ∀ a b keys names, keeps calm (readdir_loop fuel a b keys names).
Proof. induction fuel as [|f IH]; intros; cbn [readdir_loop]; keep. Qed.
#[local] Hint Resolve keeps_readdir_loop : keeps.
Lemma keeps_hflat_readdir fuel path : keeps evolves (hflat_readdir fuel path).
Proof. unfold hflat_readdir. keep. Qed.

(** file.cc *)
Lemma keeps_initialize_metadata fuel l ld mode : keeps calm (initialize_metadata fuel l ld mode).
Proof. unfold initialize_metadata, fuse_get_context. keep. Qed.
Lemma keeps_lookup_absent fuel path : keeps evolves (lookup_absent fuel path).
Proof. unfold lookup_absent. keep. Qed.
#[local] Hint Resolve keeps_initialize_metadata keeps_lookup_absent : keeps.
Lemma keeps_hflat_create fuel path mode : keeps evolves (hflat_create fuel path mode).
Proof. unfold hflat_create, REQ_0. keep. Qed.
Lemma keeps_hflat_open fuel path flags : keeps evolves (hflat_open fuel path flags).
Proof. unfold hflat_open. apply (keeps_on_found evolves); keep. Qed.
#[local] Hint Resolve keeps_hflat_create : keeps.

Lemma keeps_REQ_0 err : keeps calm (REQ_0 err).
Proof. apply keeps_REQ_TRUE, _. Qed.
#[local] Hint Resolve keeps_REQ_0 : keeps.

Lemma keeps_unlink_force_update fuel path : keeps calm (unlink_force_update fuel path).
Proof. unfold unlink_force_update. keep. Qed.
Lemma keeps_unlink_lookup fuel path : keeps evolves (unlink_lookup fuel path).
Proof. unfold unlink_lookup, fuse_get_context. keep. Qed.
Lemma keeps_unlink_hardlink fuel path l : keeps calm (unlink_hardlink fuel path l).
Proof. unfold unlink_hardlink. keep. Qed.
Lemma keeps_datadelete_loop n : ∀ z ino, keeps calm (datadelete_loop n z ino).
Proof. induction n; intros z ino; cbn [datadelete_loop]; keep. Qed.
Lemma keeps_datadelete size ino : keeps calm (datadelete size ino).
Proof. apply keeps_datadelete_loop. Qed.
Lemma keeps_database_remove fuel path : keeps calm (database_remove fuel path).
Proof. apply keeps_database_operation. Qed.
#[local] Hint Resolve keeps_unlink_force_update keeps_unlink_lookup keeps_unlink_hardlink keeps_datadelete keeps_database_remove : keeps.

Lemma keeps_hflat_unlink fuel : ∀ path, keeps evolves (hflat_unlink fuel path).
Proof. induction fuel as [|f IH]; intros path; cbn [hflat_unlink]; keep. Qed.
#[local] Hint Resolve keeps_hflat_unlink : keeps.
Lemma keeps_hflat_rmdir fuel path : keeps evolves (hflat_rmdir fuel path).
Proof. unfold hflat_rmdir. keep. Qed.
Lemma keeps_hflat_init fuel : keeps calm (hflat_init fuel).
Proof. unfold hflat_init. keep. Qed.
#[local] Hint Resolve keeps_hflat_rmdir : keeps.

(** data.cc, sync.cc, attr.cc *)
Lemma keeps_hflat_fsync fuel : ∀ path fi, keeps evolves (hflat_fsync fuel path fi).
Proof. induction fuel as [|f IH]; intros path fi; cbn [hflat_fsync]; keep. Qed.
#[local] Hint Resolve keeps_hflat_fsync : keeps.
Lemma keeps_hflat_getattr fuel path : keeps evolves (hflat_getattr fuel path).
Proof. unfold hflat_getattr. keep. Qed.
Lemma keeps_hflat_utimens fuel path a b : keeps evolves (hflat_utimens fuel path a b).
Proof. induction fuel as [|f IH]; cbn [hflat_utimens]; keep. Qed.

(** A loader hands out a block with the key it was asked for. *)
Definition loads_block key (load : M (hflat_priv W) (Z * option loc)) : Prop :=
  ∀ s r l s', load s = Ret (r, Some l) s' → ∃ d, heap_di s' !! l = Some d ∧ di_key d = key.

Lemma new_di_block key v x s l s' : new_di (DataInfo_new key v x) s = Ret l s' →
  ∃ d, heap_di s' !! l = Some d ∧ di_key d = key.
Proof. intros Hr. injection Hr as <- <-. eexists. split; [apply lookup_insert_eq|done]. Qed.

Lemma get_data_block key : loads_block key (get_data key).
Proof.
  intros s r l s' ([st rec] & s1 & _ & Hr)%mbind_Ret_inv. revert Hr. destruct (_ && _); [done|].
  case_bool_decide; [|destruct rec; [|done]];
    intros (l' & s2 & Hn & Hr)%mbind_Ret_inv; injection Hr as _ <- <-; by eapply new_di_block.
Qed.

Lemma keeps_data_cached fuel key load : loads_block key load → keeps calm load → keeps calm (data_cached fuel key load).
Proof.
  intros Hb Hl. induction fuel as [|f IH]; cbn [data_cached]; [apply keeps_nofuel|].
  apply (keeps_bind calm); [keep|]. intros [di|]; [keep|]. apply (keeps_bind calm); [keep|]. intros [|]; [|keep].
  intros s a s' ([err di] & s1 & Hload & Hr)%mbind_Ret_inv. pose proof (Hl _ _ _ Hload) as Hc. trans s1; [done|].
  revert Hr. destruct (negb (err =? 0)); [by apply (keeps_bind calm); [keep|intros; keep]|].
  intros (l & s2 & Hp & Hr)%mbind_Ret_inv. destruct di as [l'|]; [|done]. injection Hp as <- <-.
  destruct (Hb _ _ _ _ Hload) as (d & Hd & Hk). revert Hr. rewrite mbind_assoc. intros (b & s3 & Ha & Hr)%mbind_Ret_inv.
  trans s3; [by eapply dc_add_calm|]. revert Hr. apply (keeps_bind calm); keep.
Qed.

Lemma keeps_rw_in_block buf size offset n l mode : keeps calm (rw_in_block buf size offset n l mode).
Proof.
  unfold rw_in_block.
  assert (Hu : ∀ a b, keeps calm (on_datainfo l (updateData buf a b))).
  { intros a b. apply keeps_on_datainfo. intros d x d' Hr. unfold updateData in Hr. msimpl. by repeat (case_match; simplify_eq). }
  keep.
Qed.
#[local] Hint Resolve keeps_data_cached keeps_rw_in_block get_data_block : keeps.

Lemma keeps_do_rw fuel buf size offset l mode : keeps calm (do_rw fuel buf size offset l mode).
Proof.
  unfold do_rw. apply (keeps_bind calm); [keep|]. intros s0. apply (keeps_bind calm); [keep|]. intros q.
  apply (keeps_bind calm); [keep|]. intros m. apply (keeps_bind calm); [|keep].
  apply keeps_data_cached; [|keep]. intros s r l' s' (m' & s1 & _ & Hr)%mbind_Ret_inv. revert Hr. destruct (_ && _).
  - intros (l0 & s2 & Hn & Hr)%mbind_Ret_inv. injection Hr as _ <- <-. by eapply new_di_block.
  - apply get_data_block.
Qed.
#[local] Hint Resolve keeps_do_rw : keeps.

Lemma keeps_hflat_read fuel path buf size offset : keeps evolves (hflat_read fuel path buf size offset).
Proof. unfold hflat_read. keep. Qed.

Lemma setDirtyData_path u di o : systemPath (setDirtyData u di o).2 = systemPath o.
Proof. unfold setDirtyData. by repeat case_match. Qed.

Lemma keeps_set_dirty l di : keeps calm (set_dirty l di).
Proof.
  intros s a s' (o & s1 & (-> & Ho)%deref_md_inv & (s0 & s2 & Hg & Hr)%mbind_Ret_inv)%mbind_Ret_inv. injection Hg as <- <-.
  pose proof (setDirtyData_path (di_hasUpdates s) di o) as Hp. destruct (setDirtyData _ _ _) as [b o'].
  apply mbind_Ret_inv in Hr as ([] & s3 & Hw & Hr). injection Hw as <-. injection Hr as _ <-. by eapply calm_write_md.
Qed.
#[local] Hint Resolve keeps_set_dirty : keeps.

Lemma keeps_hflat_write fuel : ∀ path buf size offset flags, keeps evolves (hflat_write fuel path buf size offset flags).
Proof. induction fuel as [|f IH]; intros; cbn [hflat_write]; keep. Qed.

Lemma keeps_truncate_blocks n : ∀ ino i, keeps calm (truncate_blocks n ino i).
Proof. induction n as [|n IH]; intros; cbn [truncate_blocks]; keep. Qed.
#[local] Hint Resolve keeps_truncate_blocks : keeps.

Lemma truncate_key n d a d' : truncate n d = Ret a d' → di_key d' = di_key d.
Proof. unfold truncate. intros Hr. msimpl. by repeat (case_match; simplify_eq). Qed.

Lemma keeps_hflat_truncate fuel : ∀ path offset, keeps evolves (hflat_truncate fuel path offset).
Proof.
  pose proof (λ l n, keeps_on_datainfo (W := W) l _ (truncate_key n)). induction fuel as [|f IH]; intros; cbn [hflat_truncate]; keep.
Qed.

(** permission.cc *)
Lemma keeps_hflat_access fuel path mode : keeps evolves (hflat_access fuel path mode).
Proof. unfold hflat_access, fuse_get_context. keep. Qed.
Lemma keeps_permission_lookup fuel path mode uid gid : keeps evolves (permission_lookup fuel path mode uid gid).
Proof. unfold permission_lookup, fuse_get_context. keep. Qed.
#[local] Hint Resolve keeps_permission_lookup : keeps.
Lemma keeps_chown_mode c m mode uid gid : keeps calm (chown_mode c m mode uid gid).
Proof. unfold chown_mode. keep. Qed.
#[local] Hint Resolve keeps_chown_mode : keeps.
Lemma keeps_permission_change fuel : ∀ path mode uid gid, keeps evolves (do_permission_change fuel path mode uid gid).
Proof. induction fuel as [|f IH]; intros; cbn [do_permission_change]; unfold fuse_get_context; keep. Qed.

(** xattr.cc, fsck.cc *)
Lemma keeps_remove_mapping fuel path : keeps calm (remove_mapping fuel path).
Proof. unfold remove_mapping. keep. Qed.
Lemma keeps_scan_batch fuel path keys : ∀ entry, keeps evolves (scan_batch fuel path keys entry).
Proof. induction keys as [|k keys IH]; intros; cbn [scan_batch]; keep. Qed.
#[local] Hint Resolve keeps_remove_mapping keeps_scan_batch : keeps.
Lemma keeps_scan_loop fuel : ∀ path a b keys entry, keeps evolves (scan_loop fuel path a b keys entry).
Proof. induction fuel as [|f IH]; intros; cbn [scan_loop]; keep. Qed.
#[local] Hint Resolve keeps_scan_loop : keeps.
Lemma keeps_scan_direntries fuel path l entry : keeps evolves (scan_direntries fuel path l entry).
Proof. unfold scan_direntries. keep. Qed.
Lemma keeps_md_of p : keeps calm (md_of p).
Proof. unfold md_of. keep. Qed.
#[local] Hint Resolve keeps_scan_direntries keeps_md_of : keeps.
Lemma keeps_either_live test a b : keeps calm (either_live test a b).
Proof. unfold either_live. keep. Qed.
Lemma keeps_copy_to_origin a b : keeps calm (copy_to_origin a b).
Proof. unfold copy_to_origin. keep. Qed.
Lemma keeps_delete_target a : keeps calm (delete_target a).
Proof. unfold delete_target. keep. Qed.
#[local] Hint Resolve keeps_copy_to_origin keeps_delete_target : keeps.
Lemma keeps_recover_finish fuel l entry origin a b c : keeps calm (recover_finish fuel l entry origin a b c).
Proof. unfold recover_finish. keep. Qed.
#[local] Hint Resolve keeps_either_live keeps_recover_finish : keeps.
Lemma keeps_recover_rename fuel dir l entry : keeps evolves (recover_rename fuel dir l entry).
Proof. unfold recover_rename. keep. Qed.
#[local] Hint Resolve keeps_recover_rename : keeps.
Lemma keeps_fsck_loop fuel : ∀ path l entry, keeps evolves (fsck_loop fuel path l entry).
Proof. induction fuel as [|f IH]; intros; cbn [fsck_loop]; keep. Qed.
#[local] Hint Resolve keeps_fsck_loop : keeps.
Lemma keeps_fsck_directory fuel path l : keeps evolves (fsck_directory fuel path l).
Proof. unfold fsck_directory, fuse_get_context. keep. Qed.
#[local] Hint Resolve keeps_fsck_directory : keeps.

Lemma keeps_hflat_setxattr fuel : ∀ path name value size flags, keeps evolves (hflat_setxattr fuel path name value size flags).
Proof. induction fuel as [|f IH]; intros; cbn [hflat_setxattr]; keep. Qed.
Lemma keeps_hflat_getxattr fuel path name value size : keeps evolves (hflat_getxattr fuel path name value size).
Proof. unfold hflat_getxattr. keep. Qed.
Lemma keeps_hflat_removexattr fuel path name : keeps evolves (hflat_removexattr fuel path name).
Proof. induction fuel as [|f IH]; cbn [hflat_removexattr]; keep. Qed.
Lemma keeps_listxattr_loop xs : ∀ n b size, keeps calm (listxattr_loop xs n b size).
Proof. induction xs as [|x xs IH]; intros; cbn [listxattr_loop]; keep. Qed.
#[local] Hint Resolve keeps_listxattr_loop : keeps.
Lemma keeps_hflat_listxattr fuel path buf size : keeps evolves (hflat_listxattr fuel path buf size).
Proof. unfold hflat_listxattr. keep. Qed.

(** link.cc, rename.cc *)
Lemma keeps_hflat_readlink fuel path buf size : keeps calm (hflat_readlink fuel path buf size).
Proof. unfold hflat_readlink. keep. Qed.
#[local] Hint Resolve keeps_hflat_readlink : keeps.
Lemma keeps_hflat_symlink fuel target origin : keeps evolves (hflat_symlink fuel target origin).
Proof. unfold hflat_symlink. keep. Qed.

Lemma keeps_rename_lookup fuel a b : keeps evolves (rename_lookup fuel a b).
Proof. unfold rename_lookup, fuse_get_context. keep. Qed.
Lemma keeps_store_at_target a b : keeps calm (store_at_target a b).
Proof. unfold store_at_target. keep. Qed.
Lemma keeps_delete_source a : keeps calm (delete_source a).
Proof. unfold delete_source. keep. Qed.
#[local] Hint Resolve keeps_store_at_target keeps_delete_source : keeps.
Lemma keeps_rename_regular a b : keeps calm (rename_regular a b).
Proof. unfold rename_regular. keep. Qed.
#[local] Hint Resolve keeps_rename_lookup keeps_rename_regular : keeps.
Lemma keeps_rename_softlink fuel a b l l' : keeps calm (rename_softlink fuel a b l l').
Proof. unfold rename_softlink. keep. Qed.
Lemma keeps_rename_hardlink fuel a l : keeps calm (rename_hardlink fuel a l).
Proof. unfold rename_hardlink. keep. Qed.
Lemma keeps_rename_directory fuel a b l1 l2 l3 l4 : keeps calm (rename_directory fuel a b l1 l2 l3 l4).
Proof. unfold rename_directory. keep. Qed.
Lemma keeps_rename_remove_target fuel b l : keeps evolves (rename_remove_target fuel b l).
Proof. unfold rename_remove_target. keep. Qed.
#[local] Hint Resolve keeps_rename_softlink keeps_rename_hardlink keeps_rename_directory keeps_rename_remove_target : keeps.
Lemma keeps_hflat_rename fuel a b : keeps evolves (hflat_rename fuel a b).
Proof. unfold hflat_rename, rename_apply, rename_finish. keep. Qed.

(** *** Hard links: the one operation that gives an existing object a new key *)

Definition stays s s' : Prop := fs_ok s → fs_ok s' ∧ ctx s' = ctx s ∧ blocksize s' = blocksize s ∧ posix s' = posix s.

#[export] Instance stays_preorder : PreOrder stays.
Proof.
  split; [done|]. intros s1 s2 s3 H1 H2 Hok. destruct (H1 Hok) as (Hok2 & A1 & A2 & A3).
  destruct (H2 Hok2) as (Hok3 & B1 & B2 & B3). split_and!; congruence || done.
Qed.

Lemma keeps_stays {A} (m : M (hflat_priv W) A) : keeps evolves m → keeps stays m.
Proof. apply keeps_mono. intros s s' He Hok. destruct (He Hok) as [Hok' Hk]. split; [done|apply Hk]. Qed.

(** The object at [l] has the key [p], and [p] is not in the lookup cache. *)
Definition uncached l (p : cstr) s : Prop := at_key l p s ∧ lookup_ (lookup_cache s) !! p = None.

Definition from_uncached l p s s' : Prop := uncached l p s → stays s s'.

Lemma from_uncached_calm {A B} l p (m : M (hflat_priv W) A) (f : A → M (hflat_priv W) B) :
  keeps calm m → (∀ a, keeps (from_uncached l p) (f a)) → keeps (from_uncached l p) (mbind_ m f).
Proof.
  intros Hm Hf s b s'' (a & s' & H1 & H2)%mbind_Ret_inv [Hat Hl] Hok.
  destruct (Hm _ _ _ H1 Hok) as (Hok' & Hk & Hs). pose proof Hk as [_ _ (K1 & K2 & K3)].
  destruct (Hf _ _ _ _ H2 (conj (at_key_same _ _ _ _ Hat Hk) (Hs _ Hl)) Hok') as (H3 & H4 & H5 & H6).
  split_and!; congruence || done.
Qed.

Lemma from_uncached_then {A B} l p (m : M (hflat_priv W) A) (f : A → M (hflat_priv W) B) :
  keeps (from_uncached l p) m → (∀ a, keeps stays (f a)) → keeps (from_uncached l p) (mbind_ m f).
Proof. intros Hm Hf s b s'' (a & s' & H1 & H2)%mbind_Ret_inv Hu. trans s'; [by eapply Hm|by eapply Hf]. Qed.

Lemma from_uncached_stays {A} l p (m : M (hflat_priv W) A) : keeps stays m → keeps (from_uncached l p) m.
Proof. apply keeps_mono. by intros s s' Hs _. Qed.

(** An object that is not cached may change its key. *)
Lemma rekey l p m' : keeps (from_uncached l p) (write_md l m').
Proof.
  intros s [] s' Hw [(m & Hm & <-) Hl] Hok. injection Hw as <-. split; [|done].
  assert (Hne : ∀ e, e ∈ cache (lookup_cache s) → ce_data e ≠ l).
  { intros e He <-. pose proof (wf_node _ _ _ (fo_lookup s Hok) He) as Hn. unfold md_getKey in Hn. rewrite Hm in Hn. congruence. }
  split; try apply Hok; cbn.
  - eapply wf_getKey_ext; [apply Hok|]. intros e He. unfold md_getKey. cbn. rewrite lookup_insert_ne; [done|].
    by apply not_eq_sym, Hne.
  - intros e He. rewrite lookup_insert_ne; [by apply Hok|by apply not_eq_sym, Hne].
  - intros l0 H0. destruct (fo_fresh s Hok l0 H0) as [H1 H2]. split; [|done]. rewrite lookup_insert_ne; [done|].
    intros <-. congruence.
Qed.

Lemma keeps_toHardlinkT l p : keeps (from_uncached l p) (toHardlinkT l).
Proof.
  unfold toHardlinkT. do 4 (apply from_uncached_calm; [keep|]; intros ?).
  apply from_uncached_then; [apply rekey|]. intros. apply keeps_stays. keep.
Qed.

(** The object at [l] has the key [p]; once that is invalidated it is not cached. *)
Definition from_key l p s s' : Prop := at_key l p s → stays s s'.

Lemma from_key_calm {A B} l p (m : M (hflat_priv W) A) (f : A → M (hflat_priv W) B) :
  keeps calm m → (∀ a, keeps (from_key l p) (f a)) → keeps (from_key l p) (mbind_ m f).
Proof.
  intros Hm Hf s b s'' (a & s' & H1 & H2)%mbind_Ret_inv Hat Hok.
  destruct (Hm _ _ _ H1 Hok) as (Hok' & Hk & _). pose proof Hk as [_ _ (K1 & K2 & K3)].
  destruct (Hf _ _ _ _ H2 (at_key_same _ _ _ _ Hat Hk) Hok') as (H3 & H4 & H5 & H6). split_and!; congruence || done.
Qed.

Lemma from_key_invalidate {B} l p (k : M (hflat_priv W) B) :
  keeps (from_uncached l p) k → keeps (from_key l p) (lc_invalidate p ;;; k).
Proof.
  intros Hk s b s'' ([] & s' & H1 & H2)%mbind_Ret_inv Hat Hok.
  destruct (keeps_lc_invalidate p _ _ _ H1 Hok) as (Hok' & Hs & _). pose proof Hs as [_ _ (K1 & K2 & K3)].
  assert (Hl : lookup_ (lookup_cache s') !! p = None).
  { unfold lc_invalidate, zoom in H1. destruct (invalidate p (lookup_cache s)) as [[] c'| | | | | |] eqn:E; try done.
    injection H1 as <-. by apply invalidate_absent in E. }
  destruct (Hk _ _ _ H2 (conj (at_key_same _ _ _ _ Hat Hs) Hl) Hok') as (H3 & H4 & H5 & H6). split_and!; congruence || done.
Qed.

Lemma deref_then {B} l (f : MetadataInfo → M (hflat_priv W) B) :
  (∀ m, keeps (from_key l (systemPath m)) (f m)) → keeps stays (let! m := deref_md l in f m).
Proof. intros Hf s b s' (m & s1 & (-> & Hm)%deref_md_inv & Hr)%mbind_Ret_inv. by eapply Hf; [|exists m]. Qed.

Lemma keeps_hflat_hardlink fuel : ∀ target origin, keeps stays (hflat_hardlink fuel target origin).
Proof.
  induction fuel as [|f IH]; intros target origin; [apply keeps_nofuel|]. cbn [hflat_hardlink].
  assert (Hup : ∀ B (m : M (hflat_priv W) B), keeps calm m → keeps stays m) by (intros; by apply keeps_stays, keeps_calm).
  assert (Hfail : ∀ l name err, keeps stays (required (delete_directory_entry (S f) l name) ;;;
      if err =? - EAGAIN then hflat_hardlink f target origin else mret_ err)).
  { intros l name err. apply (keeps_bind stays); [apply Hup; keep|]. intros _. destruct (_ =? _); [done|apply keeps_ret, _]. }
  assert (Hend : ∀ mt mo dir, keeps stays (touch_AC mt ;;;
      change_md mt (λ m, set_link_count (md_link_count m + 1) m) ;;;
      let! err := put_metadata mt in
      if negb (err =? 0) then required (delete_directory_entry (S f) dir (path_to_filename origin)) ;;;
        (if err =? - EAGAIN then hflat_hardlink f target origin else mret_ err)
      else let! x := getMD mt in
           change_md mo (λ m, set_link_count 1 (set_inode_number (md_inode_number x) (set_type HARDLINK_S m))) ;;;
           required (create_metadata mo) ;;; mret_ 0)).
  { intros. do 3 (apply (keeps_bind stays); [apply Hup; keep|intros ?]). destruct (negb _); [done|]. apply Hup. keep. }
  do 3 (apply (keeps_on_found stays); [apply keeps_stays; keep|intros ?]).
  do 2 (apply (keeps_on_ok stays); [apply Hup; keep|]).
  apply (keeps_bind stays); [apply keeps_stays; keep|]. intros [err mo]. destruct (negb _); [apply keeps_ret, _|].
  apply deref_then. intros m. do 4 (apply from_key_calm; [keep|intros ?]). apply from_key_invalidate.
  apply from_uncached_calm; [keep|]. intros e. destruct (negb _); [apply from_uncached_stays, keeps_ret, _|].
  apply from_uncached_then; [destruct (bool_decide _); [apply from_uncached_stays, keeps_ret, _|apply keeps_toHardlinkT]|].
  intros e'. destruct (negb _); [apply Hfail|apply Hend].
Qed.
End Operations.
