(* ===== verification/Session.v ===== *)
(** * A mounted session (src/main.cc): the table of operations, and what may
    happen between the mount and its end

    [init_hflat_ops] fills the table through which fuse calls the operations; here
    it is one function from requests to the operations of the other files. The
    requests of a session are served one after the other, each for a caller of
    its own; in between other clients change the drives. *)
From S2P Require Import Prelude CppString Proto PathMapDB LRUCache DataInfo MetadataInfo Kinetic FsState Mount KineticHelper Util Lookup Directory File Data PermissionOps Link Rename Fsck Xattr.

(** One constructor per field of [fuse_operations] that is set, with the
    arguments the operation looks at. Buffers are passed in with their content. *)
Inductive request :=
| create (path : cstr) (mode : Z) | mknod (path : cstr) (mode : Z) | unlink (path : cstr)
| open_ (path : cstr) (flags : Z) | release (path : cstr) (flags : Z)
| mkdir (path : cstr) (mode : Z) | rmdir (path : cstr)
| opendir (path : cstr) (flags : Z) | releasedir (path : cstr) (flags : Z) | readdir (path : cstr)
| access (path : cstr) (mask : Z) | chown (path : cstr) (uid gid : Z) | chmod (path : cstr) (mode : Z)
| getattr (path : cstr) | fgetattr (path : cstr) | utimens (path : cstr) (atime mtime : Z) | statfs (path : cstr)
| setxattr (path name value : cstr) (size flags : Z) | getxattr (path name buf : cstr) (size : Z)
| listxattr (path buf : cstr) (size : Z) | removexattr (path name : cstr)
| symlink (target origin : cstr) | readlink (path buf : cstr) (size : Z) | link (target origin : cstr)
| read (path buf : cstr) (size offset : Z) | write (path buf : cstr) (size offset flags : Z)
| truncate_ (path : cstr) (size : Z) | ftruncate (path : cstr) (size : Z)
| rename (from to : cstr)
| fsync (path : cstr) (flags : Z) | fsyncdir (path : cstr) | flush (path : cstr).

(** The return value, and what the operation hands out. *)
Inductive reply :=
| Code (r : Z)
| Bytes (r : Z) (buf : cstr)
| Entries (r : Z) (names : list cstr)
| Attributes (r : Z) (st : option stat)
| Capacity (r : Z) (st : option statvfs).

Section Session.
Context {W Fl : Type} `{!Env} `{!KineticNamespace W} `{!Float Fl}.
Context (GetCapacity : W → (StatusCode * option (Z * Fl)) * W).

Abbreviation FS := (M (hflat_priv W)).

Definition code (m : FS Z) : FS reply := let! r := m in mret_ (Code r).
Definition bytes (m : FS (Z * cstr)) : FS reply := let! r := m in mret_ (Bytes r.1 r.2).

(** The table; [fuel] bounds the retries of the operation. *)
Definition hflat_ops (fuel : nat) (r : request) : FS reply :=
  match r with
  | create path mode => code (hflat_fcreate fuel path mode)
  | mknod path mode => code (hflat_mknod fuel path mode)
  | unlink path => code (hflat_unlink fuel path)
  | open_ path flags => code (hflat_open fuel path flags)
  | release path flags => code (hflat_release fuel path (Some flags))
  | mkdir path mode => code (hflat_mkdir fuel path mode)
  | rmdir path => code (hflat_rmdir fuel path)
  | opendir path flags => code (hflat_open fuel path flags)
  | releasedir path flags => code (hflat_release fuel path (Some flags))
  | readdir path => let! r := hflat_readdir fuel path in mret_ (Entries r.1 r.2)
  | access path mask => code (hflat_access fuel path mask)
  | chown path uid gid => code (hflat_chown fuel path uid gid)
  | chmod path mode => code (hflat_chmod fuel path mode)
  | getattr path => let! r := hflat_getattr fuel path in mret_ (Attributes r.1 r.2)
  | fgetattr path => let! r := hflat_fgetattr fuel path in mret_ (Attributes r.1 r.2)
  | utimens path atime mtime => code (hflat_utimens fuel path atime mtime)
  | statfs path => let! r := hflat_statfs GetCapacity path in mret_ (Capacity r.1 r.2)
  | setxattr path name value size flags => code (hflat_setxattr fuel path name value size flags)
  | getxattr path name buf size => bytes (hflat_getxattr fuel path name buf size)
  | listxattr path buf size => bytes (hflat_listxattr fuel path buf size)
  | removexattr path name => code (hflat_removexattr fuel path name)
  | symlink target origin => code (hflat_symlink fuel target origin)
  | readlink path buf size => bytes (hflat_readlink fuel path buf size)
  | link target origin => code (hflat_hardlink fuel target origin)
  | read path buf size offset => bytes (hflat_read fuel path buf size offset)
  | write path buf size offset flags => code (hflat_write fuel path buf size offset flags)
  | truncate_ path size => code (hflat_truncate fuel path size)
  | ftruncate path size => code (hflat_ftruncate fuel path size)
  | rename from to => code (hflat_rename fuel from to)
  | fsync path flags => code (hflat_fsync fuel path (Some flags))
  | fsyncdir _ => code hflat_fsyncdir
  | flush _ => code hflat_flush
  end.

(** The caller of a request, [fuse_get_context()]. *)
Definition set_ctx (c : fuse_context) (s : hflat_priv W) : hflat_priv W :=
  mk_hflat_priv (kinetic s) (lookup_cache s) (data_cache s) (pmap_ s) (blocksize s) (posix s) (inum_base s) (inum_counter s)
    (heap_md s) (heap_di s) (next_loc s) (uuids_used s) (steady_used s) (time_used s) c.

(** A failed [REQ_TRUE], a failed assertion, an exception nobody catches. *)
Definition process_ends {A} (o : outcome (hflat_priv W) A) : bool :=
  match o with Exit _ | AssertFail _ | Throw _ => true | _ => false end.

(** [hflat_destroy]: [PRIV] is deleted; blocks with pending changes are lost with
    it (their destructor only warns). *)
Definition hflat_destroy (s : hflat_priv W) : option (hflat_priv W) := None.

(** What may happen; [None] is the end of the process. *)
Inductive session : option (hflat_priv W) → option (hflat_priv W) → Prop :=
| served fuel c r a s s' : hflat_ops fuel r (set_ctx c s) = Ret a s' → session (Some s) (Some s')
| died fuel c r s : process_ends (hflat_ops fuel r (set_ctx c s)) = true → session (Some s) None
| others_write w s : session (Some s) (Some (set_kinetic w s))
| destroyed s : session (Some s) (hflat_destroy s).

(** The state after [hflat_init]: [hflat_priv] with empty caches, then its second half. *)
Definition mounted (s : hflat_priv W) : Prop :=
  ∃ fuel kn expiration block_size mode caller,
    hflat_init fuel (hflat_priv_new kn expiration block_size mode caller) = Ret tt s.
End Session.
