(* ===== verification/SessionFacts.v ===== *)
(** * What holds in every state of a session *)
From S2P Require Import Prelude CppString Proto PathMapDB LRUCache DataInfo MetadataInfo Kinetic FsState Demo Mount KineticHelper Util Lookup Directory File Data PermissionOps Link Rename Fsck Xattr HelperFacts Invariant InvariantOps Session.

Section SessionFacts.
Context {W Fl : Type} `{!Env} `{!KineticNamespace W} `{!Float Fl}.
Context (GetCapacity : W → (StatusCode * option (Z * Fl)) * W).
Implicit Types (s : hflat_priv W).

Lemma keeps_hflat_statfs path : keeps stays (hflat_statfs GetCapacity path).
Proof.
  apply keeps_stays, keeps_calm. intros s a s'. unfold hflat_statfs. destruct (GetCapacity (kinetic s)) as [[st cap] w].
  assert (Hc : calm s (set_kinetic w s)) by (apply calm_frame; by (done || right)).
  destruct (negb _); [intros Hr; by injection Hr as _ <-|]. destruct cap as [[nominal full]|]; [|done].
  intros (x & s1 & Hx & Hr)%mbind_Ret_inv. injection Hr as _ <-. unfold statvfs_of in Hx. destruct (float_to_u64 _); [|done].
  by injection Hx as _ <-.
Qed.

Lemma code_stays m : keeps (stays (W := W)) m → keeps stays (code m).
Proof. intros Hm. apply (keeps_bind stays); [done|]. intros. apply keeps_ret, _. Qed.
Lemma bytes_stays m : keeps (stays (W := W)) m → keeps stays (bytes m).
Proof. intros Hm. apply (keeps_bind stays); [done|]. intros. apply keeps_ret, _. Qed.

(** Every operation of the table. *)
Lemma hflat_ops_stays fuel r : keeps stays (hflat_ops GetCapacity fuel r).
Proof.
  destruct r; cbn [hflat_ops]; first [apply code_stays | apply bytes_stays
    | apply (keeps_bind stays); [|intros; apply keeps_ret, _]];
    first [apply keeps_hflat_hardlink | apply keeps_hflat_statfs | apply keeps_stays, keeps_hflat_create
      | apply keeps_stays, keeps_hflat_unlink | apply keeps_stays, keeps_hflat_open | apply keeps_stays, keeps_hflat_fsync
      | apply keeps_stays, keeps_hflat_rmdir | apply keeps_stays, keeps_hflat_readdir | apply keeps_stays, keeps_hflat_access
      | apply keeps_stays, keeps_permission_change | apply keeps_stays, keeps_hflat_getattr | apply keeps_stays, keeps_hflat_utimens
      | apply keeps_stays, keeps_hflat_setxattr | apply keeps_stays, keeps_hflat_getxattr | apply keeps_stays, keeps_hflat_listxattr
      | apply keeps_stays, keeps_hflat_removexattr | apply keeps_stays, keeps_hflat_symlink
      | apply keeps_stays, keeps_calm, keeps_hflat_readlink | apply keeps_stays, keeps_hflat_read | apply keeps_stays, keeps_hflat_write
      | apply keeps_stays, keeps_hflat_truncate | apply keeps_stays, keeps_hflat_rename | apply keeps_ret, _ ].
Qed.

Lemma hflat_priv_new_ok (kn : W) e b m c : fs_ok (hflat_priv_new kn e b m c).
Proof. split; try apply wf_new; [set_solver..|done|done]. Qed.

Lemma mounted_ok s : mounted s → fs_ok s.
Proof.
  intros (fuel & kn & e & b & m & c & Hi). eapply keeps_hflat_init; [exact Hi|]. apply hflat_priv_new_ok.
Qed.

Lemma set_ctx_ok c s : fs_ok s → fs_ok (set_ctx c s).
Proof. intros [H1 H2 H3 H4 H5 H6]. by split. Qed.

Definition session_ok (o : option (hflat_priv W)) : Prop := ∀ s, o = Some s → fs_ok s.

Lemma session_step_ok o o' : session_ok o → session GetCapacity o o' → session_ok o'.
Proof.
  intros Hok Hs. destruct Hs as [fuel c r a s s' Hr| |w s|]; intros t Ht; simplify_eq.
  - eapply hflat_ops_stays; [exact Hr|]. by apply set_ctx_ok, Hok.
  - destruct (Hok s eq_refl) as [H1 H2 H3 H4 H5 H6]. by split.
Qed.

(** C5: the state invariant. From the mount on, after any sequence of requests, with
    any changes of other clients to the drives in between, the tables and lists of
    both caches agree, every cached inode is stored under its own system path and
    every cached block under its own key, no cached pointer dangles, the heap has
    room for new objects and the inode counter keeps its width. The blocked keys are
    not part of the invariant: a record with inode number 0 leaves its key blocked
    ({!CacheSyncFacts}). *)
Theorem session_invariant s0 s : mounted s0 → steps (session GetCapacity) (Some s0) (Some s) → fs_ok s.
Proof.
  intros Hm Hs. eapply (steps_invariant _ session_ok); [apply session_step_ok| |exact Hs|done].
  intros s1 H1. simplify_eq. by apply mounted_ok.
Qed.
End SessionFacts.

(** ** Witness: mount an empty drive, create a file, link it, stat it *)

#[local] Existing Instance demo_env.

(** Whole numbers for the floating point numbers of statfs. *)
#[local] Instance session_float : Float Z := {|
  float_of_u64 x := x; fmul a b := a * b; fsub a b := a - b; fdiv a b := a / b; float_to_u64 x := Some x
|}.

Definition demo_capacity (w : store) : (StatusCode * option (Z * Z)) * store := (OK, Some (1000000, 0), w).

Definition demo_unmounted : hflat_priv store := hflat_priv_new ∅ 0 1048576 TIMERELAXED (mk_fuse_context 0 0).
Definition demo_session0 : hflat_priv store := state_after (hflat_init 2 demo_unmounted) demo_unmounted.
Definition demo_serve (r : request) (s : hflat_priv store) : hflat_priv store :=
  state_after (hflat_ops demo_capacity 3 r (set_ctx (mk_fuse_context 0 0) s)) s.
Definition demo_session1 : hflat_priv store := demo_serve (create (lit "/f") 33188) demo_session0.
Definition demo_session2 : hflat_priv store := demo_serve (link (lit "/f") (lit "/g")) demo_session1.

Lemma demo_served r s a : result_of (hflat_ops demo_capacity 3 r (set_ctx (mk_fuse_context 0 0) s)) = Some a →
  session demo_capacity (Some s) (Some (demo_serve r s)).
Proof. intros Hr. eapply (served demo_capacity 3 (mk_fuse_context 0 0) r a). unfold demo_serve. destruct (hflat_ops _ _ _ _); cbn in *; by simplify_eq. Qed.

Lemma demo_mounted : mounted demo_session0.
Proof.
  exists 2%nat, ∅, 0, 1048576, TIMERELAXED, (mk_fuse_context 0 0). fold demo_unmounted. apply result_of_Ret. by vm_compute.
Qed.

Lemma session_invariant_witness : fs_ok demo_session2 ∧ bool_decide (is_Some (kinetic demo_session2 !! lit "hardlink_2")) = true.
Proof.
  split; [|vm_compute; reflexivity]. apply (session_invariant demo_capacity demo_session0).
  - exact demo_mounted.
  - eapply steps_step; [eapply steps_step; [apply steps_refl|]|].
    + apply (demo_served (create (lit "/f") 33188) demo_session0 (Code 0)). vm_compute. reflexivity.
    + apply (demo_served (link (lit "/f") (lit "/g")) demo_session1 (Code 0)). vm_compute. reflexivity.
Defined.
