(* ===== verification/CacheSync.v ===== *)
(** * The caches under concurrent calls

    {!LRUCache} models each method as one atomic operation, which the mutex of the
    class makes it. What the file system does with a cache takes several calls:
    {!Lookup.lookup} (src/lookup.cc) and {!Data.data_cached} (src/fuseops/data.cc)
    look a key up, block it, read the drives and add what they read; other
    operations invalidate keys. Here these calls are the steps of threads that
    share one cache.

    A thread is one pass over the cache: the pass of [lookup] behind the reference
    of a hard link or after a FORCE_UPDATE inode, the call that drops a FORCE_UPDATE
    inode which was found in the cache, and the [get] with which [data_cached]
    fetches what it has just added, are threads of their own. *)
From S2P Require Import Prelude LRUCache.

Section CacheSync.
Context {K D : Type} `{Countable K} (getKey : D → K) (dirty : D → bool).

(** An object [lookup] takes for a missing file, its inode number being 0 (the
    answer for a key that is not stored is such an object; no data block is one);
    and the records the drives hold. *)
Context (absent stored : D → bool).

(** What the pass returns for an object it has found or added; [None] is an
    error. *)
Definition answer (d : D) : option D := if absent d then None else Some d.

(** Where a thread is. [CGet] is also where it waits for a blocked key. *)
Inductive cpc :=
| CGet (k : K)
(* [get] has returned false *)
| CBlock (k : K)
(* this thread has blocked the key and reads the drives *)
| CLoad (k : K)
| CAdd (k : K) (d : D)
(* the read failed or found a FORCE_UPDATE inode; or another operation drops the key *)
| CInvalidate (k : K)
(* returned, with the object or with an error *)
| CDone (r : option D).

(** The shared cache; [None] once [REQ_TRUE(cache.add(...))] has failed in some
    thread and the process has exited. *)
Definition cshared : Type := option (LRUcache K D).

(** The step of a thread at [c]. The clock is read inside the call; what the
    drives answer is any object of the key, or an error. An object read is added,
    and so is the empty one when nothing is stored; but a stored record whose inode
    number is 0 makes [lookup] return -ENOENT with the key still blocked. A call
    whose behaviour is undefined has no step. *)
Inductive cache_next : cpc → LRUcache K D → cpc → cshared → Prop :=
| next_hit k now c d c' : get dirty k now c = Ret (Some d) c' → cache_next (CGet k) c (CDone (answer d)) (Some c')
| next_miss k now c c' : get dirty k now c = Ret None c' → cache_next (CGet k) c (CBlock k) (Some c')
| next_blocked k c c' : block k c = Ret true c' → cache_next (CBlock k) c (CLoad k) (Some c')
| next_again k c c' : block k c = Ret false c' → cache_next (CBlock k) c (CGet k) (Some c')
| next_loaded k c d : getKey d = k → absent d = false → cache_next (CLoad k) c (CAdd k d) (Some c)
| next_missing k c d : getKey d = k → absent d = true → cache_next (CLoad k) c (CAdd k d) (Some c)
| next_ignored k c d : getKey d = k → stored d = true → absent d = true → cache_next (CLoad k) c (CDone None) (Some c)
| next_failed k c : cache_next (CLoad k) c (CInvalidate k) (Some c)
| next_added k d now c c' : add getKey dirty k d now c = Ret true c' → cache_next (CAdd k d) c (CDone (answer d)) (Some c')
| next_exit k d now c c' : add getKey dirty k d now c = Ret false c' → cache_next (CAdd k d) c (CDone None) None
| next_invalidated k c c' : invalidate k c = Ret tt c' → cache_next (CInvalidate k) c (CDone None) (Some c').

Record csys := mk_csys { cs_cache : cshared; cs_threads : gmap nat cpc }.

(** The threads of a process that has exited do nothing more. *)
Inductive csys_step : csys → csys → Prop :=
| cthread_steps c ths t p p' c' :
    ths !! t = Some p → cache_next p c p' c' → csys_step (mk_csys (Some c) ths) (mk_csys c' (<[t := p']> ths)).

(** Threads that have been started on a cache nobody has blocked a key of. *)
Definition cfresh (p : cpc) : bool := match p with CGet _ | CInvalidate _ => true | _ => false end.

Definition cinitial (s : csys) : Prop :=
  (∃ c, cs_cache s = Some c ∧ wf getKey c ∧ blocked_keys c = ∅) ∧ ∀ t p, cs_threads s !! t = Some p → cfresh p = true.

(** The key a thread looks up, and the key a thread has blocked or is about to
    drop. *)
Definition looks_up (p : cpc) : option K := match p with CGet k | CBlock k | CLoad k | CAdd k _ => Some k | _ => None end.
Definition owns_key (p : cpc) : option K := match p with CLoad k | CAdd k _ | CInvalidate k => Some k | _ => None end.

(** A thread started to drop a key. *)
Definition invalidates (p : cpc) : bool := match p with CInvalidate _ => true | _ => false end.
Definition returned (p : cpc) : bool := match p with CDone _ => true | _ => false end.
End CacheSync.
