(* ===== verification/CacheSyncFacts.v ===== *)
(** * Concurrent lookups in one cache: what is guaranteed, and what is not *)
From S2P Require Import Prelude LRUCache HelperFacts Invariant CacheSync.

(** ** [add] returns, or is the undefined case of {!LRUCache.lru_add_front_undefined} *)
Section Total.
Context {K D : Type} `{Countable K} (getKey : D → K) (dirty : D → bool).
Implicit Types (c : LRUcache K D) (k : K) (d : D).

Definition settles {A} (o : outcome (LRUcache K D) A) : Prop := (∃ a c', o = Ret a c') ∨ ∃ c', o = Undef c'.

Lemma settles_bind {A B} (m : M (LRUcache K D) A) (f : A → M (LRUcache K D) B) c :
  settles (m c) → (∀ a c', m c = Ret a c' → settles (f a c')) → settles (mbind_ m f c).
Proof. unfold mbind_. intros [(a & c' & ->)|(c' & ->)] Hf; [by apply Hf|right; eauto]. Qed.

Lemma evict_settles f : ∀ c pre post, wf getKey c → cache c = pre ++ post → (length pre < f)%nat →
  settles (evict getKey dirty f (base_of post) c).
Proof.
  induction f as [|f IH]; intros c pre post Hwf Hc Hf; [lia|]. pose proof (wf_ids _ _ Hwf) as Hnd.
  destruct (Z.lt_ge_cases (Z.of_nat (length (cache c))) (capacity c)); [rewrite evict_stop by done; left; eauto|].
  destruct (nil_or_snoc pre) as [->|(pre' & e & ->)].
  { cbn [evict]. rewrite Hc in Hnd |- *. rewrite prev_node_split by done. left; eauto. }
  rewrite length_app in Hf. cbn in Hf. destruct (dirty (ce_data e)) eqn:Hd.
  - rewrite (evict_step_dirty getKey dirty f c pre' e post) by done. apply (IH c pre'); [done| |lia]. by rewrite Hc, <- app_assoc.
  - rewrite (evict_step_clean getKey dirty f c pre' e post) by done. destruct (nil_or_snoc pre') as [->|(pre2 & e' & ->)].
    + right. cbn. eauto.
    + rewrite last_snoc. rewrite length_app in Hf. cbn in Hf.
      apply (IH _ pre2 (e' :: post)); [|cbn; by rewrite <- app_assoc|lia].
      assert (Hc' : cache c = (pre2 ++ [e']) ++ e :: post) by (by rewrite Hc, <- app_assoc).
      pose proof (wf_remove getKey c (getKey (ce_data e)) (ce_id e) Hwf) as Hr. rewrite Hc' in Hr, Hnd.
      rewrite erase_node_split in Hr by done. apply Hr. apply wf_node; [done|]. rewrite Hc'. set_solver.
Qed.

Lemma add_settles c k d now : wf getKey c → settles (add getKey dirty k d now c).
Proof.
  intros Hwf. assert (Hins : ∀ c1, wf getKey c1 → settles ((let! _ := (λ c, evict getKey dirty (S (length (cache c))) None c) in
      let! _ := modify_ (push_front k d now) in mret_ true) c1)).
  { intros c1 H1. apply settles_bind.
    - apply (evict_settles _ c1 (cache c1) []); [done|by rewrite app_nil_r|lia].
    - intros [] c2 _. left. by do 2 eexists. }
  unfold add. destruct (lookup_ c !! k) as [id|] eqn:Hl; [|by apply Hins].
  destruct (wf_lookup _ _ _ _ Hwf Hl) as (e & Hf & _). rewrite Hf. destruct (expired _ _ _ _); [|left; eauto].
  apply settles_bind; [left; rewrite (remove_ret getKey c k id) by done; eauto|].
  intros [] c1 Hr. apply Hins. rewrite (remove_ret getKey c k id) in Hr by done. injection Hr as <-. by apply wf_remove.
Qed.
End Total.

(** ** The steps of a thread *)
Section Steps.
Context {K D : Type} `{Countable K} (getKey : D → K) (dirty absent stored : D → bool).
Implicit Types (c : LRUcache K D) (k : K) (d : D) (t : nat) (p : cpc (K := K) (D := D)).

Lemma get_blocked c k now r c' : wf getKey c → get dirty k now c = Ret r c' →
  (k ∉ blocked_keys c) ∧ blocked_keys c' = blocked_keys c ∧ (r = None → lookup_ c' !! k = None).
Proof.
  intros Hwf Hg. pose proof Hg as Hg0. unfold get in Hg. case_bool_decide as Hb; [done|].
  destruct (lookup_ c !! k) as [id|] eqn:Hl; [|injection Hg as <- <-; by split_and!].
  destruct (wf_lookup _ _ _ _ Hwf Hl) as (e & Hf & _). rewrite Hf in Hg. destruct (expired _ _ _ _).
  - apply mbind_Ret_inv in Hg as ([] & c1 & Hrm & Hr). rewrite (remove_ret getKey c k id) in Hrm by done.
    injection Hrm as <-. injection Hr as <- <-. split_and!; [done..|]. intros _. cbn. apply lookup_delete_eq.
  - injection Hg as <- <-. by split_and!.
Qed.

Lemma add_effect c k d now b c' : wf getKey c → add getKey dirty k d now c = Ret b c' →
  (∀ k', k' ≠ k → lookup_ c !! k' = None → lookup_ c' !! k' = None) ∧
  (b = true → blocked_keys c' = blocked_keys c ∖ {[k]}) ∧ (b = false → is_Some (lookup_ c !! k)).
Proof.
  intros Hwf.
  assert (Hins : ∀ c1, wf getKey c1 → blocked_keys c1 = blocked_keys c →
    (let! _ := (λ c, evict getKey dirty (S (length (cache c))) None c) in let! _ := modify_ (push_front k d now) in mret_ true) c1 = Ret b c' →
    (∀ k', k' ≠ k → lookup_ c1 !! k' = None → lookup_ c' !! k' = None) ∧ blocked_keys c' = blocked_keys c ∖ {[k]} ∧ b = true).
  { intros c1 H1 Hb ([] & c2 & Hev & ([] & c3 & Hp & Hr)%mbind_Ret_inv)%mbind_Ret_inv.
    injection Hp as <-. injection Hr as <- <-. destruct (evict_Ret _ _ _ _ _ _ H1 Hev) as (_ & Hb2 & _ & _ & _ & Hn).
    cbn. rewrite Hb2, Hb. split; [|done]. intros k' Hne Hk'. rewrite lookup_insert_ne by done. by apply Hn. }
  unfold add. destruct (lookup_ c !! k) as [id|] eqn:Hl.
  - destruct (wf_lookup _ _ _ _ Hwf Hl) as (e & Hf & _). rewrite Hf. destruct (expired _ _ _ _).
    + intros ([] & c1 & Hrm & Hr)%mbind_Ret_inv. rewrite (remove_ret getKey c k id) in Hrm by done. injection Hrm as <-.
      destruct (Hins _ (wf_remove getKey c k id Hwf Hl) eq_refl Hr) as (H1 & H2 & ->). split; [|done].
      intros k' Hne Hk'. apply H1; [done|]. cbn. by rewrite lookup_delete_ne.
    + intros Hr. injection Hr as <- <-. split; [done|]. split; [done|eauto].
  - intros Hr. destruct (Hins c Hwf eq_refl Hr) as (H1 & H2 & ->). done.
Qed.

Lemma invalidate_blocked c k c' : invalidate k c = Ret tt c' → blocked_keys c' = blocked_keys c ∖ {[k]}.
Proof.
  unfold invalidate. intros ([] & c1 & Hr & Hm)%mbind_Ret_inv. injection Hm as <-. cbn. case_bool_decide.
  - unfold remove in Hr. repeat case_match; try done. by injection Hr as <-.
  - by injection Hr as <-.
Qed.

Lemma block_effect c k b c' : block k c = Ret b c' →
  lookup_ c' = lookup_ c ∧ if b then (k ∉ blocked_keys c) ∧ blocked_keys c' = {[k]} ∪ blocked_keys c else c' = c.
Proof. unfold block. case_bool_decide; intros Hr; injection Hr as <- <-; done. Qed.

(** The object about to be added is of the key. *)
Definition loaded_right p : Prop := match p with CAdd k d => getKey d = k | _ => True end.

(** No stored record has inode number 0. *)
Definition numbered : Prop := ∀ d, stored d = true → absent d = false.

(** What a step does to the cache, and to the keys the thread has blocked. *)
Lemma next_effect p c p' c' : wf getKey c → loaded_right p → cache_next getKey dirty absent stored p c p' (Some c') →
  wf getKey c' ∧ loaded_right p' ∧
  (∀ k, k ∈ blocked_keys c' → k ∈ blocked_keys c ∨ owns_key p' = Some k) ∧
  (numbered → ∀ k, owns_key p = Some k → owns_key p' = Some k ∨ k ∉ blocked_keys c') ∧
  (∀ k, k ∈ blocked_keys c → k ∈ blocked_keys c' ∨ owns_key p = Some k ∧ owns_key p' = None) ∧
  (∀ k, owns_key p' = Some k → owns_key p = Some k ∨ (k ∉ blocked_keys c) ∧ k ∈ blocked_keys c').
Proof.
  intros Hwf Hlr Hn. inversion Hn as [k now c0 d c1 Hg|k now c0 c1 Hg|k c0 c1 Hb|k c0 c1 Hb|k c0 d Hk Hd|k c0 d Hk Hd|k c0 d Hk Hst Hd|k c0|k d now c0 c1 Ha| |k c0 c1 Hi];
    subst; cbn [owns_key loaded_right] in *.
  - destruct (get_blocked _ _ _ _ _ Hwf Hg) as (_ & Hb & _). rewrite Hb. split; [by eapply wf_get|]. naive_solver.
  - destruct (get_blocked _ _ _ _ _ Hwf Hg) as (_ & Hb & _). rewrite Hb. split; [by eapply wf_get|]. naive_solver.
  - destruct (block_effect _ _ _ _ Hb) as (_ & Hk & He). rewrite He. split; [by eapply wf_block|]. set_solver.
  - destruct (block_effect _ _ _ _ Hb) as (_ & ->). split; [done|]. naive_solver.
  - split; [done|]. naive_solver.
  - split; [done|]. naive_solver.
  - split; [done|]. split; [done|]. split; [naive_solver|]. split; [intros Hnum; specialize (Hnum d Hst); congruence|]. naive_solver.
  - split; [done|]. naive_solver.
  - destruct (add_effect _ _ _ _ _ _ Hwf Ha) as (_ & Hb & _). rewrite Hb by done.
    split; [by eapply (wf_add_any getKey dirty); [exact Hwf|exact Hlr|exact Ha]|].
    split; [done|]. split_and!; [|intros _| |]; intros k0; rewrite ?elem_of_difference, ?elem_of_singleton; destruct (decide (k0 = k)); naive_solver.
  - rewrite (invalidate_blocked _ _ _ Hi). split; [by eapply wf_invalidate|].
    split; [done|]. split_and!; [|intros _| |]; intros k0; rewrite ?elem_of_difference, ?elem_of_singleton; destruct (decide (k0 = k)); naive_solver.
Qed.
End Steps.

(** ** Threads on one cache *)
Section System.
Context {K D : Type} `{Countable K} (getKey : D → K) (dirty absent stored : D → bool).
Implicit Types (c : LRUcache K D) (k : K) (d : D) (t : nat) (p : cpc (K := K) (D := D)) (s : csys (K := K) (D := D)).

Abbreviation step := (csys_step getKey dirty absent stored).

(** A blocked key has a thread that will unblock it, unless some stored record has
    inode number 0. *)
Definition cinv s : Prop := ∀ c, cs_cache s = Some c →
  wf getKey c ∧ (∀ t p, cs_threads s !! t = Some p → loaded_right getKey p) ∧
  (numbered absent stored → ∀ k, k ∈ blocked_keys c → ∃ t p, cs_threads s !! t = Some p ∧ owns_key p = Some k).

Lemma cinitial_inv s : cinitial getKey s → cinv s.
Proof.
  intros [(c & Hc & Hwf & Hb) Hf] c' Hc'. rewrite Hc in Hc'. simplify_eq. split; [done|]. split; [|rewrite Hb; set_solver].
  intros t p Hp. specialize (Hf t p Hp). by destruct p.
Qed.

Lemma cinv_step s s' : cinv s → step s s' → cinv s'.
Proof.
  intros Hi Hs c' Hc'. destruct Hs as [c ths t p p' c1 Ht Hn]. cbn in *. subst c1.
  destruct (Hi c eq_refl) as (Hwf & Hl & Ho). cbn in *.
  destruct (next_effect getKey dirty absent stored p c p' c' Hwf (Hl t p Ht) Hn) as (Hwf' & Hl' & H1 & H2 & _).
  split; [done|]. split.
  - intros t' q. rewrite lookup_insert. case_decide; [intros; by simplify_eq|apply Hl].
  - intros Hnum k Hk. specialize (Ho Hnum). specialize (H2 Hnum). destruct (H1 k Hk) as [Hk0|Hk0]; [|exists t, p'; by rewrite lookup_insert_eq].
    destruct (Ho k Hk0) as (t' & q & Hq & Hown). destruct (decide (t' = t)) as [->|Hne].
    + simplify_eq. destruct (H2 k Hown) as [?|?]; [|done]. exists t, p'. by rewrite lookup_insert_eq.
    + exists t', q. by rewrite lookup_insert_ne.
Qed.

Lemma reachable_cinv s0 s : cinitial getKey s0 → steps step s0 s → cinv s.
Proof. intros H0. apply steps_invariant; [apply cinv_step|by apply cinitial_inv]. Qed.

(** *** Exclusion *)

Definition exclusive s : Prop := ∀ c, cs_cache s = Some c →
  (∀ t p k, cs_threads s !! t = Some p → owns_key p = Some k → k ∈ blocked_keys c) ∧
  ∀ t t' p p' k, cs_threads s !! t = Some p → cs_threads s !! t' = Some p' →
    owns_key p = Some k → owns_key p' = Some k → t = t'.

Lemma exclusive_step s s' : cinv s → exclusive s → step s s' → exclusive s'.
Proof.
  intros Hi He Hs c' Hc'. destruct Hs as [c ths t p p' c1 Ht Hn]. cbn in *. subst c1.
  destruct (Hi c eq_refl) as (Hwf & Hl & _). destruct (He c eq_refl) as [Hb Hu]. cbn in *.
  destruct (next_effect getKey dirty absent stored p c p' c' Hwf (Hl t p Ht) Hn) as (_ & _ & _ & _ & H3 & H4).
  assert (Hother : ∀ t' q k, t' ≠ t → ths !! t' = Some q → owns_key q = Some k → k ∈ blocked_keys c' ∧ owns_key p' ≠ Some k).
  { intros t' q k Hne Hq Hown. pose proof (Hb t' q k Hq Hown) as Hk. split.
    - destruct (H3 k Hk) as [?|[Hp _]]; [done|]. by destruct Hne; apply (Hu t' t q p k).
    - intros Hp'. destruct (H4 k Hp') as [Hp|[Hnk _]]; [|done]. by destruct Hne; apply (Hu t' t q p k). }
  split.
  - intros t' q k. rewrite lookup_insert. case_decide as E; [|intros Hq Hown; by apply (Hother t' q)].
    intros Hq Hown. simplify_eq. destruct (H4 k Hown) as [Hp|[_ ?]]; [|done].
    destruct (H3 k (Hb _ _ _ Ht Hp)) as [?|[_ ?]]; [done|congruence].
  - intros t1 t2 q1 q2 k. rewrite !lookup_insert. repeat case_decide; intros Hq1 Hq2 Ho1 Ho2; simplify_eq; [done|..].
    + by destruct (Hother t2 q2 k) as [_ []].
    + by destruct (Hother t1 q1 k) as [_ []].
    + by eapply Hu.
Qed.

(** C28: one loader per key. As long as no thread has been started to drop keys,
    at most one thread at a time has a key blocked, reads it from the drives and
    adds it; and while it does, the key is blocked for all others. *)
Theorem cache_load_exclusive s0 s c : cinitial getKey s0 → (∀ t p, cs_threads s0 !! t = Some p → invalidates p = false) →
  steps step s0 s → cs_cache s = Some c → ∀ t t' p p' k, cs_threads s !! t = Some p → cs_threads s !! t' = Some p' →
    owns_key p = Some k → owns_key p' = Some k → t = t' ∧ k ∈ blocked_keys c.
Proof.
  intros H0 Hni Hs Hc. assert (Hinv : cinv s ∧ exclusive s).
  { eapply (steps_invariant _ (λ s, cinv s ∧ exclusive s)); [|split|exact Hs].
    - intros x y [Hx1 Hx2] Hxy. split; [by eapply cinv_step|by eapply exclusive_step].
    - by apply cinitial_inv.
    - destruct H0 as [(c0 & Hc0 & _) Hf]. intros c1 Hc1. split.
      + intros t p k Hp Hown. specialize (Hf t p Hp). specialize (Hni t p Hp). by destruct p.
      + intros t t' p p' k Hp _ Hown. specialize (Hf t p Hp). specialize (Hni t p Hp). by destruct p. }
  destruct (proj2 Hinv c Hc) as [Hb Hu]. intros t t' p p' k H1 H2 H3 H4. split; [by eapply Hu|by eapply Hb].
Qed.

(** *** No deadlock *)

(** C29: no deadlock. In every reachable state, as long as some thread has not
    returned and the process lives, a thread can go on: a thread that waits for a
    blocked key waits for one that is about to unblock it. Two exceptions are
    excluded: a stored record with inode number 0, whose key stays blocked (see
    [ignored_record_blocks_key]), and a state in which a thread is about to add
    an object and would meet the undefined eviction of
    {!LRUCache.lru_add_front_undefined}. *)
Theorem cache_deadlock_free s0 s c t p : cinitial getKey s0 → steps step s0 s → cs_cache s = Some c →
  cs_threads s !! t = Some p → returned p = false → numbered absent stored →
  (∀ t' k (d : D) now c', cs_threads s !! t' = Some (CAdd k d) → add getKey dirty k d now c ≠ Undef c') →
  ∃ s', step s s'.
Proof.
  intros H0 Hs Hc Hp Hr Hnum Hnu. destruct (reachable_cinv s0 s H0 Hs c Hc) as (Hwf & _ & Ho). specialize (Ho Hnum).
  destruct s as [oc ths]. cbn in *. subst oc.
  assert (Hgo : ∀ t p p' o, ths !! t = Some p → cache_next getKey dirty absent stored p c p' o → ∃ s', step (mk_csys (Some c) ths) s').
  { intros t' q q' o Hq Hn. eexists. by econstructor. }
  assert (Hadd : ∀ t k d, ths !! t = Some (CAdd k d) → ∃ s', step (mk_csys (Some c) ths) s').
  { intros t' k d Hq. destruct (add_settles getKey dirty c k d 0 Hwf) as [(b & c' & Ha)|(c' & Ha)]; [|by destruct (Hnu t' k d 0 c')].
    destruct b; [by eapply Hgo, next_added|by eapply Hgo, next_exit]. }
  assert (Hinv : ∀ t k, ths !! t = Some (CInvalidate k) → ∃ s', step (mk_csys (Some c) ths) s').
  { intros t' k Hq. destruct (invalidate_total getKey c k Hwf) as (c' & Hi & _). by eapply Hgo, next_invalidated. }
  assert (Hload : ∀ t k, ths !! t = Some (CLoad k) → ∃ s', step (mk_csys (Some c) ths) s').
  { intros t' k Hq. by eapply Hgo, next_failed. }
  destruct p as [k|k|k|k d|k|r]; [|destruct (decide (k ∈ blocked_keys c)) as [Hb|Hb]|eauto..|done].
  - destruct (decide (k ∈ blocked_keys c)) as [Hb|Hb].
    + destruct (Ho k Hb) as (t' & q & Hq & Hown). destruct q; cbn in Hown; simplify_eq; eauto.
    + destruct (get_correct_ getKey dirty c k 0 Hwf Hb) as ([d|] & c' & Hg & _); [by eapply Hgo, next_hit|by eapply Hgo, next_miss].
  - eapply Hgo; [done|]. apply next_again. unfold block. by rewrite bool_decide_true.
  - eapply Hgo; [done|]. apply next_blocked. unfold block. by rewrite bool_decide_false.
Qed.

(** *** Lookups that meet *)

(** One thread per key looks it up. *)
Definition one_lookup (ths : gmap nat cpc) : Prop := ∀ t t' p p' k,
  ths !! t = Some p → ths !! t' = Some p' → looks_up p = Some k → looks_up p' = Some k → t = t'.

(** A thread that has seen its key missing. *)
Definition saw_miss p : option K := match p with CBlock k | CLoad k | CAdd k _ => Some k | _ => None end.

Definition alone_inv s : Prop := ∃ c, cs_cache s = Some c ∧ wf getKey c ∧ one_lookup (cs_threads s) ∧
  ∀ t p, cs_threads s !! t = Some p → loaded_right getKey p ∧ ∀ k, saw_miss p = Some k → lookup_ c !! k = None.

Lemma next_lookup p c p' c' : wf getKey c → cache_next getKey dirty absent stored p c p' (Some c') →
  (∀ k, looks_up p' = Some k → looks_up p = Some k) ∧
  (∀ k, lookup_ c !! k = None → lookup_ c' !! k = None ∨ looks_up p = Some k ∧ saw_miss p' = None) ∧
  (∀ k, saw_miss p' = Some k → saw_miss p = Some k ∨ lookup_ c' !! k = None).
Proof.
  intros Hwf Hn. inversion Hn as [k now c0 d c1 Hg|k now c0 c1 Hg|k c0 c1 Hb|k c0 c1 Hb|k c0 d Hk Hd|k c0 d Hk Hd|k c0 d Hk Hst Hd|k c0|k d now c0 c1 Ha| |k c0 c1 Hi];
    subst; cbn [looks_up saw_miss]; (split; [naive_solver|]).
  - split; [|done]. intros k' Hk'. left. by eapply (smaller_get getKey dirty).
  - split; [intros k' Hk'; left; by eapply (smaller_get getKey dirty)|]. intros k' Hk'. simplify_eq. right.
    by apply (get_blocked getKey dirty _ _ _ _ _ Hwf Hg).
  - destruct (block_effect _ _ _ _ Hb) as [-> _]. split; [by left|by left].
  - destruct (block_effect _ _ _ _ Hb) as [-> _]. split; [by left|done].
  - split; by left.
  - split; by left.
  - split; [by left|done].
  - split; [by left|done].
  - split; [|done]. intros k' Hk'. destruct (decide (k' = k)) as [->|Hne]; [by right|left].
    by apply (add_effect getKey dirty _ _ _ _ _ _ Hwf Ha).
  - split; [|done]. intros k' Hk'. left. by eapply smaller_invalidate.
Qed.

Lemma alone_step s s' : alone_inv s → step s s' → alone_inv s'.
Proof.
  intros (c & Hc & Hwf & Hone & Hths) Hs. destruct Hs as [c0 ths t p p' o Ht Hn]. cbn in *. simplify_eq.
  destruct o as [c'|].
  - destruct (Hths t p Ht) as [Hl Hm]. destruct (next_effect getKey dirty absent stored p c p' c' Hwf Hl Hn) as (Hwf' & Hl' & _).
    destruct (next_lookup p c p' c' Hwf Hn) as (H1 & H2 & H3). exists c'. split; [done|]. split; [done|]. cbn. split.
    + intros t1 t2 q1 q2 k. rewrite !lookup_insert. repeat case_decide; intros Hq1 Hq2 Ho1 Ho2; simplify_eq; [done|..].
      * by apply (Hone t1 t2 p q2 k); [..|apply H1|].
      * by apply (Hone t1 t2 q1 p k); [..|apply H1].
      * by eapply Hone.
    + intros t' q. rewrite lookup_insert. case_decide as E; intros Hq; simplify_eq.
      * split; [done|]. intros k Hk. destruct (H3 k Hk) as [Hk0|?]; [|done]. destruct (H2 k (Hm k Hk0)) as [?|[_ ?]]; congruence.
      * destruct (Hths t' q Hq) as [Hlq Hmq]. split; [done|]. intros k Hk. destruct (H2 k (Hmq k Hk)) as [?|[Hp _]]; [done|].
        destruct E. apply (Hone t t' p q k Ht Hq Hp). by destruct q.
  - inversion Hn as [| | | | | | | | |k d now c0 c1 Ha|]; subst. exfalso. destruct (Hths t _ Ht) as [_ Hm].
    destruct (add_effect getKey dirty _ _ _ _ _ _ Hwf Ha) as (_ & _ & Hs). destruct (Hs eq_refl) as [id Hid].
    specialize (Hm k eq_refl). congruence.
Qed.

(** C30: when no two threads look up the same key, the file system survives:
    [REQ_TRUE(cache.add(...))] never fails, whatever keys other threads drop
    meanwhile. *)
Theorem single_lookups_survive s0 s : cinitial getKey s0 → one_lookup (cs_threads s0) → steps step s0 s → cs_cache s ≠ None.
Proof.
  intros [(c0 & Hc0 & Hwf & _) Hf] H1 Hs. assert (Hi : alone_inv s).
  { eapply (steps_invariant step alone_inv); [apply alone_step| |exact Hs]. exists c0. split; [done|]. split; [done|].
    split; [done|]. intros t p Hp. specialize (Hf t p Hp). by destruct p. }
  destruct Hi as (c & -> & _). done.
Qed.

Lemma next_read k c d : getKey d = k → cache_next getKey dirty absent stored (CLoad k) c (CAdd k d) (Some c).
Proof. intros Hk. destruct (absent d) eqn:Ha; [by apply next_missing|by apply next_loaded]. Qed.

(** Two lookups of one key: the second finds nothing as well, but blocks the key
    only after the first has added it. *)
Definition meet (k : K) (c : LRUcache K D) : csys := mk_csys (Some c) {[0%nat := CGet k; 1%nat := CGet k]}.

Lemma then_step s0 c ths t p p' o : steps step s0 (mk_csys (Some c) ths) → ths !! t = Some p →
  cache_next getKey dirty absent stored p c p' o → steps step s0 (mk_csys o (<[t := p']> ths)).
Proof. intros Hs Ht Hn. eapply steps_step; [exact Hs|by eapply cthread_steps]. Qed.

(** A stored record with inode number 0 blocks its key for ever: [lookup] returns
    -ENOENT for it without adding it or unblocking the key, and the next lookup of
    the path waits with nobody left to wake it. *)
Theorem ignored_record_blocks_key c k d : blocked_keys c = ∅ → lookup_ c !! k = None →
  getKey d = k → stored d = true → absent d = true →
  ∃ s, steps step (meet k c) s ∧ cs_threads s !! 0%nat = Some (CDone None) ∧ cs_threads s !! 1%nat = Some (CGet k) ∧ ¬ ∃ s', step s s'.
Proof.
  intros Hb Hl Hd Hst Ha. set (c1 := set_blocked ({[k]} ∪ blocked_keys c) c).
  assert (Hget : get dirty k 0 c = Ret None c) by (unfold get; by rewrite Hb, bool_decide_false, Hl by set_solver).
  assert (Hblock : block k c = Ret true c1) by (unfold block; by rewrite bool_decide_false by (rewrite Hb; set_solver)).
  assert (S1 := then_step _ _ _ 0 (CGet k) _ _ (steps_refl _ (meet k c)) ltac:(by simplify_map_eq) (next_miss _ _ _ _ _ _ _ _ Hget)).
  assert (S2 := then_step _ _ _ 0 (CBlock k) _ _ S1 ltac:(by simplify_map_eq) (next_blocked _ _ _ _ _ _ _ Hblock)).
  assert (S3 := then_step _ _ _ 0 (CLoad k) _ _ S2 ltac:(by simplify_map_eq) (next_ignored _ _ _ _ k c1 d Hd Hst Ha)).
  eexists. split; [exact S3|]. split; [by simplify_map_eq|]. split; [by simplify_map_eq|].
  clear S1 S2 S3 Hd. intros [s' Hs']. inversion Hs' as [c0 ths t p p' o Ht Hn]; subst.
  assert (Hp : p = CDone None ∨ p = CGet k) by (destruct t as [|[|t]]; simplify_map_eq; auto).
  destruct Hp as [-> | ->]; inversion Hn as [k0 now c0 d0 c2 Hg|k0 now c0 c2 Hg| | | | | | | | |]; subst;
    unfold get in Hg; rewrite bool_decide_true in Hg by set_solver; discriminate Hg.
Qed.

(** Two concurrent lookups of one path kill the file system. [get] and
    [block] are separate calls: when the second thread blocks the key after the
    first has added it, its own [add] is refused and the process exits. *)
Theorem concurrent_lookups_exit c k d : wf getKey c → blocked_keys c = ∅ → lookup_ c !! k = None → getKey d = k →
  expiration_time c = 0 → Z.of_nat (length (cache c)) < capacity c →
  ∃ ths, steps step (meet k c) (mk_csys None ths).
Proof.
  intros Hwf Hb Hl Hd He Hroom.
  assert (Hget : get dirty k 0 c = Ret None c) by (unfold get; by rewrite Hb, bool_decide_false, Hl by set_solver).
  set (c1 := set_blocked ({[k]} ∪ blocked_keys c) c). set (c2 := push_front k d 0 c1). set (c3 := set_blocked ({[k]} ∪ blocked_keys c2) c2).
  assert (Hblock : block k c = Ret true c1) by (unfold block; by rewrite bool_decide_false by (rewrite Hb; set_solver)).
  assert (Hadd : add getKey dirty k d 0 c1 = Ret true c2) by (by apply (add_without_eviction getKey dirty c1); auto).
  assert (Hblock2 : block k c2 = Ret true c3) by (unfold block; rewrite bool_decide_false; [done|cbn; set_solver]).
  assert (Hadd2 : add getKey dirty k d 0 c3 = Ret false c3).
  { unfold add. cbn [lookup_ c3 set_blocked c2 push_front]. rewrite lookup_insert_eq. cbn [cache]. cbn. rewrite Nat.eqb_refl.
    unfold expired. cbn. rewrite He. by destruct (dirty d). }
  assert (S1 := then_step _ _ _ 0 (CGet k) _ _ (steps_refl _ (meet k c)) ltac:(by simplify_map_eq) (next_miss _ _ _ _ _ _ _ _ Hget)).
  assert (S2 := then_step _ _ _ 1 (CGet k) _ _ S1 ltac:(by simplify_map_eq) (next_miss _ _ _ _ _ _ _ _ Hget)).
  assert (S3 := then_step _ _ _ 0 (CBlock k) _ _ S2 ltac:(by simplify_map_eq) (next_blocked _ _ _ _ _ _ _ Hblock)).
  assert (S4 := then_step _ _ _ 0 (CLoad k) _ _ S3 ltac:(by simplify_map_eq) (next_read k c1 d Hd)).
  assert (S5 := then_step _ _ _ 0 (CAdd k d) _ _ S4 ltac:(by simplify_map_eq) (next_added _ _ _ _ _ _ _ _ _ Hadd)).
  assert (S6 := then_step _ _ _ 1 (CBlock k) _ _ S5 ltac:(by simplify_map_eq) (next_blocked _ _ _ _ _ _ _ Hblock2)).
  assert (S7 := then_step _ _ _ 1 (CLoad k) _ _ S6 ltac:(by simplify_map_eq) (next_read k c3 d Hd)).
  eexists. exact (then_step _ _ _ 1 (CAdd k d) _ _ S7 ltac:(by simplify_map_eq) (next_exit _ _ _ _ _ _ _ _ _ Hadd2)).
Qed.
End System.

(** ** Witnesses: a cache of natural numbers keyed by themselves *)

Definition small_cache : LRUcache nat nat := LRU_new 0 2.
Definition small_blocked : LRUcache nat nat := set_blocked ({[5%nat]} ∪ ∅) small_cache.
Definition small_start (p : cpc (K := nat) (D := nat)) : csys := mk_csys (Some small_cache) {[0%nat := CGet 5%nat; 1%nat := p]}.
Definition small_loading (p : cpc (K := nat) (D := nat)) : csys :=
  mk_csys (Some small_blocked) (<[0%nat := CLoad 5%nat]> (<[0%nat := CBlock 5%nat]> {[0%nat := CGet 5%nat; 1%nat := p]})).

Lemma small_initial p : cfresh p = true → cinitial id (small_start p).
Proof.
  intros Hp. split; [exists small_cache; split; [done|split; [apply wf_new|done]]|].
  intros t q Hq. cbn in Hq. apply lookup_insert_Some in Hq as [[_ <-]|[_ Hq]]; [done|].
  by apply lookup_singleton_Some in Hq as [_ <-].
Qed.

Lemma small_reach p : steps (csys_step id (λ _, false) (λ _, false) (λ _, true)) (small_start p) (small_loading p).
Proof.
  assert (S1 := then_step id (λ _, false) (λ _, false) (λ _, true) _ _ _ 0 (CGet 5%nat) (CBlock 5%nat) (Some small_cache) (steps_refl _ (small_start p))
    ltac:(by simplify_map_eq) (next_miss _ _ _ _ 5%nat 0 small_cache small_cache eq_refl)).
  exact (then_step id (λ _, false) (λ _, false) (λ _, true) _ _ _ 0 (CBlock 5%nat) (CLoad 5%nat) (Some small_blocked) S1
    ltac:(by simplify_map_eq) (next_blocked _ _ _ _ 5%nat small_cache small_blocked eq_refl)).
Qed.

Lemma cache_load_exclusive_witness : 0%nat = 0%nat ∧ 5%nat ∈ blocked_keys small_blocked.
Proof.
  apply (cache_load_exclusive id (λ _, false) (λ _, false) (λ _, true) (small_start (CGet 5%nat)) (small_loading (CGet 5%nat)) small_blocked) with (p := CLoad 5%nat) (p' := CLoad 5%nat).
  - by apply small_initial.
  - intros t p Hp. cbn in Hp. apply lookup_insert_Some in Hp as [[_ <-]|[_ Hp]]; [done|].
    by apply lookup_singleton_Some in Hp as [_ <-].
  - apply small_reach.
  - reflexivity.
  - reflexivity.
  - reflexivity.
  - reflexivity.
  - reflexivity.
Defined.

(** The second thread waits; the first can go on. *)
Lemma cache_deadlock_free_witness : ∃ s', csys_step id (λ _, false) (λ _, false) (λ _, true) (small_loading (CGet 5%nat)) s'.
Proof.
  apply (cache_deadlock_free id (λ _, false) (λ _, false) (λ _, true) (small_start (CGet 5%nat)) (small_loading (CGet 5%nat)) small_blocked 1 (CGet 5%nat)).
  - by apply small_initial.
  - apply small_reach.
  - reflexivity.
  - reflexivity.
  - reflexivity.
  - intros d _. reflexivity.
  - intros t' k d now c' Hq. exfalso. cbn in Hq. repeat (apply lookup_insert_Some in Hq as [[_ Hq]|[_ Hq]]; [discriminate Hq|]).
    by apply lookup_singleton_Some in Hq as [_ Hq].
Defined.

Lemma single_lookups_survive_witness : cs_cache (small_loading (CInvalidate 5%nat)) ≠ None.
Proof.
  apply (single_lookups_survive id (λ _, false) (λ _, false) (λ _, true) (small_start (CInvalidate 5%nat))).
  - by apply small_initial.
  - intros t t' p p' k Hp Hp' Hk Hk'. cbn in Hp, Hp'.
    apply lookup_insert_Some in Hp as [[<- <-]|[_ Hp]]; [|apply lookup_singleton_Some in Hp as [_ <-]; discriminate Hk].
    apply lookup_insert_Some in Hp' as [[<- <-]|[_ Hp']]; [reflexivity|].
    apply lookup_singleton_Some in Hp' as [_ <-]. discriminate Hk'.
  - apply small_reach.
Defined.

Lemma concurrent_lookups_exit_witness : ∃ ths, steps (csys_step id (λ _, false) (λ _, false) (λ _, true)) (meet 5%nat small_cache) (mk_csys None ths).
Proof.
  apply (concurrent_lookups_exit id (λ _, false) (λ _, false) (λ _, true) small_cache 5%nat 5%nat).
  - apply wf_new.
  - reflexivity.
  - reflexivity.
  - reflexivity.
  - reflexivity.
  - reflexivity.
Defined.

(** The object 5 taken for a record with inode number 0. *)
Lemma ignored_record_blocks_key_witness : ∃ s, steps (csys_step id (λ _, false) (Nat.eqb 5) (λ _, true)) (meet 5%nat small_cache) s ∧
  cs_threads s !! 0%nat = Some (CDone None) ∧ cs_threads s !! 1%nat = Some (CGet 5%nat) ∧
  ¬ ∃ s', csys_step id (λ _, false) (Nat.eqb 5) (λ _, true) s s'.
Proof.
  apply (ignored_record_blocks_key id (λ _, false) (Nat.eqb 5) (λ _, true) small_cache 5%nat 5%nat).
  - reflexivity.
  - reflexivity.
  - reflexivity.
  - reflexivity.
  - reflexivity.
Defined.
