(* ===== verification/Interleave.v ===== *)
(** * Namespace calls as atomic steps

    An operation of a client makes several calls on the namespace, and other
    clients make theirs in between. Here a call and its answer are data, and
    {!script} is a namespace that answers from a list: an operation of the other
    files, run over it, goes as far as its answers reach and then waits with the
    next call. So a client in the middle of an operation is the operation with the
    calls it has made so far, and what interleaves are the calls. *)
From S2P Require Import Prelude CppString Proto Kinetic.

(** The calls of the interface {!KineticNamespace}, and their answers. *)
Inductive call :=
| CGet (k : cstr)
| CGetVersion (k : cstr)
| CPut (k v : cstr) (mode : WriteMode) (r : KineticRecord)
| CDelete (k v : cstr) (mode : WriteMode)
| CGetKeyRange (a b : cstr) (n : Z)
| CSelfCheck.

Inductive answer :=
| AGet (st : StatusCode) (r : option KineticRecord)
| AGetVersion (st : StatusCode) (v : option cstr)
| AStatus (st : StatusCode)
| ARange (st : StatusCode) (ks : list cstr)
| ACheck (b : bool).

#[export] Instance WriteMode_eq_dec : EqDecision WriteMode.
Proof. solve_decision. Defined.
#[export] Instance call_eq_dec : EqDecision call.
Proof. solve_decision. Defined.

(** ** A namespace that answers from a list

    [waiting] is the first call that has no answer. Whatever the code does after
    it is of no account: the operation is run again when the answer is there. *)
Record script := mk_script { todo : list (call * answer); waiting : option call }.

Definition ask (c : call) (w : script) : option answer * script :=
  match waiting w, todo w with
  | Some _, _ => (None, w)
  | None, (c', a) :: l => if decide (c = c') then (Some a, mk_script l None) else (None, mk_script (todo w) (Some c))
  | None, [] => (None, mk_script [] (Some c))
  end.

Definition no_answer : StatusCode := OTHER_STATUS 0.

#[export] Instance script_namespace : KineticNamespace script := {|
  Get k w := let '(a, w) := ask (CGet k) w in (match a with Some (AGet st r) => (st, r) | _ => (no_answer, None) end, w);
  GetVersion k w :=
    let '(a, w) := ask (CGetVersion k) w in (match a with Some (AGetVersion st v) => (st, v) | _ => (no_answer, None) end, w);
  Put k v mode r w := let '(a, w) := ask (CPut k v mode r) w in (match a with Some (AStatus st) => st | _ => no_answer end, w);
  Delete k v mode w := let '(a, w) := ask (CDelete k v mode) w in (match a with Some (AStatus st) => st | _ => no_answer end, w);
  GetKeyRange a b n w :=
    let '(r, w) := ask (CGetKeyRange a b n) w in (match r with Some (ARange st ks) => (st, ks) | _ => (no_answer, []) end, w);
  selfCheck w := let '(a, w) := ask CSelfCheck w in (match a with Some (ACheck b) => b | _ => false end, w);
|}.

(** ** What the drives may answer

    The documented behaviour of {!KineticSpec}, as a relation between the content
    before and after one call. *)
Inductive serves (σ : store) : call → answer → store → Prop :=
| serves_get k st r :
    (st = OK → ∃ x, r = Some x ∧ σ !! k = Some x) → (st = REMOTE_NOT_FOUND → σ !! k = None) →
    serves σ (CGet k) (AGet st r) σ
| serves_get_version k st v :
    (st = OK → ∃ x, v = Some (kr_version x) ∧ σ !! k = Some x) → (st = REMOTE_NOT_FOUND → σ !! k = None) →
    serves σ (CGetVersion k) (AGetVersion st v) σ
| serves_put k v mode r st σ' :
    (st = OK → version_matches σ k v mode ∧ σ' = <[k := r]> σ) →
    (st = REMOTE_VERSION_MISMATCH → ¬ version_matches σ k v mode) →
    (σ' = σ ∨ st ≠ REMOTE_VERSION_MISMATCH ∧ st ≠ REMOTE_NOT_FOUND ∧ version_matches σ k v mode ∧ σ' = <[k := r]> σ) →
    serves σ (CPut k v mode r) (AStatus st) σ'
| serves_delete k v mode st σ' :
    (st = OK → version_matches σ k v mode ∧ σ' = delete k σ) →
    (st = REMOTE_VERSION_MISMATCH → ¬ version_matches σ k v mode) →
    (st = REMOTE_NOT_FOUND → σ !! k = None) →
    (σ' = σ ∨ st ≠ REMOTE_VERSION_MISMATCH ∧ st ≠ REMOTE_NOT_FOUND ∧ version_matches σ k v mode ∧ σ' = delete k σ) →
    serves σ (CDelete k v mode) (AStatus st) σ'
| serves_range a b n st ks : serves σ (CGetKeyRange a b n) (ARange st ks) σ
| serves_check b : serves σ CSelfCheck (ACheck b) σ.

(** The calls of a namespace that makes the promises of {!KineticSpec}. *)
Definition perform {W} `{!KineticNamespace W} (c : call) (w : W) : answer * W :=
  match c with
  | CGet k => let '(r, w) := Get k w in (AGet r.1 r.2, w)
  | CGetVersion k => let '(r, w) := GetVersion k w in (AGetVersion r.1 r.2, w)
  | CPut k v mode r => let '(st, w) := Put k v mode r w in (AStatus st, w)
  | CDelete k v mode => let '(st, w) := Delete k v mode w in (AStatus st, w)
  | CGetKeyRange a b n => let '(r, w) := GetKeyRange a b n w in (ARange r.1 r.2, w)
  | CSelfCheck => let '(b, w) := selfCheck w in (ACheck b, w)
  end.

Definition changes_content (c : call) : bool := match c with CPut _ _ _ _ | CDelete _ _ _ => true | _ => false end.

Lemma perform_serves {W} `{!KineticNamespace W} `{!KineticNamespaceSpec W} c (w : W) a w' :
  perform c w = (a, w') → changes_content c = true ∨ (∃ k, c = CGet k ∨ c = CGetVersion k) →
  serves (contents w) c a (contents w').
Proof.
  intros Hp Hc. destruct c as [k|k|k v mode r|k v mode|? ? ?|]; cbn in Hp.
  - destruct (Get k w) as [[st r] w1] eqn:E. injection Hp as <- <-. destruct (spec_Get _ _ _ _ _ E) as (-> & H1 & H2). by constructor.
  - destruct (GetVersion k w) as [[st r] w1] eqn:E. injection Hp as <- <-. destruct (spec_GetVersion _ _ _ _ _ E) as (-> & H1 & H2). by constructor.
  - destruct (Put k v mode r w) as [st w1] eqn:E. injection Hp as <- <-. destruct (spec_Put _ _ _ _ _ _ _ E) as (H1 & H2 & H3). by constructor.
  - destruct (Delete k v mode w) as [st w1] eqn:E. injection Hp as <- <-. destruct (spec_Delete _ _ _ _ _ _ E) as (H1 & H2 & H3 & H4). by constructor.
  - destruct Hc as [Hc|[? [Hc|Hc]]]; discriminate Hc.
  - destruct Hc as [Hc|[? [Hc|Hc]]]; discriminate Hc.
Qed.

(** ** Runs over a script *)

(** The state a call ends in, however it ends. *)
Definition end_of {S A} (o : outcome S A) : S :=
  match o with Ret _ s | Exit s | AssertFail s | Throw s | Undef s | Blocked s | NoFuel s => s end.

Lemma end_bind {S A B} (m : M S A) (f : A → M S B) s :
  end_of (mbind_ m f s) = match m s with Ret a s' => end_of (f a s') | o => end_of o end.
Proof. unfold mbind_. by destruct (m s). Qed.

Lemma ask_waiting c w : waiting w ≠ None → ask c w = (None, w).
Proof. unfold ask. by destruct (waiting w). Qed.
