(* ===== verification/Scripted.v ===== *)
(** * Operations over a script

    The laws that make {!Interleave.script} a faithful picture of an operation in
    progress. An operation that has all its answers does not look at later ones; one
    that waits does nothing more to the script; and when the call it waits with is
    answered, it takes the answer and goes on. *)
From S2P Require Import Prelude CppString Proto PathMapDB LRUCache DataInfo MetadataInfo Kinetic FsState KineticHelper Util Interleave.

Section Scripted.
Context `{!Env}.
Implicit Types (s : hflat_priv script) (x : list (call * answer)).

Definition extend x s : hflat_priv script := set_kinetic (mk_script (todo (kinetic s) ++ x) (waiting (kinetic s))) s.

Definition map_end {S A} (f : S → S) (o : outcome S A) : outcome S A :=
  match o with
  | Ret a s => Ret a (f s) | Exit s => Exit (f s) | AssertFail s => AssertFail (f s) | Throw s => Throw (f s)
  | Undef s => Undef (f s) | Blocked s => Blocked (f s) | NoFuel s => NoFuel (f s)
  end.

Lemma end_map {S A} (f : S → S) (o : outcome S A) : end_of (map_end f o) = f (end_of o).
Proof. by destruct o. Qed.

Record scripted {A} (m : M (hflat_priv script) A) : Prop := {
  sc_late s : waiting (kinetic s) ≠ None → kinetic (end_of (m s)) = kinetic s;
  sc_drained s : todo (kinetic s) = [] → todo (kinetic (end_of (m s))) = [];
  sc_extend s x : waiting (kinetic (end_of (m s))) = None → m (extend x s) = map_end (extend x) (m s);
  sc_prompt s c a : waiting (kinetic (end_of (m s))) = Some c → waiting (kinetic s) = None →
    todo (kinetic (end_of (m s))) = [] → todo (kinetic (end_of (m (extend [(c, a)] s)))) = [];
}.

(** An operation that waits at its end was not waiting before, or has not moved. *)
Lemma scripted_bind {A B} (m : M _ A) (f : A → M _ B) : scripted m → (∀ a, scripted (f a)) → scripted (mbind_ m f).
Proof.
  intros Hm Hf. split.
  - intros s Hw. rewrite end_bind. pose proof (sc_late m Hm s Hw) as Hk.
    destruct (m s) as [a s1| | | | | |]; cbn in Hk |- *; try done. rewrite (sc_late _ (Hf a)); by rewrite Hk.
  - intros s Ht. rewrite end_bind. pose proof (sc_drained m Hm s Ht) as Hk.
    destruct (m s) as [a s1| | | | | |]; cbn in Hk |- *; try done. by apply (sc_drained _ (Hf a)).
  - intros s x. rewrite end_bind. intros Hw. pose proof (sc_extend m Hm s x) as Hk. unfold mbind_.
    destruct (m s) as [a s1| | | | | |]; cbn in Hw, Hk |- *; try (by rewrite (Hk Hw)).
    destruct (waiting (kinetic s1)) eqn:Hw1.
    + rewrite (sc_late _ (Hf a)) in Hw by congruence. congruence.
    + rewrite Hk by done. by rewrite (sc_extend _ (Hf a) _ x Hw).
  - intros s c a. rewrite !end_bind. intros Hw Hs Ht.
    pose proof (sc_prompt m Hm s c a) as Hp. pose proof (sc_extend m Hm s [(c, a)]) as Hk.
    assert (Hlast : todo (kinetic (end_of (m (extend [(c, a)] s)))) = [] →
      todo (kinetic (end_of (mbind_ m f (extend [(c, a)] s)))) = []).
    { intros Hd. rewrite end_bind. destruct (m (extend [(c, a)] s)) as [y s2| | | | | |]; try done. by apply (sc_drained _ (Hf y)). }
    rewrite end_bind in Hlast.
    destruct (m s) as [y s1| | | | | |]; cbn in Hw, Ht, Hp, Hk; try (apply Hlast; by apply Hp).
    destruct (waiting (kinetic s1)) as [c'|] eqn:Hw1.
    + rewrite (sc_late _ (Hf y)) in Hw, Ht by congruence. apply Hlast, Hp; [congruence|done|done].
    + rewrite Hk by done. cbn. by apply (sc_prompt _ (Hf y)).
Qed.

(** Code that does not look at the namespace. *)
Definition offline {A} (m : M (hflat_priv script) A) : Prop := ∀ s w, m (set_kinetic w s) = map_end (set_kinetic w) (m s).

Lemma offline_end {A} (m : M _ A) s : offline m → kinetic (end_of (m s)) = kinetic s.
Proof. intros Hm. pose proof (Hm s (kinetic s)) as E. replace (set_kinetic (kinetic s) s) with s in E by (by destruct s). rewrite E, end_map. done. Qed.

Lemma scripted_offline {A} (m : M _ A) : offline m → scripted m.
Proof.
  intros Hm. pose proof (λ s, offline_end m s Hm) as Hk. split.
  - intros s _. apply Hk.
  - intros s Ht. by rewrite Hk.
  - intros s x _. unfold extend. rewrite Hm. pose proof (Hk s) as E. by destruct (m s); cbn in E |- *; rewrite ?E.
  - intros s c a. rewrite Hk. congruence.
Qed.

Lemma scripted_ret {A} (a : A) : scripted (mret_ a).
Proof. by apply scripted_offline. Qed.
Lemma scripted_assert b : scripted (assert_ b).
Proof. apply scripted_offline. intros s w. unfold assert_. by destruct b. Qed.
Lemma scripted_undef {A} : scripted (undef_ (A := A)).
Proof. by apply scripted_offline. Qed.
Lemma scripted_nofuel {A} : scripted (nofuel_ (A := A)).
Proof. by apply scripted_offline. Qed.
Lemma scripted_on_pmap {A} (op : M PathMapDB A) : scripted (on_pmap op).
Proof. apply scripted_offline. intros s w. unfold on_pmap, zoom. cbn. by destruct (op (pmap_ s)). Qed.

(** [get_] hands out the whole state; the code uses of it what is not the
    namespace. *)
Lemma scripted_get {B} (f : hflat_priv script → M _ B) :
  (∀ s w, f (set_kinetic w s) = f s) → (∀ s, scripted (f s)) → scripted (mbind_ get_ f).
Proof.
  intros Hf Hs. assert (E : ∀ s, mbind_ get_ f s = f s s) by done. split; intros s; rewrite ?E.
  - apply (sc_late _ (Hs s)).
  - apply (sc_drained _ (Hs s)).
  - intros x Hw. rewrite E. unfold extend at 1. rewrite Hf. by apply (sc_extend _ (Hs s)).
  - intros c a Hw H1 H2. rewrite E. unfold extend at 1. rewrite Hf. by apply (sc_prompt _ (Hs s)).
Qed.

(** A call. *)
Definition call_with {A} (c : call) (g : option answer → A) : M (hflat_priv script) A := λ s,
  let '(a, w) := ask c (kinetic s) in Ret (g a) (set_kinetic w s).

Lemma scripted_call {A} c (g : option answer → A) : scripted (call_with c g).
Proof.
  assert (Hq : ∀ s, call_with c g s = Ret (g (ask c (kinetic s)).1) (set_kinetic (ask c (kinetic s)).2 s)).
  { intros s. unfold call_with. by destruct (ask c (kinetic s)). }
  split; intros s; rewrite Hq; cbn.
  - intros Hw. by rewrite ask_waiting.
  - unfold ask. destruct (kinetic s) as [t []]; cbn; intros ->; done.
  - intros x. rewrite Hq. unfold extend. cbn. destruct (kinetic s) as [t []]; unfold ask; cbn; [done|].
    destruct t as [|[c' a] t]; cbn; [done|]. case_decide; done.
  - intros c0 a. rewrite Hq. unfold extend; cbn. destruct (kinetic s) as [t w0]; cbn. intros Hw -> Ht. revert Hw Ht. unfold ask; cbn.
    destruct t as [|[c' a'] t]; cbn.
    + intros [= ->] _. by rewrite decide_True.
    + case_decide; cbn; done.
Qed.

Lemma scripted_ext {A} (m m' : M _ A) : (∀ s, m s = m' s) → scripted m' → scripted m.
Proof.
  intros E Hm. split; intros s *; rewrite !E; [apply (sc_late _ Hm)|apply (sc_drained _ Hm)|apply (sc_extend _ Hm)|apply (sc_prompt _ Hm)].
Qed.

Lemma k_Get_call k s : k_Get k s =
  call_with (CGet k) (λ a, match a with Some (AGet st r) => (st, r) | _ => (no_answer, None) end) s.
Proof. unfold k_Get, call_with. cbn. by destruct (ask (CGet k) (kinetic s)). Qed.
Lemma k_GetVersion_call k s : k_GetVersion k s =
  call_with (CGetVersion k) (λ a, match a with Some (AGetVersion st v) => (st, v) | _ => (no_answer, None) end) s.
Proof. unfold k_GetVersion, call_with. cbn. by destruct (ask (CGetVersion k) (kinetic s)). Qed.
Lemma k_Put_call k v mode r s : k_Put k v mode r s =
  call_with (CPut k v mode r) (λ a, match a with Some (AStatus st) => st | _ => no_answer end) s.
Proof. unfold k_Put, call_with. cbn. by destruct (ask (CPut k v mode r) (kinetic s)). Qed.

Lemma scripted_k_Get k : scripted (k_Get k).
Proof. eapply scripted_ext; [apply k_Get_call|apply scripted_call]. Qed.
Lemma scripted_k_GetVersion k : scripted (k_GetVersion k).
Proof. eapply scripted_ext; [apply k_GetVersion_call|apply scripted_call]. Qed.
Lemma scripted_k_Put k v mode r : scripted (k_Put k v mode r).
Proof. eapply scripted_ext; [apply k_Put_call|apply scripted_call]. Qed.
End Scripted.

Create HintDb scripted discriminated.
#[export] Hint Resolve scripted_ret scripted_assert scripted_undef scripted_nofuel scripted_on_pmap scripted_k_Get scripted_k_GetVersion scripted_k_Put : scripted.

(** Follow the code. *)
Ltac scripted :=
  repeat (cbv beta zeta; first
    [ progress intros
    | solve [auto with scripted]
    | match goal with
      | |- scripted (mbind_ get_ _) => apply scripted_get; [reflexivity|]
      | |- scripted (mbind_ _ _) => apply scripted_bind
      | |- scripted (if ?b then _ else _) => destruct b
      | |- scripted (match ?x with _ => _ end) => destruct x
      end ]).

(** ** The database protocol *)
Section Operations.
Context `{!Env}.

Lemma scripted_put_db_entry v e : scripted (put_db_entry v e).
Proof. unfold put_db_entry. scripted. Qed.
Lemma scripted_get_db_entry v : scripted (get_db_entry v).
Proof. unfold get_db_entry. scripted. Qed.
Lemma scripted_get_db_version : scripted get_db_version.
Proof. unfold get_db_version. scripted. Qed.
Lemma scripted_put_db_snapshot snap : scripted (put_db_snapshot snap).
Proof. unfold put_db_snapshot. scripted. Qed.
Lemma scripted_get_db_snapshot : scripted get_db_snapshot.
Proof. unfold get_db_snapshot. scripted. Qed.
#[local] Hint Resolve scripted_put_db_entry scripted_get_db_entry scripted_get_db_version scripted_put_db_snapshot scripted_get_db_snapshot : scripted.

Lemma scripted_get_db_entries n v acc : scripted (get_db_entries n v acc).
Proof. revert v acc. induction n as [|n IH]; intros v acc; cbn [get_db_entries]; scripted. Qed.
#[local] Hint Resolve scripted_get_db_entries : scripted.

Lemma scripted_update_to from to : scripted (update_to from to).
Proof. unfold update_to. scripted. Qed.
#[local] Hint Resolve scripted_update_to : scripted.

Lemma scripted_database_update : scripted database_update.
Proof. unfold database_update. scripted. Qed.
#[local] Hint Resolve scripted_database_update : scripted.

Lemma scripted_database_operation fuel e : scripted (database_operation fuel e).
Proof. induction fuel as [|f IH]; cbn [database_operation]; scripted. Qed.
End Operations.
#[export] Hint Resolve scripted_put_db_entry scripted_get_db_entry scripted_get_db_version scripted_put_db_snapshot scripted_get_db_snapshot
  scripted_get_db_entries scripted_update_to scripted_database_update scripted_database_operation : scripted.
