(* ===== verification/DatabaseSync.v ===== *)
(** * The database protocol between calls

    {!DatabaseFacts} lets the operations of the clients follow each other. Here
    they overlap: any number of clients run [util::database_operation] and
    [util::database_update] (src/util.cc) over one set of drives, and what
    interleaves are their calls on the namespace. Calls may fail, with or without
    having taken effect; clients may stop anywhere. *)
From S2P Require Import Prelude CppString Proto PathMapDB LRUCache DataInfo MetadataInfo Kinetic FsState KineticHelper Util Interleave.

Section DatabaseSync.
Context `{!Env} `{!MessageSpec db_entry}.

(** What a client is doing with the database; the fuel bounds its retries. *)
Inductive db_job := Append (fuel : nat) (e : db_entry) | Update.

Definition run_job (j : db_job) : M (hflat_priv script) Z :=
  match j with Append fuel e => database_operation fuel e | Update => database_update end.

(** An entry the serialiser can represent. *)
Definition job_wf (j : db_job) : Prop := match j with Append _ e => msg_wf e | Update => True end.

(** A client: its state when the job began, and the calls it has made since. *)
Record db_client := mk_db_client {
  cl_state : hflat_priv script;
  cl_job : option db_job;
  cl_calls : list (call * answer);
}.

(** The job as far as its answers reach. *)
Definition resume (j : db_job) (s : hflat_priv script) (cs : list (call * answer)) : outcome (hflat_priv script) Z :=
  run_job j (set_kinetic (mk_script cs None) s).

(** The call a run waits with. *)
Definition waits_with {A} (o : outcome (hflat_priv script) A) : option call := waiting (kinetic (end_of o)).

(** The keys of the database. *)
Definition is_db_key (k : cstr) : Prop := k = db_version_key ∨ k = snapshot_key ∨ ∃ v, k = db_key v.

(** [int64_t]: an entry with the largest version is never written. *)
Definition room (σ : store) : Prop := σ !! db_key 9223372036854775807 = None.

#[export] Instance room_dec σ : Decision (room σ).
Proof. unfold room. apply _. Defined.

Record dsys := mk_dsys { ds_store : store; ds_all : gmap nat db_client }.

Definition crashes {A} (o : outcome (hflat_priv script) A) : bool :=
  match o with Ret _ _ | NoFuel _ => false | _ => true end.

Inductive dstep : dsys → dsys → Prop :=
(* a client mounts: [hflat_priv] has an empty path map *)
| d_mount σ cs i s : cs !! i = None → pmap_ s = PathMapDB_new →
    dstep (mk_dsys σ cs) (mk_dsys σ (<[i := mk_db_client s None []]> cs))
| d_start σ cs i s j : cs !! i = Some (mk_db_client s None []) → job_wf j →
    dstep (mk_dsys σ cs) (mk_dsys σ (<[i := mk_db_client s (Some j) []]> cs))
(* the next call of a job *)
| d_call σ cs i s j l c a σ' : cs !! i = Some (mk_db_client s (Some j) l) →
    waits_with (resume j s l) = Some c → serves σ c a σ' → room σ' →
    dstep (mk_dsys σ cs) (mk_dsys σ' (<[i := mk_db_client s (Some j) (l ++ [(c, a)])]> cs))
| d_return σ cs i s j l err s' : cs !! i = Some (mk_db_client s (Some j) l) →
    resume j s l = Ret err s' → waiting (kinetic s') = None →
    dstep (mk_dsys σ cs) (mk_dsys σ (<[i := mk_db_client s' None []]> cs))
(* a failed assertion: the process ends *)
| d_crash σ cs i s j l : cs !! i = Some (mk_db_client s (Some j) l) →
    waits_with (resume j s l) = None → crashes (resume j s l) = true →
    dstep (mk_dsys σ cs) (mk_dsys σ (delete i cs))
(* everything else the file system does: it leaves the database alone *)
| d_elsewhere σ cs σ' : (∀ k, is_db_key k → σ' !! k = σ !! k) → dstep (mk_dsys σ cs) (mk_dsys σ' cs)
| d_locally σ cs i s s' : cs !! i = Some (mk_db_client s None []) → pmap_ s' = pmap_ s →
    dstep (mk_dsys σ cs) (mk_dsys σ (<[i := mk_db_client s' None []]> cs)).

(** The log on the drives: entries [1 .. n], and none beyond. *)
Definition db_log (σ : store) (log : list db_entry) : Prop :=
  (∀ i e, log !! i = Some e → ∃ r, σ !! db_key (Z.of_nat i + 1) = Some r ∧
     ParseFromString (kr_value r) = Some e ∧ kr_version r = to_string (Z.of_nat i + 1)) ∧
  (∀ v, Z.of_nat (length log) < v → σ !! db_key v = None).

(** Drives nobody has stored a database on. *)
Definition no_database (σ : store) : Prop := ∀ k, is_db_key k → σ !! k = None.

(** ** Running a schedule on drives that do not fail *)
Inductive action := Do (j : db_job) | Next | Finish.

Definition act (sys : dsys) (x : nat * action) : option dsys :=
  let '(i, x) := x in
  let 'mk_dsys σ cs := sys in
  c ← cs !! i;
  match x, c with
  | Do j, mk_db_client s None [] => Some (mk_dsys σ (<[i := mk_db_client s (Some j) []]> cs))
  | Next, mk_db_client s (Some j) l =>
    c ← waits_with (resume j s l);
    let '(a, σ') := perform (W := store) c σ in
    if decide (room σ') then Some (mk_dsys σ' (<[i := mk_db_client s (Some j) (l ++ [(c, a)])]> cs)) else None
  | Finish, mk_db_client s (Some j) l =>
    match resume j s l with
    | Ret err s' => match waiting (kinetic s') with
                    | None => Some (mk_dsys σ (<[i := mk_db_client s' None []]> cs))
                    | Some _ => None
                    end
    | _ => None
    end
  | _, _ => None
  end.

Fixpoint run_actions (xs : list (nat * action)) (sys : dsys) : option dsys :=
  match xs with [] => Some sys | x :: xs => sys ← act sys x; run_actions xs sys end.
End DatabaseSync.
