(* ===== verification/DatabaseLogic.v ===== *)
(** * A logic for one client of the database

    What a client of {!DatabaseSync} does between two of its calls, whatever the
    others do meanwhile: it asks only for what fits the protocol, what it is told
    stays true because the log only grows, and its path map stays a replay of a
    prefix of the log. *)
From S2P Require Import Prelude CppString Proto PathMapDB PathMapLog LRUCache DataInfo MetadataInfo Kinetic FsState KineticHelper Util HelperFacts DatabaseFacts Interleave Scripted DatabaseSync.

(** ** A Hoare logic for one client

    The log only grows, so what an answer says about it stays true. *)
Section Logic.
Context `{!Env} `{!MessageSpec db_entry} `{!MessageSpec db_snapshot}.
Implicit Types (log : list db_entry) (db : PathMapDB) (s : hflat_priv script) (e : db_entry).

(** [v] is the version of an entry of the log. *)
Definition in_log log (v : Z) (e : db_entry) : Prop := 1 <= v ∧ log !! Z.to_nat (v - 1) = Some e.

(** What the calls of a client say: its writes to the database are entries after
    the one it has applied last, versions of entries, and snapshots of a map. *)
Definition fits log (c : call) : Prop :=
  match c with
  | CPut k v mode r =>
    (∀ n, k = db_key n → v = [] ∧ mode = REQUIRE_SAME_VERSION ∧ kr_version r = to_string n ∧
       1 <= n <= Z.of_nat (length log) + 1 ∧ is_Some (ParseFromString (A := db_entry) (kr_value r))) ∧
    (k = db_version_key → ∃ n, kr_version r = to_string n ∧ 1 <= n <= Z.of_nat (length log)) ∧
    (k = snapshot_key → ∃ db, kr_value r = SerializeAsString (serializeSnapshot env_iter db) ∧ consistent log db)
  | CDelete k _ _ => ¬ is_db_key k
  | _ => True
  end.

Definition answered log (ca : call * answer) : Prop :=
  match ca with
  | (CGet k, AGet st r) => st = OK → ∃ x, r = Some x ∧
      (∀ n, 1 <= n → k = db_key n → ∃ e, in_log log n e ∧ ParseFromString (kr_value x) = Some e) ∧
      (k = snapshot_key → ∃ db, kr_value x = SerializeAsString (serializeSnapshot env_iter db) ∧ consistent log db)
  | (CGetVersion k, AGetVersion st v) => st = OK → k = db_version_key →
      ∃ n, v = Some (to_string n) ∧ 1 <= n <= Z.of_nat (length log)
  | (CPut k v mode r, AStatus st) => st = OK → ∀ n, k = db_key n →
      ∃ e, in_log log n e ∧ ParseFromString (kr_value r) = Some e
  | _ => True
  end.

Lemma in_log_grow log log' v e : log `prefix_of` log' → in_log log v e → in_log log' v e.
Proof. intros Hp [Hv He]. split; [done|]. by eapply prefix_lookup_Some. Qed.

Lemma consistent_prefix log log' db : log `prefix_of` log' → consistent log db → consistent log' db.
Proof. intros [l ->]. apply consistent_grow. Qed.

Lemma fits_grow log log' c : log `prefix_of` log' → fits log c → fits log' c.
Proof.
  intros Hp. pose proof (prefix_length _ _ Hp). destruct c; cbn; try done. intros (H1 & H2 & H3). split_and!.
  - intros n Hn. destruct (H1 n Hn) as (? & ? & ? & ? & ?). split_and!; try done; lia.
  - intros Hk. destruct (H2 Hk) as (n & ? & ?). exists n. split; [done|lia].
  - intros Hk. destruct (H3 Hk) as (db & ? & ?). exists db. split; [done|by eapply consistent_prefix].
Qed.

Lemma answered_grow log log' ca : log `prefix_of` log' → answered log ca → answered log' ca.
Proof.
  intros Hp. pose proof (prefix_length _ _ Hp). destruct ca as [[] []]; cbn; try done.
  - intros H1 Hst. destruct (H1 Hst) as (x & -> & Hl & Hs). exists x. split; [done|]. split.
    + intros n Hn Hk. destruct (Hl n Hn Hk) as (e & ? & ?). exists e. split; [by eapply in_log_grow|done].
    + intros Hk. destruct (Hs Hk) as (db & ? & ?). exists db. split; [done|by eapply consistent_prefix].
  - intros H1 Hst Hk. destruct (H1 Hst Hk) as (n & ? & ?). exists n. split; [done|lia].
  - intros H1 Hst n Hk. destruct (H1 Hst n Hk) as (e & ? & ?). exists e. split; [by eapply in_log_grow|done].
Qed.

(** The script holds true answers; a waiting run waits with a fitting call. *)
Definition script_ok log s : Prop :=
  Forall (answered log) (todo (kinetic s)) ∧ ∀ c, waiting (kinetic s) = Some c → fits log c.

(** [m] makes fitting calls only, and returns with [Q] if it returns. *)
Definition safe {A} log db (m : M (hflat_priv script) A) (Q : A → PathMapDB → Prop) : Prop := ∀ s,
  script_ok log s → (waiting (kinetic s) = None → pmap_ s = db) →
  script_ok log (end_of (m s)) ∧ ∀ a s', m s = Ret a s' → waiting (kinetic s') = None → Q a (pmap_ s').

Lemma safe_ret {A} log db (a : A) (Q : A → PathMapDB → Prop) : Q a db → safe log db (mret_ a) Q.
Proof. intros HQ s Hs Hp. split; [done|]. intros a' s' [= <- <-] Hw. by rewrite Hp. Qed.

Lemma safe_mono {A} log db (m : M _ A) (Q R : A → PathMapDB → Prop) :
  safe log db m Q → (∀ a db', Q a db' → R a db') → safe log db m R.
Proof. intros Hm HR s Hs Hp. destruct (Hm s Hs Hp) as [He HQ]. split; [done|]. intros a s' E Hw. by apply HR, HQ. Qed.

Lemma safe_bind {A B} log db (m : M _ A) (f : A → M _ B) Q R :
  scripted m → (∀ a, scripted (f a)) →
  safe log db m Q → (∀ a db', Q a db' → safe log db' (f a) R) → safe log db (mbind_ m f) R.
Proof.
  intros _ Hsc Hm Hf s Hs Hp. destruct (Hm s Hs Hp) as [He HQ]. rewrite end_bind. unfold mbind_.
  destruct (m s) as [a s1| | | | | |] eqn:E; try (split; [exact He|done]). cbn in He.
  destruct (waiting (kinetic s1)) eqn:Hw.
  - assert (Hk : kinetic (end_of (f a s1)) = kinetic s1) by (apply (sc_late _ (Hsc a)); congruence).
    split; [unfold script_ok; by rewrite Hk|]. intros b s' E' Hw'. rewrite E' in Hk. cbn in Hk. congruence.
  - apply (Hf a (pmap_ s1)); [by apply HQ|done|done].
Qed.

Lemma safe_get {B} log db (f : hflat_priv script → M _ B) R :
  (∀ s, pmap_ s = db → safe log db (f s) R) → (∀ s, scripted (f s)) → safe log db (mbind_ get_ f) R.
Proof.
  intros Hf Hsc s Hs Hp. change (mbind_ get_ f s) with (f s s). destruct (waiting (kinetic s)) eqn:Hw.
  - assert (Hk : kinetic (end_of (f s s)) = kinetic s) by (apply (sc_late _ (Hsc s)); congruence).
    split; [unfold script_ok; by rewrite Hk|]. intros b s' E' Hw'. rewrite E' in Hk. cbn in Hk. congruence.
  - apply (Hf s); [by apply Hp|done|intros _; by apply Hp].
Qed.

(** Code that ends without a result. *)
Lemma safe_stop {A} log db (m : M (hflat_priv script) A) Q :
  (∀ s, ∃ o, m s = o ∧ end_of o = s ∧ ∀ a s', o ≠ Ret a s') → safe log db m Q.
Proof. intros Hm s Hs _. destruct (Hm s) as (o & -> & -> & Ho). split; [done|]. intros a s' E. by destruct (Ho a s'). Qed.

Lemma safe_undef {A} log db (Q : A → _) : safe log db undef_ Q.
Proof. apply safe_stop. intros s. exists (Undef s). split_and!; [done|done|congruence]. Qed.
Lemma safe_nofuel {A} log db (Q : A → _) : safe log db nofuel_ Q.
Proof. apply safe_stop. intros s. exists (NoFuel s). split_and!; [done|done|congruence]. Qed.

Lemma safe_assert log db (b : bool) (Q : unit → PathMapDB → Prop) : (b = true → Q tt db) → safe log db (assert_ b) Q.
Proof. intros HQ s Hs Hp. unfold assert_. destruct b; cbn; (split; [done|]); [|done]. intros a s' [= <- <-] Hw. rewrite Hp by done. by apply HQ. Qed.

Lemma safe_on_pmap {A} log db (op : M PathMapDB A) (Q : A → PathMapDB → Prop) :
  (∀ a db', op db = Ret a db' → Q a db') → safe log db (on_pmap op) Q.
Proof.
  intros HQ s Hs Hp. unfold on_pmap, zoom. split; [by destruct (op (pmap_ s))|].
  intros a s' E Hw. destruct (op (pmap_ s)) as [a0 db'| | | | | |] eqn:Eop; try done. injection E as <- <-. cbn in *.
  apply HQ. rewrite <- Hp; done.
Qed.

(** A call asks for nothing that does not fit, and hands out a true answer. *)
Lemma safe_call {A} log db c (g : option answer → A) Q :
  fits log c → (∀ a, answered log (c, a) → Q (g (Some a)) db) → safe log db (call_with c g) Q.
Proof.
  intros Hfit HQ s [Hs Hw] Hp. unfold call_with. destruct (waiting (kinetic s)) as [c'|] eqn:E.
  - rewrite ask_waiting by congruence. cbn. split; [split; [done|cbn; by rewrite E]|]. intros a s' [= <- <-]. cbn. congruence.
  - unfold ask. rewrite E. destruct (todo (kinetic s)) as [|[c' a] t] eqn:Et; cbn.
    + split; [split; cbn; [constructor|]; by intros ? [= <-]|]. by intros a s' [= <- <-].
    + apply Forall_cons in Hs as [Ha Hs]. case_decide as Hc; cbn.
      * subst c'. split; [by split|]. intros a' s' [= <- <-] _. cbn. rewrite Hp by done. by apply HQ.
      * split; [split; cbn; [by constructor|]; by intros ? [= <-]|]. by intros a' s' [= <- <-].
Qed.

Lemma safe_ext {A} log db (m m' : M _ A) Q : (∀ s, m s = m' s) → safe log db m' Q → safe log db m Q.
Proof. intros E Hm s Hs Hp. rewrite E. apply Hm; [done|done]. Qed.

Lemma safe_k_Get log db k Q : (∀ st r, answered log (CGet k, AGet st r) → Q (st, r) db) → safe log db (k_Get k) Q.
Proof. intros HQ. eapply safe_ext; [apply k_Get_call|]. apply safe_call; [done|]. intros [] Ha; apply HQ; done. Qed.
Lemma safe_k_GetVersion log db k Q :
  (∀ st v, answered log (CGetVersion k, AGetVersion st v) → Q (st, v) db) → safe log db (k_GetVersion k) Q.
Proof. intros HQ. eapply safe_ext; [apply k_GetVersion_call|]. apply safe_call; [done|]. intros [] Ha; apply HQ; done. Qed.
Lemma safe_k_Put log db k v mode r Q : fits log (CPut k v mode r) →
  (∀ st, answered log (CPut k v mode r, AStatus st) → Q st db) → safe log db (k_Put k v mode r) Q.
Proof. intros Hf HQ. eapply safe_ext; [apply k_Put_call|]. apply safe_call; [done|]. intros [] Ha; apply HQ; done. Qed.

(** ** The operations *)
Context (snapshot_wf : ∀ log db, consistent log db → Z.of_nat (length log) < 9223372036854775807 →
  msg_wf (serializeSnapshot env_iter db)).
Context (iter_perm : ∀ m, env_iter m ≡ₚ map_to_list m).

Lemma in_log_length log v e : in_log log v e → 1 <= v <= Z.of_nat (length log).
Proof. intros [Hv He%lookup_lt_Some]. lia. Qed.

Lemma fits_entry log db e : consistent log db → msg_wf e →
  fits log (CPut (db_key (snapshotVersion db + 1)) [] REQUIRE_SAME_VERSION
    (mk_KineticRecord (SerializeAsString e) (to_string (snapshotVersion db + 1)))).
Proof.
  intros (n & Hn & Hv & _)%consistent_version Hwf. cbn. split_and!.
  - intros m <-%(inj db_key). split_and!; try done; [lia|lia|]. cbn [kr_value]. by rewrite (parse_serialize e).
  - by intros ?%db_key_version.
  - by intros ?%db_key_snapshot.
Qed.

Lemma fits_version log v : 1 <= v <= Z.of_nat (length log) →
  fits log (CPut db_version_key [] IGNORE_VERSION (mk_KineticRecord [] (to_string v))).
Proof.
  intros Hv. cbn. split_and!.
  - intros m Hk. by destruct (db_key_version m).
  - intros _. by exists v.
  - by intros ?%version_snapshot.
Qed.

Lemma fits_snapshot log db : consistent log db →
  fits log (CPut snapshot_key [] IGNORE_VERSION (mk_KineticRecord (SerializeAsString (serializeSnapshot env_iter db)) [])).
Proof.
  intros Hc. cbn. split_and!.
  - intros m Hk. by destruct (db_key_snapshot m).
  - intros Hk. by destruct version_snapshot.
  - intros _. by exists db.
Qed.

Lemma safe_put_db_entry log db e : consistent log db → msg_wf e →
  safe log db (put_db_entry (snapshotVersion db + 1) e) (λ r db', db' = db ∧ (r = 0 → in_log log (snapshotVersion db + 1) e)).
Proof.
  intros Hc Hwf. unfold put_db_entry.
  eapply (safe_bind _ _ _ _ (λ st db', db' = db ∧ (st = OK → in_log log (snapshotVersion db + 1) e))); [scripted|scripted| |].
  - apply safe_k_Put; [by apply fits_entry|]. intros st Ha. split; [done|]. intros Hst.
    destruct (Ha Hst _ eq_refl) as (e' & He & Hp). cbn in Hp. rewrite (parse_serialize e) in Hp by done. by simplify_eq.
  - intros st db' [-> Hst]. case_bool_decide; [by apply safe_ret|]. destruct (is_ok st) eqn:Hok; cbn [negb]; [|by apply safe_ret].
    assert (st = OK) as Hst' by (by destruct st). specialize (Hst Hst').
    eapply (safe_bind _ _ _ _ (λ _ db', db' = db)); [scripted|scripted| |].
    + apply safe_k_Put; [apply fits_version; by eapply in_log_length|done].
    + intros _ db' ->. by apply safe_ret.
Qed.

Lemma safe_get_db_entry log db v : 1 <= v →
  safe log db (get_db_entry v) (λ r db', db' = db ∧ match r.2 with Some e => r.1 = 0 ∧ in_log log v e | None => r.1 ≠ 0 end).
Proof.
  intros Hv. unfold get_db_entry.
  eapply (safe_bind _ _ _ _ (λ r db', db' = db ∧ answered log (CGet (db_key v), AGet r.1 r.2))); [scripted|scripted| |].
  - by apply safe_k_Get.
  - intros [st r] db' [-> Ha]. cbn [fst snd] in Ha. case_bool_decide; [by apply safe_ret|].
    destruct (is_ok st) eqn:Hok; cbn [negb]; [|by apply safe_ret]. assert (st = OK) as Hst by (by destruct st).
    destruct (Ha Hst) as (x & -> & Hx & _). destruct (Hx v Hv eq_refl) as (e & He & Hp). rewrite Hp.
    by apply safe_ret.
Qed.

Lemma safe_get_db_version log db : Z.of_nat (length log) < 9223372036854775807 →
  safe log db get_db_version (λ r db', db' = db ∧ (r.1 = 0 → 0 <= r.2 <= Z.of_nat (length log))).
Proof.
  intros Hlen. unfold get_db_version.
  eapply (safe_bind _ _ _ _ (λ r db', db' = db ∧ answered log (CGetVersion db_version_key, AGetVersion r.1 r.2))); [scripted|scripted| |].
  - by apply safe_k_GetVersion.
  - intros [st r] db' [-> Ha]. cbn [fst snd] in Ha. case_bool_decide; [apply safe_ret; split; [done|cbn; lia]|].
    destruct (is_ok st) eqn:Hok; cbn [negb]; [|apply safe_ret; by split].
    assert (st = OK) as Hst by (by destruct st). destruct (Ha Hst eq_refl) as (n & -> & Hn). apply safe_ret. split; [done|].
    cbn. unfold to_int64_data, to_int64. rewrite c_str_to_string, stoll_to_string by (unfold is_int64; lia). intros _. cbn. lia.
Qed.

Lemma safe_get_db_snapshot log db : Z.of_nat (length log) < 9223372036854775807 →
  safe log db get_db_snapshot (λ r db', db' = db ∧ ∀ snap, r.2 = Some snap →
    ∃ db0, snap = serializeSnapshot env_iter db0 ∧ consistent log db0).
Proof.
  intros Hlen. unfold get_db_snapshot.
  eapply (safe_bind _ _ _ _ (λ r db', db' = db ∧ answered log (CGet snapshot_key, AGet r.1 r.2))); [scripted|scripted| |].
  - by apply safe_k_Get.
  - intros [st r] db' [-> Ha]. cbn [fst snd] in Ha. destruct (is_ok st) eqn:Hok; cbn [negb]; [|by apply safe_ret].
    assert (st = OK) as Hst by (by destruct st). destruct (Ha Hst) as (x & -> & _ & Hx). destruct (Hx eq_refl) as (db0 & Hs & Hc).
    rewrite Hs, (parse_serialize (serializeSnapshot env_iter db0)) by (by eapply snapshot_wf). apply safe_ret. split; [done|]. intros snap [= <-]. by exists db0.
Qed.

Lemma safe_get_db_entries log db n v acc : 1 <= v →
  safe log db (get_db_entries n v acc) (λ r db', db' = db ∧ (r.1 = 0 →
    ∃ es, r.2 = acc ++ es ∧ length es = n ∧ es = take n (drop (Z.to_nat (v - 1)) log))).
Proof.
  revert v acc. induction n as [|n IH]; intros v acc Hv; cbn [get_db_entries].
  - apply safe_ret. split; [done|]. intros _. exists []. by rewrite app_nil_r.
  - eapply safe_bind; [scripted|scripted|by apply safe_get_db_entry|]. intros [err [e|]] db' [-> He]; cbn [fst snd] in He.
    + destruct He as [-> [_ Hl]]. cbn [Z.eqb negb]. eapply safe_mono; [by apply IH; lia|].
      intros r db' [-> Hr]. split; [done|]. intros H0. destruct (Hr H0) as (es & -> & Hlen & ->). exists (e :: take n (drop (Z.to_nat (v + 1 - 1)) log)).
      rewrite <- app_assoc. split; [done|]. split; [cbn; congruence|].
      rewrite (drop_S _ _ _ Hl). cbn. by replace (Z.to_nat (v + 1 - 1)) with (S (Z.to_nat (v - 1))) by lia.
    + apply safe_ret. split; [done|]. by intros ?.
Qed.

(** [updateSnapshot] keeps the map a replay of a prefix, whatever it returns. *)
Lemma replay_false es db db' : replay es db = Ret false db' → db' = PathMapDB_new.
Proof.
  revert db. induction es as [|e es IH]; intros db; cbn [replay]; [done|].
  intros (ok & db1 & He & Hr)%mbind_Ret_inv. destruct ok; [by eapply IH|]. injection Hr as <-.
  unfold apply_entry in He. destruct (de_type e); try (by apply mbind_Ret_inv in He as (? & ? & ? & ?)).
  by injection He as <-.
Qed.

Lemma consistent_update log db to err db' :
  to <= Z.of_nat (length log) → consistent log db →
  updateSnapshot (take (Z.to_nat (to - snapshotVersion db)) (drop (Z.to_nat (snapshotVersion db)) log))
    (snapshotVersion db) to db = Ret err db' →
  consistent log db' ∧ (err = 0 → snapshotVersion db <= to → snapshotVersion db' = to).
Proof.
  intros Hto' (n & Hn & Hv & Hr)%consistent_version Hu. rewrite Hv, Nat2Z.id in *. unfold updateSnapshot in Hu.
  unfold mbind_ at 1, assert_ in Hu. destruct (_ =? _) eqn:Hlen in Hu; [|done].
  unfold mbind_ at 1, gets_ in Hu. rewrite Hv in Hu. unfold mbind_ at 1 in Hu. rewrite Z.leb_refl in Hu.
  destruct (Z.leb_spec to (Z.of_nat n)) as [Hto|Hto].
  { injection Hu as <- <-. split; [by exists n|]. lia. }
  apply mbind_Ret_inv in Hu as (ok & db1 & He & Hu). rewrite update_loop_replay in He by lia. destruct ok.
  - injection Hu as <- <-. cbn. split; [|done]. exists (Z.to_nat to). split; [lia|].
    replace (Z.to_nat to) with (n + Z.to_nat (to - Z.of_nat n))%nat by lia. rewrite <- take_take_drop.
    rewrite replay_app, (mbind_Ret _ _ _ _ _ Hr). rewrite He.
    pose proof (replay_version _ _ _ He) as Hv1. rewrite length_take, length_drop in Hv1. do 2 f_equal. destruct db1 as [v1 m1]; cbn in *. f_equal. lia.
  - injection Hu as <- <-. split; [|done]. apply replay_false in He as ->. apply consistent_new.
Qed.

Lemma load_consistent log db db0 err db' : consistent log db → consistent log db0 →
  loadSnapshot (serializeSnapshot env_iter db0) db = Ret err db' → consistent log db'.
Proof.
  intros Hc Hc0. destruct (Z.lt_ge_cases (snapshotVersion db) (snapshotVersion db0)) as [Hv|Hv].
  - rewrite loadSnapshot_serialize by done. by intros [= _ <-].
  - unfold loadSnapshot. cbn [serializeSnapshot snapshot_version].
    destruct (Z.leb_spec (snapshotVersion db0) (snapshotVersion db)); [|lia]. by intros [= _ <-].
Qed.

(** The part of [database_update] that reads a full snapshot. *)
Lemma safe_load log db dbVersion : Z.of_nat (length log) < 9223372036854775807 → consistent log db →
  safe log db
    (if 42 <? dbVersion - snapshotVersion db then
       let! r := get_db_snapshot in
       match r with
       | (err, Some snap) =>
         if err =? 0 then on_pmap (loadSnapshot snap) ;;; let! s := get_ in mret_ (getSnapshotVersion (pmap_ s))
         else mret_ (snapshotVersion db)
       | (_, None) => mret_ (snapshotVersion db)
       end
     else mret_ (snapshotVersion db))
    (λ v db', v = snapshotVersion db' ∧ consistent log db').
Proof.
  intros Hlen Hc. destruct (_ <? _); [|by apply safe_ret].
  eapply safe_bind; [scripted|scripted|by apply safe_get_db_snapshot|]. intros [err [snap|]] db' [-> Hs]; [|by apply safe_ret].
  destruct (err =? 0); [|by apply safe_ret]. destruct (Hs snap eq_refl) as (db0 & -> & Hc0).
  eapply (safe_bind _ _ _ _ (λ _ db', consistent log db')); [scripted|scripted| |].
  - apply safe_on_pmap. intros a db'. by apply load_consistent.
  - intros _ db1 Hc1. apply safe_get; [|scripted]. intros s <-. apply safe_ret. done.
Qed.

Lemma safe_update_to log db to : Z.of_nat (length log) < 9223372036854775807 → consistent log db → to <= Z.of_nat (length log) →
  safe log db (update_to (snapshotVersion db) to) (λ _ db', consistent log db').
Proof.
  intros Hlen Hc Hto. unfold update_to. eapply safe_bind; [scripted|scripted|by apply safe_load|]. intros v0 db1 [-> Hc1].
  eapply safe_bind; [scripted|scripted|apply safe_get_db_entries|].
  { apply consistent_version in Hc1 as (n & _ & -> & _). lia. }
  intros [err1 es] db2 [-> Hes]; cbn [fst snd] in Hes. destruct (err1 =? 0) eqn:He1; cbn [negb]; [|by apply safe_ret].
  apply Z.eqb_eq in He1. destruct (Hes He1) as (es' & -> & _ & ->). cbn [app]. apply safe_on_pmap. intros a db2 Hu.
  replace (snapshotVersion db1 + 1 - 1) with (snapshotVersion db1) in Hu by lia. by apply (consistent_update log db1 to a db2) in Hu as [? _].
Qed.

Lemma safe_database_update log db : Z.of_nat (length log) < 9223372036854775807 → consistent log db →
  safe log db database_update (λ _ db', consistent log db').
Proof.
  intros Hlen Hc. unfold database_update. apply safe_get; [|scripted]. intros s Hs. unfold getSnapshotVersion. rewrite Hs.
  eapply safe_bind; [scripted|scripted|by apply safe_get_db_version|]. intros [err v] db' [-> Hv]; cbn [fst snd] in Hv.
  destruct (err =? 0) eqn:Herr; cbn [negb]; [|by apply safe_ret]. apply Z.eqb_eq in Herr. specialize (Hv Herr).
  eapply (safe_bind _ _ _ _ (λ _ db', db' = db ∧ snapshotVersion db <= v)); [scripted|scripted|apply safe_assert; intros ?%Z.leb_le; done|].
  intros _ db' [-> Hle]. destruct (v =? snapshotVersion db) eqn:Hv0; [|apply safe_update_to; [done|done|lia]].
  eapply safe_bind; [scripted|scripted|apply safe_get_db_entry; lia|]. intros [err1 oe] db' [-> He]. cbn [fst snd] in *.
  destruct (err1 =? 0) eqn:He1; cbn [negb]; [|by apply safe_ret]. apply safe_update_to; [done|done|].
  destruct oe; [|apply Z.eqb_eq in He1; congruence]. destruct He as [_ [_ He%lookup_lt_Some]]. lia.
Qed.

(** An entry that has been applied, or that no path map accepts. *)
Definition applied log db e (v : Z) : Prop :=
  in_log log v e ∧ (snapshotVersion db = v ∨ ∃ n, de_type e = db_entry_Type_INVALID n).

Lemma update_one_result e from to db err db' : updateSnapshot [e] from to db = Ret err db' →
  err = 0 ∨ ∃ n, de_type e = db_entry_Type_INVALID n.
Proof.
  unfold updateSnapshot. intros (_ & db1 & _ & Hu)%mbind_Ret_inv. apply mbind_Ret_inv in Hu as (v & db2 & _ & Hu).
  apply mbind_Ret_inv in Hu as (_ & db3 & _ & Hu). destruct (to <=? v); [left; by injection Hu as <- _|].
  apply mbind_Ret_inv in Hu as (ok & db4 & He & Hu). destruct ok; [left; by injection Hu as <- _|]. cbn [update_loop] in He.
  destruct (v + 1 <? from); [by injection He|]. apply mbind_Ret_inv in He as (ok & db5 & He & Hr). destruct ok; [by injection Hr|].
  right. unfold apply_entry in He. destruct (de_type e); try (by apply mbind_Ret_inv in He as (? & ? & ? & ?)). eauto.
Qed.

Lemma apply_last log db e err db' : consistent log db → in_log log (snapshotVersion db + 1) e →
  updateSnapshot [e] (snapshotVersion db) (snapshotVersion db + 1) db = Ret err db' →
  consistent log db' ∧ applied log db' e (snapshotVersion db + 1).
Proof.
  intros Hc Hin Hu. pose proof Hc as (n & Hn & Hv & _)%consistent_version. pose proof (in_log_length _ _ _ Hin) as Hlen.
  destruct Hin as [H1 He]. replace (snapshotVersion db + 1 - 1) with (snapshotVersion db) in He by lia.
  assert (Hes : take (Z.to_nat (snapshotVersion db + 1 - snapshotVersion db)) (drop (Z.to_nat (snapshotVersion db)) log) = [e]).
  { rewrite (drop_S _ _ _ He). by replace (Z.to_nat (snapshotVersion db + 1 - snapshotVersion db)) with 1%nat by lia. }
  pose proof Hu as Hu'. rewrite <- Hes in Hu'. apply consistent_update in Hu' as [Hc' Hver]; [|lia|done]. split; [done|].
  split; [split; [lia|]; by replace (snapshotVersion db + 1 - 1) with (snapshotVersion db) by lia|].
  destruct (update_one_result _ _ _ _ _ _ Hu) as [->|Hinv]; [|by right]. left. apply Hver; lia.
Qed.

Lemma safe_put_db_snapshot log db : consistent log db →
  safe log db (put_db_snapshot (serializeSnapshot env_iter db)) (λ _ db', db' = db).
Proof.
  intros Hc. unfold put_db_snapshot. eapply (safe_bind _ _ _ _ (λ _ db', db' = db)); [scripted|scripted| |].
  - apply safe_k_Put; [by apply fits_snapshot|done].
  - intros st db' ->. by destruct (negb _); apply safe_ret.
Qed.

Lemma safe_database_operation fuel log db e : Z.of_nat (length log) < 9223372036854775807 → consistent log db → msg_wf e →
  safe log db (database_operation fuel e) (λ r db', consistent log db' ∧ (r = 0 → ∃ v, applied log db' e v)).
Proof.
  intros Hlen Hc Hwf. revert db Hc. induction fuel as [|f IH]; intros db Hc; cbn [database_operation]; [apply safe_nofuel|].
  apply safe_get; [|scripted]. intros s Hs. unfold getSnapshotVersion. rewrite Hs.
  eapply safe_bind; [scripted|scripted|by apply safe_put_db_entry|]. intros r db' [-> Hr].
  destruct (r =? 0) eqn:Hr0.
  - apply Z.eqb_eq in Hr0. specialize (Hr Hr0).
    eapply (safe_bind _ _ _ _ (λ _ db', consistent log db' ∧ applied log db' e (snapshotVersion db + 1))); [scripted|scripted| |].
    + apply safe_on_pmap. intros a db' Hu. by apply (apply_last log db e a).
    + intros _ db1 [Hc1 Ha]. eapply (safe_bind _ _ _ _ (λ _ db', db' = db1)); [scripted|scripted| |].
      * destruct (_ =? 0); [|by apply safe_ret]. apply safe_get; [|scripted]. intros s1 ->.
        eapply (safe_bind _ _ _ _ (λ _ db', db' = db1)); [scripted|scripted|by apply safe_put_db_snapshot|].
        intros _ db' ->. by apply safe_ret.
      * intros _ db' ->. apply safe_ret. by eauto.
  - destruct (r =? - EEXIST); cbn [negb]; [|apply safe_ret; split; [done|lia]].
    eapply safe_bind; [scripted|scripted|by apply safe_database_update|]. intros err db' Hc'.
    destruct (err =? 0) eqn:He; cbn [negb]; [by apply IH|apply safe_ret; split; [done|lia]].
Qed.

End Logic.

Section Writes.
Context `{!Env}.
Implicit Types (s : hflat_priv script) (e : db_entry).

(** ** How often an entry is written

    [m] uses a part of the script that [P] speaks of. *)
Definition uses {A} (m : M (hflat_priv script) A) (P : A → list (call * answer) → Prop) : Prop := ∀ s a s',
  m s = Ret a s' → waiting (kinetic s') = None → ∃ u, todo (kinetic s) = u ++ todo (kinetic s') ∧ P a u.

Lemma uses_bind {A B} (m : M _ A) (f : A → M _ B) P (Q : A → B → _ → Prop) R : (∀ a, scripted (f a)) →
  uses m P → (∀ a, uses (f a) (Q a)) → (∀ a u b u', P a u → Q a b u' → R b (u ++ u')) → uses (mbind_ m f) R.
Proof.
  intros Hsc Hm Hf HR s b s' (a & s1 & H1 & H2)%mbind_Ret_inv Hw.
  assert (Hw1 : waiting (kinetic s1) = None).
  { destruct (waiting (kinetic s1)) eqn:E; [|done]. pose proof (sc_late _ (Hsc a) s1) as Hk. rewrite H2 in Hk. cbn in Hk.
    rewrite Hk in Hw by congruence. congruence. }
  destruct (Hm _ _ _ H1 Hw1) as (u & -> & HP). destruct (Hf _ _ _ _ H2 Hw) as (u' & -> & HQ).
  exists (u ++ u'). rewrite <- app_assoc. split; [done|by eapply HR].
Qed.

Lemma uses_mono {A} (m : M _ A) (P Q : A → _ → Prop) : uses m P → (∀ a u, P a u → Q a u) → uses m Q.
Proof. intros Hm HPQ s a s' E Hw. destruct (Hm s a s' E Hw) as (u & ? & ?). eauto. Qed.

Lemma uses_offline {A} (m : M _ A) (P : A → _ → Prop) : offline m → (∀ s a s', m s = Ret a s' → P a []) → uses m P.
Proof.
  intros Hm HP s a s' E _. exists []. pose proof (offline_end m s Hm) as Hk. rewrite E in Hk. cbn in Hk. rewrite Hk. eauto.
Qed.

(** A successful write of an entry. *)
Definition accepted e (ca : call * answer) : bool :=
  match ca with
  | (CPut _ _ REQUIRE_SAME_VERSION r, AStatus OK) => bool_decide (kr_value r = SerializeAsString e)
  | _ => false
  end.
Definition times_written e (u : list (call * answer)) : nat := length (List.filter (accepted e) u).

Lemma times_written_app e u u' : times_written e (u ++ u') = (times_written e u + times_written e u')%nat.
Proof. unfold times_written. by rewrite List.filter_app, length_app. Qed.

Definition quiet {A} e (m : M (hflat_priv script) A) : Prop := uses m (λ _ u, times_written e u = 0%nat).

Lemma quiet_bind {A B} e (m : M _ A) (f : A → M _ B) :
  (∀ a, scripted (f a)) → quiet e m → (∀ a, quiet e (f a)) → quiet e (mbind_ m f).
Proof. intros Hsc Hm Hf. eapply uses_bind; [done|exact Hm|exact Hf|]. cbn. intros _ u _ u' H1 H2. rewrite times_written_app. lia. Qed.

Lemma quiet_offline {A} e (m : M _ A) : offline m → quiet e m.
Proof. intros Hm. by apply uses_offline. Qed.

Lemma quiet_get {B} e (f : hflat_priv script → M _ B) : (∀ s, quiet e (f s)) → quiet e (mbind_ get_ f).
Proof. intros Hf s. apply (Hf s). Qed.

Lemma uses_call {A} c (g : option answer → A) (P : A → _ → Prop) : (∀ a, P (g (Some a)) [(c, a)]) → uses (call_with c g) P.
Proof.
  intros HP s b s' E Hw. unfold call_with, ask in E. destruct (kinetic s) as [t w]; cbn in E |- *. destruct w; [by simplify_eq/=|].
  destruct t as [|[c' a] t]; [by simplify_eq/=|]. case_decide; simplify_eq/=. by exists [(c', a)].
Qed.

Lemma uses_ext {A} (m m' : M _ A) P : (∀ s, m s = m' s) → uses m' P → uses m P.
Proof. intros E Hm s a s'. rewrite E. apply Hm. Qed.

Lemma quiet_k_Get e k : quiet e (k_Get k).
Proof. eapply uses_ext; [apply k_Get_call|]. by apply uses_call. Qed.
Lemma quiet_k_GetVersion e k : quiet e (k_GetVersion k).
Proof. eapply uses_ext; [apply k_GetVersion_call|]. by apply uses_call. Qed.
Lemma quiet_k_Put e k v r : quiet e (k_Put k v IGNORE_VERSION r).
Proof. eapply uses_ext; [apply k_Put_call|]. by apply uses_call. Qed.
Lemma quiet_ret {A} e (a : A) : quiet e (mret_ a).
Proof. by apply quiet_offline. Qed.
Lemma quiet_undef {A} e : quiet e (undef_ (A := A)).
Proof. by apply quiet_offline. Qed.
Lemma quiet_assert e b : quiet e (assert_ b).
Proof. apply quiet_offline. intros s w. unfold assert_. by destruct b. Qed.
Lemma quiet_on_pmap {A} e (op : M PathMapDB A) : quiet e (on_pmap op).
Proof. apply quiet_offline. intros s w. unfold on_pmap, zoom. cbn. by destruct (op (pmap_ s)). Qed.

Ltac quiet :=
  repeat (cbv beta zeta; first
    [ progress intros
    | solve [auto using quiet_k_Get, quiet_k_GetVersion, quiet_k_Put, quiet_ret, quiet_undef, quiet_assert, quiet_on_pmap]
    | match goal with
      | |- scripted _ => solve [scripted]
      | |- quiet _ (mbind_ get_ _) => apply quiet_get
      | |- quiet _ (mbind_ _ _) => apply quiet_bind
      | |- quiet _ (if ?b then _ else _) => destruct b
      | |- quiet _ (match ?x with _ => _ end) => destruct x
      end ]).

Lemma quiet_database_update e : quiet e database_update.
Proof.
  assert (Hent : ∀ n v acc, quiet e (get_db_entries n v acc)).
  { induction n as [|n IH]; intros v acc; cbn [get_db_entries]; unfold get_db_entry; quiet. }
  unfold database_update, update_to, get_db_version, get_db_entry, get_db_snapshot. quiet.
Qed.

(** Written exactly if 0 is returned. *)
Definition written_if_0 e (r : Z) (u : list (call * answer)) : Prop := times_written e u = if r =? 0 then 1%nat else 0%nat.

Lemma uses_put_db_entry v e : uses (put_db_entry v e) (written_if_0 e).
Proof.
  unfold put_db_entry.
  eapply (uses_bind _ _ (λ st u, times_written e u = if is_ok st then 1%nat else 0%nat)
    (λ st r u, times_written e u = 0%nat ∧ (r =? 0) = is_ok st)); [scripted| | |].
  - eapply uses_ext; [apply k_Put_call|]. apply uses_call. intros []; try done. unfold times_written. cbn. destruct st; cbn; try done. by rewrite bool_decide_true.
  - intros st. destruct (decide (st = REMOTE_VERSION_MISMATCH)) as [->|Hne]; [by apply uses_offline; [|by intros s a s' [= <- _]]|].
    rewrite bool_decide_false by done. destruct (is_ok st) eqn:Hok; cbn [negb].
    + eapply (uses_bind _ _ (λ _ u, times_written e u = 0%nat) (λ _ r u, times_written e u = 0%nat ∧ r = 0)); [scripted|apply quiet_k_Put| |].
      * intros _. by apply uses_offline; [|by intros s a s' [= <- _]].
      * intros _ u r u' Hu [Hu' ->]. rewrite times_written_app. split; [lia|done].
    + by apply uses_offline; [|by intros s a s' [= <- _]].
  - intros st u r u' Hu [Hu' Hr]. unfold written_if_0. rewrite times_written_app, Hu, Hu', Hr. by destruct (is_ok st).
Qed.

Lemma uses_get {B} (f : hflat_priv script → M _ B) P : (∀ s, uses (f s) P) → uses (mbind_ get_ f) P.
Proof. intros Hf s. apply (Hf s). Qed.

Lemma uses_ret {A} (a : A) (P : A → _ → Prop) : P a [] → uses (mret_ a) P.
Proof. intros HP. by apply uses_offline; [|intros s a' s' [= <- _]]. Qed.

Lemma uses_database_operation fuel e : uses (database_operation fuel e) (written_if_0 e).
Proof.
  induction fuel as [|f IH]; cbn [database_operation]; [by apply uses_offline|]. apply uses_get. intros s.
  eapply (uses_bind _ _ (written_if_0 e) (λ a r u, if a =? 0 then times_written e u = 0%nat ∧ r = 0 else written_if_0 e r u));
    [scripted|apply uses_put_db_entry| |].
  - intros a. destruct (a =? 0) eqn:Ha.
    + eapply (uses_bind _ _ (λ _ u, times_written e u = 0%nat) (λ _ r u, times_written e u = 0%nat ∧ r = 0)); [scripted|apply quiet_on_pmap| |].
      * intros _. eapply (uses_bind _ _ (λ _ u, times_written e u = 0%nat) (λ _ r u, times_written e u = 0%nat ∧ r = 0)); [scripted| | |].
        -- unfold put_db_snapshot. match goal with |- uses ?m _ => change (quiet e m) end. quiet.
        -- intros _. by apply uses_ret.
        -- intros _ u r u' Hu [Hu' ->]. rewrite times_written_app. split; [lia|done].
      * intros _ u r u' Hu [Hu' ->]. rewrite times_written_app. split; [lia|done].
    + destruct (a =? - EEXIST); cbn [negb]; [|apply uses_ret; unfold written_if_0; by rewrite Ha].
      eapply (uses_bind _ _ (λ _ u, times_written e u = 0%nat) (λ _, written_if_0 e)); [scripted|apply quiet_database_update| |].
      * intros err. destruct (err =? 0) eqn:He; cbn [negb]; [exact IH|]. apply uses_ret. unfold written_if_0. by rewrite He.
      * intros _ u r u' Hu. unfold written_if_0. rewrite times_written_app. lia.
  - intros a u r u'. unfold written_if_0. rewrite times_written_app. destruct (a =? 0); [intros -> [-> ->]; done|]. lia.
Qed.

End Writes.
