(* ===== verification/DatabaseSyncFacts.v ===== *)
(** * The database protocol between calls: properties *)
From S2P Require Import Prelude CppString Proto PathMapDB PathMapLog LRUCache DataInfo MetadataInfo Kinetic FsState Demo KineticHelper Util HelperFacts DatabaseFacts Interleave Scripted DatabaseSync DatabaseLogic.

Section System.
Context `{!Env} `{!MessageSpec db_entry} `{!MessageSpec db_snapshot}.
Implicit Types (log : list db_entry) (db : PathMapDB) (s : hflat_priv script) (e : db_entry).
Context (snapshot_wf : ∀ log db, consistent log db → Z.of_nat (length log) < 9223372036854775807 →
  msg_wf (serializeSnapshot env_iter db)).
Context (iter_perm : ∀ m, env_iter m ≡ₚ map_to_list m).

(** ** The drives *)

(** The log, a version key that names one of its entries, and a snapshot of one of
    its prefixes. *)
Definition db_ok (σ : store) log : Prop :=
  db_log σ log ∧
  (∀ r, σ !! db_version_key = Some r → ∃ n, kr_version r = to_string n ∧ 1 <= n <= Z.of_nat (length log)) ∧
  (∀ r, σ !! snapshot_key = Some r → ∃ db, kr_value r = SerializeAsString (serializeSnapshot env_iter db) ∧ consistent log db).

Lemma entry_is_db_key v : is_db_key (db_key v).
Proof. right; right. by exists v. Qed.

Lemma db_ok_ext σ σ' log : (∀ k, is_db_key k → σ' !! k = σ !! k) → db_ok σ log → db_ok σ' log.
Proof.
  intros Hk ([H1 H2] & H3 & H4). unfold db_ok, db_log. split_and!.
  - intros i e He. rewrite Hk by apply entry_is_db_key. by apply H1.
  - intros v Hv. rewrite Hk by apply entry_is_db_key. by apply H2.
  - intros r. rewrite Hk by (by left). apply H3.
  - intros r. rewrite Hk by (by right; left). apply H4.
Qed.

Lemma db_log_taken σ log n : db_log σ log → 1 <= n <= Z.of_nat (length log) → ¬ version_matches σ (db_key n) [] REQUIRE_SAME_VERSION.
Proof.
  intros [H1 _] Hn. destruct (lookup_lt_is_Some_2 log (Z.to_nat (n - 1))) as [x Hx]; [lia|].
  destruct (H1 _ _ Hx) as (r & Hr & _ & Hv). replace (Z.of_nat (Z.to_nat (n - 1)) + 1) with n in * by lia.
  unfold version_matches. rewrite Hr, Hv. intros Hk. symmetry in Hk. by apply to_string_not_nil in Hk.
Qed.

Lemma db_log_found σ log n r : db_log σ log → 1 <= n → σ !! db_key n = Some r →
  ∃ e, in_log log n e ∧ ParseFromString (kr_value r) = Some e.
Proof.
  intros [H1 H2] Hn Hr. destruct (Z.le_gt_cases n (Z.of_nat (length log))) as [Hle|Hgt].
  - destruct (lookup_lt_is_Some_2 log (Z.to_nat (n - 1))) as [x Hx]; [lia|]. destruct (H1 _ _ Hx) as (r' & Hr' & Hp & _).
    replace (Z.of_nat (Z.to_nat (n - 1)) + 1) with n in * by lia. simplify_eq. by exists x.
  - rewrite H2 in Hr by lia. done.
Qed.

Lemma db_ok_append σ log e r : db_ok σ log → ParseFromString (kr_value r) = Some e →
  kr_version r = to_string (Z.of_nat (length log) + 1) → db_ok (<[db_key (Z.of_nat (length log) + 1) := r]> σ) (log ++ [e]).
Proof.
  intros ([H1 H2] & H3 & H4) Hp Hv. unfold db_ok, db_log. rewrite length_app. cbn [length]. split_and!.
  - intros i x Hx. apply lookup_app_Some in Hx as [Hx|[Hi Hx]].
    + pose proof (lookup_lt_Some _ _ _ Hx). rewrite lookup_insert_ne by (intros ?%(inj db_key); lia). by apply H1.
    + apply list_lookup_singleton_Some in Hx as [Hi' <-]. assert (i = length log) as -> by lia. rewrite lookup_insert_eq. eauto.
  - intros v Hlt. rewrite lookup_insert_ne by (intros ?%(inj db_key); lia). apply H2. lia.
  - intros r0. rewrite lookup_insert_ne by apply db_key_version. intros (n & ? & ?)%H3. exists n. split; [done|lia].
  - intros r0. rewrite lookup_insert_ne by apply db_key_snapshot. intros (db & ? & ?)%H4. exists db. split; [done|by apply consistent_grow].
Qed.

(** A write that takes effect, and fits. *)
Lemma put_step σ log k v mode r : db_ok σ log → fits log (CPut k v mode r) → version_matches σ k v mode →
  ∃ log', log `prefix_of` log' ∧ db_ok (<[k := r]> σ) log' ∧
    ∀ n, k = db_key n → ∃ e, in_log log' n e ∧ ParseFromString (kr_value r) = Some e.
Proof.
  intros Hok (F1 & F2 & F3) Hm. destruct (decide (k = db_key (Z.of_nat (length log) + 1))) as [->|Hne].
  { destruct (F1 _ eq_refl) as (-> & -> & Hv & _ & e & He). exists (log ++ [e]). split; [by exists [e]|]. split; [by apply db_ok_append|].
    intros n <-%(inj db_key). exists e. split; [|done]. split; [lia|]. apply list_lookup_middle. lia. }
  assert (Hkey : ∀ n, k ≠ db_key n).
  { intros n ->. destruct (F1 _ eq_refl) as (-> & -> & _ & Hn & _). apply (db_log_taken σ log n (proj1 Hok)); [|done].
    destruct (decide (n = Z.of_nat (length log) + 1)); [congruence|lia]. }
  exists log. split; [done|]. split; [|by intros n ?%Hkey]. destruct Hok as ([H1 H2] & H3 & H4). unfold db_ok, db_log. split_and!.
  - intros i e He. rewrite lookup_insert_ne by apply Hkey. by apply H1.
  - intros n Hn. rewrite lookup_insert_ne by apply Hkey. by apply H2.
  - intros r0. rewrite lookup_insert. case_decide as Hk; [|apply H3]. intros [= <-]. by apply F2.
  - intros r0. rewrite lookup_insert. case_decide as Hk; [|apply H4]. intros [= <-]. by apply F3.
Qed.

(** One call keeps the log, or adds one entry to it. *)
Lemma serve_step σ log c a σ' : db_ok σ log → fits log c → serves σ c a σ' →
  ∃ log', log `prefix_of` log' ∧ db_ok σ' log' ∧ answered log' (c, a).
Proof.
  intros Hok Hf Hs. destruct Hs as [k st r Hst|k st v Hst|k v mode r st σ' H1 H2 H3|k v mode st σ' H1 H2 H3 H4| |].
  - exists log. split; [done|]. split; [done|]. cbn. intros ->. destruct Hst as (x & -> & Hx); [done|]. exists x. split; [done|].
    split; [intros n Hn ->; by apply (db_log_found σ log n x (proj1 Hok))|]. intros ->. by apply Hok.
  - exists log. split; [done|]. split; [done|]. cbn. intros -> ->. destruct Hst as (x & -> & Hx); [done|].
    destruct (proj1 (proj2 Hok) x Hx) as (n & -> & Hn). by exists n.
  - destruct (decide (st = OK)) as [->|Hne].
    + destruct (H1 eq_refl) as [Hm ->]. destruct (put_step _ _ _ _ _ _ Hok Hf Hm) as (log' & ? & ? & ?). exists log'. split_and!; [done|done|by intros _].
    + assert (Hans : ∀ log', answered log' (CPut k v mode r, AStatus st)) by (by intros ? ?).
      destruct H3 as [->|(_ & _ & Hm & ->)]; [by exists log|].
      destruct (put_step _ _ _ _ _ _ Hok Hf Hm) as (log' & ? & ? & ?). exists log'. by split_and!.
  - exists log. split; [done|]. split; [|done]. destruct H4 as [->|(_ & _ & _ & ->)]; [done|].
    eapply db_ok_ext; [|exact Hok]. intros k' Hk'. rewrite lookup_delete_ne; [done|]. by intros ->.
  - by exists log.
  - by exists log.
Qed.

(** ** All clients *)

(** What a client knows is true of the log. *)
Definition client_ok log (c : db_client) : Prop :=
  consistent log (pmap_ (cl_state c)) ∧ Forall (answered log) (cl_calls c) ∧ ∀ j, cl_job c = Some j → job_wf j.

Definition dinv (sys : dsys) log : Prop :=
  db_ok (ds_store sys) log ∧ room (ds_store sys) ∧ ∀ i c, ds_all sys !! i = Some c → client_ok log c.

Lemma client_ok_grow log log' c : log `prefix_of` log' → client_ok log c → client_ok log' c.
Proof.
  intros Hp (H1 & H2 & H3). split; [by eapply consistent_prefix|]. split; [|done].
  eapply Forall_impl; [exact H2|]. intros ca. by apply answered_grow.
Qed.

Lemma room_short σ log : db_log σ log → room σ → Z.of_nat (length log) < 9223372036854775807.
Proof.
  intros Hlog Hr. apply Z.nle_gt. intros Hle. destruct (lookup_lt_is_Some_2 log (Z.to_nat (9223372036854775807 - 1))) as [x Hx]; [lia|].
  destruct (proj1 Hlog _ _ Hx) as (r & Hk & _). rewrite Z2Nat.id in Hk by lia. unfold room in Hr.
  replace (9223372036854775807 - 1 + 1) with 9223372036854775807 in Hk by lia. congruence.
Qed.

Lemma resume_safe log j s l : Z.of_nat (length log) < 9223372036854775807 → client_ok log (mk_db_client s (Some j) l) →
  script_ok log (end_of (resume j s l)) ∧ ∀ r s', resume j s l = Ret r s' → waiting (kinetic s') = None →
    consistent log (pmap_ s') ∧ (r = 0 → ∀ f e, j = Append f e → ∃ v, applied log (pmap_ s') e v).
Proof.
  intros Hlen (Hc & Ha & Hj). cbn in *. specialize (Hj j eq_refl). unfold resume.
  assert (Hrun : safe log (pmap_ s) (run_job j) (λ r db', consistent log db' ∧ (r = 0 → ∀ f e, j = Append f e → ∃ v, applied log db' e v))).
  { destruct j as [f e|]; cbn [run_job].
    - eapply safe_mono; [by apply safe_database_operation|]. intros r db' [? Hr]. split; [done|]. intros Hno f' e' [= <- <-]. by apply Hr.
    - eapply safe_mono; [by apply safe_database_update|]. by intros r db' ?. }
  apply (Hrun (set_kinetic (mk_script l None) s)); [by split|done].
Qed.

(** A change of one client. *)
Lemma dinv_client σ cs log i c : dinv (mk_dsys σ cs) log → client_ok log c → dinv (mk_dsys σ (<[i := c]> cs)) log.
Proof.
  intros (H1 & H2 & H3) Hc. split; [done|]. split; [done|]. cbn. intros i' c'. rewrite lookup_insert. case_decide; [|apply H3].
  by intros [= <-].
Qed.

Lemma dinv_step sys sys' log : dinv sys log → dstep sys sys' → ∃ log', log `prefix_of` log' ∧ dinv sys' log'.
Proof.
  intros Hinv Hs. destruct Hs as [σ cs i s Hi Hp|σ cs i s j Hi Hj|σ cs i s j l c a σ' Hi Hw Hsv Hroom|σ cs i s j l err s' Hi Hr Hw|
    σ cs i s j l Hi Hw Hcr|σ cs σ' Hk|σ cs i s s' Hi Hp].
  - exists log. split; [done|]. apply dinv_client; [done|]. split; [cbn; rewrite Hp; apply consistent_new|]. by split.
  - exists log. split; [done|]. apply dinv_client; [done|]. destruct (proj2 (proj2 Hinv) _ _ Hi) as (Hc & _). split; [done|].
    split; [by constructor|]. by intros j' [= <-].
  - destruct Hinv as (Hdb & Hro & Hcs). pose proof (Hcs _ _ Hi) as Hc. pose proof (room_short _ _ (proj1 Hdb) Hro) as Hlen.
    destruct (resume_safe log j s l Hlen Hc) as [[_ Hfit] _].
    destruct (serve_step _ _ _ _ _ Hdb (Hfit c Hw) Hsv) as (log' & Hpre & Hdb' & Hans). exists log'. split; [done|].
    apply dinv_client; [split; [done|]; split; [done|]; intros i' c' Hi'; eapply client_ok_grow; [done|]; by eapply Hcs|].
    apply (client_ok_grow _ _ _ Hpre) in Hc as (H1 & H2 & H3). split; [done|]. split; [|done].
    apply Forall_app. split; [done|by constructor].
  - exists log. split; [done|]. pose proof Hinv as (Hdb & Hro & Hcs). pose proof (room_short _ _ (proj1 Hdb) Hro) as Hlen.
    destruct (resume_safe log j s l Hlen (Hcs _ _ Hi)) as [_ HQ]. destruct (HQ _ _ Hr Hw) as [Hc _].
    apply dinv_client; [done|]. split; [done|]. by split.
  - exists log. split; [done|]. destruct Hinv as (H1 & H2 & H3). split; [done|]. split; [done|]. cbn. intros i' c' Hi'.
    apply lookup_delete_Some in Hi' as [_ Hi']. by eapply H3.
  - exists log. split; [done|]. destruct Hinv as (H1 & H2 & H3). split; [by eapply db_ok_ext|]. split; [|done]. unfold room. cbn [ds_store].
    rewrite Hk by apply entry_is_db_key. done.
  - exists log. split; [done|]. apply dinv_client; [done|]. destruct (proj2 (proj2 Hinv) _ _ Hi) as (Hc & _). split; [cbn; by rewrite Hp|]. by split.
Qed.

Lemma reachable_dinv σ0 sys : no_database σ0 → steps dstep (mk_dsys σ0 ∅) sys → ∃ log, dinv sys log.
Proof.
  intros Hno Hs. eapply (steps_invariant dstep (λ sys, ∃ log, dinv sys log)); [|clear Hs|exact Hs].
  - intros x y (log & Hinv) Hst. destruct (dinv_step _ _ _ Hinv Hst) as (log' & _ & ?). by exists log'.
  - exists []. split; [|split].
    + split; [split; [done|intros v _; apply Hno, entry_is_db_key]|].
      split; intros r; rewrite Hno; [done|by left|done|by right; left].
    + unfold room. apply Hno, entry_is_db_key.
    + intros i c. cbn. by rewrite lookup_empty.
Qed.

(** Every call a client is said to have made is one its job makes. *)
Definition drained (c : db_client) : Prop := ∀ j, cl_job c = Some j →
  todo (kinetic (end_of (resume j (cl_state c) (cl_calls c)))) = [].

Lemma scripted_run_job j : scripted (run_job j).
Proof. destruct j; cbn [run_job]; scripted. Qed.

Lemma drained_step sys sys' : (∀ i c, ds_all sys !! i = Some c → drained c) → dstep sys sys' →
  ∀ i c, ds_all sys' !! i = Some c → drained c.
Proof.
  intros Hd Hs. assert (Hins : ∀ σ (cs : gmap nat db_client) i c, (∀ i c, cs !! i = Some c → drained c) → drained c →
    ∀ i' c', ds_all (mk_dsys σ (<[i := c]> cs)) !! i' = Some c' → drained c').
  { cbn. intros σ cs i c Hcs Hc i' c'. rewrite lookup_insert. case_decide; [|apply Hcs]. by intros [= <-]. }
  destruct Hs as [σ cs i s Hi Hp|σ cs i s j Hi Hj|σ cs i s j l c a σ' Hi Hw Hsv Hroom|σ cs i s j l err s' Hi Hr Hw|
    σ cs i s j l Hi Hw Hcr|σ cs σ' Hk|σ cs i s s' Hi Hp]; cbn in Hd; try (apply Hins; [done|by intros ?]); try done.
  - apply Hins; [done|]. intros j' [= <-]. cbn. by apply (sc_drained _ (scripted_run_job j)).
  - apply Hins; [done|]. intros j' [= <-]. cbn. specialize (Hd _ _ Hi j eq_refl). cbn in Hd.
    by apply (sc_prompt _ (scripted_run_job j) (set_kinetic (mk_script l None) s) c a Hw).
  - cbn. intros i' c' Hi'. apply lookup_delete_Some in Hi' as [_ Hi']. by eapply Hd.
Qed.

Lemma reachable_drained σ0 sys i c : steps dstep (mk_dsys σ0 ∅) sys → ds_all sys !! i = Some c → drained c.
Proof.
  intros Hs. revert i c. eapply (steps_invariant dstep (λ sys, ∀ i c, ds_all sys !! i = Some c → drained c)); [|clear Hs|exact Hs].
  - intros x y. apply drained_step.
  - intros i c. cbn. by rewrite lookup_empty.
Qed.

(** C3: clients overlap, calls fail or are lost, clients crash: nevertheless there
    is one log on the drives, the path map of every client is the replay of a prefix
    of it, and two clients at the same version agree on every path. *)
Theorem overlapping_clients_agree σ0 sys : no_database σ0 → steps dstep (mk_dsys σ0 ∅) sys →
  ∃ log, db_log (ds_store sys) log ∧
    (∀ i c, ds_all sys !! i = Some c → consistent log (pmap_ (cl_state c))) ∧
    ∀ i i' c c', ds_all sys !! i = Some c → ds_all sys !! i' = Some c' →
      snapshotVersion (pmap_ (cl_state c)) = snapshotVersion (pmap_ (cl_state c')) → pmap_ (cl_state c) = pmap_ (cl_state c').
Proof.
  intros Hno Hs. destruct (reachable_dinv _ _ Hno Hs) as (log & Hdb & _ & Hcs). exists log. split; [apply Hdb|].
  split; [intros i c Hi; by apply (Hcs i)|]. intros i i' c c' Hi Hi'. apply (consistent_unique log); by eapply Hcs.
Qed.

(** C4: [database_operation] among overlapping operations: when it returns 0,
    exactly one of its calls has written its entry, the entry is in the log, and its
    client has applied it as the last one (unless it is of a type no path map
    accepts). When it returns an error, none of its writes has been acknowledged. *)
Theorem overlapping_append_once σ0 sys i s fuel e l err s' : no_database σ0 → steps dstep (mk_dsys σ0 ∅) sys →
  ds_all sys !! i = Some (mk_db_client s (Some (Append fuel e)) l) →
  resume (Append fuel e) s l = Ret err s' → waiting (kinetic s') = None →
  times_written e l = (if err =? 0 then 1%nat else 0%nat) ∧
  ∃ log, db_log (ds_store sys) log ∧ consistent log (pmap_ s') ∧ (err = 0 → ∃ v, applied log (pmap_ s') e v).
Proof.
  intros Hno Hs Hi Hr Hw. split.
  - destruct (uses_database_operation fuel e _ _ _ Hr Hw) as (u & Hu & HP).
    pose proof (reachable_drained _ _ _ _ Hs Hi _ eq_refl) as Hd. cbn [cl_state cl_calls] in Hd. rewrite Hr in Hd. cbn [end_of] in Hd.
    rewrite Hd, app_nil_r in Hu. cbn in Hu. by subst u.
  - destruct (reachable_dinv _ _ Hno Hs) as (log & Hdb & Hro & Hcs).
    destruct (resume_safe log _ s l (room_short _ _ (proj1 Hdb) Hro) (Hcs _ _ Hi)) as [_ HQ].
    destruct (HQ _ _ Hr Hw) as [Hc Ha]. exists log. split; [apply Hdb|]. split; [done|]. intros Herr. by apply (Ha Herr fuel).
Qed.
End System.

(** ** Schedules *)
Section Schedules.
Context `{!Env} `{!MessageSpec db_entry}.

Lemma perform_store_serves (c : call) (σ : store) (a : answer) σ' : perform (W := store) c σ = (a, σ') → serves σ c a σ'.
Proof.
  intros Hp. destruct c as [k|k|k v mode r|k v mode|lo hi n|].
  1-4: pose proof (perform_serves (W := store) _ σ a σ' Hp) as Hs; cbn [changes_content] in Hs;
    change (contents σ) with σ in Hs; change (contents σ') with σ' in Hs; apply Hs; eauto.
  all: cbn in Hp; injection Hp as <- <-; constructor.
Qed.

Definition starts_wf (x : nat * action) : Prop := match x.2 with Do j => job_wf j | _ => True end.

Lemma act_step sys x sys' : starts_wf x → act sys x = Some sys' → dstep sys sys'.
Proof.
  destruct x as [i x], sys as [σ cs]. intros Hwf Ha. unfold act in Ha.
  destruct (cs !! i) as [[s [j|] l]|] eqn:Hi; [|cbn -[decide] in Ha|done]; cbn -[decide] in Ha.
  - destruct x as [j'| |]; [done|..].
    + destruct (waits_with (resume j s l)) as [c|] eqn:Hw; [|done]. cbn -[decide] in Ha. destruct (perform c σ) as [a σ'] eqn:Hp.
      case_decide; [|done]. injection Ha as <-. by eapply d_call; [exact Hi|exact Hw|apply perform_store_serves|].
    + destruct (resume j s l) as [err s'| | | | | |] eqn:Hr; try done. destruct (waiting (kinetic s')) eqn:Hw; [done|].
      injection Ha as <-. by eapply d_return.
  - destruct l, x as [j| |]; try done. injection Ha as <-. by apply d_start.
Qed.

Lemma run_actions_steps xs sys sys' : Forall starts_wf xs → run_actions xs sys = Some sys' → steps dstep sys sys'.
Proof.
  revert sys. induction xs as [|x xs IH]; intros sys Hwf Hr; cbn [run_actions] in Hr; [by injection Hr as <-; constructor|].
  apply Forall_cons in Hwf as [Hx Hwf]. destruct (act sys x) as [sys1|] eqn:Ha; [|done]. cbn in Hr.
  eapply steps_trans; [apply steps_one; by eapply act_step|by apply IH].
Qed.
End Schedules.

(** ** Two clients *)
#[local] Existing Instance demo_env.
#[local] Existing Instance demo_db_snapshot_spec.
#[local] Instance demo_sync_entries : @MessageSpec db_entry env_db_entry := demo_db_entry_spec.
#[local] Instance demo_sync_snapshots : @MessageSpec db_snapshot env_db_snapshot := demo_db_snapshot_spec.

Lemma demo_snapshot_wf log db : consistent log db → Z.of_nat (length log) < 9223372036854775807 →
  msg_wf (serializeSnapshot env_iter db).
Proof.
  intros Hc Hlen. pose proof Hc as (n & Hn & Hv & _)%consistent_version. destruct (consistent_times _ _ Hc) as [_ Ht].
  split; cbn; [unfold is_int64; lia|]. apply Forall_forall. intros x ((k & e) & -> & Hx)%list_elem_of_fmap.
  apply elem_of_map_to_list in Hx. specialize (Ht k e Hx). split; cbn; [unfold is_int64; lia|by eexists].
Qed.

Definition demo_idle : db_client :=
  mk_db_client (mk_hflat_priv (mk_script [] None) (LRU_new 0 1000) (LRU_new 0 500) PathMapDB_new 1048576 TIMERELAXED 0 0 ∅ ∅ 1 0 0 0
    (mk_fuse_context 0 0)) None [].
Definition demo_two : dsys := mk_dsys ∅ (<[1%nat := demo_idle]> (<[0%nat := demo_idle]> ∅)).

Lemma demo_two_reachable : steps dstep (mk_dsys ∅ ∅) demo_two.
Proof.
  eapply steps_step; [apply steps_one|].
  - by apply (d_mount ∅ ∅ 0 (cl_state demo_idle)).
  - by apply (d_mount ∅ _ 1 (cl_state demo_idle)).
Qed.

(** The state after a schedule. *)
Definition demo_after (xs : list (nat * action)) : dsys := default demo_two (run_actions xs demo_two).

Lemma demo_after_reachable xs : Forall starts_wf xs → steps dstep (mk_dsys ∅ ∅) (demo_after xs).
Proof.
  intros Hwf. unfold demo_after. destruct (run_actions xs demo_two) as [sys|] eqn:E; [|apply demo_two_reachable].
  eapply steps_trans; [apply demo_two_reachable|by eapply run_actions_steps].
Qed.

Definition demo_chmod : db_entry := mk_db_entry (lit "/a") db_entry_Type_NONE [].

(** Client 0 has written entry 1 but not yet its version; client 1 meanwhile
    catches up and appends entry 2. *)
Definition overlap : list (nat * action) :=
  [(0%nat, Do (Append 3 demo_chmod)); (0%nat, Next);
   (1%nat, Do Update); (1%nat, Next); (1%nat, Next); (1%nat, Next); (1%nat, Finish);
   (1%nat, Do (Append 3 demo_chmod)); (1%nat, Next); (1%nat, Next)].

(** Then client 0 goes on: it sets the version back to 1. *)
Definition set_back : list (nat * action) :=
  overlap ++ [(1%nat, Finish); (0%nat, Next); (0%nat, Next); (0%nat, Finish); (1%nat, Do Update); (1%nat, Next)].

Definition client_of (sys : dsys) (i : nat) : db_client := default demo_idle (ds_all sys !! i).
Definition run_of (c : db_client) : outcome (hflat_priv script) Z := resume (default Update (cl_job c)) (cl_state c) (cl_calls c).
Definition fails_assertion {S A} (o : outcome S A) : bool := match o with AssertFail _ => true | _ => false end.

(** A slow client sets the version key back: the next update of a client that
    is ahead of it fails the assertion [dbVersion >= snapshotVersion]. *)
Theorem version_set_back_crashes :
  ∃ sys, steps dstep (mk_dsys ∅ ∅) sys ∧ fails_assertion (run_of (client_of sys 1)) = true.
Proof.
  exists (demo_after set_back). split; [apply demo_after_reachable; repeat constructor|].
  vm_compute. reflexivity.
Qed.

(** One entry appended by client 0 without interference: two writes, a third for
    the snapshot if the version before was a multiple of 42. *)
Definition append_alone (v : nat) : list (nat * action) :=
  (0%nat, Do (Append 1 demo_chmod)) :: replicate (if (v mod 42 =? 0)%nat then 3 else 2) (0%nat, Next) ++ [(0%nat, Finish)].

(** Client 1 has read version 43 when client 0 goes on to version 85, where it
    stores the next snapshot. *)
Definition overtaken : list (nat * action) :=
  concat (map append_alone (seq 0 43)) ++ [(1%nat, Do Update); (1%nat, Next)] ++
  concat (map append_alone (seq 43 42)) ++ [(1%nat, Next)].

(** A client that is far behind reads the version and then a snapshot. When
    another client stores a newer snapshot in between, the assertion on the number of
    entries in [updateSnapshot] fails. *)
Theorem newer_snapshot_crashes :
  ∃ sys, steps dstep (mk_dsys ∅ ∅) sys ∧ fails_assertion (run_of (client_of sys 1)) = true.
Proof.
  exists (demo_after overtaken). split; [apply demo_after_reachable|vm_compute; reflexivity].
  unfold overtaken. repeat (apply Forall_app; split); try by repeat constructor.
  all: apply Forall_concat, Forall_map, Forall_true; intros v; apply Forall_cons; split; [exact I|].
  all: apply Forall_app; split; [by apply Forall_replicate|by repeat constructor].
Qed.

(** The first client's operation when the second has overtaken it: its entry is
    written, its version is not yet. *)
Definition finished : list (nat * action) := overlap ++ [(0%nat, Next); (0%nat, Next)].

Lemma overlapping_clients_agree_witness :
  ∃ log, db_log (ds_store (demo_after set_back)) log ∧ consistent log (pmap_ (cl_state (client_of (demo_after set_back) 1))) ∧
    snapshotVersion (pmap_ (cl_state (client_of (demo_after set_back) 1))) = 2.
Proof.
  destruct (overlapping_clients_agree demo_snapshot_wf (λ m, reflexivity _) ∅ (demo_after set_back)) as (log & H1 & H2 & _).
  - intros k _. apply lookup_empty.
  - apply demo_after_reachable. repeat constructor.
  - exists log. split; [exact H1|]. split; [|vm_compute; reflexivity].
    apply (H2 1%nat). vm_compute. reflexivity.
Defined.

Lemma overlapping_append_once_witness :
  times_written demo_chmod (cl_calls (client_of (demo_after finished) 0)) = 1%nat ∧
  ∃ log, db_log (ds_store (demo_after finished)) log ∧ ∃ v, in_log log v demo_chmod.
Proof.
  destruct (overlapping_append_once demo_snapshot_wf (λ m, reflexivity _) ∅ (demo_after finished) 0
    (cl_state (client_of (demo_after finished) 0)) 3 demo_chmod (cl_calls (client_of (demo_after finished) 0)) 0
    (state_after (run_of (client_of (demo_after finished) 0)) (cl_state demo_idle))) as (H1 & log & H2 & _ & H3).
  - intros k _. apply lookup_empty.
  - apply demo_after_reachable. repeat constructor.
  - vm_compute. reflexivity.
  - apply result_of_Ret. vm_compute. reflexivity.
  - vm_compute. reflexivity.
  - split; [exact H1|]. exists log. split; [exact H2|]. destruct (H3 eq_refl) as (v & Hv & _). exists v. exact Hv.
Defined.
